(* ===== verification/_CoqProject ===== *)
-Q . S2P
Prelude.v
Text.v
Digest.v
EffectKey.v
Index.v
Merkle.v
Checkpoint.v
Witness.v
Label.v
Identity.v
Panel.v
Tainted.v
SinkGate.v
Budget.v
Quota.v
Plan.v
Replay.v
Retry.v
Authority.v
Chain.v
JournalRow.v
Journal.v
JournalRuns.v
JournalTrace.v
JournalSafety.v
Worklist.v
Mailbox.v
MailboxSafety.v
MailboxMeet.v
MailboxFate.v
Delivery.v
DeliveryRuns.v
Timers.v
Cases.v
CasesTables.v
CasesOwed.v
CasesSafety.v
CasesRuns.v
Dispatch.v
DispatchSafety.v
DispatchOnce.v
DispatchReplay.v
Groups.v
Saga.v
GroupHost.v
GroupSafety.v
GroupRuns.v
Memory.v
MemoryCascade.v
MemorySafety.v
MemoryLineage.v
MemoryIndex.v
MemoryRuns.v
MemoryCalls.v
