(* ===== verification/Prelude.v ===== *)
(** * agentplane: a verification library

    agentplane runs agents whose every external effect is journaled, gated and
    replayable.  This library models the parts of it that are pure decisions
    over recorded data, as executable Rocq definitions translated from the Rust
    sources under [src/src/], and proves what makes them correct.

    ** How the program fits together

    A run is admitted with a plan ([core/plan.rs], checked by [plan/mod.rs]) and
    a budget ([core/budget.rs]).  The executor dispatches the plan's ready
    steps; each step reaches the world only through effects.  An effect is
    given a key ([core/id.rs]), its labelled arguments ([core/label.rs]) are
    judged by the sink gates ([runtime/ctx.rs]), the ledger admits and bills it
    ([core/budget.rs]), and its announcement and outcome are journaled
    ([journal/record.rs]).  A resumed or verified run reads those records back
    through a replay cursor ([journal/replay.rs]) instead of acting again.
    Finished runs enter a Merkle log ([core/merkle.rs]) whose checkpoints
    outsiders verify and witnesses cosign ([journal/witness.rs]).  A run acts
    for a chain of principals ([core/identity.rs]) and inside its tenant's
    quota ([quota/mod.rs], [store/redb_quota.rs]), which also holds the halts
    an operator sets.

    ** Files

    - [Prelude]: this file.  Machine integers as [Z] with the wrap or saturation
      written out, Rust's [Result] as a monad, join-semilattices as a class,
      strings as lists of [ascii], [BTreeSet] iteration order, list sums, and
      the tactics and hint database [plane].
    - [Digest] ([core/id.rs]): 32-byte digests, [of] and [chain]; SHA-256 is a
      class parameter, and theorems that need collision resistance ask for it
      on the finite list of inputs hashed.
    - [EffectKey] ([core/id.rs], [EffectKey::derive]): the encoding of an
      effect's position and content that its key hashes.
    - [Merkle] ([core/merkle.rs]): roots, inclusion and consistency proofs and
      both verifiers.
    - [Text]: what the sources use of Rust's standard text operations (white
      space, splitting, [u64] printed and parsed), with their round trip.
    - [Checkpoint] ([journal/store.rs], [Checkpoint]): a log head and its note
      text; base64 is the class [Base64] with its laws.
    - [Witness] ([journal/witness.rs]): the witness as a class, the in-process
      one, a quorum of them, and split views.
    - [Identity] ([core/identity.rs]): scopes and their containment, principals,
      delegation chains, admission and rehydration.
    - [Panel] ([core/quorum.rs], [core/assessment.rs]): declared panels and
      their tally, assessments and which of them stand.
    - [Quota] ([quota/mod.rs], [store/redb_quota.rs]): one tenant's rows and
      each store operation on them: slots, spend holds, settlements, rate
      windows, halts.
    - [Authority] ([authority/mod.rs], [authority/approval.rs],
      [store/redb_authority.rs]): mandates and standing approvals: terms, rules
      over a call's arguments, and the store's transactions on them; the
      canonical text of the terms is the class [TermsCodec].
    - [Chain] ([journal/record.rs], [journal/upcast.rs]): a record's body, its
      bytes and links, sealing, reading back through an upcaster, and verifying
      a history; JSON is the class [RecordCodec] with [CodecLaws].
    - [JournalRow], [Journal] ([store/redb.rs]): the row format, and one
      tenant's tables with every operation of the embedded store on them.
      [JournalRuns] and [JournalTrace] are the invariant of a store's state
      against the histories it stands for, record by record and operation by
      operation; [JournalSafety] what follows for any sequence of operations.
    - [Index]: secondary indexes of a store: a set lists exactly the keys its
      rows give, and what inserting, moving and deleting a row does to it;
      the orders a table's keys iterate in.
    - [Worklist] ([core/task.rs], [store/redb_tasks.rs], [core/operator.rs]):
      the human task list, its eligibility rules and every store operation.
    - [Mailbox] ([core/event.rs], [store/redb_events.rs], [case/events.rs]):
      inbound messages, subscriptions and every operation of the embedded
      store on them.  [MailboxSafety], [MailboxMeet] and [MailboxFate] are its
      invariants: tables and indexes agree, a message and a wait meet, and what
      became of a message.  [Delivery] and [DeliveryRuns]
      ([runtime/executor.rs], [runtime/ctx.rs]) compose it with the runs:
      delivery, redelivery, looks and retirement as interleaved single steps.
    - [Timers] ([case/timers.rs], [core/event.rs], [store/redb_timers.rs]): durable
      timers and the chunked due scan.
    - [Cases] ([core/case.rs], [case/mod.rs], [store/redb_cases.rs]): cases,
      their correlation keys, state, obligations, legal holds, erasure records
      and links, with every store operation.  [CasesTables] and [CasesOwed] are
      the invariants of its rows and of its obligations, [CasesSafety] the
      operations as steps and what follows for any sequence of them,
      [CasesRuns] one life of a case computed.
    - [Memory] ([memory/mod.rs], [store/redb_memory.rs]): governed memories:
      items and what a selection commits to, the tables, and every operation
      of the embedded store, the traversal of a cascading erasure among them.
      [MemoryCascade] is what that traversal reaches, [MemorySafety] the
      invariant of the tables and what each operation changes, [MemoryLineage]
      the operations in any order and the lineage their writes leave.
      [MemoryIndex] ([memory/indexed.rs]) is a semantic index as the class
      [SemanticRetriever], the shipped instance, and the store that tells an
      index what it erased; [MemoryRuns] the properties and one life computed.
      [MemoryCalls] ([runtime/ctx.rs], [runtime/effects.rs]) is what a step's
      [remember], [recall] and [compact] make of the store, over [Tainted].
    - [Label] ([core/label.rs], [core/canon.rs]): labels and their join, the
      JSON pointer grammar, releases and protected-field declarations.
    - [Tainted] ([core/label.rs], [Tainted<T>]): values with whole-value and
      per-field labels and release marks; assembly, projection, release and
      effective labels.  JSON lookup is the class [JsonOps] with the laws
      [JsonLaws] that [serde_json]'s pointer has, instantiated by [JsonModel].
    - [SinkGate] ([runtime/ctx.rs], [StepCtx::sink] and
      [enforce_protected_fields]): the gates between a value and a sink.
    - [Budget] ([core/budget.rs]): the ledger, one definition per method; a
      ledger's life is a list of [Call]s in lock order.
    - [Plan] ([core/plan.rs], [plan/mod.rs]): plans, their builders, the ready
      set and the whole contract, with the cycle check's explicit stack.
    - [Replay] ([journal/replay.rs]): the fold of records into cursors, the
      ordered read, and the effects a history leaves in doubt.
    - [Retry] ([core/retry.rs], [core/error.rs]): how an effect fails, what a
      failure says, and how long the plane waits before the next attempt.
    - [Dispatch] ([runtime/ctx.rs], [effect_unlabelled] and what it calls): one
      effect gated, announced, performed, recorded, probed, retried, and read
      back; a state-passing computation over the step context in which the
      store, the callee and the probe answer from scripts, and a script that
      runs out is the process dying there.  [pass] is one pass over a journal,
      [life] a first pass and the passes that resume what it left.
    - [DispatchSafety], [DispatchOnce], [DispatchReplay]: its theorems, by a
      small logic of postconditions over that computation.
    - [Groups] ([runtime/group.rs], [settle_abandoned_group] of
      [runtime/executor.rs]): effect groups as a state on the step context,
      over the class [Host] of the calls they make; a skill is a term indexed
      by whether it holds the group's handle.
    - [Saga]: the abstract contract of a group, an automaton, and the refinement.
    - [GroupHost] ([commit_atomic] of [runtime/group.rs]): the instance of
      [Host] over [Dispatch], with the transaction answering from a script;
      [GroupSafety] its law, [GroupRuns] whole groups computed.

    ** What the theorems show

    - History: a pass that asks for what the journal records is served exactly
      that and nothing else is accepted (lemma [replay_reproduces],
      lemma [strict_replay_exact], [interleaving_irrelevant],
      [superseded_decisions]); what is in doubt is what no record decided
      (lemma [undecided_spec]); keys identify effects (lemma [effect_key_identity]).
    - The store: after any sequence of operations every run verifies and only
      grows ([history_verifies]); a lost lease is lost for good ([fenced_out]);
      an effect starts once ([effect_starts_once]); the published log only
      grows and commits to the histories ([published_log], which composes
      [Journal] with [Checkpoint] and [Merkle]); the feed is the commit order
      and the listings its replay (lemma [feed_rebuilds]); a head commits to its
      history ([chain_commits]); a row decodes only from its own encoding
      (lemma [row_exact]); the byte scan for nesting depth is exact (lemma
      [nesting_depth_exact]).
    - The effect protocol: nothing is called before it is announced
      ([intent_precedes_action]); a failure is repeated exactly when that is
      safe and permitted ([retry_safety]); every dispatch ends
      (lemma [dispatch_ends]); a mutation lands at most once over any number of
      crashes and resumes ([at_most_once]), with the one window the code leaves
      open shown by a computed run (lemma [probe_window]); a strict pass reads back
      what the journal wrote of a live pass's answer, its canonical form
      ([answer_replays]); waits follow the declared schedule (lemmas [backoff_schedule], [advice_bounded]).
    - Waiting: every message is in one place and the mailbox's indexes list
      exactly its messages and waits, the retention order of the waits among
      them ([mailbox_exact]); a message has one
      holder (lemma [consumed_once]) and a wait one message
      (lemma [one_message_per_wait]); no message stays buffered beside a wait that
      takes it ([no_lost_wakeup]); across crashes and redelivery no message
      answers two waits ([recorded_once]) and, under a stated discipline, none
      is lost, a message claimed and not read being listed again by every
      redelivery pass with room for it ([nothing_lost]); three interleavings outside that discipline
      are computed (examples [stale_look_loses], [listed_first_loses],
      [erased_beside_loses]).  The due scan returns what one pass over the due
      timers would (lemma [claim_due_exact]), a wake-up is never early and is handed
      to one sweep per lease ([claim_exclusive]).
    - Memory: the tables agree and what a forgotten id held is never written again
      ([memory_exact]);
      recall is a page of the ranking ([recall_ranked]); a version never
      changes (lemma [version_immutable]), so a recall replays from its
      journaled selection, its search and the mark it leaves on the items being
      two journaled effects of which a crash may keep the first alone
      ([recall_replays], example [recall_stopped]); neither storing nor summarising
      launders ([memory_never_launders]); a hold keeps what it names ([held_kept]);
      a cascading erasure ends and removes exactly what it reaches or nothing
      ([cascade_exact]), which is everything ever derived
      ([erasure_reaches]), and the semantic index follows or is owed
      ([index_follows]).
    - Cases: every index lists exactly its rows and a closed case owes nothing
      ([cases_exact]); a key names one case until it is closed
      ([one_case_per_key]); a state write names the version it read and none is
      lost ([no_lost_update]); an obligation's terms and its end stand
      ([obligation_stands]); closing is refused exactly while something is owed
      ([close_answers]); a held case is not erased, nor an erased one held or
      changed ([hold_or_erasure]).  The store accepts more than
      these ask: operations outside their conditions, and what they leave, are
      computed (examples [key_named_twice], [linked_after_erasure],
      [breached_early], [owed_by_nobody], [erased_owing]).
    - Human tasks: the queue and its indexes agree ([worklist_exact]); a claimed
      task stays its holder's until it is freed ([reserved_until_freed]), whose
      decision is accepted (lemma [holder_may_decide]) and final (lemma
      [settled_final]).
    - Groups: whatever a skill does and the outside answers, a step's calls are,
      call by call, what the saga automaton does on them ([step_refines_saga]), so a settlement says
      what happened (lemma [settled_honestly]); the atomic members commit, every
      one with its record, or none does ([atomic_all_or_nothing]); two gaps of the pass
      that abandons a cancelled run are computed (lemma [cancelled_groups]).
    - Money and counts: live and replayed passes bill alike
      ([live_replay_same_bill], [slot_bills_everything]); exact ceilings are
      exact, metered ones overshoot by what is in flight, a refusal is final
      (lemmas [exact_ceilings], [metered_overshoot], [refusal_final],
      [elapsed_order_independent], [bricked_ceiling_exact]).
    - Information flow: labels form a join-semilattice, no reshaping launders a
      value, a release improves exactly its scope at its destination, and the
      gates let through exactly what the rules allow.
    - Plans: the contract is decided exactly, on every input, and a plan it
      accepts runs to completion in any order of its ready steps.
    - Transparency: Merkle proofs are sound up to a hash collision and complete,
      and roots commit to the whole log; a checkpoint has one text
      (lemma [note_canonical]); what a witness signs for an origin is prefixes of one
      log ([append_only]), and a round of submissions reports exactly which
      witnesses agree (lemma [quorum_verdict]).
    - Authority: scope containment is decided exactly (lemma [contains_exact]), a
      chain exists exactly when every link bounds those below it
      (lemma [rehydrate_exact]), and what it may do every link may do
      ([chain_authority]).
    - Quotas: what is settled and held stays within a period's ceiling
      and what passes admitted before it carried in ([period_bounded]), a hold covers what the run's ledger can reach
      (lemma [reservation_covers], which composes [Budget] with [Quota]), a pass is
      settled once (lemma [settle_once]), a rate ceiling holds in every window
      although rows are pruned (lemma [rate_window_bounded]).
    - Mandates: whatever is issued, drawn and revoked, what an authority reports
      is what its receipts add up to and within its terms ([mandate_bounded]);
      a draw is answered once and a revocation is final (lemma [draw_once]); a path
      rule matches by where paths lead (lemma [path_prefix_exact]).
    - Judgement: a panel decides by majority or not at all
      (lemma [majority_decides]), and the assessments that stand are the last of
      each assessor (lemma [current_spec]).

    ** Conventions and bounds

    Loops that are not structural run on fuel: [Merkle] on the depth of the
    tree, [Label]/[Tainted] on the length of the pointer, [Plan] on
    [dfs_fuel] (each step entered and left once, each dependency looked at
    once), [Dispatch] on one turn per recorded entry and permitted attempt
    ([enough]), [Memory] on the edges of the lineage ([traverse_fuel]), each
    with a theorem that the fuel suffices.  A [u64] counter that
    saturates in the source saturates here; one incremented with [+= 1] wraps,
    as the release profile does; the store's epochs, positions and log indexes
    grow by one per operation and are left unbounded.  A [panic] of a constructor is [None].

    ** What is not modelled

    Third-party code (the hash, JSON, Cedar, the clock, databases, HTTP) is a
    parameter or absent.  Of [runtime/ctx.rs] the sink gates, the effect
    protocol and the look for a message are modelled; rate ceilings, the
    manifest's declared and delegation-depth checks, task waits, sleeps and
    the executor's concurrency are not.  Of [runtime/executor.rs] only the
    delivery and redelivery of messages and the retirement of a run's waits
    are modelled.  Spans, metrics and serde derives are not
    definitions.  [Witness] leaves out the HTTP witness and anchors; [Quota]
    the calendar text of a period, the listings and the PostgreSQL copy of the
    same operations; [Cases] the drill record and the PostgreSQL copy;
    [Memory] semantic search, whose scores are floats, the sealing store and
    the formation of memories from a model's proposals;
    [Journal] the watch signals, [track_record], opening the
    file and the PostgreSQL copy; [Authority] the step context's calls that reach it; [Identity] the JSON it hands to the policy engine. *)

From stdpp Require Export prelude gmap strings list fin_maps fin_sets sets sorting.
From Stdlib Require Export ZArith Lia.
From Stdlib Require Export Strings.Byte Strings.Ascii.
From Stdlib Require Strings.String.

Declare Scope plane_scope.
Delimit Scope plane_scope with plane.

(** ** Machine integers

    Counters of the Rust code are [u64], [u32], [u16] and (on the 64-bit
    targets the crate is built for) [usize]; each is a [Z] kept inside its
    range by the operation that writes it. *)

Definition u16_max : Z := 65535.
Definition u32_max : Z := 4294967295.
Definition u64_max : Z := 18446744073709551615.
Abbreviation usize_max := u64_max.

Definition u64_ok (x : Z) : Prop := (0 <= x <= u64_max)%Z.
Definition u32_ok (x : Z) : Prop := (0 <= x <= u32_max)%Z.

(** [u64::saturating_add] and [u64::saturating_sub]. *)
Definition sat_add (a b : Z) : Z := Z.min u64_max (a + b).
Definition sat_sub (a b : Z) : Z := Z.max 0 (a - b).
Definition sat_mul (a b : Z) : Z := Z.min u64_max (a * b).

(** [u64::checked_add] and [u64::checked_mul]. *)
Definition checked_add (a b : Z) : option Z :=
  if decide (a + b <= u64_max)%Z then Some (a + b)%Z else None.
Definition checked_mul (a b : Z) : option Z :=
  if decide (a * b <= u64_max)%Z then Some (a * b)%Z else None.

(** A plain [+= 1] on a [usize]/[u32]: the release profile wraps. *)
Definition wrap_usize (a : Z) : Z := (a mod (u64_max + 1))%Z.
Definition wrap_u32 (a : Z) : Z := (a mod (u32_max + 1))%Z.

Section sat.
Local Open Scope Z_scope.
Implicit Types a b c : Z.

Lemma sat_add_comm a b : sat_add a b = sat_add b a.
Proof. unfold sat_add; lia. Qed.

Lemma sat_add_assoc a b c :
  0 <= a -> 0 <= b -> 0 <= c ->
  sat_add a (sat_add b c) = sat_add (sat_add a b) c.
Proof. unfold sat_add, u64_max; lia. Qed.

Lemma sat_add_ok a b : 0 <= a -> 0 <= b -> u64_ok (sat_add a b).
Proof. unfold sat_add, u64_ok, u64_max; lia. Qed.

Lemma sat_add_0_r a : u64_ok a -> sat_add a 0 = a.
Proof. unfold sat_add, u64_ok; lia. Qed.

Lemma sat_add_mono a b c : a <= b -> sat_add a c <= sat_add b c.
Proof. unfold sat_add; lia. Qed.

Lemma sat_add_ge a b : u64_ok a -> 0 <= b -> a <= sat_add a b.
Proof. unfold sat_add, u64_ok; lia. Qed.

Lemma sat_add_le a b : sat_add a b <= a + b.
Proof. unfold sat_add; lia. Qed.

Lemma wrap_usize_small a : u64_ok a -> wrap_usize a = a.
Proof. unfold wrap_usize, u64_ok; intros; apply Z.mod_small; lia. Qed.

Lemma wrap_u32_small a : u32_ok a -> wrap_u32 a = a.
Proof. unfold wrap_u32, u32_ok; intros; apply Z.mod_small; lia. Qed.
End sat.

(** ** Fallible code: Rust's [Result]

    The error type comes first so that [result E] is a monad in stdpp's sense;
    [Result<T, E>] of the source is [result E T] here. *)

Inductive result (E T : Type) : Type :=
| Ok (t : T)
| Err (e : E).
Arguments Ok {E T} t.
Arguments Err {E T} e.

#[export] Instance result_ret {E} : MRet (result E) := fun _ t => Ok t.
#[export] Instance result_bind {E} : MBind (result E) :=
  fun _ _ k m => match m with Ok t => k t | Err e => Err e end.
#[export] Instance result_fmap {E} : FMap (result E) :=
  fun _ _ f m => match m with Ok t => Ok (f t) | Err e => Err e end.

Definition is_ok {E T} (r : result E T) : bool :=
  match r with Ok _ => true | Err _ => false end.

(** [if !b { return Err(e) }]: the early return most validators are made of. *)
Definition ensure {E} (b : bool) (e : E) : result E unit := if b then Ok tt else Err e.

(** [opt.ok_or(e)]. *)
Definition ok_or {E T} (o : option T) (e : E) : result E T :=
  match o with Some t => Ok t | None => Err e end.

Lemma ensure_ok {E} b (e : E) u : ensure b e = Ok u <-> b = true.
Proof. destruct b, u; simpl; naive_solver. Qed.

Lemma result_bind_ok {T U E} (m : result E T) (k : T -> result E U) u :
  m ≫= k = Ok u <-> exists t, m = Ok t /\ k t = Ok u.
Proof.
  destruct m as [t|e]; simpl; split; [eauto| |discriminate|].
  - intros (t' & [= <-] & Hk). exact Hk.
  - intros (t' & [=] & _).
Qed.

(** A check in sequence ([check()?; k]). *)
Lemma seq_ok {U E} (m : result E unit) (k : result E U) u :
  (_ ← m; k) = Ok u <-> m = Ok tt /\ k = Ok u.
Proof.
  rewrite result_bind_ok. split; [by intros ([] & ? & ?)|by intros [? ?]; exists tt].
Qed.

Lemma result_bind_err {T U E} (m : result E T) (k : T -> result E U) e :
  m ≫= k = Err e <-> m = Err e \/ exists t, m = Ok t /\ k t = Err e.
Proof.
  destruct m as [t|e']; simpl; split.
  - eauto.
  - intros [[=]|(t' & [= <-] & Hk)]. exact Hk.
  - intros [= ->]. by left.
  - intros [[= ->]|(t' & [=] & _)]. done.
Qed.

#[export] Instance result_eq_dec {E T} (dE : EqDecision E) (dT : EqDecision T) :
  EqDecision (result E T).
Proof. solve_decision. Defined.

(** ** Bytes *)

#[export] Instance byte_eq_dec : EqDecision Byte.byte := Byte.byte_eq_dec.

(** ** Join-semilattices

    The interface the information-flow component promises to everything that
    combines values: an idempotent commutative monoid, whose order is the
    induced one. *)

Class JoinLattice (A : Type) `{Join A, Bottom A, SqSubsetEq A} : Prop := {
  jl_assoc (x y z : A) : x ⊔ (y ⊔ z) = (x ⊔ y) ⊔ z;
  jl_comm (x y : A) : x ⊔ y = y ⊔ x;
  jl_idemp (x : A) : x ⊔ x = x;
  jl_bot (x : A) : ⊥ ⊔ x = x;
  jl_order (x y : A) : x ⊑ y <-> x ⊔ y = y;
}.

Section join_lattice.
Context {A} `{JoinLattice A}.
Implicit Types x y z : A.

Lemma jl_le_l x y : x ⊑ x ⊔ y.
Proof. apply jl_order. by rewrite jl_assoc, jl_idemp. Qed.

Lemma jl_le_r x y : y ⊑ x ⊔ y.
Proof. rewrite jl_comm. apply jl_le_l. Qed.

Lemma jl_lub x y z : x ⊔ y ⊑ z <-> x ⊑ z /\ y ⊑ z.
Proof.
  rewrite !jl_order. split.
  - intros <-. split.
    + by rewrite !jl_assoc, jl_idemp.
    + by rewrite !jl_assoc, (jl_comm y x), <-(jl_assoc x y y), jl_idemp.
  - intros [Hx Hy]. by rewrite <-jl_assoc, Hy.
Qed.

Lemma jl_bot_le x : ⊥ ⊑ x.
Proof. apply jl_order, jl_bot. Qed.

#[export] Instance jl_partial_order : PartialOrder (⊑@{A}).
Proof.
  split; [split|].
  - intros x. apply jl_order, jl_idemp.
  - intros x y z Hxy Hyz. apply jl_order in Hxy, Hyz. apply jl_order.
    by rewrite <-Hyz, jl_assoc, Hxy.
  - intros x y Hxy Hyx. apply jl_order in Hxy, Hyx. by rewrite <-Hyx, jl_comm, Hxy at 1.
Qed.

(** The join of a list, as a fold; its order does not matter. *)
Definition joins (l : list A) : A := foldr (⊔) ⊥ l.

Lemma joins_ub l x : x ∈ l -> x ⊑ joins l.
Proof.
  induction 1 as [x l|x y l _ IH]; simpl; [apply jl_le_l|].
  transitivity (joins l); [done|apply jl_le_r].
Qed.

Lemma joins_lub l z : (forall x, x ∈ l -> x ⊑ z) -> joins l ⊑ z.
Proof.
  intros Hl. induction l as [|x l IH]; simpl; [apply jl_bot_le|].
  apply jl_lub. split; [|apply IH]; set_solver.
Qed.

#[export] Instance joins_perm : Proper ((≡ₚ) ==> eq) joins.
Proof.
  induction 1; simpl; [done|congruence| |congruence].
  by rewrite !jl_assoc, (jl_comm y x).
Qed.
End join_lattice.

(** ** Tactics and hints *)

Create HintDb plane discriminated.
#[export] Hint Resolve sat_add_ok sat_add_ge : plane.

(** Split every [match]/[if] of the goal or a hypothesis, closing the branches
    the equations already decide. *)
Ltac branch := repeat (case_match || case_decide); simplify_eq/=.

(** Invert a chain of binds that returned [Ok]. *)
Ltac ok_inv :=
  repeat match goal with
  | H : _ ≫= _ = Ok _ |- _ => apply result_bind_ok in H as (? & ? & ?)
  | H : ensure _ _ = Ok _ |- _ => apply ensure_ok in H
  | H : Ok _ = Ok _ |- _ => injection H as H; simplify_eq/=
  | H : Err _ = Ok _ |- _ => discriminate H
  | H : Ok _ = Err _ |- _ => discriminate H
  end.

(** Membership and inclusion of concatenated lists. *)
Ltac list_mem :=
  repeat match goal with
  | |- _ ⊆ _ => let x := fresh "x" in let Hx := fresh "Hx" in intros x Hx; revert Hx
  end;
  repeat (rewrite elem_of_app || rewrite elem_of_cons || rewrite elem_of_nil); tauto.

(** ** Sums over lists *)

(** What a partial map keeps of a list is no longer than the list. *)
Lemma omap_shorter {A B} (f : A -> option B) l : length (omap f l) <= length l.
Proof. induction l as [|x l IH]; csimpl; [lia|]. destruct (f x); csimpl; lia. Qed.

Lemma sum_list_with_ext {A} (f g : A -> nat) l :
  (forall x, x ∈ l -> f x = g x) -> sum_list_with f l = sum_list_with g l.
Proof.
  induction l as [|a l IH]; intros H; simpl; [done|].
  rewrite H by by left. rewrite IH; [done|]. intros x Hx. apply H. by right.
Qed.

Lemma sum_list_with_le {A} (f g : A -> nat) l :
  (forall x, x ∈ l -> f x <= g x) -> sum_list_with f l <= sum_list_with g l.
Proof.
  induction l as [|a l IH]; intros H; simpl; [done|].
  pose proof (H a ltac:(by left)). specialize (IH (fun x Hx => H x ltac:(by right))). lia.
Qed.

Lemma elem_of_concat {A} (ls : list (list A)) x : x ∈ concat ls <-> exists l, l ∈ ls /\ x ∈ l.
Proof.
  rewrite list_elem_of_In, in_concat. setoid_rewrite list_elem_of_In. done.
Qed.

(** Two weights that differ at one element of a duplicate-free list. *)
Lemma sum_list_with_update {A} `{EqDecision A} (f g : A -> nat) l x :
  NoDup l -> x ∈ l -> (forall y, y ∈ l -> y ≠ x -> f y = g y) ->
  sum_list_with f l + g x = sum_list_with g l + f x.
Proof.
  induction 1 as [|a l Ha Hl IH]; intros Hx Heq; [by apply elem_of_nil in Hx|].
  simpl. destruct (decide (a = x)) as [->|Hne].
  - rewrite (sum_list_with_ext f g l); [lia|]. intros y Hy. apply Heq; [by right|congruence].
  - rewrite (Heq a) by (by left || done). apply elem_of_cons in Hx as [->|Hx]; [done|].
    specialize (IH Hx (fun y Hy => Heq y ltac:(by right))). lia.
Qed.

Lemma sum_list_with_drop {A} (f g : A -> nat) l x :
  x ∈ l -> f x = 0 -> (forall y, f y <= g y) -> sum_list_with f l + g x <= sum_list_with g l.
Proof.
  intros Hx H0 Hle. induction l as [|a l IH]; [by apply elem_of_nil in Hx|]. simpl.
  pose proof (sum_list_with_le f g l (fun y _ => Hle y)).
  apply elem_of_cons in Hx as [->|Hx]; [rewrite H0; lia|].
  specialize (IH Hx). pose proof (Hle a). lia.
Qed.

(** ** Strings

    A Rust [str] is its list of bytes, so a pointer or a name can be taken
    apart with the list lemmas; [lit "..."] writes a literal. *)

Abbreviation str := (list ascii).

Definition lit (x : string) : str := String.list_ascii_of_string x.
#[global] Arguments lit x%_string_scope.

Definition slash : ascii := "/"%char.
Definition tilde : ascii := "~"%char.

(** [str::strip_prefix]. *)
Fixpoint strip_prefix (p x : str) : option str :=
  match p, x with
  | [], _ => Some x
  | c :: p, d :: x => if decide (c = d) then strip_prefix p x else None
  | _ :: _, [] => None
  end.

(** [str::starts_with(c)] for one character. *)
Definition starts_with (c : ascii) (x : str) : bool :=
  match x with d :: _ => bool_decide (d = c) | [] => false end.

(** [str::rfind(c)] for one character: the position of the last occurrence. *)
Fixpoint rfind (c : ascii) (x : str) : option nat :=
  match x with
  | [] => None
  | d :: x => match rfind c x with
              | Some i => Some (S i)
              | None => if decide (d = c) then Some 0 else None
              end
  end.

Lemma strip_prefix_Some p x r : strip_prefix p x = Some r <-> x = p ++ r.
Proof.
  revert x. induction p as [|c p IH]; intros [|d x]; simpl; split; intros Hx; simplify_eq; try done.
  - case_decide; [|done]. subst. f_equal. by apply IH.
  - rewrite decide_True by done. by apply IH.
Qed.

Lemma strip_prefix_None p x : strip_prefix p x = None <-> forall r, x <> p ++ r.
Proof.
  split.
  - intros Hn r Hr. apply strip_prefix_Some in Hr. congruence.
  - intros Hn. destruct (strip_prefix p x) as [r|] eqn:E; [|done].
    apply strip_prefix_Some in E. by destruct (Hn r).
Qed.

Lemma strip_prefix_app p r : strip_prefix p (p ++ r) = Some r.
Proof. by apply strip_prefix_Some. Qed.

Lemma starts_with_spec c x : starts_with c x = true <-> exists r, x = c :: r.
Proof.
  destruct x as [|d x]; simpl; [naive_solver|].
  rewrite bool_decide_eq_true. naive_solver.
Qed.

Lemma starts_with_app c x y : starts_with c x = true -> starts_with c (x ++ y) = true.
Proof. destruct x; [discriminate|done]. Qed.

Lemma rfind_Some_lt c x i : rfind c x = Some i -> i < length x.
Proof.
  revert i. induction x as [|d x IH]; intros i; simpl; [done|].
  destruct (rfind c x) as [j|]; [|case_decide; naive_solver lia].
  intros [= <-]. specialize (IH j eq_refl). lia.
Qed.

Lemma rfind_None c x : rfind c x = None <-> c ∉ x.
Proof.
  induction x as [|d x IH]; simpl; [set_solver|]. rewrite elem_of_cons.
  destruct (rfind c x) as [j|] eqn:E.
  - split; [done|]. intros Hc. exfalso. apply Hc. right. destruct (decide (c ∈ x)); [done|].
    by apply IH in n.
  - case_decide; split; try done; naive_solver.
Qed.

(** Past its last slash, a string has none. *)
Lemma rfind_last c x y : c ∉ y -> rfind c (x ++ c :: y) = Some (length x).
Proof.
  intros Hy. induction x as [|d x IH]; simpl.
  - apply rfind_None in Hy. by rewrite Hy, decide_True.
  - by rewrite IH.
Qed.

Lemma rfind_app c x y i : rfind c y = Some i -> rfind c (x ++ y) = Some (length x + i).
Proof. intros Hy. induction x as [|d x IH]; simpl; [done|]. by rewrite IH. Qed.

(** ** Collecting through a partial map

    [iter().filter_map(f).collect()] over a [BTreeMap] or a [BTreeSet]. *)

Definition rekey {B} (f : str -> option str) (m : gmap str B) : gmap str B :=
  list_to_map (omap (fun kv => k ← f kv.1; Some (k, kv.2)) (map_to_list m)).

Definition set_filter_map {A B} `{Countable A, Countable B} (f : A -> option B) (X : gset A) : gset B :=
  list_to_set (omap f (elements X)).

Section rekey.
Context {B : Type} (f : str -> option str).
Hypothesis f_inj : forall a b c, f a = Some c -> f b = Some c -> a = b.

Lemma rekey_elem (l : list (str * B)) k v :
  (k, v) ∈ omap (fun kv => k ← f kv.1; Some (k, kv.2)) l <-> exists k0, f k0 = Some k /\ (k0, v) ∈ l.
Proof.
  rewrite list_elem_of_omap. split.
  - intros ([k0 v0] & Hin & Hf). simpl in Hf. apply bind_Some in Hf as (k1 & Hf & [= -> ->]).
    by exists k0.
  - intros (k0 & Hf & Hin). exists (k0, v). simpl. by rewrite Hf.
Qed.

Lemma rekey_nodup (l : list (str * B)) : NoDup l.*1 ->
  NoDup (omap (fun kv => k ← f kv.1; Some (k, kv.2)) l).*1.
Proof.
  induction l as [|[k v] l IH]; simpl; [constructor|].
  rewrite NoDup_cons. intros [Hk Hl]. destruct (f k) as [k'|] eqn:Hf; simpl; [|auto].
  apply NoDup_cons. split; [|auto]. intros Hin.
  apply list_elem_of_fmap in Hin as ([k1 v1] & -> & Hin). simpl in *.
  apply rekey_elem in Hin as (k0 & Hf0 & Hin). apply Hk.
  assert (k = k0) as -> by (by eapply f_inj). apply list_elem_of_fmap. by exists (k0, v1).
Qed.

Lemma lookup_rekey (m : gmap str B) k v :
  rekey f m !! k = Some v <-> exists k0, f k0 = Some k /\ m !! k0 = Some v.
Proof.
  unfold rekey. rewrite <-elem_of_list_to_map by (apply rekey_nodup, NoDup_fst_map_to_list).
  rewrite rekey_elem. by setoid_rewrite elem_of_map_to_list.
Qed.

Lemma lookup_rekey_at (m : gmap str B) k k0 : f k0 = Some k -> rekey f m !! k = m !! k0.
Proof.
  intros Hf. apply option_eq. intros v. rewrite lookup_rekey. split.
  - intros (k1 & Hf1 & Hm). by rewrite (f_inj k0 k1 k).
  - intros Hm. by exists k0.
Qed.

Lemma lookup_rekey_none (m : gmap str B) k : (forall k0, f k0 <> Some k) -> rekey f m !! k = None.
Proof.
  intros Hn. destruct (rekey f m !! k) as [v|] eqn:E; [|done].
  apply lookup_rekey in E as (k0 & Hf & _). by destruct (Hn k0).
Qed.
End rekey.

Lemma elem_of_set_filter_map {A B} `{Countable A, Countable B} (f : A -> option B) (X : gset A) y :
  y ∈ set_filter_map f X <-> exists x, x ∈ X /\ f x = Some y.
Proof.
  unfold set_filter_map. rewrite elem_of_list_to_set, list_elem_of_omap.
  by setoid_rewrite elem_of_elements.
Qed.

(** ** The iteration order of a [BTreeSet] *)

(** Byte-wise lexicographic comparison, the [Ord] of [str]. *)
Fixpoint str_cmp (x y : str) : comparison :=
  match x, y with
  | [], [] => Eq
  | [], _ :: _ => Lt
  | _ :: _, [] => Gt
  | c :: x, d :: y => match N.compare (N_of_ascii c) (N_of_ascii d) with
                      | Eq => str_cmp x y
                      | o => o
                      end
  end.

(** Lexicographic chaining of comparisons: [Ordering::then]. *)
Definition then_cmp (a b : comparison) : comparison := match a with Eq => b | o => o end.

Definition by_cmp {A} (cmp : A -> A -> comparison) : relation A := fun x y => cmp x y <> Gt.
#[export] Instance by_cmp_dec {A} (cmp : A -> A -> comparison) : RelDecision (by_cmp cmp).
Proof. intros x y. unfold Decision, by_cmp. destruct (cmp x y); (by left) || (right; tauto). Defined.

(** The elements of a set in ascending order. *)
Definition iter_by {A} `{Countable A} (cmp : A -> A -> comparison) (X : gset A) : list A :=
  merge_sort (by_cmp cmp) (elements X).
Definition iter_str (X : gset str) : list str := iter_by str_cmp X.

Lemma elem_of_iter_by {A} `{Countable A} (cmp : A -> A -> comparison) (X : gset A) x :
  x ∈ iter_by cmp X <-> x ∈ X.
Proof.
  unfold iter_by. rewrite (merge_sort_Permutation (by_cmp cmp) (elements X)).
  apply elem_of_elements.
Qed.

(** Evaluate a decidable proposition about closed terms. *)
Ltac evaluate := apply (bool_decide_unpack _); vm_compute; exact I.
