(* ===== verification/Text.v ===== *)
(** * Characters, lines and decimal numbers

    What the modelled code uses of Rust's [str]: the white space of
    [char::is_whitespace] (on UTF-8 bytes), splitting at a character, and the
    [Display] and [FromStr] of [u64]. *)

From S2P Require Import Prelude.
From stdpp Require Import pretty.

(** ** White space

    [char::is_whitespace] is true of U+0009 to U+000D, U+0020, U+0085, U+00A0,
    U+1680, U+2000 to U+200A, U+2028, U+2029, U+202F, U+205F and U+3000; these
    are their encodings, whose lead bytes no other position of UTF-8 text can
    hold. *)

Definition code (c : ascii) : N := N_of_ascii c.
Definition white1 (a : ascii) : bool :=
  let a := code a in (((9 <=? a) && (a <=? 13)) || (a =? 32))%N.
Definition white2 (a b : ascii) : bool :=
  ((code a =? 194) && ((code b =? 133) || (code b =? 160)))%N.
Definition white3 (a b c : ascii) : bool :=
  let '(a, b, c) := (code a, code b, code c) in
  (((a =? 225) && (b =? 154) && (c =? 128))
   || ((a =? 226) && (b =? 128) && (((128 <=? c) && (c <=? 138)) || (c =? 168) || (c =? 169) || (c =? 175)))
   || ((a =? 226) && (b =? 129) && (c =? 159))
   || ((a =? 227) && (b =? 128) && (c =? 128)))%N.

(** A white space character starts here. *)
Definition white_head (x : str) : bool :=
  match x with
  | [] => false
  | a :: x => white1 a || match x with
      | [] => false
      | b :: x => white2 a b || match x with [] => false | c :: _ => white3 a b c end
      end
  end.

(** [x.trim().is_empty()]. *)
Fixpoint blank (x : str) : bool :=
  match x with
  | [] => true
  | a :: x1 => if white1 a then blank x1 else
      match x1 with
      | [] => false
      | b :: x2 => if white2 a b then blank x2 else
          match x2 with [] => false | c :: x3 => if white3 a b c then blank x3 else false end
      end
  end.

(** [chars().any(p)] for a predicate that reads the text from a character on. *)
Fixpoint any_from (p : str -> bool) (x : str) : bool :=
  match x with [] => false | _ :: r => p x || any_from p r end.

Lemma any_from_elem p x c : (forall r, p (c :: r) = true) -> c ∈ x -> any_from p x = true.
Proof.
  intros Hp Hc. induction x as [|d x IH]; [by apply elem_of_nil in Hc|]. simpl.
  apply elem_of_cons in Hc as [<-|Hc]; [by rewrite Hp|]. rewrite IH by done. apply orb_true_r.
Qed.

(** ** Lines *)

Definition newline : ascii := ascii_of_N 10.

(** [str::split(c)]: the pieces between the [c]s, one more than there are. *)
Fixpoint split_char (c : ascii) (x : str) : list str :=
  match x with
  | [] => [[]]
  | d :: x => if decide (d = c) then [] :: split_char c x else
      match split_char c x with
      | piece :: rest => (d :: piece) :: rest
      | [] => [[d]]
      end
  end.

Fixpoint join_char (c : ascii) (l : list str) : str :=
  match l with [] => [] | [x] => x | x :: l => x ++ c :: join_char c l end.

(** [str::strip_suffix(c)]. *)
Fixpoint strip_last (c : ascii) (x : str) : option str :=
  match x with
  | [] => None
  | [d] => if decide (d = c) then Some [] else None
  | d :: x => r ← strip_last c x; Some (d :: r)
  end.

Lemma strip_last_Some c x r : strip_last c x = Some r <-> x = r ++ [c].
Proof.
  split.
  - revert r. induction x as [|d x IH]; intros r; [done|]. destruct x as [|e x].
    + simpl. case_decide; [|done]. by intros [= <-]; subst.
    + change (strip_last c (d :: e :: x)) with (r ← strip_last c (e :: x); Some (d :: r)).
      intros (r' & Hr & [= <-])%bind_Some. simpl. by rewrite (IH r' Hr).
  - intros ->. induction r as [|d r IH]; [simpl; by rewrite decide_True|].
    simpl. destruct (r ++ [c]) eqn:E; [by destruct r|]. by rewrite IH.
Qed.

Lemma split_char_nonempty c x : split_char c x <> [].
Proof. destruct x as [|d x]; simpl; [done|]. case_decide; [done|]. by destruct (split_char c x). Qed.

Lemma split_char_join c x : join_char c (split_char c x) = x.
Proof.
  induction x as [|d x IH]; [done|]. simpl. pose proof (split_char_nonempty c x) as Hn.
  case_decide as Hd.
  - subst. destruct (split_char c x) eqn:E; [done|]. by rewrite <-IH.
  - destruct (split_char c x) as [|p [|q l]]; [done|simpl in *; by rewrite IH|].
    change (join_char c ((d :: p) :: q :: l)) with (d :: (join_char c (p :: q :: l))). by rewrite IH.
Qed.

Lemma split_char_free c x : c ∉ x -> split_char c x = [x].
Proof.
  induction x as [|d x IH]; [done|]. rewrite not_elem_of_cons. intros [Hd Hx]. simpl.
  rewrite decide_False by done. by rewrite IH.
Qed.

Lemma split_char_app c x y : c ∉ x -> split_char c (x ++ c :: y) = x :: split_char c y.
Proof.
  induction x as [|d x IH]; [simpl; by rewrite decide_True|]. rewrite not_elem_of_cons. intros [Hd Hx].
  simpl. rewrite decide_False by done. by rewrite IH.
Qed.

Lemma split_char_pieces c x p : p ∈ split_char c x -> c ∉ p.
Proof.
  revert p. induction x as [|d x IH]; simpl; intros p Hp.
  { apply list_elem_of_singleton in Hp as ->. set_solver. }
  case_decide as Hd.
  - apply elem_of_cons in Hp as [->|Hp]; [set_solver|auto].
  - destruct (split_char c x) as [|q l] eqn:E.
    + apply list_elem_of_singleton in Hp as ->. set_solver.
    + apply elem_of_cons in Hp as [->|Hp]; [|apply IH; set_solver].
      pose proof (IH q ltac:(by left)). set_solver.
Qed.

(** ** Decimal numbers *)

Definition digit_of (c : ascii) : option Z :=
  let n := Z.of_N (code c) in if decide (48 <= n <= 57)%Z then Some (n - 48)%Z else None.
Definition is_digit (c : ascii) : bool := bool_decide (is_Some (digit_of c)).

(** [Display] of an unsigned integer. *)
Definition show_Z (n : Z) : str := lit (pretty (Z.to_N n)).

(** The digit loop of [u64::from_str]: a step that leaves [u64] is refused. *)
Fixpoint parse_digits (x : str) (acc : Z) : option Z :=
  match x with
  | [] => Some acc
  | c :: x => d ← digit_of c; m ← checked_mul acc 10; a ← checked_add m d; parse_digits x a
  end.
Definition plus_sign : ascii := "+"%char.
(** [u64::from_str]. *)
Definition parse_u64 (x : str) : option Z :=
  match x with
  | [] => None
  | [c] => if is_digit c then parse_digits x 0 else None
  | c :: rest => if decide (c = plus_sign) then parse_digits rest 0 else parse_digits x 0
  end.

(** No sign, no leading zero, not empty. *)
Definition zero_digit : ascii := "0"%char.
Definition canonical_decimal (x : str) : bool :=
  negb (bool_decide (x = [])) && forallb is_digit x
  && negb ((1 <? length x)%nat && starts_with zero_digit x).

Section decimal.
Local Open Scope Z_scope.

(** The number a string of digits spells after [acc]. *)
Definition spelled (acc : Z) (x : str) : Z :=
  foldl (fun a c => a * 10 + default 0 (digit_of c)) acc x.

Lemma digit_of_range c d : digit_of c = Some d -> 0 <= d <= 9.
Proof. unfold digit_of. case_decide; intros [= <-]; lia. Qed.

Lemma spelled_ge acc x : 0 <= acc -> acc <= spelled acc x.
Proof.
  revert acc. induction x as [|c x IH]; intros acc Ha; simpl; [done|]. fold (spelled (acc * 10 + default 0 (digit_of c)) x).
  destruct (digit_of c) as [d|] eqn:E; simpl.
  - apply digit_of_range in E. etrans; [|apply IH]; lia.
  - etrans; [|apply IH]; lia.
Qed.

Lemma parse_digits_spec x acc v : 0 <= acc -> u64_ok acc ->
  parse_digits x acc = Some v <-> forallb is_digit x = true /\ v = spelled acc x /\ u64_ok v.
Proof.
  revert acc. induction x as [|c x IH]; intros acc Ha Hm; simpl.
  { split; [intros [= <-]; done|]. by intros (_ & -> & _). }
  fold (spelled (acc * 10 + default 0 (digit_of c)) x). unfold is_digit at 1.
  destruct (digit_of c) as [d|] eqn:E; cbn [default option_bind mbind].
  2:{ rewrite bool_decide_false by (by intros [? ?]). simpl. naive_solver. }
  apply digit_of_range in E. rewrite bool_decide_true by done. simpl.
  pose proof (spelled_ge (acc * 10 + d) x ltac:(lia)).
  unfold checked_mul, checked_add, u64_ok in *. case_decide; simpl.
  - case_decide; simpl; [apply IH; lia|]. split; [done|]. intros (_ & -> & ?). lia.
  - split; [done|]. intros (_ & -> & ?). lia.
Qed.

Lemma pretty_go_app x s : String.list_ascii_of_string (pretty_N_go x s)
  = String.list_ascii_of_string (pretty_N_go x "") ++ String.list_ascii_of_string s.
Proof.
  revert s. induction (N.lt_wf_0 x) as [x _ IH]; intros s.
  assert (x = 0 \/ 0 < x)%N as [->|Hx] by lia; [done|].
  rewrite !(pretty_N_go_step x) by done.
  assert (x `div` 10 < x)%N by (apply N.div_lt; lia).
  rewrite IH by done. rewrite (IH _ ltac:(done) (String.String _ _)). simpl. by rewrite <-app_assoc.
Qed.

Definition digit_char (d : Z) : ascii := pretty_N_char (Z.to_N d).

Lemma digit_of_char d : 0 <= d <= 9 -> digit_of (digit_char d) = Some d.
Proof.
  intros Hd. assert (d = 0 \/ d = 1 \/ d = 2 \/ d = 3 \/ d = 4 \/ d = 5 \/ d = 6 \/ d = 7 \/ d = 8 \/ d = 9)
    as Hcs by lia. repeat destruct Hcs as [->|Hcs]; try reflexivity. by subst.
Qed.

Lemma digit_char_of c d : digit_of c = Some d -> c = digit_char d.
Proof.
  intros Hc. pose proof (digit_of_range c d Hc) as Hd. 
  rewrite <-(ascii_N_embedding c), <-(ascii_N_embedding (digit_char d)). f_equal.
  pose proof (digit_of_char d Hd) as Hd'. unfold digit_of, code in *.
  do 2 case_decide; simplify_eq. lia.
Qed.

Lemma show_small n : 0 <= n <= 9 -> show_Z n = [digit_char n].
Proof.
  intros Hd. rewrite <-(Z2Nat.id n) by lia.
  assert (Z.to_nat n < 10)%nat as Hlt by lia. revert Hlt. generalize (Z.to_nat n) as k. clear.
  intros k Hk. do 10 (destruct k as [|k]; [reflexivity|]). lia.
Qed.

Lemma show_step n : 10 <= n -> show_Z n = show_Z (n / 10) ++ [digit_char (n mod 10)].
Proof.
  intros Hn. unfold show_Z, pretty, pretty_N.
  assert (1 <= n / 10) by (apply Z.div_le_lower_bound; lia).
  rewrite !decide_False by lia. unfold lit. rewrite pretty_N_go_step by lia.
  rewrite pretty_go_app. unfold digit_char. rewrite Z2N.inj_mod, Z2N.inj_div by lia. done.
Qed.

Lemma decimal_ind (P : Z -> Prop) :
  (forall n, 0 <= n <= 9 -> P n) -> (forall n, 10 <= n -> P (n / 10) -> P n) -> forall n, 0 <= n -> P n.
Proof.
  intros Hb Hs n. induction n as [n IH] using (well_founded_induction (Z.lt_wf 0)). intros Hn.
  destruct (decide (n <= 9)); [apply Hb; lia|]. apply Hs; [lia|].
  pose proof (Z.div_lt n 10). pose proof (Z.div_pos n 10). apply IH; lia.
Qed.

Lemma spelled_snoc acc x c : spelled acc (x ++ [c]) = spelled acc x * 10 + default 0 (digit_of c).
Proof. unfold spelled. by rewrite foldl_app. Qed.

Lemma show_spelled n : 0 <= n -> spelled 0 (show_Z n) = n.
Proof.
  revert n. apply decimal_ind; intros n Hn.
  - rewrite show_small by done. unfold spelled. simpl. by rewrite digit_of_char.
  - intros IH. rewrite show_step by done. rewrite spelled_snoc, IH.
    pose proof (Z.mod_pos_bound n 10). rewrite digit_of_char by lia. simpl.
    pose proof (Z.div_mod n 10). lia.
Qed.

Lemma is_digit_char d : 0 <= d <= 9 -> is_digit (digit_char d) = true.
Proof. intros Hd. unfold is_digit. rewrite digit_of_char by done. by rewrite bool_decide_true. Qed.

Lemma show_canonical n : 0 <= n ->
  forallb is_digit (show_Z n) = true /\ show_Z n <> []
  /\ (starts_with zero_digit (show_Z n) = true -> n = 0).
Proof.
  revert n. apply decimal_ind; intros n Hn.
  - rewrite show_small by done. simpl. rewrite is_digit_char by done. split_and!; [done..|].
    rewrite bool_decide_eq_true. intros Hz. pose proof (digit_of_char n Hn) as Hd. rewrite Hz in Hd.
    compute in Hd. congruence.
  - intros (Hd & Hne & Hz). rewrite show_step by done. pose proof (Z.mod_pos_bound n 10).
    assert (1 <= n / 10) by (apply Z.div_le_lower_bound; lia). split_and!.
    + rewrite forallb_app, Hd. simpl. by rewrite is_digit_char by lia.
    + by destruct (show_Z (n / 10)).
    + destruct (show_Z (n / 10)) as [|c r] eqn:E; [done|]. simpl in *. intros Hc. specialize (Hz Hc). lia.
Qed.

(** [Display] and the canonical check agree on one spelling per number. *)
Lemma show_parse n : u64_ok n -> canonical_decimal (show_Z n) = true /\ parse_u64 (show_Z n) = Some n.
Proof.
  intros Hn. pose proof Hn as [H0 _]. destruct (show_canonical n H0) as (Hd & Hne & Hz).
  split.
  - unfold canonical_decimal. rewrite bool_decide_false, Hd by done. simpl.
    apply negb_true_iff, andb_false_iff. destruct (starts_with zero_digit (show_Z n)); [left|by right].
    specialize (Hz eq_refl) as ->. done.
  - assert (parse_digits (show_Z n) 0 = Some n) as Hp.
    { apply parse_digits_spec; [done..|]. by rewrite show_spelled. }
    destruct (show_Z n) as [|c [|c' r]] eqn:E; [done| |].
    + simpl in Hd. apply andb_true_iff in Hd as [Hd _]. unfold parse_u64. by rewrite Hd.
    + unfold parse_u64. rewrite decide_False; [done|]. intros ->. by apply andb_true_iff in Hd as [? _].
Qed.

Lemma canonical_spelled x : canonical_decimal x = true -> show_Z (spelled 0 x) = x.
Proof.
  unfold canonical_decimal. rewrite !andb_true_iff, negb_true_iff, bool_decide_eq_false.
  intros [[Hne Hd] Hz]. revert Hne Hd Hz. induction x as [|c x IH] using rev_ind; [done|].
  intros _ Hd Hz. rewrite forallb_app in Hd. apply andb_true_iff in Hd as [Hd Hc].
  simpl in Hc. rewrite andb_true_r in Hc. unfold is_digit in Hc. apply bool_decide_eq_true in Hc as [d Hc].
  pose proof (digit_of_range c d Hc) as Hr. rewrite spelled_snoc, Hc. simpl.
  destruct (decide (x = [])) as [->|Hx].
  { unfold spelled. simpl. rewrite show_small by lia. by rewrite (digit_char_of c d). }
  assert (starts_with zero_digit x = false) as Hs.
  { apply negb_true_iff, andb_false_iff in Hz as [Hz|Hz].
    - apply Nat.ltb_ge in Hz. rewrite length_app in Hz. destruct x; [done|]. simpl in Hz. lia.
    - by destruct x. }
  assert (show_Z (spelled 0 x) = x) as Hx'. { apply IH; [done..|]. by rewrite Hs, andb_false_r. }
  assert (1 <= spelled 0 x).
  { destruct x as [|e x]; [done|]. simpl in Hs, Hd. apply andb_true_iff in Hd as [He _].
    unfold is_digit in He. apply bool_decide_eq_true in He as [d' He].
    change (spelled 0 (e :: x)) with (spelled (0 * 10 + default 0 (digit_of e)) x). rewrite He. simpl.
    pose proof (digit_of_range e d' He). etrans; [|apply spelled_ge; lia].
    destruct (decide (d' = 0)) as [->|]; [|lia]. apply digit_char_of in He as ->. done. }
  rewrite show_step by lia.
  replace ((spelled 0 x * 10 + d) / 10) with (spelled 0 x) by (apply Z.div_unique with d; lia).
  replace ((spelled 0 x * 10 + d) mod 10) with d by (apply Z.mod_unique with (spelled 0 x); lia).
  by rewrite Hx', (digit_char_of c d).
Qed.

Lemma parse_show x n : canonical_decimal x = true -> parse_u64 x = Some n -> x = show_Z n /\ u64_ok n.
Proof.
  intros Hx Hp. pose proof (canonical_spelled x Hx) as Hs. unfold canonical_decimal in Hx.
  rewrite !andb_true_iff in Hx. destruct Hx as [[Hne Hd] _].
  assert (parse_digits x 0 = Some n) as Hq.
  { destruct x as [|c [|c' r]]; [done| |].
    - unfold parse_u64 in Hp. by case_match.
    - unfold parse_u64 in Hp. rewrite decide_False in Hp; [done|]. intros ->. by apply andb_true_iff in Hd as [? _]. }
  apply parse_digits_spec in Hq as (_ & -> & Hv); [|done..]. by rewrite Hs.
Qed.

Lemma show_no_newline n : 0 <= n -> newline ∉ show_Z n.
Proof.
  intros Hn Hin. destruct (show_canonical n Hn) as (Hd & _ & _). rewrite forallb_forall in Hd.
  apply list_elem_of_In, Hd in Hin. done.
Qed.
End decimal.
