(* ===== verification/Digest.v ===== *)
(** * Digests ([src/src/core/id.rs])

    Thirty-two bytes produced by SHA-256.  The hash function itself is the
    [sha2] crate's, so it is a parameter: a class with one operation and no
    law.  Theorems that need collision resistance ask for it on the finite
    list of inputs the code really hashes ([collision_free]), which concrete
    inputs satisfy, and never for an injective 32-byte hash, which cannot
    exist. *)

From S2P Require Import Prelude.

Abbreviation bytes := (list Byte.byte).

Record Digest := mk_digest {
  as_bytes : bytes;
  as_bytes_length : bool_decide (length as_bytes = 32);
}.

Lemma digest_eq (d1 d2 : Digest) : as_bytes d1 = as_bytes d2 -> d1 = d2.
Proof.
  destruct d1 as [b1 p1], d2 as [b2 p2]; simpl; intros ->.
  f_equal. apply proof_irrel.
Qed.

#[export] Instance digest_eq_dec : EqDecision Digest.
Proof.
  intros d1 d2. destruct (decide (as_bytes d1 = as_bytes d2)) as [Hd|Hd].
  - left. by apply digest_eq.
  - right. congruence.
Defined.

Lemma digest_length (d : Digest) : length (as_bytes d) = 32.
Proof. exact (bool_decide_unpack _ (as_bytes_length d)). Qed.

(** The genesis link of a chain. *)
Definition ZERO : Digest := mk_digest (replicate 32 x00) I.

Class Sha256 := sha256 : bytes -> Digest.

Section digest.
Context `{Sha256}.

(** [Digest::of] *)
Definition digest_of (b : bytes) : Digest := sha256 b.

(** [Digest::chain]: [H(prev ++ bytes)]. *)
Definition chain (prev : Digest) (b : bytes) : Digest := sha256 (as_bytes prev ++ b).

(** No two different inputs of the list have one hash. *)
Definition collision_free (inputs : list bytes) : Prop :=
  Forall (fun x => Forall (fun y => sha256 x = sha256 y -> x = y) inputs) inputs.

(** Decided on the inputs paired with their hashes, so each is hashed once. *)
Definition collision_free_b (inputs : list bytes) : bool :=
  let hs := map (fun x => (x, as_bytes (sha256 x))) inputs in
  forallb (fun p => forallb (fun q =>
    negb (bool_decide (p.2 = q.2)) || bool_decide (p.1 = q.1)) hs) hs.

Lemma collision_free_check inputs : collision_free_b inputs = true -> collision_free inputs.
Proof.
  unfold collision_free_b, collision_free. intros Hc. rewrite forallb_forall in Hc.
  apply Forall_forall; intros x Hx. apply Forall_forall; intros y Hy Heq.
  apply list_elem_of_In in Hx, Hy.
  specialize (Hc _ (in_map _ _ _ Hx)). rewrite forallb_forall in Hc.
  specialize (Hc _ (in_map _ _ _ Hy)). simpl in Hc. rewrite Heq in Hc.
  rewrite bool_decide_true in Hc by done. by apply bool_decide_eq_true in Hc.
Qed.

Lemma collision_free_eq inputs x y :
  collision_free inputs -> x ∈ inputs -> y ∈ inputs -> sha256 x = sha256 y -> x = y.
Proof.
  unfold collision_free. rewrite Forall_forall. intros Hcf Hx Hy.
  specialize (Hcf x Hx). rewrite Forall_forall in Hcf. auto.
Qed.

Lemma collision_free_sub l l' : l ⊆ l' -> collision_free l' -> collision_free l.
Proof.
  intros Hsub Hcf. unfold collision_free.
  apply Forall_forall; intros x Hx. apply Forall_forall; intros y Hy.
  apply (collision_free_eq l'); auto.
Qed.
End digest.

(** Two fixed-width halves of one concatenation are determined by it. *)
Lemma digest_app_inj (d1 d2 : Digest) (b1 b2 : bytes) :
  as_bytes d1 ++ b1 = as_bytes d2 ++ b2 -> d1 = d2 /\ b1 = b2.
Proof.
  intros Happ. apply app_inj_1 in Happ as [Hd ->]; [|by rewrite !digest_length].
  split; [by apply digest_eq|done].
Qed.

(** ** A concrete hash for the witnesses

    A 64-bit polynomial hash, padded to the digest's width: not cryptographic,
    but it evaluates, and it has no collision on the inputs the witnesses feed
    it. *)

Section toy.
Local Open Scope N_scope.

Definition mask64 (x : N) : N := N.land x 18446744073709551615.

Fixpoint le_bytes (n : nat) (x : N) : bytes :=
  match n with
  | O => []
  | S n => default x00 (Byte.of_N (N.land x 255)) :: le_bytes n (N.shiftr x 8)
  end.

Lemma le_bytes_length n x : length (le_bytes n x) = n.
Proof. revert x. induction n; intros x; simpl; auto. Qed.

Definition toy_fold (b : bytes) : N :=
  foldl (fun acc c => mask64 (acc * 65599 + Byte.to_N c + 1)) 7 b.

Definition toy_hash (b : bytes) : Digest :=
  mk_digest (le_bytes 32 (toy_fold b)) (bool_decide_pack _ (le_bytes_length 32 _)).
End toy.
