(* ===== verification/EffectKey.v ===== *)
(** * Effect identity ([src/src/core/id.rs], [EffectKey])

    An effect's key is the hash of where it stands (step, phase, ordinal,
    attempt) and what it does (kind and canonical arguments), fields of fixed
    width in front and the kind length-prefixed.  The encoding is what makes
    two different effects hash different bytes; the canonical form of the
    arguments is handed in as bytes, as [derive] takes it. *)

From S2P Require Import Prelude Digest.

Definition StepId := N.

Inductive Phase := Forward | Compensating.
#[export] Instance phase_eq_dec : EqDecision Phase.
Proof. solve_decision. Defined.
#[export] Instance phase_countable : Countable Phase.
Proof.
  apply (inj_countable' (fun p => match p with Forward => true | Compensating => false end)
    (fun b : bool => if b then Forward else Compensating)). by intros [].
Defined.

Definition is_forward (p : Phase) : bool := match p with Forward => true | Compensating => false end.

(** [phase as u8]. *)
Definition phase_byte (p : Phase) : Byte.byte := match p with Forward => x00 | Compensating => x01 end.

(** [to_be_bytes] of an [n]-byte integer. *)
Definition be_bytes (n : nat) (x : N) : bytes := reverse (le_bytes n x).

(** [str::as_bytes]. *)
Definition str_bytes (s : str) : bytes := byte_of_ascii <$> s.

Definition EFFECT_KEY_DOMAIN : bytes := str_bytes (lit "agentplane.effect.key.v1") ++ [x00].

Definition key_input (step : StepId) (phase : Phase) (ordinal attempt : N) (kind : str)
    (canonical_args : bytes) : bytes :=
  EFFECT_KEY_DOMAIN ++ be_bytes 4 step ++ [phase_byte phase] ++ be_bytes 4 ordinal
    ++ be_bytes 4 attempt ++ be_bytes 8 (N.of_nat (length (str_bytes kind)))
    ++ str_bytes kind ++ canonical_args.

Definition EffectKey := Digest.

(** [EffectKey::derive]. *)
Definition derive `{Sha256} (step : StepId) (phase : Phase) (ordinal attempt : N) (kind : str)
    (canonical_args : bytes) : EffectKey :=
  sha256 (key_input step phase ordinal attempt kind canonical_args).

(** ** The encoding is injective *)

Section encoding.
Local Open Scope N_scope.

Lemma byte_of_N_inj a b : a < 256 -> b < 256 ->
  default x00 (Byte.of_N a) = default x00 (Byte.of_N b) -> a = b.
Proof.
  intros Ha Hb Heq.
  assert (forall c, c < 256 -> Byte.to_N (default x00 (Byte.of_N c)) = c) as Hto.
  { intros c Hc. destruct (Byte.of_N c) as [y|] eqn:Hy; [by apply Byte.to_of_N|].
    apply Byte.of_N_None_iff in Hy. lia. }
  rewrite <- (Hto a), <- (Hto b) by done. by rewrite Heq.
Qed.

Lemma le_bytes_inj n : forall x y, x < 256 ^ N.of_nat n -> y < 256 ^ N.of_nat n ->
  le_bytes n x = le_bytes n y -> x = y.
Proof.
  induction n as [|n IH]; intros x y Hx Hy; simpl in *; [lia|].
  intros [= Hb Ht]. rewrite !N.shiftr_div_pow2 in Ht. change (2 ^ 8) with 256 in Ht.
  change 255 with (N.ones 8) in Hb. rewrite !N.land_ones in Hb. change (2 ^ 8) with 256 in Hb.
  apply byte_of_N_inj in Hb; [|apply N.mod_lt; lia..].
  rewrite Nat2N.inj_succ, N.pow_succ_r' in Hx, Hy.
  assert (x / 256 = y / 256) as Hd.
  { apply IH; [apply N.Div0.div_lt_upper_bound; lia..|done]. }
  rewrite (N.div_mod x 256), (N.div_mod y 256) by lia. congruence.
Qed.

Lemma be_bytes_length n x : length (be_bytes n x) = n.
Proof. unfold be_bytes. by rewrite length_reverse, le_bytes_length. Qed.

Lemma be_bytes_inj n x y : x < 256 ^ N.of_nat n -> y < 256 ^ N.of_nat n ->
  be_bytes n x = be_bytes n y -> x = y.
Proof. intros Hx Hy Heq. apply (le_bytes_inj n); [done..|]. by apply (inj reverse). Qed.

Lemma str_bytes_inj s t : str_bytes s = str_bytes t -> s = t.
Proof.
  apply list_fmap_eq_inj. intros a b Heq.
  rewrite <- (ascii_of_byte_of_ascii a), <- (ascii_of_byte_of_ascii b). by rewrite Heq.
Qed.
End encoding.

Definition u32_id (x : N) : Prop := (x < 256 ^ 4)%N.
Definition u64_len (b : bytes) : Prop := (N.of_nat (length b) < 256 ^ 8)%N.

Lemma key_input_inj s1 p1 o1 a1 k1 x1 s2 p2 o2 a2 k2 x2 :
  u32_id s1 -> u32_id o1 -> u32_id a1 -> u64_len (str_bytes k1) ->
  u32_id s2 -> u32_id o2 -> u32_id a2 -> u64_len (str_bytes k2) ->
  key_input s1 p1 o1 a1 k1 x1 = key_input s2 p2 o2 a2 k2 x2 ->
  s1 = s2 /\ p1 = p2 /\ o1 = o2 /\ a1 = a2 /\ k1 = k2 /\ x1 = x2.
Proof.
  intros Hs1 Ho1 Ha1 Hk1 Hs2 Ho2 Ha2 Hk2 Heq. unfold key_input in Heq.
  apply app_inj_1 in Heq as [_ Heq]; [|done].
  apply app_inj_1 in Heq as [Hs Heq]; [|by rewrite !be_bytes_length].
  apply app_inj_1 in Heq as [Hp Heq]; [|done].
  apply app_inj_1 in Heq as [Ho Heq]; [|by rewrite !be_bytes_length].
  apply app_inj_1 in Heq as [Ha Heq]; [|by rewrite !be_bytes_length].
  apply app_inj_1 in Heq as [Hl Heq]; [|by rewrite !be_bytes_length].
  apply be_bytes_inj in Hs, Ho, Ha, Hl; [|done..].
  apply app_inj_1 in Heq as [Hk Hx]; [|lia].
  apply str_bytes_inj in Hk. split_and!; try done. destruct p1, p2; done.
Qed.

(** A key is an identity.  Two effects share a key only if they agree on
    step, phase, ordinal, attempt, kind and canonical arguments, or the hash
    collides on the two inputs: no field can run into the next, so a retry, a
    compensation or a reordered call never reads back another's record. *)
Theorem effect_key_identity `{Sha256} s1 p1 o1 a1 k1 x1 s2 p2 o2 a2 k2 x2 :
  u32_id s1 -> u32_id o1 -> u32_id a1 -> u64_len (str_bytes k1) ->
  u32_id s2 -> u32_id o2 -> u32_id a2 -> u64_len (str_bytes k2) ->
  collision_free [key_input s1 p1 o1 a1 k1 x1; key_input s2 p2 o2 a2 k2 x2] ->
  derive s1 p1 o1 a1 k1 x1 = derive s2 p2 o2 a2 k2 x2 ->
  s1 = s2 /\ p1 = p2 /\ o1 = o2 /\ a1 = a2 /\ k1 = k2 /\ x1 = x2.
Proof.
  intros Hs1 Ho1 Ha1 Hk1 Hs2 Ho2 Ha2 Hk2 Hcf Hd. apply key_input_inj; [done..|].
  apply (collision_free_eq _ _ _ Hcf); [by left|by right; left|done].
Qed.

(** ** Keys as map keys, in byte order *)

#[export] Instance byte_countable : Countable Byte.byte.
Proof.
  apply (inj_countable Byte.to_N Byte.of_N). intros b. apply Byte.of_to_N.
Defined.

#[export] Instance digest_countable : Countable Digest.
Proof.
  refine (inj_countable as_bytes (fun b => match decide (bool_decide (length b = 32) : Prop) with
    | left H => Some (mk_digest b H) | right _ => None end) _).
  intros d. case_decide as Hd.
  - f_equal. by apply digest_eq.
  - destruct Hd. apply (as_bytes_length d).
Defined.

Fixpoint bytes_cmp (x y : bytes) : comparison :=
  match x, y with
  | [], [] => Eq
  | [], _ => Lt
  | _, [] => Gt
  | a :: x, b :: y => match N.compare (Byte.to_N a) (Byte.to_N b) with Eq => bytes_cmp x y | c => c end
  end.
Definition digest_cmp (a b : Digest) : comparison := bytes_cmp (as_bytes a) (as_bytes b).

Module EffectKeyWitness.
#[local] Instance key_hash : Sha256 := toy_hash.

Lemma effect_key_identity_witness :
  derive 3%N Forward 0%N 1%N (lit "tool.call") [x01] = derive 3%N Forward 0%N 1%N (lit "tool.call") [x01]
  /\ [x01] = [x01].
Proof.
  split; [reflexivity|].
  destruct (effect_key_identity 3%N Forward 0%N 1%N (lit "tool.call") [x01]
    3%N Forward 0%N 1%N (lit "tool.call") [x01]) as (_ & _ & _ & _ & _ & Hx);
    [reflexivity..| |reflexivity|exact Hx].
  apply collision_free_check. vm_compute. reflexivity.
Defined.

Example retry_is_new :
  bool_decide (derive 3%N Forward 0%N 1%N (lit "a") [] = derive 3%N Forward 0%N 2%N (lit "a") []) = false.
Proof. vm_compute. reflexivity. Qed.
End EffectKeyWitness.
