(* ===== verification/Index.v ===== *)
(** * Derived indexes and sorted iteration

    What the stores share: a table's index as a set of keys derived from its
    rows, with the ways a write keeps it exact, and the order in which a range
    scan visits it. *)

From S2P Require Import Prelude Digest EffectKey.

(** ** Derived indexes

    A table's index holds one key per row that has one: a set of keys against
    the map of rows and the function that derives a row's key. *)
Definition indexed {K V X} `{Countable K, Countable X} (key : K -> V -> option X) (S : gset X) (M : gmap K V) : Prop :=
  forall x, x ∈ S <-> exists k v, M !! k = Some v /\ key k v = Some x.
(** No two rows share a key. *)
Definition key_inj {K V X} (key : K -> V -> option X) : Prop :=
  forall k v k' v' x, key k v = Some x -> key k' v' = Some x -> k = k'.

Section indexed.
Context {K V X : Type} `{Countable K, Countable X} (key : K -> V -> option X).
Implicit Types (S : gset X) (M : gmap K V).

Lemma indexed_empty : indexed key ∅ ∅.
Proof. intros x. split; [set_solver|]. intros (k & v & Hk & _). by rewrite lookup_empty in Hk. Qed.

Lemma indexed_insert S S' M k v : key_inj key -> indexed key S M ->
  (forall x, x ∈ S' <-> key k v = Some x \/ x ∈ S /\ M !! k ≫= key k <> Some x) ->
  indexed key S' (<[k := v]> M).
Proof.
  intros Hinj HS HS' x. rewrite HS', (HS x). split.
  - intros [Hx|[(k' & v' & Hk' & Hx) Hne]].
    + exists k, v. by rewrite lookup_insert_eq.
    + exists k', v'. split; [|done]. destruct (decide (k = k')) as [<-|Hk]; [|by rewrite lookup_insert_ne].
      rewrite Hk' in Hne. by destruct (Hne Hx).
  - intros (k' & v' & Hk' & Hx). destruct (decide (k = k')) as [<-|Hk].
    + rewrite lookup_insert_eq in Hk'. simplify_eq. by left.
    + rewrite lookup_insert_ne in Hk' by done. right. split; [by exists k', v'|].
      intros (v0 & Hv0 & Hx0)%bind_Some. by destruct (Hk (Hinj _ _ _ _ _ Hx0 Hx)).
Qed.

Lemma indexed_fresh S M k v : key_inj key -> indexed key S M -> M !! k = None ->
  indexed key (match key k v with Some x => {[x]} ∪ S | None => S end) (<[k := v]> M).
Proof.
  intros Hinj HS Hk. eapply indexed_insert; [done..|]. intros x. rewrite Hk. simpl.
  destruct (key k v) as [y|]; set_solver.
Qed.

Lemma indexed_delete S M k v : key_inj key -> indexed key S M -> M !! k = Some v ->
  indexed key (match key k v with Some x => S ∖ {[x]} | None => S end) (base.delete k M).
Proof.
  intros Hinj HS Hk x.
  assert (x ∈ match key k v with Some y => S ∖ {[y]} | None => S end <-> x ∈ S /\ key k v <> Some x) as ->
    by (destruct (key k v); set_solver).
  rewrite (HS x). split.
  - intros [(k' & v' & Hk' & Hx) Hne]. exists k', v'. split; [|done]. rewrite lookup_delete_ne; [done|]. intros <-. congruence.
  - intros (k' & v' & [Hne Hk']%lookup_delete_Some & Hx). split; [by exists k', v'|]. intros Hx'.
    by destruct (Hne (Hinj _ _ _ _ _ Hx' Hx)).
Qed.

(** A write that keeps the key keeps the index. *)
Lemma indexed_same S M k v v' : key_inj key -> indexed key S M -> M !! k = Some v -> key k v' = key k v ->
  indexed key S (<[k := v']> M).
Proof.
  intros Hinj HS Hk Hv. eapply indexed_insert; [done..|]. intros x. rewrite Hk, Hv. simpl.
  split; [|by intros [Hx|[? _]]; [apply HS; eauto|]].
  intros Hx. destruct (decide (key k v = Some x)); auto.
Qed.

Lemma alter_as_insert (f : V -> V) M k v : M !! k = Some v -> alter f k M = <[k := f v]> M.
Proof. intros Hk. apply partial_alter_ext. intros o Ho. rewrite Hk in Ho. by simplify_eq/=. Qed.
Lemma alter_missing (f : V -> V) M k : M !! k = None -> alter f k M = M.
Proof.
  intros Hk. apply map_eq. intros j. destruct (decide (k = j)) as [<-|]; [by rewrite lookup_alter_eq, Hk|].
  by rewrite lookup_alter_ne.
Qed.

(** Whether a key a row could have is there. *)
Lemma indexed_mem S M k v x : indexed key S M -> M !! k = Some v ->
  (forall k' v', key k' v' = Some x -> k' = k) -> x ∈ S <-> key k v = Some x.
Proof.
  intros HS Hk Hx. rewrite (HS x). split; [|eauto].
  intros (k' & v' & Hk' & Hx'). pose proof (Hx _ _ Hx'). subst k'. congruence.
Qed.
End indexed.

(** ** Sorted iteration *)
Lemma by_cmp_then {A} (c1 c2 : A -> A -> comparison) x y :
  by_cmp (fun x y => then_cmp (c1 x y) (c2 x y)) x y <-> c1 x y = Lt \/ c1 x y = Eq /\ by_cmp c2 x y.
Proof. unfold by_cmp, then_cmp. destruct (c1 x y); naive_solver. Qed.

(** A comparison of a total order. *)
Class CmpOrder {A} (cmp : A -> A -> comparison) : Prop := {
  cmp_eq x y : cmp x y = Eq <-> x = y;
  cmp_flip x y : cmp y x = CompOpp (cmp x y);
  cmp_lt_trans x y z : cmp x y = Lt -> cmp y z = Lt -> cmp x z = Lt;
}.

Section cmp_order.
Context {A} (cmp : A -> A -> comparison) `{CmpOrder A cmp}.

Lemma by_cmp_alt x y : by_cmp cmp x y <-> cmp x y = Lt \/ x = y.
Proof. unfold by_cmp. rewrite <-(cmp_eq (cmp:=cmp)). destruct (cmp x y); naive_solver. Qed.
#[export] Instance by_cmp_total : Total (by_cmp cmp).
Proof. intros x y. unfold by_cmp. rewrite (cmp_flip (cmp:=cmp) x y). destruct (cmp x y); simpl; naive_solver. Qed.
#[export] Instance by_cmp_trans : Transitive (by_cmp cmp).
Proof.
  intros x y z. rewrite !by_cmp_alt. intros [Hx| ->]; [|done]. intros [Hy| <-]; [|by left].
  left. by eapply cmp_lt_trans.
Qed.
#[export] Instance by_cmp_anti : AntiSymm (=) (by_cmp cmp).
Proof.
  intros x y Hx Hy. apply (cmp_eq (cmp:=cmp)). unfold by_cmp in *. rewrite (cmp_flip (cmp:=cmp) x y) in Hy.
  destruct (cmp x y); simpl in *; congruence.
Qed.

Lemma iter_by_sorted `{Countable A} (X : gset A) : StronglySorted (by_cmp cmp) (iter_by cmp X).
Proof. apply (StronglySorted_merge_sort _). Qed.
Lemma iter_by_perm `{Countable A} (X : gset A) : iter_by cmp X ≡ₚ elements X.
Proof. apply merge_sort_Permutation. Qed.
(** The order of an iteration is the only one the set has. *)
Lemma iter_by_unique `{Countable A} (X : gset A) l :
  StronglySorted (by_cmp cmp) l -> l ≡ₚ elements X -> l = iter_by cmp X.
Proof.
  intros Hl Hp. apply (StronglySorted_unique (by_cmp cmp)); [done|apply iter_by_sorted|].
  by rewrite Hp, iter_by_perm.
Qed.
End cmp_order.

#[export] Instance z_cmp_order : CmpOrder Z.compare.
Proof.
  split; [apply Z.compare_eq_iff|intros x y; apply Z.compare_antisym|].
  intros x y z. rewrite !Z.compare_lt_iff. lia.
Qed.

Lemma then_cmp_order {A B C} (f : C -> A) (g : C -> B) (c1 : A -> A -> comparison) (c2 : B -> B -> comparison) :
  CmpOrder c1 -> CmpOrder c2 -> (forall x y, f x = f y -> g x = g y -> x = y) ->
  CmpOrder (fun x y => then_cmp (c1 (f x) (f y)) (c2 (g x) (g y))).
Proof.
  intros H1 H2 Hfg. split.
  - intros x y. unfold then_cmp. destruct (c1 (f x) (f y)) eqn:E1.
    + apply cmp_eq in E1. rewrite cmp_eq. split; [by apply Hfg|congruence].
    + split; [done|]. intros ->. by rewrite (proj2 (cmp_eq (f y) (f y)) eq_refl) in E1.
    + split; [done|]. intros ->. by rewrite (proj2 (cmp_eq (f y) (f y)) eq_refl) in E1.
  - intros x y. rewrite (cmp_flip (f x)), (cmp_flip (g x)).
    destruct (c1 (f x) (f y)), (c2 (g x) (g y)); done.
  - intros x y z. unfold then_cmp.
    destruct (c1 (f x) (f y)) eqn:E1; try done; destruct (c1 (f y) (f z)) eqn:E2; try done; intros Hx Hy.
    + apply cmp_eq in E1. rewrite E1, E2. by eapply cmp_lt_trans.
    + apply cmp_eq in E1. by rewrite E1, E2.
    + apply cmp_eq in E2. by rewrite <-E2, E1.
    + by rewrite (cmp_lt_trans _ _ _ E1 E2).
Qed.

(** Pairs, the first component first. *)
Definition pair_cmp {A B} (c1 : A -> A -> comparison) (c2 : B -> B -> comparison) (x y : A * B) : comparison :=
  then_cmp (c1 x.1 y.1) (c2 x.2 y.2).
#[export] Instance pair_cmp_order {A B} (c1 : A -> A -> comparison) (c2 : B -> B -> comparison) :
  CmpOrder c1 -> CmpOrder c2 -> CmpOrder (pair_cmp c1 c2).
Proof. intros H1 H2. apply (then_cmp_order fst snd c1 c2); [done..|]. by intros [] []; simpl; intros -> ->. Qed.

(** Lexicographic comparison of lists. *)
Section lex.
Context {A} (num : A -> N) (num_inj : forall a b, num a = num b -> a = b).
Context (lex : list A -> list A -> comparison)
  (lex_unfold : forall x y, lex x y =
    match x, y with
    | [], [] => Eq
    | [], _ => Lt
    | _, [] => Gt
    | a :: x, b :: y => match N.compare (num a) (num b) with Eq => lex x y | c => c end
    end).
Lemma lex_order : CmpOrder lex.
Proof.
  split.
  - induction x as [|a x IH]; intros [|b y]; rewrite lex_unfold; try done.
    destruct (N.compare_spec (num a) (num b)) as [E|E|E].
    + rewrite IH. apply num_inj in E. naive_solver.
    + split; [done|]. intros [= -> ->]. lia.
    + split; [done|]. intros [= -> ->]. lia.
  - induction x as [|a x IH]; intros [|b y];
      match goal with |- lex ?u ?v = CompOpp (lex ?v ?u) => rewrite (lex_unfold u v), ?(lex_unfold v u) end; try done.
    rewrite (N.compare_antisym (num a) (num b)).
    destruct (N.compare (num a) (num b)); simpl; [apply IH|done..].
  - induction x as [|a x IH]; intros [|b y] [|c z];
      match goal with |- lex ?u ?v = _ -> lex ?v ?w = _ -> _ =>
        rewrite (lex_unfold u v), ?(lex_unfold v w), ?(lex_unfold u w) end; try done.
    destruct (N.compare_spec (num a) (num b)) as [E1|E1|E1]; try done;
      destruct (N.compare_spec (num b) (num c)) as [E2|E2|E2]; try done; intros H1 H2;
      destruct (N.compare_spec (num a) (num c)); try lia; try done.
    by eapply IH.
Qed.
End lex.

#[export] Instance str_cmp_order : CmpOrder str_cmp.
Proof.
  apply (lex_order N_of_ascii).
  - intros a b E. by rewrite <-(ascii_N_embedding a), E, ascii_N_embedding.
  - by intros [|a x] [|b y].
Qed.
#[export] Instance digest_cmp_order : CmpOrder digest_cmp.
Proof.
  assert (CmpOrder bytes_cmp) as [He Hf Ht].
  { apply (lex_order Byte.to_N).
    - intros a b E. apply (f_equal Byte.of_N) in E. rewrite !Byte.of_to_N in E. congruence.
    - by intros [|a x] [|b y]. }
  split; unfold digest_cmp; [|auto|by intros x y z; apply Ht].
  intros x y. rewrite He. split; [apply digest_eq|by intros ->].
Qed.

(** *** Reading a table through an index *)
Lemma omap_of_fmap {A B C} (f : B -> option C) (g : A -> B) (l : list A) : omap f (g <$> l) = omap (fun x => f (g x)) l.
Proof. induction l as [|x l IH]; [done|]. cbn. destruct (f (g x)); [f_equal|]; exact IH. Qed.
Lemma filter_all {A} (P : A -> Prop) `{forall x, Decision (P x)} (l : list A) : (forall x, x ∈ l -> P x) -> filter P l = l.
Proof.
  intros HP. induction l as [|x l IH]; [done|]. rewrite filter_cons, decide_True by (apply HP; by left).
  f_equal. apply IH. intros y Hy. apply HP. by right.
Qed.

Lemma sorted_filter {A} (R : A -> A -> Prop) (P : A -> Prop) `{!forall x, Decision (P x)} l :
  StronglySorted R l -> StronglySorted R (filter P l).
Proof.
  induction l as [|x l IH]; [done|]. intros [Hs Hx]%StronglySorted_inv. rewrite filter_cons.
  destruct (decide (P x)); [|by apply IH]. constructor; [by apply IH|]. apply Forall_forall.
  intros y [_ Hy]%list_elem_of_filter. by eapply Forall_forall in Hx.
Qed.

Section listing.
Context {K V X : Type} `{Countable K, Countable X} (key : K -> V -> option X) (k_of : X -> K).
Implicit Types (S : gset X) (M : gmap K V) (cmp : X -> X -> comparison).

Definition rows_of (P : V -> bool) M : list V := filter P (map_to_list M).*2.
Definition listed cmp S M : list V := omap (fun x => M !! k_of x) (iter_by cmp S).

Hypothesis k_of_key : forall k v x, key k v = Some x -> k_of x = k.

Lemma index_row S M x : indexed key S M -> x ∈ S -> exists v, M !! k_of x = Some v /\ key (k_of x) v = Some x.
Proof. intros HS (k & v & Hk & Hx)%HS. pose proof (k_of_key _ _ _ Hx). subst k. eauto. Qed.

Lemma listed_perm cmp S M P : indexed key S M -> (forall k v, M !! k = Some v -> P v = true <-> is_Some (key k v)) ->
  listed cmp S M ≡ₚ rows_of P M.
Proof.
  intros HS HP. unfold listed, rows_of.
  transitivity (filter (fun kv => P kv.2) (map_to_list M)).*2.
  - transitivity (omap (fun x => (k_of x,.) <$> M !! k_of x) (iter_by cmp S)).*2.
    { apply Permutation_refl'. induction (iter_by cmp S) as [|x l IH]; [done|]. simpl. rewrite IH. by destruct (M !! k_of x). }
    apply fmap_Permutation, NoDup_Permutation.
    + apply (NoDup_fmap_1 fst).
      assert ((omap (fun x => (k_of x,.) <$> M !! k_of x) (iter_by cmp S)).*1 = k_of <$> iter_by cmp S) as ->.
      { assert (forall l : list X, (forall x, x ∈ l -> x ∈ S) -> (omap (fun x => (k_of x,.) <$> M !! k_of x) l).*1 = k_of <$> l) as Hl.
        { induction l as [|x l IH]; intros Hl; [done|]. simpl.
          destruct (index_row S M x HS) as (v & -> & _); [apply Hl; by left|]. simpl. f_equal. apply IH. set_solver. }
        apply Hl. intros x. by rewrite elem_of_iter_by. }
      apply NoDup_fmap_2_strong; [|unfold iter_by; rewrite merge_sort_Permutation; apply NoDup_elements].
      intros x y. rewrite !elem_of_iter_by. intros Hx Hy Hxy.
      destruct (index_row S M x HS Hx) as (v & Hv & Hkx), (index_row S M y HS Hy) as (w & Hw & Hky).
      rewrite <-Hxy in Hky, Hw. congruence.
    + apply NoDup_filter, NoDup_map_to_list.
    + intros [k v]. rewrite list_elem_of_omap, list_elem_of_filter, elem_of_map_to_list. simpl.
      setoid_rewrite elem_of_iter_by. split.
      * intros (x & Hx & Hkv). destruct (index_row S M x HS Hx) as (w & Hw & Hkx). rewrite Hw in Hkv.
        simplify_eq/=. split; [|done]. apply Is_true_true, (HP _ _ Hw). by exists x.
      * intros [HPv%Is_true_true Hv]. apply (HP _ _ Hv) in HPv as [x Hx]. exists x.
        rewrite (k_of_key _ _ _ Hx), Hv. split; [apply HS; eauto|done].
  - apply Permutation_refl'. induction (map_to_list M) as [|[k v] l IH]; [done|].
    rewrite fmap_cons, !filter_cons. simpl. destruct (decide (P v)); simpl; by rewrite IH.
Qed.

(** The rows come in the order of their keys. *)
Lemma listed_keys cmp S M (key_of : V -> X) : indexed key S M ->
  (forall k v x, M !! k = Some v -> key k v = Some x -> key_of v = x) -> key_of <$> listed cmp S M = iter_by cmp S.
Proof.
  intros HS Hk. unfold listed.
  assert (forall l : list X, (forall x, x ∈ l -> x ∈ S) -> key_of <$> omap (fun x => M !! k_of x) l = l :> list X) as Hl.
  { induction l as [|x l IH]; intros Hl; [done|]. simpl.
    destruct (index_row S M x HS) as (v & Hv & Hx); [apply Hl; by left|]. rewrite Hv. simpl.
    rewrite (Hk _ _ _ Hv Hx). f_equal. apply IH. set_solver. }
  apply Hl. intros x. by rewrite elem_of_iter_by.
Qed.

Lemma listed_sorted cmp `{!CmpOrder cmp} S M (key_of : V -> X) : indexed key S M ->
  (forall k v x, M !! k = Some v -> key k v = Some x -> key_of v = x) ->
  StronglySorted (fun v w => by_cmp cmp (key_of v) (key_of w)) (listed cmp S M).
Proof.
  intros HS Hk. pose proof (iter_by_sorted cmp S) as Hs. rewrite <-(listed_keys cmp S M key_of HS Hk) in Hs.
  induction (listed cmp S M) as [|v l IH]; [constructor|]. rewrite fmap_cons in Hs.
  apply StronglySorted_inv in Hs as [Hs Hv]. constructor; [by apply IH|].
  by rewrite Forall_fmap in Hv.
Qed.

(** A scan that keeps a range of the keys keeps those rows. *)
Lemma listed_filter cmp S M (key_of : V -> X) (P : X -> Prop) `{forall x, Decision (P x)} : indexed key S M ->
  (forall k v x, M !! k = Some v -> key k v = Some x -> key_of v = x) ->
  omap (fun x => M !! k_of x) (filter P (iter_by cmp S)) = filter (fun v => P (key_of v)) (listed cmp S M).
Proof.
  intros HS Hk. unfold listed.
  assert (forall l : list X, (forall x, x ∈ l -> x ∈ S) -> omap (fun x => M !! k_of x) (filter P l) =
    filter (fun v => P (key_of v)) (omap (fun x => M !! k_of x) l)) as Hl.
  { induction l as [|x l IH]; intros Hl; [done|]. simpl.
    destruct (index_row S M x HS) as (v & Hv & Hx); [apply Hl; by left|]. rewrite filter_cons, Hv. simpl.
    rewrite filter_cons, (Hk _ _ _ Hv Hx). specialize (IH ltac:(set_solver)).
    destruct (decide (P x)); cbn; rewrite ?Hv; [by f_equal|done]. }
  apply Hl. intros x. by rewrite elem_of_iter_by.
Qed.
End listing.

Lemma indexed_filter_map {K V X Y} `{Countable K, Countable X, Countable Y} (key : K -> V -> option X) (f : X -> option Y)
    (S : gset X) (M : gmap K V) : indexed key S M -> indexed (fun k v => key k v ≫= f) (set_filter_map f S) M.
Proof.
  intros HS y. rewrite elem_of_set_filter_map. split.
  - intros (x & (k & v & Hk & Hx)%HS & Hy). exists k, v. by rewrite Hx.
  - intros (k & v & Hk & (x & Hx & Hy)%bind_Some). exists x. split; [apply HS; eauto|done].
Qed.

(** An index that holds the rows' own keys counts them. *)
Lemma indexed_size {K V} `{Countable K} (key : K -> V -> option K) (P : V -> bool) (S : gset K) (M : gmap K V) :
  indexed key S M -> (forall k v, key k v = if P v then Some k else None) -> size S = length (rows_of P M).
Proof.
  intros HS Hk.
  assert (forall k v x, key k v = Some x -> x = k) as Hid by (intros k v x; rewrite Hk; destruct (P v); congruence).
  rewrite <-(listed_perm key (fun k => k) Hid (fun _ _ => Eq) S M P HS).
  - unfold listed. transitivity (length (iter_by (fun _ _ => Eq) S)).
    { unfold iter_by. by rewrite merge_sort_Permutation. }
    assert (forall l : list K, (forall x, x ∈ l -> x ∈ S) -> length l = length (omap (fun x => M !! x) l)) as Hl.
    { induction l as [|x l IH]; intros Hl; [done|]. simpl.
      assert (x ∈ S) as (k & v & Hkv & Hx)%HS by (apply Hl; by left). rewrite Hk in Hx. destruct (P v); simplify_eq.
      rewrite Hkv. simpl. f_equal. apply IH. set_solver. }
    apply Hl. intros x. by rewrite elem_of_iter_by.
  - intros k v _. rewrite Hk. destruct (P v); naive_solver.
Qed.
