(* ===== verification/Merkle.v ===== *)
(** * The Merkle log ([src/src/core/merkle.rs])

    The RFC 6962 tree over sealed runs: leaf and node hashes under their
    domain-separation prefixes, the root, inclusion and consistency proofs and
    their verifiers.  Slices are lists; a [usize] the verifier is handed by a
    counterparty is a [Z] up to [usize_max], so the arithmetic is exercised at
    [u64::MAX] as well.  The recursions split below the length, so they run on
    a fuel of [depth n], the base-2 logarithm of the size rounded up; the
    lemmas [root_split], [path_step] and [rebuild_split] show it is enough. *)

From S2P Require Import Prelude Digest.

(** ** The split point *)

(** The doubling loop of [split_point]: [checked_mul] stops it at the width of
    [usize], the guard stops it below [n]. *)
Fixpoint split_loop (fuel : nat) (k n : Z) : Z :=
  match fuel with
  | O => k
  | S fuel =>
      match checked_mul k 2 with
      | Some next => if decide (next < n)%Z then split_loop fuel (k * 2) n else k
      | None => k
      end
  end.

(** Sixty-four doublings leave [usize]. *)
Definition split_point (n : Z) : Z := split_loop 64 1 n.

(** How often a tree of [n] leaves can be split. *)
Definition depth (n : Z) : nat := Z.to_nat (Z.log2_up n).

Record LeafHash := mk_leaf { leaf_digest : Digest }.

#[export] Instance leaf_hash_eq_dec : EqDecision LeafHash.
Proof. solve_decision. Defined.

Abbreviation LEAF := x00.
Abbreviation NODE := x01.

Definition zlen {A} (l : list A) : Z := Z.of_nat (length l).
Definition split_at {A} (l : list A) : list A * list A :=
  let k := Z.to_nat (split_point (zlen l)) in (take k l, drop k l).

Section merkle.
Context `{Sha256}.

Definition leaf_input (value : Digest) : bytes := LEAF :: as_bytes value.
Definition node_input (left right : Digest) : bytes :=
  NODE :: as_bytes left ++ as_bytes right.

Definition leaf_hash (value : Digest) : LeafHash := mk_leaf (digest_of (leaf_input value)).
Definition node_hash (left right : Digest) : Digest := digest_of (node_input left right).
Definition empty_root : Digest := digest_of [].

Fixpoint root_loop (fuel : nat) (leaves : list LeafHash) : Digest :=
  match leaves with
  | [] => empty_root
  | [x] => leaf_digest x
  | _ => match fuel with
         | O => empty_root
         | S fuel => let '(l, r) := split_at leaves in
                     node_hash (root_loop fuel l) (root_loop fuel r)
         end
  end.
Definition root (leaves : list LeafHash) : Digest := root_loop (depth (zlen leaves)) leaves.

(** ** Inclusion *)

Fixpoint build_proof (fuel : nat) (leaves : list LeafHash) (index : nat) : list Digest :=
  if decide (length leaves <= 1) then []
  else match fuel with
       | O => []
       | S fuel =>
           let '(l, r) := split_at leaves in
           let k := length l in
           if decide (index < k)
           then build_proof fuel l index ++ [root r]
           else build_proof fuel r (index - k) ++ [root l]
       end.

Definition inclusion_proof (leaves : list LeafHash) (index : nat) : list Digest :=
  if decide (length leaves <= index) then []
  else build_proof (depth (zlen leaves)) leaves index.

(** The [while len > 1] walk that records which side the index is on. *)
Fixpoint path_loop (fuel : nat) (idx len : Z) : list bool :=
  if decide (len <= 1)%Z then []
  else match fuel with
       | O => []
       | S fuel => let k := split_point len in
                   if decide (idx < k)%Z
                   then true :: path_loop fuel idx k
                   else false :: path_loop fuel (idx - k) (len - k)
       end.
Definition path (idx len : Z) : list bool := path_loop (depth len) idx len.

Definition combine_input (hash : Digest) (step : Digest * bool) : bytes :=
  if step.2 then node_input hash step.1 else node_input step.1 hash.
Definition combine (hash : Digest) (step : Digest * bool) : Digest :=
  digest_of (combine_input hash step).

Definition verify_inclusion (leaf : LeafHash) (index size : Z)
    (proof : list Digest) (expected : Digest) : bool :=
  if decide (size <= index)%Z then false
  else
    let went_left := path index size in
    if decide (length went_left = length proof)
    then bool_decide (foldl combine (leaf_digest leaf) (zip proof (reverse went_left)) = expected)
    else false.

(** ** Consistency *)

Fixpoint subproof (fuel : nat) (m : nat) (leaves : list LeafHash) (complete : bool) : list Digest :=
  if decide (m = length leaves) then (if complete then [] else [root leaves])
  else match fuel with
       | O => []
       | S fuel =>
           let '(l, r) := split_at leaves in
           let k := length l in
           if decide (m <= k)
           then subproof fuel m l complete ++ [root r]
           else subproof fuel (m - k) r false ++ [root l]
       end.

Definition consistency_proof (leaves : list LeafHash) (old_size : nat) : list Digest :=
  if decide (old_size = 0 \/ length leaves < old_size) then []
  else subproof (depth (zlen leaves)) old_size leaves true.

(** [rebuild] threads the index [fed] of the next hash to consume. *)
Fixpoint rebuild_loop (fuel : nat) (m n : Z) (proof : list Digest) (fed : nat)
    (complete : bool) (old_root : Digest) : option ((Digest * Digest) * nat) :=
  if decide (m = n) then
    if complete then Some ((old_root, old_root), fed)
    else h ← proof !! fed; Some ((h, h), S fed)
  else match fuel with
       | O => None
       | S fuel =>
           let k := split_point n in
           if decide (m <= k)%Z then
             '((old, new_left), fed) ← rebuild_loop fuel m k proof fed complete old_root;
             right ← proof !! fed;
             Some ((old, node_hash new_left right), S fed)
           else
             '((old_right, new_right), fed) ←
               rebuild_loop fuel (m - k) (n - k) proof fed false old_root;
             left ← proof !! fed;
             Some ((node_hash left old_right, node_hash left new_right), S fed)
       end.
Definition rebuild (m n : Z) (proof : list Digest) (fed : nat)
    (complete : bool) (old_root : Digest) : option ((Digest * Digest) * nat) :=
  rebuild_loop (depth n) m n proof fed complete old_root.

Definition verify_consistency (old_size : Z) (old_root : Digest)
    (new_size : Z) (new_root : Digest) (proof : list Digest) : bool :=
  if decide (old_size > new_size)%Z then false
  else if decide (old_size = 0)%Z
  then bool_decide (proof = []) && bool_decide (old_root = empty_root)
  else if decide (old_size = new_size)
  then bool_decide (proof = []) && bool_decide (old_root = new_root)
  else match rebuild old_size new_size proof 0 true old_root with
       | None => false
       | Some ((old, new), fed) =>
           bool_decide (old = old_root) && bool_decide (new = new_root)
           && bool_decide (fed = length proof)
       end.
End merkle.

(** ** The split point is a power of two strictly inside the tree *)

Section split_point.
Local Open Scope Z_scope.

Lemma split_loop_spec fuel i n :
  0 <= i -> (64 <= Z.of_nat fuel + i) -> i <= 63 -> 2 ^ i < n <= usize_max ->
  exists j, 0 <= j <= 63 /\ split_loop fuel (2 ^ i) n = 2 ^ j /\ 2 ^ j < n <= 2 ^ (j + 1).
Proof.
  revert i. induction fuel as [|fuel IH]; intros i Hi Hf Hi63 Hn; simpl split_loop; [lia|].
  unfold checked_mul.
  assert (2 ^ i * 2 = 2 ^ (i + 1)) as Hd by (rewrite Z.pow_add_r; lia).
  rewrite Hd. destruct (decide (2 ^ (i + 1) <= u64_max)) as [Hw|Hw];
    [|exists i; split_and!; lia].
  destruct (decide (2 ^ (i + 1) < n)) as [Hlt|Hge]; [|exists i; split_and!; lia].
  assert (i + 1 <= 63).
  { apply Z.nlt_ge. intros ?. assert (2 ^ 64 <= 2 ^ (i + 1)) by (apply Z.pow_le_mono_r; lia).
    unfold u64_max in *. lia. }
  destruct (IH (i + 1)) as (j & ? & ? & ?); [lia..|]. exists j. split_and!; auto; lia.
Qed.

(** [split_point] answers the power of two [k] with [k < n <= 2k]. *)
Lemma split_point_pow n : 1 < n <= usize_max ->
  exists j, 0 <= j <= 63 /\ split_point n = 2 ^ j /\ 2 ^ j < n <= 2 ^ (j + 1).
Proof. intros Hn. apply (split_loop_spec 64 0); simpl; lia. Qed.

Lemma pow2_bracket j j' n :
  0 <= j -> 0 <= j' -> 2 ^ j < n <= 2 ^ (j + 1) -> 2 ^ j' < n <= 2 ^ (j' + 1) -> j = j'.
Proof.
  intros Hj Hj' H1 H2. destruct (Z.lt_trichotomy j j') as [Hlt|[->|Hlt]]; [|done|].
  - assert (2 ^ (j + 1) <= 2 ^ j') by (apply Z.pow_le_mono_r; lia). lia.
  - assert (2 ^ (j' + 1) <= 2 ^ j) by (apply Z.pow_le_mono_r; lia). lia.
Qed.

Lemma split_point_range n : 1 < n <= usize_max ->
  1 <= split_point n < n /\ n <= 2 * split_point n.
Proof.
  intros Hn. destruct (split_point_pow n Hn) as (j & Hj & -> & Hlo & Hhi).
  rewrite Z.pow_add_r in Hhi by lia. pose proof (Z.pow_pos_nonneg 2 j). lia.
Qed.

(** The left subtree is stable under growth: every size between [k] and [2k]
    splits at [k]. *)
Lemma split_point_stable m n :
  1 < n <= usize_max -> split_point n < m <= n -> split_point m = split_point n.
Proof.
  intros Hn Hm. destruct (split_point_pow n Hn) as (j & Hj & Hk & ? & ?).
  destruct (split_point_pow m) as (j' & Hj' & Hk' & ? & ?).
  { pose proof (split_point_range n Hn). lia. }
  rewrite Hk, Hk'. rewrite (pow2_bracket j j' m); lia.
Qed.

Lemma depth_fits n d : 1 <= n -> (depth n <= d)%nat <-> n <= 2 ^ Z.of_nat d.
Proof.
  intros Hn. unfold depth. destruct (Z.eq_dec n 1) as [->|].
  - change (Z.log2_up 1) with 0. pose proof (Z.pow_pos_nonneg 2 (Z.of_nat d)). lia.
  - pose proof (Z.log2_up_nonneg n). rewrite Z.log2_up_le_pow2 by lia. lia.
Qed.

(** A fuel that fits the tree fits both halves with one less. *)
Lemma depth_split n d :
  1 < n <= usize_max -> n <= 2 ^ Z.of_nat (S d) ->
  split_point n <= 2 ^ Z.of_nat d /\ n - split_point n <= 2 ^ Z.of_nat d.
Proof.
  intros Hn Hd. destruct (split_point_pow n Hn) as (j & Hj & -> & Hlo & Hhi).
  rewrite Z.pow_add_r in Hhi by lia.
  assert (2 ^ j <= 2 ^ Z.of_nat d); [|lia].
  assert (2 ^ j < 2 ^ Z.of_nat (S d)) as Hlt by lia.
  apply Z.pow_lt_mono_r_iff in Hlt; [|lia..]. apply Z.pow_le_mono_r; lia.
Qed.

Lemma depth_pow n : 1 <= n -> n <= 2 ^ Z.of_nat (depth n).
Proof. intros Hn. by apply depth_fits. Qed.

Lemma depth_pos n : 1 < n -> exists d, depth n = S d.
Proof.
  intros Hn. destruct (depth n) as [|d] eqn:E; [|by exists d].
  pose proof (depth_pow n). rewrite E in *. simpl in *. lia.
Qed.
End split_point.

(** ** Trees as lists *)

Definition fits {A} (l : list A) : Prop := (zlen l <= usize_max)%Z.

Lemma zlen_take {A} (l : list A) (k : nat) : k <= length l -> zlen (take k l) = Z.of_nat k.
Proof. intros. unfold zlen. rewrite length_take. lia. Qed.

Lemma list_lookup_middle_app {A} (l1 l2 l3 : list A) x n :
  n = length (l1 ++ l2) -> (l1 ++ l2 ++ x :: l3) !! n = Some x.
Proof. intros ->. rewrite app_assoc. by apply list_lookup_middle. Qed.

Section tree_list.
Context {A : Type}.
Implicit Types l : list A.

Definition halves (l : list A) : list A * list A := split_at l.

(** The two parts [split_at] answers for a list with something to split. *)
Lemma split_at_spec l : 1 < length l -> fits l ->
  exists k : nat, split_point (zlen l) = Z.of_nat k /\ 1 <= k < length l
    /\ split_at l = (take k l, drop k l)
    /\ length (take k l) = k /\ length (drop k l) = length l - k
    /\ fits (take k l) /\ fits (drop k l).
Proof.
  unfold fits, zlen, split_at. intros Hlen Hfit.
  destruct (split_point_range (Z.of_nat (length l))) as [Hk Hk']; [lia|].
  exists (Z.to_nat (split_point (Z.of_nat (length l)))).
  rewrite length_take, length_drop, !Z2Nat.id by lia.
  split_and!; unfold zlen; try done; lia.
Qed.

(** Induction along the tree's own shape. *)
Lemma tree_ind (P : list A -> Prop) :
  P [] -> (forall x, P [x]) ->
  (forall l k, 1 <= k < length l -> split_point (zlen l) = Z.of_nat k -> fits l ->
     split_at l = (take k l, drop k l) -> P (take k l) -> P (drop k l) -> P l) ->
  forall l, fits l -> P l.
Proof.
  intros Hnil Hone Hsplit l. remember (length l) as n eqn:Hn. revert l Hn.
  induction n as [n IH] using lt_wf_ind. intros l -> Hfit. destruct l as [|x [|y l]]; [done|done|].
  destruct (split_at_spec (x :: y :: l)) as (k & Hk & Hlt & Hs & Hl & Hr & Hfl & Hfr);
    [simpl; lia|done|].
  eapply (Hsplit _ k); eauto.
  - eapply IH; [|reflexivity|done]. rewrite Hl. lia.
  - eapply IH; [|reflexivity|done]. rewrite Hr. lia.
Qed.
End tree_list.

Section proofs.
Context `{Sha256}.
Implicit Types leaves : list LeafHash.

Lemma zlen_pos {A} (l : list A) : 1 < length l -> (1 < zlen l)%Z.
Proof. unfold zlen. lia. Qed.

Lemma fits_zlen {A} (l : list A) : 1 < length l -> fits l -> (1 < zlen l <= usize_max)%Z.
Proof. unfold fits, zlen. lia. Qed.

(** A fuel of [d] fits both halves when [S d] fits the list. *)
Lemma halves_fit {A} (l : list A) k d :
  1 <= k < length l -> split_point (zlen l) = Z.of_nat k -> fits l ->
  (zlen l <= 2 ^ Z.of_nat (S d) ->
   zlen (take k l) <= 2 ^ Z.of_nat d /\ zlen (drop k l) <= 2 ^ Z.of_nat d)%Z.
Proof.
  intros Hk Hs Hfit Hd. pose proof (depth_split (zlen l) d) as Hsplit.
  rewrite Hs in Hsplit. unfold fits, zlen in *. rewrite length_take, length_drop.
  replace (k `min` length l) with k by lia. lia.
Qed.

Lemma root_loop_S d leaves : 1 < length leaves ->
  root_loop (S d) leaves =
    (let '(l, r) := split_at leaves in node_hash (root_loop d l) (root_loop d r)).
Proof. destruct leaves as [|x [|y l]]; simpl; intros; [lia|lia|done]. Qed.

Lemma fuel_pos {A} (l : list A) d : 1 < length l -> (zlen l <= 2 ^ Z.of_nat d)%Z ->
  exists d', d = S d'.
Proof. unfold zlen. destruct d as [|d]; [simpl; lia|by exists d]. Qed.

Lemma root_loop_fuel leaves d d' : fits leaves ->
  (zlen leaves <= 2 ^ Z.of_nat d)%Z -> (zlen leaves <= 2 ^ Z.of_nat d')%Z ->
  root_loop d leaves = root_loop d' leaves.
Proof.
  intros Hfit. revert d d'. pattern leaves. revert leaves Hfit. apply tree_ind.
  - intros [|d] [|d']; done.
  - intros x [|d] [|d']; done.
  - intros l k Hk Hs Hfit Hat IHl IHr d d' Hd Hd'.
    destruct (fuel_pos l d) as [e ->], (fuel_pos l d') as [e' ->]; [lia..|].
    rewrite !root_loop_S, Hat by lia.
    apply (halves_fit l k) in Hd as [], Hd' as []; [|done..].
    by rewrite (IHl e e'), (IHr e e').
Qed.

Lemma depth_ok {A} (l : list A) : 1 < length l -> (zlen l <= 2 ^ Z.of_nat (depth (zlen l)))%Z.
Proof. intros. apply depth_pow. unfold zlen. lia. Qed.

Lemma root_depth leaves d : fits leaves -> (zlen leaves <= 2 ^ Z.of_nat d)%Z ->
  root_loop d leaves = root leaves.
Proof.
  intros Hfit Hd. unfold root. destruct (decide (1 < length leaves)) as [|Hs].
  - apply root_loop_fuel; auto using depth_ok.
  - destruct leaves as [|x [|y l]]; [by destruct d|by destruct d|simpl in Hs; lia].
Qed.

(** The root of a tree with something to split is the node over its halves. *)
Lemma root_split leaves k : 1 < length leaves -> fits leaves ->
  split_point (zlen leaves) = Z.of_nat k ->
  root leaves = node_hash (root (take k leaves)) (root (drop k leaves)).
Proof.
  intros Hlen Hfit Hs.
  destruct (split_at_spec leaves Hlen Hfit) as (k' & Hs' & Hk & Hat & _ & _ & Hl & Hr).
  assert (k' = k) as -> by lia.
  pose proof (depth_ok leaves Hlen) as Hd. unfold root at 1.
  destruct (depth_pos (zlen leaves)) as [d Hdep]; [by apply zlen_pos|]. rewrite Hdep in *.
  rewrite root_loop_S, Hat by done. apply (halves_fit leaves k) in Hd as []; [|done..].
  by rewrite !root_depth.
Qed.

(** The inputs hashed while a root is computed. *)
Fixpoint root_inputs_loop (fuel : nat) (leaves : list LeafHash) : list bytes :=
  match leaves with
  | [] => [[]]
  | [x] => []
  | _ => match fuel with
         | O => []
         | S fuel =>
             let '(l, r) := split_at leaves in
             node_input (root l) (root r) :: root_inputs_loop fuel l ++ root_inputs_loop fuel r
         end
  end.
Definition root_inputs leaves := root_inputs_loop (depth (zlen leaves)) leaves.

Lemma root_inputs_loop_fuel leaves d d' : fits leaves ->
  (zlen leaves <= 2 ^ Z.of_nat d)%Z -> (zlen leaves <= 2 ^ Z.of_nat d')%Z ->
  root_inputs_loop d leaves = root_inputs_loop d' leaves.
Proof.
  intros Hfit. revert d d'. pattern leaves. revert leaves Hfit. apply tree_ind.
  - intros [|d] [|d']; done.
  - intros x [|d] [|d']; done.
  - intros l k Hk Hs Hfit Hat IHl IHr d d' Hd Hd'.
    destruct (fuel_pos l d) as [e ->], (fuel_pos l d') as [e' ->]; [lia..|].
    apply (halves_fit l k) in Hd as [], Hd' as []; [|done..].
    destruct l as [|x [|y l]]; [simpl in *; lia..|]. cbn -[split_at]. rewrite Hat.
    by rewrite (IHl e e'), (IHr e e').
Qed.

Lemma root_inputs_nil : root_inputs [] = [[]].
Proof. done. Qed.

Lemma root_inputs_one x : root_inputs [x] = [].
Proof. done. Qed.

Lemma root_inputs_split leaves k : 1 < length leaves -> fits leaves ->
  split_point (zlen leaves) = Z.of_nat k ->
  root_inputs leaves =
    node_input (root (take k leaves)) (root (drop k leaves))
      :: root_inputs (take k leaves) ++ root_inputs (drop k leaves).
Proof.
  intros Hlen Hfit Hs.
  destruct (split_at_spec leaves Hlen Hfit) as (k' & Hs' & Hk & Hat & Hll & Hlr & Hl & Hr).
  assert (k' = k) as -> by lia.
  pose proof (depth_ok leaves Hlen) as Hd. unfold root_inputs at 1.
  destruct (depth_pos (zlen leaves)) as [d Hdep]; [by apply zlen_pos|]. rewrite Hdep in *.
  apply (halves_fit leaves k) in Hd as []; [|done..].
  destruct leaves as [|x [|y l]]; [simpl in *; lia..|].
  cbn -[split_at take drop]. rewrite Hat.
  f_equal. f_equal; apply root_inputs_loop_fuel; auto; apply depth_pow;
    unfold zlen; rewrite ?Hll, ?Hlr; lia.
Qed.

(** ** Collision-freeness opens nodes *)

Lemma node_input_inj a b c d : node_input a b = node_input c d -> a = c /\ b = d.
Proof.
  intros [= Happ]. apply digest_app_inj in Happ as [-> Hb].
  split; [done|]. by apply digest_eq.
Qed.

Lemma node_hash_inj inputs a b c d :
  collision_free inputs -> node_input a b ∈ inputs -> node_input c d ∈ inputs ->
  node_hash a b = node_hash c d -> a = c /\ b = d.
Proof. intros Hcf H1 H2 Heq. by apply node_input_inj, (collision_free_eq inputs). Qed.

(** ** Paths *)

Lemma path_loop_fuel d d' idx n : (1 <= n <= usize_max)%Z ->
  (n <= 2 ^ Z.of_nat d)%Z -> (n <= 2 ^ Z.of_nat d')%Z ->
  path_loop d idx n = path_loop d' idx n.
Proof.
  revert d' idx n. induction d as [|d IH]; intros d' idx n Hn Hd Hd'.
  - assert (n = 1%Z) as -> by (simpl in *; lia). by destruct d'.
  - destruct (decide (n <= 1)%Z) as [Hle|Hgt].
    { assert (n = 1%Z) as -> by lia. by destruct d'. }
    destruct d' as [|d']; [simpl in *; lia|].
    pose proof (split_point_range n). cbn [path_loop].
    destruct (decide (n <= 1)%Z); [lia|].
    destruct (depth_split n d), (depth_split n d'); [lia..|].
    case_decide; f_equal; apply IH; lia.
Qed.

(** One step of the walk: the length [n] of a tree with something to split. *)
Lemma path_step idx n : (1 < n <= usize_max)%Z ->
  path idx n = if decide (idx < split_point n)%Z
               then true :: path idx (split_point n)
               else false :: path (idx - split_point n) (n - split_point n).
Proof.
  intros Hn. pose proof (split_point_range n). pose proof (depth_pow n).
  unfold path at 1. destruct (depth_pos n) as [d Hd]; [lia|]. rewrite Hd in *.
  cbn [path_loop]. destruct (decide (n <= 1)%Z); [lia|].
  destruct (depth_split n d); [lia..|].
  case_decide; f_equal; apply path_loop_fuel; try lia; apply depth_pow; lia.
Qed.

Lemma path_one idx : path idx 1 = [].
Proof. done. Qed.

(** The fold of [verify_inclusion], leaf upwards. *)
Definition climb (h : Digest) (proof : list Digest) (dirs : list bool) : Digest :=
  foldl combine h (zip proof (reverse dirs)).

Lemma climb_snoc h ps p b ds : length ps = length ds ->
  climb h (ps ++ [p]) (b :: ds) = combine (climb h ps ds) (p, b).
Proof.
  intros Hl. unfold climb. rewrite reverse_cons, zip_with_app by (by rewrite length_reverse).
  by rewrite foldl_app.
Qed.

Lemma build_proof_fuel leaves index d d' : fits leaves -> index < length leaves ->
  (zlen leaves <= 2 ^ Z.of_nat d)%Z -> (zlen leaves <= 2 ^ Z.of_nat d')%Z ->
  build_proof d leaves index = build_proof d' leaves index.
Proof.
  intros Hfit. revert index d d'. pattern leaves. revert leaves Hfit. apply tree_ind.
  - intros index [|d] [|d']; done.
  - intros x index [|d] [|d']; done.
  - intros l k Hk Hs Hfit Hat IHl IHr index d d' Hi Hd Hd'.
    destruct (fuel_pos l d) as [e ->], (fuel_pos l d') as [e' ->]; [lia..|].
    apply (halves_fit l k) in Hd as [], Hd' as []; [|done..].
    cbn [build_proof]. destruct (decide (length l <= 1)); [lia|]. rewrite Hat.
    rewrite length_take, Nat.min_l by lia. case_decide; f_equal.
    + apply IHl; auto. rewrite length_take. lia.
    + apply IHr; auto. rewrite length_drop. lia.
Qed.

Lemma inclusion_proof_split leaves k index : index < length leaves -> 1 < length leaves ->
  fits leaves -> split_point (zlen leaves) = Z.of_nat k ->
  inclusion_proof leaves index =
    if decide (index < k)
    then inclusion_proof (take k leaves) index ++ [root (drop k leaves)]
    else inclusion_proof (drop k leaves) (index - k) ++ [root (take k leaves)].
Proof.
  intros Hi Hlen Hfit Hs.
  destruct (split_at_spec leaves Hlen Hfit) as (k' & Hs' & Hk & Hat & Hll & Hlr & Hl & Hr).
  assert (k' = k) as -> by lia. unfold inclusion_proof.
  destruct (decide (length leaves <= index)); [lia|].
  pose proof (depth_ok leaves Hlen) as Hd.
  destruct (depth_pos (zlen leaves)) as [d Hdep]; [by apply zlen_pos|]. rewrite Hdep in *.
  apply (halves_fit leaves k) in Hd as []; [|done..].
  cbn [build_proof]. destruct (decide (length leaves <= 1)); [lia|]. rewrite Hat, Hll, Hlr.
  assert (forall l : list LeafHash, 1 <= length l -> (zlen l <= 2 ^ Z.of_nat (depth (zlen l)))%Z)
    as Hdp by (intros; apply depth_pow; unfold zlen; lia).
  case_decide; rewrite decide_False by lia; f_equal; apply build_proof_fuel; auto;
    rewrite ?Hll, ?Hlr; try lia; apply Hdp; rewrite ?Hll, ?Hlr; lia.
Qed.

(** The prover's siblings are as many as the verifier's turns, and folding
    them from the leaf reaches the root. *)
Lemma inclusion_climb leaves index leaf : fits leaves -> leaves !! index = Some leaf ->
  length (inclusion_proof leaves index) = length (path (Z.of_nat index) (zlen leaves))
  /\ climb (leaf_digest leaf) (inclusion_proof leaves index)
       (path (Z.of_nat index) (zlen leaves)) = root leaves.
Proof.
  intros Hfit. revert index leaf. pattern leaves. revert leaves Hfit. apply tree_ind.
  - done.
  - intros x index leaf [-> ->]%list_lookup_singleton_Some. done.
  - intros l k Hk Hs Hfit Hat IHl IHr index leaf Hleaf.
    pose proof (lookup_lt_Some _ _ _ Hleaf) as Hi.
    rewrite (inclusion_proof_split l k), path_step, Hs by (auto using fits_zlen with lia).
    rewrite (root_split l k) by (auto with lia).
    assert (zlen l - Z.of_nat k = zlen (drop k l))%Z as -> by
      (unfold zlen; rewrite length_drop; lia).
    destruct (decide (index < k)) as [Hlt|Hge].
    + rewrite decide_True by lia.
      destruct (IHl index leaf) as [Hlen Hcl]; [by rewrite lookup_take_lt|].
      rewrite zlen_take in Hlen, Hcl by lia.
      rewrite length_app, climb_snoc by done. simpl. rewrite Hcl. split; [lia|done].
    + rewrite decide_False by lia.
      destruct (IHr (index - k) leaf) as [Hlen Hcl].
      { rewrite lookup_drop. by replace (k + (index - k)) with index by lia. }
      replace (Z.of_nat index - Z.of_nat k)%Z with (Z.of_nat (index - k)) by lia.
      rewrite length_app, climb_snoc by done. simpl. rewrite Hcl. split; [lia|done].
Qed.

(** The inputs the verifier hashes on its way up. *)
Fixpoint fold_inputs (h : Digest) (steps : list (Digest * bool)) : list bytes :=
  match steps with
  | [] => []
  | s :: r => combine_input h s :: fold_inputs (combine h s) r
  end.
Definition climb_inputs (h : Digest) (proof : list Digest) (dirs : list bool) : list bytes :=
  fold_inputs h (zip proof (reverse dirs)).

Lemma fold_inputs_snoc h l s :
  fold_inputs h (l ++ [s]) = fold_inputs h l ++ [combine_input (foldl combine h l) s].
Proof. revert h. induction l as [|x l IH]; intros h; simpl; [done|]. by rewrite IH. Qed.

Lemma climb_inputs_snoc h ps p b ds : length ps = length ds ->
  climb_inputs h (ps ++ [p]) (b :: ds) =
    climb_inputs h ps ds ++ [combine_input (climb h ps ds) (p, b)].
Proof.
  intros Hl. unfold climb_inputs, climb.
  rewrite reverse_cons, zip_with_app by (by rewrite length_reverse).
  apply fold_inputs_snoc.
Qed.

Lemma climb_sound leaves index leaf ps : fits leaves ->
  (0 <= index < zlen leaves)%Z -> length ps = length (path index (zlen leaves)) ->
  collision_free (root_inputs leaves
                  ++ climb_inputs (leaf_digest leaf) ps (path index (zlen leaves))) ->
  climb (leaf_digest leaf) ps (path index (zlen leaves)) = root leaves ->
  leaves !! Z.to_nat index = Some leaf.
Proof.
  intros Hfit. revert index ps. pattern leaves. revert leaves Hfit. apply tree_ind.
  - intros index ps Hi. unfold zlen in Hi. simpl in Hi. lia.
  - intros x index ps Hi Hps _ Hcl. assert (index = 0%Z) as -> by (unfold zlen in Hi; simpl in Hi; lia).
    change (path 0 (zlen [x])) with (@nil bool) in *.
    apply nil_length_inv in Hps as ->. unfold climb in Hcl. simpl in Hcl.
    destruct leaf, x. by simplify_eq/=.
  - intros l k Hk Hs Hfit Hat IHl IHr index ps Hi Hps Hcf Hcl.
    rewrite (root_inputs_split l k) in Hcf by (auto with lia).
    rewrite (root_split l k) in Hcl by (auto with lia).
    rewrite path_step, Hs in Hps, Hcf, Hcl by (auto using fits_zlen with lia).
    assert (zlen (take k l) = Z.of_nat k) as Hzl by (apply zlen_take; lia).
    assert (zlen (drop k l) = zlen l - Z.of_nat k)%Z as Hzr by
      (unfold zlen; rewrite length_drop; lia).
    destruct ps as [|p ps _] using rev_ind; [by case_decide|].
    rewrite length_app in Hps.
    destruct (decide (index < Z.of_nat k)%Z) as [Hlt|Hge];
      simpl in Hps; rewrite climb_inputs_snoc in Hcf by lia; rewrite climb_snoc in Hcl by lia;
      (eapply node_hash_inj in Hcl as [Hc1 Hc2]; [|exact Hcf|..];
        [|cbn; list_mem|cbn; list_mem]); simpl in *.
    + rewrite <-(lookup_take_lt l k) by lia. apply IHl with ps; rewrite ?Hzl; auto; [lia..|].
      eapply collision_free_sub, Hcf. cbn; list_mem.
    + replace (Z.to_nat index) with (k + Z.to_nat (index - Z.of_nat k)) by lia.
      rewrite <-lookup_drop. apply IHr with ps; rewrite ?Hzr; auto; [lia..|].
      eapply collision_free_sub, Hcf. cbn; list_mem.
Qed.

(** ** Roots determine their leaves *)

(** Leaf and node inputs never coincide: the prefix bytes differ. *)
Lemma leaf_node_input d a b : leaf_input d <> node_input a b.
Proof. discriminate. Qed.

(** The hash a root is the image of: of the empty string, of its one leaf's
    prefixed digest, or of the top node. *)
Definition top_input (ds : list Digest) : bytes :=
  match ds with
  | [] => []
  | [d] => leaf_input d
  | _ => let '(l, r) := split_at ds in
         node_input (root (leaf_hash <$> l)) (root (leaf_hash <$> r))
  end.

(** Everything hashed to commit to a list of digests. *)
Definition log_inputs (ds : list Digest) : list bytes :=
  root_inputs (leaf_hash <$> ds) ++ (leaf_input <$> ds).

Lemma zlen_fmap {A B} (f : A -> B) l : zlen (f <$> l) = zlen l.
Proof. unfold zlen. by rewrite length_fmap. Qed.

Lemma fits_fmap {A B} (f : A -> B) l : fits (f <$> l) <-> fits l.
Proof. unfold fits. by rewrite zlen_fmap. Qed.

Lemma log_inputs_split ds k : 1 < length ds -> fits ds -> split_point (zlen ds) = Z.of_nat k ->
  log_inputs (take k ds) ⊆ log_inputs ds /\ log_inputs (drop k ds) ⊆ log_inputs ds.
Proof.
  intros Hlen Hfit Hs. unfold log_inputs.
  rewrite (root_inputs_split (leaf_hash <$> ds) k) by (rewrite ?length_fmap, ?fits_fmap, ?zlen_fmap; done).
  assert (leaf_input <$> ds = (leaf_input <$> take k ds) ++ (leaf_input <$> drop k ds)) as ->
    by (by rewrite <-fmap_app, take_drop).
  rewrite !fmap_take, !fmap_drop. split; list_mem.
Qed.

Lemma top_input_spec ds : fits ds ->
  root (leaf_hash <$> ds) = digest_of (top_input ds) /\ top_input ds ∈ log_inputs ds.
Proof.
  intros Hfit. destruct (decide (1 < length ds)) as [Hlen|].
  - destruct (split_at_spec ds Hlen Hfit) as (k & Hs & Hk & Hat & _).
    assert (top_input ds = node_input (root (leaf_hash <$> take k ds)) (root (leaf_hash <$> drop k ds)))
      as ->.
    { destruct ds as [|d [|d' ds]]; [simpl in *; lia..|]. unfold top_input. by rewrite Hat. }
    unfold log_inputs.
    rewrite (root_split (leaf_hash <$> ds) k), (root_inputs_split (leaf_hash <$> ds) k), !fmap_take, !fmap_drop
      by (rewrite ?length_fmap, ?fits_fmap, ?zlen_fmap; done).
    split; [done|]. list_mem.
  - destruct ds as [|d [|d' ds]]; [| |simpl in *; lia]; (split; [done|]);
      unfold log_inputs; simpl; rewrite ?root_inputs_nil, ?root_inputs_one; list_mem.
Qed.

Lemma top_input_node ds k : split_point (zlen ds) = Z.of_nat k -> 1 < length ds ->
  top_input ds = node_input (root (leaf_hash <$> take k ds)) (root (leaf_hash <$> drop k ds)).
Proof.
  intros Hs Hlen. destruct ds as [|d [|d' ds]]; [simpl in *; lia..|].
  unfold top_input, split_at. by rewrite Hs, Nat2Z.id.
Qed.

Lemma root_binding_aux ds1 : fits ds1 -> forall ds2, fits ds2 ->
  collision_free (log_inputs ds1 ++ log_inputs ds2) ->
  root (leaf_hash <$> ds1) = root (leaf_hash <$> ds2) -> ds1 = ds2.
Proof.
  intros Hf1. pattern ds1. revert ds1 Hf1.
  assert (forall ds1 ds2, fits ds1 -> fits ds2 ->
    collision_free (log_inputs ds1 ++ log_inputs ds2) ->
    root (leaf_hash <$> ds1) = root (leaf_hash <$> ds2) -> top_input ds1 = top_input ds2) as Htop.
  { intros ds1 ds2 Hf1 Hf2 Hcf Hr.
    destruct (top_input_spec ds1 Hf1) as [E1 M1], (top_input_spec ds2 Hf2) as [E2 M2].
    eapply (collision_free_eq _ _ _ Hcf); [list_mem..|].
    rewrite E1, E2 in Hr. exact Hr. }
  apply tree_ind.
  - intros ds2 Hf2 Hcf Hr. apply Htop in Hr; [|done..].
    destruct ds2 as [|d [|d' ds2]]; [done..|discriminate Hr].
  - intros x ds2 Hf2 Hcf Hr. apply Htop in Hr; [|done..].
    destruct ds2 as [|d [|d' ds2]]; [done| |discriminate Hr].
    injection Hr as Hr. f_equal. by apply digest_eq.
  - intros l k Hk Hs Hfit Hat IHl IHr ds2 Hf2 Hcf Hr. apply Htop in Hr; [|done..].
    rewrite (top_input_node l k) in Hr by (done || lia).
    destruct (decide (1 < length ds2)) as [Hlen|];
      [|destruct ds2 as [|d [|d' ds2]]; [discriminate Hr..|simpl in *; lia]].
    destruct (split_at_spec ds2 Hlen Hf2) as (k' & Hs' & _ & _ & _ & _ & Hl & Hr').
    destruct (split_at_spec l) as (k'' & Hs'' & _ & _ & _ & _ & Hl1 & Hr1); [lia|done|].
    assert (k'' = k) as -> by lia.
    rewrite (top_input_node ds2 k') in Hr by done. apply node_input_inj in Hr as [Ht Hd].
    destruct (log_inputs_split l k), (log_inputs_split ds2 k'); [(done || lia)..|].
    rewrite <-(take_drop k l), <-(take_drop k' ds2). f_equal.
    + apply IHl; auto. eapply collision_free_sub, Hcf. intros x Hx; apply elem_of_app in Hx as [Hx|Hx]; apply elem_of_app; auto.
    + apply IHr; auto. eapply collision_free_sub, Hcf. intros x Hx; apply elem_of_app in Hx as [Hx|Hx]; apply elem_of_app; auto.
Qed.

(** ** Consistency *)

(** Growing a log past the split leaves the left subtree alone. *)
Lemma root_take leaves k m : 1 < length leaves -> fits leaves ->
  split_point (zlen leaves) = Z.of_nat k -> k < m <= length leaves ->
  root (take m leaves) = node_hash (root (take k leaves)) (root (take (m - k) (drop k leaves))).
Proof.
  intros Hlen Hfit Hs Hm. pose proof (split_point_range (zlen leaves)) as Hr.
  assert (zlen (take m leaves) = Z.of_nat m) as Hz by (apply zlen_take; lia).
  rewrite (root_split (take m leaves) k).
  - rewrite take_take, Nat.min_l by lia. by rewrite skipn_firstn_comm.
  - rewrite length_take. unfold fits, zlen in *. lia.
  - unfold fits in *. rewrite Hz. unfold zlen in *. lia.
  - rewrite Hz, (split_point_stable _ (zlen leaves)); unfold fits, zlen in *; lia.
Qed.

Lemma rebuild_loop_fuel d d' m n proof fed complete old :
  (1 <= m <= n)%Z -> (n <= usize_max)%Z ->
  (n <= 2 ^ Z.of_nat d)%Z -> (n <= 2 ^ Z.of_nat d')%Z ->
  rebuild_loop d m n proof fed complete old = rebuild_loop d' m n proof fed complete old.
Proof.
  revert d' m n fed complete old.
  induction d as [|d IH]; intros d' m n fed complete old Hm Hn Hd Hd'.
  - assert (n = 1%Z) as -> by (simpl in *; lia). assert (m = 1%Z) as -> by lia. by destruct d'.
  - destruct (decide (m = n)) as [->|Hne].
    { destruct d'; simpl; by rewrite !decide_True. }
    destruct d' as [|d']; [simpl in *; lia|]. cbn [rebuild_loop].
    pose proof (split_point_range n). rewrite !(decide_False (P := (m = n))) by done.
    destruct (depth_split n d), (depth_split n d'); [lia..|].
    case_decide; rewrite (IH d'); (done || lia).
Qed.

Lemma rebuild_same n proof fed complete old :
  rebuild n n proof fed complete old =
    if complete then Some ((old, old), fed) else h ← proof !! fed; Some ((h, h), S fed).
Proof. unfold rebuild. by destruct (depth n); simpl; rewrite decide_True. Qed.

Lemma rebuild_split m n proof fed complete old : (1 <= m < n)%Z -> (n <= usize_max)%Z ->
  rebuild m n proof fed complete old =
    (let k := split_point n in
     if decide (m <= k)%Z then
       '((o, new_left), fed) ← rebuild m k proof fed complete old;
       right ← proof !! fed; Some ((o, node_hash new_left right), S fed)
     else
       '((old_right, new_right), fed) ← rebuild (m - k) (n - k) proof fed false old;
       left ← proof !! fed;
       Some ((node_hash left old_right, node_hash left new_right), S fed)).
Proof.
  intros Hm Hn. pose proof (split_point_range n). pose proof (depth_pow n) as Hd.
  unfold rebuild at 1. destruct (depth_pos n) as [d Hdep]; [lia|]. rewrite Hdep in *.
  cbn [rebuild_loop]. rewrite decide_False by lia. destruct (depth_split n d); [lia..|].
  unfold rebuild. cbv zeta. case_decide.
  - rewrite (rebuild_loop_fuel d (depth (split_point n))); [done|lia..|apply depth_pow; lia].
  - rewrite (rebuild_loop_fuel d (depth (n - split_point n)));
      [done|lia..|apply depth_pow; lia].
Qed.

Lemma subproof_fuel leaves m complete d d' : fits leaves -> 1 <= m <= length leaves ->
  (zlen leaves <= 2 ^ Z.of_nat d)%Z -> (zlen leaves <= 2 ^ Z.of_nat d')%Z ->
  subproof d m leaves complete = subproof d' m leaves complete.
Proof.
  intros Hfit. revert m complete d d'. pattern leaves. revert leaves Hfit. apply tree_ind.
  - simpl. lia.
  - intros x m complete d d' Hm. assert (m = 1) as -> by (simpl in *; lia).
    destruct d, d'; done.
  - intros l k Hk Hs Hfit Hat IHl IHr m complete d d' Hm Hd Hd'.
    destruct (fuel_pos l d) as [e ->], (fuel_pos l d') as [e' ->]; [lia..|].
    apply (halves_fit l k) in Hd as [], Hd' as []; [|done..].
    cbn [subproof]. destruct (decide (m = length l)); [done|]. rewrite Hat.
    rewrite length_take, Nat.min_l by lia. case_decide; f_equal.
    + apply IHl; auto. rewrite length_take. lia.
    + apply IHr; auto. rewrite length_drop. lia.
Qed.

(** The verifier's rebuild reads exactly the hashes [subproof] emits, and
    reconstructs both roots from them. *)
Lemma rebuild_complete leaves m complete old d pre post : fits leaves ->
  1 <= m <= length leaves -> (zlen leaves <= 2 ^ Z.of_nat d)%Z ->
  (complete = true -> old = root (take m leaves)) ->
  let sp := subproof d m leaves complete in
  rebuild (Z.of_nat m) (zlen leaves) (pre ++ sp ++ post) (length pre) complete old =
    Some ((root (take m leaves), root leaves), length pre + length sp).
Proof.
  intros Hfit. revert m complete old d pre post. pattern leaves. revert leaves Hfit.
  assert (forall l complete old d pre post, (complete = true -> old = root (take (length l) l)) ->
    let sp := subproof d (length l) l complete in
    rebuild (Z.of_nat (length l)) (zlen l) (pre ++ sp ++ post) (length pre) complete old =
      Some ((root (take (length l) l), root l), length pre + length sp)) as Hall.
  { intros l complete old d pre post Hc. rewrite firstn_all in *. unfold zlen. rewrite rebuild_same.
    assert (subproof d (length l) l complete = if complete then [] else [root l]) as ->
      by (destruct d; simpl; by rewrite decide_True).
    destruct complete; simpl.
    - rewrite Hc by done. by rewrite Nat.add_0_r.
    - rewrite list_lookup_middle by done. simpl. by rewrite Nat.add_1_r. }
  apply tree_ind.
  - simpl. lia.
  - intros x m complete old d pre post Hm. assert (m = 1) as -> by (simpl in *; lia).
    intros _. apply (Hall [x]).
  - intros l k Hk Hs Hfit Hat IHl IHr m complete old d pre post Hm Hd Hc.
    destruct (decide (m = length l)) as [->|Hne]; [by apply Hall|].
    destruct (fuel_pos l d) as [e ->]; [lia..|].
    apply (halves_fit l k) in Hd as [Hdl Hdr]; [|done..].
    cbn [subproof]. rewrite decide_False, Hat by lia.
    rewrite rebuild_split, Hs by (unfold fits, zlen in *; lia).
    rewrite length_take, Nat.min_l by lia. cbv zeta.
    assert (zlen (take k l) = Z.of_nat k) as Hzl by (apply zlen_take; lia).
    assert (zlen (drop k l) = zlen l - Z.of_nat k)%Z as Hzr by
      (unfold zlen; rewrite length_drop; lia).
    destruct (decide (m <= k)) as [Hle|Hgt].
    + rewrite decide_True, <-Hzl, <-app_assoc by lia.
      rewrite (IHl m complete old e pre); [|rewrite length_take; lia|done|].
      2:{ intros. rewrite take_take, Nat.min_l by lia. auto. }
      simpl. rewrite list_lookup_middle_app by (by rewrite length_app).
      simpl. rewrite take_take, Nat.min_l, <-(root_split l k) by (done || lia).
      rewrite length_app. simpl. repeat f_equal. lia.
    + rewrite decide_False, <-Hzr, <-app_assoc by lia.
      replace (Z.of_nat m - Z.of_nat k)%Z with (Z.of_nat (m - k)) by lia.
      rewrite (IHr (m - k) false old e pre); [|rewrite length_drop; lia|done|done].
      simpl. rewrite list_lookup_middle_app by (by rewrite length_app).
      simpl. rewrite <-(root_take l k m), <-(root_split l k) by (done || lia).
      rewrite length_app. simpl. repeat f_equal. lia.
Qed.

(** The inputs the verifier hashes on the way to the new root. *)
Fixpoint rebuild_inputs_loop (fuel : nat) (m n : Z) (proof : list Digest) (fed : nat)
    (complete : bool) (old : Digest) : list bytes :=
  if decide (m = n) then []
  else match fuel with
       | O => []
       | S fuel =>
           let k := split_point n in
           if decide (m <= k)%Z then
             match rebuild m k proof fed complete old with
             | Some ((_, new_left), fed') =>
                 match proof !! fed' with
                 | Some sib =>
                     node_input new_left sib
                       :: rebuild_inputs_loop fuel m k proof fed complete old
                 | None => []
                 end
             | None => []
             end
           else
             match rebuild (m - k) (n - k) proof fed false old with
             | Some ((_, new_right), fed') =>
                 match proof !! fed' with
                 | Some sib =>
                     node_input sib new_right
                       :: rebuild_inputs_loop fuel (m - k) (n - k) proof fed false old
                 | None => []
                 end
             | None => []
             end
       end.
Definition rebuild_inputs m n proof old :=
  rebuild_inputs_loop (depth n) m n proof 0 true old.

(** Whatever rebuilds to a tree's root as the new root rebuilds to its
    prefix's root as the old one. *)
Lemma rebuild_sound leaves m proof fed complete old o fed' d : fits leaves ->
  1 <= m <= length leaves -> (zlen leaves <= 2 ^ Z.of_nat d)%Z ->
  collision_free (root_inputs leaves
    ++ rebuild_inputs_loop d (Z.of_nat m) (zlen leaves) proof fed complete old) ->
  rebuild (Z.of_nat m) (zlen leaves) proof fed complete old = Some ((o, root leaves), fed') ->
  o = root (take m leaves).
Proof.
  intros Hfit. revert m fed complete o fed' d. pattern leaves. revert leaves Hfit.
  assert (forall l fed complete o fed',
    rebuild (Z.of_nat (length l)) (zlen l) proof fed complete old = Some ((o, root l), fed') ->
    o = root (take (length l) l)) as Hall.
  { intros l fed complete o fed'. unfold zlen. rewrite rebuild_same, firstn_all.
    destruct complete; [congruence|]. destruct (proof !! fed); simpl; congruence. }
  apply tree_ind.
  - simpl. lia.
  - intros x m fed complete o fed' d Hm. assert (m = 1) as -> by (simpl in *; lia).
    intros _ _. apply (Hall [x]).
  - intros l k Hk Hs Hfit Hat IHl IHr m fed complete o fed' d Hm Hd Hcf Hre.
    destruct (decide (m = length l)) as [->|Hne]; [by eapply Hall|].
    destruct (fuel_pos l d) as [e ->]; [lia..|].
    apply (halves_fit l k) in Hd as [Hdl Hdr]; [|done..].
    rewrite rebuild_split, Hs in Hre by (unfold fits, zlen in *; lia). cbv zeta in Hre.
    cbn [rebuild_inputs_loop] in Hcf. cbv zeta in Hcf.
    rewrite decide_False, Hs, (root_inputs_split l k) in Hcf by (done || (unfold zlen; lia)).
    assert (zlen (take k l) = Z.of_nat k) as Hzl by (apply zlen_take; lia).
    assert (zlen (drop k l) = zlen l - Z.of_nat k)%Z as Hzr by
      (unfold zlen; rewrite length_drop; lia).
    rewrite (root_split l k) in Hre by (done || lia).
    destruct (decide (Z.of_nat m <= Z.of_nat k)%Z) as [Hle|Hgt].
    + destruct (rebuild _ (Z.of_nat k) _ _ _ _) as [[[o' nl] f]|] eqn:Hsub; [|done].
      simpl in Hre. destruct (proof !! f) as [sib|]; [|done]. simpl in Hre.
      injection Hre as -> Hnode Hf.
      eapply node_hash_inj in Hnode as [-> ->]; [|exact Hcf|list_mem..].
      assert (take m l = take m (take k l)) as -> by
        (rewrite take_take, Nat.min_l; [done|lia]).
      rewrite <-Hzl in Hcf, Hsub. apply (IHl m fed complete o f e); auto.
      * rewrite length_take. lia.
      * eapply collision_free_sub, Hcf. list_mem.
    + replace (Z.of_nat m - Z.of_nat k)%Z with (Z.of_nat (m - k)) in * by lia.
      rewrite <-Hzr in *.
      destruct (rebuild _ (zlen (drop k l)) _ _ _ _) as [[[oright nright] f]|] eqn:Hsub; [|done].
      simpl in Hre. destruct (proof !! f) as [sib|]; [|done]. simpl in Hre.
      injection Hre as <- Hnode Hf.
      eapply node_hash_inj in Hnode as [-> ->]; [|exact Hcf|list_mem..].
      rewrite (root_take l k m) by (done || lia). f_equal.
      apply (IHr (m - k) fed false oright f e); auto.
      * rewrite length_drop. lia.
      * eapply collision_free_sub, Hcf. list_mem.
Qed.
End proofs.

(** ** Properties *)

Section theorems.
Context `{Sha256}.
Implicit Types leaves : list LeafHash.

(** Inclusion proofs are complete: for every leaf of a log of any size a
    [usize] can hold, the proof [inclusion_proof] builds is accepted by
    [verify_inclusion] against the log's own root. *)
Theorem inclusion_complete leaves index leaf :
  fits leaves -> leaves !! index = Some leaf ->
  verify_inclusion leaf (Z.of_nat index) (zlen leaves) (inclusion_proof leaves index)
    (root leaves) = true.
Proof.
  intros Hfit Hleaf. pose proof (lookup_lt_Some _ _ _ Hleaf).
  destruct (inclusion_climb leaves index leaf Hfit Hleaf) as [Hlen Hcl].
  unfold verify_inclusion. rewrite decide_False by (unfold zlen; lia).
  rewrite decide_True by done. by apply bool_decide_eq_true.
Qed.

(** C32. Inclusion proofs are sound: whatever sibling list [verify_inclusion]
    accepts for a leaf, an index and a log's size and root, that leaf is the
    log's leaf at that index, unless two of the inputs hashed by the log and
    by the verifier collide. *)
Theorem inclusion_sound leaves index leaf proof :
  fits leaves -> (0 <= index)%Z ->
  collision_free (root_inputs leaves
    ++ climb_inputs (leaf_digest leaf) proof (path index (zlen leaves))) ->
  verify_inclusion leaf index (zlen leaves) proof (root leaves) = true ->
  leaves !! Z.to_nat index = Some leaf.
Proof.
  unfold verify_inclusion. intros Hfit Hi Hcf Hv.
  destruct (decide (zlen leaves <= index)%Z); [done|].
  destruct (decide (length (path index (zlen leaves)) = length proof)); [|done].
  apply bool_decide_eq_true in Hv. apply climb_sound with proof; auto. lia.
Qed.

(** Consistency proofs are complete: a log's own proof that a prefix of
    it is a prefix is accepted against the two real roots, for every prefix
    size from nothing to the whole log. *)
Theorem consistency_complete leaves old_size :
  fits leaves -> old_size <= length leaves ->
  verify_consistency (Z.of_nat old_size) (root (take old_size leaves)) (zlen leaves)
    (root leaves) (consistency_proof leaves old_size) = true.
Proof.
  intros Hfit Hm. unfold verify_consistency, consistency_proof.
  rewrite decide_False by (unfold zlen; lia).
  destruct (decide (Z.of_nat old_size = 0)%Z) as [H0|H0].
  { assert (old_size = 0) as -> by lia. rewrite decide_True by lia.
    by rewrite !bool_decide_true. }
  rewrite (decide_False (P := _ \/ _)) by lia.
  destruct (decide (Z.of_nat old_size = zlen leaves)) as [Heq|Hne].
  { assert (old_size = length leaves) as -> by (unfold zlen in *; lia). rewrite firstn_all.
    destruct (depth (zlen leaves)); simpl; rewrite decide_True by done;
      by rewrite !bool_decide_true. }
  pose proof (rebuild_complete leaves old_size true (root (take old_size leaves))
    (depth (zlen leaves)) [] [] Hfit) as Hre.
  simpl in Hre. rewrite app_nil_r in Hre. rewrite Hre by (done || lia || (apply depth_pow; unfold zlen; lia)).
  by rewrite !bool_decide_true.
Qed.

(** Consistency proofs are sound: whatever hash list
    [verify_consistency] accepts between an old checkpoint and a log's own
    size and root, the old root is the root of that log's prefix of the old
    size.  A fork or a deletion cannot be presented as an extension. *)
Theorem consistency_sound leaves old_size old_root proof :
  fits leaves -> (0 <= old_size)%Z ->
  collision_free (root_inputs leaves
    ++ rebuild_inputs old_size (zlen leaves) proof old_root) ->
  verify_consistency old_size old_root (zlen leaves) (root leaves) proof = true ->
  old_root = root (take (Z.to_nat old_size) leaves)
  /\ (old_size <= zlen leaves)%Z.
Proof.
  unfold verify_consistency. intros Hfit Hm Hcf Hv.
  destruct (decide (old_size > zlen leaves)%Z); [done|].
  destruct (decide (old_size = 0)%Z) as [->|Hpos].
  { apply andb_true_iff in Hv as [_ Hv]. apply bool_decide_eq_true in Hv. split; [done|lia]. }
  destruct (decide (old_size = zlen leaves)) as [->|Hne].
  { apply andb_true_iff in Hv as [_ Hv]. apply bool_decide_eq_true in Hv.
    unfold zlen. rewrite Nat2Z.id, firstn_all. split; [done|lia]. }
  split; [|lia].
  destruct (rebuild _ _ _ _ _ _) as [[[o w] fed]|] eqn:Hre; [|done].
  apply andb_true_iff in Hv as [Hv _]. apply andb_true_iff in Hv as [Ho Hw].
  apply bool_decide_eq_true in Ho as <-, Hw as ->.
  assert (old_size = Z.of_nat (Z.to_nat old_size)) as Hz by lia. rewrite Hz in Hre, Hcf.
  eapply rebuild_sound; [done| |apply depth_pow|exact Hcf|exact Hre]; unfold zlen in *; lia.
Qed.

(** A root commits to the whole set of runs, sizes included: two lists of
    run digests whose leaf-hashed logs have one root are the same list.  The
    domain-separation prefixes are what rules out a subtree presented as a
    leaf, so the sizes need not be compared first. *)
Theorem root_binding ds1 ds2 :
  fits ds1 -> fits ds2 -> collision_free (log_inputs ds1 ++ log_inputs ds2) ->
  root (leaf_hash <$> ds1) = root (leaf_hash <$> ds2) -> ds1 = ds2.
Proof. intros. by eapply root_binding_aux. Qed.
End theorems.

(** [split_point] answers for every length up to [usize::MAX]: the largest
    power of two strictly below it, and the doubling loop has stopped by then
    (any further fuel changes nothing), so a hostile size cannot hang it. *)
Theorem split_point_total (n : Z) (extra : nat) :
  (1 < n <= usize_max)%Z ->
  exists j, (0 <= j <= 63)%Z /\ split_point n = (2 ^ j)%Z /\ (2 ^ j < n <= 2 ^ (j + 1))%Z
    /\ split_loop (64 + extra) 1 n = split_point n.
Proof.
  intros Hn. destruct (split_point_pow n Hn) as (j & Hj & Hs & Hb).
  destruct (split_loop_spec (64 + extra) 0 n) as (j' & Hj' & Hs' & Hb'); [lia..|].
  exists j. repeat (split; [done || lia|]). rewrite Hs.
  etransitivity; [exact Hs'|]. f_equal. apply (pow2_bracket j' j n); lia.
Qed.

(** ** Concrete logs *)

Module MerkleWitness.
#[local] Instance hash : Sha256 := toy_hash.

Definition run_digest (n : nat) : Digest := toy_hash [default x00 (Byte.of_nat n)].
Definition runs (n : nat) : list Digest := run_digest <$> seq 0 n.
Definition log (n : nat) : list LeafHash := leaf_hash <$> runs n.

(** Seven runs; run 5 is in the log. *)
Lemma inclusion_complete_witness :
  verify_inclusion (leaf_hash (run_digest 5)) 5 7 (inclusion_proof (log 7) 5) (root (log 7))
    = true.
Proof.
  apply (inclusion_complete (log 7) 5 (leaf_hash (run_digest 5))).
  - by vm_compute.
  - reflexivity.
Defined.

Lemma inclusion_sound_witness : log 7 !! 5 = Some (leaf_hash (run_digest 5)).
Proof.
  apply (inclusion_sound (log 7) 5 (leaf_hash (run_digest 5)) (inclusion_proof (log 7) 5)).
  - by vm_compute.
  - lia.
  - apply collision_free_check. vm_compute. reflexivity.
  - vm_compute. reflexivity.
Defined.

Lemma consistency_complete_witness :
  verify_consistency 3 (root (log 3)) 7 (root (log 7)) (consistency_proof (log 7) 3) = true.
Proof.
  apply (consistency_complete (log 7) 3).
  - by vm_compute.
  - vm_compute. lia.
Defined.

Lemma consistency_sound_witness :
  root (log 3) = root (take 3 (log 7)) /\ (3 <= zlen (log 7))%Z.
Proof.
  apply (consistency_sound (log 7) 3 (root (log 3)) (consistency_proof (log 7) 3)).
  - by vm_compute.
  - lia.
  - apply collision_free_check. vm_compute. reflexivity.
  - vm_compute. reflexivity.
Defined.

Lemma root_binding_witness : runs 5 = (run_digest <$> [0; 1; 2; 3; 4]).
Proof.
  apply (root_binding (runs 5) (run_digest <$> [0; 1; 2; 3; 4])).
  - by vm_compute.
  - by vm_compute.
  - apply collision_free_check. vm_compute. reflexivity.
  - reflexivity.
Defined.

(** The widest size a counterparty can claim. *)
Lemma split_point_total_witness :
  exists j, (0 <= j <= 63)%Z /\ split_point usize_max = (2 ^ j)%Z
    /\ (2 ^ j < usize_max <= 2 ^ (j + 1))%Z /\ split_loop (64 + 3) 1 usize_max = split_point usize_max.
Proof. apply (split_point_total usize_max 3). unfold u64_max. lia. Defined.
End MerkleWitness.
