(* ===== verification/Checkpoint.v ===== *)
(** * Checkpoints and their notes ([src/src/journal/store.rs])

    A checkpoint names a log, its size and its Merkle root, and leaves the
    operator's control as a text note.  What a signature covers is the text, so
    the point of the reader's strictness is that a checkpoint has one text:
    [note_canonical].  Base64 is the [base64] crate's; the class states what
    [core/b64.rs] relies on, canonicity included. *)

From S2P Require Import Prelude Text Digest Merkle.

(** ** Base64 *)

Class Base64 := {
  b64 : bytes -> str;
  unb64 : str -> option bytes;
}.
Class Base64Laws `{Base64} : Prop := {
  unb64_b64 x : unb64 (b64 x) = Some x;
  unb64_canonical t x : unb64 t = Some x -> t = b64 x;
  b64_one_line x : newline ∉ b64 x;
}.

(** ** The checkpoint *)

Record Checkpoint := mk_checkpoint {
  origin : str;
  cp_size : Z;
  cp_root : Digest;
}.
#[export] Instance checkpoint_eq_dec : EqDecision Checkpoint.
Proof. solve_decision. Defined.

Definition MAX_ORIGIN_BYTES : nat := 255.

(** Why an origin or a note is refused; each is one message of the code. *)
Inductive OriginError := OriginEmpty | OriginTooLong (len : nat) | OriginForbidden.
Inductive NoteError :=
| NoFinalNewline | NoOrigin | NoSize | NoRoot | ExtraLines
| BadNoteOrigin (e : OriginError) | SizeNotCanonical | SizeNotANumber | RootNotBase64 | RootNot32Bytes.

(** Unicode space, [+], or a control character below U+0020. *)
Definition origin_forbids (x : str) : bool :=
  white_head x || match x with
                  | [] => false
                  | c :: _ => bool_decide (c = plus_sign) || (code c <? 32)%N
                  end.

Definition validate_origin (x : str) : result OriginError unit :=
  ensure (negb (bool_decide (x = []))) OriginEmpty ;;
  ensure (bool_decide (length x <= MAX_ORIGIN_BYTES)) (OriginTooLong (length x)) ;;
  ensure (negb (any_from origin_forbids x)) OriginForbidden.

Section checkpoint.
Context `{Sha256, Base64}.

Definition to_note (c : Checkpoint) : str :=
  origin c ++ [newline] ++ show_Z (cp_size c) ++ [newline] ++ b64 (as_bytes (cp_root c)) ++ [newline].

Definition is_coherent (c : Checkpoint) : bool :=
  bool_decide (cp_size c <> 0%Z) || bool_decide (cp_root c = empty_root).

(** [<[u8; 32]>::try_from] and [Digest::from_bytes]. *)
Definition digest_from (b : bytes) : option Digest :=
  match decide (bool_decide (length b = 32)) with
  | left H32 => Some (mk_digest b H32)
  | right _ => None
  end.

Definition from_note (note : str) : result NoteError Checkpoint :=
  body ← ok_or (strip_last newline note) NoFinalNewline;
  match split_char newline body with
  | [] => Err NoOrigin
  | [_] => Err NoSize
  | [_; _] => Err NoRoot
  | o :: sz :: rt :: more =>
      ensure (bool_decide (more = [])) ExtraLines ;;
      match validate_origin o with
      | Err e => Err (BadNoteOrigin e)
      | Ok _ =>
          ensure (canonical_decimal sz) SizeNotCanonical ;;
          n ← ok_or (parse_u64 sz) SizeNotANumber;
          b ← ok_or (unb64 rt) RootNotBase64;
          d ← ok_or (digest_from b) RootNot32Bytes;
          Ok (mk_checkpoint o n d)
      end
  end.
End checkpoint.

(** ** One text per checkpoint *)

Lemma origin_one_line o : validate_origin o = Ok tt -> newline ∉ o.
Proof.
  unfold validate_origin. rewrite !seq_ok, !ensure_ok. intros (_ & _ & Hf) Hin.
  apply negb_true_iff in Hf. by rewrite (any_from_elem _ o newline) in Hf.
Qed.

Lemma ok_or_ok {E A} (o : option A) (e : E) a : ok_or o e = Ok a <-> o = Some a.
Proof. destruct o; simpl; naive_solver. Qed.

Lemma digest_from_Some b d : digest_from b = Some d <-> b = as_bytes d.
Proof.
  unfold digest_from. destruct (decide _) as [Hl|Hl].
  - split; [by intros [= <-]|]. intros ->. f_equal. by apply digest_eq.
  - split; [done|]. intros ->. destruct Hl. apply (as_bytes_length d).
Qed.

Section notes.
Context `{Sha256, B64 : Base64, !Base64Laws}.

(** One text per checkpoint.  [from_note] accepts a text exactly when it is
    what [to_note] writes for the checkpoint it returns, with a well-formed
    origin and a [u64] size: no other spelling of the same checkpoint (a
    carriage return, a missing final newline, a fourth line, a leading zero, a
    non-canonical base64) parses, so a signature over one text is a signature
    over one checkpoint and conversely. *)
Theorem note_canonical note c :
  from_note note = Ok c
  <-> note = to_note c /\ validate_origin (origin c) = Ok tt /\ u64_ok (cp_size c).
Proof.
  split.
  - unfold from_note. rewrite result_bind_ok. intros (body & Hb & Hn).
    apply ok_or_ok, strip_last_Some in Hb as ->.
    pose proof (split_char_join newline body) as Hj.
    destruct (split_char newline body) as [|o [|sz [|rt more]]]; try done.
    rewrite seq_ok, ensure_ok, bool_decide_eq_true in Hn. destruct Hn as [-> Hn].
    destruct (validate_origin o) as [[]|e] eqn:Ho; [|done].
    rewrite seq_ok, ensure_ok in Hn. destruct Hn as [Hsz Hn].
    rewrite !result_bind_ok in Hn. destruct Hn as (n & Hp & Hn). apply ok_or_ok in Hp.
    rewrite result_bind_ok in Hn. destruct Hn as (b & Hu & Hn). apply ok_or_ok, unb64_canonical in Hu as ->.
    rewrite result_bind_ok in Hn. destruct Hn as (d & Hd & [= <-]). apply ok_or_ok, digest_from_Some in Hd as ->.
    apply (parse_show sz n Hsz) in Hp as [-> Hn]. simpl in Hj. split_and!; [|done|done].
    unfold to_note. rewrite <-Hj. simpl. by do 2 (rewrite <-?app_assoc; cbn [app]).
  - intros (-> & Ho & Hn). unfold from_note, to_note.
    rewrite !app_assoc. rewrite (proj2 (strip_last_Some newline _ _) eq_refl). cbn [ok_or mbind result_bind].
    rewrite <-!app_assoc. cbn [app].
    rewrite split_char_app by by apply origin_one_line.
    rewrite split_char_app by (apply show_no_newline; apply Hn).
    rewrite split_char_free by apply b64_one_line.
    rewrite bool_decide_true by done. cbn [ensure mbind result_bind]. rewrite Ho.
    destruct (show_parse _ Hn) as [-> ->]. cbn [ensure mbind result_bind ok_or].
    rewrite unb64_b64. cbn [mbind result_bind ok_or].
    rewrite (proj2 (digest_from_Some _ (cp_root c)) eq_refl). by destruct c.
Qed.

(** Two checkpoints with one note are one checkpoint. *)
Corollary note_determines c c' :
  validate_origin (origin c) = Ok tt -> u64_ok (cp_size c) -> to_note c = to_note c' ->
  validate_origin (origin c') = Ok tt -> u64_ok (cp_size c') -> c = c'.
Proof.
  intros Ho Hn Heq Ho' Hn'.
  assert (from_note (to_note c) = Ok c) as H1 by by apply note_canonical.
  assert (from_note (to_note c') = Ok c') as H2 by by apply note_canonical. congruence.
Qed.
End notes.

(** ** A concrete encoding, for the witnesses

    Two letters per byte: not base64, but canonical and on one line. *)

Module NibbleText.
Definition letter (n : N) : ascii := ascii_of_N (97 + n).
Definition byte_text (b : Byte.byte) : str :=
  [letter (Byte.to_N b / 16); letter (Byte.to_N b mod 16)].
Definition nibbles (b : bytes) : str := b ≫= byte_text.
Fixpoint unnibbles (t : str) : option bytes :=
  match t with
  | [] => Some []
  | [_] => None
  | c :: d :: t =>
      b ← Byte.of_N ((code c - 97) * 16 + (code d - 97));
      if decide (byte_text b = [c; d]) then r ← unnibbles t; Some (b :: r) else None
  end.
#[export] Instance nibble_text : Base64 := {| b64 := nibbles; unb64 := unnibbles |}.

Lemma byte_text_code b c d : byte_text b = [c; d] ->
  Byte.of_N ((code c - 97) * 16 + (code d - 97)) = Some b.
Proof. intros [= <- <-]. destruct b; reflexivity. Qed.

#[export] Instance nibble_laws : Base64Laws.
Proof.
  split.
  - intros x. simpl. induction x as [|b x IH]; [done|].
    change (nibbles (b :: x)) with (byte_text b ++ nibbles x).
    destruct (byte_text b) as [|c [|d [|]]] eqn:E; try done. cbn [app unnibbles].
    rewrite (byte_text_code b) by done. cbn [mbind option_bind]. rewrite E, decide_True by done. by rewrite IH.
  - intros t. simpl. induction t as [t IH] using (induction_ltof1 _ length); unfold ltof in IH.
    destruct t as [|c [|d t]]; intros x; [by intros [= <-]|done|]. cbn [unnibbles].
    destruct (Byte.of_N _) as [b|]; [|done]. cbn [mbind option_bind].
    case_decide as Hb; [|done]. intros (r & Hr & [= <-])%bind_Some.
    change (nibbles (b :: r)) with (byte_text b ++ nibbles r). rewrite Hb. cbn [app].
    f_equal. f_equal. apply IH; [simpl; lia|done].
  - intros x Hin. simpl in Hin. apply list_elem_of_bind in Hin as (b & Hin & _).
    assert (newline ∉ byte_text b) by (destruct b; evaluate). done.
Qed.
End NibbleText.

Module CheckpointWitness.
Import NibbleText.
#[local] Instance hash : Sha256 := toy_hash.

(** Seven runs of a log. *)
Definition log7 : Checkpoint := mk_checkpoint (lit "plane.example/log") 7 (root (MerkleWitness.log 7)).

Lemma note_canonical_witness : from_note (to_note log7) = Ok log7.
Proof.
  apply (note_canonical (to_note log7) log7). split_and!; [reflexivity|reflexivity|]. split; by vm_compute.
Defined.

(** A second spelling of the same checkpoint is not read. *)
Example second_spelling_refused :
  from_note (to_note log7 ++ [newline]) = Err ExtraLines
  /\ from_note (origin log7 ++ [newline] ++ lit "07" ++ [newline] ++ b64 (as_bytes (cp_root log7)) ++ [newline])
     = Err SizeNotCanonical.
Proof. vm_compute. done. Qed.
End CheckpointWitness.
