(* ===== verification/Witness.v ===== *)
(** * The checkpoint witness ([src/src/journal/witness.rs])

    A witness remembers the last checkpoint it saw of each log and cosigns only
    what provably extends it; a plane submits a checkpoint to several and holds
    the answers to a quorum.  [MemoryWitness] is the code's own witness; its
    signer is a parameter, and the HTTP witness is another implementation of
    the interface [Witness].  The theorems rest on those of [Merkle]. *)

From S2P Require Import Prelude Text Digest Merkle Checkpoint.

Inductive SignError := SignUnavailable (detail : str) | SignRefused (key_id detail : str).

Inductive WitnessError :=
| Shrank (origin : str) (seen offered : Z)
| Forked (origin : str) (seen offered : Z)
| Stale (origin : str) (witness_size : Z)
| ProofMissing (origin : str) (seen : Z)
| Inconsistent (origin : str) (old_size offered : Z)
| Unsigned (e : SignError)
| Unavailable (detail : str)
| BadOrigin (detail : str).

Record Cosignature := mk_cosignature {
  cs_key_id : str;
  cs_note_key_id : bytes;
  cs_signature : bytes;
}.

(** ** The payload *)

Definition i64_max : Z := 9223372036854775807.

(** [u64::to_be_bytes] and [from_be_bytes]. *)
Definition be8 (n : Z) : bytes := reverse (le_bytes 8 (Z.to_N n)).
Definition of_be (b : bytes) : Z := foldl (fun acc c => acc * 256 + Z.of_N (Byte.to_N c))%Z 0%Z b.

Definition cosignature_message (timestamp : Z) (note_text : str) : str :=
  lit "cosignature/v1" ++ [newline] ++ lit "time " ++ show_Z timestamp ++ [newline] ++ note_text.

Definition cosignature_payload (blob : bytes) : option (Z * bytes) :=
  if decide (length blob <> 8 + 64) then None else
  let timestamp := of_be (take 8 blob) in
  if decide (timestamp > i64_max)%Z then None else Some (timestamp, drop 8 blob).

(** [Cosignature::timestamp]. *)
Definition timestamp (c : Cosignature) : option Z :=
  '(time, _) ← cosignature_payload (cs_signature c);
  if decide (time <> 0)%Z then Some time else None.

(** ** A witness that remembers *)

Record CheckpointSigner := mk_signer { signer_key : str; sign : str -> result SignError bytes }.

Record MemoryWitness := mk_witness {
  signer : CheckpointSigner;
  observed_at : Z;
  seen : gmap str (Z * Digest);
}.

(** [MemoryWitness::new]; the clock reading is signed. *)
Definition witness_new (s : CheckpointSigner) (seconds : Z) : result WitnessError MemoryWitness :=
  if decide (0 < seconds)%Z then Ok (mk_witness s seconds ∅) else
  Err (Unavailable (lit "a witness would cosign with a timestamp of zero")).

Definition last_seen (w : MemoryWitness) (o : str) : option (Z * Digest) := seen w !! o.

(** ** The interface a plane submits to *)

Section witness.
Context `{Sha256, Base64}.

Class Witness (W : Type) :=
  cosign : W -> Checkpoint -> Z -> list Digest -> W * result WitnessError Cosignature.

(** The decision, under the lock: what to remember, or why not. *)
Definition observe (m : gmap str (Z * Digest)) (c : Checkpoint) (old_size : Z) (proof : list Digest) :
    result WitnessError (gmap str (Z * Digest)) :=
  let remembered_size := from_option fst 0%Z (m !! origin c) in
  ensure (bool_decide (old_size = remembered_size)) (Stale (origin c) remembered_size) ;;
  ensure (is_coherent c) (Unavailable (lit "the checkpoint claims a root the empty tree does not have")) ;;
  (match m !! origin c with
   | None => Ok tt
   | Some (remembered, old_root) =>
       ensure (negb (cp_size c <? remembered)%Z) (Shrank (origin c) remembered (cp_size c)) ;;
       if bool_decide (cp_size c = remembered) && bool_decide (cp_root c = old_root) then Ok tt else
       ensure (negb (bool_decide (proof = []) && (0 <? remembered)%Z && (remembered <? cp_size c)%Z))
         (ProofMissing (origin c) remembered) ;;
       ensure (verify_consistency remembered old_root (cp_size c) (cp_root c) proof)
         (Forked (origin c) remembered (cp_size c))
   end) ;;
  Ok (<[origin c := (cp_size c, cp_root c)]> m).

Definition memory_cosign (w : MemoryWitness) (c : Checkpoint) (old_size : Z) (proof : list Digest) :
    MemoryWitness * result WitnessError Cosignature :=
  match observe (seen w) c old_size proof with
  | Err e => (w, Err e)
  | Ok m =>
      (mk_witness (signer w) (observed_at w) m,
       match sign (signer w) (cosignature_message (observed_at w) (to_note c)) with
       | Err (SignUnavailable d) => Err (Unavailable d)
       | Err (SignRefused key_id detail) =>
           Err (Unavailable (lit "key '" ++ key_id ++ lit "' refused: " ++ detail))
       | Ok s => Ok (mk_cosignature (signer_key (signer w)) (replicate 4 x00) (be8 (observed_at w) ++ s))
       end)
  end.
#[export] Instance memory_witness : Witness MemoryWitness := memory_cosign.

(** ** A round of submissions *)

Record QuorumOutcome := mk_outcome {
  cosignatures : list Cosignature;
  routine : list (nat * WitnessError);
  integrity : list (nat * WitnessError);
  required : nat;
}.

(** [WitnessQuorum::of]. *)
Definition quorum_of (n : nat) : option nat := if decide (n = 0) then None else Some n.

Definition distinct_keys (q : QuorumOutcome) : nat :=
  size (list_to_set (C := gset str) (cs_key_id <$> cosignatures q)).
Definition met (q : QuorumOutcome) : bool := bool_decide (required q <= distinct_keys q).
Definition shortfall (q : QuorumOutcome) : nat := required q - distinct_keys q.
Definition needs_attention (q : QuorumOutcome) : bool :=
  negb (met q) || negb (bool_decide (integrity q = [])).

Definition is_integrity (e : WitnessError) : bool :=
  match e with Forked _ _ _ | Shrank _ _ _ | Inconsistent _ _ _ => true | _ => false end.

(** One answer, filed. *)
Definition file_answer (q : QuorumOutcome) (index : nat) (r : result WitnessError Cosignature) : QuorumOutcome :=
  match r with
  | Ok s => mk_outcome (cosignatures q ++ [s]) (routine q) (integrity q) (required q)
  | Err e => if is_integrity e
             then mk_outcome (cosignatures q) (routine q) (integrity q ++ [(index, e)]) (required q)
             else mk_outcome (cosignatures q) (routine q ++ [(index, e)]) (integrity q) (required q)
  end.

Section quorum.
Context {W : Type} `{Witness W}.
(** [JournalStore::consistency_proof_at]. *)
Context (consistency_proof_at : Z -> Z -> result str (list Digest)).

(** A submission from size zero, and one retry from where the witness says it
    is. *)
Definition submit (w : W) (c : Checkpoint) : W * result str (result WitnessError Cosignature) :=
  match cosign w c 0 [] with
  | (w, Err (Stale _ witness_size)) =>
      match (if decide (witness_size <= cp_size c)%Z
             then consistency_proof_at witness_size (cp_size c) else Ok []) with
      | Err e => (w, Err e)
      | Ok proof => let '(w, r) := cosign w c witness_size proof in (w, Ok r)
      end
  | (w, r) => (w, Ok r)
  end.

Fixpoint submit_each (index : nat) (ws : list W) (c : Checkpoint) (q : QuorumOutcome) :
    list W * result str QuorumOutcome :=
  match ws with
  | [] => ([], Ok q)
  | w :: ws =>
      match submit w c with
      | (w, Err e) => (w :: ws, Err e)
      | (w, Ok r) => let '(ws, out) := submit_each (S index) ws c (file_answer q index r) in (w :: ws, out)
      end
  end.

Definition cosign_quorum (c : Checkpoint) (ws : list W) (quorum : nat) : list W * result str QuorumOutcome :=
  submit_each 0 ws c (mk_outcome [] [] [] quorum).
End quorum.

(** ** Comparing what witnesses hold *)

Record SplitView := mk_split { between : str * str; sv_size : Z; sv_roots : Digest * Digest }.

Fixpoint split_views (held : list (str * Checkpoint)) : list SplitView :=
  match held with
  | [] => []
  | (a_name, a) :: rest =>
      omap (fun b => if decide (cp_size a = cp_size b.2 /\ cp_root a <> cp_root b.2)
                     then Some (mk_split (a_name, b.1) (cp_size a) (cp_root a, cp_root b.2)) else None) rest
      ++ split_views rest
  end.
End witness.

(** ** What a witness remembers only grows *)

Section memory.
Context `{Sha256, Base64}.

(** What is remembered of [o] is a prefix of the log [L]. *)
Definition prefix_of (L : list LeafHash) (n : Z) (r : Digest) : Prop :=
  (n <= zlen L)%Z /\ r = root (take (Z.to_nat n) L).
Definition remembers_prefix (L : list LeafHash) (o : str) (m : gmap str (Z * Digest)) : Prop :=
  forall n r, m !! o = Some (n, r) -> prefix_of L n r.

(** What is hashed when [c] is checked against the memory [m], if [c] is a
    prefix of [L]. *)
Definition step_inputs (L : list LeafHash) (m : gmap str (Z * Digest)) (c : Checkpoint) (proof : list Digest) :
    list bytes :=
  match m !! origin c with
  | None => []
  | Some (n, r) => root_inputs (take (Z.to_nat (cp_size c)) L) ++ rebuild_inputs n (cp_size c) proof r
  end.

Definition sizes_ok (m : gmap str (Z * Digest)) : Prop := map_Forall (fun _ p => 0 <= p.1)%Z m.

Lemma observe_Ok m c old proof m' : observe m c old proof = Ok m' ->
  m' = <[origin c := (cp_size c, cp_root c)]> m
  /\ forall n r, m !! origin c = Some (n, r) ->
       (n <= cp_size c)%Z
       /\ ((cp_size c = n /\ cp_root c = r) \/ verify_consistency n r (cp_size c) (cp_root c) proof = true).
Proof.
  unfold observe. rewrite !seq_ok. intros (_ & _ & Hm & Hm'). injection Hm' as <-. split; [done|].
  intros n r Hl. rewrite Hl in Hm. rewrite seq_ok, ensure_ok, negb_true_iff, Z.ltb_ge in Hm.
  destruct Hm as [Hle Hm]. split; [done|].
  destruct (bool_decide (cp_size c = n) && bool_decide (cp_root c = r)) eqn:E.
  - left. by rewrite andb_true_iff, !bool_decide_eq_true in E.
  - right. rewrite seq_ok, !ensure_ok in Hm. tauto.
Qed.

Lemma take_fits (L : list LeafHash) n : fits L -> fits (take n L).
Proof. unfold fits, zlen. rewrite length_take. lia. Qed.

Lemma zlen_take_Z (L : list LeafHash) n : (0 <= n <= zlen L)%Z -> zlen (take (Z.to_nat n) L) = n.
Proof. unfold zlen. rewrite length_take. lia. Qed.

(** One accepted submission: if what it leaves is a prefix of [L], so was what
    it found. *)
Lemma observe_prefix L m c old proof m' o :
  fits L -> sizes_ok m -> (0 <= cp_size c)%Z -> observe m c old proof = Ok m' ->
  (o = origin c -> collision_free (step_inputs L m c proof)) ->
  remembers_prefix L o m' ->
  remembers_prefix L o m
  /\ (o = origin c -> prefix_of L (cp_size c) (cp_root c) /\ forall n r, m !! o = Some (n, r) -> (n <= cp_size c)%Z).
Proof.
  intros Hfit Hsz Hc Hobs Hcf Hm'. apply observe_Ok in Hobs as [-> Hold].
  destruct (decide (o = origin c)) as [->|Hne].
  2:{ split; [|done]. intros n r Hl. apply Hm'. by rewrite lookup_insert_ne. }
  specialize (Hcf eq_refl).
  assert (prefix_of L (cp_size c) (cp_root c)) as [Hle Hroot].
  { apply Hm'. by rewrite lookup_insert_eq. }
  split; [|intros _; split; [done|]; intros n r Hl; by apply (Hold n r)].
  intros n r Hl. pose proof (Hsz _ _ Hl) as Hn. simpl in Hn.
  destruct (Hold n r Hl) as [Hnle [[<- <-]|Hv]]; [done|].
  unfold step_inputs in Hcf. rewrite Hl in Hcf.
  rewrite Hroot in Hv. rewrite <-(zlen_take_Z L (cp_size c)) in Hv at 1 by lia.
  apply consistency_sound in Hv as [Hr _]; [|by apply take_fits|done|by rewrite zlen_take_Z by lia].
  split; [lia|]. rewrite Hr, take_take. f_equal. f_equal. lia.
Qed.

(** A witness's life: what each submission found it remembering, and which
    checkpoints it vouched for. *)
Record Submission := mk_submission { sub_checkpoint : Checkpoint; sub_old : Z; sub_proof : list Digest }.

Fixpoint cosign_all (w : MemoryWitness) (subs : list Submission) : MemoryWitness * list Checkpoint :=
  match subs with
  | [] => (w, [])
  | s :: subs =>
      let '(w, r) := cosign w (sub_checkpoint s) (sub_old s) (sub_proof s) in
      let '(w, cs) := cosign_all w subs in
      (w, (if is_ok r then [sub_checkpoint s] else []) ++ cs)
  end.

(** What is hashed on the way, for the log [o]. *)
Fixpoint audit_inputs (L : list LeafHash) (o : str) (w : MemoryWitness) (subs : list Submission) : list bytes :=
  match subs with
  | [] => []
  | s :: subs =>
      (if bool_decide (origin (sub_checkpoint s) = o)
       then step_inputs L (seen w) (sub_checkpoint s) (sub_proof s) else [])
      ++ audit_inputs L o (cosign w (sub_checkpoint s) (sub_old s) (sub_proof s)).1 subs
  end.

Lemma cosign_cases w c old proof :
  (exists e, cosign w c old proof = (w, Err e))
  \/ exists m r, observe (seen w) c old proof = Ok m
       /\ cosign w c old proof = (mk_witness (signer w) (observed_at w) m, r).
Proof.
  unfold cosign, memory_witness, memory_cosign. destruct (observe _ _ _ _) as [m|e]; [right|left]; eauto.
Qed.

Lemma observe_sizes m c old proof m' :
  observe m c old proof = Ok m' -> sizes_ok m -> (0 <= cp_size c)%Z -> sizes_ok m'.
Proof. intros [-> _]%observe_Ok Hm Hc. by apply map_Forall_insert_2. Qed.

Lemma cosign_all_prefix L o w subs w' cs :
  fits L -> sizes_ok (seen w) -> Forall (fun s => 0 <= cp_size (sub_checkpoint s))%Z subs ->
  collision_free (audit_inputs L o w subs) ->
  cosign_all w subs = (w', cs) -> remembers_prefix L o (seen w') ->
  remembers_prefix L o (seen w)
  /\ (forall c, c ∈ cs -> origin c = o -> prefix_of L (cp_size c) (cp_root c)
       /\ exists n r, seen w' !! o = Some (n, r) /\ (cp_size c <= n)%Z)
  /\ (forall n r, seen w !! o = Some (n, r) -> exists n' r', seen w' !! o = Some (n', r') /\ (n <= n')%Z).
Proof.
  intros Hfit Hsz Hsubs. revert w cs Hsz. induction Hsubs as [|s subs Hs _ IH]; intros w cs Hsz Hcf Hrun Hp; simpl in *.
  { injection Hrun as <- <-. split_and!; [done|set_solver|]. intros n r ?. exists n, r. split; [done|lia]. }
  destruct (cosign_cases w (sub_checkpoint s) (sub_old s) (sub_proof s)) as [(e & E)|(m & r & Hobs & E)];
    rewrite E in Hcf, Hrun; simpl in Hcf.
  - destruct (cosign_all w subs) as [w1 cs1] eqn:Hall. injection Hrun as <- <-. simpl.
    apply (IH w); [done| |done|done]. eapply collision_free_sub, Hcf. list_mem.
  - destruct (cosign_all _ subs) as [w1 cs1] eqn:Hall. injection Hrun as <- <-.
    destruct (IH (mk_witness (signer w) (observed_at w) m) cs1) as (Hm & Hcs & Hgrow); [| |exact Hall|done|].
    { simpl. by eapply observe_sizes. }
    { eapply collision_free_sub, Hcf. list_mem. }
    simpl in Hm, Hgrow.
    destruct (observe_prefix L _ _ _ _ _ o Hfit Hsz Hs Hobs) as [Hw Hc]; [|done|].
    { intros ->. rewrite bool_decide_true in Hcf by done. eapply collision_free_sub, Hcf. list_mem. }
    pose proof (observe_Ok _ _ _ _ _ Hobs) as [Hm' _].
    split_and!; [done| |].
    + intros c Hin Ho. apply elem_of_app in Hin as [Hin|Hin]; [|by apply Hcs].
      destruct (is_ok r); [|by apply elem_of_nil in Hin]. apply list_elem_of_singleton in Hin as ->.
      symmetry in Ho. destruct (Hc Ho) as [Hpre _]. split; [done|].
      apply (Hgrow (cp_size (sub_checkpoint s)) (cp_root (sub_checkpoint s))). rewrite Hm', Ho. apply lookup_insert_eq.
    + intros n r0 Hl. destruct (decide (o = origin (sub_checkpoint s))) as [Ho|Ho].
      * destruct (Hc Ho) as [_ Hle]. specialize (Hle n r0 Hl).
        edestruct (Hgrow (cp_size (sub_checkpoint s))) as (n' & r' & ? & ?).
        { rewrite Hm', Ho. apply lookup_insert_eq. }
        exists n', r'. split; [done|lia].
      * apply Hgrow with r0. by rewrite Hm', lookup_insert_ne.
Qed.
End memory.

Section append_only.
Context `{Sha256, Base64}.

Lemma cosign_all_snoc w subs s w1 cs :
  cosign_all w subs = (w1, cs) ->
  let '(w2, r) := cosign w1 (sub_checkpoint s) (sub_old s) (sub_proof s) in
  cosign_all w (subs ++ [s]) = (w2, cs ++ if is_ok r then [sub_checkpoint s] else []).
Proof.
  revert w cs. induction subs as [|t subs IH]; intros w cs Hall; simpl in *.
  - injection Hall as <- <-. destruct (cosign w _ _ _) as [w2 r]. by rewrite app_nil_r.
  - destruct (cosign w _ _ _) as [w' r']. destruct (cosign_all w' subs) as [w3 cs3] eqn:E.
    injection Hall as <- <-. specialize (IH _ _ E). destruct (cosign w3 _ _ _) as [w2 r]. rewrite IH.
    by rewrite app_assoc.
Qed.

(** C37. A witness vouches for one history.  Take any witness and anything
    submitted to it, accepted or not, in any order and with any proofs.  If it
    then cosigns a checkpoint of a log, every checkpoint of that log it cosigned
    before is a prefix of it: whatever list of runs the new root commits to,
    each earlier size is no larger and each earlier root is the root of that
    many of those runs, unless two hashed inputs collide. *)
Theorem append_only L o (w : MemoryWitness) subs s w1 cs :
  fits L -> sizes_ok (seen w) -> Forall (fun s => 0 <= cp_size (sub_checkpoint s))%Z (subs ++ [s]) ->
  cosign_all w subs = (w1, cs) ->
  is_ok (cosign w1 (sub_checkpoint s) (sub_old s) (sub_proof s)).2 = true ->
  sub_checkpoint s = mk_checkpoint o (zlen L) (root L) ->
  collision_free (audit_inputs L o w (subs ++ [s])) ->
  forall c, c ∈ cs -> origin c = o ->
    (cp_size c <= zlen L)%Z /\ cp_root c = root (take (Z.to_nat (cp_size c)) L).
Proof.
  intros Hfit Hsz Hsubs Hall Hok Hs Hcf c Hc Ho.
  pose proof (cosign_all_snoc w subs s w1 cs Hall) as Hall2.
  destruct (cosign_cases w1 (sub_checkpoint s) (sub_old s) (sub_proof s)) as [(e & E)|(m & r & Hobs & E)];
    rewrite E in Hall2, Hok; [done|].
  eapply (cosign_all_prefix L o w _ _ _ Hfit Hsz Hsubs Hcf Hall2); [|set_solver|done].
  simpl. apply observe_Ok in Hobs as [-> _]. rewrite Hs. intros n r' Hl. simpl in Hl.
  rewrite lookup_insert_eq in Hl. injection Hl as <- <-. split; [lia|].
  unfold zlen. by rewrite Nat2Z.id, firstn_all.
Qed.
End append_only.

(** ** A round over an honest log *)

Section round.
Context `{Sha256, Base64}.
Context (L : list LeafHash) (o : str).

Definition log_checkpoint : Checkpoint := mk_checkpoint o (zlen L) (root L).
(** A store whose log is [L]. *)
Definition honest_store (old_size new_size : Z) : result str (list Digest) :=
  if decide (new_size = zlen L) then Ok (consistency_proof L (Z.to_nat old_size)) else Err (lit "moved").

(** What the witness holds of the log is a prefix of it. *)
Definition agrees (w : MemoryWitness) : bool :=
  match seen w !! o with
  | None => true
  | Some (n, r) => bool_decide (n <= zlen L)%Z && bool_decide (r = root (take (Z.to_nat n) L))
  end.
Definition verdict_inputs (w : MemoryWitness) : list bytes :=
  match seen w !! o with
  | None => []
  | Some (n, r) => root_inputs L ++ rebuild_inputs n (zlen L) (consistency_proof L (Z.to_nat n)) r
  end.
Definition signs (w : MemoryWitness) : Prop := forall m, is_ok (sign (signer w) m) = true.

Lemma consistency_proof_nonempty n : 0 < n < length L -> consistency_proof L n <> [].
Proof.
  intros Hn. unfold consistency_proof. rewrite decide_False by lia.
  assert (1 < 2 ^ Z.of_nat (depth (zlen L)))%Z as Hd.
  { eapply Z.lt_le_trans; [|apply depth_pow]; unfold zlen; lia. }
  destruct (depth (zlen L)) as [|fuel]; [done|]. cbn [subproof].
  rewrite decide_False by lia. destruct (split_at L) as [l r].
  case_decide; intros [_ [=]]%app_nil.
Qed.

Lemma log_coherent : is_coherent log_checkpoint = true.
Proof.
  unfold is_coherent. simpl. apply orb_true_iff. destruct L; [right|left]; by apply bool_decide_eq_true.
Qed.

(** The decision on the log's own checkpoint, asked from where the witness is. *)
Lemma observe_log (w : MemoryWitness) n r proof :
  fits L -> (0 <= n)%Z -> seen w !! o = Some (n, r) ->
  proof = consistency_proof L (Z.to_nat n) \/ (zlen L < n)%Z ->
  collision_free (verdict_inputs w) ->
  if agrees w then observe (seen w) log_checkpoint n proof = Ok (<[o := (zlen L, root L)]> (seen w))
  else exists e, observe (seen w) log_checkpoint n proof = Err e /\ is_integrity e = true.
Proof.
  intros Hfit Hn Hl Hproof Hcf. unfold agrees, verdict_inputs, observe in *. cbn [origin log_checkpoint].
  rewrite Hl in *. cbn [from_option fst]. rewrite (bool_decide_true (n = n)) by done. rewrite log_coherent.
  cbn [ensure mbind result_bind cp_size cp_root log_checkpoint].
  destruct (Z.ltb_spec (zlen L) n) as [Hlt|Hge].
  { rewrite bool_decide_false by lia. simpl. eexists. by split. }
  destruct Hproof as [->|?]; [|lia]. rewrite (bool_decide_true (n <= zlen L)%Z) by done.
  cbn [negb andb ensure mbind result_bind].
  destruct (decide (r = root (take (Z.to_nat n) L))) as [->|Hr].
  - rewrite (bool_decide_true (_ = _ :> Digest)) by done.
    destruct (decide (zlen L = n)) as [<-|Hne].
    { rewrite (bool_decide_true (zlen L = zlen L)) by done.
      rewrite (bool_decide_true (root L = _)); [done|]. unfold zlen. by rewrite Nat2Z.id, firstn_all. }
    rewrite (bool_decide_false (zlen L = n)) by done. cbn [andb].
    pose proof (consistency_complete L (Z.to_nat n) Hfit ltac:(unfold zlen in *; lia)) as Hv.
    rewrite Z2Nat.id in Hv by done. rewrite Hv.
    destruct (Z.ltb_spec 0 n); [|by rewrite andb_false_r].
    rewrite bool_decide_false; [done|]. apply consistency_proof_nonempty. unfold zlen in *; lia.
  - rewrite (bool_decide_false (r = _)) by done.
    assert (verify_consistency n r (zlen L) (root L) (consistency_proof L (Z.to_nat n)) = false) as ->.
    { apply not_true_is_false. intros Hv. by apply consistency_sound in Hv as [Hv _]. }
    destruct (bool_decide (zlen L = n) && bool_decide (root L = r)) eqn:E.
    { apply andb_true_iff in E as [Hz Hr']. apply bool_decide_eq_true in Hz, Hr'. destruct Hr.
      rewrite <-Hr', <-Hz. unfold zlen. by rewrite Nat2Z.id, firstn_all. }
    destruct (Z.ltb_spec 0 n); [|rewrite andb_false_r; eexists; by split].
    destruct (Z.ltb_spec n (zlen L)).
    + rewrite bool_decide_false; [eexists; by split|].
      apply consistency_proof_nonempty. unfold zlen in *; lia.
    + rewrite andb_false_r. eexists; by split.
Qed.

Lemma cosign_observed (w : MemoryWitness) c old proof m : signs w ->
  observe (seen w) c old proof = Ok m ->
  exists s, cosign w c old proof = (mk_witness (signer w) (observed_at w) m, Ok s)
    /\ cs_key_id s = signer_key (signer w).
Proof.
  intros Hs Ho. unfold cosign, memory_witness, memory_cosign. rewrite Ho.
  specialize (Hs (cosignature_message (observed_at w) (to_note c))).
  destruct (sign _ _) as [s|]; [|done]. eexists. by split.
Qed.

Lemma submit_log (w : MemoryWitness) :
  fits L -> sizes_ok (seen w) -> signs w -> collision_free (verdict_inputs w) ->
  exists w' r, submit honest_store w log_checkpoint = (w', Ok r)
    /\ if agrees w then exists s, r = Ok s /\ cs_key_id s = signer_key (signer w)
       else exists e, r = Err e /\ is_integrity e = true.
Proof.
  intros Hfit Hsz Hs Hcf. unfold submit.
  destruct (seen w !! o) as [[n r]|] eqn:Hl.
  2:{ assert (observe (seen w) log_checkpoint 0 [] = Ok (<[o := (zlen L, root L)]> (seen w))) as Hob.
      { unfold observe. cbn [origin log_checkpoint]. rewrite Hl. cbn [from_option].
        rewrite bool_decide_true by done. by rewrite log_coherent. }
      destruct (cosign_observed w _ _ _ _ Hs Hob) as (s & E & Hk). rewrite E.
      do 2 eexists. split; [done|]. unfold agrees. rewrite Hl. by eexists. }
  pose proof (Hsz _ _ Hl) as Hn. simpl in Hn.
  destruct (decide (n = 0%Z)) as [->|Hn0].
  - pose proof (observe_log w 0 r [] Hfit ltac:(lia) Hl) as Ho.
    specialize (Ho ltac:(left; unfold consistency_proof; by rewrite decide_True by lia) Hcf).
    destruct (agrees w).
    + destruct (cosign_observed w _ _ _ _ Hs Ho) as (s & E & Hk). rewrite E. do 2 eexists. split; [done|eauto].
    + destruct Ho as (e & Ho & He). unfold cosign, memory_witness, memory_cosign. rewrite Ho.
      do 2 eexists. split; [by destruct e|eauto].
  - assert (observe (seen w) log_checkpoint 0 [] = Err (Stale o n)) as Hst.
    { unfold observe. cbn [origin log_checkpoint]. rewrite Hl. cbn [from_option fst].
      by rewrite (bool_decide_false (0%Z = n)) by lia. }
    assert (cosign w log_checkpoint 0 [] = (w, Err (Stale o n))) as ->.
    { unfold cosign, memory_witness, memory_cosign. by rewrite Hst. }
    cbn [cp_size log_checkpoint].
    assert (exists proof, (if decide (n <= zlen L)%Z then honest_store n (zlen L) else Ok []) = Ok proof
      /\ (proof = consistency_proof L (Z.to_nat n) \/ (zlen L < n)%Z)) as (proof & -> & Hp).
    { case_decide; [|eexists; split; [done|right; lia]]. unfold honest_store. rewrite decide_True by done. eauto. }
    pose proof (observe_log w n r proof Hfit ltac:(lia) Hl Hp Hcf) as Ho.
    destruct (agrees w).
    + destruct (cosign_observed w _ _ _ _ Hs Ho) as (s & E & Hk). rewrite E. do 2 eexists. split; [done|eauto].
    + destruct Ho as (e & Ho & He). unfold cosign, memory_witness, memory_cosign. rewrite Ho.
      do 2 eexists. split; [done|eauto].
Qed.

Fixpoint disagreeing (index : nat) (ws : list MemoryWitness) : list nat :=
  match ws with
  | [] => []
  | w :: ws => (if agrees w then [] else [index]) ++ disagreeing (S index) ws
  end.
Definition agreeing_keys (ws : list MemoryWitness) : list str :=
  (fun w => signer_key (signer w)) <$> filter (fun w => agrees w = true) ws.

Lemma submit_each_log ws index q :
  fits L -> Forall (fun w => sizes_ok (seen w) /\ signs w /\ collision_free (verdict_inputs w)) ws ->
  exists ws' q', submit_each honest_store index ws log_checkpoint q = (ws', Ok q')
    /\ cs_key_id <$> cosignatures q' = (cs_key_id <$> cosignatures q) ++ agreeing_keys ws
    /\ routine q' = routine q /\ (integrity q').*1 = (integrity q).*1 ++ disagreeing index ws
    /\ required q' = required q.
Proof.
  intros Hfit Hws. revert index q. induction Hws as [|w ws (Hsz & Hs & Hcf) _ IH]; intros index q; simpl.
  { exists [], q. unfold agreeing_keys. simpl. by rewrite !app_nil_r. }
  destruct (submit_log w Hfit Hsz Hs Hcf) as (w' & r & -> & Hr).
  destruct (IH (S index) (file_answer q index r)) as (ws' & q' & -> & Hk & Hro & Hi & Hreq).
  do 2 eexists. split; [done|]. rewrite Hk, Hro, Hi, Hreq. unfold agreeing_keys. rewrite filter_cons.
  destruct (agrees w).
  - rewrite decide_True by done. destruct Hr as (s & -> & Hks). simpl. rewrite fmap_app, <-app_assoc. simpl.
    by rewrite Hks.
  - rewrite decide_False by done. destruct Hr as (e & -> & He). simpl. rewrite He. simpl.
    by rewrite fmap_app, <-app_assoc.
Qed.

(** A round's verdict is the truth about the log.  When the store answers
    from the log [L] and signers are up, submitting its checkpoint ends with no
    routine failure: the witnesses whose memory of the log is a prefix of it
    (or who never saw it) cosign, every other witness is reported by its index
    as an integrity refusal, and nothing is both.  The round needs attention
    exactly when some witness remembers another history or the cosigners' keys
    are fewer than the quorum. *)
Theorem quorum_verdict ws quorum :
  fits L -> Forall (fun w => sizes_ok (seen w) /\ signs w /\ collision_free (verdict_inputs w)) ws ->
  exists ws' q, cosign_quorum honest_store log_checkpoint ws quorum = (ws', Ok q)
    /\ cs_key_id <$> cosignatures q = agreeing_keys ws
    /\ routine q = [] /\ (integrity q).*1 = disagreeing 0 ws
    /\ (needs_attention q = true <->
        (exists w, w ∈ ws /\ agrees w = false)
        \/ size (list_to_set (C := gset str) (agreeing_keys ws)) < quorum).
Proof.
  intros Hfit Hws.
  destruct (submit_each_log ws 0 (mk_outcome [] [] [] quorum) Hfit Hws) as (ws' & q & E & Hk & Hro & Hi & Hreq).
  simpl in *. exists ws', q. split_and!; [done..|].
  unfold needs_attention, met, distinct_keys. rewrite Hk, Hreq, orb_true_iff, !negb_true_iff, !bool_decide_eq_false.
  assert (integrity q <> [] <-> exists w, w ∈ ws /\ agrees w = false) as ->.
  { assert (integrity q <> [] <-> disagreeing 0 ws <> []) as ->.
    { rewrite <-Hi. by destruct (integrity q). }
    clear. generalize 0. induction ws as [|w ws IH]; intros i; simpl.
    { split; [done|]. by intros (w & []%elem_of_nil & _). }
    setoid_rewrite elem_of_cons. destruct (agrees w) eqn:E; simpl; [rewrite IH; naive_solver congruence|].
    split; [|done]. intros _. exists w. auto. }
  rewrite Nat.nle_gt. tauto.
Qed.
End round.

(** [split_views] names every pair of one size and two roots, and nothing else,
    so two prefixes of one log are never reported. *)
Lemma split_views_spec (held : list (str * Checkpoint)) v :
  v ∈ split_views held
  <-> exists i j a b, i < j /\ held !! i = Some a /\ held !! j = Some b
        /\ cp_size a.2 = cp_size b.2 /\ cp_root a.2 <> cp_root b.2
        /\ v = mk_split (a.1, b.1) (cp_size a.2) (cp_root a.2, cp_root b.2).
Proof.
  induction held as [|[n a] held IH]; simpl.
  { split; [by intros []%elem_of_nil|]. intros (i & j & a & b & _ & Hi & _). by rewrite lookup_nil in Hi. }
  rewrite elem_of_app, list_elem_of_omap, IH. split.
  - intros [(b & Hb & Hv)|(i & j & x & y & Hij & Hx & Hy & Hr)].
    + apply list_elem_of_lookup in Hb as (j & Hj). case_decide as Hd; [|done]. injection Hv as <-.
      exists 0, (S j), (n, a), b. destruct Hd. split_and!; [lia|done..].
    + exists (S i), (S j), x, y. split; [lia|done].
  - intros (i & j & x & y & Hij & Hx & Hy & Hs & Hr & ->). destruct j as [|j]; [lia|]. simpl in Hy.
    destruct i as [|i]; [left|right].
    + injection Hx as <-. exists y. split; [by eapply list_elem_of_lookup_2|]. by rewrite decide_True.
    + exists i, j, x, y. split; [lia|done].
Qed.

Lemma same_log_no_split L (held : list (str * Checkpoint)) `{Sha256} :
  Forall (fun h => prefix_of L (cp_size h.2) (cp_root h.2)) held -> split_views held = [].
Proof.
  intros Hh. destruct (split_views held) as [|v vs] eqn:E; [done|].
  assert (v ∈ split_views held) as Hv by (rewrite E; left).
  apply split_views_spec in Hv as (i & j & a & b & _ & Ha & Hb & Hs & Hr & _).
  destruct Hr. rewrite Forall_forall in Hh.
  destruct (Hh a) as [_ ->]; [by eapply list_elem_of_lookup_2|].
  destruct (Hh b) as [_ ->]; [by eapply list_elem_of_lookup_2|]. by rewrite Hs.
Qed.

(** ** Concrete rounds *)

Module WitnessWitness.
Import NibbleText.
#[local] Instance hash : Sha256 := toy_hash.
Abbreviation log := MerkleWitness.log.

Definition key (name : string) : CheckpointSigner := mk_signer (lit name) (fun _ => Ok (replicate 64 x01)).
Definition at_size (n : nat) : Checkpoint := mk_checkpoint (lit "plane") (Z.of_nat n) (root (log n)).
Definition fresh (name : string) : MemoryWitness := mk_witness (key name) 1000 ∅.
Definition at_three : Submission := mk_submission (at_size 3) 0 [].
Definition at_seven : Submission := mk_submission (at_size 7) 3 (consistency_proof (log 7) 3).

(** Size 3, a stale resubmission that is refused, then size 7. *)
Lemma append_only_witness :
  (cp_size (at_size 3) <= zlen (log 7))%Z /\ cp_root (at_size 3) = root (take 3 (log 7)).
Proof.
  refine (append_only (log 7) (lit "plane") (fresh "w") [at_three; at_three] at_seven _ [at_size 3]
    _ _ _ _ _ _ _ (at_size 3) _ _).
  - by vm_compute.
  - apply map_Forall_empty.
  - repeat constructor; by vm_compute.
  - vm_compute. reflexivity.
  - vm_compute. reflexivity.
  - vm_compute. reflexivity.
  - apply collision_free_check. vm_compute. reflexivity.
  - left.
  - reflexivity.
Defined.

(** A fork of the log from its second run on. *)
Definition fork (n : nat) : list LeafHash := leaf_hash <$> (MerkleWitness.run_digest 0 :: (MerkleWitness.run_digest <$> seq 40 (n - 1))).
Definition holding (name : string) (n : nat) (r : Digest) : MemoryWitness :=
  mk_witness (key name) 1000 {[lit "plane" := (Z.of_nat n, r)]}.
Definition panel : list MemoryWitness :=
  [fresh "a"; holding "b" 3 (root (log 3)); holding "c" 3 (root (fork 3)); holding "b" 7 (root (log 7))].

(** One witness remembers a fork, and one party answers twice: three
    cosignatures are two keys. *)
Lemma quorum_verdict_witness :
  exists ws' q, cosign_quorum (honest_store (log 7)) (log_checkpoint (log 7) (lit "plane")) panel 3 = (ws', Ok q)
    /\ cs_key_id <$> cosignatures q = agreeing_keys (log 7) (lit "plane") panel
    /\ routine q = [] /\ (integrity q).*1 = disagreeing (log 7) (lit "plane") 0 panel
    /\ (needs_attention q = true <->
        (exists w, w ∈ panel /\ agrees (log 7) (lit "plane") w = false)
        \/ size (list_to_set (C := gset str) (agreeing_keys (log 7) (lit "plane") panel)) < 3).
Proof.
  refine (quorum_verdict (log 7) (lit "plane") panel 3 _ _).
  - by vm_compute.
  - unfold panel. repeat (apply Forall_cons; split; [split_and!|]); [| | | | | | | | | | | |constructor].
    1: apply map_Forall_empty.
    3, 6, 9: apply map_Forall_singleton; by vm_compute.
    1, 3, 5, 7: intros m; reflexivity.
    all: apply collision_free_check; vm_compute; reflexivity.
Defined.

Example panel_verdict :
  agreeing_keys (log 7) (lit "plane") panel = [lit "a"; lit "b"; lit "b"]
  /\ disagreeing (log 7) (lit "plane") 0 panel = [2].
Proof. vm_compute. done. Qed.

(** The instant a cosignature carries is the one the witness observed at. *)
Example timestamp_read_back :
  (timestamp <$> match (cosign (fresh "w") (at_size 3) 0 []).2 with Ok s => Some s | Err _ => None end)
  = Some (Some 1000%Z).
Proof. vm_compute. reflexivity. Qed.
End WitnessWitness.
