(* ===== verification/Label.v ===== *)
(** * Information-flow labels ([src/src/core/label.rs])

    The label lattice (provenance, trust, sensitivity, data subjects), JSON
    pointers as the runtime writes them, and the release vocabulary: scopes,
    releases and the rule set every release passes, and protected fields.

    [BTreeSet] is [gset]; a [String] or [SourceId] is a [str]; a [RunId] is the
    128-bit number of its ULID. *)

From S2P Require Import Prelude.

(** ** Trust and sensitivity: two chains *)

Inductive Trust := Trusted | Untrusted.
Inductive Sensitivity := Public | Internal | Confidential | Secret.

#[export] Instance trust_eq_dec : EqDecision Trust.
Proof. solve_decision. Defined.
#[export] Instance sensitivity_eq_dec : EqDecision Sensitivity.
Proof. solve_decision. Defined.

(** The derived [Ord]: declaration order. *)
Definition trust_rank (t : Trust) : nat :=
  match t with Trusted => 0 | Untrusted => 1 end.
Definition sens_rank (x : Sensitivity) : nat :=
  match x with Public => 0 | Internal => 1 | Confidential => 2 | Secret => 3 end.

Definition trust_max (a b : Trust) : Trust :=
  if decide (trust_rank a <= trust_rank b) then b else a.
Definition sens_max (a b : Sensitivity) : Sensitivity :=
  if decide (sens_rank a <= sens_rank b) then b else a.
Definition sens_min (a b : Sensitivity) : Sensitivity :=
  if decide (sens_rank a <= sens_rank b) then a else b.

#[export] Instance sens_le : SqSubsetEq Sensitivity := fun a b => sens_rank a <= sens_rank b.
#[export] Instance sens_le_dec (a b : Sensitivity) : Decision (a ⊑ b).
Proof. unfold sqsubseteq, sens_le. apply _. Defined.
#[export] Instance sens_join : Join Sensitivity := sens_max.
#[export] Instance sens_bot : Bottom Sensitivity := Public.
#[export] Instance trust_le : SqSubsetEq Trust := fun a b => trust_rank a <= trust_rank b.
#[export] Instance trust_join : Join Trust := trust_max.
#[export] Instance trust_bot : Bottom Trust := Trusted.

#[export] Instance sens_lattice : JoinLattice Sensitivity.
Proof.
  split.
  - by intros [] [] [].
  - by intros [] [].
  - by intros [].
  - by intros [].
  - intros [] []; compute; split; done || lia.
Qed.

#[export] Instance trust_lattice : JoinLattice Trust.
Proof.
  split.
  - by intros [] [] [].
  - by intros [] [].
  - by intros [].
  - by intros [].
  - intros [] []; compute; split; done || lia.
Qed.

Lemma sens_min_le x a b : x ⊑ sens_min a b <-> x ⊑ a /\ x ⊑ b.
Proof. unfold sens_min, sqsubseteq, sens_le. case_decide; lia. Qed.

Lemma sens_le_antisymm (a b : Sensitivity) : (forall x : Sensitivity, x ⊑ a <-> x ⊑ b) -> a = b.
Proof. intros Hx. apply (anti_symm (⊑)); apply Hx; done. Qed.

#[export] Instance trust_countable : Countable Trust :=
  inj_countable' (fun t => bool_decide (t = Untrusted))
    (fun b : bool => if b then Untrusted else Trusted) ltac:(by intros []).
#[export] Instance sensitivity_countable : Countable Sensitivity :=
  inj_countable' sens_rank
    (fun n => match n with 0 => Public | 1 => Internal | 2 => Confidential | _ => Secret end)
    ltac:(by intros []).

(** ** Labels *)

Record SubjectRef := mk_subject { sr_run : N; sr_index : N }.

#[export] Instance subject_eq_dec : EqDecision SubjectRef.
Proof. solve_decision. Defined.
#[export] Instance subject_countable : Countable SubjectRef :=
  inj_countable' (fun r => (sr_run r, sr_index r)) (fun p => mk_subject p.1 p.2)
    ltac:(by intros []).

Record Label := mk_label {
  provenance : gset str;
  trust : Trust;
  sensitivity : Sensitivity;
  data_subjects : gset SubjectRef;
}.

#[export] Instance label_eq_dec : EqDecision Label.
Proof. solve_decision. Defined.

(** [Label::trusted], [Label::untrusted], [Label::with_sensitivity]. *)
Definition trusted : Label := mk_label ∅ Trusted Public ∅.
Definition untrusted (source : str) : Label := mk_label {[source]} Untrusted Internal ∅.
Definition with_sensitivity (l : Label) (x : Sensitivity) : Label :=
  mk_label (provenance l) (trust l) x (data_subjects l).

Definition join (a b : Label) : Label :=
  mk_label (provenance a ∪ provenance b) (trust_max (trust a) (trust b))
    (sens_max (sensitivity a) (sensitivity b)) (data_subjects a ∪ data_subjects b).

(** [Label::for_policy]: what a policy request carries. *)
Definition for_policy (l : Label) : Label :=
  mk_label (provenance l) (trust l) (sensitivity l) ∅.
Definition is_untrusted (l : Label) : bool := bool_decide (trust l = Untrusted).

#[export] Instance label_join : Join Label := join.
#[export] Instance label_bot : Bottom Label := trusted.
#[export] Instance label_le : SqSubsetEq Label := fun a b =>
  provenance a ⊆ provenance b /\ trust a ⊑ trust b /\ sensitivity a ⊑ sensitivity b
  /\ data_subjects a ⊆ data_subjects b.

Lemma label_eq a b :
  provenance a = provenance b -> trust a = trust b -> sensitivity a = sensitivity b ->
  data_subjects a = data_subjects b -> a = b.
Proof. destruct a, b; simpl; congruence. Qed.

#[export] Instance label_lattice : JoinLattice Label.
Proof.
  split; unfold base.join, label_join, join.
  - intros x y z. apply label_eq; simpl; [set_solver|apply (jl_assoc (A := Trust))|
      apply (jl_assoc (A := Sensitivity))|set_solver].
  - intros x y. apply label_eq; simpl; [set_solver|apply (jl_comm (A := Trust))|
      apply (jl_comm (A := Sensitivity))|set_solver].
  - intros x. apply label_eq; simpl; [set_solver|apply (jl_idemp (A := Trust))|
      apply (jl_idemp (A := Sensitivity))|set_solver].
  - intros x. apply label_eq; simpl; [set_solver|apply (jl_bot (A := Trust))|
      apply (jl_bot (A := Sensitivity))|set_solver].
  - intros x y. unfold sqsubseteq, label_le. rewrite !jl_order. split.
    + intros (? & Ht & Hs & ?). apply label_eq; simpl; [set_solver|exact Ht|exact Hs|set_solver].
    + intros Hj. destruct x as [p t v d], y as [p' t' v' d']. simpl in *.
      injection Hj as Hp Ht Hs Hd. split_and!; [set_solver|exact Ht|exact Hs|set_solver].
Qed.

Lemma is_untrusted_join a b : is_untrusted (a ⊔ b) = is_untrusted a || is_untrusted b.
Proof. destruct a as [? [] ? ?], b as [? [] ? ?]; reflexivity. Qed.

(** ** JSON pointers *)

(** [canon::pointer_token]: [~] is [~0], then [/] is [~1]. *)
Definition replace_char (c : ascii) (w : str) (x : str) : str :=
  x ≫= (fun d => if decide (d = c) then w else [d]).
Definition pointer_token (token : str) : str :=
  replace_char slash (lit "~1") (replace_char tilde (lit "~0") token).

(** The scan of [is_json_pointer] over the bytes. *)
Fixpoint tildes_ok (x : str) : bool :=
  match x with
  | [] => true
  | c :: x' =>
      if decide (c = tilde) then
        match x' with
        | [] => false
        | d :: x'' => (bool_decide (d = "0"%char) || bool_decide (d = "1"%char)) && tildes_ok x''
        end
      else tildes_ok x'
  end.
Definition is_json_pointer (p : str) : bool := starts_with slash p && tildes_ok p.
Definition is_protected_path (p : str) : bool := bool_decide (p = []) || is_json_pointer p.

(** ** Release scopes and releases *)

(** The [Err(&'static str)] reasons, one constructor per message. *)
Inductive Invalid :=
| ScopeImprovesNothing
| BasisOrDestinationEmpty
| FieldScopeInvalid
| EvidenceMissing
| PathInvalid
| TrustedAndSources
| NoConstraint
| ValueRepeated.

#[export] Instance invalid_eq_dec : EqDecision Invalid.
Proof. solve_decision. Defined.

Record ReleaseScope := mk_scope { scope_trust : bool; scope_sensitivity : option Sensitivity }.

#[export] Instance scope_eq_dec : EqDecision ReleaseScope.
Proof. solve_decision. Defined.

(** [TryFrom<ReleaseScopeWire>]: a scope improving nothing is refused. *)
Definition scope_try_from (w_trust : bool) (w_sens : option Sensitivity) : result Invalid ReleaseScope :=
  if negb w_trust && bool_decide (w_sens = None)
  then Err ScopeImprovesNothing
  else Ok (mk_scope w_trust w_sens).

Definition scope_of_trust : ReleaseScope := mk_scope true None.
Definition scope_of_sensitivity (t : Sensitivity) : ReleaseScope := mk_scope false (Some t).
Definition scope_trust_and_sensitivity (t : Sensitivity) : ReleaseScope := mk_scope true (Some t).

Record Release := mk_release {
  rel_scope : ReleaseScope;
  basis : str;
  destination : str;
  rel_fields : gset str;
  evidence : gset str;
}.

Section release.
(** [str::trim] is Unicode-aware library code. *)
Context (trim : str -> str).

Definition blank (x : str) : bool := bool_decide (trim x = []).

(** [Release::validate]: four refusals, in the code's order. *)
Definition release_validate (r : Release) : result Invalid unit :=
  if negb (scope_trust (rel_scope r)) && bool_decide (scope_sensitivity (rel_scope r) = None)
  then Err ScopeImprovesNothing
  else if blank (basis r) || blank (destination r)
  then Err BasisOrDestinationEmpty
  else if bool_decide (rel_fields r = ∅)
          || (bool_decide (1 < size (rel_fields r)) && bool_decide ([] ∈ rel_fields r))
          || existsb (fun p => negb (bool_decide (p = [])) && negb (is_json_pointer p))
               (elements (rel_fields r))
  then Err FieldScopeInvalid
  else if bool_decide (evidence r = ∅) || existsb blank (elements (evidence r))
  then Err EvidenceMissing
  else Ok tt.

(** [TryFrom<ReleaseWire>] and the panicking constructors share it. *)
Definition release_try_from (r : Release) : result Invalid Release :=
  _ ← release_validate r; Ok r.
Definition release_new (sc : ReleaseScope) (fields : list str) (b d : str) (ev : list str) :
    option Release :=
  let r := mk_release sc b d (list_to_set fields) (list_to_set ev) in
  if is_ok (release_validate r) then Some r else None.
Definition release_whole sc b d ev : option Release := release_new sc [[]] b d ev.
Definition is_whole_value (r : Release) : bool := bool_decide ([] ∈ rel_fields r).
End release.

(** ** Protected fields *)

Record ProtectedField (V : Type) := mk_protected {
  pf_path : str;
  require_trusted : bool;
  allowed_sources : gset str;
  max_sensitivity : option Sensitivity;
  one_of : list V;
}.
Arguments mk_protected {V}.
Arguments pf_path {V}.
Arguments require_trusted {V}.
Arguments allowed_sources {V}.
Arguments max_sensitivity {V}.
Arguments one_of {V}.

Section protected.
Context {V : Type} `{EqDecision V}.

(** The loop over [one_of]: a value equal to one before it. *)
Fixpoint repeats (seen l : list V) : bool :=
  match l with
  | [] => false
  | v :: l => bool_decide (v ∈ seen) || repeats (seen ++ [v]) l
  end.

Definition protected_validate (f : ProtectedField V) : result Invalid unit :=
  if negb (is_protected_path (pf_path f))
  then Err PathInvalid
  else if require_trusted f && negb (bool_decide (allowed_sources f = ∅))
  then Err TrustedAndSources
  else if negb (require_trusted f) && bool_decide (allowed_sources f = ∅)
          && bool_decide (max_sensitivity f = None) && bool_decide (one_of f = [])
  then Err NoConstraint
  else if repeats [] (one_of f)
  then Err ValueRepeated
  else Ok tt.

(** [ProtectedField::trusted], [::from_sources], [::one_of]; a panic is [None]. *)
Definition protected_trusted (path : str) : option (ProtectedField V) :=
  if is_protected_path path then Some (mk_protected path true ∅ None []) else None.
Definition protected_from_sources (path : str) (sources : list str) : option (ProtectedField V) :=
  if is_protected_path path && negb (bool_decide (list_to_set sources =@{gset str} ∅))
  then Some (mk_protected path false (list_to_set sources) None []) else None.
Definition protected_one_of (path : str) (values : list V) : option (ProtectedField V) :=
  let f := mk_protected path false ∅ None values in
  if is_ok (protected_validate f) then Some f else None.
Definition restricted_to (f : ProtectedField V) (values : list V) : option (ProtectedField V) :=
  let f := mk_protected (pf_path f) (require_trusted f) (allowed_sources f) (max_sensitivity f) values in
  if is_ok (protected_validate f) then Some f else None.
End protected.

(** ** Escaping *)

Definition esc (c : ascii) : str :=
  if decide (c = tilde) then lit "~0" else if decide (c = slash) then lit "~1" else [c].

Lemma pointer_token_esc t : pointer_token t = t ≫= esc.
Proof.
  unfold pointer_token, replace_char. induction t as [|c t IH]; [done|].
  rewrite !bind_cons, bind_app, IH. f_equal. unfold esc.
  destruct (decide (c = tilde)) as [->|]; [done|]. simpl.
  destruct (decide (c = slash)); done.
Qed.

Lemma pointer_token_cons c t : pointer_token (c :: t) = esc c ++ pointer_token t.
Proof. by rewrite !pointer_token_esc. Qed.

Lemma esc_no_slash c : slash ∉ esc c.
Proof.
  unfold esc. repeat case_decide; simpl; rewrite ?elem_of_cons, ?elem_of_nil; intros Hs;
    destruct_or?; by subst.
Qed.

Lemma pointer_token_no_slash t : slash ∉ pointer_token t.
Proof.
  rewrite pointer_token_esc. induction t as [|c t IH]; simpl; [set_solver|].
  rewrite elem_of_app. intros [Hc|Ht]; [by apply esc_no_slash in Hc|done].
Qed.

(** The escapes form a prefix code, so tokens are read back uniquely. *)
Lemma esc_inj c d x y : esc c ++ x = esc d ++ y -> c = d /\ x = y.
Proof.
  unfold esc. repeat case_decide; simpl; intros Heq; simplify_eq/=; try done; congruence.
Qed.

#[export] Instance pointer_token_inj : Inj (=) (=) pointer_token.
Proof.
  intros t t'. rewrite !pointer_token_esc. revert t'.
  induction t as [|c t IH]; intros [|d t'] Heq; simpl in Heq; [done|..].
  - unfold esc in Heq. repeat case_decide; discriminate.
  - unfold esc in Heq. repeat case_decide; discriminate.
  - apply esc_inj in Heq as [-> Heq]. f_equal. by apply IH.
Qed.

(** A pointer from the names of its steps. *)
Definition pointer_of (tokens : list str) : str :=
  tokens ≫= (fun t => slash :: pointer_token t).

Lemma tildes_ok_app t x : tildes_ok (pointer_token t ++ x) = tildes_ok x.
Proof.
  rewrite pointer_token_esc. induction t as [|c t IH]; [done|].
  rewrite bind_cons, <-app_assoc. unfold esc at 1.
  destruct (decide (c = tilde)) as [->|]; [exact IH|].
  destruct (decide (c = slash)) as [->|]; [exact IH|]. simpl. by rewrite decide_False.
Qed.

Lemma tildes_ok_pointer ts : tildes_ok (pointer_of ts) = true.
Proof.
  induction ts as [|t ts IH]; [done|]. unfold pointer_of in *. rewrite bind_cons. simpl.
  by rewrite tildes_ok_app.
Qed.

Lemma tildes_ok_split x : tildes_ok x = true ->
  exists t ts, x = pointer_token t ++ pointer_of ts.
Proof.
  remember (length x) as n eqn:Hn. revert x Hn.
  induction n as [n IH] using lt_wf_ind; intros [|c x] -> Hok.
  { by exists [], []. }
  cbn [tildes_ok] in Hok. destruct (decide (c = tilde)) as [->|Hc].
  - destruct x as [|d x]; [done|]. apply andb_true_iff in Hok as [Hd Hok].
    destruct (IH (length x)) with (x := x) as (t & ts & ->); [simpl; lia|done..|].
    apply orb_true_iff in Hd as [Hd|Hd]; apply bool_decide_eq_true in Hd as ->.
    + by exists (tilde :: t), ts.
    + by exists (slash :: t), ts.
  - destruct (IH (length x)) with (x := x) as (t & ts & ->); [simpl; lia|done..|].
    destruct (decide (c = slash)) as [->|Hs].
    + by exists [], (t :: ts).
    + exists (c :: t), ts. rewrite pointer_token_cons. unfold esc.
      by rewrite !decide_False.
Qed.

Lemma pointer_cut t t' x y :
  (x = [] \/ starts_with slash x = true) -> (y = [] \/ starts_with slash y = true) ->
  pointer_token t ++ x = pointer_token t' ++ y -> t = t' /\ x = y.
Proof.
  rewrite !pointer_token_esc. revert t'.
  assert (forall c r z, (z = [] \/ starts_with slash z = true) -> esc c ++ r <> z) as Hne.
  { intros c r z Hz Heq. destruct z as [|d z].
    - unfold esc in Heq. repeat case_decide; discriminate.
    - destruct Hz as [?|Hz]; [done|]. apply bool_decide_eq_true in Hz as ->.
      pose proof (esc_no_slash c) as Hs. unfold esc in *. repeat case_decide; simplify_eq/=; set_solver. }
  induction t as [|c t IH]; intros [|d t'] Hx Hy Heq; simpl in Heq.
  - done.
  - rewrite <-app_assoc in Heq. by destruct (Hne d (((t' ≫= esc)) ++ y) x Hx).
  - rewrite <-app_assoc in Heq. by destruct (Hne c (((t ≫= esc)) ++ x) y Hy).
  - rewrite <-!app_assoc in Heq. apply esc_inj in Heq as [-> Heq].
    apply IH in Heq as [-> ->]; done.
Qed.

Lemma pointer_of_starts ts : pointer_of ts = [] \/ starts_with slash (pointer_of ts) = true.
Proof. destruct ts; [by left|by right]. Qed.

Lemma pointer_of_inj ts ts' : pointer_of ts = pointer_of ts' -> ts = ts'.
Proof.
  revert ts'. induction ts as [|t ts IH]; intros [|t' ts']; [done..|].
  unfold pointer_of. rewrite !bind_cons. intros [= Heq].
  apply pointer_cut in Heq as [-> Heq]; [|apply pointer_of_starts..]. f_equal. auto.
Qed.

(** ** What validation accepts *)

Lemma is_json_pointer_spec p :
  is_json_pointer p = true <-> exists t ts, p = pointer_of (t :: ts).
Proof.
  unfold is_json_pointer. rewrite andb_true_iff. split.
  - intros [Hs Ht]. apply starts_with_spec in Hs as (r & ->).
    simpl in Ht. apply tildes_ok_split in Ht as (t & ts & ->). by exists t, ts.
  - intros (t & ts & ->). split; [done|]. apply tildes_ok_pointer.
Qed.

Lemma existsb_elements (f : str -> bool) (X : gset str) :
  existsb f (elements X) = false <-> forall x, x ∈ X -> f x = false.
Proof.
  rewrite <-not_true_iff_false, existsb_exists. setoid_rewrite <-list_elem_of_In.
  setoid_rewrite elem_of_elements. split.
  - intros Hn x Hx. destruct (f x) eqn:E; [|done]. exfalso. eauto.
  - intros Ha (x & Hx & Hf). rewrite Ha in Hf; done.
Qed.

Lemma fields_ok (X : gset str) :
  bool_decide (X = ∅) || (bool_decide (1 < size X) && bool_decide ([] ∈ X))
    || existsb (fun p => negb (bool_decide (p = [])) && negb (is_json_pointer p)) (elements X) = false
  <-> X = {[ [] ]} \/ (X <> ∅ /\ forall p, p ∈ X -> exists t ts, p = pointer_of (t :: ts)).
Proof.
  rewrite !orb_false_iff, andb_false_iff, !bool_decide_eq_false, existsb_elements.
  setoid_rewrite andb_false_iff. setoid_rewrite negb_false_iff.
  setoid_rewrite bool_decide_eq_true. setoid_rewrite is_json_pointer_spec. split.
  - intros [[Hne Hw] Hp]. destruct (decide ([] ∈ X)) as [Hin|Hout].
    + destruct Hw as [Hw|]; [|done]. left.
      assert (size X = 1) as H1.
      { assert (size X <> 0); [|lia]. intros H0. apply Hne. by apply size_empty_iff, leibniz_equiv in H0. }
      apply size_1_elem_of in H1 as [x Hx]. set_solver.
    + right. split; [done|]. intros p Hin. destruct (Hp p Hin) as [->|]; [by destruct Hout|done].
  - intros [->|[Hne Hp]].
    + rewrite size_singleton. split_and!; [set_solver|left; lia|]. set_solver.
    + split_and!; [done| |by auto]. right. intros Hin. destruct (Hp _ Hin) as (t & ts & ?). done.
Qed.

Section release_lemmas.
Context (trim : str -> str).

(** A well-formed release: every rule of [release_validate], as a proposition. *)
Record release_ok (r : Release) : Prop := {
  ro_scope : scope_trust (rel_scope r) = true \/ scope_sensitivity (rel_scope r) <> None;
  ro_basis : trim (basis r) <> [];
  ro_destination : trim (destination r) <> [];
  ro_fields : rel_fields r = {[ [] ]}
    \/ (rel_fields r <> ∅ /\ forall p, p ∈ rel_fields r -> exists t ts, p = pointer_of (t :: ts));
  ro_evidence : evidence r <> ∅ /\ forall e, e ∈ evidence r -> trim e <> [];
}.

Lemma blank_false x : blank trim x = false <-> trim x <> [].
Proof. unfold blank. by rewrite bool_decide_eq_false. Qed.
End release_lemmas.

(** ** Properties *)

(** [is_json_pointer] accepts exactly the strings RFC 6901 builds from a
    non-empty list of escaped tokens, and each of those lists is read back
    uniquely, so an escaped name can never forge another path. *)
Theorem json_pointer_grammar p :
  is_json_pointer p = true <->
    exists ts, ts <> [] /\ p = pointer_of ts /\ forall ts', p = pointer_of ts' -> ts' = ts.
Proof.
  rewrite is_json_pointer_spec. split.
  - intros (t & ts & ->). exists (t :: ts). split_and!; [done..|].
    intros ts' Heq. symmetry. by apply pointer_of_inj.
  - intros ([|t ts] & Hne & -> & _); [done|]. eauto.
Qed.

(** [Release::validate] accepts exactly the well-formed releases: some
    dimension improved, basis and destination named, the whole value or a
    non-empty set of JSON Pointers (never both), and evidence with no blank
    entry.  The panicking constructor and the deserialization gate accept the
    same set, because both are this one check. *)
Theorem release_validate_spec (trim : str -> str) (r : Release) :
  (release_validate trim r = Ok tt <-> release_ok trim r)
  /\ (release_try_from trim r = Ok r <-> release_ok trim r)
  /\ (release_new trim (rel_scope r) (elements (rel_fields r)) (basis r) (destination r)
        (elements (evidence r)) = Some r <-> release_ok trim r).
Proof.
  assert (release_validate trim r = Ok tt <-> release_ok trim r) as Hv.
  { unfold release_validate. split.
    - intros Hok. case_match eqn:Hs; [discriminate|]. case_match eqn:Hb; [discriminate|].
      case_match eqn:Hf; [discriminate|]. case_match eqn:He; [discriminate|].
      apply orb_false_iff in Hb as [Hb Hd]. apply orb_false_iff in He as [He Hee].
      split; [|by apply blank_false..|by apply fields_ok|].
      + apply andb_false_iff in Hs as [Hs|Hs]; [left; by apply negb_false_iff|right].
        by apply bool_decide_eq_false in Hs.
      + apply bool_decide_eq_false in He. split; [done|].
        setoid_rewrite <-(blank_false trim). by apply existsb_elements.
    - intros [Hs Hb Hd Hf [He Hee]]. apply fields_ok in Hf. rewrite Hf.
      apply (blank_false trim) in Hb, Hd. rewrite Hb, Hd. setoid_rewrite <-(blank_false trim) in Hee.
      apply existsb_elements in Hee. rewrite Hee, (bool_decide_false (evidence r = ∅)) by done.
      simpl. destruct Hs as [->|Hs]; [done|].
      by rewrite (bool_decide_false (scope_sensitivity (rel_scope r) = None)), andb_false_r by done. }
  split_and!; [done| |].
  - rewrite <-Hv. unfold release_try_from. destruct (release_validate trim r) as [[]|]; simpl; naive_solver.
  - rewrite <-Hv. unfold release_new. rewrite !list_to_set_elements_L.
    assert (mk_release (rel_scope r) (basis r) (destination r) (rel_fields r) (evidence r) = r)
      as -> by (by destruct r).
    destruct (release_validate trim r) as [[]|]; simpl; naive_solver.
Qed.

(** Combining labels only ever tightens them: [join] is the least upper
    bound of its arguments in the order (provenance and subjects included,
    trust degraded, sensitivity escalated) with [trusted] at the bottom, so
    over any multiset of contributors, in any order and grouping, the result
    is untrusted as soon as one contributor is and at least as sensitive as
    each. *)
Theorem join_is_lub (ls : list Label) :
  (forall l, l ∈ ls -> l ⊑ joins ls)
  /\ (forall z : Label, (forall l, l ∈ ls -> l ⊑ z) -> joins ls ⊑ z)
  /\ (forall ls', ls ≡ₚ ls' -> joins ls' = joins ls)
  /\ is_untrusted (joins ls) = existsb is_untrusted ls.
Proof.
  split_and!.
  - apply joins_ub.
  - apply joins_lub.
  - intros ls' Hp. by rewrite Hp.
  - induction ls as [|l ls IH]; [done|]. simpl. by rewrite <-IH, <-is_untrusted_join.
Qed.
