(* ===== verification/Identity.v ===== *)
(** * Delegation chains ([src/src/core/identity.rs])

    On whose behalf a run acts: scopes as sets of capability patterns, the
    containment test that decides whether one scope is inside another, and the
    chain from an owner to the acting workload, whose constructors are the only
    way to make one.  A timestamp is its count of nanoseconds; errors carry the
    timestamps the code renders. *)

From S2P Require Import Prelude.

Definition dot : ascii := "."%char.
Definition star : str := lit "*".

(** ** Scopes *)

Abbreviation Scope := (gset str).

Definition scope_root : Scope := {[star]}.
Definition scope_empty : Scope := ∅.
Definition scope_of (patterns : list str) : Scope := list_to_set patterns.
Definition scope_is_empty (s : Scope) : bool := bool_decide (s = ∅).
Definition patterns (s : Scope) : list str := iter_str s.

(** [pattern.strip_suffix(".*")]. *)
Fixpoint strip_family (x : str) : option str :=
  match x with
  | [] => None
  | c :: y => if decide (x = lit ".*") then Some [] else cons c <$> strip_family y
  end.

(** [x.starts_with(p) && x.as_bytes().get(p.len()) == Some(&b'.')]. *)
Definition under (p x : str) : bool :=
  match strip_prefix p x with Some (c :: _) => bool_decide (c = dot) | _ => false end.

Definition pattern_covers (pattern capability : str) : bool :=
  if decide (pattern = star) then true else
  match strip_family pattern with
  | None => bool_decide (pattern = capability)
  | Some prefix => bool_decide (capability = prefix) || under prefix capability
  end.

Definition scope_permits (s : Scope) (capability : str) : bool :=
  existsb (fun p => pattern_covers p capability) (patterns s).

(** [covers]: whether pattern [a] covers everything [b] can match. *)
Definition covers (a b : str) : bool :=
  if decide (a = star) then true else
  if decide (b = star) then false else
  match strip_family a, strip_family b with
  | Some pa, Some pb => bool_decide (pb = pa) || under pa pb
  | Some _, None => pattern_covers a b
  | None, Some _ => false
  | None, None => bool_decide (a = b)
  end.

Definition contains (s other : Scope) : bool :=
  forallb (fun o => existsb (fun p => covers p o) (patterns s)) (patterns other).

(** ** Principals and chains *)

Record Principal := mk_principal {
  pr_id : str;
  scope : Scope;
  p_audience : option str;
  p_not_after : option Z;
}.
#[export] Instance principal_eq_dec : EqDecision Principal.
Proof. solve_decision. Defined.

Definition principal_new (id : str) (s : Scope) : Principal := mk_principal id s None None.
Definition for_audience (p : Principal) (a : str) : Principal :=
  mk_principal (pr_id p) (scope p) (Some a) (p_not_after p).
Definition until (p : Principal) (t : Z) : Principal :=
  mk_principal (pr_id p) (scope p) (p_audience p) (Some t).

Inductive DelegationError :=
| ScopeWidened (from to widened : str)
| ValidityWidened (from to : str) (delegator_until delegate_until : Z)
| AudienceWidened (from to delegator_audience delegate_audience : str)
| TooDeep (depth max : nat)
| EmptyChain
| Expired (subject : str) (not_after at_ : Z)
| WrongAudience (subject audience plane : str).

Record Delegation := mk_delegation { d_root : Principal; d_rest : list Principal }.

Definition MAX_DELEGATION_DEPTH : nat := 3.

Definition delegation_root (owner : Principal) : Delegation := mk_delegation owner [].
Definition owner (d : Delegation) : Principal := d_root d.
Definition links (d : Delegation) : list Principal := d_root d :: d_rest d.
Definition subject (d : Delegation) : Principal := default (d_root d) (last (d_rest d)).
Definition delegation_depth (d : Delegation) : nat := length (d_rest d).
Definition effective_scope (d : Delegation) : Scope := scope (subject d).

(** [Iterator::min]. *)
Definition min_of (l : list Z) : option Z :=
  match l with [] => None | x :: l => Some (foldl Z.min x l) end.
Definition not_after (d : Delegation) : option Z := min_of (omap p_not_after (links d)).
Definition audience (d : Delegation) : option str := head (omap p_audience (links d)).

(** The pattern a [ScopeWidened] names. *)
Definition widened_pattern (from to : Scope) : str :=
  default (lit "<unknown>") (head (filter (fun p => contains from (scope_of [p]) = false) (patterns to))).

Definition delegate (d : Delegation) (to : Principal) : result DelegationError Delegation :=
  let from := subject d in
  ensure (contains (scope from) (scope to))
    (ScopeWidened (pr_id from) (pr_id to) (widened_pattern (scope from) (scope to))) ;;
  (match not_after d, p_not_after to with
   | Some delegator, Some delegate =>
       ensure (negb (delegator <? delegate)%Z) (ValidityWidened (pr_id from) (pr_id to) delegator delegate)
   | _, _ => Ok tt
   end) ;;
  (match audience d, p_audience to with
   | Some delegator, Some delegate =>
       ensure (bool_decide (delegate = delegator)) (AudienceWidened (pr_id from) (pr_id to) delegator delegate)
   | _, _ => Ok tt
   end) ;;
  ensure (bool_decide (delegation_depth d + 1 <= MAX_DELEGATION_DEPTH))
    (TooDeep (delegation_depth d + 1) MAX_DELEGATION_DEPTH) ;;
  Ok (mk_delegation (d_root d) (d_rest d ++ [to])).

Definition admissible (d : Delegation) (plane : str) (at_ : Z) : result DelegationError unit :=
  (match not_after d with
   | Some t => ensure (negb (t <=? at_)%Z) (Expired (pr_id (subject d)) t at_)
   | None => Ok tt
   end) ;;
  match audience d with
  | Some a => ensure (bool_decide (a = plane)) (WrongAudience (pr_id (subject d)) a plane)
  | None => Ok tt
  end.

(** The loop of [rehydrate]. *)
Fixpoint delegate_all (d : Delegation) (ls : list Principal) : result DelegationError Delegation :=
  match ls with
  | [] => Ok d
  | l :: ls => d ← delegate d l; delegate_all d ls
  end.
Definition rehydrate (ls : list Principal) : result DelegationError Delegation :=
  match ls with
  | [] => Err EmptyChain
  | root :: ls => delegate_all (delegation_root root) ls
  end.

(** ** What a pattern matches *)

Lemma strip_family_Some x p : strip_family x = Some p <-> x = p ++ lit ".*".
Proof.
  split.
  - revert p. induction x as [|c x IH]; intros p; [done|]. cbn [strip_family].
    case_decide as Hx; [by intros [= <-]|]. intros (q & Hq & [= <-])%fmap_Some_1 || intros (q & Hq & ->)%fmap_Some.
    simpl. f_equal. by apply IH.
  - intros ->. induction p as [|c p IH]; [done|]. cbn [strip_family app].
    case_decide as Hx; [|by rewrite IH].
    exfalso. destruct p as [|d [|e p]]; discriminate Hx.
Qed.

(** [p], or [p] followed by a dot and anything. *)
Definition in_family (p x : str) : Prop := x = p \/ exists r, x = p ++ dot :: r.

Lemma under_spec p x : under p x = true <-> exists r, x = p ++ dot :: r.
Proof.
  unfold under. destruct (strip_prefix p x) as [[|c r]|] eqn:E.
  - apply strip_prefix_Some in E. rewrite app_nil_r in E. subst. split; [done|].
    intros (r & Hr). apply (f_equal length) in Hr. rewrite length_app in Hr. simpl in Hr. lia.
  - apply strip_prefix_Some in E as ->. rewrite bool_decide_eq_true. split; [intros ->; eauto|].
    intros (r' & Hr). by apply app_inv_head in Hr as [= -> _].
  - rewrite strip_prefix_None in E. split; [done|]. intros (r & Hr). by destruct (E _ Hr).
Qed.

Lemma in_family_spec p x : bool_decide (x = p) || under p x = true <-> in_family p x.
Proof. rewrite orb_true_iff, bool_decide_eq_true, under_spec. done. Qed.

Lemma pattern_covers_spec p x :
  pattern_covers p x = true <->
  p = star \/ (p <> star /\ match strip_family p with Some q => in_family q x | None => p = x end).
Proof.
  unfold pattern_covers. case_decide as Hp; [naive_solver|].
  destruct (strip_family p); [rewrite in_family_spec|rewrite bool_decide_eq_true]; naive_solver.
Qed.

Lemma pattern_family_spec a b :
  covers a b = true <->
  a = star \/ (a <> star /\ b <> star /\
    match strip_family a, strip_family b with
    | Some pa, Some pb => in_family pa pb
    | Some pa, None => in_family pa b
    | None, Some _ => False
    | None, None => a = b
    end).
Proof.
  unfold covers. case_decide as Ha; [naive_solver|]. case_decide as Hb; [naive_solver|].
  destruct (strip_family a) as [pa|] eqn:Ea, (strip_family b) as [pb|] eqn:Eb.
  - rewrite in_family_spec. naive_solver.
  - rewrite pattern_covers_spec, Ea. naive_solver.
  - naive_solver.
  - rewrite bool_decide_eq_true. naive_solver.
Qed.

Lemma in_family_trans p q x : in_family p q -> in_family q x -> in_family p x.
Proof.
  intros [->|(r & ->)] [->|(r' & ->)]; unfold in_family; eauto.
  right. exists (r ++ dot :: r'). by rewrite <-app_assoc.
Qed.

Lemma scope_permits_spec s x : scope_permits s x = true <-> exists p, p ∈ s /\ pattern_covers p x = true.
Proof.
  unfold scope_permits, patterns. rewrite existsb_exists.
  setoid_rewrite <-list_elem_of_In. by setoid_rewrite elem_of_iter_by.
Qed.

Lemma contains_spec s o :
  contains s o = true <-> forall b, b ∈ o -> exists a, a ∈ s /\ covers a b = true.
Proof.
  unfold contains, patterns. rewrite forallb_forall. setoid_rewrite <-list_elem_of_In.
  setoid_rewrite elem_of_iter_by. setoid_rewrite existsb_exists.
  setoid_rewrite <-list_elem_of_In. by setoid_rewrite elem_of_iter_by.
Qed.

(** ** The containment test is exact *)

Lemma covers_sound a b x : covers a b = true -> pattern_covers b x = true -> pattern_covers a x = true.
Proof.
  rewrite pattern_family_spec, !pattern_covers_spec.
  intros [->|(Ha & Hb & Hc)] Hx; [by left|]. right. split; [done|].
  destruct Hx as [->|[_ Hx]]; [done|].
  destruct (strip_family a) as [pa|], (strip_family b) as [pb|]; try done.
  - by eapply in_family_trans.
  - by subst.
  - congruence.
Qed.

(** A text no exact pattern of [s] is, with no dot to hang a family on. *)
Definition filler (s : Scope) : str := replicate (S (max_list (length <$> elements s))) "x"%char.

Lemma filler_long s a : a ∈ s -> length a < length (filler s).
Proof.
  intros Ha. unfold filler. rewrite length_replicate.
  assert (length a <= max_list (length <$> elements s)); [|lia].
  apply max_list_elem_of_le, list_elem_of_fmap. exists a. by rewrite elem_of_elements.
Qed.

Lemma filler_dot s : dot ∉ filler s.
Proof. unfold filler. intros Hin. apply elem_of_replicate in Hin as [Hin _]. discriminate. Qed.

(** A pattern of [s] that matches [p ++ filler] matches [p]'s whole family. *)
Lemma family_of_filler s a p :
  a ∈ s -> pattern_covers a (p ++ dot :: filler s) = true ->
  a = star \/ exists q, strip_family a = Some q /\ in_family q p.
Proof.
  intros Ha Hc. apply pattern_covers_spec in Hc as [->|[_ Hc]]; [by left|]. right.
  pose proof (filler_long s a Ha) as Hlong.
  destruct (strip_family a) as [q|] eqn:Hq.
  2:{ subst a. rewrite length_app in Hlong. simpl in Hlong. lia. }
  exists q. split; [done|]. apply strip_family_Some in Hq. subst a. rewrite length_app in Hlong.
  destruct Hc as [<-|(r & Hr)].
  { rewrite length_app in Hlong. simpl in Hlong. lia. }
  apply app_eq_inv in Hr as [(k & -> & Hk)|(k & -> & Hk)].
  - destruct k as [|c k]; [left; by rewrite app_nil_r|]. injection Hk as <- _. right. by exists k.
  - destruct k as [|c k]; [left; by rewrite app_nil_r|]. injection Hk as <- Hk.
    destruct (filler_dot s). rewrite Hk. apply elem_of_app. right. left.
Qed.

Lemma contains_iff s o :
  contains s o = true <-> forall x, scope_permits o x = true -> scope_permits s x = true.
Proof.
  rewrite contains_spec. setoid_rewrite scope_permits_spec. split.
  - intros Hc x (b & Hb & Hx). destruct (Hc b Hb) as (a & Ha & Hab).
    exists a. split; [done|]. by eapply covers_sound.
  - intros Hsub b Hb. destruct (decide (b = star)) as [->|Hstar].
    { destruct (Hsub (filler s)) as (a & Ha & Hc); [by exists star|].
      exists a. split; [done|]. pose proof (filler_long s a Ha) as Hlong.
      apply pattern_covers_spec in Hc as [->|[_ Hc]]; [done|]. exfalso.
      destruct (strip_family a) as [q|] eqn:Hq; [|subst; lia].
      apply strip_family_Some in Hq as ->. rewrite length_app in Hlong.
      destruct Hc as [Hr|(r & Hr)]; [rewrite Hr in Hlong; lia|]. destruct (filler_dot s). rewrite Hr. apply elem_of_app. right. left. }
    destruct (strip_family b) as [pb|] eqn:Hpb.
    + destruct (Hsub (pb ++ dot :: filler s)) as (a & Ha & Hc).
      { exists b. split; [done|]. apply pattern_covers_spec. right. split; [done|]. rewrite Hpb. right. eauto. }
      exists a. split; [done|]. apply pattern_family_spec.
      destruct (decide (a = star)) as [?|Hna]; [by left|right]. rewrite Hpb.
      destruct (family_of_filler s a pb Ha Hc) as [?|(q & -> & Hq)]; [done|]. done.
    + destruct (Hsub b) as (a & Ha & Hc).
      { exists b. split; [done|]. apply pattern_covers_spec. right. by rewrite Hpb. }
      exists a. split; [done|]. apply pattern_family_spec. rewrite Hpb.
      apply pattern_covers_spec in Hc as [?|[? Hc]]; [by left|right]. split_and!; [done..|].
      by destruct (strip_family a).
Qed.

(** The attenuation test is exact.  [contains] accepts a scope exactly when
    every capability it permits is permitted by the containing one: it never
    lets a wider scope through, however the patterns overlap, and never refuses
    a narrower one. *)
Theorem contains_exact s o :
  contains s o = true <-> forall x, scope_permits o x = true -> scope_permits s x = true.
Proof. apply contains_iff. Qed.

(** ** The chain *)

(** [a] bounds [b] from above on every axis a link carries. *)
Definition narrows (a b : Principal) : Prop :=
  (forall x, scope_permits (scope b) x = true -> scope_permits (scope a) x = true)
  /\ (forall s t, p_not_after a = Some s -> p_not_after b = Some t -> (t <= s)%Z)
  /\ (forall p q, p_audience a = Some p -> p_audience b = Some q -> p = q).

(** What a chain's constructors promise of it. *)
Definition attenuated (d : Delegation) : Prop :=
  delegation_depth d <= MAX_DELEGATION_DEPTH
  /\ forall i j a b, i < j -> links d !! i = Some a -> links d !! j = Some b -> narrows a b.

Lemma min_of_le l m x : min_of l = Some m -> x ∈ l -> (m <= x)%Z.
Proof.
  destruct l as [|y l]; [done|]. simpl. intros [= <-]. revert y.
  assert (forall l y, foldl Z.min y l <= y)%Z as Hle.
  { clear. intros l. induction l as [|z l IH]; intros y; simpl; [lia|]. etrans; [apply IH|lia]. }
  intros y Hx. revert y Hx. induction l as [|z l IH]; intros y Hx; simpl.
  - apply list_elem_of_singleton in Hx as ->. lia.
  - apply elem_of_cons in Hx as [->|Hx]; [etrans; [apply Hle|lia]|].
    apply elem_of_cons in Hx as [->|Hx]; [etrans; [apply Hle|lia]|]. apply IH. by right.
Qed.

Lemma min_of_None l : min_of l = None <-> l = [].
Proof. destruct l; simpl; naive_solver. Qed.

Lemma not_after_le d l t : l ∈ links d -> p_not_after l = Some t ->
  exists m, not_after d = Some m /\ (m <= t)%Z.
Proof.
  intros Hl Ht. unfold not_after.
  assert (t ∈ omap p_not_after (links d)) as Hin by (apply list_elem_of_omap; eauto).
  destruct (min_of _) as [m|] eqn:E; [|apply min_of_None in E; rewrite E in Hin; by apply elem_of_nil in Hin].
  exists m. split; [done|]. by eapply min_of_le.
Qed.

Lemma audience_some d l p : l ∈ links d -> p_audience l = Some p -> exists q, audience d = Some q.
Proof.
  intros Hl Hp. unfold audience. assert (p ∈ omap p_audience (links d)) as Hin by (apply list_elem_of_omap; eauto).
  destruct (omap p_audience (links d)) as [|q r]; [by apply elem_of_nil in Hin|]. by exists q.
Qed.

Lemma audience_link d q : audience d = Some q -> exists i l, links d !! i = Some l /\ p_audience l = Some q
  /\ forall j l', j < i -> links d !! j = Some l' -> p_audience l' = None.
Proof.
  unfold audience. induction (links d) as [|l ls IH]; simpl; [done|].
  destruct (p_audience l) as [p|] eqn:E; simpl.
  - intros [= ->]. exists 0, l. split_and!; [done..|lia].
  - intros Hh. destruct (IH Hh) as (i & l' & Hi & Hp & Hj). exists (S i), l'. split_and!; [done..|].
    intros [|j] l0 Hlt; [by intros [= <-]|]. apply Hj. lia.
Qed.

Lemma delegate_Ok d to d' :
  delegate d to = Ok d' <->
  contains (effective_scope d) (scope to) = true
  /\ (forall s t, not_after d = Some s -> p_not_after to = Some t -> (t <= s)%Z)
  /\ (forall p q, audience d = Some p -> p_audience to = Some q -> q = p)
  /\ delegation_depth d < MAX_DELEGATION_DEPTH
  /\ d' = mk_delegation (d_root d) (d_rest d ++ [to]).
Proof.
  unfold delegate. rewrite !seq_ok, !ensure_ok. rewrite bool_decide_eq_true.
  assert ((match not_after d, p_not_after to with
    | Some delegator, Some delegate =>
       ensure (negb (delegator <? delegate)%Z) (ValidityWidened (pr_id (subject d)) (pr_id to) delegator delegate)
    | _, _ => Ok tt end) = Ok tt <->
    forall s t, not_after d = Some s -> p_not_after to = Some t -> (t <= s)%Z) as ->.
  { destruct (not_after d) as [s|], (p_not_after to) as [t|]; try naive_solver.
    rewrite ensure_ok, negb_true_iff, Z.ltb_ge. naive_solver. }
  assert ((match audience d, p_audience to with
    | Some delegator, Some delegate =>
       ensure (bool_decide (delegate = delegator)) (AudienceWidened (pr_id (subject d)) (pr_id to) delegator delegate)
    | _, _ => Ok tt end) = Ok tt <->
    forall p q, audience d = Some p -> p_audience to = Some q -> q = p) as ->.
  { destruct (audience d) as [p|], (p_audience to) as [q|]; try naive_solver.
    rewrite ensure_ok, bool_decide_eq_true. naive_solver. }
  unfold effective_scope. split.
  - intros (? & ? & ? & ? & [= <-]). split_and!; [done..|lia|done].
  - intros (? & ? & ? & ? & ->). split_and!; [done..|lia|done].
Qed.

Lemma min_of_elem l m : min_of l = Some m -> m ∈ l.
Proof.
  destruct l as [|y l]; [done|]. simpl. intros [= <-]. revert y. induction l as [|z l IH]; intros y; simpl; [left|].
  destruct (Z.min_spec y z) as [[_ ->]|[_ ->]].
  - specialize (IH y). apply elem_of_cons in IH as [IH|IH]; [rewrite IH; left|by do 2 right].
  - right. apply IH.
Qed.

Lemma subject_link d : links d !! delegation_depth d = Some (subject d).
Proof.
  unfold links, delegation_depth, subject. destruct (d_rest d) as [|l ls] using rev_ind; [done|].
  rewrite last_snoc, length_app. simpl. rewrite Nat.add_1_r. simpl.
  rewrite lookup_app_r by done. by rewrite Nat.sub_diag.
Qed.

Definition extended (d : Delegation) (to : Principal) : Delegation := mk_delegation (d_root d) (d_rest d ++ [to]).

Lemma attenuated_extended d to :
  attenuated (extended d to)
  <-> attenuated d /\ delegation_depth d < MAX_DELEGATION_DEPTH /\ forall a, a ∈ links d -> narrows a to.
Proof.
  unfold attenuated, delegation_depth. change (links (extended d to)) with (links d ++ [to]). simpl d_rest.
  rewrite length_app. simpl length. split.
  - intros [Hd Hl]. split_and!; [lia| |lia|].
    + intros i j a b Hij Hi Hj. apply (Hl i j); [done|by apply lookup_app_l_Some..].
    + intros a Ha. apply list_elem_of_lookup in Ha as (i & Hi). pose proof (lookup_lt_Some _ _ _ Hi).
      apply (Hl i (length (links d))); [done|by apply lookup_app_l_Some|].
      rewrite lookup_app_r by done. by rewrite Nat.sub_diag.
  - intros ([Hd Hl] & Hlt & Hto). split; [lia|]. intros i j a b Hij Hi Hj.
    apply lookup_app_Some in Hj as [Hj|[Hlen Hj]].
    + apply (Hl i j); [done| |done]. rewrite lookup_app_l in Hi; [done|].
      apply lookup_lt_Some in Hj. lia.
    + apply list_lookup_singleton_Some in Hj as [Hj <-].
      rewrite lookup_app_l in Hi by lia. apply Hto. by eapply list_elem_of_lookup_2.
Qed.

Lemma audience_all d p l : attenuated d -> l ∈ links d -> p_audience l = Some p -> audience d = Some p.
Proof.
  intros [_ Hl] Hin Hp. destruct (audience_some d l p Hin Hp) as (q & Hq). rewrite Hq. f_equal.
  apply audience_link in Hq as (i & l' & Hi & Hq & Hfirst).
  apply list_elem_of_lookup in Hin as (j & Hj).
  destruct (lt_eq_lt_dec i j) as [[Hij| ->]|Hji].
  - by apply (Hl i j l' l Hij Hi Hj).
  - congruence.
  - by rewrite (Hfirst j l Hji Hj) in Hp.
Qed.

(** One hop: accepted exactly when every link above bounds it. *)
Lemma delegate_exact d to d' : attenuated d ->
  delegate d to = Ok d' <-> d' = extended d to /\ attenuated d'.
Proof.
  intros Hd. rewrite delegate_Ok. unfold effective_scope. rewrite contains_iff.
  assert ((forall x, scope_permits (scope to) x = true -> scope_permits (scope (subject d)) x = true)
    /\ (forall s t, not_after d = Some s -> p_not_after to = Some t -> (t <= s)%Z)
    /\ (forall p q, audience d = Some p -> p_audience to = Some q -> q = p)
    <-> forall a, a ∈ links d -> narrows a to) as Hiff.
  { split.
    - intros (Hs & Ht & Hp) a Ha. split_and!.
      + intros x Hx. specialize (Hs x Hx). destruct Hd as [_ Hl].
        apply list_elem_of_lookup in Ha as (i & Hi). pose proof (lookup_lt_Some _ _ _ Hi) as Hlt.
        unfold links in Hlt. simpl in Hlt. destruct (decide (i = delegation_depth d)) as [->|Hne].
        * rewrite subject_link in Hi. by injection Hi as <-.
        * by apply (Hl i (delegation_depth d) a (subject d)); [unfold delegation_depth in *; lia|..|apply subject_link|].
      + intros s t Hsa Htt. destruct (not_after_le d a s Ha Hsa) as (m & Hm & Hle).
        specialize (Ht m t Hm Htt). lia.
      + intros p q Hpa Hq. symmetry. apply Hp; [|done]. by eapply audience_all.
    - intros Hn. split_and!.
      + apply Hn. eapply list_elem_of_lookup_2, subject_link.
      + intros s t Hs Ht. apply min_of_elem, list_elem_of_omap in Hs as (a & Ha & Hs).
        by apply (Hn a Ha).
      + intros p q Hp Hq. apply audience_link in Hp as (i & a & Hi & Hp & _). symmetry.
        apply (Hn a); [by eapply list_elem_of_lookup_2|done..]. }
  split.
  - intros (H1 & H2 & H3 & H4 & ->). split; [done|]. apply attenuated_extended.
    split_and!; [apply Hd..|done|by apply Hiff].
  - intros [-> Ha]. apply attenuated_extended in Ha as (_ & Hlt & Hn). by apply Hiff in Hn as (? & ? & ?).
Qed.

Lemma delegate_all_exact d ls d' : attenuated d ->
  delegate_all d ls = Ok d' <-> d' = mk_delegation (d_root d) (d_rest d ++ ls) /\ attenuated d'.
Proof.
  revert d. induction ls as [|l ls IH]; intros d Hd; simpl.
  { rewrite app_nil_r. destruct d as [r rs]; simpl. split; [by intros [= <-]|by intros [-> _]]. }
  rewrite result_bind_ok. split.
  - intros (d1 & H1 & Hr). apply delegate_exact in H1 as [-> H1]; [|done].
    apply IH in Hr as [-> Hr]; [|done]. split; [|done]. unfold extended. simpl. by rewrite <-app_assoc.
  - intros [-> Ha]. exists (extended d l).
    assert (attenuated (extended d l)) as H1.
    { destruct Ha as [Hdep Hl]. unfold attenuated, delegation_depth in *. simpl in *. rewrite !length_app in *. simpl in *.
      split; [lia|]. intros i j a b Hij Hi Hj. apply (Hl i j); [done|..].
      all: unfold links, extended in *; simpl in *.
      all: rewrite cons_middle, app_assoc, app_comm_cons; apply lookup_app_l_Some; done. }
    split; [by apply delegate_exact|]. apply IH; [done|]. unfold extended. simpl. by rewrite <-app_assoc.
Qed.

Lemma attenuated_root p : attenuated (delegation_root p).
Proof.
  split; [unfold delegation_depth; simpl; lia|].
  intros i j a b Hij Hi Hj. apply lookup_lt_Some in Hj. unfold links in Hj. simpl in Hj. lia.
Qed.

Lemma rehydrate_iff ls d : rehydrate ls = Ok d <-> ls = links d /\ attenuated d.
Proof.
  destruct ls as [|p ls]; simpl; [split; [done|by intros [? _]]|].
  rewrite delegate_all_exact by apply attenuated_root. simpl. destruct d as [r rs]. unfold links. simpl.
  split; [intros [[= -> ->] ?]; done|intros [[= -> ->] ?]; done].
Qed.

(** A chain exists exactly when every link bounds those below it.
    [rehydrate], the only door for a chain read from a credential, a peer or a
    journal, accepts a list of links exactly when it is the links of a chain no
    deeper than the limit in which no link permits a capability, outlives an
    expiry or names an audience that any link above it does not. *)
Theorem rehydrate_exact ls d : rehydrate ls = Ok d <-> ls = links d /\ attenuated d.
Proof. apply rehydrate_iff. Qed.

(** C35. A chain acts with no more than each of its links.  Whatever list of
    links was accepted, what the chain may do each link may do, extending it
    only narrows that, and it is admissible at a plane and an instant exactly
    when every link is: none has expired and none is bound elsewhere. *)
Theorem chain_authority ls d plane at_ : rehydrate ls = Ok d ->
  (forall x l, l ∈ ls -> scope_permits (effective_scope d) x = true -> scope_permits (scope l) x = true)
  /\ (admissible d plane at_ = Ok tt <->
      forall l, l ∈ ls -> (forall t, p_not_after l = Some t -> (at_ < t)%Z)
                      /\ (forall a, p_audience l = Some a -> a = plane))
  /\ (forall to d', delegate d to = Ok d' ->
      (forall x, scope_permits (effective_scope d') x = true -> scope_permits (effective_scope d) x = true)
      /\ (admissible d' plane at_ = Ok tt -> admissible d plane at_ = Ok tt)).
Proof.
  assert (forall d, attenuated d -> forall x l, l ∈ links d ->
    scope_permits (effective_scope d) x = true -> scope_permits (scope l) x = true) as Hscope.
  { intros d0 [_ Hl] x l Hin Hx. apply list_elem_of_lookup in Hin as (i & Hi).
    pose proof (lookup_lt_Some _ _ _ Hi) as Hlt. pose proof (subject_link d0) as Hs.
    destruct (decide (i = delegation_depth d0)) as [->|Hne]; [by simplify_eq|].
    unfold links in Hlt. simpl in Hlt.
    by apply (Hl i (delegation_depth d0) l (subject d0)); [unfold delegation_depth in *; lia|..]. }
  assert (forall d, attenuated d -> admissible d plane at_ = Ok tt <->
      forall l, l ∈ links d -> (forall t, p_not_after l = Some t -> (at_ < t)%Z)
                      /\ (forall a, p_audience l = Some a -> a = plane)) as Hadm.
  { intros d0 Hd0. unfold admissible. rewrite seq_ok. split.
    - intros [Ht Ha] l Hl. split.
      + intros t Hlt. destruct (not_after_le d0 l t Hl Hlt) as (m & Hm & Hle). rewrite Hm in Ht.
        rewrite ensure_ok, negb_true_iff, Z.leb_gt in Ht. lia.
      + intros a Hla. rewrite (audience_all d0 a l Hd0 Hl Hla) in Ha. by rewrite ensure_ok, bool_decide_eq_true in Ha.
    - intros Hall. split.
      + destruct (not_after d0) as [m|] eqn:Hm; [|done]. apply min_of_elem, list_elem_of_omap in Hm as (l & Hl & Hm).
        rewrite ensure_ok, negb_true_iff, Z.leb_gt. by apply (Hall l Hl).
      + destruct (audience d0) as [a|] eqn:Ha; [|done]. apply audience_link in Ha as (i & l & Hi & Ha & _).
        rewrite ensure_ok, bool_decide_eq_true. apply (Hall l); [by eapply list_elem_of_lookup_2|done]. }
  intros [-> Hd]%rehydrate_iff. split_and!; [by apply Hscope|by apply Hadm|].
  intros to d' H1. apply (delegate_exact d to d' Hd) in H1 as [-> H1].
  assert (forall l, l ∈ links d -> l ∈ links (extended d to)) as Hsub.
  { intros l Hl. change (links (extended d to)) with (links d ++ [to]). apply elem_of_app. by left. }
  split.
  - intros x. apply (Hscope (extended d to) H1). apply Hsub. eapply list_elem_of_lookup_2, subject_link.
  - rewrite !Hadm by done. auto.
Qed.

(** ** A concrete chain *)

Module IdentityWitness.
Definition ann : Principal := until (principal_new (lit "ann") (scope_of [lit "billing.*"; lit "mail.send"])) 900.
Definition agent : Principal :=
  for_audience (principal_new (lit "agent") (scope_of [lit "billing.eu.*"; lit "mail.send"])) (lit "acme").
Definition helper : Principal := until (principal_new (lit "helper") (scope_of [lit "billing.eu.refund"])) 500.
Definition chain : Delegation := mk_delegation ann [agent; helper].

(** The wildcard's boundary is a segment, and a sibling's expiry binds. *)
Example pattern_boundaries :
  contains (scope_of [lit "billing.*"]) (scope_of [lit "billing.eu.*"; lit "billing"]) = true
  /\ contains (scope_of [lit "billing.*"]) (scope_of [lit "billingx.eu"]) = false
  /\ delegate chain (principal_new (lit "peer") (scope_of [lit "billing.eu.refund"; lit "mail.*"]))
     = Err (ScopeWidened (lit "helper") (lit "peer") (lit "mail.*")).
Proof. vm_compute. done. Qed.

Lemma chain_authority_witness :
  scope_permits (scope ann) (lit "billing.eu.refund") = true
  /\ admissible chain (lit "acme") 400 = Ok tt
  /\ forall to d', delegate chain to = Ok d' ->
      (forall x, scope_permits (effective_scope d') x = true -> scope_permits (effective_scope chain) x = true)
      /\ (admissible d' (lit "acme") 400 = Ok tt -> admissible chain (lit "acme") 400 = Ok tt).
Proof.
  assert (rehydrate [ann; agent; helper] = Ok chain) as Hc by (vm_compute; reflexivity).
  refine (match chain_authority [ann; agent; helper] chain (lit "acme") 400 Hc with
          | conj Hs (conj Ha Hn) => conj (Hs (lit "billing.eu.refund") ann _ _) (conj _ Hn) end).
  - left.
  - vm_compute. reflexivity.
  - vm_compute. reflexivity.
Defined.
End IdentityWitness.
