(* ===== verification/Panel.v ===== *)
(** * Panels and assessments ([src/src/core/quorum.rs], [src/src/core/assessment.rs])

    A quorum of lenses and its tally, and the assessments people and graders
    record of a run.  A floating-point score is not modelled: the number a
    score holds is a parameter with the test the code makes of it. *)

From S2P Require Import Prelude Text.

(** ** Quorums *)

Inductive QuorumError :=
| NeedsNobody
| Unreachable (need of_ : Z)
| NotAMajority (need of_ : Z)
| RepeatedLens
| UnnamedLens
| NotALens (lens : str)
| JudgedTwice (lens : str).

Record Quorum := mk_quorum { need : Z; lenses : list str }.

(** [u32::try_from(n).unwrap_or(u32::MAX)] of a [usize]. *)
Definition u32_of (n : nat) : Z := Z.min u32_max (Z.of_nat n).

Definition quorum_new (needed : Z) (ls : list str) : result QuorumError Quorum :=
  let of_ := u32_of (length ls) in
  ensure (negb (needed =? 0)%Z) NeedsNobody ;;
  ensure (negb (of_ <? needed)%Z) (Unreachable needed of_) ;;
  ensure (negb ((1 <? of_) && (wrap_u32 (needed * 2) <=? of_))%Z) (NotAMajority needed of_) ;;
  ensure (bool_decide (size (list_to_set (C := gset str) ls) = length ls)) RepeatedLens ;;
  ensure (negb (existsb blank ls)) UnnamedLens ;;
  Ok (mk_quorum needed ls).

(** [TryFrom<DeclaredQuorum>], the serde door. *)
Definition quorum_try_from (wire : Z * list str) : result QuorumError Quorum := quorum_new wire.1 wire.2.
Definition quorum_of (q : Quorum) : Z := u32_of (length (lenses q)).

Inductive Verdict := Pass | Fail.
#[export] Instance verdict_eq_dec : EqDecision Verdict.
Proof. solve_decision. Defined.

Record Tally := mk_tally { passed : Z; failed : Z; asked : Z }.
Inductive PanelOutcome := Reached (v : Verdict) (t : Tally) | NoQuorum (t : Tally).

Definition decided (o : PanelOutcome) : option Verdict :=
  match o with Reached v _ => Some v | NoQuorum _ => None end.
Definition tally_of (o : PanelOutcome) : Tally := match o with Reached _ t => t | NoQuorum t => t end.

(** The loop over the judgements' lenses. *)
Fixpoint check_lenses (declared : list str) (seen : gset str) (js : list (str * Verdict)) : result QuorumError unit :=
  match js with
  | [] => Ok tt
  | (lens, _) :: js =>
      ensure (existsb (fun l => bool_decide (l = lens)) declared) (NotALens lens) ;;
      ensure (bool_decide (lens ∉ seen)) (JudgedTwice lens) ;;
      check_lenses declared ({[lens]} ∪ seen) js
  end.

Definition count (v : Verdict) (js : list (str * Verdict)) : nat :=
  length (filter (fun j => j.2 = v) js).

Definition tally (q : Quorum) (js : list (str * Verdict)) : result QuorumError PanelOutcome :=
  check_lenses (lenses q) ∅ js ;;
  let t := mk_tally (u32_of (count Pass js)) (u32_of (count Fail js)) (quorum_of q) in
  Ok (if (need q <=? passed t)%Z then Reached Pass t
      else if (need q <=? failed t)%Z then Reached Fail t
      else NoQuorum t).

(** ** Assessments *)

Inductive AssessmentError :=
| NotAToken (text : str)
| NotFinite
| RationaleTooLong (len max : nat).

Definition MAX_RATIONALE : nat := 4096.

Definition lower_or_digit (c : ascii) : bool :=
  let n := code c in (((97 <=? n) && (n <=? 122)) || ((48 <=? n) && (n <=? 57)))%N.
Definition token_char (c : ascii) : bool := lower_or_digit c || bool_decide (c ∈ lit "._-").

Definition token (text : str) : result AssessmentError unit :=
  let lead := match text with c :: _ => lower_or_digit c | [] => false end in
  let rest := forallb token_char (tail text) in
  if lead && rest && (length text <=? 64) then Ok tt else Err (NotAToken text).

Section assessment.
Context {Run Num Operator Timestamp : Type} `{EqDecision Operator}.
Context (is_finite : Num -> bool).

Inductive Score := SPass (b : bool) | SNumber (n : Num) | SLabel (l : str).

Record Assessment := mk_assessment {
  a_of : Run;
  a_name : str;
  a_value : Score;
  a_by : Operator;
  a_at : Timestamp;
  a_rationale : option str;
}.

Definition assessment_new (of_ : Run) (name : str) (value : Score) (by_ : Operator) (at_ : Timestamp)
    (rationale : option str) : result AssessmentError Assessment :=
  token name ;;
  (match value with
   | SLabel l => token l
   | SNumber n => ensure (is_finite n) NotFinite
   | SPass _ => Ok tt
   end) ;;
  (match rationale with
   | Some text => ensure (length text <=? MAX_RATIONALE) (RationaleTooLong (length text) MAX_RATIONALE)
   | None => Ok tt
   end) ;;
  Ok (mk_assessment of_ name value by_ at_ (text ← rationale; if blank text then None else Some text)).

(** One step of the loop of [Assessments::current]: in place, or at the end. *)
Fixpoint stand (standing : list Assessment) (a : Assessment) : list Assessment :=
  match standing with
  | [] => [a]
  | held :: rest =>
      if decide (a_by held = a_by a /\ a_name held = a_name a) then a :: rest else held :: stand rest a
  end.
Definition current (history : list Assessment) : list Assessment := foldl stand [] history.
End assessment.
Arguments Score : clear implicits.
Arguments Assessment : clear implicits.

(** ** A decision is a majority's *)

Lemma wrap_double n of_ : (0 <= n <= u32_max)%Z -> (of_ < wrap_u32 (n * 2))%Z -> (of_ < n * 2)%Z.
Proof.
  intros Hn Hw. eapply Z.lt_le_trans; [exact Hw|]. unfold wrap_u32. apply Z.mod_le; unfold u32_max in *; lia.
Qed.

(** [BTreeSet::len() == Vec::len()]. *)
Lemma distinct_NoDup (ls : list str) : size (list_to_set (C := gset str) ls) = length ls -> NoDup ls.
Proof.
  assert (forall ls : list str, size (list_to_set (C := gset str) ls) <= length ls) as Hle.
  { clear. intros ls. induction ls as [|l ls IH]; [done|].
    rewrite list_to_set_cons, size_union_alt, size_singleton. simpl.
    assert (size (list_to_set (C := gset str) ls ∖ {[l]}) <= size (list_to_set (C := gset str) ls)); [|lia].
    apply subseteq_size. set_solver. }
  induction ls as [|l ls IH]; [constructor|]. rewrite list_to_set_cons. simpl. intros Hdup.
  destruct (decide (l ∈ ls)) as [Hl|Hl].
  { replace ({[l]} ∪ list_to_set ls) with (list_to_set (C := gset str) ls) in Hdup by set_solver.
    specialize (Hle ls). lia. }
  rewrite size_union in Hdup by set_solver. rewrite size_singleton in Hdup.
  constructor; [done|]. apply IH. lia.
Qed.

Lemma quorum_new_Ok n ls q : (0 <= n <= u32_max)%Z -> quorum_new n ls = Ok q ->
  q = mk_quorum n ls /\ (1 <= n <= Z.of_nat (length ls))%Z /\ NoDup ls
  /\ (1 < length ls -> (u32_of (length ls) < n * 2)%Z).
Proof.
  intros Hn. unfold quorum_new. rewrite !seq_ok, !ensure_ok, !negb_true_iff.
  intros (H0 & Hof & Hm & Hdup & _ & [= <-]).
  apply Z.eqb_neq in H0. apply Z.ltb_ge in Hof. apply bool_decide_eq_true in Hdup.
  split_and!; [done|lia|unfold u32_of in Hof; lia| |].
  - by apply distinct_NoDup.
  - intros Hlen. apply wrap_double; [done|]. apply andb_false_iff in Hm as [Hm|Hm].
    + apply Z.ltb_ge in Hm. unfold u32_of, u32_max in Hm. lia.
    + by apply Z.leb_gt in Hm.
Qed.

Lemma check_lenses_Ok declared seen js :
  check_lenses declared seen js = Ok tt
  <-> js.*1 ⊆ declared /\ NoDup js.*1 /\ forall l, l ∈ js.*1 -> l ∉ seen.
Proof.
  revert seen. induction js as [|[l v] js IH]; intros seen; simpl.
  { split; [|done]. intros _. split_and!; [set_solver|constructor|set_solver]. }
  rewrite !seq_ok, !ensure_ok, bool_decide_eq_true, IH, NoDup_cons.
  assert (existsb (fun x => bool_decide (x = l)) declared = true <-> l ∈ declared) as ->.
  { rewrite existsb_exists. setoid_rewrite <-list_elem_of_In. setoid_rewrite bool_decide_eq_true. naive_solver. }
  set_solver.
Qed.

Lemma tally_Ok q js o :
  tally q js = Ok o <->
  check_lenses (lenses q) ∅ js = Ok tt /\
  o = let t := mk_tally (u32_of (count Pass js)) (u32_of (count Fail js)) (quorum_of q) in
      if (need q <=? passed t)%Z then Reached Pass t
      else if (need q <=? failed t)%Z then Reached Fail t else NoQuorum t.
Proof. unfold tally. rewrite seq_ok. naive_solver. Qed.

Lemma count_split js : count Pass js + count Fail js = length js.
Proof.
  unfold count. induction js as [|[l v] js IH]; [done|]. rewrite !filter_cons. destruct v; simpl; lia.
Qed.

(** The judgements of a tally that was accepted are at most one per lens. *)
Lemma judged_le q js : NoDup (lenses q) -> check_lenses (lenses q) ∅ js = Ok tt -> length js <= length (lenses q).
Proof.
  intros Hnd (Hsub & Hdup & _)%check_lenses_Ok. rewrite <-(length_fmap fst js).
  apply submseteq_length. by apply NoDup_submseteq.
Qed.

Lemma decided_iff n ls q js o v :
  (0 <= n <= u32_max)%Z -> (Z.of_nat (length ls) <= u32_max)%Z -> quorum_new n ls = Ok q -> tally q js = Ok o ->
  decided o = Some v <-> (n <= Z.of_nat (count v js))%Z.
Proof.
  intros Hn Hlen (-> & Hneed & Hnd & Hmaj)%quorum_new_Ok [Hc ->]%tally_Ok; [|done]. simpl in *.
  pose proof (judged_le (mk_quorum n ls) js Hnd Hc) as Hle. simpl in Hle. pose proof (count_split js) as Hsum.
  assert (1 < length ls -> (Z.of_nat (length ls) < n * 2)%Z) as Hmaj'.
  { intros Hl. specialize (Hmaj ltac:(lia)). unfold u32_of in Hmaj. lia. }
  assert (forall w, u32_of (count w js) = Z.of_nat (count w js)) as Hu.
  { intros w. unfold u32_of. destruct w; lia. }
  rewrite !Hu. destruct (Z.leb_spec n (Z.of_nat (count Pass js))) as [Hp|Hp];
    [|destruct (Z.leb_spec n (Z.of_nat (count Fail js))) as [Hf|Hf]]; simpl; destruct v; split; try done; try lia.
Qed.

#[export] Instance count_perm v : Proper ((≡ₚ) ==> eq) (count v).
Proof. intros js js' Hp. unfold count. by rewrite Hp. Qed.

(** A panel decides only by a majority, and a decision stands.  For a
    quorum the constructor accepted, a tally decides for a side exactly when
    that side reached the declared need, which is then more than half of all
    the declared lenses, missing judgements included; so both sides can never
    have reached it, the order of the judgements never matters, and no further
    judgement overturns a decision. *)
Theorem majority_decides n ls q js o :
  (0 <= n <= u32_max)%Z -> (Z.of_nat (length ls) <= u32_max)%Z -> quorum_new n ls = Ok q -> tally q js = Ok o ->
  (forall v, decided o = Some v <-> (n <= Z.of_nat (count v js))%Z)
  /\ (forall v, decided o = Some v -> length ls < 2 * count v js)
  /\ (forall js', js' ≡ₚ js -> tally q js' = Ok o)
  /\ (forall more o' v, tally q (js ++ more) = Ok o' -> decided o = Some v -> decided o' = Some v).
Proof.
  intros Hn Hlen Hq Ht. pose proof (fun v => decided_iff n ls q js o v Hn Hlen Hq Ht) as Hd.
  pose proof (quorum_new_Ok n ls q Hn Hq) as (Hqe & Hneed & Hnd & Hmaj). split_and!; [exact Hd| | |].
  - intros v Hv. apply Hd in Hv. destruct (decide (1 < length ls)) as [Hl|Hl]; [|lia].
    specialize (Hmaj Hl). unfold u32_of in Hmaj. lia.
  - intros js' Hp. apply tally_Ok in Ht as [Hc ->]. apply tally_Ok. rewrite !(count_perm _ _ _ Hp). split; [|done].
    apply check_lenses_Ok in Hc as (Hsub & Hdup & Hnew). apply check_lenses_Ok. rewrite !Hp. split_and!; [done..|].
    intros l. rewrite Hp. apply Hnew.
  - intros more o' v Ht' Hv. apply (decided_iff n ls q (js ++ more) o' v Hn Hlen Hq Ht'). apply Hd in Hv.
    unfold count in *. rewrite filter_app, length_app. lia.
Qed.

(** ** The standing assessments *)

Section current.
Context {Run Num Operator Timestamp : Type} `{EqDecision Operator}.
Abbreviation Assessment := (Assessment Run Num Operator Timestamp).

(** Who assessed what. *)
Definition a_key (a : Assessment) : Operator * str := (a_by a, a_name a).
(** Keys in the order they first appear. *)
Definition first_keys (ks : list (Operator * str)) : list (Operator * str) :=
  foldl (fun ks k => if decide (k ∈ ks) then ks else ks ++ [k]) [] ks.

Lemma stand_spec (l : list Assessment) a :
  a_key <$> stand l a = (if decide (a_key a ∈ a_key <$> l) then a_key <$> l else (a_key <$> l) ++ [a_key a])
  /\ (NoDup (a_key <$> l) -> forall b, b ∈ stand l a <-> b = a \/ (b ∈ l /\ a_key b <> a_key a)).
Proof.
  induction l as [|h l [IHk IHe]]; cbn [stand fmap list_fmap].
  { split; [by rewrite decide_False by apply not_elem_of_nil|]. intros _ b.
    rewrite list_elem_of_singleton, elem_of_nil. tauto. }
  destruct (decide (a_by h = a_by a /\ a_name h = a_name a)) as [[Hb Hnm]|Hne].
  - assert (a_key h = a_key a) as Hk by (unfold a_key; congruence). split.
    + cbn [fmap list_fmap]. rewrite Hk, decide_True by left. done.
    + intros [Hh _]%NoDup_cons b. rewrite !elem_of_cons. split.
      * intros [->|Hin]; [by left|]. right. split; [by right|]. intros Heq. apply Hh. rewrite Hk, <-Heq.
        by apply list_elem_of_fmap_2.
      * intros [->|[[->|Hin] Hbk]]; [by left|done|by right].
  - assert (a_key h <> a_key a) as Hk by (unfold a_key; intros [= ? ?]; tauto). split.
    + cbn [fmap list_fmap]. rewrite IHk. destruct (decide (a_key a ∈ a_key <$> l)) as [Hin|Hin].
      * by rewrite decide_True by by right.
      * rewrite decide_False; [done|]. by intros [?|?]%elem_of_cons.
    + intros [Hh Hnd]%NoDup_cons b. rewrite !elem_of_cons, (IHe Hnd b). naive_solver.
Qed.

(** What stands is each assessor's last word.  [current] keeps one
    assessment per assessor and metric, in the order those first appear in the
    history, and it is the last one of the history. *)
Theorem current_spec (history : list Assessment) :
  a_key <$> current history = first_keys (a_key <$> history)
  /\ NoDup (a_key <$> current history)
  /\ forall a, a ∈ current history <-> last (filter (fun b => a_key b = a_key a) history) = Some a.
Proof.
  unfold current. induction history as [|a h (IHk & IHn & IHe)] using rev_ind.
  { split_and!; [done|constructor|]. intros a. simpl. by rewrite elem_of_nil. }
  rewrite foldl_app, fmap_app. cbn [foldl fmap list_fmap].
  destruct (stand_spec (foldl stand [] h) a) as [Hk He]. specialize (He IHn). split_and!.
  - rewrite Hk, IHk. unfold first_keys. by rewrite foldl_app.
  - rewrite Hk. case_decide as Hd; [done|]. apply NoDup_app. split_and!; [done| |apply NoDup_singleton].
    intros k Hkin ->%list_elem_of_singleton. by rewrite <-IHk in Hkin || done.
  - intros b. rewrite He, filter_app, filter_cons, filter_nil.
    destruct (decide (a_key a = a_key b)) as [Hab|Hab].
    + rewrite last_snoc. split; [intros [->|[_ Hne]]; [done|congruence]|]. intros [= ->]. by left.
    + rewrite app_nil_r, <-IHe. split; [intros [->|[Hin _]]; [done|done]|]. intros Hin. right. split; [done|congruence].
Qed.
End current.

(** ** Concrete panels *)

Module PanelWitness.
Definition three : list str := [lit "correctness"; lit "policy"; lit "arithmetic"].
Definition judged : list (str * Verdict) := [(lit "policy", Pass); (lit "correctness", Pass)].

Lemma majority_decides_witness :
  decided (Reached Pass (mk_tally 2 0 3)) = Some Pass /\ length three < 2 * count Pass judged.
Proof.
  pose proof (majority_decides 2 three (mk_quorum 2 three) judged (Reached Pass (mk_tally 2 0 3))
    ltac:(unfold u32_max; lia) ltac:(by vm_compute) ltac:(vm_compute; reflexivity) ltac:(vm_compute; reflexivity))
    as (_ & Hmaj & _).
  split; [reflexivity|]. by apply Hmaj.
Defined.

(** One of two is any judge deciding alone; a silent judge is not outvoted. *)
Example half_is_no_majority :
  quorum_new 1 [lit "a"; lit "b"] = Err (NotAMajority 1 2)
  /\ quorum_new 2 (lit " " :: three) = Err (NotAMajority 2 4)
  /\ tally (mk_quorum 3 three) judged = Ok (NoQuorum (mk_tally 2 0 3)).
Proof. vm_compute. done. Qed.
End PanelWitness.
