(* ===== verification/Tainted.v ===== *)
(** * Labelled values ([src/src/core/label.rs], [Tainted])

    A value with its whole-value label, its field labels by JSON Pointer and
    its destination-scoped release marks; the operations that build, reshape,
    project and release one; and the effective label a sink sees.

    [serde_json::Value] is third-party, so the JSON value type is a class of
    operations ([JsonOps]) with the documented behaviour of
    [Value::pointer] and of map assembly as laws ([JsonLaws]); [JsonModel]
    instantiates both with a concrete tree. *)

From stdpp Require Import pretty.
From S2P Require Import Prelude Label.

Class JsonOps (V : Type) := {
  json_pointer : V -> str -> option V;
  (** successive [Map::insert]s of a fresh map *)
  json_object : list (str * V) -> V;
  json_array : list V -> V;
}.

Class JsonLaws (V : Type) `{JsonOps V} : Prop := {
  pointer_root (v : V) : json_pointer v [] = Some v;
  pointer_absolute (v w : V) p :
    json_pointer v p = Some w -> p = [] \/ starts_with slash p = true;
  pointer_step (v : V) p q : starts_with slash q = true ->
    json_pointer v (p ++ q) = (w ← json_pointer v p; json_pointer w q);
  pointer_member (kvs : list (str * V)) n v : NoDup kvs.*1 -> (n, v) ∈ kvs ->
    json_pointer (json_object kvs) (slash :: pointer_token n) = Some v;
}.

(** ** Release marks *)

Record ReleaseMark := mk_mark {
  mark_destination : str;
  mark_field : str;
  mark_scope : ReleaseScope;
  mark_basis : str;
}.

#[export] Instance mark_eq_dec : EqDecision ReleaseMark.
Proof. solve_decision. Defined.
#[export] Instance mark_countable : Countable ReleaseMark :=
  inj_countable'
    (fun m => (mark_destination m, mark_field m,
               (scope_trust (mark_scope m), scope_sensitivity (mark_scope m)), mark_basis m))
    (fun '(d, f, (t, x), b) => mk_mark d f (mk_scope t x) b)
    ltac:(by intros [? ? [] ?]).

(** The derived [Ord] of a mark: field by field, in declaration order. *)
Definition option_cmp {A} (cmp : A -> A -> comparison) (x y : option A) : comparison :=
  match x, y with
  | None, None => Eq
  | None, Some _ => Lt
  | Some _, None => Gt
  | Some a, Some b => cmp a b
  end.
Definition bool_cmp (a b : bool) : comparison :=
  match a, b with false, true => Lt | true, false => Gt | _, _ => Eq end.
Definition mark_cmp (a b : ReleaseMark) : comparison :=
  then_cmp (str_cmp (mark_destination a) (mark_destination b))
  (then_cmp (str_cmp (mark_field a) (mark_field b))
  (then_cmp (bool_cmp (scope_trust (mark_scope a)) (scope_trust (mark_scope b)))
  (then_cmp (option_cmp (fun x y => Nat.compare (sens_rank x) (sens_rank y))
               (scope_sensitivity (mark_scope a)) (scope_sensitivity (mark_scope b)))
     (str_cmp (mark_basis a) (mark_basis b))))).
Definition iter_marks (X : gset ReleaseMark) : list ReleaseMark := iter_by mark_cmp X.

(** [ReleaseMark::of] *)
Definition mark_of (r : Release) (field : str) : ReleaseMark :=
  mk_mark (destination r) field (rel_scope r) (basis r).

Definition with_field (m : ReleaseMark) (f : str) : ReleaseMark :=
  mk_mark (mark_destination m) f (mark_scope m) (mark_basis m).

Definition covers (m : ReleaseMark) (path : str) : bool :=
  bool_decide (mark_field m = [])
  || bool_decide (path = mark_field m)
  || match strip_prefix (mark_field m) path with
     | Some rest => starts_with slash rest
     | None => false
     end.

Definition rebased (prefix : str) (m : ReleaseMark) : ReleaseMark :=
  with_field m (prefix ++ mark_field m).

Definition projected (pointer : str) (m : ReleaseMark) : option ReleaseMark :=
  if covers m pointer then Some (with_field m [])
  else rest ← strip_prefix pointer (mark_field m);
       if starts_with slash rest then Some (with_field m rest) else None.

(** ** Tainted values *)

Record Tainted (T : Type) := mk_tainted {
  value : T;
  label : Label;
  fields : gmap str Label;
  releases : gset ReleaseMark;
}.
Arguments mk_tainted {T}.
Arguments value {T}.
Arguments label {T}.
Arguments fields {T}.
Arguments releases {T}.

Section generic.
Context {T : Type}.

Definition tainted_trusted (v : T) : Tainted T := mk_tainted v trusted ∅ ∅.
Definition from_source (v : T) (source : str) : Tainted T := mk_tainted v (untrusted source) ∅ ∅.
Definition with_label (v : T) (l : Label) : Tainted T := mk_tainted v l ∅ ∅.

Definition with_joined_label (t : Tainted T) (other : Label) : Tainted T :=
  mk_tainted (value t) (join (label t) other) (fields t) ∅.

Definition raised_to (t : Tainted T) (x : Sensitivity) : Tainted T :=
  let raise l := with_sensitivity l (sens_max (sensitivity l) x) in
  mk_tainted (value t) (raise (label t)) (raise <$> fields t) ∅.

Definition attributed (t : Tainted T) (subjects : gset SubjectRef) : Tainted T :=
  if decide (subjects = ∅) then t
  else
    let extend l := mk_label (provenance l) (trust l) (sensitivity l) (data_subjects l ∪ subjects) in
    mk_tainted (value t) (extend (label t)) (extend <$> fields t) (releases t).

Definition tainted_map {U} (f : T -> U) (t : Tainted T) : Tainted U :=
  mk_tainted (f (value t)) (label t) ∅ (filter (fun m => mark_field m = []) (releases t)).

Definition tainted_zip {U} (a : Tainted T) (b : Tainted U) : Tainted (T * U) :=
  mk_tainted (value a, value b) (join (label a) (label b)) ∅ ∅.

(** [apply_release_scope] *)
Definition apply_release_scope (l : Label) (sc : ReleaseScope) : Label :=
  let t := if scope_trust sc then Trusted else trust l in
  let x := match scope_sensitivity sc with
           | Some target => sens_min (sensitivity l) target
           | None => sensitivity l
           end in
  mk_label (provenance l) t x (data_subjects l).

(** [improved]: the loop over the mark set. *)
Definition improve_step (destination path : str) (effective : Label) (m : ReleaseMark) : Label :=
  if bool_decide (mark_destination m = destination) && covers m path
  then apply_release_scope effective (mark_scope m) else effective.
Definition improved (base : Label) (marks : gset ReleaseMark) (destination path : str) : Label :=
  foldl (improve_step destination path) base (iter_marks marks).

Definition effective_label (t : Tainted T) (destination : str) : Label :=
  improved (label t) (releases t) destination [].
End generic.

Section json.
Context {V : Type} `{JsonOps V}.

Definition field_base (name : str) : str := slash :: pointer_token name.

(** One turn of the assembly loops of [object] and [array]. *)
Definition assemble_label (acc : Label) (x : Tainted V) : Label := join acc (label x).
Definition assemble_fields (acc : gmap str Label) (base : str) (x : Tainted V) : gmap str Label :=
  rekey (fun k => Some (base ++ k)) (fields x) ∪ <[base := label x]> acc.
Definition assemble_releases (acc : gset ReleaseMark) (base : str) (x : Tainted V) : gset ReleaseMark :=
  acc ∪ set_map (rebased base) (releases x).

Definition object (xs : list (str * Tainted V)) : Tainted V :=
  mk_tainted
    (json_object ((fun nx => (nx.1, value nx.2)) <$> xs))
    (foldl (fun acc nx => assemble_label acc nx.2) trusted xs)
    (foldl (fun acc nx => assemble_fields acc (field_base nx.1) nx.2) ∅ xs)
    (foldl (fun acc nx => assemble_releases acc (field_base nx.1) nx.2) ∅ xs).

(** [format!("/{index}")] *)
Definition index_base (i : nat) : str := slash :: lit (pretty i).

Definition array (xs : list (Tainted V)) : Tainted V :=
  let ixs := zip (seq 0 (length xs)) xs in
  mk_tainted
    (json_array (value <$> xs))
    (foldl assemble_label trusted xs)
    (foldl (fun acc ix => assemble_fields acc (index_base ix.1) ix.2) ∅ ixs)
    (foldl (fun acc ix => assemble_releases acc (index_base ix.1) ix.2) ∅ ixs).

(** The walk of [label_at] to the nearest labelled ancestor; each turn cuts
    the candidate at its last slash, so its length is fuel enough. *)
Fixpoint ancestor_label (fuel : nat) (fs : gmap str Label) (whole : Label) (candidate : str) : Label :=
  match fs !! candidate with
  | Some l => l
  | None => match rfind slash candidate with
            | None => whole
            | Some O => whole
            | Some split => match fuel with
                            | O => whole
                            | S fuel => ancestor_label fuel fs whole (take split candidate)
                            end
            end
  end.

Definition label_at (t : Tainted V) (path : str) : option Label :=
  _ ← json_pointer (value t) path;
  if decide (path = []) then Some (label t)
  else Some (ancestor_label (length path) (fields t) (label t) path).

Definition with_field_labels (v : V) (l : Label) (fs : gmap str Label) : Tainted V :=
  mk_tainted v l fs ∅.

Definition project_pointer (t : Tainted V) (pointer : str) : option (Tainted V) :=
  if decide (pointer = []) then Some t
  else
    v ← json_pointer (value t) pointer;
    l ← label_at t pointer;
    Some (mk_tainted v l
      (rekey (fun path => relative ← strip_prefix (pointer ++ [slash]) path; Some (slash :: relative))
         (fields t))
      (set_filter_map (projected pointer) (releases t))).
Definition project_field (t : Tainted V) (name : str) : option (Tainted V) :=
  project_pointer t (field_base name).

Definition apply_release (t : Tainted V) (r : Release) : option (Tainted V) :=
  if is_whole_value r
  then Some (mk_tainted (value t) (label t) (fields t) ({[mark_of r []]} ∪ releases t))
  else if existsb (fun path => bool_decide (fields t !! path = None)
                               || match json_pointer (value t) path with None => true | Some _ => false end)
            (elements (rel_fields r))
  then None
  else Some (mk_tainted (value t) (label t) (fields t)
               (foldl (fun acc f => {[mark_of r f]} ∪ acc) (releases t) (elements (rel_fields r)))).

Definition effective_label_at (t : Tainted V) (destination path : str) : option Label :=
  base ← label_at t path;
  Some (improved base (releases t) destination path).
End json.

(** ** Well-formed values

    Every tracked pointer, and every mark's field, is absolute. *)

Definition absolute (p : str) : Prop := starts_with slash p = true.

Record tainted_wf {T} (t : Tainted T) : Prop := {
  wf_fields p : is_Some (fields t !! p) -> absolute p;
  wf_marks m : m ∈ releases t -> mark_field m = [] \/ absolute (mark_field m);
}.

(** ** Marks and pointers *)

Lemma covers_spec m p : covers m p = true <->
  mark_field m = [] \/ exists r, p = mark_field m ++ r /\ (r = [] \/ absolute r).
Proof.
  unfold covers. rewrite !orb_true_iff, !bool_decide_eq_true. split.
  - intros [[?| ->]|Hs]; [by left|right; exists []; rewrite app_nil_r; auto|].
    destruct (strip_prefix (mark_field m) p) as [r|] eqn:E; [|done].
    apply strip_prefix_Some in E. right. exists r. auto.
  - intros [->|(r & -> & [->|Hr])]; [left; by left|left; right; by rewrite app_nil_r|].
    right. by rewrite strip_prefix_app.
Qed.

(** Two cuts of one string: one prefix extends the other. *)
Lemma app_split (a b c d : str) : a ++ b = c ++ d ->
  (exists e, c = a ++ e /\ b = e ++ d) \/ (exists e, a = c ++ e /\ d = e ++ b).
Proof.
  intros Heq. apply app_eq_inv in Heq as [(e & -> & ->)|(e & -> & ->)];
    [right|left]; by exists e.
Qed.

Lemma absolute_app p q : p <> [] -> absolute (p ++ q) -> absolute p.
Proof. destruct p; [done|]. done. Qed.

(** The mark seen from the value at [pointer] covers exactly what the mark
    covers below it. *)
Lemma projected_covers m pointer q :
  pointer <> [] -> (q = [] \/ absolute q) ->
  covers m (pointer ++ q) = true <->
    exists m', projected pointer m = Some m' /\ covers m' q = true.
Proof.
  intros Hp Hq. unfold projected. destruct (covers m pointer) eqn:Hc.
  - split; [intros _; by exists (with_field m [])|]. intros _.
    apply covers_spec in Hc as [Hf|(r & -> & Hr)]; apply covers_spec; [by left|right].
    exists (r ++ q). rewrite app_assoc. split; [done|].
    destruct Hr as [->|Hr]; [done|]. right. unfold absolute in *. by apply starts_with_app.
  - assert (mark_field m <> []) as Hf.
    { intros Hf. assert (covers m pointer = true) by (apply covers_spec; by left). congruence. }
    split.
    + intros Hcov. apply covers_spec in Hcov as [?|(r & Heq & Hr)]; [done|].
      apply app_split in Heq as [(e & Hm & Hqe)|(e & Hm & Hqe)].
      * assert (absolute e) as He.
        { destruct (decide (e = [])) as [->|Hne].
          - exfalso. rewrite app_nil_r in Hm.
            assert (covers m pointer = true); [|congruence]. apply covers_spec. right. exists [].
            rewrite app_nil_r. auto.
          - destruct Hq as [->|Hq]; [by destruct e|]. rewrite Hqe in Hq. by eapply absolute_app. }
        rewrite Hm, strip_prefix_app. simpl. rewrite He. eexists. split; [done|].
        apply covers_spec. right. by exists r.
      * exfalso. assert (covers m pointer = true); [|congruence]. apply covers_spec. right.
        exists e. split; [done|]. destruct (decide (e = [])) as [->|Hne]; [by left|right].
        destruct Hr as [->|Hr]; [by destruct e|]. rewrite Hqe in Hr. by eapply absolute_app.
    + intros (m' & Hpr & Hcov). destruct (strip_prefix pointer (mark_field m)) as [rest|] eqn:Es;
        [|done]. apply strip_prefix_Some in Es. simpl in Hpr. case_match; [|done]. simplify_eq.
      apply covers_spec in Hcov as [Hnil|(r & -> & Hr)]; simpl in *.
      * subst rest. done.
      * apply covers_spec. right. exists r. by rewrite Es, app_assoc.
Qed.

Lemma projected_scope m pointer m' : projected pointer m = Some m' ->
  mark_destination m' = mark_destination m /\ mark_scope m' = mark_scope m.
Proof.
  unfold projected. case_match; [by intros [= <-]|].
  destruct (strip_prefix _ _); simpl; [|done]. case_match; [|done]. by intros [= <-].
Qed.

(** ** What the mark loop computes *)

Section improved.

Lemma improve_step_spec d p l m :
  provenance (improve_step d p l m) = provenance l
  /\ data_subjects (improve_step d p l m) = data_subjects l
  /\ (trust (improve_step d p l m) = Trusted <->
        trust l = Trusted
        \/ (mark_destination m = d /\ covers m p = true /\ scope_trust (mark_scope m) = true))
  /\ (forall x, x ⊑ sensitivity (improve_step d p l m) <->
        x ⊑ sensitivity l
        /\ (forall t, mark_destination m = d -> covers m p = true ->
              scope_sensitivity (mark_scope m) = Some t -> x ⊑ t)).
Proof.
  unfold improve_step, apply_release_scope.
  destruct (bool_decide (mark_destination m = d) && covers m p) eqn:E.
  - apply andb_true_iff in E as [Ed Ec]. apply bool_decide_eq_true in Ed. simpl. split_and!; try done.
    + destruct (scope_trust (mark_scope m)); naive_solver.
    + intros x. destruct (scope_sensitivity (mark_scope m)) as [t|].
      * rewrite sens_min_le. naive_solver.
      * naive_solver.
  - assert (~ (mark_destination m = d /\ covers m p = true)) as Hn.
    { intros [Hd Hc]. rewrite Hc, bool_decide_true in E; done. }
    split_and!; [done..|naive_solver|naive_solver].
Qed.

(** The loop over a list of marks, in closed form. *)
Lemma improve_fold_spec d p ms l :
  let l' := foldl (improve_step d p) l ms in
  provenance l' = provenance l /\ data_subjects l' = data_subjects l
  /\ (trust l' = Trusted <->
        trust l = Trusted
        \/ exists m, m ∈ ms /\ mark_destination m = d /\ covers m p = true
                     /\ scope_trust (mark_scope m) = true)
  /\ (forall x, x ⊑ sensitivity l' <->
        x ⊑ sensitivity l
        /\ (forall m t, m ∈ ms -> mark_destination m = d -> covers m p = true ->
              scope_sensitivity (mark_scope m) = Some t -> x ⊑ t)).
Proof.
  revert l. induction ms as [|m ms IH]; intros l; simpl.
  { split_and!; try done; [|intros x]; set_solver. }
  destruct (IH (improve_step d p l m)) as (-> & -> & IHt & IHs).
  destruct (improve_step_spec d p l m) as (-> & -> & Ht & Hs).
  split_and!; [done..| |].
  - rewrite IHt, Ht. setoid_rewrite elem_of_cons. clear. split.
    + intros [[?|(? & ? & ?)]|(m' & ? & ?)]; [by left|right; exists m; auto|right; exists m'; auto].
    + intros [?|(m' & [->|?] & ?)]; [auto|auto|right; by exists m'].
  - intros x. rewrite IHs, Hs. setoid_rewrite elem_of_cons. naive_solver.
Qed.

Lemma improved_spec base marks d p :
  let l := improved base marks d p in
  provenance l = provenance base /\ data_subjects l = data_subjects base
  /\ (trust l = Trusted <->
        trust base = Trusted
        \/ exists m, m ∈ marks /\ mark_destination m = d /\ covers m p = true
                     /\ scope_trust (mark_scope m) = true)
  /\ (forall x, x ⊑ sensitivity l <->
        x ⊑ sensitivity base
        /\ (forall m t, m ∈ marks -> mark_destination m = d -> covers m p = true ->
              scope_sensitivity (mark_scope m) = Some t -> x ⊑ t)).
Proof.
  cbv zeta. unfold improved.
  destruct (improve_fold_spec d p (iter_marks marks) base) as (? & ? & Ht & Hs).
  split_and!; [done..| |].
  - rewrite Ht. by setoid_rewrite elem_of_iter_by.
  - intros x. rewrite Hs. by setoid_rewrite elem_of_iter_by.
Qed.

(** Two mark sets with the same active scopes improve a label alike: neither
    the order of the set nor a mark's basis matters. *)
Definition active (marks : gset ReleaseMark) (d p : str) (sc : ReleaseScope) : Prop :=
  exists m, m ∈ marks /\ mark_destination m = d /\ covers m p = true /\ mark_scope m = sc.

Lemma improved_ext base marks marks' d p p' :
  (forall sc, active marks d p sc <-> active marks' d p' sc) ->
  improved base marks d p = improved base marks' d p'.
Proof.
  intros Hact. destruct (improved_spec base marks d p) as (Hp & Hd & Ht & Hs).
  destruct (improved_spec base marks' d p') as (Hp' & Hd' & Ht' & Hs').
  apply label_eq; [congruence| | |congruence].
  - assert (trust (improved base marks d p) = Trusted <-> trust (improved base marks' d p') = Trusted)
      as Hiff.
    { rewrite Ht, Ht'. split; (intros [?|(m & Hm)]; [by left|right]).
      - destruct Hm as (? & ? & ? & Hsc). destruct (proj1 (Hact (mark_scope m))) as (m' & ? & ? & ? & E).
        { by exists m. } exists m'. rewrite E. auto.
      - destruct Hm as (? & ? & ? & Hsc). destruct (proj2 (Hact (mark_scope m))) as (m' & ? & ? & ? & E).
        { by exists m. } exists m'. rewrite E. auto. }
    destruct (trust (improved base marks d p)), (trust (improved base marks' d p')); naive_solver.
  - apply sens_le_antisymm. intros x. rewrite Hs, Hs'.
    split; intros [Hb Hm]; (split; [done|]); intros m t Hin Hmd Hmc Hsc.
    + destruct (proj2 (Hact (mark_scope m))) as (m' & ? & ? & ? & E); [by exists m|].
      apply (Hm m' t); congruence.
    + destruct (proj1 (Hact (mark_scope m))) as (m' & ? & ? & ? & E); [by exists m|].
      apply (Hm m' t); congruence.
Qed.

Lemma improved_none base marks d p :
  (forall m, m ∈ marks -> mark_destination m = d -> covers m p = true -> False) ->
  improved base marks d p = base.
Proof.
  intros Hn. rewrite (improved_ext base marks ∅ d p p); [done|].
  intros sc. split; intros (m & Hin & Hd & Hc & _); [by destruct (Hn m)|set_solver].
Qed.
End improved.

(** ** Looking labels up *)

Section lookup.
Context {V : Type} `{JsonLaws V}.
Implicit Types t : Tainted V.

Lemma ancestor_fuel fs whole n n' c : length c <= n -> length c <= n' ->
  ancestor_label n fs whole c = ancestor_label n' fs whole c.
Proof.
  revert n' c. induction n as [|n IH]; intros [|n'] c Hn Hn'.
  - done.
  - assert (c = []) as -> by (by apply nil_length_inv; lia). done.
  - assert (c = []) as -> by (by apply nil_length_inv; lia). done.
  - simpl. destruct (fs !! c); [done|]. destruct (rfind slash c) as [[|i]|] eqn:E; [done| |done].
    apply rfind_Some_lt in E. apply IH; rewrite length_take; lia.
Qed.

(** The label found walking up from [path]. *)
Definition walk (t : Tainted V) (path : str) : Label :=
  ancestor_label (length path) (fields t) (label t) path.

Lemma walk_step t path : walk t path =
  match fields t !! path with
  | Some l => l
  | None => match rfind slash path with
            | Some (S i) => walk t (take (S i) path)
            | _ => label t
            end
  end.
Proof.
  unfold walk. destruct path as [|c path]; [simpl; by destruct (fields t !! [])|].
  cbn [length ancestor_label]. destruct (fields t !! (c :: path)); [done|].
  destruct (rfind slash (c :: path)) as [[|i]|] eqn:E; [done| |done].
  pose proof (rfind_Some_lt _ _ _ E). apply ancestor_fuel; rewrite length_take; simpl in *; lia.
Qed.

Lemma label_at_walk t path : path <> [] ->
  label_at t path = (_ ← json_pointer (value t) path; Some (walk t path)).
Proof.
  intros Hp. unfold label_at. destruct (json_pointer (value t) path); simpl; [|done].
  by rewrite decide_False.
Qed.

Lemma label_at_root t : label_at t [] = Some (label t).
Proof. unfold label_at. by rewrite pointer_root. Qed.

Definition below (pointer path : str) : option str :=
  relative ← strip_prefix (pointer ++ [slash]) path; Some (slash :: relative).

Lemma below_Some pointer path k : below pointer path = Some k <-> absolute k /\ path = pointer ++ k.
Proof.
  unfold below. destruct (strip_prefix (pointer ++ [slash]) path) as [r|] eqn:E; simpl.
  - apply strip_prefix_Some in E as ->. rewrite <-app_assoc. simpl. split.
    + intros [= <-]. done.
    + intros [Hk Heq]. apply app_inv_head in Heq. by subst.
  - rewrite strip_prefix_None in E. split; [done|]. intros [Hk ->].
    apply starts_with_spec in Hk as (r & ->). exfalso. apply (E r). by rewrite <-app_assoc.
Qed.

Lemma below_inj pointer a b c : below pointer a = Some c -> below pointer b = Some c -> a = b.
Proof. rewrite !below_Some. naive_solver. Qed.

(** Walking up inside a projection is walking up inside the whole, until the
    projected pointer is reached. *)
Lemma walk_project v rel t pointer q : absolute pointer -> absolute q ->
  walk (mk_tainted v (walk t pointer) (rekey (below pointer) (fields t)) rel) q
    = walk t (pointer ++ q).
Proof.
  intros Hp. remember (length q) as n eqn:Hn. revert q Hn.
  induction n as [n IH] using lt_wf_ind; intros q -> Hq.
  rewrite walk_step, (walk_step t (pointer ++ q)). simpl.
  rewrite (lookup_rekey_at (below pointer) (below_inj pointer) _ _ (pointer ++ q))
    by (by apply below_Some).
  destruct (fields t !! (pointer ++ q)); [done|].
  assert (exists i, rfind slash q = Some i) as [i Hi].
  { destruct (rfind slash q) eqn:E; [eauto|]. apply rfind_None in E.
    apply starts_with_spec in Hq as (r & ->). set_solver. }
  rewrite (rfind_app _ pointer _ _ Hi), Hi.
  assert (length pointer <> 0) by (destruct pointer; [done|simpl; lia]).
  destruct (length pointer + i) as [|j] eqn:Hj; [lia|]. rewrite <-Hj. destruct i as [|i].
  - by rewrite Nat.add_0_r, take_app_length.
  - pose proof (rfind_Some_lt _ _ _ Hi).
    rewrite take_app_add. apply (IH (length (take (S i) q))); [rewrite length_take; lia|done|].
    apply starts_with_spec in Hq as (r & ->). done.
Qed.

Lemma project_pointer_inv t pointer t' : pointer <> [] -> project_pointer t pointer = Some t' ->
  absolute pointer /\ json_pointer (value t) pointer = Some (value t')
  /\ t' = mk_tainted (value t') (walk t pointer) (rekey (below pointer) (fields t))
            (set_filter_map (projected pointer) (releases t)).
Proof.
  intros Hp. unfold project_pointer. rewrite decide_False, label_at_walk by done.
  destruct (json_pointer (value t) pointer) as [v|] eqn:Hv; simpl; [|done].
  intros [= <-]. simpl. split_and!; [|done|done].
  by destruct (pointer_absolute _ _ _ Hv).
Qed.
End lookup.

(** ** Assembly *)

#[global] Arguments field_base : simpl never.

Section assembly.
Context {V : Type} `{JsonLaws V}.
Implicit Types x : Tainted V.

Lemma field_base_split n n' k k' :
  (k = [] \/ absolute k) -> (k' = [] \/ absolute k') ->
  field_base n ++ k = field_base n' ++ k' -> n = n' /\ k = k'.
Proof. intros Hk Hk' [= Heq]. by apply pointer_cut in Heq. Qed.

Lemma assemble_lookup acc base x k :
  assemble_fields acc base x !! (base ++ k) =
    match fields x !! k with
    | Some l => Some l
    | None => <[base := label x]> acc !! (base ++ k)
    end.
Proof.
  unfold assemble_fields. rewrite lookup_union.
  rewrite (lookup_rekey_at (fun k => Some (base ++ k))) with (k0 := k); [|naive_solver|done].
  by destruct (fields x !! k), (<[base:=label x]> acc !! (base ++ k)).
Qed.

Lemma assemble_lookup_other acc base x p : (forall k, p <> base ++ k) ->
  assemble_fields acc base x !! p = acc !! p.
Proof.
  intros Hp. unfold assemble_fields. rewrite lookup_union, lookup_rekey_none.
  - rewrite lookup_insert_ne; [by destruct (acc !! p)|].
    intros ->. apply (Hp []). by rewrite app_nil_r.
  - naive_solver.
  - intros k0 [= Heq]. by apply (Hp k0).
Qed.

Definition object_fields (xs : list (str * Tainted V)) (acc : gmap str Label) : gmap str Label :=
  foldl (fun acc nx => assemble_fields acc (field_base nx.1) nx.2) acc xs.
Definition object_releases (xs : list (str * Tainted V)) (acc : gset ReleaseMark) : gset ReleaseMark :=
  foldl (fun acc nx => assemble_releases acc (field_base nx.1) nx.2) acc xs.

Lemma assemble_lookup_sibling acc n n' x k : n <> n' -> tainted_wf x -> (k = [] \/ absolute k) ->
  assemble_fields acc (field_base n') x !! (field_base n ++ k) = acc !! (field_base n ++ k).
Proof.
  intros Hne [Hwf _] Hk. unfold assemble_fields. rewrite lookup_union.
  rewrite lookup_insert_ne.
  2:{ intros Heq. rewrite <-(app_nil_r (field_base n')) in Heq.
      apply field_base_split in Heq as [? _]; auto. }
  assert (rekey (fun k => Some (field_base n' ++ k)) (fields x) !! (field_base n ++ k) = None) as ->;
    [|by destruct (acc !! _)].
  destruct (rekey _ _ !! _) as [l|] eqn:E; [|done]. exfalso.
  apply lookup_rekey in E as (k0 & [= Heq] & Hl); [|naive_solver].
  assert (absolute k0) by (apply Hwf; eauto).
  assert (n' = n) as -> by (apply (field_base_split n' n k0 k); auto; unfold field_base; simpl; by rewrite Heq). done.
Qed.

Lemma object_fields_skip xs acc n k : n ∉ xs.*1 -> (forall y, y ∈ xs -> tainted_wf y.2) ->
  (k = [] \/ absolute k) ->
  object_fields xs acc !! (field_base n ++ k) = acc !! (field_base n ++ k).
Proof.
  intros Hn Hwf Hk. revert acc Hn Hwf. induction xs as [|[n' x] xs IH]; intros acc Hn Hwf; [done|].
  rewrite fmap_cons, elem_of_cons in Hn. simpl in *.
  change (object_fields ((n', x) :: xs) acc)
    with (object_fields xs (assemble_fields acc (field_base n') x)).
  rewrite IH by (naive_solver set_solver).
  apply assemble_lookup_sibling; [naive_solver| |done].
  apply (Hwf (n', x)). set_solver.
Qed.

Lemma object_fields_app l1 n x l2 acc :
  object_fields (l1 ++ (n, x) :: l2) acc
    = object_fields l2 (assemble_fields (object_fields l1 acc) (field_base n) x).
Proof. unfold object_fields. by rewrite foldl_app. Qed.

Lemma object_fields_at xs n x k : NoDup xs.*1 -> (n, x) ∈ xs ->
  (forall y, y ∈ xs -> tainted_wf y.2) -> (k = [] \/ absolute k) ->
  object_fields xs ∅ !! (field_base n ++ k) =
    match fields x !! k with Some l => Some l | None => if decide (k = []) then Some (label x) else None end.
Proof.
  intros Hnd Hin Hwf Hk. apply list_elem_of_split in Hin as (l1 & l2 & ->).
  rewrite fmap_app, fmap_cons in Hnd. apply NoDup_app in Hnd as (_ & Hdis & Hnd).
  apply NoDup_cons in Hnd as [Hn2 _].
  rewrite object_fields_app, object_fields_skip;
    [|done|intros y Hy; apply Hwf; set_solver|done].
  rewrite assemble_lookup. destruct (fields x !! k); [done|].
  destruct (decide (k = [])) as [->|Hne].
  - by rewrite app_nil_r, lookup_insert_eq.
  - rewrite lookup_insert_ne.
    2:{ intros Heq. rewrite <-(app_nil_r (field_base n)) in Heq at 1. by apply app_inv_head in Heq. }
    apply object_fields_skip; [|intros y Hy; apply Hwf; set_solver|done].
    intros Hn1. apply (Hdis n Hn1). set_solver.
Qed.

Lemma object_releases_elem xs acc m :
  m ∈ object_releases xs acc <->
    m ∈ acc \/ exists n x m', (n, x) ∈ xs /\ m' ∈ releases x /\ m = rebased (field_base n) m'.
Proof.
  revert acc. induction xs as [|[n x] xs IH]; intros acc.
  { simpl. set_solver. }
  change (object_releases ((n, x) :: xs) acc)
    with (object_releases xs (assemble_releases acc (field_base n) x)).
  rewrite IH. unfold assemble_releases. rewrite elem_of_union, elem_of_map.
  setoid_rewrite elem_of_cons. naive_solver.
Qed.

(** A rebased mark, projected at its own field, is the mark again; projected
    at a sibling it is gone. *)
Lemma projected_rebased n n' m : mark_field m = [] \/ absolute (mark_field m) ->
  projected (field_base n) (rebased (field_base n') m) = if decide (n = n') then Some m else None.
Proof.
  intros Hm. destruct m as [d f sc b]. unfold projected, rebased, with_field.
  cbn [mark_field mark_destination mark_scope mark_basis] in *.
  destruct (covers _ (field_base n)) eqn:Hc.
  - apply covers_spec in Hc as [Hc|(r & Heq & Hr)];
      cbn [mark_field mark_destination mark_scope mark_basis] in *; [done|].
    assert (field_base n ++ [] = field_base n' ++ (f ++ r)) as Heq'
      by (by rewrite app_nil_r, app_assoc).
    apply field_base_split in Heq' as [-> Hfr]; [|by left|].
    + symmetry in Hfr. apply app_eq_nil in Hfr as [-> ->]. by rewrite decide_True.
    + destruct Hm as [->|Hm]; [done|right]. by apply starts_with_app.
  - cbn [mark_field].
    destruct (strip_prefix (field_base n) (field_base n' ++ f)) as [rest|] eqn:Es; cbn.
    + apply strip_prefix_Some in Es. destruct (starts_with slash rest) eqn:Er.
      * apply field_base_split in Es as [-> ->]; [by rewrite decide_True|done|by right].
      * rewrite decide_False; [done|]. intros ->. apply app_inv_head in Es as ->.
        destruct Hm as [->|Hm]; [|unfold absolute in Hm; congruence].
        apply not_true_iff_false in Hc. apply Hc, covers_spec. right. exists [].
        split; [|by left]. simpl. by rewrite !app_nil_r.
    + rewrite decide_False; [done|]. intros ->. by rewrite strip_prefix_app in Es.
Qed.
End assembly.

Lemma mark_fold_elem r (m : ReleaseMark) (l : list str) (acc : gset ReleaseMark) :
  m ∈ foldl (fun acc f => {[mark_of r f]} ∪ acc) acc l <-> m ∈ acc \/ exists f, f ∈ l /\ m = mark_of r f.
Proof.
  revert acc. induction l as [|f l IH]; intros acc; simpl; [set_solver|].
  rewrite IH, elem_of_union, elem_of_singleton. setoid_rewrite elem_of_cons. naive_solver.
Qed.

Lemma NoDup_fmap_fst_inj {A B} (l : list (A * B)) k v v' :
  NoDup l.*1 -> (k, v) ∈ l -> (k, v') ∈ l -> (k, v) = (k, v').
Proof.
  induction l as [|[k0 v0] l IH]; simpl; [set_solver|].
  rewrite NoDup_cons, !elem_of_cons. intros [Hk Hl] Hv Hv'.
  assert (forall w, (k0, w) ∈ l -> False) as Hn.
  { intros w Hw. apply Hk, list_elem_of_fmap. by exists (k0, w). }
  destruct Hv as [Hv|Hv], Hv' as [Hv'|Hv']; simplify_eq; auto; exfalso; eauto.
Qed.

(** ** The operations keep values well formed *)

Section invariant.
Context {V : Type} `{JsonLaws V}.

Lemma object_wf (xs : list (str * Tainted V)) :
  (forall y, y ∈ xs -> tainted_wf y.2) -> tainted_wf (object xs).
Proof.
  intros Hwf. split.
  - cbn. enough (forall acc, (forall p, is_Some (acc !! p) -> absolute p) ->
      forall p, is_Some (object_fields xs acc !! p) -> absolute p) as Hg.
    { intros p. apply Hg. intros q [? Hq]. by rewrite lookup_empty in Hq. }
    revert Hwf. induction xs as [|[n x] xs IH]; intros Hwf acc Hacc p; [by apply Hacc|].
    apply IH; [intros y Hy; apply Hwf; set_solver|]. clear p. intros p [l Hp].
    unfold assemble_fields in Hp. apply lookup_union_Some_raw in Hp as [Hp|[_ Hp]].
    + apply lookup_rekey in Hp as (k & [= <-] & Hk); [done|naive_solver].
    + apply lookup_insert_Some in Hp as [[<- _]|[_ Hp]]; [done|]. apply Hacc. eauto.
  - cbn. intros m Hm. apply (object_releases_elem xs ∅) in Hm as [Hm|(n & x & m' & Hin & Hm' & ->)];
      [set_solver|]. right. done.
Qed.

Lemma project_wf (t t' : Tainted V) p :
  tainted_wf t -> project_pointer t p = Some t' -> tainted_wf t'.
Proof.
  intros [Hf Hm] Hpr. destruct (decide (p = [])) as [->|Hp].
  { unfold project_pointer in Hpr. rewrite decide_True in Hpr by done. by simplify_eq. }
  apply project_pointer_inv in Hpr as (Habs & _ & ->); [|done]. split; cbn.
  - intros k [l Hk]. apply lookup_rekey in Hk as (k0 & Hb & _); [|apply below_inj].
    by apply below_Some in Hb as [? _].
  - intros m Hin. apply elem_of_set_filter_map in Hin as (m0 & _ & Hpr).
    unfold projected in Hpr. case_match; [by simplify_eq; left|].
    destruct (strip_prefix _ _); simpl in Hpr; [|done]. case_match; [|done]. simplify_eq. by right.
Qed.
End invariant.

(** ** Properties *)

Section theorems.
Context {V : Type} `{JsonLaws V}.
Implicit Types t : Tainted V.

(** The label a sink sees is the base label improved by exactly the marks
    granted for that destination whose field covers the path: provenance and
    subjects never move; trust is conferred only by a covering mark with a
    trust scope; sensitivity drops to the minimum of the covering targets and
    no further.  A sink no covering mark names sees the base label. *)
Theorem effective_label_spec t d path base :
  label_at t path = Some base ->
  exists l, effective_label_at t d path = Some l
    /\ provenance l = provenance base /\ data_subjects l = data_subjects base
    /\ (trust l = Trusted <->
          trust base = Trusted
          \/ exists m, m ∈ releases t /\ mark_destination m = d /\ covers m path = true
                       /\ scope_trust (mark_scope m) = true)
    /\ (forall x, x ⊑ sensitivity l <->
          x ⊑ sensitivity base
          /\ (forall m target, m ∈ releases t -> mark_destination m = d -> covers m path = true ->
                scope_sensitivity (mark_scope m) = Some target -> x ⊑ target))
    /\ ((forall m, m ∈ releases t -> mark_destination m = d -> covers m path = true -> False) ->
          l = base).
Proof.
  intros Hb. unfold effective_label_at. rewrite Hb. simpl. eexists. split; [done|].
  destruct (improved_spec base (releases t) d path) as (? & ? & ? & ?).
  split_and!; try done. intros Hn. by apply improved_none.
Qed.

(** Projecting a pointer out of a value commutes with every label
    question: below the projected pointer, the projection has the base label
    and, at every destination, the effective label the whole value has there.
    No mark is widened and no field label is lost. *)
Theorem project_pointer_labels t pointer t' q d :
  project_pointer t pointer = Some t' -> q = [] \/ absolute q ->
  label_at t' q = label_at t (pointer ++ q)
  /\ effective_label_at t' d q = effective_label_at t d (pointer ++ q).
Proof.
  intros Hpr Hq. destruct (decide (pointer = [])) as [->|Hp].
  { unfold project_pointer in Hpr. rewrite decide_True in Hpr by done. by simplify_eq. }
  apply project_pointer_inv in Hpr as (Habs & Hv & Ht'); [|done].
  assert (label_at t' q = label_at t (pointer ++ q)) as Hl.
  { rewrite Ht'. destruct Hq as [->|Hq].
    - rewrite label_at_root, app_nil_r, label_at_walk, Hv by done. done.
    - rewrite !label_at_walk by (by destruct q, pointer).
      cbn [value]. rewrite pointer_step, Hv by done. simpl.
      destruct (json_pointer (value t') q); simpl; [|done]. f_equal. by apply walk_project. }
  split; [done|]. unfold effective_label_at. rewrite Hl.
  destruct (label_at t (pointer ++ q)) as [base|]; simpl; [|done]. f_equal.
  apply improved_ext. intros sc. unfold active. rewrite Ht'. cbn [releases].
  setoid_rewrite elem_of_set_filter_map. split.
  - intros (m' & (m & Hin & Hpm) & Hd & Hc & Hsc). exists m.
    destruct (projected_scope _ _ _ Hpm) as [<- <-]. split_and!; auto.
    apply projected_covers; eauto.
  - intros (m & Hin & Hd & Hc & Hsc).
    apply projected_covers in Hc as (m' & Hpm & Hc); [|done..].
    destruct (projected_scope _ _ _ Hpm) as [Ed Es]. exists m'.
    split_and!; [by exists m|congruence|done|congruence].
Qed.

(** Assembling an object field by field and projecting a field back is the
    identity on values, labels, field labels and release marks: nothing a
    sibling carries, labels or releases, leaks into the projection, whatever
    characters the names contain. *)
Theorem object_project_roundtrip (xs : list (str * Tainted V)) n x :
  NoDup xs.*1 -> (n, x) ∈ xs -> (forall y, y ∈ xs -> tainted_wf y.2) ->
  project_field (object xs) n = Some x.
Proof.
  intros Hnd Hin Hwf. assert (tainted_wf x) as [Hxf Hxm] by (apply (Hwf (n, x)); done).
  unfold project_field, project_pointer. rewrite decide_False by done.
  assert (json_pointer (value (object xs)) (field_base n) = Some (value x)) as Hv.
  { apply pointer_member.
    - by rewrite <-list_fmap_compose.
    - apply list_elem_of_fmap. by exists (n, x). }
  rewrite label_at_walk, Hv by done. cbn [mbind option_bind].
  assert (fields (object xs) !! field_base n = Some (label x)) as Hbase.
  { change (fields (object xs)) with (object_fields xs ∅).
    rewrite <-(app_nil_r (field_base n)), (object_fields_at xs n x) by auto.
    destruct (fields x !! []) eqn:E; [|done]. by discriminate (Hxf [] (mk_is_Some _ _ E)). }
  rewrite walk_step, Hbase. f_equal.
  destruct x as [xv xl xf xr]; cbn [value label fields releases] in *. f_equal.
  - change (fun path => _) with (below (field_base n)).
    apply map_eq. intros k. destruct (decide (absolute k)) as [Hk|Hk].
    + rewrite (lookup_rekey_at _ (below_inj _) _ _ (field_base n ++ k)) by (by apply below_Some).
      change (fields (object xs)) with (object_fields xs ∅).
      rewrite (object_fields_at xs n (mk_tainted xv xl xf xr)) by auto. cbn.
      destruct (xf !! k); [done|]. by rewrite decide_False by (by intros ->).
    + rewrite lookup_rekey_none; [|apply below_inj|].
      * destruct (xf !! k) eqn:E; [|done]. destruct Hk. apply Hxf. eauto.
      * intros k0 Hb. by apply below_Some in Hb as [? _].
  - apply set_eq. intros m. rewrite elem_of_set_filter_map.
    change (releases (object xs)) with (object_releases xs ∅).
    setoid_rewrite object_releases_elem. split.
    + intros (m0 & [?|(n' & y & m' & Hy & Hm' & ->)] & Hpr); [set_solver|].
      rewrite projected_rebased in Hpr by (by eapply (Hwf (n', y))).
      case_decide; [|done]. subst n'. simplify_eq.
      assert ((n, mk_tainted xv xl xf xr) = (n, y)) as Heq by (by eapply NoDup_fmap_fst_inj).
      by simplify_eq.
    + intros Hm. exists (rebased (field_base n) m). split.
      * right. by exists n, (mk_tainted xv xl xf xr), m.
      * rewrite projected_rebased by auto. by rewrite decide_True.
Qed.

(** A typed release changes no label, only what its own destination sees:
    the value, every base label and every field label stay; toward any other
    destination every effective label is what it was; and a field release
    succeeds only when each named field is tracked and present, marking
    exactly those fields. *)
Theorem apply_release_confined t r t' :
  apply_release t r = Some t' ->
  value t' = value t
  /\ (forall path, label_at t' path = label_at t path)
  /\ (forall d path, d <> destination r -> effective_label_at t' d path = effective_label_at t d path)
  /\ (forall m, m ∈ releases t' <-> m ∈ releases t \/ exists f, f ∈ rel_fields r
                /\ (f = [] \/ is_whole_value r = false) /\ m = mark_of r f)
  /\ (is_whole_value r = false -> forall f, f ∈ rel_fields r ->
        is_Some (fields t !! f) /\ is_Some (json_pointer (value t) f)).
Proof.
  intros Hr. unfold apply_release in Hr.
  assert (value t' = value t /\ label t' = label t /\ fields t' = fields t
    /\ (forall m, m ∈ releases t' <-> m ∈ releases t \/ exists f, f ∈ rel_fields r
                /\ (f = [] \/ is_whole_value r = false) /\ m = mark_of r f)
    /\ (is_whole_value r = false -> forall f, f ∈ rel_fields r ->
        is_Some (fields t !! f) /\ is_Some (json_pointer (value t) f))) as (Hv & Hl & Hf & Hm & Hs).
  { destruct (is_whole_value r) eqn:Hw.
    - simplify_eq. cbn. split_and!; try done. intros m. rewrite elem_of_union, elem_of_singleton.
      apply bool_decide_eq_true in Hw. naive_solver.
    - case_match eqn:He; [done|]. simplify_eq. cbn. rewrite existsb_elements in He. split_and!; try done.
      + intros m. rewrite (mark_fold_elem r). setoid_rewrite elem_of_elements. naive_solver.
      + intros _ f Hin. specialize (He f Hin). apply orb_false_iff in He as [He1 He2].
        apply bool_decide_eq_false in He1. split; [by apply not_eq_None_Some|].
        destruct (json_pointer (value t) f); [eauto|done]. }
  assert (forall path, label_at t' path = label_at t path) as Hla.
  { intros path. unfold label_at. by rewrite Hv, Hl, Hf. }
  split_and!; [done..| |done|done].
  intros d path Hd. unfold effective_label_at. rewrite Hla.
  destruct (label_at t path) as [base|]; simpl; [|done]. f_equal. apply improved_ext.
  intros sc. unfold active. setoid_rewrite Hm. split.
  - intros (m & [Hin|(f & _ & _ & ->)] & Hmd & Hc & Hsc); [by exists m|by destruct Hd].
  - intros (m & Hin & ?). exists m. auto.
Qed.
End theorems.

(** No reshaping launders a value: a tuple, a joined dependency or a
    content raise carries no release mark at all, and its label is the join
    (or the raise) of the labels it was built from; a transform keeps only
    whole-value marks.  So wherever a mark survives, it is over the value it
    was granted for. *)
Theorem reshaping_never_launders {T U W : Type} (a : Tainted T) (b : Tainted U) (f : T -> W)
    (other : Label) (x : Sensitivity) (d : str) :
  effective_label (tainted_zip a b) d = label a ⊔ label b
  /\ effective_label (with_joined_label a other) d = label a ⊔ other
  /\ label a ⊑ effective_label (raised_to a x) d
  /\ x ⊑ sensitivity (effective_label (raised_to a x) d)
  /\ label (tainted_map f a) = label a
  /\ effective_label (tainted_map f a) d = effective_label a d
  /\ fields (tainted_map f a) = ∅
  /\ (forall m, m ∈ releases (tainted_map f a) <-> m ∈ releases a /\ mark_field m = []).
Proof.
  assert (forall (l : Label) d, improved l ∅ d [] = l) as He.
  { intros l d'. apply improved_none. set_solver. }
  assert (effective_label (raised_to a x) d = with_sensitivity (label a) (sens_max (sensitivity (label a)) x))
    as Hraise by apply He.
  rewrite Hraise. repeat match goal with |- _ /\ _ => split end; try done; try apply He.
  - repeat split; try done. apply (jl_le_l (A := Sensitivity)).
  - apply (jl_le_r (A := Sensitivity)).
  - apply improved_ext. intros sc. unfold active. simpl. setoid_rewrite elem_of_filter.
    split; intros (m & Hin & ? & Hc & ?); exists m; [naive_solver|].
    split_and!; try done. apply covers_spec in Hc as [?|(r & Hr & _)]; [done|].
    symmetry in Hr. by apply app_eq_nil in Hr as [? _].
  - intros m. unfold tainted_map. cbn [releases]. rewrite elem_of_filter. tauto.
Qed.

(** ** A concrete JSON value, for the witnesses *)

Module JsonModel.
Inductive json :=
| JNull
| JNum (n : Z)
| JObj (kvs : list (str * json))
| JArr (vs : list json).

#[export] Instance json_eq_dec : EqDecision json.
Proof.
  unfold EqDecision. fix go 1. pose proof (go : EqDecision json) as E.
  intros [|n|kvs|vs] [|m|kws|ws]; try (right; discriminate).
  - by left.
  - refine (cast_if (decide (n = m))); congruence.
  - refine (cast_if (decide (kvs = kws))); congruence.
  - refine (cast_if (decide (vs = ws))); congruence.
Defined.

(** A member or element by its escaped token; the last insert of a name wins. *)
Definition member (v : json) (token : str) : option json :=
  match v with
  | JObj kvs => snd <$> List.find (fun kv => bool_decide (pointer_token kv.1 = token)) (reverse kvs)
  | JArr vs => snd <$> List.find (fun iv => bool_decide (lit (pretty iv.1) = token))
                         (zip (seq 0 (length vs)) vs)
  | _ => None
  end.

(** The pointer read character by character: [tok] is the token so far. *)
Fixpoint pointer_loop (v : json) (tok : str) (p : str) : option json :=
  match p with
  | [] => member v (reverse tok)
  | c :: p => if decide (c = slash)
              then w ← member v (reverse tok); pointer_loop w [] p
              else pointer_loop v (c :: tok) p
  end.
Definition pointer (v : json) (p : str) : option json :=
  match p with
  | [] => Some v
  | c :: p => if decide (c = slash) then pointer_loop v [] p else None
  end.

#[export] Instance ops : JsonOps json := {|
  json_pointer := pointer;
  json_object := JObj;
  json_array := JArr;
|}.

Lemma pointer_loop_app v tok p q :
  pointer_loop v tok (p ++ slash :: q) = (w ← pointer_loop v tok p; pointer_loop w [] q).
Proof.
  revert v tok. induction p as [|c p IH]; intros v tok; simpl; [done|].
  case_decide; [|apply IH]. destruct (member v (reverse tok)); simpl; [apply IH|done].
Qed.

Lemma pointer_loop_token v tok t : slash ∉ t ->
  pointer_loop v tok t = member v (reverse tok ++ t).
Proof.
  revert tok. induction t as [|c t IH]; intros tok Ht; simpl; [by rewrite app_nil_r|].
  rewrite elem_of_cons in Ht. rewrite decide_False by (intros ->; tauto).
  rewrite IH by tauto. by rewrite reverse_cons, <-app_assoc.
Qed.

Lemma find_unique (kvs : list (str * json)) n v : NoDup kvs.*1 -> (n, v) ∈ kvs ->
  List.find (fun kv => bool_decide (pointer_token kv.1 = pointer_token n)) kvs = Some (n, v).
Proof.
  induction kvs as [|[k w] kvs IH]; simpl; [set_solver|].
  rewrite NoDup_cons, elem_of_cons. intros [Hk Hnd] [Hin|Hin].
  - simplify_eq. by rewrite bool_decide_true.
  - rewrite bool_decide_false; [auto|]. intros Heq. apply (inj pointer_token) in Heq as ->.
    apply Hk, list_elem_of_fmap. by exists (n, v).
Qed.

#[export] Instance laws : JsonLaws json.
Proof.
  split.
  - done.
  - intros v w [|c p]; [by left|]. simpl. case_decide; [|done]. subst. by right.
  - intros v p q Hq. apply starts_with_spec in Hq as (r & ->).
    destruct p as [|c p]; [done|]. simpl. case_decide; [|done].
    rewrite pointer_loop_app. by destruct (pointer_loop v [] p).
  - intros kvs n v Hnd Hin. simpl.
    rewrite pointer_loop_token by apply pointer_token_no_slash. simpl.
    rewrite (find_unique _ n v); [done| |by rewrite elem_of_reverse].
    by rewrite fmap_reverse, reverse_Permutation.
Qed.
End JsonModel.

Module TaintedWitness.
Import JsonModel.

Definition acct : Tainted json := from_source (JNum 7) (lit "tool://crm/read").
Definition note : Tainted json := tainted_trusted (JNum 1).
Definition ledger : str := lit "tool://ledger/transfer".
Definition scope_both : ReleaseScope := mk_scope true (Some Public).

(** A payment whose [account] came from a tool and whose [note/memo] is the
    operator's. *)
Definition payment : Tainted json := object [(lit "account", acct); (lit "note/memo", note)].
Definition account_release : Release :=
  mk_release scope_both (lit "reviewed") ledger {[lit "/account"]} {[lit "ticket-1"]}.
Definition released : Tainted json := default payment (apply_release payment account_release).

Lemma effective_label_spec_witness :
  exists l, effective_label_at released ledger (lit "/account") = Some l /\ trust l = Trusted
    /\ sensitivity l = Public.
Proof.
  destruct (effective_label_spec released ledger (lit "/account") (untrusted (lit "tool://crm/read")))
    as (l & Hl & _ & _ & Ht & Hs & _).
  - evaluate.
  - exists l. split; [exact Hl|]. split.
    + apply Ht. right. exists (mark_of account_release (lit "/account")).
      split_and!; evaluate.
    + assert (sensitivity l ⊑ Public) as Hle; [|by destruct (sensitivity l); [|compute in Hle; lia..]].
      destruct (Hs (sensitivity l)) as [Hs1 _]. destruct (Hs1 (reflexivity _)) as [_ Hm].
      apply (Hm (mark_of account_release (lit "/account")) Public); evaluate.
Defined.

Lemma project_pointer_labels_witness :
  exists t', project_pointer released (lit "/account") = Some t'
    /\ effective_label_at t' ledger [] = effective_label_at released ledger (lit "/account").
Proof.
  eexists. split; [reflexivity|].
  eapply (project_pointer_labels released (lit "/account") _ [] ledger); [reflexivity|by left].
Defined.

Lemma wf_parts y : y ∈ [(lit "account", acct); (lit "note/memo", note)] -> tainted_wf y.2.
Proof.
  rewrite !elem_of_cons, elem_of_nil. intros [->|[->|[]]]; split; cbn; try set_solver;
    intros p [? Hp]; by rewrite lookup_empty in Hp.
Qed.

Lemma object_project_roundtrip_witness : project_field payment (lit "note/memo") = Some note.
Proof.
  apply (object_project_roundtrip [(lit "account", acct); (lit "note/memo", note)]).
  - evaluate.
  - right. left.
  - apply wf_parts.
Defined.

Lemma apply_release_confined_witness :
  effective_label_at released (lit "tool://mail/send") (lit "/account")
    = effective_label_at payment (lit "tool://mail/send") (lit "/account").
Proof.
  apply (apply_release_confined payment account_release released); [reflexivity|].
  evaluate.
Defined.
End TaintedWitness.
