(* ===== verification/SinkGate.v ===== *)
(** * The sink gates ([src/src/runtime/ctx.rs], [StepCtx::sink])

    What stands between a labelled value and a sink: the egress ceiling, the
    journal ceiling, the whole-value taint gate and the per-field rules, judged
    over the effective label at that sink and only where the dispatch would be
    live.  The effect is the record of what the gates ask it; the manifest's
    grant and ceilings are optional, as the code has them.  A refusal is the
    [PolicyError] [refuse_sink] journals.  Content rules run before these gates
    and are not modelled: [args] is the value they hand on. *)

From S2P Require Import Prelude Label Tainted.

(** ** Passes *)

(** [Pass]: how a step context is being driven. *)
Inductive Pass := Live | Resume | Strict.

(** [StepCtx::writes_enabled]: will this effect dispatch live? *)
Definition writes_enabled (mode : Pass) (cursor_exhausted : bool) : bool :=
  match mode with
  | Live => true
  | Resume => cursor_exhausted
  | Strict => false
  end.

(** ** Refusals *)

Inductive PolicyError :=
| TaintGate (sink : str)
| ReleaseDestination (sink granted actual : str)
| ProtectedFieldMissing (sink path : str)
| ProtectedFieldTaint (sink path : str)
| ProtectedFieldReleaseDestination (sink path granted actual : str)
| ProtectedFieldSource (sink path actual_source : str)
| ProtectedFieldValue (sink path : str)
| ProtectedFieldSensitivity (sink path : str) (actual ceiling : Sensitivity)
| EgressCeiling (sink : str) (actual ceiling : Sensitivity)
| JournalCeiling (sink : str) (actual ceiling : Sensitivity)
| ContentRule (rule pointer : str)
| PolicyRecorded (reason : str).

#[export] Instance policy_error_eq_dec : EqDecision PolicyError.
Proof. solve_decision. Defined.

(** ** What the gates ask *)

Record ToolGrant := mk_grant {
  grant_max_sensitivity : option Sensitivity;
  grant_mutates : bool;
}.

(** The two ceilings of a manifest's [spec.security] the gates read. *)
Record SecuritySpec := mk_security {
  max_sensitivity_egress : option Sensitivity;
  max_sensitivity_journaled : option Sensitivity;
}.

Record SinkConfig := mk_config {
  tool_grant : option ToolGrant;
  manifest : option SecuritySpec;
  journal_ceiling : option Sensitivity;
}.

Record SinkEffect (V : Type) := mk_effect {
  sink_name : str;
  sink_id : str;
  protected_fields : list (ProtectedField V);
  effect_max_sensitivity : Sensitivity;
  effect_mutates : bool;
}.
Arguments mk_effect {V}.
Arguments sink_name {V}.
Arguments sink_id {V}.
Arguments protected_fields {V}.
Arguments effect_max_sensitivity {V}.
Arguments effect_mutates {V}.

Definition sens_gt (a b : Sensitivity) : bool := bool_decide (~ a ⊑ b).

Section gates.
Context {V : Type} `{EqDecision V, JsonOps V}.

(** [misdirected_release] *)
Definition misdirected_release (args : Tainted V) (id path : str) : option ReleaseMark :=
  List.find (fun m => negb (bool_decide (mark_destination m = id)) && covers m path
                      && scope_trust (mark_scope m))
    (iter_marks (releases args)).

(** One turn of the loop of [enforce_protected_fields]. *)
Definition enforce_field (sink id : str) (args : Tainted V) (f : ProtectedField V) :
    result PolicyError unit :=
  let path := pf_path f in
  match effective_label_at args id path with
  | None => Err (ProtectedFieldMissing sink path)
  | Some field_label =>
      _ ← (if require_trusted f && is_untrusted field_label then
             match misdirected_release args id path with
             | Some m => Err (ProtectedFieldReleaseDestination sink path (mark_destination m) id)
             | None => Err (ProtectedFieldTaint sink path)
             end
           else Ok tt);
      _ ← (if bool_decide (allowed_sources f = ∅) then Ok tt
           else match List.find (fun src => negb (bool_decide (src ∈ allowed_sources f)))
                        (iter_str (provenance field_label)) with
                | Some source => Err (ProtectedFieldSource sink path source)
                | None => if bool_decide (provenance field_label = ∅)
                          then Err (ProtectedFieldSource sink path (lit "<no provenance>"))
                          else Ok tt
                end);
      _ ← (if negb (bool_decide (one_of f = []))
              && negb (match json_pointer (value args) path with
                       | Some actual => bool_decide (actual ∈ one_of f)
                       | None => false
                       end)
           then Err (ProtectedFieldValue sink path) else Ok tt);
      match max_sensitivity f with
      | Some field_ceiling =>
          if sens_gt (sensitivity field_label) field_ceiling
          then Err (ProtectedFieldSensitivity sink path (sensitivity field_label) field_ceiling)
          else Ok tt
      | None => Ok tt
      end
  end.

Fixpoint enforce_all (sink id : str) (args : Tainted V) (fs : list (ProtectedField V)) :
    result PolicyError unit :=
  match fs with
  | [] => Ok tt
  | f :: fs => _ ← enforce_field sink id args f; enforce_all sink id args fs
  end.

Definition enforce_protected_fields (e : SinkEffect V) (args : Tainted V) (mutates : bool) :
    result PolicyError unit :=
  if bool_decide (length (protected_fields e) = 0) then
    if mutates && is_untrusted (effective_label args (sink_id e)) then
      match misdirected_release args (sink_id e) [] with
      | Some m => Err (ReleaseDestination (sink_name e) (mark_destination m) (sink_id e))
      | None => Err (TaintGate (sink_name e))
      end
    else Ok tt
  else enforce_all (sink_name e) (sink_id e) args (protected_fields e).

(** The strictest of the sink's own ceiling, its grant's and the manifest's. *)
Definition egress_ceiling (e : SinkEffect V) (c : SinkConfig) (manifest_gates : bool) : Sensitivity :=
  let own := effect_max_sensitivity e in
  let granted :=
    match tool_grant c ≫= grant_max_sensitivity with
    | Some g => if manifest_gates then sens_min own g else own
    | None => own
    end in
  match manifest c ≫= max_sensitivity_egress with
  | Some m => if manifest_gates then sens_min granted m else granted
  | None => granted
  end.

(** The stricter of the plane's journal ceiling and the manifest's. *)
Definition effective_journal_ceiling (c : SinkConfig) (manifest_gates : bool) : option Sensitivity :=
  let declared := if manifest_gates then manifest c ≫= max_sensitivity_journaled else None in
  match journal_ceiling c, declared with
  | Some plane, Some m => Some (sens_min plane m)
  | only, None => only
  | None, only => only
  end.

Definition gate_mutates (e : SinkEffect V) (c : SinkConfig) (manifest_gates : bool) : bool :=
  effect_mutates e
  || (manifest_gates && match tool_grant c with Some g => grant_mutates g | None => false end).

(** [StepCtx::sink] between the content rules and the dispatch: the egress
    ceiling over the effective label, the journal ceiling over the base label,
    then the protected fields. *)
Definition sink_gates (mode : Pass) (cursor_exhausted : bool) (c : SinkConfig)
    (e : SinkEffect V) (args : Tainted V) : result PolicyError unit :=
  let l := effective_label args (sink_id e) in
  let live_dispatch := writes_enabled mode cursor_exhausted in
  let manifest_gates := live_dispatch in
  let ceiling := egress_ceiling e c manifest_gates in
  _ ← (if live_dispatch && sens_gt (sensitivity l) ceiling
       then Err (EgressCeiling (sink_name e) (sensitivity l) ceiling) else Ok tt);
  let stored := sensitivity (label args) in
  _ ← (match effective_journal_ceiling c manifest_gates with
       | Some jc => if live_dispatch && sens_gt stored jc
                    then Err (JournalCeiling (sink_name e) stored jc) else Ok tt
       | None => Ok tt
       end);
  if live_dispatch
  then enforce_protected_fields e args (gate_mutates e c manifest_gates)
  else Ok tt.
End gates.

(** ** What a gate that passes has checked *)

Section specification.
Context {V : Type} `{EqDecision V, JsonOps V}.
Implicit Types args : Tainted V.

(** A mark of this destination that confers trust over the path. *)
Definition trust_released args (d path : str) : Prop :=
  exists m, m ∈ releases args /\ mark_destination m = d /\ covers m path = true
            /\ scope_trust (mark_scope m) = true.

(** Under [x], or lowered to or under it by a mark of this destination. *)
Definition lowered_under args (d path : str) (base : Label) (x : Sensitivity) : Prop :=
  sensitivity base ⊑ x \/ exists m t, m ∈ releases args /\ mark_destination m = d /\ covers m path = true
    /\ scope_sensitivity (mark_scope m) = Some t /\ t ⊑ x.

(** Every rule of one protected field, as a proposition over the base label. *)
Record field_allowed (id : str) args (f : ProtectedField V) (base : Label) : Prop := {
  fa_present : label_at args (pf_path f) = Some base;
  fa_trusted : require_trusted f = true -> trust base = Trusted \/ trust_released args id (pf_path f);
  fa_sources : allowed_sources f <> ∅ ->
    provenance base <> ∅ /\ provenance base ⊆ allowed_sources f;
  fa_value : one_of f <> [] ->
    exists v, json_pointer (value args) (pf_path f) = Some v /\ v ∈ one_of f;
  fa_sensitivity : forall x, max_sensitivity f = Some x -> lowered_under args id (pf_path f) base x;
}.

Lemma sens_gt_false a b : sens_gt a b = false <-> a ⊑ b.
Proof. unfold sens_gt. rewrite bool_decide_eq_false. destruct (decide (a ⊑ b)); tauto. Qed.

Lemma is_untrusted_false l : is_untrusted l = false <-> trust l = Trusted.
Proof. unfold is_untrusted. rewrite bool_decide_eq_false. destruct (trust l); naive_solver. Qed.

Lemma trusted_or_released args id path base :
  is_untrusted (improved base (releases args) id path) = false
  <-> trust base = Trusted \/ trust_released args id path.
Proof.
  rewrite is_untrusted_false.
  destruct (improved_spec base (releases args) id path) as (_ & _ & Ht & _). exact Ht.
Qed.

Lemma sens_total (a b : Sensitivity) : a ⊑ b \/ b ⊑ a.
Proof. unfold sqsubseteq, sens_le. lia. Qed.
Lemma under_lowered args d path base x :
  sensitivity (improved base (releases args) d path) ⊑ x <-> lowered_under args d path base x.
Proof.
  destruct (improved_spec base (releases args) d path) as (_ & _ & _ & Hs). split.
  - intros Hle. destruct (decide (sensitivity base ⊑ x)) as [|Hb]; [by left|]. right.
    destruct (existsb (fun m => bool_decide (mark_destination m = d) && covers m path &&
      match scope_sensitivity (mark_scope m) with Some t => bool_decide (t ⊑ x) | None => false end) (elements (releases args))) eqn:Ee.
    { apply existsb_exists in Ee as (m & Hm & He). apply list_elem_of_In, elem_of_elements in Hm.
      apply andb_true_iff in He as [[Hd%bool_decide_eq_true Hc]%andb_true_iff Ht].
      destruct (scope_sensitivity (mark_scope m)) as [t|] eqn:Et; [|done]. apply bool_decide_eq_true in Ht. exists m, t. by split_and!. }
    exfalso. assert (forall y, y ⊑ sensitivity (improved base (releases args) d path) -> y ⊑ x) as Hall by (intros y Hy; by transitivity (sensitivity (improved base (releases args) d path))).
    (** the least level above [x] is under the base and every mark *)
    assert (exists y, ~ y ⊑ x /\ forall z, ~ z ⊑ x -> y ⊑ z) as (y & Hy & Hmin).
    { unfold sqsubseteq, sens_le in *. destruct x; [exists Internal|exists Confidential|exists Secret|]; try (split; [simpl; lia|intros []; simpl; lia]).
      destruct (sensitivity base); simpl in *; lia. }
    apply Hy, Hall, Hs. split; [by apply Hmin|]. intros m t Hm Hd Hc Ht. apply Hmin. intros Htx. apply not_true_iff_false in Ee. apply Ee, existsb_exists.
    exists m. rewrite <-list_elem_of_In, elem_of_elements. split; [done|]. by rewrite Ht, !bool_decide_eq_true_2, Hc.
  - intros [Hb|(m & t & Hm & Hd & Hc & Ht & Htx)].
    + transitivity (sensitivity base); [|done]. by apply Hs.
    + transitivity t; [|done]. by apply (proj1 (Hs _) (reflexivity _)) in Ht.
Qed.

Lemma find_unlisted (X Y : gset str) :
  List.find (fun src => negb (bool_decide (src ∈ Y))) (iter_str X) = None <-> X ⊆ Y.
Proof.
  split.
  - intros Hf x Hx. apply (elem_of_iter_by str_cmp) in Hx. apply list_elem_of_In in Hx.
    pose proof (List.find_none _ _ Hf x Hx) as Hn. simpl in Hn.
    apply negb_false_iff, bool_decide_eq_true in Hn. done.
  - intros Hsub. destruct (List.find _ _) as [x|] eqn:Hf; [|done]. exfalso.
    apply List.find_some in Hf as [Hx Hn]. apply list_elem_of_In, (elem_of_iter_by str_cmp) in Hx.
    apply negb_true_iff, bool_decide_eq_false in Hn. by apply Hn, Hsub.
Qed.

Lemma enforce_field_ok sink id args f :
  enforce_field sink id args f = Ok tt <-> exists base, field_allowed id args f base.
Proof.
  unfold enforce_field, effective_label_at.
  destruct (label_at args (pf_path f)) as [base|] eqn:Hb; simpl.
  2:{ split; [done|]. intros (base & [Hp]). congruence. }
  set (eff := improved base (releases args) id (pf_path f)).
  assert (provenance eff = provenance base) as Hprov.
  { by destruct (improved_spec base (releases args) id (pf_path f)). }
  rewrite !Hprov. split.
  - intros Hok.
    apply result_bind_ok in Hok as ([] & H1 & Hok). apply result_bind_ok in Hok as ([] & H2 & Hok).
    apply result_bind_ok in Hok as ([] & H3 & H4). exists base. split; [done|..].
    + intros Hreq. rewrite Hreq in H1. simpl in H1. apply trusted_or_released. fold eff.
      destruct (is_untrusted eff); [|done]. by destruct (misdirected_release args id (pf_path f)).
    + intros Hne. rewrite bool_decide_false in H2 by done.
      destruct (List.find _ (iter_str (provenance base))) eqn:Hf; [done|].
      apply find_unlisted in Hf. split; [|done].
      intros Hp. by rewrite Hp, bool_decide_true in H2.
    + intros Hne. rewrite (bool_decide_false (one_of f = [])) in H3 by done. simpl in H3.
      destruct (json_pointer (value args) (pf_path f)) as [v|]; [|done].
      exists v. split; [done|]. destruct (decide (v ∈ one_of f)) as [|Hno]; [done|].
      by rewrite (bool_decide_false _ Hno) in H3.
    + intros x Hx. rewrite Hx in H4. apply under_lowered, sens_gt_false. fold eff. destruct (sens_gt (sensitivity eff) x); [discriminate H4|done].
  - intros (base' & [Hp Ht Hs Hv Hx]). rewrite Hb in Hp. injection Hp as <-.
    assert (require_trusted f && is_untrusted eff = false) as ->.
    { destruct (require_trusted f); [|done]. apply trusted_or_released. auto. }
    assert (negb (bool_decide (one_of f = [])) &&
      negb match json_pointer (value args) (pf_path f) with
           | Some actual => bool_decide (actual ∈ one_of f) | None => false end = false) as ->.
    { case_bool_decide; [done|]. destruct Hv as (v & -> & Hin); [done|].
      by rewrite bool_decide_true. }
    assert (match max_sensitivity f with
            | Some x => if sens_gt (sensitivity eff) x
                        then Err (ProtectedFieldSensitivity sink (pf_path f) (sensitivity eff) x)
                        else Ok tt
            | None => Ok tt end = Ok tt) as ->.
    { destruct (max_sensitivity f) as [x|]; [|done].
      pose proof (proj2 (sens_gt_false _ _) (proj2 (under_lowered _ _ _ _ _) (Hx x eq_refl))) as Hgt. fold eff in Hgt. by rewrite Hgt. }
    simpl. destruct (decide (allowed_sources f = ∅)) as [He|He].
    + by rewrite bool_decide_true.
    + rewrite (bool_decide_false (allowed_sources f = ∅)) by done.
      destruct (Hs He) as [Hpne Hsub]. rewrite (proj2 (find_unlisted _ _) Hsub).
      by rewrite (bool_decide_false (provenance base = ∅)).
Qed.

Lemma enforce_all_ok sink id args fs :
  enforce_all sink id args fs = Ok tt <->
    forall f, f ∈ fs -> exists base, field_allowed id args f base.
Proof.
  induction fs as [|f fs IH]; simpl; [split; [intros _ f Hf; by apply elem_of_nil in Hf|done]|].
  rewrite result_bind_ok. setoid_rewrite elem_of_cons. split.
  - intros ([] & Hf & Hfs) g [->|Hg]; [by apply (enforce_field_ok sink)|by apply IH].
  - intros Ha. exists tt. split; [apply enforce_field_ok; auto|apply IH; auto].
Qed.

Lemma enforce_protected_ok e args mutates :
  enforce_protected_fields e args mutates = Ok tt <->
    (forall f, f ∈ protected_fields e -> exists base, field_allowed (sink_id e) args f base)
    /\ (protected_fields e = [] -> mutates = true ->
        trust (label args) = Trusted \/ trust_released args (sink_id e) []).
Proof.
  unfold enforce_protected_fields. destruct (protected_fields e) as [|f fs] eqn:Hfs.
  - rewrite bool_decide_true by done. unfold effective_label. split.
    + intros Hok. split; [intros f Hf; by apply elem_of_nil in Hf|]. intros _ ->. simpl in Hok. apply trusted_or_released.
      destruct (is_untrusted (improved _ _ _ _)); [|done].
      by destruct (misdirected_release args (sink_id e) []).
    + intros [_ Ht]. destruct mutates; [|done]. simpl.
      by rewrite (proj2 (trusted_or_released _ _ _ _) (Ht eq_refl eq_refl)).
  - rewrite bool_decide_false by done. rewrite enforce_all_ok. naive_solver.
Qed.

(** What a deployment has declared, wherever it declared it. *)
Definition declared_egress (c : SinkConfig) (e : SinkEffect V) (x : Sensitivity) : Prop :=
  x = effect_max_sensitivity e \/ tool_grant c ≫= grant_max_sensitivity = Some x \/ manifest c ≫= max_sensitivity_egress = Some x.
Definition declared_journal (c : SinkConfig) (x : Sensitivity) : Prop :=
  journal_ceiling c = Some x \/ manifest c ≫= max_sensitivity_journaled = Some x.
Definition declared_mutating (c : SinkConfig) (e : SinkEffect V) : Prop :=
  effect_mutates e = true \/ exists g, tool_grant c = Some g /\ grant_mutates g = true.
Definition dispatches_live (mode : Pass) (exhausted : bool) : Prop := mode = Live \/ (mode = Resume /\ exhausted = true).

(** What a live dispatch has to satisfy. *)
Record dispatch_allowed (c : SinkConfig) (e : SinkEffect V) args : Prop := {
  da_egress : forall x, declared_egress c e x -> lowered_under args (sink_id e) [] (label args) x;
  da_journal : forall x, declared_journal c x -> sensitivity (label args) ⊑ x;
  da_fields : forall f, f ∈ protected_fields e -> exists base, field_allowed (sink_id e) args f base;
  da_taint : protected_fields e = [] -> declared_mutating c e ->
    trust (label args) = Trusted \/ trust_released args (sink_id e) [];
}.
(** What a refusal says. *)
Definition refusal_true (c : SinkConfig) (e : SinkEffect V) args (err : PolicyError) : Prop :=
  match err with
  | EgressCeiling s a x => s = sink_name e /\ declared_egress c e x /\ ~ lowered_under args (sink_id e) [] (label args) x
  | JournalCeiling s a x => s = sink_name e /\ a = sensitivity (label args) /\ declared_journal c x /\ ~ a ⊑ x
  | TaintGate s | ReleaseDestination s _ _ =>
      s = sink_name e /\ protected_fields e = [] /\ declared_mutating c e /\
      ~ (trust (label args) = Trusted \/ trust_released args (sink_id e) [])
  | ProtectedFieldMissing s p | ProtectedFieldTaint s p | ProtectedFieldReleaseDestination s p _ _
  | ProtectedFieldSource s p _ | ProtectedFieldValue s p | ProtectedFieldSensitivity s p _ _ =>
      s = sink_name e /\ exists f, f ∈ protected_fields e /\ pf_path f = p /\ ~ exists base, field_allowed (sink_id e) args f base
  | ContentRule _ _ | PolicyRecorded _ => False
  end.

Lemma sens_min_lb (a b : Sensitivity) : sens_min a b ⊑ a /\ sens_min a b ⊑ b.
Proof. by apply sens_min_le. Qed.
Lemma sens_min_one (a b : Sensitivity) : sens_min a b = a \/ sens_min a b = b.
Proof. unfold sens_min. case_decide; auto. Qed.
(** The strictest declaration is one of them, and under them all. *)
Lemma egress_strictest c e : declared_egress c e (egress_ceiling e c true) /\ forall x, declared_egress c e x -> egress_ceiling e c true ⊑ x.
Proof.
  unfold declared_egress, egress_ceiling. cbn zeta.
  destruct (tool_grant c ≫= grant_max_sensitivity) as [g|], (manifest c ≫= max_sensitivity_egress) as [m|].
  - split; [destruct (sens_min_one (sens_min (effect_max_sensitivity e) g) m) as [->| ->]; [destruct (sens_min_one (effect_max_sensitivity e) g) as [->| ->]|]; auto|].
    destruct (sens_min_lb (sens_min (effect_max_sensitivity e) g) m) as [Ha Hm], (sens_min_lb (effect_max_sensitivity e) g) as [Hb Hg].
    intros x [->|[[= <-]|[= <-]]]; [etrans; [exact Ha|exact Hb]|etrans; [exact Ha|exact Hg]|exact Hm].
  - split; [destruct (sens_min_one (effect_max_sensitivity e) g) as [->| ->]; auto|]. destruct (sens_min_lb (effect_max_sensitivity e) g).
    intros x [->|[[= <-]|[=]]]; done.
  - split; [destruct (sens_min_one (effect_max_sensitivity e) m) as [->| ->]; auto|]. destruct (sens_min_lb (effect_max_sensitivity e) m).
    intros x [->|[[=]|[= <-]]]; done.
  - split; [auto|]. intros x [->|[[=]|[=]]]; done.
Qed.
Lemma journal_strictest c :
  match effective_journal_ceiling c true with
  | Some y => declared_journal c y /\ forall x, declared_journal c x -> y ⊑ x
  | None => forall x, ~ declared_journal c x
  end.
Proof.
  unfold declared_journal, effective_journal_ceiling. destruct (journal_ceiling c) as [p|], (manifest c ≫= max_sensitivity_journaled) as [m|].
  - split; [destruct (sens_min_one p m) as [->| ->]; auto|]. destruct (sens_min_lb p m). intros x [[= <-]|[= <-]]; done.
  - split; [auto|]. intros x [[= <-]|[=]]; done.
  - split; [auto|]. intros x [[=]|[= <-]]; done.
  - intros x [[=]|[=]].
Qed.
Lemma mutating_declared c e : gate_mutates e c true = true <-> declared_mutating c e.
Proof.
  unfold gate_mutates, declared_mutating. rewrite orb_true_iff. simpl. destruct (tool_grant c) as [g|]; split; naive_solver.
Qed.
Lemma writes_live mode exhausted : writes_enabled mode exhausted = true <-> dispatches_live mode exhausted.
Proof. unfold dispatches_live. destruct mode; simpl; naive_solver. Qed.

(** A field's refusal is at its path. *)
Lemma enforce_field_err sink id args f err : enforce_field sink id args f = Err err ->
  match err with
  | ProtectedFieldMissing s p | ProtectedFieldTaint s p | ProtectedFieldReleaseDestination s p _ _
  | ProtectedFieldSource s p _ | ProtectedFieldValue s p | ProtectedFieldSensitivity s p _ _ => s = sink /\ p = pf_path f
  | _ => False
  end.
Proof.
  unfold enforce_field. destruct (effective_label_at args id (pf_path f)) as [l|]; [|by intros [= <-]].
  destruct (require_trusted f && is_untrusted l); simpl; [destruct (misdirected_release _ _ _); by intros [= <-]|].
  destruct (bool_decide (allowed_sources f = ∅)); simpl;
    [|destruct (List.find _ _); simpl; [by intros [= <-]|]; destruct (bool_decide (provenance l = ∅)); simpl; [by intros [= <-]|]];
    (destruct (negb _ && negb _); simpl; [by intros [= <-]|]; destruct (max_sensitivity f); [|done]; destruct (sens_gt _ _); [by intros [= <-]|done]).
Qed.
Lemma enforce_all_err sink id args fs err : enforce_all sink id args fs = Err err ->
  exists f, f ∈ fs /\ enforce_field sink id args f = Err err.
Proof.
  induction fs as [|f fs IH]; [done|]. simpl. destruct (enforce_field sink id args f) as [[]|e] eqn:Ef; simpl.
  - intros (g & Hg & He)%IH. exists g. split; [by right|done].
  - intros [= <-]. exists f. split; [by left|done].
Qed.

End specification.

(** ** Properties *)

Section theorems.
Context {V : Type} `{EqDecision V, JsonOps V}.
Implicit Types args : Tainted V.

Lemma sink_gates_spec_aux mode exhausted c (e : SinkEffect V) args :
  sink_gates mode exhausted c e args = Ok tt <->
    (dispatches_live mode exhausted -> dispatch_allowed c e args).
Proof.
  rewrite <-writes_live. unfold sink_gates. destruct (writes_enabled mode exhausted) eqn:Hw.
  2:{ split; [done|]. intros _. simpl. by destruct (effective_journal_ceiling c false). }
  destruct (egress_strictest c e) as [Hde Hle]. pose proof (journal_strictest c) as Hj.
  rewrite result_bind_ok. split.
  - intros ([] & H1 & Hok) _. apply result_bind_ok in Hok as ([] & H2 & H3).
    apply enforce_protected_ok in H3 as [Hf Ht]. split; [| |exact Hf|].
    + cbn [andb] in H1. destruct (sens_gt _ _) eqn:Hgt; [discriminate H1|]. apply sens_gt_false in Hgt.
      intros x Hx. apply under_lowered. etrans; [exact Hgt|by apply Hle].
    + destruct (effective_journal_ceiling c true) as [y|]; [|intros x Hx; by destruct (Hj x)].
      cbn [andb] in H2. destruct (sens_gt (sensitivity (label args)) y) eqn:Hgt; [discriminate H2|]. apply sens_gt_false in Hgt.
      intros x Hx. etrans; [exact Hgt|by apply Hj].
    + intros Hn Hm. apply Ht; [done|by apply mutating_declared].
  - intros Ha. destruct (Ha eq_refl) as [He Hjl Hf Ht]. exists tt. split.
    + simpl. rewrite (proj2 (sens_gt_false _ _)); [done|]. by apply under_lowered, He.
    + apply result_bind_ok. exists tt. split; [|apply enforce_protected_ok; split; [done|]; intros; apply Ht; [done|by apply mutating_declared]].
      destruct (effective_journal_ceiling c true) as [y|]; [|done].
      simpl. rewrite (proj2 (sens_gt_false _ _)); [done|]. by apply Hjl, Hj.
Qed.

Lemma sink_refused_aux mode exhausted c (e : SinkEffect V) args err :
  sink_gates mode exhausted c e args = Err err -> dispatches_live mode exhausted /\ refusal_true c e args err.
Proof.
  rewrite <-writes_live. unfold sink_gates. destruct (writes_enabled mode exhausted) eqn:Hw.
  2: { simpl. by destruct (effective_journal_ceiling c false). }
  intros Hr. split; [done|]. destruct (egress_strictest c e) as [Hde Hle]. pose proof (journal_strictest c) as Hj. cbn [andb] in Hr.
  destruct (sens_gt (sensitivity (effective_label args (sink_id e))) (egress_ceiling e c true)) eqn:He; simpl in Hr.
  { injection Hr as <-. split_and!; [done|done|]. intros Hl%under_lowered%sens_gt_false. unfold effective_label in He. congruence. }
  destruct (effective_journal_ceiling c true) as [y|]; [destruct (sens_gt (sensitivity (label args)) y) eqn:Hgt|]; simpl in Hr.
  { injection Hr as <-. split_and!; [done|done|apply Hj|]. intros Hl%sens_gt_false. congruence. }
  all: unfold enforce_protected_fields in Hr; destruct (protected_fields e) as [|f fs] eqn:Hfs;
    [rewrite bool_decide_true in Hr by done|rewrite bool_decide_false in Hr by done;
     apply enforce_all_err in Hr as (g & Hg & Hr); pose proof (enforce_field_err _ _ _ _ _ Hr) as Hp;
     assert (~ exists base, field_allowed (sink_id e) args g base) as Hn by (intros Hok; apply (enforce_field_ok (sink_name e)) in Hok; congruence);
     destruct err; try done; destruct Hp as [-> ->]; (split; [done|]; exists g; rewrite Hfs; by split_and!)].
  all: destruct (gate_mutates e c true && is_untrusted (effective_label args (sink_id e))) eqn:Hm; [|done];
    apply andb_true_iff in Hm as [Hm%mutating_declared Hu];
    assert (~ (trust (label args) = Trusted \/ trust_released args (sink_id e) [])) as Hn
      by (intros Ht%trusted_or_released; unfold effective_label in Hu; congruence);
    destruct (misdirected_release args (sink_id e) []); injection Hr as <-; by split_and!.
Qed.

(** C31. The sink gates decide exactly one thing.  A live dispatch - a live
    pass, or a resume that has read its history out - is let through if and only
    if the value's sensitivity is under, or lowered by a release to this sink to
    or under, every egress ceiling that the effect, its grant and the manifest
    declare; under every journal ceiling that the plane and the manifest declare
    (no release counts there); every protected field is present and meets its
    trust, source, value and sensitivity rules; and a sink without protected
    fields that the effect or its grant calls mutating receives nothing untrusted
    that was not released to it.  A refusal names a declared ceiling that is
    exceeded, the taint, or a field that fails its rules.  A pass that does not
    dispatch live is never judged, whatever the configuration says today. *)
Theorem sink_gates_spec mode exhausted c (e : SinkEffect V) args :
  (sink_gates mode exhausted c e args = Ok tt <-> (dispatches_live mode exhausted -> dispatch_allowed c e args)) /\
  forall err, sink_gates mode exhausted c e args = Err err -> dispatches_live mode exhausted /\ refusal_true c e args err.
Proof. split; [apply sink_gates_spec_aux|intros err; apply sink_refused_aux]. Qed.

(** The configuration [c'] declares everything [c] does, at least as tightly. *)
Definition tighter_opt (a b : option Sensitivity) : Prop :=
  forall x, a = Some x -> exists y, b = Some y /\ y ⊑ x.
Record tighter (c c' : SinkConfig) : Prop := {
  ti_grant : tighter_opt (tool_grant c ≫= grant_max_sensitivity) (tool_grant c' ≫= grant_max_sensitivity);
  ti_egress : tighter_opt (manifest c ≫= max_sensitivity_egress) (manifest c' ≫= max_sensitivity_egress);
  ti_journaled : tighter_opt (manifest c ≫= max_sensitivity_journaled)
                   (manifest c' ≫= max_sensitivity_journaled);
  ti_plane : tighter_opt (journal_ceiling c) (journal_ceiling c');
  ti_mutates : forall g, tool_grant c = Some g -> grant_mutates g = true ->
    exists g', tool_grant c' = Some g' /\ grant_mutates g' = true;
}.

Lemma lowered_mono args d path base x y : y ⊑ x -> lowered_under args d path base y -> lowered_under args d path base x.
Proof.
  intros Hle [Hb|(m & t & ? & ? & ? & ? & Ht)]; [left; by etrans|right]. exists m, t. split_and!; try done. by etrans.
Qed.

(** Configuration only tightens: whatever a tighter grant, manifest and
    plane let through, the looser configuration lets through as well, so a
    reviewed declaration can never open a sink its catalogue had closed. *)
Theorem sink_gates_antitone mode exhausted c c' (e : SinkEffect V) args :
  tighter c c' -> sink_gates mode exhausted c' e args = Ok tt ->
  sink_gates mode exhausted c e args = Ok tt.
Proof.
  rewrite !sink_gates_spec_aux. intros Hti Hok Hw. destruct (Hok Hw) as [He Hj Hf Ht].
  split; [| |done|].
  - intros x [->|[(y & Hy & Hle)%Hti|(y & Hy & Hle)%Hti]]; [apply He; by left|eapply lowered_mono; [exact Hle|]; apply He; auto..].
    all: unfold declared_egress; auto.
  - intros x [(y & Hy & Hle)%Hti|(y & Hy & Hle)%Hti]; (etrans; [|exact Hle]; apply Hj; unfold declared_journal; auto).
  - intros Hnil [Hm|(g & Hg & Hm)]; apply Ht; try done; [by left|right]. by eapply ti_mutates.
Qed.
End theorems.

Module SinkGateWitness.
Import JsonModel TaintedWitness.

(** The payment of [TaintedWitness]: a transfer whose account field has to be
    trusted, under a plane that lets public data out. *)
Definition account_field : ProtectedField json :=
  mk_protected (lit "/account") true ∅ None [].
Definition transfer : SinkEffect json :=
  mk_effect (lit "transfer") ledger [account_field] Internal true.
Definition open_config : SinkConfig := mk_config None None None.
Definition closed_config : SinkConfig :=
  mk_config None (Some (mk_security (Some Internal) None)) (Some Secret).

Lemma sink_gates_antitone_witness :
  tighter open_config closed_config
  /\ sink_gates Live false open_config transfer released = Ok tt.
Proof.
  assert (tighter open_config closed_config) as Ht.
  { split; cbn; unfold tighter_opt; try naive_solver; intros x [=]. }
  split; [exact Ht|].
  apply (sink_gates_antitone Live false open_config closed_config transfer released Ht).
  evaluate.
Defined.
End SinkGateWitness.
