(* ===== verification/Budget.v ===== *)
(** * Run budgets ([src/src/core/budget.rs])

    The ledger a run is billed on: what a budget declares, what has been
    consumed, which ceiling refuses the next step or effect, and the arithmetic
    that has to come out the same on the pass that dispatched the work and on
    every pass that replays it.  [Timestamp] is an instant in nanoseconds since
    the epoch ([time::OffsetDateTime] has that resolution); the ledger compares
    instants at full resolution and subtracts their [unix_timestamp]s.  The
    counters are wrapped ([+= 1] in the release profile) or saturated exactly
    where the source does. *)

From S2P Require Import Prelude.
Local Open Scope Z_scope.

(** ** Data *)

Record Spend := mk_spend { tokens : Z; minor_units : Z }.
Definition spend_zero : Spend := mk_spend 0 0.
Definition spend_tokens (n : Z) : Spend := mk_spend n 0.
Definition spend_money (n : Z) : Spend := mk_spend 0 n.
Definition is_free (s : Spend) : bool := (tokens s =? 0) && (minor_units s =? 0).

(** [Spend::plus], which [+=] is: saturating in each dimension. *)
Definition plus (a b : Spend) : Spend :=
  mk_spend (sat_add (tokens a) (tokens b)) (sat_add (minor_units a) (minor_units b)).

Record Budget := mk_budget {
  max_steps : option Z;
  max_effects : option Z;
  max_tokens : option Z;
  max_minor_units : option Z;
  max_replans : option Z;
  max_wallclock_secs : option Z;
  max_parallel_steps : option Z;
  max_denials : option Z;
  max_egress_bytes : option Z;
  max_call_tokens : option Z;
  max_call_minor_units : option Z;
}.

(** [matches!(x, Some(0))]. *)
Definition is_zero (x : option Z) : bool := bool_decide (x = Some 0).

Definition bricked_ceiling (b : Budget) : option str :=
  if is_zero (max_steps b) then Some (lit "max_steps")
  else if is_zero (max_effects b) then Some (lit "max_effects")
  else if is_zero (max_tokens b) then Some (lit "max_tokens")
  else if is_zero (max_minor_units b) then Some (lit "max_minor_units")
  else if is_zero (max_wallclock_secs b) then Some (lit "max_wallclock_secs")
  else if is_zero (max_parallel_steps b) then Some (lit "max_parallel_steps")
  else None.

Definition unlimited : Budget :=
  mk_budget None None None None None None None None None None None.

Definition parallelism (b : Budget) : Z :=
  match max_parallel_steps b with Some n => n | None => usize_max end.
Definition tracks_wallclock (b : Budget) : bool :=
  match max_wallclock_secs b with Some _ => true | None => false end.

Record Consumed := mk_consumed {
  steps : Z;
  effects : Z;
  spend : Spend;
  elapsed_secs : Z;
  denials : Z;
  egress_bytes : Z;
}.

(** The ceilings a refusal names. *)
Inductive Ceiling :=
| CSteps | CEffects | CReplans | CDenials | CTokens | CMoney | CWallclock | CEgressBytes | CRate.

#[export] Instance ceiling_eq_dec : EqDecision Ceiling.
Proof. solve_decision. Defined.

Definition ceiling_as_str (c : Ceiling) : str :=
  match c with
  | CSteps => lit "steps"
  | CEffects => lit "effects"
  | CReplans => lit "replans"
  | CDenials => lit "denials"
  | CTokens => lit "tokens"
  | CMoney => lit "money"
  | CWallclock => lit "wallclock"
  | CEgressBytes => lit "egress_bytes"
  | CRate => lit "rate"
  end.

Definition ceiling_all : list Ceiling :=
  [CSteps; CEffects; CReplans; CDenials; CTokens; CMoney; CWallclock; CEgressBytes; CRate].

Definition ceiling_parse (s : str) : option Ceiling :=
  List.find (fun c => bool_decide (ceiling_as_str c = s)) ceiling_all.

Inductive BudgetExceeded :=
| Steps (allowed : Z)
| Effects (allowed used : Z)
| Replans (allowed : Z)
| Denials (allowed : Z)
| Recorded (limit used : str) (ceiling : option Ceiling)
| Tokens (allowed used : Z)
| Money (allowed used : Z)
| Wallclock (allowed used : Z)
| Egress (allowed used attempted : Z)
| Rate (grant : str) (allowed window_seconds reached : Z).

#[export] Instance exceeded_eq_dec : EqDecision BudgetExceeded.
Proof. solve_decision. Defined.

Definition live_ceiling (e : BudgetExceeded) : option Ceiling :=
  match e with
  | Steps _ => Some CSteps
  | Effects _ _ => Some CEffects
  | Replans _ => Some CReplans
  | Denials _ => Some CDenials
  | Recorded _ _ _ => None
  | Tokens _ _ => Some CTokens
  | Money _ _ => Some CMoney
  | Wallclock _ _ => Some CWallclock
  | Egress _ _ _ => Some CEgressBytes
  | Rate _ _ _ _ => Some CRate
  end.
Definition exceeded_as_str (e : BudgetExceeded) : str :=
  match live_ceiling e with Some c => ceiling_as_str c | None => lit "recorded" end.
Definition exceeded_ceiling (e : BudgetExceeded) : option Ceiling :=
  match e with Recorded _ _ c => c | _ => live_ceiling e end.

(** ** The ledger *)

(** Nanoseconds since the epoch. *)
Definition Timestamp := Z.
Definition unix_timestamp (t : Timestamp) : Z := t / 1000000000.

Record Ledger := mk_ledger {
  budget : Budget;
  consumed : Consumed;
  first : option Timestamp;
  last : option Timestamp;
  live : Spend;
}.

Definition ledger_new (b : Budget) : Ledger :=
  mk_ledger b (mk_consumed 0 0 spend_zero 0 0 0) None None spend_zero.

(** The field updates of the [&mut self] methods. *)
Definition with_consumed (l : Ledger) (c : Consumed) : Ledger :=
  mk_ledger (budget l) c (first l) (last l) (live l).
Definition with_effects (c : Consumed) (n egress : Z) : Consumed :=
  mk_consumed (steps c) n (spend c) (elapsed_secs c) (denials c) egress.
Definition with_spend (c : Consumed) (s : Spend) : Consumed :=
  mk_consumed (steps c) (effects c) s (elapsed_secs c) (denials c) (egress_bytes c).

(** [u64::try_from(z).unwrap_or(u64::MAX)]. *)
Definition u64_or_max (z : Z) : Z := if decide (0 <= z <= u64_max) then z else u64_max.

Definition observe_clock (l : Ledger) (at_ : Timestamp) : Ledger :=
  let f := match first l with Some f => if f <=? at_ then f else at_ | None => at_ end in
  let la := match last l with Some la => if at_ <=? la then la else at_ | None => at_ end in
  let secs := u64_or_max (Z.max (unix_timestamp la - unix_timestamp f) 0) in
  let c := consumed l in
  mk_ledger (budget l)
    (mk_consumed (steps c) (effects c) (spend c) secs (denials c) (egress_bytes c))
    (Some f) (Some la) (live l).

(** [if let Some(max) = limit && used(max) { return Err(e(max)) }]. *)
Definition check_limit (limit : option Z) (over : Z -> bool) (e : Z -> BudgetExceeded) :
    result BudgetExceeded unit :=
  match limit with
  | Some max => if over max then Err (e max) else Ok tt
  | None => Ok tt
  end.

Definition check_denials (l : Ledger) : result BudgetExceeded unit :=
  check_limit (max_denials (budget l)) (fun max => max <? denials (consumed l)) Denials.

Definition check_time (l : Ledger) : result BudgetExceeded unit :=
  check_limit (max_wallclock_secs (budget l)) (fun max => max <=? elapsed_secs (consumed l))
    (fun max => Wallclock max (elapsed_secs (consumed l))).

Definition admit_step (l : Ledger) (pending : Z) : result BudgetExceeded unit :=
  _ ← check_limit (max_steps (budget l))
        (fun max => max <=? wrap_usize (steps (consumed l) + pending)) Steps;
  _ ← check_denials l;
  check_time l.

Definition record_step (l : Ledger) : Ledger :=
  let c := consumed l in
  with_consumed l (mk_consumed (wrap_usize (steps c + 1)) (effects c) (spend c)
                     (elapsed_secs c) (denials c) (egress_bytes c)).

Definition can_admit_effect (l : Ledger) (outbound : Z) : result BudgetExceeded unit :=
  let c := consumed l in
  _ ← check_denials l;
  _ ← check_limit (max_effects (budget l)) (fun max => max <=? effects c)
        (fun max => Effects max (effects c));
  _ ← check_limit (max_tokens (budget l)) (fun max => max <=? tokens (spend c))
        (fun max => Tokens max (tokens (spend c)));
  _ ← check_limit (max_minor_units (budget l)) (fun max => max <=? minor_units (spend c))
        (fun max => Money max (minor_units (spend c)));
  _ ← check_limit (max_egress_bytes (budget l)) (fun max => max <? sat_add (egress_bytes c) outbound)
        (fun max => Egress max (egress_bytes c) outbound);
  check_time l.

Definition count_effect (l : Ledger) (outbound : Z) : Ledger :=
  let c := consumed l in
  with_consumed l (with_effects c (wrap_usize (effects c + 1)) (sat_add (egress_bytes c) outbound)).

Definition admit_effect (l : Ledger) (outbound : Z) : result BudgetExceeded Ledger :=
  _ ← can_admit_effect l outbound;
  let c := consumed l in
  Ok (with_consumed l
        (with_effects c (wrap_usize (effects c + 1)) (sat_add (egress_bytes c) outbound))).

Definition record_spend (l : Ledger) (s : Spend) : Ledger :=
  with_consumed l (with_spend (consumed l) (plus (spend (consumed l)) s)).

Definition record_live_spend (l : Ledger) (s : Spend) : Ledger :=
  let l := record_spend l s in
  mk_ledger (budget l) (consumed l) (first l) (last l) (plus (live l) s).

Definition replay_effect (l : Ledger) (s : Spend) (outbound : Z) : Ledger :=
  let c := consumed l in
  with_consumed l
    (with_spend (with_effects c (wrap_usize (effects c + 1)) (sat_add (egress_bytes c) outbound))
       (plus (spend c) s)).

(** The count moves whether or not the answer is a refusal. *)
Definition record_denial (l : Ledger) : Ledger * result BudgetExceeded unit :=
  let c := consumed l in
  let l := with_consumed l (mk_consumed (steps c) (effects c) (spend c) (elapsed_secs c)
                              (wrap_u32 (denials c + 1)) (egress_bytes c)) in
  (l, check_limit (max_denials (budget l)) (fun max => max <? denials (consumed l)) Denials).

Definition admit_policy_check (l : Ledger) : result BudgetExceeded unit := check_denials l.

(** ** A ledger's life

    Everything a pass does to its ledger, as one sequence of calls in the order
    the lock serialised them.  An admission that is refused changes nothing. *)

#[export] Instance spend_eq_dec : EqDecision Spend.
Proof. solve_decision. Defined.

Inductive Call :=
| Admit (outbound : Z)
| Count (outbound : Z)
| Bill (s : Spend)
| BillLive (s : Spend)
| Replay (s : Spend) (outbound : Z)
| Step
| Denial
| Clock (at_ : Timestamp).

#[export] Instance call_eq_dec : EqDecision Call.
Proof. solve_decision. Defined.

Definition call (l : Ledger) (k : Call) : Ledger :=
  match k with
  | Admit o => match admit_effect l o with Ok l' => l' | Err _ => l end
  | Count o => count_effect l o
  | Bill s => record_spend l s
  | BillLive s => record_live_spend l s
  | Replay s o => replay_effect l s o
  | Step => record_step l
  | Denial => (record_denial l).1
  | Clock t => observe_clock l t
  end.
Definition calls (l : Ledger) (ks : list Call) : Ledger := foldl call l ks.

(** ** What a sequence of calls adds up to *)

(** The calls that took effect: a refused admission does not. *)
Fixpoint performed (l : Ledger) (ks : list Call) : list Call :=
  match ks with
  | [] => []
  | k :: ks =>
      match k with
      | Admit o => if is_ok (admit_effect l o) then k :: performed (call l k) ks else performed l ks
      | _ => k :: performed (call l k) ks
      end
  end.

Definition total (f : Call -> Z) (ks : list Call) : Z := foldr (fun k n => f k + n) 0 ks.

Definition slots (k : Call) : Z := match k with Admit _ | Count _ | Replay _ _ => 1 | _ => 0 end.
Definition bytes (k : Call) : Z := match k with Admit o | Count o | Replay _ o => o | _ => 0 end.
Definition cost (k : Call) : Spend :=
  match k with Bill s | BillLive s | Replay s _ => s | _ => spend_zero end.
Definition live_cost (k : Call) : Spend := match k with BillLive s => s | _ => spend_zero end.
Definition stepped (k : Call) : Z := match k with Step => 1 | _ => 0 end.
Definition denied (k : Call) : Z := match k with Denial => 1 | _ => 0 end.
Definition readings (ks : list Call) : list Timestamp :=
  omap (fun k => match k with Clock t => Some t | _ => None end) ks.

Definition spend_ok (s : Spend) : Prop := u64_ok (tokens s) /\ u64_ok (minor_units s).
Definition call_ok (k : Call) : Prop := u64_ok (bytes k) /\ spend_ok (cost k).

(** Every counter inside its type. *)
Record ledger_ok (l : Ledger) : Prop := {
  lo_steps : u64_ok (steps (consumed l));
  lo_effects : u64_ok (effects (consumed l));
  lo_spend : spend_ok (spend (consumed l));
  lo_elapsed : u64_ok (elapsed_secs (consumed l));
  lo_denials : u32_ok (denials (consumed l));
  lo_egress : u64_ok (egress_bytes (consumed l));
  lo_live : spend_ok (live l);
}.

Lemma u64_0 : u64_ok 0. Proof. unfold u64_ok, u64_max. lia. Qed.
#[export] Hint Resolve u64_0 sat_add_ok : plane.

Lemma wrap_usize_ok a : u64_ok (wrap_usize a).
Proof. unfold wrap_usize, u64_ok, u64_max. pose proof (Z.mod_pos_bound a (18446744073709551615 + 1)). lia. Qed.
Lemma wrap_u32_ok a : u32_ok (wrap_u32 a).
Proof. unfold wrap_u32, u32_ok, u32_max. pose proof (Z.mod_pos_bound a (4294967295 + 1)). lia. Qed.
Lemma u64_or_max_ok z : u64_ok (u64_or_max z).
Proof. unfold u64_or_max, u64_ok, u64_max. case_decide; lia. Qed.
Lemma sat_ok a b : u64_ok a -> u64_ok b -> u64_ok (sat_add a b).
Proof. unfold u64_ok. intros. apply sat_add_ok; lia. Qed.
Lemma plus_ok a b : spend_ok a -> spend_ok b -> spend_ok (plus a b).
Proof. intros [] []. split; by apply sat_ok. Qed.
Lemma spend_zero_ok : spend_ok spend_zero.
Proof. split; apply u64_0. Qed.
#[export] Hint Resolve wrap_usize_ok wrap_u32_ok u64_or_max_ok sat_ok plus_ok spend_zero_ok : plane.

Lemma ledger_new_ok b : ledger_ok (ledger_new b).
Proof. split; simpl; eauto with plane. unfold u32_ok, u32_max. lia. Qed.

Lemma admit_effect_ok_inv l o l' : admit_effect l o = Ok l' <->
  can_admit_effect l o = Ok tt /\ l' = count_effect l o.
Proof.
  unfold admit_effect. rewrite result_bind_ok. split.
  - intros ([] & Hc & [= <-]). done.
  - intros [Hc ->]. by exists tt.
Qed.

(** An admission that succeeds is a [count_effect]; one that fails is nothing. *)
Lemma call_admit l o :
  call l (Admit o) = if is_ok (admit_effect l o) then count_effect l o else l.
Proof.
  simpl. destruct (admit_effect l o) as [l'|e] eqn:Ha; [|done].
  by apply admit_effect_ok_inv in Ha as [_ ->].
Qed.

Lemma call_ledger_ok l k : call_ok k -> ledger_ok l -> ledger_ok (call l k).
Proof.
  intros [Hb Hc] [H1 H2 H3 H4 H5 H6 H7]. destruct k as [o|o|s|s|s o| | |t]; try rewrite call_admit;
    repeat case_match; split; simpl in *; eauto with plane; by apply plus_ok.
Qed.

Lemma calls_ledger_ok ks : forall l, Forall call_ok ks -> ledger_ok l -> ledger_ok (calls l ks).
Proof.
  induction ks as [|k ks IH]; intros l Hks Hl; [done|]. apply Forall_cons in Hks as [Hk Hks].
  simpl. by apply IH, call_ledger_ok.
Qed.

Lemma call_budget l k : budget (call l k) = budget l.
Proof. destruct k; try rewrite call_admit; repeat case_match; done. Qed.
Lemma calls_budget ks : forall l, budget (calls l ks) = budget l.
Proof. induction ks as [|k ks IH]; intros l; simpl; [done|]. by rewrite IH, call_budget. Qed.

Lemma total_perm f : Proper ((≡ₚ) ==> (=)) (total f).
Proof. intros ks ks' Hp. induction Hp; simpl; lia. Qed.
Lemma total_cons f k ks : total f (k :: ks) = f k + total f ks.
Proof. done. Qed.
Lemma total_app f ks ks' : total f (ks ++ ks') = total f ks + total f ks'.
Proof. induction ks; simpl; lia. Qed.
Lemma total_nonneg f ks : (forall k, k ∈ ks -> 0 <= f k) -> 0 <= total f ks.
Proof.
  induction ks as [|k ks IH]; intros H; simpl; [lia|].
  pose proof (H k ltac:(by left)). specialize (IH (fun j Hj => H j ltac:(by right))). lia.
Qed.

Lemma sat_add_sat_add a b c : 0 <= a -> 0 <= b -> 0 <= c -> sat_add (sat_add a b) c = sat_add a (b + c).
Proof. unfold sat_add, u64_max. lia. Qed.
Lemma wrap_usize_add a b : wrap_usize (wrap_usize a + b) = wrap_usize (a + b).
Proof. unfold wrap_usize. by rewrite Zplus_mod_idemp_l. Qed.
Lemma wrap_u32_add a b : wrap_u32 (wrap_u32 a + b) = wrap_u32 (a + b).
Proof. unfold wrap_u32. by rewrite Zplus_mod_idemp_l. Qed.

(** Where a ledger stands after calls that all took effect. *)
Record tallies (l : Ledger) (ks : list Call) (l' : Ledger) : Prop := {
  ta_steps : steps (consumed l') = wrap_usize (steps (consumed l) + total stepped ks);
  ta_effects : effects (consumed l') = wrap_usize (effects (consumed l) + total slots ks);
  ta_tokens : tokens (spend (consumed l')) =
    sat_add (tokens (spend (consumed l))) (total (tokens ∘ cost) ks);
  ta_money : minor_units (spend (consumed l')) =
    sat_add (minor_units (spend (consumed l))) (total (minor_units ∘ cost) ks);
  ta_denials : denials (consumed l') = wrap_u32 (denials (consumed l) + total denied ks);
  ta_egress : egress_bytes (consumed l') = sat_add (egress_bytes (consumed l)) (total bytes ks);
  ta_live : live l' = mk_spend (sat_add (tokens (live l)) (total (tokens ∘ live_cost) ks))
                        (sat_add (minor_units (live l)) (total (minor_units ∘ live_cost) ks));
}.

Lemma call_weights k : call_ok k ->
  0 <= bytes k /\ 0 <= tokens (cost k) /\ 0 <= minor_units (cost k)
  /\ 0 <= tokens (live_cost k) /\ 0 <= minor_units (live_cost k).
Proof. unfold call_ok, spend_ok, u64_ok. destruct k; simpl; lia. Qed.

Lemma tallies_nil l : ledger_ok l -> tallies l [] l.
Proof.
  intros [H1 H2 [H3 H3'] H4 H5 H6 [H7 H7']]. split; simpl; rewrite ?Z.add_0_r.
  all: rewrite ?wrap_usize_small, ?wrap_u32_small, ?sat_add_0_r by done; try done.
  by destruct (live l).
Qed.

Definition took (l : Ledger) (k : Call) : bool :=
  match k with Admit o => is_ok (admit_effect l o) | _ => true end.

Lemma tallies_one l k : ledger_ok l -> took l k = true -> tallies l [k] (call l k).
Proof.
  intros [H1 H2 [H3 H3'] H4 H5 H6 [H7 H7']] Ht.
  destruct k; try rewrite call_admit; simpl in Ht; rewrite ?Ht; split; simpl; rewrite ?Z.add_0_r;
    rewrite ?wrap_usize_small, ?wrap_u32_small, ?sat_add_0_r by done; try done; by destruct (live l).
Qed.

Lemma tallies_step l k ks l' : ledger_ok l -> call_ok k -> Forall call_ok ks ->
  took l k = true -> tallies (call l k) ks l' -> tallies l (k :: ks) l'.
Proof.
  intros Hl Hk Hks Ht [A1 A2 A3 A4 A5 A6 A7].
  destruct (tallies_one l k Hl Ht) as [B1 B2 B3 B4 B5 B6 B7].
  destruct (call_weights k Hk) as (W1 & W2 & W3 & W4 & W5).
  destruct Hl as [H1 H2 [H3 H3'] H4 H5 H6 [H7 H7']]. unfold u64_ok in *.
  assert (forall f, (forall k, call_ok k -> 0 <= f k) -> 0 <= total f ks) as Hn.
  { intros f Hf. apply total_nonneg. intros j Hj. apply Hf. by apply (proj1 (Forall_forall _ _) Hks). }
  split; simpl.
  - rewrite A1, B1, wrap_usize_add. simpl. by rewrite Z.add_0_r, Z.add_assoc.
  - rewrite A2, B2, wrap_usize_add. simpl. by rewrite Z.add_0_r, Z.add_assoc.
  - rewrite A3, B3; simpl. rewrite Z.add_0_r, sat_add_sat_add; try done; [apply H3|].
    apply Hn. intros; by apply call_weights.
  - rewrite A4, B4; simpl. rewrite Z.add_0_r, sat_add_sat_add; try done; [apply H3'|].
    apply Hn. intros; by apply call_weights.
  - rewrite A5, B5, wrap_u32_add. simpl. by rewrite Z.add_0_r, Z.add_assoc.
  - rewrite A6, B6; simpl. rewrite Z.add_0_r, sat_add_sat_add; try done; [apply H6|].
    apply Hn. intros; by apply call_weights.
  - rewrite A7, B7; simpl. rewrite !Z.add_0_r, !sat_add_sat_add; try done;
      try apply H7; try apply H7'; apply Hn; intros; by apply call_weights.
Qed.

Lemma performed_cons l k ks :
  performed l (k :: ks) = if took l k then k :: performed (call l k) ks else performed l ks.
Proof. by destruct k. Qed.

Lemma call_untaken l k : took l k = false -> call l k = l.
Proof. destruct k; try done. rewrite call_admit. simpl. by intros ->. Qed.

Lemma performed_ok ks : forall l, Forall call_ok ks -> Forall call_ok (performed l ks).
Proof.
  induction ks as [|k ks IH]; intros l Hks; [done|]. apply Forall_cons in Hks as [Hk Hks].
  rewrite performed_cons. destruct (took l k); [constructor|]; auto.
Qed.

(** The ledger after any sequence of calls is the ledger before plus what the
    calls that took effect weigh. *)
Lemma calls_tally ks : forall l, ledger_ok l -> Forall call_ok ks ->
  tallies l (performed l ks) (calls l ks).
Proof.
  induction ks as [|k ks IH]; intros l Hl Hks; [by apply tallies_nil|].
  apply Forall_cons in Hks as [Hk Hks]. rewrite performed_cons. simpl.
  destruct (took l k) eqn:Ht.
  - apply tallies_step; auto using performed_ok, call_ledger_ok.
  - rewrite (call_untaken _ _ Ht). by apply IH.
Qed.

(** ** The clock *)

Definition earliest (ts : list Timestamp) (t : Timestamp) : Timestamp := foldr Z.min t ts.
Definition latest (ts : list Timestamp) (t : Timestamp) : Timestamp := foldr Z.max t ts.

(** The elapsed figure of a set of readings: the distance of its extremes, in
    second boundaries. *)
Definition elapsed (ts : list Timestamp) : Z :=
  match ts with
  | [] => 0
  | t :: ts => u64_or_max (unix_timestamp (latest ts t) - unix_timestamp (earliest ts t))
  end.
Definition extremes (ts : list Timestamp) : option Timestamp * option Timestamp :=
  match ts with [] => (None, None) | t :: ts => (Some (earliest ts t), Some (latest ts t)) end.

Lemma earliest_spec ts t : (earliest ts t = t \/ earliest ts t ∈ ts)
  /\ earliest ts t <= t /\ forall u, u ∈ ts -> earliest ts t <= u.
Proof.
  induction ts as [|a ts (IH1 & IH2 & IH3)]; simpl.
  - split_and!; [by left|lia|]. intros u Hu. by apply elem_of_nil in Hu.
  - split_and!; [| |intros u [->|Hu]%elem_of_cons]; try specialize (IH3 u Hu); try lia.
    destruct (Z.min_spec a (earliest ts t)) as [[_ ->]|[_ ->]]; [right; by left|].
    destruct IH1; [by left|]. right. by right.
Qed.

Lemma latest_spec ts t : (latest ts t = t \/ latest ts t ∈ ts)
  /\ t <= latest ts t /\ forall u, u ∈ ts -> u <= latest ts t.
Proof.
  induction ts as [|a ts (IH1 & IH2 & IH3)]; simpl.
  - split_and!; [by left|lia|]. intros u Hu. by apply elem_of_nil in Hu.
  - split_and!; [| |intros u [->|Hu]%elem_of_cons]; try specialize (IH3 u Hu); try lia.
    destruct (Z.max_spec a (latest ts t)) as [[_ ->]|[_ ->]]; [|right; by left].
    destruct IH1; [by left|]. right. by right.
Qed.

Lemma earliest_snoc ts t u : earliest (ts ++ [u]) t = Z.min (earliest ts t) u.
Proof. induction ts as [|a ts IH]; simpl; [lia|]. rewrite IH. lia. Qed.
Lemma latest_snoc ts t u : latest (ts ++ [u]) t = Z.max (latest ts t) u.
Proof. induction ts as [|a ts IH]; simpl; [lia|]. rewrite IH. lia. Qed.

Lemma unix_mono a b : a <= b -> unix_timestamp a <= unix_timestamp b.
Proof. intros. unfold unix_timestamp. apply Z.div_le_mono; lia. Qed.

(** What the readings made of the clock fields: the extremes, and nothing
    else touches them. *)
Record clocked (l : Ledger) (ts : list Timestamp) : Prop := {
  cl_extremes : (first l, last l) = extremes ts;
  cl_elapsed : elapsed_secs (consumed l) = elapsed ts;
}.

Lemma clocked_call l k ts : clocked l ts -> clocked (call l k) (ts ++ readings [k]).
Proof.
  intros [He Hs]. destruct k as [o|o|s|s|s o| | |t];
    try (rewrite app_nil_r, ?call_admit; repeat case_match; split; done).
  unfold readings. cbn [omap list_omap call].
  destruct ts as [|t0 ts]; simpl in He; injection He as Hf Hl.
  - unfold observe_clock. split; simpl; rewrite Hf, Hl; [done|].
    rewrite Z.max_l by lia. done.
  - unfold observe_clock. split; simpl; rewrite Hf, Hl, earliest_snoc, latest_snoc.
    + f_equal; f_equal; destruct (Z.leb_spec (earliest ts t0) t), (Z.leb_spec t (latest ts t0)); lia.
    + assert (forall a b, (if a <=? b then a else b) = Z.min a b) as Hmin
        by (intros a b; destruct (Z.leb_spec a b); lia).
      assert (forall a b, (if b <=? a then a else b) = Z.max a b) as Hmax
        by (intros a b; destruct (Z.leb_spec b a); lia).
      rewrite Hmin, Hmax, Z.max_l; [done|].
      assert (earliest ts t0 <= latest ts t0).
      { destruct (earliest_spec ts t0) as (_ & ? & _), (latest_spec ts t0) as (_ & ? & _). lia. }
      pose proof (unix_mono (Z.min (earliest ts t0) t) (Z.max (latest ts t0) t)). lia.
Qed.

Lemma clocked_calls ks : forall l ts, clocked l ts -> clocked (calls l ks) (ts ++ readings ks).
Proof.
  induction ks as [|k ks IH]; intros l ts Hc; [by rewrite app_nil_r|].
  change (k :: ks) with ([k] ++ ks). unfold readings. rewrite omap_app, app_assoc.
  apply IH, clocked_call, Hc.
Qed.

Lemma clocked_new b : clocked (ledger_new b) [].
Proof. done. Qed.

Lemma extremes_perm ts ts' : ts ≡ₚ ts' -> extremes ts = extremes ts' /\ elapsed ts = elapsed ts'.
Proof.
  intros Hp. destruct ts as [|t ts]; [apply Permutation_nil_l in Hp; by subst|].
  destruct ts' as [|t' ts']; [by apply Permutation_nil_r in Hp|].
  assert (forall u, u ∈ t :: ts <-> u ∈ t' :: ts') as Hin by (intros u; by rewrite Hp).
  setoid_rewrite elem_of_cons in Hin.
  destruct (earliest_spec ts t) as (A1 & A2 & A3), (earliest_spec ts' t') as (B1 & B2 & B3).
  destruct (latest_spec ts t) as (C1 & C2 & C3), (latest_spec ts' t') as (D1 & D2 & D3).
  assert (forall u, u = t \/ u ∈ ts -> earliest ts t <= u /\ u <= latest ts t) as H1
    by (intros u [->|Hu]; auto).
  assert (forall u, u = t' \/ u ∈ ts' -> earliest ts' t' <= u /\ u <= latest ts' t') as H2
    by (intros u [->|Hu]; auto).
  assert (earliest ts t = earliest ts' t') as He.
  { apply Z.le_antisymm; [apply H1, Hin|apply H2, Hin]; done. }
  assert (latest ts t = latest ts' t') as Hl.
  { apply Z.le_antisymm; [apply H2, Hin|apply H1, Hin]; done. }
  simpl. by rewrite He, Hl.
Qed.

(** ** Ceilings *)

Lemma check_limit_ok limit over e :
  check_limit limit over e = Ok tt <-> forall m, limit = Some m -> over m = false.
Proof.
  unfold check_limit. destruct limit as [m|]; [|by split].
  destruct (over m) eqn:Ho; split; try done; [|naive_solver].
  intros H. by specialize (H m eq_refl); rewrite Ho in H.
Qed.

Record admits (l : Ledger) (o : Z) : Prop := {
  ad_denials : forall m, max_denials (budget l) = Some m -> denials (consumed l) <= m;
  ad_effects : forall m, max_effects (budget l) = Some m -> effects (consumed l) < m;
  ad_tokens : forall m, max_tokens (budget l) = Some m -> tokens (spend (consumed l)) < m;
  ad_money : forall m, max_minor_units (budget l) = Some m -> minor_units (spend (consumed l)) < m;
  ad_egress : forall m, max_egress_bytes (budget l) = Some m ->
    sat_add (egress_bytes (consumed l)) o <= m;
  ad_time : forall m, max_wallclock_secs (budget l) = Some m -> elapsed_secs (consumed l) < m;
}.

Lemma can_admit_effect_ok l o : can_admit_effect l o = Ok tt <-> admits l o.
Proof.
  unfold can_admit_effect, check_denials, check_time.
  rewrite !result_bind_ok. split.
  - intros ([] & H1 & H2). apply result_bind_ok in H2 as ([] & H2 & H3).
    apply result_bind_ok in H3 as ([] & H3 & H4). apply result_bind_ok in H4 as ([] & H4 & H5).
    apply result_bind_ok in H5 as ([] & H5 & H6). rewrite check_limit_ok in *.
    split; intros m Hm; [pose proof (H1 m Hm)|pose proof (H2 m Hm)|pose proof (H3 m Hm)
      |pose proof (H4 m Hm)|pose proof (H5 m Hm)|pose proof (H6 m Hm)]; lia.
  - intros [H1 H2 H3 H4 H5 H6]. exists tt. split; [|repeat (apply result_bind_ok; exists tt; split)].
    all: apply check_limit_ok; intros m Hm; (apply Z.ltb_ge || apply Z.leb_gt); auto.
Qed.

Lemma refused_iff l o : is_ok (can_admit_effect l o) = false <-> ~ admits l o.
Proof.
  rewrite <- can_admit_effect_ok. destruct (can_admit_effect l o) as [[]|]; simpl; naive_solver.
Qed.

Lemma admits_mono l o l' o' : admits l' o' -> budget l = budget l' ->
  denials (consumed l) <= denials (consumed l') -> effects (consumed l) <= effects (consumed l') ->
  tokens (spend (consumed l)) <= tokens (spend (consumed l')) ->
  minor_units (spend (consumed l)) <= minor_units (spend (consumed l')) ->
  egress_bytes (consumed l) <= egress_bytes (consumed l') ->
  elapsed_secs (consumed l) <= elapsed_secs (consumed l') -> o <= o' -> admits l o.
Proof.
  intros [H1 H2 H3 H4 H5 H6] Hb Hd He Ht Hm Hg Hs Ho. rewrite <- Hb in *.
  split; intros m Hx; [specialize (H1 m Hx)|specialize (H2 m Hx)|specialize (H3 m Hx)
    |specialize (H4 m Hx)|specialize (H5 m Hx)|specialize (H6 m Hx)]; unfold sat_add in *; lia.
Qed.

(** ** Consumption only grows *)

Lemma elapsed_le ts t ts' : elapsed (t :: ts) <= elapsed (t :: ts ++ ts').
Proof.
  simpl. assert (forall a b, 0 <= a <= b -> u64_or_max a <= u64_or_max b) as Hm.
  { intros a b Hab. unfold u64_or_max. repeat case_decide; unfold u64_max in *; lia. }
  apply Hm.
  destruct (earliest_spec ts t) as (E1 & E2 & E3), (latest_spec ts t) as (L1 & L2 & L3).
  destruct (earliest_spec (ts ++ ts') t) as (_ & F2 & F3).
  destruct (latest_spec (ts ++ ts') t) as (_ & M2 & M3).
  pose proof (unix_mono (earliest ts t) (latest ts t) ltac:(lia)).
  assert (earliest (ts ++ ts') t <= earliest ts t) as He.
  { destruct E1 as [->|Hin]; [done|]. apply F3, elem_of_app. by left. }
  assert (latest ts t <= latest (ts ++ ts') t) as Hl.
  { destruct L1 as [->|Hin]; [done|]. apply M3, elem_of_app. by left. }
  pose proof (unix_mono _ _ He). pose proof (unix_mono _ _ Hl). lia.
Qed.

Lemma elapsed_app ts ts' : elapsed ts <= elapsed (ts ++ ts').
Proof.
  destruct ts as [|t ts]; [|apply elapsed_le]. simpl.
  destruct ts'; simpl; [lia|]. apply u64_or_max_ok.
Qed.

Lemma total_slots_le ks l : total slots (performed l ks) <= Z.of_nat (length ks).
Proof.
  revert l. induction ks as [|k ks IH]; intros l; [simpl; lia|]. rewrite performed_cons.
  destruct (took l k); [specialize (IH (call l k))|specialize (IH l)];
    cbn [total foldr length] in *; unfold total in *; [|lia]. destruct k; cbn [slots denied]; lia.
Qed.
Lemma total_denied_le ks l : total denied (performed l ks) <= Z.of_nat (length ks).
Proof.
  revert l. induction ks as [|k ks IH]; intros l; [simpl; lia|]. rewrite performed_cons.
  destruct (took l k); [specialize (IH (call l k))|specialize (IH l)];
    cbn [total foldr length] in *; unfold total in *; [|lia]. destruct k; cbn [slots denied]; lia.
Qed.

Lemma performed_weights l ks : Forall call_ok ks ->
  0 <= total slots (performed l ks) /\ 0 <= total denied (performed l ks)
  /\ 0 <= total bytes (performed l ks) /\ 0 <= total (tokens ∘ cost) (performed l ks)
  /\ 0 <= total (minor_units ∘ cost) (performed l ks).
Proof.
  intros Hks. apply (performed_ok _ l) in Hks.
  assert (forall f, (forall k, call_ok k -> 0 <= f k) -> 0 <= total f (performed l ks)) as Hn.
  { intros f Hf. apply total_nonneg. intros j Hj. apply Hf. by apply (proj1 (Forall_forall _ _) Hks). }
  split_and!; apply Hn; intros k Hk; destruct (call_weights k Hk) as (? & ? & ? & ? & ?); try done;
    destruct k; simpl; lia.
Qed.

Lemma wrap_usize_grow a n : u64_ok a -> 0 <= n -> a + n <= usize_max -> a <= wrap_usize (a + n).
Proof. unfold u64_ok. intros. rewrite wrap_usize_small; unfold u64_ok; lia. Qed.
Lemma wrap_u32_grow a n : u32_ok a -> 0 <= n -> a + n <= u32_max -> a <= wrap_u32 (a + n).
Proof. unfold u32_ok. intros. rewrite wrap_u32_small; unfold u32_ok; lia. Qed.

(** ** Properties *)

(** Counts are exact.  Whatever a run's passes interleave (admissions,
    exempt announcements, replayed history, billing, denials, clock readings),
    when an effect is admitted the announcements made so far, this one
    included, are within [max_effects], and the bytes announced are within
    [max_egress_bytes] (unless that ceiling is [u64::MAX], where the saturating
    sum cannot exceed it).  The [usize] counter cannot wrap in fewer than
    [usize::MAX] calls. *)
Theorem exact_ceilings b ks o l' :
  Forall call_ok ks -> u64_ok o -> Z.of_nat (length ks) <= usize_max ->
  admit_effect (calls (ledger_new b) ks) o = Ok l' ->
  (forall m, max_effects b = Some m -> total slots (performed (ledger_new b) ks) + 1 <= m)
  /\ (forall m, max_egress_bytes b = Some m -> m < u64_max ->
       total bytes (performed (ledger_new b) ks) + o <= m).
Proof.
  intros Hks Ho Hlen Hadm. apply admit_effect_ok_inv in Hadm as [Hadm _].
  apply can_admit_effect_ok in Hadm as [_ He _ _ Hg _]. rewrite calls_budget in *.
  destruct (calls_tally ks _ (ledger_new_ok b) Hks) as [_ Te _ _ _ Tg _].
  pose proof (total_slots_le ks (ledger_new b)).
  destruct (performed_weights (ledger_new b) ks Hks) as (? & _ & ? & _).
  rewrite Te in He. rewrite Tg in Hg. cbn in He, Hg. split; intros m Hm.
  - specialize (He m Hm). rewrite wrap_usize_small in He; unfold u64_ok; lia.
  - specialize (Hg m Hm). unfold sat_add, u64_ok in *. lia.
Qed.

(** A refusal is final.  Once an effect is refused, nothing the run does
    afterwards (spending, counting, reading clocks, being denied, being
    admitted smaller effects) makes the ledger admit an effect at least as
    large, so a run cannot wait out its own budget. *)
Theorem refusal_final l ks o o' :
  ledger_ok l -> Forall call_ok ks -> o <= o' ->
  effects (consumed l) + Z.of_nat (length ks) <= usize_max ->
  denials (consumed l) + Z.of_nat (length ks) <= u32_max ->
  (exists ts, clocked l ts) ->
  is_ok (can_admit_effect l o) = false -> is_ok (can_admit_effect (calls l ks) o') = false.
Proof.
  intros Hl Hks Ho He Hd [ts Hc]. rewrite !refused_iff. intros Hno Ha. apply Hno.
  destruct (calls_tally ks _ Hl Hks) as [_ Te Tt Tm Td Tg _].
  destruct (performed_weights l ks Hks) as (Ws & Wd & Wb & Wt & Wm).
  pose proof (total_slots_le ks l). pose proof (total_denied_le ks l).
  pose proof (cl_elapsed _ _ (clocked_calls ks l ts Hc)) as Hel.
  destruct Hl as [H1 H2 [H3 H3'] H4 H5 H6 [H7 H7']].
  apply (admits_mono _ _ _ _ Ha); [by rewrite calls_budget|..|done].
  - rewrite Td. apply wrap_u32_grow; [done..|lia].
  - rewrite Te. apply wrap_usize_grow; [done..|lia].
  - rewrite Tt. by apply sat_add_ge.
  - rewrite Tm. by apply sat_add_ge.
  - rewrite Tg. by apply sat_add_ge.
  - rewrite Hel, (cl_elapsed _ _ Hc). apply elapsed_app.
Qed.

(** Elapsed time belongs to the readings, not to their arrival.  Two passes
    that read the same instants in any order, interleaved with any other calls,
    hold the same extremes and the same elapsed figure; and no further reading,
    a backwards clock included, lowers it. *)
Theorem elapsed_order_independent b ks ks' more :
  readings ks ≡ₚ readings ks' ->
  let l := calls (ledger_new b) ks in
  let l' := calls (ledger_new b) ks' in
  (first l, last l) = (first l', last l')
  /\ elapsed_secs (consumed l) = elapsed_secs (consumed l')
  /\ elapsed_secs (consumed l) <= elapsed_secs (consumed (calls l more)).
Proof.
  intros Hp l l'. destruct (extremes_perm _ _ Hp) as [He Hs].
  pose proof (clocked_calls ks _ _ (clocked_new b)) as [A1 A2].
  pose proof (clocked_calls ks' _ _ (clocked_new b)) as [B1 B2].
  pose proof (clocked_calls more _ _ (clocked_calls ks _ _ (clocked_new b))) as [C1 C2].
  unfold l, l'. rewrite C2, A2, B2, A1, B1. split_and!; [exact He|exact Hs|apply elapsed_app].
Qed.

Lemma check_limit_new limit over e :
  (forall m, limit = Some m -> over m = (m <=? 0)) -> (forall m, limit = Some m -> 0 <= m) ->
  check_limit limit over e = Ok tt <-> is_zero limit = false.
Proof.
  intros Ho Hm. rewrite check_limit_ok. unfold is_zero. rewrite bool_decide_eq_false.
  split.
  - intros Hall ->. specialize (Hall 0 eq_refl). by rewrite (Ho 0 eq_refl) in Hall.
  - intros Hne m ->. rewrite (Ho m eq_refl). specialize (Hm m eq_refl). apply Z.leb_gt.
    destruct (decide (m = 0)) as [->|]; [done|lia].
Qed.

(** Every limit a [u64]/[usize]/[u32]: none is negative. *)
Definition budget_ok (b : Budget) : Prop :=
  forall m, Some m ∈ [max_steps b; max_effects b; max_tokens b; max_minor_units b;
                      max_wallclock_secs b; max_parallel_steps b; max_denials b; max_egress_bytes b] ->
  0 <= m.

(** [bricked_ceiling] is exact: it finds no fault in a budget if and only
    if a run that has done nothing may start a step, may perform an effect that
    sends nothing, and has a positive width. *)
Theorem bricked_ceiling_exact b : budget_ok b ->
  bricked_ceiling b = None <->
    admit_step (ledger_new b) 0 = Ok tt /\ can_admit_effect (ledger_new b) 0 = Ok tt
    /\ 0 < parallelism b.
Proof.
  intros Hb. assert (forall x, x ∈ [max_steps b; max_effects b; max_tokens b; max_minor_units b;
                      max_wallclock_secs b; max_parallel_steps b; max_denials b; max_egress_bytes b] ->
    forall m, x = Some m -> 0 <= m) as Hn by (intros x Hx m ->; by apply Hb).
  assert (0 < parallelism b <-> is_zero (max_parallel_steps b) = false) as ->.
  { unfold parallelism, is_zero, u64_max. rewrite bool_decide_eq_false.
    pose proof (Hn (max_parallel_steps b) ltac:(set_solver)).
    destruct (max_parallel_steps b) as [m|]; [|naive_solver lia].
    specialize (H m eq_refl). split; [naive_solver lia|]. intros Hne.
    destruct (decide (m = 0)) as [->|]; [done|lia]. }
  assert (check_denials (ledger_new b) = Ok tt) as Hd.
  { apply check_limit_ok. intros m Hm. apply Z.ltb_ge. cbn in *.
    apply (Hn (max_denials b)); [set_solver|done]. }
  assert (check_limit (max_egress_bytes b) (fun m => m <? sat_add 0 0)
            (fun m => Egress m 0 0) = Ok tt) as Hg.
  { apply check_limit_ok. intros m Hm. apply Z.ltb_ge. cbn.
    apply (Hn (max_egress_bytes b)); [set_solver|done]. }
  unfold admit_step, can_admit_effect. rewrite Hd. cbn [budget ledger_new consumed egress_bytes].
  rewrite Hg. simpl. unfold check_time. cbn [budget ledger_new consumed elapsed_secs].
  repeat setoid_rewrite result_bind_ok.
  assert (forall P : unit -> Prop, (exists t, P t) <-> P tt) as Hex
    by (intros P; split; [by intros ([] & ?)|by exists tt]).
  rewrite !Hex.
  rewrite !check_limit_new by (done || (apply Hn; set_solver)).
  unfold bricked_ceiling. repeat case_match; naive_solver.
Qed.

(** ** Live passes and replays bill the same *)

(** An attempt as its records hold it: what it sent and every figure they
    report, superseded ones included. *)
Record Attempt := mk_attempt { outbound : Z; figures : list Spend }.
Definition live_calls (a : Attempt) : list Call := Admit (outbound a) :: (BillLive <$> figures a).
Definition billed (ss : list Spend) : Spend := foldr plus spend_zero ss.
Definition replay_call (a : Attempt) : Call := Replay (billed (figures a)) (outbound a).
Definition attempt_ok (a : Attempt) : Prop := u64_ok (outbound a) /\ Forall spend_ok (figures a).

Lemma total_concat f kss : total f (concat kss) = foldr (fun ks n => total f ks + n) 0 kss.
Proof. induction kss as [|ks kss IH]; simpl; [done|]. by rewrite total_app, IH. Qed.

Lemma billed_sum (f : Spend -> Z) ss :
  (forall a b, f (plus a b) = sat_add (f a) (f b)) -> f spend_zero = 0 ->
  Forall (fun s => u64_ok (f s)) ss ->
  f (billed ss) = Z.min u64_max (foldr (fun s n => f s + n) 0 ss) /\ 0 <= foldr (fun s n => f s + n) 0 ss.
Proof.
  intros Hp Hz. induction 1 as [|s ss Hs Hss IH]; simpl; [by rewrite Hz|].
  destruct IH as [IH Hn]. rewrite Hp, IH. unfold sat_add, u64_ok in *. lia.
Qed.

Lemma elapsed_unclocked ks : forall l, readings ks = [] ->
  elapsed_secs (consumed (calls l ks)) = elapsed_secs (consumed l).
Proof.
  induction ks as [|k ks IH]; intros l Hr; [done|].
  destruct k; simpl in *; try discriminate Hr; rewrite IH by done; try done.
  destruct (admit_effect l outbound0) as [l'|] eqn:Ha; [|done].
  by apply admit_effect_ok_inv in Ha as [_ ->].
Qed.

(** Summing the saturated bills of the attempts saturates to the same figure as
    summing every figure. *)
Lemma saturated_bills (f : Spend -> Z) (ats : list Attempt) x :
  (forall a b, f (plus a b) = sat_add (f a) (f b)) -> f spend_zero = 0 ->
  Forall (fun a => Forall (fun s => u64_ok (f s)) (figures a)) ats -> 0 <= x ->
  sat_add x (total (f ∘ cost) (concat (live_calls <$> ats)))
    = sat_add x (total (f ∘ cost) (replay_call <$> ats)).
Proof.
  intros Hp Hz Hats Hx.
  assert (forall a, total (f ∘ cost) (live_calls a) = foldr (fun s n => f s + n) 0 (figures a)) as Hl.
  { intros a. unfold live_calls. rewrite total_cons. simpl. rewrite Hz.
    induction (figures a) as [|s ss IH]; [done|].
    rewrite fmap_cons, total_cons. simpl in *. lia. }
  assert (0 <= total (f ∘ cost) (replay_call <$> ats)
    /\ 0 <= total (f ∘ cost) (concat (live_calls <$> ats))
    /\ forall y, 0 <= y -> sat_add y (total (f ∘ cost) (concat (live_calls <$> ats)))
         = sat_add y (total (f ∘ cost) (replay_call <$> ats))) as (_ & _ & H); [|by apply H].
  clear x Hx. induction Hats as [|a ats Ha Hats (IH1 & IH2 & IH)]; [done|].
  rewrite !fmap_cons, concat_cons, total_app, Hl, total_cons.
  change ((f ∘ cost) (replay_call a)) with (f (billed (figures a))).
  destruct (billed_sum f (figures a) Hp Hz Ha) as [-> Hn].
  split_and!; [unfold u64_max; lia|lia|]. intros y Hy.
  rewrite <- (sat_add_sat_add y), <- (sat_add_sat_add y) by (unfold u64_max; lia).
  rewrite IH by (unfold sat_add, u64_max; lia). f_equal.
  unfold sat_add, u64_max. lia.
Qed.

(** A weight that is zero on bills counts an attempt once, on either pass. *)
Lemma counted_once f (ats : list Attempt) :
  (forall s, f (BillLive s) = 0) -> (forall s o, f (Replay s o) = f (Admit o)) ->
  total f (concat (live_calls <$> ats)) = total f (replay_call <$> ats).
Proof.
  intros Hb Hr. induction ats as [|a ats IH]; [done|].
  rewrite !fmap_cons, concat_cons, total_app, total_cons, IH. unfold replay_call at 2.
  rewrite Hr. f_equal. unfold live_calls. rewrite total_cons.
  induction (figures a) as [|s ss IHs]; [apply Z.add_0_r|].
  rewrite fmap_cons, total_cons, Hb. done.
Qed.

Lemma readings_nil ks : (forall k, k ∈ ks -> readings [k] = []) -> readings ks = [].
Proof.
  induction ks as [|k ks IH]; intros Hall; [done|]. unfold readings in *.
  change (k :: ks) with ([k] ++ ks). rewrite omap_app, Hall by by left.
  apply IH. intros j Hj. apply Hall. by right.
Qed.

Lemma consumed_eq (c c' : Consumed) :
  steps c = steps c' -> effects c = effects c' -> spend c = spend c' ->
  elapsed_secs c = elapsed_secs c' -> denials c = denials c' -> egress_bytes c = egress_bytes c' ->
  c = c'.
Proof. destruct c, c'; simpl; naive_solver. Qed.

Lemma spend_eq (s s' : Spend) :
  tokens s = tokens s' -> minor_units s = minor_units s' -> s = s'.
Proof. destruct s, s'; simpl; naive_solver. Qed.

(** C33. One announcement, one slot, on every pass.  However a live pass
    interleaves its attempts' admissions and bills, and in whatever order the
    pass that reads the journal replays those attempts, both end with the same
    consumption: slots, tokens, money and bytes, superseded figures included
    and saturation included.  Only the live pass accrues live spend. *)
Theorem live_replay_same_bill l (ats : list Attempt) ks rs :
  ledger_ok l -> Forall attempt_ok ats ->
  ks ≡ₚ concat (live_calls <$> ats) -> performed l ks = ks ->
  rs ≡ₚ replay_call <$> ats ->
  consumed (calls l ks) = consumed (calls l rs) /\ live (calls l rs) = live l.
Proof.
  intros Hl Hats Hks Hperf Hrs.
  assert (Forall call_ok ks) as Hkok.
  { rewrite Hks, Forall_concat, Forall_fmap. apply (Forall_impl _ _ _ Hats). intros a [Ho Hf].
    constructor; [split; [done|apply spend_zero_ok]|]. apply Forall_fmap, (Forall_impl _ _ _ Hf).
    intros s Hs. split; [apply u64_0|done]. }
  assert (Forall call_ok rs) as Hrok.
  { rewrite Hrs. apply Forall_fmap, (Forall_impl _ _ _ Hats). intros a [Ho Hf]. split; [done|].
    simpl. clear -Hf. induction Hf; simpl; [apply spend_zero_ok|by apply plus_ok]. }
  assert (performed l rs = rs) as Hrperf.
  { assert (Forall (fun k => exists s o, k = Replay s o) rs) as Hall.
    { rewrite Hrs. apply Forall_fmap, Forall_true. intros a. by eexists _, _. }
    clear -Hall. revert l. induction Hall as [|k rs (s & o & ->) _ IH]; intros l; [done|].
    simpl. by rewrite IH. }
  destruct (calls_tally ks l Hl Hkok) as [K1 K2 K3 K4 K5 K6 K7].
  destruct (calls_tally rs l Hl Hrok) as [R1 R2 R3 R4 R5 R6 R7].
  rewrite Hperf in *. rewrite Hrperf in *.
  pose proof (fun f => total_perm f _ _ Hks) as Pk. pose proof (fun f => total_perm f _ _ Hrs) as Pr.
  rewrite Pk in K1, K2, K3, K4, K5, K6. rewrite Pr in R1, R2, R3, R4, R5, R6. rewrite !Pr in R7.
  destruct Hl as [H1 H2 [H3 H3'] H4 H5 H6 [H7 H7']].
  split.
  - apply consumed_eq; [| |apply spend_eq| | |].
    + rewrite K1, R1. do 2 f_equal. by apply counted_once.
    + rewrite K2, R2. do 2 f_equal. by apply counted_once.
    + rewrite K3, R3. apply saturated_bills; [done..| |apply H3].
      apply (Forall_impl _ _ _ Hats). intros a [_ Hf]. apply (Forall_impl _ _ _ Hf). by intros s [].
    + rewrite K4, R4. apply saturated_bills; [done..| |apply H3'].
      apply (Forall_impl _ _ _ Hats). intros a [_ Hf]. apply (Forall_impl _ _ _ Hf). by intros s [].
    + rewrite !elapsed_unclocked; [done| |].
      * apply readings_nil. intros k. rewrite Hrs, list_elem_of_fmap. by intros (a & -> & _).
      * apply readings_nil. intros k. rewrite Hks, elem_of_concat.
        intros (? & (a & -> & _)%list_elem_of_fmap & Hin). apply elem_of_cons in Hin as [->|Hin]; [done|].
        by apply list_elem_of_fmap in Hin as (s & -> & _).
    + rewrite K5, R5. do 2 f_equal. by apply counted_once.
    + rewrite K6, R6. f_equal. by apply counted_once.
  - rewrite R7. assert (forall f : Spend -> Z, f spend_zero = 0 ->
      total (f ∘ live_cost) (replay_call <$> ats) = 0) as Hz.
    { intros f Hf. clear -Hf. induction ats as [|a ats IH]; [done|].
      rewrite fmap_cons, total_cons, IH. simpl. rewrite Hf. lia. }
    rewrite !Hz, !sat_add_0_r by done. by destruct (live l).
Qed.

(** ** Metered ceilings overshoot by what is in flight *)

(** A ledger with [n] admitted and unbilled operations, at most [w] at once,
    each reporting at most [c] ([max_call_tokens] and [max_call_minor_units]). *)
Inductive flight (b : Budget) (w : Z) (c : Spend) : Ledger -> Z -> Prop :=
| flight_new : flight b w c (ledger_new b) 0
| flight_admit l n o l' :
    flight b w c l n -> n < w -> admit_effect l o = Ok l' -> flight b w c l' (n + 1)
| flight_bill l n s :
    flight b w c l n -> 0 < n -> 0 <= tokens s <= tokens c -> 0 <= minor_units s <= minor_units c ->
    flight b w c (record_live_spend l s) (n - 1)
| flight_step l n : flight b w c l n -> flight b w c (record_step l) n
| flight_denial l n : flight b w c l n -> flight b w c (record_denial l).1 n
| flight_clock l n at_ : flight b w c l n -> flight b w c (observe_clock l at_) n.

Lemma flight_budget b w c l n : flight b w c l n -> budget l = b /\ 0 <= n.
Proof.
  induction 1 as [|l n o l' _ [IH1 IH2] Hn Ha| | | |]; simpl in *; try lia; try done.
  - apply admit_effect_ok_inv in Ha as [_ ->]. split; [done|lia].
  - destruct IHflight. split; [done|lia].
Qed.

Lemma flight_metered b w c l n : flight b w c l n -> 0 <= w -> 0 <= tokens c -> 0 <= minor_units c ->
  (forall m, max_tokens b = Some m -> 0 < m ->
     tokens (spend (consumed l)) + n * tokens c <= m - 1 + w * tokens c)
  /\ (forall m, max_minor_units b = Some m -> 0 < m ->
     minor_units (spend (consumed l)) + n * minor_units c <= m - 1 + w * minor_units c).
Proof.
  intros Hf Hw Ht Hm.
  induction Hf as [|l n o l' Hf IH Hn Ha|l n s Hf IH Hn Hs Hs'|l n Hf IH|l n Hf IH|l n at_ Hf IH];
    try exact IH.
  - cbn. split; intros m _ Hm0; nia.
  - apply admit_effect_ok_inv in Ha as [[_ _ H3 H4 _ _]%can_admit_effect_ok ->].
    rewrite (proj1 (flight_budget _ _ _ _ _ Hf)) in *. cbn.
    split; intros m Hb Hm0; [specialize (H3 m Hb)|specialize (H4 m Hb)]; nia.
  - cbn. destruct IH as [IH1 IH2].
    pose proof (sat_add_le (tokens (spend (consumed l))) (tokens s)).
    pose proof (sat_add_le (minor_units (spend (consumed l))) (minor_units s)).
    split; intros m Hb Hm0; [specialize (IH1 m Hb Hm0)|specialize (IH2 m Hb Hm0)]; nia.
Qed.

(** A metered ceiling overshoots by at most what was in flight: with at
    most [w] operations admitted and unbilled at any time, each reporting at
    most [c], a run whose ceiling is [m] never consumes more than
    [m - 1 + w * c], whatever order admissions and bills arrive in. *)
Theorem metered_overshoot b w c l n m :
  flight b w c l n -> 0 <= w -> 0 <= tokens c -> 0 <= minor_units c -> 0 < m ->
  (max_tokens b = Some m -> tokens (spend (consumed l)) <= m - 1 + w * tokens c)
  /\ (max_minor_units b = Some m -> minor_units (spend (consumed l)) <= m - 1 + w * minor_units c).
Proof.
  intros Hf Hw Ht Hm Hm0. destruct (flight_metered _ _ _ _ _ Hf Hw Ht Hm) as [A B].
  destruct (flight_budget _ _ _ _ _ Hf) as [_ Hn].
  split; intros Hb; [specialize (A m Hb Hm0)|specialize (B m Hb Hm0)]; nia.
Qed.

(** Parsing a ceiling's name inverts naming it: nine names, no two alike. *)
Lemma ceiling_roundtrip c : ceiling_parse (ceiling_as_str c) = Some c.
Proof. by destruct c. Qed.
Lemma ceiling_parse_sound s c : ceiling_parse s = Some c -> ceiling_as_str c = s.
Proof. intros H. apply List.find_some in H as [_ H]. by apply bool_decide_eq_true in H. Qed.

(** ** A concrete run *)

Module BudgetWitness.
Definition small : Budget :=
  mk_budget (Some 3) (Some 2) (Some 10) None None (Some 60) None None (Some 100) None None.
Definition history : list Call :=
  [Clock 5000000000; Admit 30; BillLive (mk_spend 4 0); Replay (mk_spend 1 0) 20; Clock 1000000000].

Lemma u64_small x : bool_decide (0 <= x <= u64_max) = true -> u64_ok x.
Proof. apply bool_decide_eq_true. Qed.

Lemma history_ok : Forall call_ok history.
Proof. repeat constructor; apply u64_small; reflexivity. Qed.

Lemma exact_ceilings_witness :
  total slots (performed (ledger_new small) [Admit 30]) + 1 <= 2.
Proof.
  destruct (exact_ceilings small [Admit 30] 50
    (count_effect (calls (ledger_new small) [Admit 30]) 50)) as [He _].
  - repeat constructor; apply u64_small; reflexivity.
  - by apply u64_small.
  - done.
  - reflexivity.
  - by apply He.
Defined.

Lemma refusal_final_witness :
  is_ok (can_admit_effect (calls (ledger_new small) history) 7) = false
  /\ is_ok (can_admit_effect (calls (calls (ledger_new small) history) [Admit 1; Step; Denial]) 9) = false.
Proof.
  assert (is_ok (can_admit_effect (calls (ledger_new small) history) 7) = false) as Hr by reflexivity.
  split; [exact Hr|].
  apply (refusal_final (calls (ledger_new small) history) [Admit 1; Step; Denial] 7 9).
  - apply calls_ledger_ok; [apply history_ok|apply ledger_new_ok].
  - repeat constructor; apply u64_small; reflexivity.
  - done.
  - vm_compute. done.
  - vm_compute. done.
  - eexists. apply clocked_calls, clocked_new.
  - exact Hr.
Defined.

Lemma elapsed_order_independent_witness :
  elapsed_secs (consumed (calls (ledger_new small) history))
    = elapsed_secs (consumed (calls (ledger_new small) [Clock 1000000000; Step; Clock 5000000000])).
Proof.
  apply (elapsed_order_independent small history [Clock 1000000000; Step; Clock 5000000000] []).
  apply Permutation_swap.
Defined.

Lemma bricked_ceiling_exact_witness : can_admit_effect (ledger_new small) 0 = Ok tt.
Proof.
  apply (bricked_ceiling_exact small); [|reflexivity].
  intros m Hm. rewrite !elem_of_cons, elem_of_nil in Hm. cbn in Hm.
  repeat destruct Hm as [Hm|Hm]; try done; injection Hm as ->; done.
Defined.

Definition two : list Attempt :=
  [mk_attempt 30 [mk_spend 2 0; mk_spend 3 1]; mk_attempt 5 [mk_spend 1 1]].
Lemma live_replay_same_bill_witness :
  consumed (calls (ledger_new small) [Admit 5; Admit 30; BillLive (mk_spend 2 0);
      BillLive (mk_spend 1 1); BillLive (mk_spend 3 1)])
    = consumed (calls (ledger_new small) (replay_call <$> two)).
Proof.
  apply (live_replay_same_bill (ledger_new small) two).
  - apply ledger_new_ok.
  - repeat constructor; apply u64_small; reflexivity.
  - evaluate.
  - reflexivity.
  - reflexivity.
Defined.

Lemma metered_overshoot_witness :
  let c := mk_spend 8 0 in
  tokens (spend (consumed (record_live_spend
    (count_effect (ledger_new small) 1) (mk_spend 8 0)))) <= 10 - 1 + 1 * 8.
Proof.
  apply (metered_overshoot small 1 (mk_spend 8 0) _ (0 + 1 - 1) 10); try done.
  apply (flight_bill small 1 (mk_spend 8 0) _ (0 + 1)); try done.
  apply (flight_admit small 1 (mk_spend 8 0) (ledger_new small) 0 1); [constructor|done|reflexivity].
Defined.
End BudgetWitness.
