(* ===== verification/Quota.v ===== *)
(** * Tenant quotas ([src/src/quota/mod.rs], [src/src/store/redb_quota.rs])

    What one tenant may use: concurrent runs, spend per period, dispatches per
    sliding window, and the halts that stop work.  [State] is one tenant's rows
    of the store's tables, each operation one write transaction on them.  A
    run id, a period key and an effect key are their text; an instant is its
    Unix second. *)

From S2P Require Import Prelude Digest Budget Identity.

(** ** Rate ceilings *)

Definition i64_max : Z := 9223372036854775807.
Definition i64_min : Z := -9223372036854775808.

Record RateCeiling := mk_ceiling { rc_count : Z; window_seconds : Z }.
#[export] Instance ceiling_eq_dec : EqDecision RateCeiling.
Proof. solve_decision. Defined.

Record RateReservation := mk_rate {
  rr_grant : str;
  rr_run : str;
  rr_dispatch : str;
  rr_ceilings : list RateCeiling;
  rr_at : Z;
  rr_exempt : bool;
}.

Definition MAX_RATE_WINDOW_SECONDS : Z := 31 * 86400.

(** [i64::saturating_sub] and [i64::try_from(n).unwrap_or(i64::MAX)]. *)
Definition i64_sat_sub (a b : Z) : Z := Z.max i64_min (Z.min i64_max (a - b)).
Definition rate_window_start (at_ window : Z) : Z := i64_sat_sub at_ (Z.min i64_max window).
Definition rate_prune_floor (at_ : Z) : Z := rate_window_start at_ MAX_RATE_WINDOW_SECONDS.

(** ** Quotas and holds *)

Inductive Period := Monthly | Daily.
Record TenantQuota := mk_quota {
  max_concurrent_runs : option Z;
  max_tokens_per_period : option Z;
  max_minor_units_per_period : option Z;
  period : Period;
}.
Definition is_some {A} (o : option A) : bool := match o with Some _ => true | None => false end.
Definition bounds_spend (q : TenantQuota) : bool :=
  is_some (max_tokens_per_period q) || is_some (max_minor_units_per_period q).
Definition is_unlimited (q : TenantQuota) : bool :=
  negb (is_some (max_concurrent_runs q)) && negb (bounds_spend q).

Record SpendHold := mk_hold { h_period : str; h_amount : Spend }.
Record QuotaSettlement := mk_settlement {
  qs_run : str;
  qs_epoch : Z;
  qs_period : option str;
  qs_spend : Spend;
  release_slot : bool;
  concludes : bool;
}.
#[export] Instance spend_eq_dec : EqDecision Spend.
Proof. solve_decision. Defined.

(** ** Halts *)

Inductive HaltScope :=
| HTenant | HAgent (name : str) | HRevision (digest : Digest) | HSubject (id : str).
#[export] Instance halt_scope_eq_dec : EqDecision HaltScope.
Proof. solve_decision. Defined.

Inductive QuotaError :=
| TooManyRuns (running : Z)
| SpentOut (period unit : str) (settled reserved requested limit : Z)
| Unbounded (unit field : str)
| Halted (scope : HaltScope) (reason : str)
| RateLimited (grant : str) (ceiling : RateCeiling) (reached : Z)
| UncountableRate (grant : str) (ceiling : RateCeiling)
| QuotaUnavailable (detail : str).

Definition check_rate (grant : str) (ceilings : list RateCeiling) (instants : list Z) (at_ : Z) :
    result QuotaError unit :=
  match head (filter (fun c => window_seconds c = 0 \/ MAX_RATE_WINDOW_SECONDS < window_seconds c)%Z ceilings) with
  | Some c => Err (UncountableRate grant c)
  | None =>
      let reached c := Z.of_nat (length (filter (fun t => rate_window_start at_ (window_seconds c) < t)%Z instants)) in
      match head (filter (fun c => rc_count c <= reached c)%Z ceilings) with
      | Some c => Err (RateLimited grant c (reached c))
      | None => Ok tt
      end
  end.

(** [reservation]: what a run can cost at most, per unit the quota bounds. *)
Definition hold_of (bounded : bool) (ceiling call : option Z) (names : str * str) (width : Z) : result str Z :=
  if negb bounded then Ok 0%Z else
  ceiling ← ok_or ceiling names.1;
  call ← ok_or call names.2;
  Ok (sat_add ceiling (sat_mul width call)).
Definition reservation (q : TenantQuota) (b : Budget) (width : Z) : result str (option Spend) :=
  if negb (bounds_spend q) then Ok None else
  tokens ← hold_of (is_some (max_tokens_per_period q)) (max_tokens b) (max_call_tokens b)
             (lit "max_tokens", lit "max_call_tokens") width;
  minor ← hold_of (is_some (max_minor_units_per_period q)) (max_minor_units b) (max_call_minor_units b)
            (lit "max_minor_units", lit "max_call_minor_units") width;
  Ok (Some (mk_spend tokens minor)).

Definition over (limit : option Z) (settled reserved requested : Z) : bool :=
  match limit with Some l => (l <? sat_add (sat_add settled reserved) requested)%Z | None => false end.
Definition check_spend (period_key : str) (q : TenantQuota) (settled reserved request : Spend) :
    result QuotaError unit :=
  ensure (negb (over (max_tokens_per_period q) (tokens settled) (tokens reserved) (tokens request)))
    (SpentOut period_key (lit "tokens") (tokens settled) (tokens reserved) (tokens request)
       (default 0%Z (max_tokens_per_period q))) ;;
  ensure (negb (over (max_minor_units_per_period q) (minor_units settled) (minor_units reserved) (minor_units request)))
    (SpentOut period_key (lit "minor units") (minor_units settled) (minor_units reserved) (minor_units request)
       (default 0%Z (max_minor_units_per_period q))).

Section scopes.
(** Hex text of a digest is the [hex] crate's. *)
Context (to_hex : Digest -> str) (from_hex : str -> option Digest).

Definition scope_key (s : HaltScope) : str :=
  match s with
  | HTenant => lit "tenant"
  | HAgent name => lit "agent:" ++ name
  | HRevision d => lit "revision:" ++ to_hex d
  | HSubject id => lit "subject:" ++ id
  end.
Definition scope_parse (key : str) : option HaltScope :=
  if decide (key = lit "tenant") then Some HTenant else
  match strip_prefix (lit "agent:") key with
  | Some (c :: name) => Some (HAgent (c :: name))
  | _ =>
      match strip_prefix (lit "revision:") key with
      | Some h => HRevision <$> from_hex h
      | None =>
          match strip_prefix (lit "subject:") key with
          | Some (c :: id) => Some (HSubject (c :: id))
          | _ => None
          end
      end
  end.
End scopes.

Definition withdrawn_subject (s : HaltScope) : option str :=
  match s with HSubject id => Some id | _ => None end.
Definition withdraws_from (s : HaltScope) (chain : Delegation) : option str :=
  id ← withdrawn_subject s; if existsb (fun l => bool_decide (pr_id l = id)) (links chain) then Some id else None.
(** [agent] is the name and digest an [AgentIdentity] carries. *)
Definition halt_covers (s : HaltScope) (agent : option (str * Digest)) (chain : option Delegation) : bool :=
  match s with
  | HTenant => true
  | HAgent name => match agent with Some (n, _) => bool_decide (n = name) | None => false end
  | HRevision d => match agent with Some (_, d') => bool_decide (d' = d) | None => false end
  | HSubject _ => match chain with Some c => is_some (withdraws_from s c) | None => false end
  end.

(** ** One tenant's rows *)

Section store.
Context {Operator : Type} `{EqDecision Operator}.

Record HaltRow := mk_halt_row { hr_reason : str; hr_by : Operator; hr_at : Z }.
#[export] Instance halt_row_eq_dec : EqDecision HaltRow.
Proof. solve_decision. Defined.

(** [(period, tokens, minor_units, release_slot, concludes)]; an absent period
    is the empty text. *)
Definition Receipt : Type := str * Spend * bool * bool.

Record State := mk_state {
  running : gmap str Z;
  spent : gmap str Spend;
  reserved : gmap str (str * Spend);
  settled : gmap (str * Z) Receipt;
  halted : gmap str HaltRow;
  rate : gmap (str * str * str) Z;
}.
Definition empty_state : State := mk_state ∅ ∅ ∅ ∅ ∅ ∅.

Inductive StoreError := Corrupt (detail : str).

(** [held_in]: what open runs hold against a period. *)
Definition held_in (rows : gmap str (str * Spend)) (p : str) : Spend :=
  map_fold (fun _ row acc => if decide (row.1 = p) then plus acc row.2 else acc) spend_zero rows.

Definition spent_in (st : State) (p : str) : Spend := default spend_zero (spent st !! p).

Definition reserve (st : State) (run : str) (q : TenantQuota) (hold : option SpendHold) (at_ : Z) :
    State * result QuotaError unit :=
  let slot_held := is_some (running st !! run) in
  let n limit := Z.min limit (Z.of_nat (size (running st))) in
  let slot_refused :=
    match max_concurrent_runs q with
    | Some limit => if negb slot_held && (limit <=? n limit)%Z then Some (TooManyRuns (n limit)) else None
    | None => None
    end in
  let fresh_hold := match hold, reserved st !! run with Some h, None => Some h | _, _ => None end in
  let refused :=
    match slot_refused, fresh_hold with
    | None, Some h =>
        match check_spend (h_period h) q (spent_in st (h_period h)) (held_in (reserved st) (h_period h)) (h_amount h) with
        | Err e => Some e
        | Ok _ => None
        end
    | r, _ => r
    end in
  match refused with
  | Some e => (st, Err e)
  | None =>
      (mk_state (<[run := at_]> (running st)) (spent st)
         (match fresh_hold with Some h => <[run := (h_period h, h_amount h)]> (reserved st) | None => reserved st end)
         (settled st) (halted st) (rate st), Ok tt)
  end.

Definition release (st : State) (run : str) : State :=
  mk_state (delete run (running st)) (spent st) (delete run (reserved st)) (settled st) (halted st) (rate st).

Definition carry (st : State) (run p : str) : State :=
  match reserved st !! run with
  | Some (held, amount) =>
      if decide (held = p) then st else
      mk_state (running st) (spent st) (<[run := (p, amount)]> (reserved st)) (settled st) (halted st) (rate st)
  | None => st
  end.

Definition spend_sub (a b : Spend) : Spend :=
  mk_spend (sat_sub (tokens a) (tokens b)) (sat_sub (minor_units a) (minor_units b)).

Definition receipt_of (s : QuotaSettlement) : Receipt :=
  (default [] (qs_period s), qs_spend s, release_slot s, concludes s).

Definition settle (st : State) (s : QuotaSettlement) : State * result StoreError unit :=
  match settled st !! (qs_run s, qs_epoch s) with
  | Some stored =>
      if decide (stored = receipt_of s) then (st, Ok tt)
      else (st, Err (Corrupt (lit "settled twice with different payloads")))
  | None =>
      (mk_state
         (if release_slot s then delete (qs_run s) (running st) else running st)
         (match qs_period s with
          | Some p => <[p := plus (spent_in st p) (qs_spend s)]> (spent st)
          | None => spent st
          end)
         (if concludes s then delete (qs_run s) (reserved st) else
          match reserved st !! qs_run s with
          | Some (held, amount) => <[qs_run s := (held, spend_sub amount (qs_spend s))]> (reserved st)
          | None => reserved st
          end)
         (<[(qs_run s, qs_epoch s) := receipt_of s]> (settled st)) (halted st) (rate st), Ok tt)
  end.

(** [rate_rows]: the instants of a grant above the floor, and the rows below. *)
Definition of_grant (grant : str) (rows : gmap (str * str * str) Z) : gmap (str * str * str) Z :=
  filter (fun kv => kv.1.1.1 = grant) rows.
Definition rate_instants (grant : str) (floor : Z) (rows : gmap (str * str * str) Z) : list Z :=
  (map_to_list (filter (fun kv => ~ (kv.2 <= floor)%Z) (of_grant grant rows))).*2.
Definition prune (grant : str) (floor : Z) (rows : gmap (str * str * str) Z) : gmap (str * str * str) Z :=
  filter (fun kv => ~ (kv.1.1.1 = grant /\ (kv.2 <= floor)%Z)) rows.

Definition with_rate (st : State) (r : gmap (str * str * str) Z) : State :=
  mk_state (running st) (spent st) (reserved st) (settled st) (halted st) r.

Definition reserve_rate (st : State) (r : RateReservation) : State * result QuotaError unit :=
  let key := (rr_grant r, rr_run r, rr_dispatch r) in
  if is_some (rate st !! key) then (st, Ok tt) else
  let floor := rate_prune_floor (rr_at r) in
  let rows := prune (rr_grant r) floor (rate st) in
  match (if rr_exempt r then Ok tt
         else check_rate (rr_grant r) (rr_ceilings r) (rate_instants (rr_grant r) floor (rate st)) (rr_at r)) with
  | Err e => (with_rate st rows, Err e)
  | Ok _ => (with_rate st (<[key := rr_at r]> rows), Ok tt)
  end.

Definition rate_room (st : State) (grant : str) (ceilings : list RateCeiling) (at_ : Z) : result QuotaError unit :=
  check_rate grant ceilings (rate_instants grant i64_min (rate st)) at_.

Definition with_halted (st : State) (h : gmap str HaltRow) : State :=
  mk_state (running st) (spent st) (reserved st) (settled st) h (rate st).
Section halts.
Context (to_hex : Digest -> str) (from_hex : str -> option Digest).

Definition set_halt (st : State) (s : HaltScope) (row : HaltRow) : State :=
  with_halted st (<[scope_key to_hex s := row]> (halted st)).
Definition lift_halt (st : State) (s : HaltScope) : State * bool :=
  (with_halted st (delete (scope_key to_hex s) (halted st)), is_some (halted st !! scope_key to_hex s)).
Definition lift_halt_if (st : State) (s : HaltScope) (row : HaltRow) : State * bool :=
  if decide (halted st !! scope_key to_hex s = Some row)
  then (with_halted st (delete (scope_key to_hex s) (halted st)), true) else (st, false).
(** In the order of the keys; an unreadable scope is damage. *)
Fixpoint read_halts (rows : list (str * HaltRow)) : result StoreError (list (HaltScope * HaltRow)) :=
  match rows with
  | [] => Ok []
  | (key, row) :: rows =>
      s ← ok_or (scope_parse from_hex key) (Corrupt (lit "a scope this build cannot read"));
      rest ← read_halts rows;
      Ok ((s, row) :: rest)
  end.
Definition halts (st : State) : result StoreError (list (HaltScope * HaltRow)) :=
  read_halts (omap (fun k => r ← halted st !! k; Some (k, r)) (iter_str (dom (halted st)))).
End halts.
End store.

(** ** What a period can come to *)

Inductive Unit_ := Tokens | MinorUnits.
Definition amount (u : Unit_) (s : Spend) : Z := match u with Tokens => tokens s | MinorUnits => minor_units s end.
Definition limit_of (q : TenantQuota) (u : Unit_) : option Z :=
  match u with Tokens => max_tokens_per_period q | MinorUnits => max_minor_units_per_period q end.

Lemma amount_plus u a b : amount u (plus a b) = sat_add (amount u a) (amount u b).
Proof. by destruct u. Qed.
Lemma amount_sub u a b : amount u (spend_sub a b) = sat_sub (amount u a) (amount u b).
Proof. by destruct u. Qed.

Lemma check_spend_Ok p q settled reserved request u l :
  check_spend p q settled reserved request = Ok tt -> limit_of q u = Some l ->
  (sat_add (sat_add (amount u settled) (amount u reserved)) (amount u request) <= l)%Z.
Proof.
  unfold check_spend. rewrite seq_ok, !ensure_ok, !negb_true_iff. unfold over. intros [Ht Hm] Hl.
  destruct u; simpl in *; rewrite Hl in *; apply Z.ltb_ge; done.
Qed.

Section held.
Local Open Scope Z_scope.
Context (p : str) (u : Unit_).

(** The same sums without saturation. *)
Definition share (row : str * Spend) : Z := if decide (row.1 = p) then amount u row.2 else 0.
Definition held_sum (rows : gmap str (str * Spend)) : Z := map_fold (fun _ row acc => share row + acc) 0 rows.

Definition rows_ok (rows : gmap str (str * Spend)) : Prop := map_Forall (fun _ row => 0 <= amount u row.2) rows.

Lemma held_sum_insert rows k row : rows !! k = None ->
  held_sum (<[k := row]> rows) = share row + held_sum rows.
Proof. intros Hk. unfold held_sum. rewrite map_fold_insert_L; [done|intros; lia|done]. Qed.

Lemma held_sum_delete rows k row : rows !! k = Some row ->
  held_sum rows = share row + held_sum (delete k rows).
Proof. intros Hk. unfold held_sum. rewrite (map_fold_delete_L _ _ k row); [done|intros; lia|done]. Qed.

Lemma held_sum_pos rows : rows_ok rows -> 0 <= held_sum rows.
Proof.
  induction rows as [|k row rows Hk IH] using map_ind; intros Hok.
  - unfold held_sum. by rewrite map_fold_empty.
  - apply map_Forall_insert in Hok as [Hrow Hok]; [|done]. rewrite held_sum_insert by done.
    specialize (IH Hok). unfold share. case_decide; simpl in *; lia.
Qed.

(** [held_in] saturates, and that is all. *)
Lemma held_in_sum rows : rows_ok rows -> amount u (held_in rows p) = Z.min u64_max (held_sum rows).
Proof.
  intros Hok. unfold held_in, held_sum. rewrite !map_fold_foldr.
  assert (Forall (fun kr => 0 <= amount u kr.2.2) (map_to_list rows)) as Hl.
  { apply Forall_forall. intros [k row] Hin. apply elem_of_map_to_list in Hin. by apply (Hok k). }
  assert (forall l, Forall (fun kr : str * (str * Spend) => 0 <= amount u kr.2.2) l ->
    0 <= foldr (uncurry (fun (_ : str) row acc => share row + acc)) 0 l) as Hpos.
  { clear. induction 1 as [|[k row] l Hr _ IH]; simpl; [done|]. unfold share at 1. case_decide; simpl in *; lia. }
  clear Hok. induction Hl as [|[k row] l Hr Hl IH]; simpl.
  { by destruct u. }
  specialize (Hpos l Hl). set (S := foldr (uncurry (fun (_ : str) row acc => share row + acc)) 0 l) in *.
  unfold share. simpl. case_decide as Hd; [|rewrite IH; f_equal; lia].
  rewrite amount_plus, IH. simpl in Hr. unfold sat_add. lia.
Qed.
End held.

Section periods.
Local Open Scope Z_scope.
Context {Operator : Type} `{EqDecision Operator}.
Context (q : TenantQuota).
Abbreviation State := (State (Operator := Operator)).

Implicit Types (p k run : str) (u : Unit_) (st : State) (row : str * Spend).

Inductive Op :=
| OReserve (run : str) (hold : option SpendHold) (at_ : Z)
| ORelease (run : str)
| OCarry (run p : str)
| OSettle (s : QuotaSettlement)
| ORate (r : RateReservation)
| OHalt (key : str) (row : option (HaltRow (Operator := Operator))).

Definition apply_op (st : State) (o : Op) : State :=
  match o with
  | OReserve run hold at_ => (reserve st run q hold at_).1
  | ORelease run => release st run
  | OCarry run p => carry st run p
  | OSettle s => (settle st s).1
  | ORate r => (reserve_rate st r).1
  | OHalt key row => with_halted st (match row with Some r => <[key := r]> (halted st) | None => delete key (halted st) end)
  end.
Definition apply_ops (st : State) (os : list Op) : State := foldl apply_op st os.

(** Figures are counts. *)
Definition op_ok (o : Op) : Prop :=
  match o with
  | OReserve _ (Some h) _ => forall u, 0 <= amount u (h_amount h)
  | OSettle s => forall u, 0 <= amount u (qs_spend s)
  | _ => True
  end.

Definition state_ok (st : State) : Prop :=
  (forall u, rows_ok u (reserved st)) /\ (forall u p, u64_ok (amount u (spent_in st p)))
  /\ (forall l, max_concurrent_runs q = Some l -> 0 <= l -> Z.of_nat (size (running st)) <= l).

(** The admitted work of the period [p]: a pass billed to it belongs to a run
    that holds at least as much of it. *)
Definition admitted_work (p : str) (u : Unit_) (st : State) (o : Op) : Prop :=
  match o with
  | OSettle s => settled st !! (qs_run s, qs_epoch s) = None -> qs_period s = Some p ->
      exists a, reserved st !! qs_run s = Some (p, a) /\ amount u (qs_spend s) <= amount u a
  | _ => True
  end.

Fixpoint all_admitted (p : str) (u : Unit_) (st : State) (os : list Op) : Prop :=
  match os with
  | [] => True
  | o :: os => op_ok o /\ admitted_work p u st o /\ all_admitted p u (apply_op st o) os
  end.

(** What resumes carry into the period, from runs that held of another. *)
Definition carried_in (p : str) (u : Unit_) (st : State) (o : Op) : Z :=
  match o with
  | OCarry run p' =>
      if decide (p' = p) then
        match reserved st !! run with Some (held, a) => if decide (held = p) then 0 else amount u a | None => 0 end
      else 0
  | _ => 0
  end.
Fixpoint all_carried (p : str) (u : Unit_) (st : State) (os : list Op) : Z :=
  match os with [] => 0 | o :: os => carried_in p u st o + all_carried p u (apply_op st o) os end.

(** What the period has settled and what open runs hold of it. *)
Definition committed (p : str) (u : Unit_) (st : State) : Z :=
  amount u (spent_in st p) + held_sum p u (reserved st).

Lemma reserve_cases (st : State) run hold at_ :
  (exists e, reserve st run q hold at_ = (st, Err e))
  \/ exists rows, reserve st run q hold at_ =
       (mk_state (<[run := at_]> (running st)) (spent st) rows (settled st) (halted st) (rate st), Ok tt)
     /\ (running st !! run = None -> forall l, max_concurrent_runs q = Some l -> Z.of_nat (size (running st)) < l)
     /\ (rows = reserved st
         \/ exists h, hold = Some h /\ reserved st !! run = None /\ rows = <[run := (h_period h, h_amount h)]> (reserved st)
              /\ check_spend (h_period h) q (spent_in st (h_period h)) (held_in (reserved (Operator := Operator) st) (h_period h)) (h_amount h) = Ok tt).
Proof.
  unfold reserve.
  set (slot_refused := match max_concurrent_runs q with Some _ => _ | None => None end).
  assert (slot_refused = None -> running st !! run = None ->
    forall l, max_concurrent_runs q = Some l -> Z.of_nat (size (running st)) < l) as Hslot.
  { intros Hs Hr l Hl. subst slot_refused. rewrite Hl, Hr in Hs. simpl in Hs.
    destruct (Z.leb_spec l (Z.min l (Z.of_nat (size (running st))))); [done|lia]. }
  destruct slot_refused as [e|]; [left; by eexists|].
  destruct hold as [h|]; [|right; eexists; split_and!; [done|auto|by left]].
  destruct (reserved st !! run) as [row|] eqn:Hr; [right; eexists; split_and!; [done|auto|by left]|].
  destruct (check_spend _ _ _ _ _) as [[]|e] eqn:Hc; [right|left; by eexists].
  eexists. split_and!; [done|auto|]. right. by exists h.
Qed.

Lemma rows_ok_insert u (rows : gmap str (str * Spend)) k row : rows_ok u rows -> 0 <= amount u row.2 -> rows_ok u (<[k := row]> rows).
Proof. intros. by apply map_Forall_insert_2. Qed.

Lemma sat_sub_pos a b : 0 <= sat_sub a b.
Proof. unfold sat_sub. lia. Qed.

Lemma size_insert_le (m : gmap str Z) k v l :
  (m !! k = None -> Z.of_nat (size m) < l) -> Z.of_nat (size m) <= l -> Z.of_nat (size (<[k := v]> m)) <= l.
Proof.
  intros Hn Hs. rewrite map_size_insert. destruct (m !! k); simpl; [done|]. specialize (Hn eq_refl). lia.
Qed.

Lemma size_delete_le (m : gmap str Z) k : (size (delete k m) <= size m)%nat.
Proof. rewrite map_size_delete. destruct (m !! k); simpl; lia. Qed.

Lemma spent_in_insert (st : State) (rn : gmap str Z) (rs : gmap str (str * Spend)) (se : gmap (str * Z) Receipt) (h : gmap str (HaltRow (Operator := Operator)))
    (r : gmap (str * str * str) Z) (p p' : str) s :
  spent_in (mk_state rn (<[p := s]> (spent st)) rs se h r) p' = if decide (p = p') then s else spent_in st p'.
Proof.
  unfold spent_in. simpl. case_decide; [subst; by rewrite lookup_insert_eq|by rewrite lookup_insert_ne].
Qed.

Lemma settle_cases (st : State) s :
  (settle st s).1 = st
  \/ settled st !! (qs_run s, qs_epoch s) = None
     /\ running (settle st s).1 = (if release_slot s then delete (qs_run s) (running st) else running st)
     /\ (forall p, spent_in (settle st s).1 p = if decide (qs_period s = Some p) then plus (spent_in st p) (qs_spend s) else spent_in st p)
     /\ reserved (settle st s).1 =
          (if concludes s then delete (qs_run s) (reserved st) else
           match reserved st !! qs_run s with
           | Some (held, a) => <[qs_run s := (held, spend_sub a (qs_spend s))]> (reserved st)
           | None => reserved st
           end).
Proof.
  unfold settle. destruct (settled st !! _) as [r|]; [left; by case_decide|right].
  split_and!; [done..| |done]. intros p. destruct (qs_period s) as [p'|]; simpl.
  - rewrite spent_in_insert. repeat case_decide; simplify_eq; done.
  - done.
Qed.

Lemma rate_quiet (st : State) r : running (reserve_rate st r).1 = running st /\ spent (reserve_rate st r).1 = spent st
  /\ reserved (reserve_rate st r).1 = reserved st.
Proof. unfold reserve_rate. destruct (is_some _); [done|]. by destruct (if rr_exempt r then _ else _). Qed.

Lemma apply_state_ok (st : State) o : state_ok st -> op_ok o -> state_ok (apply_op st o).
Proof.
  intros (Hr & Hs & Hn) Ho. destruct o as [run hold at_|run|run p|s|r|key row]; simpl.
  - destruct (reserve_cases st run hold at_) as [(e & ->)|(rows & -> & Hslot & Hrows)]; [done|].
    split_and!; [|done|].
    + intros u. simpl. destruct Hrows as [->|(h & -> & _ & -> & _)]; [done|]. apply rows_ok_insert; [done|]. simpl. apply Ho.
    + intros l Hl H0. simpl. apply size_insert_le; [|by apply Hn]. intros Hnone. by apply Hslot.
  - split_and!; [intros u; apply map_Forall_delete, Hr|done|].
    intros l Hl H0. simpl. pose proof (size_delete_le (running st) run). specialize (Hn l Hl H0). lia.
  - unfold carry. destruct (reserved st !! run) as [[held a]|] eqn:E; [|done]. case_decide; [done|].
    split_and!; [|done|done]. intros u. simpl. apply rows_ok_insert; [done|]. apply (Hr u run (held, a) E).
  - destruct (settle_cases st s) as [->|(_ & Hrun & Hsp & Hres)]; [done|]. split_and!.
    + intros u. rewrite Hres. destruct (concludes s); [apply map_Forall_delete, Hr|].
      destruct (reserved st !! qs_run s) as [[held a]|]; [|done]. apply rows_ok_insert; [done|]. simpl.
      rewrite amount_sub. apply sat_sub_pos.
    + intros u p. rewrite Hsp. case_decide; [|done]. rewrite amount_plus.
      apply sat_add_ok; [apply Hs|apply Ho].
    + intros l Hl H0. rewrite Hrun. specialize (Hn l Hl H0). destruct (release_slot s); [|done].
      pose proof (size_delete_le (running st) (qs_run s)). lia.
  - destruct (rate_quiet st r) as (H1 & H2 & H3). unfold state_ok, spent_in. by rewrite H1, H2, H3.
  - done.
Qed.

Lemma held_sum_le p u (rows : gmap str (str * Spend)) k row (row' : str * Spend) :
  rows !! k = Some row -> held_sum p u (<[k := row']> rows) = held_sum p u rows - share p u row + share p u row'.
Proof.
  intros Hk. rewrite <-insert_delete_eq, held_sum_insert by apply lookup_delete_eq.
  rewrite (held_sum_delete p u rows k row Hk). lia.
Qed.

Lemma share_pos p u row : 0 <= amount u row.2 -> 0 <= share p u row.
Proof. unfold share. case_decide; lia. Qed.

Lemma held_sum_delete_le p u (rows : gmap str (str * Spend)) k : rows_ok u rows -> held_sum p u (delete k rows) <= held_sum p u rows.
Proof.
  intros Hok. destruct (rows !! k) as [row|] eqn:E; [|by rewrite delete_id].
  rewrite (held_sum_delete p u rows k row E). pose proof (share_pos p u row (Hok k row E)). lia.
Qed.

Lemma settle_held_le p u (st : State) s : rows_ok u (reserved st) -> 0 <= amount u (qs_spend s) ->
  settled st !! (qs_run s, qs_epoch s) = None ->
  held_sum p u (reserved (settle st s).1) <= held_sum p u (reserved st)
  /\ forall a, reserved st !! qs_run s = Some (p, a) -> amount u (qs_spend s) <= amount u a ->
     held_sum p u (reserved (settle st s).1) + amount u (qs_spend s) <= held_sum p u (reserved st).
Proof.
  intros Hok Hpos Hfresh.
  destruct (settle_cases st s) as [Heq|(_ & _ & _ & ->)].
  { unfold settle in Heq. rewrite Hfresh in Heq. simpl in Heq. apply (f_equal settled) in Heq. simpl in Heq.
    rewrite <-Heq, lookup_insert_eq in Hfresh. done. }
  destruct (concludes s).
  - split; [by apply held_sum_delete_le|]. intros a Ha Hle. rewrite (held_sum_delete p u _ _ _ Ha).
    unfold share at 1. rewrite decide_True by done. simpl. lia.
  - destruct (reserved st !! qs_run s) as [[held a]|] eqn:E; [|split; [done|intros a [=]]].
    rewrite (held_sum_le p u _ _ _ _ E). pose proof (Hok _ _ E) as Ha. simpl in Ha.
    unfold share. simpl. rewrite amount_sub. unfold sat_sub. split; [case_decide; lia|].
    intros a' [= -> ->] Hle. rewrite !decide_True by done. lia.
Qed.

Lemma carried_pos p u (st : State) o : state_ok st -> 0 <= carried_in p u st o.
Proof.
  intros (Hr & _). destruct o as [| |run p'| | |]; simpl; try done. case_decide; [|done].
  destruct (reserved st !! run) as [[held a]|] eqn:E; [|done]. case_decide; [done|]. exact (Hr u _ _ E).
Qed.
Lemma apply_committed p u l L (st : State) o :
  limit_of q u = Some l -> l < u64_max -> l <= L -> state_ok st -> op_ok o -> admitted_work p u st o ->
  committed p u st <= L -> committed p u (apply_op st o) <= L + carried_in p u st o.
Proof.
  intros Hl Hmax HL Hst Ho Hadm Hc. pose proof (carried_pos p u st o Hst) as Hpos. destruct Hst as (Hr & Hs & _). unfold committed in *.
  destruct o as [run hold at_|run|run p'|s|r|key row]; simpl in Hpos |- *; rewrite ?Z.add_0_r.
  - destruct (reserve_cases st run hold at_) as [(e & ->)|(rows & -> & _ & Hrows)]; [done|]. simpl.
    destruct Hrows as [->|(h & -> & Hnone & -> & Hcheck)]; [done|].
    rewrite held_sum_insert by done. unfold share. simpl. case_decide as Hp; [|unfold spent_in in *; simpl; lia].
    apply (check_spend_Ok _ _ _ _ _ u l) in Hcheck; [|done]. rewrite Hp, held_in_sum in Hcheck by apply Hr.
    pose proof (held_sum_pos p u _ (Hr u)). pose proof (Hs u p) as [? ?]. specialize (Ho u).
    unfold spent_in in *. simpl in *. unfold sat_add in Hcheck. lia.
  - pose proof (held_sum_delete_le p u (reserved st) run (Hr u)). unfold spent_in in *. simpl. lia.
  - unfold carry. destruct (reserved st !! run) as [[held a]|] eqn:E; [|repeat case_decide; lia].
    destruct (decide (held = p')) as [Hp|Hp]; [repeat case_decide; lia|].
    unfold spent_in in *. simpl. rewrite (held_sum_le p u _ _ _ _ E). pose proof (Hr u _ _ E) as Ha. simpl in Ha.
    unfold share. simpl. repeat case_decide; simplify_eq; lia.
  - destruct (settle_cases st s) as [->|(Hfresh & _ & Hsp & _)]; [done|].
    destruct (settle_held_le p u st s (Hr u) (Ho u) Hfresh) as [Hle Hin].
    rewrite Hsp. case_decide as Hp; [|lia].
    destruct (Hadm Hfresh Hp) as (a & Ha & Hfit). specialize (Hin a Ha Hfit). rewrite amount_plus.
    pose proof (sat_add_le (amount u (spent_in st p)) (amount u (qs_spend s))). lia.
  - destruct (rate_quiet st r) as (_ & H2 & H3). unfold spent_in. by rewrite H2, H3.
  - done.
Qed.

(** C28. A ceiling holds.  From an empty store, over any sequence of admissions,
    releases, carries, settlements (repeated or not), dispatch counts and halts
    of any number of runs: the runs executing never exceed the concurrency
    ceiling, and in a period whose bills come from runs that still hold as much
    of it, what is settled and what open runs still hold never together pass
    the period's ceiling by more than resumes carried into it from another -
    and so not at all in a period nothing was carried into. *)
Theorem period_bounded p u os :
  all_admitted p u empty_state os ->
  let st := apply_ops empty_state os in
  let carried := all_carried p u empty_state os in
  (forall l, max_concurrent_runs q = Some l -> 0 <= l -> Z.of_nat (size (running st)) <= l)
  /\ (forall l, limit_of q u = Some l -> 0 <= l ->
      amount u (spent_in st p) <= l + carried /\ (l < u64_max -> amount u (spent_in st p) + held_sum p u (reserved st) <= l + carried)).
Proof.
  intros Hall st carried.
  assert (state_ok st /\ 0 <= carried /\ forall l, limit_of q u = Some l -> 0 <= l -> l < u64_max -> committed p u st <= l + carried) as (Hok & Hpos & Hc).
  { assert (state_ok (empty_state (Operator := Operator))) as H0.
    { split_and!; [intros; apply map_Forall_empty| |].
      - intros u' p'. unfold spent_in. simpl. rewrite lookup_empty. by destruct u'.
      - intros l _ Hl. simpl. rewrite map_size_empty. lia. }
    assert (forall l, limit_of q u = Some l -> 0 <= l -> l < u64_max -> committed p u (empty_state (Operator := Operator)) <= l + 0) as Hc0.
    { intros l _ Hl _. unfold committed, held_sum. simpl. rewrite map_fold_empty. unfold spent_in. simpl.
      rewrite lookup_empty. destruct u; simpl; lia. }
    subst st carried. unfold apply_ops.
    assert (forall os st c, state_ok st -> 0 <= c -> (forall l, limit_of q u = Some l -> 0 <= l -> l < u64_max -> committed p u st <= l + c) ->
      all_admitted p u st os -> state_ok (foldl apply_op st os) /\ 0 <= all_carried p u st os /\
      forall l, limit_of q u = Some l -> 0 <= l -> l < u64_max -> committed p u (foldl apply_op st os) <= l + (c + all_carried p u st os)) as Hgen.
    { clear. induction os as [|o os IH]; intros st c H0 Hpos Hc Hall; simpl in *.
      { split; [done|split; [lia|]]. intros l Hl Hp Hm. rewrite Z.add_0_r. auto. }
      destruct Hall as (Ho & Hadm & Hall). pose proof (carried_pos p u st o H0) as Hca.
      destruct (IH (apply_op st o) (c + carried_in p u st o)) as (H1 & H2 & H3); [by apply apply_state_ok|lia| |done|].
      { intros l Hl Hp Hm. rewrite Z.add_assoc. apply (apply_committed p u l); auto. lia. }
      split_and!; [done|lia|]. intros l Hl Hp Hm. specialize (H3 l Hl Hp Hm). lia. }
    by apply (Hgen os empty_state 0). }
  pose proof Hok as (Hr & Hs & Hn). split; [exact Hn|]. intros l Hl H0.
  pose proof (held_sum_pos p u _ (Hr u)). destruct (Hs u p) as [_ Hmax].
  destruct (decide (l < u64_max)) as [Hlt|Hge]; [|split; lia].
  specialize (Hc l Hl H0 Hlt). unfold committed in Hc. split; [lia|done].
Qed.

(** A pass is billed once.  Settling a pass a second time with the same
    figures succeeds and changes nothing; with any other figure, flag or period
    it is refused as corruption and changes nothing; and the first settlement
    moves exactly its spend into the period it names. *)
Theorem settle_once st s s' :
  qs_run s' = qs_run s -> qs_epoch s' = qs_epoch s ->
  let st' := (settle st s).1 in
  (settle st s).2 = Ok tt ->
  settle st' s' = (st', if decide (receipt_of s' = receipt_of s) then Ok tt
                        else Err (Corrupt (lit "settled twice with different payloads")))
  /\ (settled st !! (qs_run s, qs_epoch s) = None ->
      forall p, spent_in st' p = if decide (qs_period s = Some p) then plus (spent_in st p) (qs_spend s) else spent_in st p).
Proof.
  intros Hrun Hep st' Hok.
  assert (settled st' !! (qs_run s, qs_epoch s) = Some (receipt_of s)) as Hst.
  { subst st'. unfold settle in *. destruct (settled st !! _) as [r|] eqn:E.
    - case_decide; [by subst|done].
    - simpl. by rewrite lookup_insert_eq. }
  split.
  - unfold settle at 1. rewrite Hrun, Hep, Hst. repeat case_decide; congruence.
  - intros Hfresh. destruct (settle_cases st s) as [Heq|(_ & _ & Hsp & _)]; [|done].
    subst st'. rewrite Heq in Hst. congruence.
Qed.
End periods.

(** ** Sliding windows *)

Section rates.
Local Open Scope Z_scope.
Context {Operator : Type}.
Abbreviation State := (State (Operator := Operator)).
Context (g : str) (c : RateCeiling).
Implicit Types (s t a w floor : Z) (rows : gmap (str * str * str) Z) (k : str * str * str) (l : list Z).

(** Rows of the grant after an instant. *)
Definition rows_after (s : Z) (rows : gmap (str * str * str) Z) : nat :=
  size (filter (fun kv => kv.1.1.1 = g /\ s < kv.2) rows).

Lemma length_filter_fmap {A B} (f : A -> B) (P : B -> Prop) `{!forall x, base.Decision (P x)} (l : list A) :
  length (filter P (f <$> l)) = length (filter (fun x => P (f x)) l).
Proof.
  induction l as [|x l IH]; [done|]. rewrite fmap_cons, !filter_cons.
  destruct (decide (P (f x))); simpl; by rewrite IH.
Qed.

Lemma length_filter_map {A} (P : str * str * str * A -> Prop) `{!forall x, base.Decision (P x)} (m : gmap (str * str * str) A) :
  length (filter P (map_to_list m)) = size (filter P m).
Proof.
  induction m as [|k x m Hk IH] using map_ind; [by rewrite map_to_list_empty, map_filter_empty, map_size_empty|].
  rewrite (map_to_list_insert m k x Hk), filter_cons. case_decide as Hp.
  - rewrite map_filter_insert_True, map_size_insert_None by (done || by rewrite map_lookup_filter, Hk).
    simpl. by rewrite IH.
  - rewrite map_filter_insert_False by done. by rewrite IH, delete_id.
Qed.

Lemma rate_instants_after floor s rows : floor <= s ->
  length (filter (fun t => s < t) (rate_instants g floor rows)) = rows_after s rows.
Proof.
  intros Hs. unfold rate_instants, of_grant, rows_after. rewrite length_filter_fmap, length_filter_map.
  rewrite !map_filter_filter. f_equal. apply map_filter_ext. intros k x _. simpl. split; [tauto|].
  intros [? ?]. split_and!; [done|lia|done].
Qed.

Lemma rows_after_prune floor s rows : floor <= s -> rows_after s (prune g floor rows) = rows_after s rows.
Proof.
  intros Hs. unfold rows_after, prune. rewrite map_filter_filter. f_equal. apply map_filter_ext. intros k x _. simpl.
  split; [tauto|]. intros [? ?]. split_and!; [done..|lia].
Qed.

Lemma rows_after_insert s rows k t : rows !! k = None -> k.1.1 = g ->
  rows_after s (<[k := t]> rows) = ((if decide (s < t)%Z then 1 else 0) + rows_after s rows)%nat.
Proof.
  intros Hk Hg. unfold rows_after. case_decide as Ht.
  - rewrite map_filter_insert_True by done. rewrite map_size_insert_None; [done|]. by rewrite map_lookup_filter, Hk.
  - rewrite map_filter_insert_False by (simpl; tauto). by rewrite delete_id.
Qed.

(** The instants of the dispatches that were judged and admitted. *)
Fixpoint admissions (st : State) (rs : list RateReservation) : list Z :=
  match rs with
  | [] => []
  | r :: rs =>
      (if negb (is_some (rate st !! (rr_grant r, rr_run r, rr_dispatch r))) && negb (rr_exempt r)
          && is_ok (reserve_rate st r).2 then [rr_at r] else [])
      ++ admissions (reserve_rate st r).1 rs
  end.

Definition within (w a : Z) (l : list Z) : nat := length (filter (fun x => a - w < x <= a) l).
Definition after (s : Z) (l : list Z) : nat := length (filter (fun x => s < x) l).

Lemma after_snoc s l t : after s (l ++ [t]) = (after s l + if decide (s < t)%Z then 1 else 0)%nat.
Proof.
  unfold after. rewrite filter_app, length_app, filter_cons, filter_nil. by case_decide.
Qed.

Lemma within_snoc w a l t n : Forall (fun x => x <= t) l ->
  (within w a l <= n)%nat -> (after (t - w) (l ++ [t]) <= n)%nat -> (within w a (l ++ [t]) <= n)%nat.
Proof.
  intros Hl Hw Ha. destruct (decide (t <= a)) as [Hta|Hta].
  - etrans; [|exact Ha]. unfold within, after. clear -Hta.
    induction (l ++ [t]) as [|x l' IH]; [done|]. rewrite !filter_cons.
    repeat case_decide; simpl; lia.
  - unfold within in *. rewrite filter_app, length_app, filter_cons, filter_nil. rewrite decide_False by lia. simpl. lia.
Qed.

(** What the table knows of the admissions so far. *)
Definition counted (w t0 : Z) (st : State) (l : list Z) : Prop :=
  Forall (fun x => x <= t0) l
  /\ (forall s, rate_prune_floor t0 <= s -> (after s l <= rows_after s (rate st))%nat)
  /\ forall a, Z.of_nat (within w a l) <= Z.max 0 (rc_count c).

Lemma floor_le t t' : 0 <= t <= t' -> t' <= i64_max -> rate_prune_floor t <= rate_prune_floor t' /\ forall w, 0 <= w <= MAX_RATE_WINDOW_SECONDS ->
  rate_prune_floor t <= rate_window_start t w /\ rate_window_start t w = t - w.
Proof.
  unfold rate_prune_floor, rate_window_start, i64_sat_sub, i64_max, i64_min, MAX_RATE_WINDOW_SECONDS.
  intros Ht Hm. split; [lia|]. intros w Hw. lia.
Qed.

Lemma check_rate_Ok ceilings instants at_ : c ∈ ceilings -> check_rate g ceilings instants at_ = Ok tt ->
  window_seconds c <> 0 /\ window_seconds c <= MAX_RATE_WINDOW_SECONDS
  /\ Z.of_nat (length (filter (fun t => rate_window_start at_ (window_seconds c) < t) instants)) < rc_count c.
Proof.
  intros Hc. unfold check_rate.
  destruct (head (filter _ ceilings)) as [b|] eqn:E; [done|].
  assert (~ (window_seconds c = 0 \/ MAX_RATE_WINDOW_SECONDS < window_seconds c)) as Hw.
  { intros Hw. assert (c ∈ filter (fun c => window_seconds c = 0 \/ MAX_RATE_WINDOW_SECONDS < window_seconds c) ceilings) as Hin
      by (apply list_elem_of_filter; split; [exact Hw|exact Hc]). destruct (filter _ ceilings); [by apply elem_of_nil in Hin|done]. }
  clear E. match goal with |- context [head ?l] => destruct (head l) as [b|] eqn:E' end; [done|].
  intros _. split_and!; [lia|lia|].
  apply Z.nle_gt. intros Hle.
  match type of E' with head ?l = None => assert (c ∈ l) as Hin by (apply list_elem_of_filter; split; [exact Hle|exact Hc]) end.
  match type of E' with head ?l = None => destruct l; [by apply elem_of_nil in Hin|done] end.
Qed.

(** One reservation keeps the count. *)
Lemma counted_step t0 (st : State) l r :
  counted (window_seconds c) t0 st l -> 0 <= window_seconds c -> 0 <= t0 <= rr_at r -> rr_at r <= i64_max ->
  rr_grant r = g -> (rr_exempt r = false -> c ∈ rr_ceilings r) ->
  counted (window_seconds c) (rr_at r) (reserve_rate st r).1 (l ++ admissions st [r]).
Proof.
  intros (Hle & Hcnt & Hwin) Hw0 Ht Hmax Hg Hc.
  destruct (floor_le t0 (rr_at r) Ht Hmax) as [Hfloor _].
  destruct (floor_le (rr_at r) (rr_at r)) as [_ Hstart]; [lia|done|].
  assert (Forall (fun x => x <= rr_at r) l) as Hle' by (eapply Forall_impl; [done|simpl; lia]).
  unfold admissions, reserve_rate. rewrite app_nil_r. set (key := (rr_grant r, rr_run r, rr_dispatch r)).
  destruct (rate st !! key) as [x|] eqn:Hkey; simpl is_some; cbn [negb andb].
  { rewrite app_nil_r. split_and!; [done| |done]. intros s Hs. apply Hcnt. lia. }
  assert (prune g (rate_prune_floor (rr_at r)) (rate st) !! key = None) as Hfresh.
  { unfold prune. by rewrite map_lookup_filter, Hkey. }
  rewrite Hg. destruct (rr_exempt r) eqn:Hex.
  { simpl. rewrite app_nil_r. split_and!; [done| |done]. intros s Hs. simpl.
    rewrite rows_after_insert by (done || by simpl). rewrite rows_after_prune by done.
    specialize (Hcnt s ltac:(lia)). lia. }
  destruct (check_rate _ _ _ _) as [[]|e] eqn:Hcheck; simpl.
  - apply check_rate_Ok in Hcheck as (Hwin0 & Hwmax & Hroom); [|by apply Hc].
    destruct (Hstart (window_seconds c) ltac:(lia)) as [Hfl Heq].
    rewrite rate_instants_after in Hroom by done. pose proof (Hcnt (rate_window_start (rr_at r) (window_seconds c)) ltac:(lia)) as Hhave.
    split_and!.
    + apply Forall_app. split; [done|]. constructor; [lia|constructor].
    + intros s Hs. simpl. rewrite rows_after_insert by (done || by simpl). rewrite rows_after_prune by done.
      rewrite after_snoc. specialize (Hcnt s ltac:(lia)). lia.
    + intros a. specialize (Hwin a).
      assert (within (window_seconds c) a (l ++ [rr_at r]) <= Z.to_nat (Z.max 0 (rc_count c)))%nat; [|lia].
      apply within_snoc; [done|lia|]. rewrite after_snoc. rewrite Heq in *. case_decide; lia.
  - rewrite app_nil_r. split_and!; [done| |done]. intros s Hs. simpl. rewrite rows_after_prune by done. apply Hcnt. lia.
Qed.

Lemma admissions_cons (st : State) r rs :
  admissions st (r :: rs) = admissions st [r] ++ admissions (reserve_rate st r).1 rs.
Proof. simpl. by rewrite app_nil_r. Qed.

(** A rate ceiling slides.  Whatever dispatches of one grant ask for room,
    retried or not, exempt or not, by however many runs, as long as the clock
    does not run backwards: in every window of the ceiling's width, wherever it
    starts, at most the ceiling's count of judged dispatches was admitted, rows
    pruned since included. *)
Theorem rate_window_bounded (st : State) rs :
  0 <= window_seconds c -> 0 <= rc_count c -> rate st = ∅ ->
  Forall (fun r => rr_grant r = g /\ 0 <= rr_at r <= i64_max /\ (rr_exempt r = false -> c ∈ rr_ceilings r)) rs ->
  Sorted Z.le (rr_at <$> rs) ->
  forall a, Z.of_nat (within (window_seconds c) a (admissions st rs)) <= rc_count c.
Proof.
  intros Hw Hn Hempty Hrs Hsort.
  assert (forall rs t0 (st : State) l, counted (window_seconds c) t0 st l -> 0 <= t0 ->
    Forall (fun r => rr_grant r = g /\ 0 <= rr_at r <= i64_max /\ (rr_exempt r = false -> c ∈ rr_ceilings r)) rs ->
    Sorted Z.le (t0 :: (rr_at <$> rs)) -> forall a, Z.of_nat (within (window_seconds c) a (l ++ admissions st rs)) <= rc_count c) as Hgen.
  { clear -Hw Hn. induction rs as [|r rs IH]; intros t0 st l Hcnt H0 Hrs Hsort a.
    - simpl. rewrite app_nil_r. destruct Hcnt as (_ & _ & Hwin). specialize (Hwin a). lia.
    - apply Forall_cons in Hrs as [(Hg & Ht & Hc) Hrs]. rewrite admissions_cons, app_assoc.
      apply Sorted_inv in Hsort as [Hsort Hhd]. inversion Hhd as [|? ? Hle]; subst.
      apply (IH (rr_at r)); [|lia|done|done]. apply (counted_step t0); auto; lia. }
  apply (Hgen rs 0 st []); [|done|done|].
  - split_and!; [constructor|intros; unfold after; simpl; lia|]. intros a. unfold within. simpl. lia.
  - destruct rs as [|r rs]; [repeat constructor|]. simpl in *. constructor; [done|]. constructor.
    apply Forall_cons in Hrs as [(_ & ? & _) _]. lia.
Qed.
End rates.

(** ** A hold covers its run *)

Section covers.
Local Open Scope Z_scope.

Lemma flight_u64 b w c l n u : flight b w c l n -> amount u (spend (consumed l)) <= u64_max.
Proof.
  induction 1 as [|l n o l' _ IH _ Ha|l n s _ IH _ _ _|l n _ IH|l n _ IH|l n at_ _ IH].
  - by destruct u.
  - by apply admit_effect_ok_inv in Ha as [_ ->].
  - unfold record_live_spend. simpl. rewrite amount_plus. unfold sat_add. lia.
  - exact IH.
  - exact IH.
  - exact IH.
Qed.

Lemma hold_of_Ok bounded ceiling call names w h : hold_of bounded ceiling call names w = Ok h -> bounded = true ->
  exists m k, ceiling = Some m /\ call = Some k /\ h = sat_add m (sat_mul w k).
Proof.
  intros Hh ->. unfold hold_of in Hh. simpl in Hh.
  rewrite result_bind_ok in Hh. destruct Hh as (m & Hm & Hh). rewrite result_bind_ok in Hh. destruct Hh as (k & Hk & [= <-]).
  exists m, k. destruct ceiling, call; simpl in *; simplify_eq. done.
Qed.

(** What an admission holds covers everything the run can spend.  For a run
    whose steps in flight never exceed the width the hold was computed for and
    whose calls report at most the declared per-call bound, the ledger's spend
    at any point of the run's life, in each unit the quota bounds, is at most
    what [reservation] held for it. *)
Theorem reservation_covers q b w c l n hold :
  reservation q b w = Ok (Some hold) -> flight b w c l n -> 0 <= w ->
  (forall u, 0 <= amount u c) ->
  (forall m, max_tokens b = Some m -> 0 < m) -> (forall m, max_minor_units b = Some m -> 0 < m) ->
  (forall k, max_call_tokens b = Some k -> tokens c <= k) ->
  (forall k, max_call_minor_units b = Some k -> minor_units c <= k) ->
  forall u, limit_of q u <> None -> amount u (spend (consumed l)) <= amount u hold.
Proof.
  intros Hr Hf Hw Hc Hm1 Hm2 Hk1 Hk2 u Hu.
  pose proof (flight_u64 b w c l n u Hf) as Hmax.
  destruct (flight_metered b w c l n Hf Hw (Hc Tokens) (Hc MinorUnits)) as [A B].
  destruct (flight_budget b w c l n Hf) as [_ Hn].
  unfold reservation in Hr. destruct (bounds_spend q); [|done]. simpl in Hr.
  rewrite result_bind_ok in Hr. destruct Hr as (t & Ht & Hr).
  rewrite result_bind_ok in Hr. destruct Hr as (mi & Hmi & [= <-]).
  destruct u; simpl in *.
  - destruct (max_tokens_per_period q) as [lim|]; [|done].
    destruct (hold_of_Ok _ _ _ _ _ _ Ht eq_refl) as (m & k & Hm & Hk & ->).
    pose proof (Hm1 m Hm). specialize (A m Hm (Hm1 m Hm)). specialize (Hk1 k Hk). specialize (Hc Tokens). simpl in Hc, Hmax.
    assert (0 <= n * tokens c) by nia. assert (w * tokens c <= w * k) by nia. unfold sat_add, sat_mul. lia.
  - destruct (max_minor_units_per_period q) as [lim|]; [|done].
    destruct (hold_of_Ok _ _ _ _ _ _ Hmi eq_refl) as (m & k & Hm & Hk & ->).
    pose proof (Hm2 m Hm). specialize (B m Hm (Hm2 m Hm)). specialize (Hk2 k Hk). specialize (Hc MinorUnits). simpl in Hc, Hmax.
    assert (0 <= n * minor_units c) by nia. assert (w * minor_units c <= w * k) by nia. unfold sat_add, sat_mul. lia.
Qed.
End covers.

(** ** Halts *)

Section halt_theory.
Context (to_hex : Digest -> str) (from_hex : str -> option Digest).

(** A scope that names somebody is read back from its key. *)
Lemma scope_roundtrip s : (forall d, from_hex (to_hex d) = Some d) ->
  match s with HAgent n => n <> [] | HSubject n => n <> [] | _ => True end ->
  scope_parse from_hex (scope_key to_hex s) = Some s.
Proof.
  intros Hhex. destruct s as [|[|c n]|d|[|c n]]; try done. intros _. unfold scope_parse, scope_key.
  rewrite decide_False by done. simpl. by rewrite Hhex.
Qed.

(** An empty name is stored and never read back. *)
Lemma empty_name_unreadable : scope_parse from_hex (scope_key to_hex (HAgent [])) = None.
Proof. done. Qed.

(** Withdrawing a principal withdraws everything delegated below it. *)
Lemma withdrawal_descends s d to d' :
  delegate d to = Ok d' -> is_some (withdraws_from s d) = true -> is_some (withdraws_from s d') = true.
Proof.
  intros (_ & _ & _ & _ & ->)%delegate_Ok. unfold withdraws_from. destruct (withdrawn_subject s) as [id|]; [|done].
  simpl. unfold links. simpl. destruct (bool_decide (pr_id (d_root d) = id)); simpl; [done|].
  rewrite existsb_app. by destruct (existsb _ (d_rest d)).
Qed.
End halt_theory.

(** ** Concrete tenants *)

Module QuotaWitness.
Local Open Scope Z_scope.

Definition quota : TenantQuota := mk_quota (Some 2) (Some 100) None Monthly.
Definition may : str := lit "2026-05".
Definition reserved_40 (run : string) : Op (Operator := unit) := OReserve (lit run) (Some (mk_hold may (mk_spend 40 0))) 10.
Definition pass_of (run : string) (epoch tok : Z) (done_ : bool) : QuotaSettlement :=
  mk_settlement (lit run) epoch (Some may) (mk_spend tok 0) true done_.

(** Two runs hold 40 each, a third is refused, one settles twice and concludes. *)
Definition month : list (Op (Operator := unit)) :=
  [reserved_40 "a"; reserved_40 "b"; reserved_40 "c"; OSettle (pass_of "a" 1 15 false); OSettle (pass_of "a" 1 15 false);
   OSettle (pass_of "b" 2 40 true); reserved_40 "c"].

(** A run that held of April resumes in May, where all is held already: what is
    spent passes the ceiling, and not by more than it carried. *)
Definition april : str := lit "2026-04".
Definition carried_over : list (Op (Operator := unit)) :=
  [OReserve (lit "z") (Some (mk_hold april (mk_spend 30 0))) 5; reserved_40 "b"; OSettle (pass_of "b" 1 40 true);
   reserved_40 "c"; OCarry (lit "z") may; OSettle (pass_of "c" 1 40 true); OSettle (pass_of "z" 1 30 true)].
Lemma period_bounded_witness :
  (amount Tokens (spent_in (apply_ops quota empty_state month) may) <= 100
   /\ Z.of_nat (size (running (apply_ops quota empty_state month))) <= 2)
  /\ amount Tokens (spent_in (apply_ops quota empty_state carried_over) may) = 110
  /\ amount Tokens (spent_in (apply_ops quota empty_state carried_over) may) <= 130.
Proof.
  assert (forall os, all_admitted quota may Tokens (empty_state (Operator := unit)) os -> all_carried quota may Tokens (empty_state (Operator := unit)) os <= 30 ->
    amount Tokens (spent_in (apply_ops quota (empty_state (Operator := unit)) os) may) <= 130) as Hgen.
  { intros os Hall Hc. pose proof (period_bounded quota may Tokens os Hall) as [_ Hb].
    pose proof (proj1 (Hb 100 eq_refl ltac:(lia))). cbv zeta in *. lia. }
  assert (all_admitted quota may Tokens empty_state month) as Hall.
  { unfold month. repeat (split; [intros []; by vm_compute|]; split;
      [first [exact I | intros Hf _; first [vm_compute in Hf; discriminate Hf
                                           |eexists; split; [vm_compute; reflexivity|by vm_compute]]]|]). exact I. }
  split; [|split; [by vm_compute|apply Hgen; [|by vm_compute]]].
  - pose proof (period_bounded quota may Tokens month Hall) as Hb. cbv zeta in Hb. destruct Hb as [Hrun Hspend].
    split; [exact (proj1 (Hspend 100 eq_refl ltac:(lia)))|exact (Hrun 2 eq_refl ltac:(lia))].
  - unfold carried_over.
    repeat (split; [first [exact I|intros []; by vm_compute]|]; split;
      [first [exact I | intros Hf _; first [vm_compute in Hf; discriminate Hf
                                           |eexists; split; [vm_compute; reflexivity|by vm_compute]]
             | intros Hf Hp; exfalso; vm_compute in Hf; discriminate Hf]|]). exact I.
Defined.

(** The third admission is refused for its slot, and later for its spend. *)
Example refusals :
  (reserve (apply_ops quota empty_state (take 2 month)) (lit "c") quota (Some (mk_hold may (mk_spend 40 0))) 10).2
    = Err (TooManyRuns 2)
  /\ (reserve (apply_ops quota empty_state (take 4 month)) (lit "c") quota (Some (mk_hold may (mk_spend 40 0))) 10).2
    = Err (SpentOut may (lit "tokens") 15 65 40 100).
Proof. vm_compute. done. Qed.

Lemma settle_once_witness :
  let st := apply_ops quota (empty_state (Operator := unit)) (take 2 month) in
  settle (settle st (pass_of "a" 1 15 false)).1 (pass_of "a" 1 15 false) = ((settle st (pass_of "a" 1 15 false)).1, Ok tt).
Proof.
  pose proof (settle_once (apply_ops quota (empty_state (Operator := unit)) (take 2 month))
    (pass_of "a" 1 15 false) (pass_of "a" 1 15 false) eq_refl eq_refl ltac:(vm_compute; reflexivity)) as [H _].
  exact H.
Defined.

(** Two refunds an hour: the third waits for the first to leave the window, a
    retry of the second does not count, and an undo is counted but not judged. *)
Definition hourly : RateCeiling := mk_ceiling 2 3600.
Definition refund (run : string) (at_ : Z) (undo : bool) : RateReservation :=
  mk_rate (lit "tool://pay/refund") (lit run) (lit "k") [hourly] at_ undo.
Definition hour : list RateReservation :=
  [refund "a" 0 false; refund "b" 100 false; refund "b" 200 false; refund "c" 300 false; refund "d" 400 true;
   refund "c" 3601 false; refund "c" 4001 false].

Lemma rate_window_bounded_witness :
  Z.of_nat (within 3600 3600 (admissions (empty_state (Operator := unit)) hour)) <= 2
  /\ admissions (empty_state (Operator := unit)) hour = [0; 100; 4001].
Proof.
  split; [|vm_compute; reflexivity].
  refine (rate_window_bounded (lit "tool://pay/refund") hourly empty_state hour _ _ _ _ _ 3600).
  - by vm_compute.
  - by vm_compute.
  - reflexivity.
  - unfold hour. repeat (apply Forall_cons; split; [split_and!; [reflexivity|by vm_compute|by vm_compute|]|]); [..|constructor].
    all: intros Hx; first [discriminate Hx|left].
  - simpl. repeat constructor; by vm_compute.
Defined.

(** A run of ceiling 10 and calls of at most 8, one step wide. *)
Definition spender : Budget := mk_budget None None (Some 10) None None None None None None (Some 8) None.
Lemma reservation_covers_witness :
  reservation quota spender 1 = Ok (Some (mk_spend 18 0))
  /\ tokens (spend (consumed (record_live_spend (count_effect (ledger_new spender) 1) (mk_spend 8 0)))) <= 18.
Proof.
  split; [reflexivity|].
  refine (reservation_covers quota spender 1 (mk_spend 8 0) _ (0 + 1 - 1) (mk_spend 18 0) eq_refl _ _ _ _ _ _ _ Tokens _).
  - apply (flight_bill spender 1 (mk_spend 8 0) _ (0 + 1)); [|by vm_compute..].
    apply (flight_admit spender 1 (mk_spend 8 0) (ledger_new spender) 0 1); [constructor|done|reflexivity].
  - done.
  - intros []; by vm_compute.
  - intros m [= <-]. done.
  - intros m [=].
  - intros k [= <-]. by vm_compute.
  - intros k [=].
  - done.
Defined.
End QuotaWitness.
