(* ===== verification/Plan.v ===== *)
(** * Plans and the plan contract ([src/src/core/plan.rs], [src/src/plan/mod.rs])

    A plan is a list of nodes with declared dependencies and argument sources;
    [validate] is the contract it is checked against before anything runs, and
    [ready] is what the executor dispatches next.  JSON constants are an
    abstract type.  [StepId] is a [u32], read as [N]; a [BTreeSet] or
    [BTreeMap] is a [gset] or [gmap], iterated in key order where the order
    decides which refusal is reported.  The depth-first walk of
    [check_acyclic] keeps its explicit stack and marks; its [while let] loop
    runs on fuel, [None] meaning that fuel ran out, which [validate_total]
    shows never happens. *)

From stdpp Require Import relations pretty.
From S2P Require Import Prelude Digest EffectKey.

(** ** Data *)

Definition Capability := str.

Inductive Collaboration := ParallelDisjoint | DistinctAuthority.
Inductive Topology := Single | Collaborative (reason : Collaboration).

Inductive ArgSource (V : Type) :=
| RunInput (field : option str)
| Node (step : StepId) (field : option str)
| Const (value : V).
Arguments RunInput {V}.
Arguments Node {V}.
Arguments Const {V}.

Record PlanNode (V : Type) := mk_node {
  node_id : StepId;
  capability : Capability;
  depends_on : list StepId;
  args : gmap str (ArgSource V);
  terminal : bool;
  verifies : bool;
}.
Arguments mk_node {V}.
Arguments node_id {V}.
Arguments capability {V}.
Arguments depends_on {V}.
Arguments args {V}.
Arguments terminal {V}.
Arguments verifies {V}.

Record PlanIR (V : Type) := mk_plan {
  version : Z;
  derived_from : option Digest;
  plan_reason : option str;
  topology : Topology;
  nodes : list (PlanNode V);
}.
Arguments mk_plan {V}.
Arguments version {V}.
Arguments derived_from {V}.
Arguments plan_reason {V}.
Arguments topology {V}.
Arguments nodes {V}.

Inductive PlanError :=
| Empty
| DuplicateStep (step : StepId)
| MissingDependency (step missing : StepId)
| Cycle (step : StepId)
| NoTerminal
| Unreachable (step : StepId)
| NoProvider (step : StepId) (cap : str)
| ArgumentNotUpstream (step : StepId) (arg : str) (from_step : StepId)
| NoArguments (step : StepId)
| VerifierWithoutSubject (step : StepId)
| VerifierRequired
| FalseParallelism (a b : StepId)
| NoAuthorityToSeparate (cap : str)
| TooManySteps (steps allowed : Z).

#[export] Instance plan_error_eq_dec : EqDecision PlanError.
Proof. solve_decision. Defined.

Record Contract := mk_contract {
  provided : gset Capability;
  require_verifier : bool;
  contract_max_steps : option Z;
}.

(** ** Building plans *)

Section build.
Context {V : Type}.
Implicit Types p : PlanIR V.
Implicit Types n : PlanNode V.

(** [ArgSource::depends_on]. *)
Definition source_step (s : ArgSource V) : option StepId :=
  match s with Node step _ => Some step | _ => None end.

Definition node_new (id : StepId) (cap : Capability) : PlanNode V := mk_node id cap [] ∅ false false.

Definition push_dep (ds : list StepId) (d : StepId) : list StepId :=
  if decide (d ∈ ds) then ds else ds ++ [d].

(** [PlanNode::arg]: bind an argument and record the dependency it implies. *)
Definition arg n (name : str) (s : ArgSource V) : PlanNode V :=
  let ds := match source_step s with Some d => push_dep (depends_on n) d | None => depends_on n end in
  mk_node (node_id n) (capability n) ds (<[name := s]> (args n)) (terminal n) (verifies n).
Definition after n (step : StepId) : PlanNode V :=
  mk_node (node_id n) (capability n) (push_dep (depends_on n) step) (args n) (terminal n) (verifies n).
Definition set_terminal n : PlanNode V :=
  mk_node (node_id n) (capability n) (depends_on n) (args n) true (verifies n).
Definition set_verifies n : PlanNode V :=
  mk_node (node_id n) (capability n) (depends_on n) (args n) (terminal n) true.

Definition plan_new (ns : list (PlanNode V)) : PlanIR V := mk_plan 1 None None Single ns.
Definition single (cap : Capability) : PlanIR V :=
  plan_new [set_terminal (arg (node_new 0%N cap) (lit "input") (RunInput None))].

(** [u32::try_from(i).unwrap_or(u32::MAX)]. *)
Definition step_of (i : nat) : StepId := if decide (Z.of_nat i <= u32_max)%Z then N.of_nat i else 4294967295%N.

(** [PlanIR::fan_out]; [None] is the panic on an empty fan-out. *)
Definition fan_out_node (i : nat) (cap : Capability) : PlanNode V :=
  arg (node_new (step_of i) cap) (lit "input") (RunInput None).
Definition fan_out_join (branches : list Capability) (aggregate : Capability) : PlanNode V :=
  foldl (fun j ic => arg j ic.2 (Node (step_of ic.1) None))
    (set_terminal (node_new (step_of (length branches)) aggregate))
    (zip (seq 0 (length branches)) branches).
Definition fan_out (branches : list Capability) (aggregate : Capability) : option (PlanIR V) :=
  if decide (branches = []) then None
  else Some (plan_new (zip_with fan_out_node (seq 0 (length branches)) branches
                       ++ [fan_out_join branches aggregate])).

Definition plan_node p (id : StepId) : option (PlanNode V) :=
  List.find (fun n => bool_decide (node_id n = id)) (nodes p).

(** ** Dispatch *)

Definition is_ready (don : gset StepId) n : bool :=
  negb (bool_decide (node_id n ∈ don)) && forallb (fun d => bool_decide (d ∈ don)) (depends_on n).

(** [PlanIR::ready]: the nodes whose dependencies are done, ascending. *)
Definition ready p (don : gset StepId) : list StepId :=
  merge_sort N.le (node_id <$> filter (fun n => is_ready don n = true) (nodes p)).

Definition is_complete p (don : gset StepId) : bool :=
  forallb (fun n => negb (terminal n) || bool_decide (node_id n ∈ don)) (nodes p).
End build.

(** ** The contract *)

(** The first error of a check run over a list ([for x in xs { ... return Err }]). *)
Fixpoint check_each {A E} (f : A -> result E unit) (xs : list A) : result E unit :=
  match xs with
  | [] => Ok tt
  | x :: xs => _ ← f x; check_each f xs
  end.

Inductive Mark := Open | Closed.
#[export] Instance visit_mark_eq_dec : EqDecision Mark.
Proof. solve_decision. Defined.

Section validate.
Context {V : Type}.
Implicit Types p : PlanIR V.
Implicit Types n : PlanNode V.

Definition ids p : gset StepId := list_to_set (node_id <$> nodes p).

Fixpoint check_duplicates (seen : gset StepId) (ns : list (PlanNode V)) : result PlanError unit :=
  match ns with
  | [] => Ok tt
  | n :: ns => if decide (node_id n ∈ seen) then Err (DuplicateStep (node_id n))
               else check_duplicates ({[node_id n]} ∪ seen) ns
  end.

Definition check_dependencies p : result PlanError unit :=
  check_each (fun n => check_each (fun d =>
    ensure (bool_decide (d ∈ ids p)) (MissingDependency (node_id n) d)) (depends_on n)) (nodes p).

(** The dependency table; a later node of the same id would win, as in
    [collect]. *)
Definition deps p : gmap StepId (list StepId) :=
  foldl (fun m n => <[node_id n := depends_on n]> m) ∅ (nodes p).
Definition children p (id : StepId) : list StepId := default [] (deps p !! id).

(** One turn of the [while let]: explore the next dependency of the top frame,
    or close it.  [None] is the loop's exit. *)
Definition Frames : Type := gmap StepId Mark * list (StepId * nat).
Definition dfs_turn p (st : Frames) : option (result PlanError Frames) :=
  let '(marks, stack) := st in
  match stack with
  | [] => None
  | (id, next) :: rest =>
      match children p id !! next with
      | None => Some (Ok (<[id := Closed]> marks, rest))
      | Some child =>
          match marks !! child with
          | Some Closed => Some (Ok (marks, (id, S next) :: rest))
          | Some Open => Some (Err (Cycle child))
          | None => Some (Ok (<[child := Open]> marks, (child, O) :: (id, S next) :: rest))
          end
      end
  end.

Fixpoint dfs_loop (fuel : nat) p (st : Frames) : option (result PlanError (gmap StepId Mark)) :=
  match dfs_turn p st with
  | None => Some (Ok st.1)
  | Some (Err e) => Some (Err e)
  | Some (Ok st) => match fuel with O => None | S fuel => dfs_loop fuel p st end
  end.

(** The walk from every node that is not closed yet. *)
Fixpoint dfs_roots (fuel : nat) p (marks : gmap StepId Mark) (roots : list StepId) :
    option (result PlanError unit) :=
  match roots with
  | [] => Some (Ok tt)
  | root :: roots =>
      if decide (marks !! root = Some Closed) then dfs_roots fuel p marks roots
      else match dfs_loop fuel p (<[root := Open]> marks, [(root, O)]) with
           | None => None
           | Some (Err e) => Some (Err e)
           | Some (Ok marks) => dfs_roots fuel p marks roots
           end
  end.

(** Every node is entered once and left once, every dependency looked at once. *)
Definition dfs_fuel p : nat := sum_list (map (fun n => 2 + 2 * length (depends_on n)) (nodes p)).
Definition check_acyclic p : option (result PlanError unit) :=
  dfs_roots (dfs_fuel p) p ∅ (node_id <$> nodes p).

Definition check_terminals p : result PlanError unit :=
  _ ← ensure (existsb terminal (nodes p)) NoTerminal;
  let depended : gset StepId := list_to_set (concat (depends_on <$> nodes p)) in
  check_each (fun n => ensure (terminal n || bool_decide (node_id n ∈ depended))
                         (Unreachable (node_id n))) (nodes p).

Definition check_capabilities p (c : Contract) : result PlanError unit :=
  check_each (fun n => ensure (bool_decide (capability n ∈ provided c))
                         (NoProvider (node_id n) (capability n))) (nodes p).

(** The arguments in name order, as [&n.args] iterates them. *)
Definition sorted_args n : list (str * ArgSource V) :=
  omap (fun k => (k,.) <$> args n !! k) (iter_str (dom (args n))).

Definition check_arguments p : result PlanError unit :=
  check_each (fun n =>
    _ ← ensure (negb (bool_decide (args n = ∅))) (NoArguments (node_id n));
    check_each (fun ks : str * ArgSource V =>
      match ks.2 with
      | Node step _ => ensure (bool_decide (step ∈ depends_on n))
                         (ArgumentNotUpstream (node_id n) ks.1 step)
      | _ => Ok tt
      end) (sorted_args n)) (nodes p).

Definition check_verifiers p (c : Contract) : result PlanError unit :=
  _ ← check_each (fun n => ensure (negb (bool_decide (depends_on n = []))) (VerifierWithoutSubject (node_id n)))
        (filter (fun n => verifies n = true) (nodes p));
  ensure (negb (require_verifier c) || existsb verifies (nodes p)) VerifierRequired.

(** [format!("input:{}", ..)] and [format!("node:{}:{}", ..)]. *)
Definition fingerprint (s : ArgSource V) : option str :=
  match s with
  | RunInput field => Some (lit "input:" ++ default (lit "*") field)
  | Node step field => Some (lit "node:" ++ lit (pretty step) ++ lit ":" ++ default (lit "*") field)
  | Const _ => None
  end.

(** What each node reads, in the order the two loops visit it. *)
Definition reads p : list (str * StepId) :=
  concat ((fun n => omap (fun ks => (., node_id n) <$> fingerprint ks.2) (sorted_args n)) <$> nodes p).

Fixpoint check_disjoint (sources : gmap str StepId) (rs : list (str * StepId)) : result PlanError unit :=
  match rs with
  | [] => Ok tt
  | (f, id) :: rs =>
      match sources !! f with
      | Some other => if decide (other = id) then check_disjoint (<[f := id]> sources) rs
                      else Err (FalseParallelism other id)
      | None => check_disjoint (<[f := id]> sources) rs
      end
  end.

Definition check_topology p : result PlanError unit :=
  match topology p with
  | Single => Ok tt
  | Collaborative ParallelDisjoint => check_disjoint ∅ (reads p)
  | Collaborative DistinctAuthority =>
      let caps : gset Capability := list_to_set (capability <$> nodes p) in
      match iter_str caps with
      | [only] => Err (NoAuthorityToSeparate only)
      | _ => Ok tt
      end
  end.

Definition validate_before p (c : Contract) : result PlanError unit :=
  _ ← ensure (negb (bool_decide (length (nodes p) = 0))) Empty;
  _ ← match contract_max_steps c with
      | Some max => ensure (bool_decide (Z.of_nat (length (nodes p)) <= max)%Z)
                      (TooManySteps (Z.of_nat (length (nodes p))) max)
      | None => Ok tt
      end;
  _ ← check_duplicates ∅ (nodes p);
  check_dependencies p.

Definition validate_after p (c : Contract) : result PlanError unit :=
  _ ← check_terminals p;
  _ ← check_capabilities p c;
  _ ← check_arguments p;
  _ ← check_verifiers p c;
  check_topology p.

Definition validate p (c : Contract) : option (result PlanError unit) :=
  match validate_before p c with
  | Err e => Some (Err e)
  | Ok _ =>
      match check_acyclic p with
      | None => None
      | Some (Err e) => Some (Err e)
      | Some (Ok _) => Some (validate_after p c)
      end
  end.
End validate.

(** ** The walk finds exactly the cycles *)

Section acyclicity.
Context {V : Type} (p : PlanIR V).
Implicit Types marks : gmap StepId Mark.
Implicit Types stack : list (StepId * nat).

(** [a] has to wait for [b]. *)
Definition waits (a b : StepId) : Prop := b ∈ children p a.

Definition closed marks (x : StepId) : Prop := marks !! x = Some Closed.
Definition on_path stack (x : StepId) : Prop := x ∈ stack.*1.

(** The frames below [above]: everything a frame has looked at is closed, except
    the child it is waiting for, which is the frame above it. *)
Fixpoint path_ok marks (above : option StepId) stack : Prop :=
  match stack with
  | [] => True
  | (id, next) :: rest =>
      match above with
      | None => Forall (closed marks) (take next (children p id))
      | Some c => exists m, next = S m /\ children p id !! m = Some c
                            /\ Forall (closed marks) (take m (children p id))
      end /\ path_ok marks (Some id) rest
  end.

Record walk_ok marks stack : Prop := {
  wo_path : path_ok marks None stack;
  wo_nodup : NoDup stack.*1;
  wo_open : forall x, marks !! x = Some Open <-> on_path stack x;
  wo_closed : forall a b, closed marks a -> waits a b -> closed marks b;
  wo_acc : forall a, closed marks a -> Acc (fun b a => waits a b) a;
}.

Lemma closed_insert marks x y : closed marks x -> closed (<[y := Closed]> marks) x.
Proof. unfold closed. destruct (decide (x = y)) as [->|]; [by rewrite lookup_insert_eq|by rewrite lookup_insert_ne]. Qed.

Lemma closed_insert_open marks x y :
  marks !! y = None -> closed marks x -> closed (<[y := Open]> marks) x.
Proof. unfold closed. intros Hy Hx. rewrite lookup_insert_ne; [done|congruence]. Qed.

Lemma path_ok_mono marks marks' above stack :
  (forall x, closed marks x -> closed marks' x) -> path_ok marks above stack -> path_ok marks' above stack.
Proof.
  intros Hm. revert above. induction stack as [|[id next] rest IH]; intros above; [done|].
  simpl. intros [Ha Hr]. split; [|by apply IH].
  destruct above as [c|]; [|by eapply Forall_impl].
  destruct Ha as (m & ? & ? & Hf). exists m. split_and!; [done..|]. by eapply Forall_impl.
Qed.

Lemma path_reaches marks c stack x : path_ok marks (Some c) stack -> on_path stack x ->
  tc waits x c.
Proof.
  revert c. induction stack as [|[id next] rest IH]; intros c; [by intros _ Hx%elem_of_nil|].
  simpl. intros [(m & _ & Hc & _) Hr] Hx. apply elem_of_cons in Hx as [->|Hx].
  - apply tc_once. by apply list_elem_of_lookup_2 in Hc.
  - eapply tc_r; [by apply IH|]. by apply list_elem_of_lookup_2 in Hc.
Qed.

Lemma walk_pop marks id next rest : children p id !! next = None ->
  walk_ok marks ((id, next) :: rest) -> walk_ok (<[id := Closed]> marks) rest.
Proof.
  intros Hnone [[Hall Hpath] Hnd Hopen Hcl Hacc]. simpl in Hall, Hnd.
  rewrite take_ge in Hall by (by apply lookup_ge_None). apply NoDup_cons in Hnd as [Hid Hnd].
  rewrite Forall_forall in Hall.
  assert (forall x, closed (<[id := Closed]> marks) x <-> x = id \/ closed marks x) as Hc.
  { intros x. unfold closed. destruct (decide (x = id)) as [->|].
    - rewrite lookup_insert_eq. naive_solver.
    - rewrite lookup_insert_ne by done. naive_solver. }
  split.
  - destruct rest as [|[id1 n1] rest]; [done|]. simpl in *.
    destruct Hpath as [(m & -> & Hm & Hf) Hr]. split.
    + rewrite (take_S_r _ _ _ Hm). apply Forall_app. split; [|apply Forall_singleton, Hc; by left].
      apply (Forall_impl _ _ _ Hf). intros y Hy. apply Hc. by right.
    + apply (path_ok_mono marks); [|done]. intros y Hy. apply Hc. by right.
  - done.
  - intros x. destruct (decide (x = id)) as [->|Hne].
    + rewrite lookup_insert_eq. split; [done|]. intros Hx. done.
    + rewrite lookup_insert_ne, Hopen by done. unfold on_path. simpl. rewrite elem_of_cons. naive_solver.
  - intros a b Ha Hw. apply Hc in Ha as [->|Ha]; apply Hc; right; [by apply Hall|by apply (Hcl a)].
  - intros a Ha. apply Hc in Ha as [->|Ha]; [|by apply Hacc].
    constructor. intros b Hb. apply Hacc. by apply Hall.
Qed.

Lemma walk_skip marks id next rest child : children p id !! next = Some child ->
  closed marks child -> walk_ok marks ((id, next) :: rest) -> walk_ok marks ((id, S next) :: rest).
Proof.
  intros Hc Hcl [[Hall Hpath] Hnd Hopen Hcl' Hacc]. split; try done. split; [|done]. simpl in *.
  rewrite (take_S_r _ _ _ Hc). apply Forall_app. split; [done|]. by apply Forall_singleton.
Qed.

Lemma walk_push marks id next rest child : children p id !! next = Some child ->
  marks !! child = None -> walk_ok marks ((id, next) :: rest) ->
  walk_ok (<[child := Open]> marks) ((child, 0) :: (id, S next) :: rest).
Proof.
  intros Hc Hnone [[Hall Hpath] Hnd Hopen Hcl Hacc].
  assert (forall x, closed (<[child := Open]> marks) x <-> closed marks x) as He.
  { intros x. unfold closed. destruct (decide (x = child)) as [->|].
    - rewrite lookup_insert_eq. naive_solver congruence.
    - by rewrite lookup_insert_ne. }
  split.
  - cbn. split; [constructor|]. split.
    + exists next. split_and!; [done..|]. apply (Forall_impl _ _ _ Hall). intros x. apply He.
    + apply (path_ok_mono marks); [|done]. intros x. apply He.
  - simpl. apply NoDup_cons. split; [|done]. intros Hin.
    assert (on_path ((id, next) :: rest) child) as Hop by done.
    apply Hopen in Hop. congruence.
  - intros x. unfold on_path in *. simpl in *. rewrite elem_of_cons. destruct (decide (x = child)) as [->|].
    + rewrite lookup_insert_eq. naive_solver.
    + rewrite lookup_insert_ne, Hopen by done. naive_solver.
  - intros a b Ha Hw. apply He. apply He in Ha. by apply (Hcl a).
  - intros a Ha. apply Hacc. by apply He.
Qed.

Lemma turn_cycle marks stack e : walk_ok marks stack ->
  dfs_turn p (marks, stack) = Some (Err e) -> exists c, e = Cycle c /\ tc waits c c.
Proof.
  intros Hw. destruct stack as [|[id next] rest]; [done|]. cbn.
  destruct (children p id !! next) as [child|] eqn:Hc; [|done].
  destruct (marks !! child) as [[]|] eqn:Hm; try done. intros [= <-]. exists child. split; [done|].
  destruct Hw as [[_ Hp] _ Hopen _ _]. apply Hopen, elem_of_cons in Hm as [->|Hin].
  - apply tc_once. by apply list_elem_of_lookup_2 in Hc.
  - eapply tc_r; [by eapply path_reaches|]. by apply list_elem_of_lookup_2 in Hc.
Qed.

Lemma turn_ok marks stack marks' stack' : walk_ok marks stack ->
  dfs_turn p (marks, stack) = Some (Ok (marks', stack')) ->
  walk_ok marks' stack' /\ (forall x, closed marks x -> closed marks' x)
  /\ (forall x, is_Some (marks !! x) -> is_Some (marks' !! x)).
Proof.
  intros Hw. destruct stack as [|[id next] rest]; [done|]. cbn.
  destruct (children p id !! next) as [child|] eqn:Hc.
  - destruct (marks !! child) as [[]|] eqn:Hm; [discriminate| |]; intros [= <- <-].
    + split; [by eapply walk_skip|]. split; auto.
    + split; [by apply walk_push|]. split; [by intros; apply closed_insert_open|].
      intros x Hx. destruct (decide (x = child)) as [->|]; [by rewrite lookup_insert_eq|].
      by rewrite lookup_insert_ne.
  - intros [= <- <-]. split; [by eapply walk_pop|]. split; [by intros; apply closed_insert|].
    intros x Hx. destruct (decide (x = id)) as [->|]; [by rewrite lookup_insert_eq|].
    by rewrite lookup_insert_ne.
Qed.

(** *** The loop stops *)

(** Every step a dependency mentions, and every step there is, once. *)
Definition universe : list StepId :=
  remove_dups ((node_id <$> nodes p) ++ concat (depends_on <$> nodes p)).
Definition weight (x : StepId) : nat := S (length (children p x)).
Definition unentered marks (x : StepId) : nat :=
  match marks !! x with None => weight x | Some _ => 0 end.
Definition frame_left (f : StepId * nat) : nat := S (length (children p f.1) - f.2).
Definition potential (st : Frames) : nat :=
  sum_list_with (unentered st.1) universe + sum_list_with frame_left st.2.

Lemma universe_nodup : NoDup universe.
Proof. apply NoDup_remove_dups. Qed.

Lemma deps_lookup_in ns : forall (m : gmap StepId (list StepId)) x ds,
  foldl (fun m (n : PlanNode V) => <[node_id n := depends_on n]> m) m ns !! x = Some ds ->
  m !! x = Some ds \/ exists n, n ∈ ns /\ node_id n = x /\ depends_on n = ds.
Proof.
  induction ns as [|n ns IH]; intros m x ds; simpl; [by left|]. intros H.
  apply IH in H as [H|(n' & ? & ? & ?)].
  - destruct (decide (x = node_id n)) as [->|].
    + rewrite lookup_insert_eq in H. right. exists n. split_and!; [by left|done|congruence].
    + rewrite lookup_insert_ne in H by done. by left.
  - right. exists n'. split_and!; [by right|done..].
Qed.

Lemma waits_in a b : waits a b -> exists n, n ∈ nodes p /\ node_id n = a /\ b ∈ depends_on n.
Proof.
  unfold waits, children, deps. destruct (foldl _ ∅ (nodes p) !! a) as [ds|] eqn:Hd; simpl.
  - intros Hb. apply deps_lookup_in in Hd as [Hd|(n & Hn & ? & <-)]; [by rewrite lookup_empty in Hd|].
    by exists n.
  - by intros ?%elem_of_nil.
Qed.

Lemma waits_universe a b : waits a b -> b ∈ universe.
Proof.
  intros (n & Hn & _ & Hb)%waits_in. apply elem_of_remove_dups, elem_of_app. right.
  apply elem_of_concat. exists (depends_on n). split; [apply list_elem_of_fmap; by exists n|done].
Qed.

Lemma turn_potential st st' : dfs_turn p st = Some (Ok st') -> potential st' < potential st.
Proof.
  destruct st as [marks [|[id next] rest]]; [done|]. unfold potential. cbn.
  destruct (children p id !! next) as [child|] eqn:Hc.
  - pose proof (lookup_lt_Some _ _ _ Hc) as Hlt.
    destruct (marks !! child) as [[]|] eqn:Hm; try done; intros [= <-]; cbn.
    + unfold frame_left. simpl. lia.
    + assert (child ∈ universe) as Hin by (eapply waits_universe; by apply list_elem_of_lookup_2 in Hc).
      pose proof (sum_list_with_update (unentered (<[child:=Open]> marks)) (unentered marks)
                    universe child universe_nodup Hin) as Hs.
      specialize (Hs ltac:(intros y _ Hy; unfold unentered; by rewrite lookup_insert_ne)).
      unfold unentered at 2 4 in Hs. rewrite Hm, lookup_insert_eq in Hs.
      unfold frame_left, weight in *. simpl. lia.
  - intros [= <-]. cbn. unfold frame_left. simpl.
    assert (sum_list_with (unentered (<[id:=Closed]> marks)) universe
      <= sum_list_with (unentered marks) universe); [|lia].
    apply sum_list_with_le. intros x _. unfold unentered.
    destruct (decide (x = id)) as [->|]; [rewrite lookup_insert_eq; lia|by rewrite lookup_insert_ne].
Qed.

Lemma loop_total fuel : forall st, potential st <= fuel -> is_Some (dfs_loop fuel p st).
Proof.
  induction fuel as [|fuel IH]; intros st Hp; simpl;
    destruct (dfs_turn p st) as [[st'|e]|] eqn:Ht; try by eexists.
  - apply turn_potential in Ht. lia.
  - apply IH. apply turn_potential in Ht. lia.
Qed.

Lemma loop_sound fuel : forall marks stack r, walk_ok marks stack ->
  dfs_loop fuel p (marks, stack) = Some r ->
  match r with
  | Ok marks' => walk_ok marks' [] /\ (forall x, closed marks x -> closed marks' x)
                 /\ (forall x, on_path stack x -> closed marks' x)
  | Err e => exists c, e = Cycle c /\ tc waits c c
  end.
Proof.
  revert fuel. assert (forall marks stack, walk_ok marks stack -> dfs_turn p (marks, stack) = None ->
    stack = []) as Hstop.
  { intros marks [|[id next] rest] _; [done|]. cbn.
    destruct (children p id !! next) as [c|]; [destruct (marks !! c) as [[]|]|]; discriminate. }
  induction fuel as [|fuel IH]; intros marks stack r Hw Hl; cbn [dfs_loop] in Hl;
    destruct (dfs_turn p (marks, stack)) as [[[marks' stack']|e]|] eqn:Ht.
  1: discriminate Hl.
  1, 4: injection Hl as <-; by eapply turn_cycle.
  1, 3: injection Hl as <-; pose proof (Hstop _ _ Hw Ht); subst stack;
        (split; [exact Hw|split; [auto|by intros ? ?%elem_of_nil]]).
  destruct (turn_ok _ _ _ _ Hw Ht) as (Hw' & Hc' & Hs').
  apply (IH _ _ _ Hw') in Hl. destruct r as [marks''|e]; [|exact Hl].
  destruct Hl as (H1 & H2 & H3). split; [exact H1|]. split; [auto|]. intros x Hx.
  destruct (marks' !! x) as [[]|] eqn:Hx'.
  - apply H3. by apply (wo_open _ _ Hw').
  - by apply H2.
  - apply (wo_open _ _ Hw) in Hx. destruct (Hs' x) as [? Hn]; [by eexists|congruence].
Qed.

Lemma walk_empty : walk_ok ∅ [].
Proof.
  split.
  - constructor.
  - constructor.
  - intros x. rewrite lookup_empty. split; [done|by intros ?%elem_of_nil].
  - intros a b Ha. unfold closed in Ha. by rewrite lookup_empty in Ha.
  - intros a Ha. unfold closed in Ha. by rewrite lookup_empty in Ha.
Qed.

Lemma walk_start marks root : walk_ok marks [] -> marks !! root = None ->
  walk_ok (<[root := Open]> marks) [(root, 0)].
Proof.
  intros [_ _ Hopen Hcl Hacc] Hn.
  assert (forall x, closed (<[root := Open]> marks) x <-> closed marks x) as He.
  { intros x. unfold closed. destruct (decide (x = root)) as [->|].
    - rewrite lookup_insert_eq, Hn. split; discriminate.
    - by rewrite lookup_insert_ne. }
  split.
  - cbn. split; constructor.
  - apply NoDup_singleton.
  - intros x. unfold on_path. cbn. rewrite list_elem_of_singleton.
    destruct (decide (x = root)) as [->|]; [by rewrite lookup_insert_eq|].
    rewrite lookup_insert_ne, Hopen by done. unfold on_path. cbn. rewrite elem_of_nil. naive_solver.
  - intros a b Ha Hw. apply He. apply He in Ha. by apply (Hcl a).
  - intros a Ha. apply Hacc. by apply He.
Qed.

Lemma roots_result fuel roots : sum_list_with weight universe <= fuel ->
  (forall x, x ∈ roots -> x ∈ universe) -> forall marks, walk_ok marks [] ->
  exists r, dfs_roots fuel p marks roots = Some r /\
    match r with
    | Ok _ => forall x, closed marks x \/ x ∈ roots -> Acc (fun b a => waits a b) x
    | Err e => exists c, e = Cycle c /\ tc waits c c
    end.
Proof.
  intros Hfuel Hroots. induction roots as [|root roots IH]; intros marks Hw; cbn [dfs_roots].
  { exists (Ok tt). split; [reflexivity|]. intros x [Hx|Hx%elem_of_nil]; [by apply (wo_acc _ _ Hw)|done]. }
  assert (forall x, x ∈ roots -> x ∈ universe) as Hr by (intros x Hx; apply Hroots; by right).
  case_decide as Hc.
  - destruct (IH Hr marks Hw) as (r & Heq & Hres). exists r. split; [exact Heq|].
    destruct r as [u|e]; [|exact Hres]. intros x [Hx|[->|Hx]%elem_of_cons]; apply Hres; auto.
  - assert (marks !! root = None) as Hn.
    { destruct (marks !! root) as [[]|] eqn:Hm; [|done|done].
      apply (wo_open _ _ Hw) in Hm. by apply elem_of_nil in Hm. }
    pose proof (walk_start _ _ Hw Hn) as Hs.
    destruct (loop_total fuel (<[root:=Open]> marks, [(root, 0)])) as [r Hl].
    { etrans; [|exact Hfuel]. unfold potential. cbn.
      assert (root ∈ universe) as Hin by (apply Hroots; by left).
      pose proof (sum_list_with_drop (unentered (<[root:=Open]> marks)) weight universe root Hin) as Hu.
      unfold unentered at 1 in Hu. rewrite lookup_insert_eq in Hu.
      specialize (Hu eq_refl ltac:(intros y; unfold unentered;
        destruct (<[root:=Open]> marks !! y); lia)).
      unfold frame_left, weight in *. cbn. lia. }
    rewrite Hl. pose proof (loop_sound _ _ _ _ Hs Hl) as Hsound.
    destruct r as [marks'|e]; [|by exists (Err e)].
    destruct Hsound as (Hw' & Hmono & Hon). destruct (IH Hr marks' Hw') as (r & -> & Hres).
    exists r. split; [reflexivity|]. destruct r as [u|e]; [|exact Hres].
    intros x [Hx|[->|Hx]%elem_of_cons]; apply Hres; [left|left|by right].
    + by apply Hmono, closed_insert_open.
    + apply Hon. by left.
Qed.

Lemma children_bound (m : gmap StepId (list StepId)) ns l : NoDup l ->
  sum_list_with (fun x => length (default []
      (foldl (fun m (n : PlanNode V) => <[node_id n := depends_on n]> m) m ns !! x))) l
    <= sum_list_with (fun x => length (default [] (m !! x))) l
       + sum_list_with (fun n => length (depends_on n)) ns.
Proof.
  intros Hl. revert m. induction ns as [|n ns IH]; intros m; simpl; [lia|].
  etrans; [apply IH|].
  assert (sum_list_with (fun x => length (default [] (<[node_id n:=depends_on n]> m !! x))) l
    <= sum_list_with (fun x => length (default [] (m !! x))) l + length (depends_on n)); [|lia].
  destruct (decide (node_id n ∈ l)) as [Hin|Hout].
  - pose proof (sum_list_with_update
      (fun x => length (default [] (<[node_id n:=depends_on n]> m !! x)))
      (fun x => length (default [] (m !! x))) l (node_id n) Hl Hin) as Hu.
    specialize (Hu ltac:(intros y _ Hy; cbv beta; by rewrite lookup_insert_ne)). cbv beta in Hu.
    rewrite lookup_insert_eq in Hu. cbn in Hu. lia.
  - rewrite (sum_list_with_ext _ (fun x => length (default [] (m !! x)))); [lia|].
    intros x Hx. rewrite lookup_insert_ne; [done|]. by intros <-.
Qed.

Lemma remove_dups_length {A} `{EqDecision A} (l : list A) : length (remove_dups l) <= length l.
Proof. induction l as [|a l IH]; simpl; [lia|]. case_decide; simpl; lia. Qed.

Lemma fuel_enough : sum_list_with weight universe <= dfs_fuel p.
Proof.
  assert (sum_list_with weight universe
    = length universe + sum_list_with (fun x => length (children p x)) universe) as ->.
  { induction universe as [|x l IH]; simpl; [done|]. rewrite IH. unfold weight. lia. }
  pose proof (children_bound ∅ (nodes p) universe universe_nodup) as Hc.
  rewrite (sum_list_with_ext (fun x => length (default [] (∅ !! x))) (fun _ => 0)) in Hc
    by (intros x _; by rewrite lookup_empty).
  assert (forall l : list StepId, sum_list_with (fun _ => 0) l = 0) as Hz
    by (intros l; induction l; simpl; lia).
  rewrite Hz in Hc.
  assert (length universe <= length (nodes p) + sum_list_with (fun n => length (depends_on n)) (nodes p)).
  { etrans; [apply remove_dups_length|]. rewrite length_app, length_fmap. apply Nat.add_le_mono_l.
    clear. induction (nodes p) as [|n ns IH]; [simpl; lia|].
    rewrite fmap_cons. cbn [concat sum_list_with]. rewrite length_app. lia. }
  unfold dfs_fuel, children, deps in *.
  assert (sum_list (map (fun n => 2 + 2 * length (depends_on n)) (nodes p))
    = 2 * length (nodes p) + 2 * sum_list_with (fun n => length (depends_on n)) (nodes p)) as ->; [|lia].
  clear. induction (nodes p) as [|n ns IH]; [done|]. cbn [map sum_list sum_list_with foldr]. simpl in *. lia.
Qed.

Definition acyclic : Prop := forall a, ~ tc waits a a.

Lemma acc_no_cycle a : Acc (fun b a => waits a b) a -> ~ tc waits a a.
Proof.
  induction 1 as [a _ IH]. intros Hc.
  assert (exists b, waits a b /\ rtc waits b a) as (b & Hab & Hba).
  { inversion Hc as [? ? Hab|? b ? Hab Hb]; subst; eexists; (split; [exact Hab|]);
      [reflexivity|by apply tc_rtc]. }
  apply (IH b Hab). eapply tc_rtc_l; [exact Hba|]. by apply tc_once.
Qed.

Lemma acyclic_result : exists r, check_acyclic p = Some r /\
  match r with
  | Ok _ => forall x, x ∈ node_id <$> nodes p -> Acc (fun b a => waits a b) x
  | Err e => exists c, e = Cycle c /\ tc waits c c
  end.
Proof.
  destruct (roots_result (dfs_fuel p) (node_id <$> nodes p) fuel_enough) with (marks := (∅ : gmap StepId Mark))
    as (r & Hr & Hres).
  - intros x Hx. apply elem_of_remove_dups, elem_of_app. by left.
  - apply walk_empty.
  - exists r. split; [exact Hr|]. destruct r as [u|e]; [|exact Hres].
    intros x Hx. apply Hres. by right.
Qed.

Lemma check_acyclic_ok : check_acyclic p = Some (Ok tt) <-> acyclic.
Proof.
  destruct acyclic_result as (r & -> & Hr). destruct r as [[]|e].
  - split; [|done]. intros _ a Hc.
    assert (exists b, waits a b) as [b Hb] by (inversion Hc; eauto).
    apply waits_in in Hb as (n & Hn & <- & _). eapply acc_no_cycle; [|exact Hc].
    apply Hr, list_elem_of_fmap. by exists n.
  - split; [done|]. intros Ha. destruct Hr as (c & _ & Hc). by destruct (Ha c).
Qed.

Lemma check_acyclic_err e : check_acyclic p = Some (Err e) -> exists c, e = Cycle c /\ tc waits c c.
Proof. destruct acyclic_result as (r & -> & Hr). intros [= ->]. exact Hr. Qed.
End acyclicity.

(** ** The contract, as one specification *)

Lemma check_each_ok {A E} (f : A -> result E unit) xs :
  check_each f xs = Ok tt <-> forall x, x ∈ xs -> f x = Ok tt.
Proof.
  induction xs as [|x xs IH]; simpl; [split; [intros _ x Hx; by apply elem_of_nil in Hx|done]|].
  rewrite result_bind_ok. setoid_rewrite elem_of_cons. split.
  - intros ([] & Hx & Hxs) y [->|Hy]; [done|by apply IH].
  - intros Ha. exists tt. split; [|apply IH]; auto.
Qed.

Lemma ensure_unit {E} b (e : E) : ensure b e = Ok tt <-> b = true.
Proof. apply ensure_ok. Qed.

Lemma check_each_ensure {A E} (b : A -> bool) (e : A -> E) xs :
  check_each (fun x => ensure (b x) (e x)) xs = Ok tt <-> forall x, x ∈ xs -> b x = true.
Proof.
  rewrite check_each_ok. split; intros Ha x Hx; [by apply (ensure_unit (b x) (e x)), Ha|].
  by apply ensure_unit, Ha.
Qed.

Section contract.
Context {V : Type}.
Implicit Types p : PlanIR V.
Implicit Types n : PlanNode V.

Lemma check_duplicates_ok ns : forall seen : gset StepId,
  check_duplicates seen ns = Ok tt <->
    NoDup (node_id <$> ns) /\ forall n, n ∈ ns -> node_id n ∉ seen.
Proof.
  induction ns as [|n ns IH]; intros seen; simpl.
  { split; [|done]. intros _. split; [constructor|]. by intros n ?%elem_of_nil. }
  rewrite NoDup_cons, list_elem_of_fmap. setoid_rewrite elem_of_cons. case_decide as Hs.
  - split; [done|]. intros [_ Ha]. by destruct (Ha n (or_introl eq_refl)).
  - rewrite IH. setoid_rewrite elem_of_union. setoid_rewrite elem_of_singleton. split.
    + intros [Hnd Ha]. split_and!; [|done|].
      * intros (m & He & Hm). apply (Ha m Hm). by left.
      * intros m [->|Hm]; [done|]. intros Hin. apply (Ha m Hm). by right.
    + intros [[Hn Hnd] Ha]. split; [done|]. intros m Hm [He|Hin].
      * apply Hn. by exists m.
      * by apply (Ha m (or_intror Hm)).
Qed.

Lemma sorted_args_in n k s : (k, s) ∈ sorted_args n <-> args n !! k = Some s.
Proof.
  unfold sorted_args. rewrite list_elem_of_omap. split.
  - intros (k' & _ & Hk). destruct (args n !! k') as [s'|] eqn:Hs; [|done]. by injection Hk as <- <-.
  - intros Hk. exists k. rewrite Hk. split; [|done].
    apply (elem_of_iter_by str_cmp), elem_of_dom. by eexists.
Qed.

(** What is read by two different nodes under [ParallelDisjoint]. *)
Lemma check_disjoint_ok rs : forall m : gmap str StepId,
  check_disjoint m rs = Ok tt <->
    (forall f a b, (f, a) ∈ rs -> (f, b) ∈ rs -> a = b)
    /\ (forall f a b, (f, a) ∈ rs -> m !! f = Some b -> b = a).
Proof.
  induction rs as [|[f id] rs IH]; intros m; simpl.
  { split; [|done]. intros _. split; intros f a b Hin; by apply elem_of_nil in Hin. }
  assert ((forall b : StepId, m !! f = Some b -> b = id) ->
    check_disjoint (<[f:=id]> m) rs = Ok tt <->
      (forall g a b, (g, a) ∈ (f, id) :: rs -> (g, b) ∈ (f, id) :: rs -> a = b)
      /\ (forall g a b, (g, a) ∈ (f, id) :: rs -> m !! g = Some b -> b = a)) as Hstep.
  2:{ destruct (m !! f) as [o|] eqn:Hm; [case_decide as Hd; [subst|]|].
      - apply Hstep. congruence.
      - split; [done|]. intros [_ Ha]. specialize (Ha f id o ltac:(by left) Hm). done.
      - apply Hstep. congruence. }
  intros Hf. rewrite IH. setoid_rewrite elem_of_cons. split.
  - intros [H1 H2].
    assert (forall a, (f, a) ∈ rs -> a = id) as H3.
    { intros a Ha. symmetry. apply (H2 f a id Ha). by rewrite lookup_insert_eq. }
    split.
    + intros g a b [[= -> ->]|Ha] [Hb|Hb].
      * by injection Hb as ->.
      * symmetry. by apply H3.
      * injection Hb as -> ->. by apply H3.
      * by apply (H1 g).
    + intros g a b [[= -> ->]|Ha] Hb; [by apply Hf|].
      destruct (decide (g = f)) as [->|Hne]; [by rewrite (Hf b Hb), (H3 a)|].
      apply (H2 g a b Ha). by rewrite lookup_insert_ne.
  - intros [H1 H2]. split; [intros g a b Ha Hb; apply (H1 g); by right|].
    intros g a b Ha. destruct (decide (g = f)) as [->|Hne].
    + rewrite lookup_insert_eq. intros [= <-]. apply (H1 f); [by left|by right].
    + rewrite lookup_insert_ne by done. apply H2. by right.
Qed.

(** Nodes of a plan are told apart by their ids. *)
Definition reads_of n (f : str) : Prop :=
  exists k s, args n !! k = Some s /\ fingerprint s = Some f.

Lemma reads_in p f a :
  (f, a) ∈ reads p <-> exists n, n ∈ nodes p /\ node_id n = a /\ reads_of n f.
Proof.
  unfold reads. rewrite elem_of_concat. split.
  - intros (l & (n & -> & Hn)%list_elem_of_fmap & Hin). exists n.
    apply list_elem_of_omap in Hin as ([k s] & Hks & Hf). cbn in Hf.
    destruct (fingerprint s) as [g|] eqn:Hg; [|done]. injection Hf as <- <-.
    split_and!; [done..|]. exists k, s. by rewrite <- sorted_args_in.
  - intros (n & Hn & <- & k & s & Hk & Hf). eexists. split; [apply list_elem_of_fmap; by exists n|].
    apply list_elem_of_omap. exists (k, s). rewrite sorted_args_in. cbn. by rewrite Hf.
Qed.

(** What the topology a plan declares has to be worth. *)
Definition topology_ok p : Prop :=
  match topology p with
  | Single => True
  | Collaborative ParallelDisjoint =>
      forall n m f, n ∈ nodes p -> m ∈ nodes p -> reads_of n f -> reads_of m f -> node_id n = node_id m
  | Collaborative DistinctAuthority =>
      exists n m, n ∈ nodes p /\ m ∈ nodes p /\ capability n ≠ capability m
  end.

(** Everything the contract asks of a plan. *)
Record plan_ok p (c : Contract) : Prop := {
  po_nonempty : nodes p ≠ [];
  po_size : forall max, contract_max_steps c = Some max -> (Z.of_nat (length (nodes p)) <= max)%Z;
  po_distinct : NoDup (node_id <$> nodes p);
  po_deps : forall n d, n ∈ nodes p -> d ∈ depends_on n -> exists m, m ∈ nodes p /\ node_id m = d;
  po_acyclic : acyclic p;
  po_terminal : exists n, n ∈ nodes p /\ terminal n = true;
  po_used : forall n, n ∈ nodes p -> terminal n = true \/ exists m, m ∈ nodes p /\ node_id n ∈ depends_on m;
  po_provided : forall n, n ∈ nodes p -> capability n ∈ provided c;
  po_bound : forall n, n ∈ nodes p -> args n ≠ ∅;
  po_upstream : forall n k step f, n ∈ nodes p -> args n !! k = Some (Node step f) -> step ∈ depends_on n;
  po_verifies : forall n, n ∈ nodes p -> verifies n = true -> depends_on n ≠ [];
  po_verifier : require_verifier c = true -> exists n, n ∈ nodes p /\ verifies n = true;
  po_topology : topology_ok p;
}.

Lemma existsb_elem {A} (f : A -> bool) l : existsb f l = true <-> exists x, x ∈ l /\ f x = true.
Proof. rewrite existsb_exists. setoid_rewrite list_elem_of_In. done. Qed.

Lemma elem_of_ids p d : d ∈ ids p <-> exists m, m ∈ nodes p /\ node_id m = d.
Proof.
  unfold ids. rewrite elem_of_list_to_set, list_elem_of_fmap. naive_solver.
Qed.

Lemma check_dependencies_ok p : check_dependencies p = Ok tt <->
  forall n d, n ∈ nodes p -> d ∈ depends_on n -> exists m, m ∈ nodes p /\ node_id m = d.
Proof.
  unfold check_dependencies. rewrite check_each_ok. split.
  - intros Ha n d Hn Hd. specialize (Ha n Hn). cbv beta in Ha. rewrite check_each_ok in Ha.
    by apply Ha, ensure_unit, bool_decide_eq_true, elem_of_ids in Hd.
  - intros Ha n Hn. apply check_each_ok. intros d Hd. apply ensure_unit, bool_decide_eq_true, elem_of_ids.
    by apply (Ha n).
Qed.

Lemma check_terminals_ok p : check_terminals p = Ok tt <->
  (exists n, n ∈ nodes p /\ terminal n = true)
  /\ forall n, n ∈ nodes p -> terminal n = true \/ exists m, m ∈ nodes p /\ node_id n ∈ depends_on m.
Proof.
  unfold check_terminals. rewrite seq_ok, check_each_ensure, ensure_unit. setoid_rewrite existsb_elem.
  setoid_rewrite orb_true_iff. setoid_rewrite bool_decide_eq_true.
  assert (forall x : StepId, x ∈ (list_to_set (concat (depends_on <$> nodes p)) : gset StepId)
    <-> exists m, m ∈ nodes p /\ x ∈ depends_on m) as Hd.
  { intros x. rewrite elem_of_list_to_set, elem_of_concat. split.
    - intros (l & (m & -> & Hm)%list_elem_of_fmap & Hx). by exists m.
    - intros (m & Hm & Hx). exists (depends_on m). split; [|done]. apply list_elem_of_fmap. by exists m. }
  by setoid_rewrite Hd.
Qed.

Lemma check_capabilities_ok p c : check_capabilities p c = Ok tt <->
  forall n, n ∈ nodes p -> capability n ∈ provided c.
Proof.
  unfold check_capabilities. rewrite check_each_ensure. by setoid_rewrite bool_decide_eq_true.
Qed.

Lemma check_arguments_ok p : check_arguments p = Ok tt <->
  (forall n, n ∈ nodes p -> args n ≠ ∅)
  /\ forall n k step f, n ∈ nodes p -> args n !! k = Some (Node step f) -> step ∈ depends_on n.
Proof.
  unfold check_arguments. rewrite check_each_ok. split.
  - intros Ha. split.
    + intros n Hn. destruct (proj1 (result_bind_ok _ _ _) (Ha n Hn)) as ([] & Hb & _).
      by apply ensure_unit, negb_true_iff, bool_decide_eq_false in Hb.
    + intros n k step f Hn Hk. destruct (proj1 (result_bind_ok _ _ _) (Ha n Hn)) as ([] & _ & Hall).
      rewrite check_each_ok in Hall. apply sorted_args_in, Hall in Hk.
      by apply ensure_unit, bool_decide_eq_true in Hk.
  - intros [H1 H2] n Hn. apply result_bind_ok. exists tt.
    split; [by apply ensure_unit, negb_true_iff, bool_decide_eq_false, H1|].
    apply check_each_ok. intros [k s] Hks%sorted_args_in. cbn.
    destruct s as [| step f|]; try done. apply ensure_unit, bool_decide_eq_true. by eapply H2.
Qed.

Lemma check_verifiers_ok p c : check_verifiers p c = Ok tt <->
  (forall n, n ∈ nodes p -> verifies n = true -> depends_on n ≠ [])
  /\ (require_verifier c = true -> exists n, n ∈ nodes p /\ verifies n = true).
Proof.
  unfold check_verifiers. rewrite seq_ok, check_each_ensure, ensure_unit. setoid_rewrite negb_true_iff. setoid_rewrite bool_decide_eq_false.
  setoid_rewrite list_elem_of_filter. setoid_rewrite orb_true_iff. setoid_rewrite existsb_elem.
  setoid_rewrite negb_true_iff. split.
  - intros [Ha Hr]. split; [intros; by apply Ha|]. intros Ht. destruct Hr as [Hr|Hr]; [congruence|done].
  - intros [Ha Hr]. split; [intros n []; auto|].
    destruct (require_verifier c); [right; auto|by left].
Qed.

Lemma iter_str_singleton (X : gset str) x : iter_str X = [x] <-> X = {[x]}.
Proof.
  split.
  - intros Hi. apply set_eq. intros y. rewrite <- (elem_of_iter_by str_cmp).
    change (iter_by str_cmp X) with (iter_str X). rewrite Hi. set_solver.
  - intros ->. unfold iter_str, iter_by. by rewrite elements_singleton.
Qed.

Lemma check_topology_ok p : nodes p ≠ [] -> check_topology p = Ok tt <-> topology_ok p.
Proof.
  intros Hne. unfold check_topology, topology_ok. destruct (topology p) as [|[]]; [done| |].
  - rewrite check_disjoint_ok. setoid_rewrite reads_in. split.
    + intros [H1 _] n m f Hn Hm Hrn Hrm. apply (H1 f); [by exists n|by exists m].
    + intros Ha. split; [|intros f a b _; by rewrite lookup_empty].
      intros f a b (n & Hn & <- & Hrn) (m & Hm & <- & Hrm). by apply (Ha n m f).
  - set (caps := list_to_set (capability <$> nodes p) : gset Capability).
    assert (forall x, x ∈ caps <-> exists n, n ∈ nodes p /\ capability n = x) as Hc.
    { intros x. unfold caps. rewrite elem_of_list_to_set, list_elem_of_fmap. naive_solver. }
    split.
    + intros Hok. destruct (nodes p) as [|n0 ns0] eqn:Hns; [done|]. rewrite <- Hns in *.
      destruct (decide (caps = {[capability n0]})) as [He|He].
      { by rewrite (proj2 (iter_str_singleton _ _) He) in Hok. }
      destruct (decide (Forall (fun m => capability m = capability n0) (nodes p))) as [Hall|Hall].
      * exfalso. apply He. apply set_eq. intros x. rewrite Hc, elem_of_singleton.
        rewrite Forall_forall in Hall. split; [intros (n & Hn & <-); by apply Hall|].
        intros ->. exists n0. split; [rewrite Hns; by left|done].
      * apply not_Forall_Exists in Hall; [|apply _]. apply Exists_exists in Hall as (m & Hm & Hx).
        exists m, n0. split_and!; [done|rewrite Hns; by left|done].
    + intros (n & m & Hn & Hm & Hd). destruct (iter_str caps) as [|only [|]] eqn:Hi; try done.
      exfalso. apply iter_str_singleton in Hi. apply Hd.
      assert (capability n ∈ caps) as H1 by (apply Hc; by exists n).
      assert (capability m ∈ caps) as H2 by (apply Hc; by exists m).
      rewrite Hi, elem_of_singleton in H1, H2. congruence.
Qed.

Lemma validate_before_ok p c : validate_before p c = Ok tt <->
  nodes p ≠ [] /\ (forall max, contract_max_steps c = Some max -> (Z.of_nat (length (nodes p)) <= max)%Z)
  /\ NoDup (node_id <$> nodes p)
  /\ forall n d, n ∈ nodes p -> d ∈ depends_on n -> exists m, m ∈ nodes p /\ node_id m = d.
Proof.
  unfold validate_before. rewrite !seq_ok, ensure_unit, check_duplicates_ok, check_dependencies_ok.
  rewrite negb_true_iff, bool_decide_eq_false, length_zero_iff_nil.
  assert (match contract_max_steps c with
    | Some max => ensure (bool_decide (Z.of_nat (length (nodes p)) <= max)%Z)
                    (TooManySteps (Z.of_nat (length (nodes p))) max)
    | None => Ok tt end = Ok tt
    <-> forall max, contract_max_steps c = Some max -> (Z.of_nat (length (nodes p)) <= max)%Z) as ->.
  { destruct (contract_max_steps c) as [m|]; [|done]. rewrite ensure_unit, bool_decide_eq_true.
    split; [by intros ? ? [= <-]|by intros Ha; apply Ha]. }
  split; [intros (? & ? & [? _] & ?)|intros (? & ? & ? & ?)]; split_and!; try done.
Qed.

Lemma validate_after_ok p c : nodes p ≠ [] -> validate_after p c = Ok tt <->
  ((exists n, n ∈ nodes p /\ terminal n = true)
   /\ forall n, n ∈ nodes p -> terminal n = true \/ exists m, m ∈ nodes p /\ node_id n ∈ depends_on m)
  /\ (forall n, n ∈ nodes p -> capability n ∈ provided c)
  /\ ((forall n, n ∈ nodes p -> args n ≠ ∅)
      /\ forall n k step f, n ∈ nodes p -> args n !! k = Some (Node step f) -> step ∈ depends_on n)
  /\ ((forall n, n ∈ nodes p -> verifies n = true -> depends_on n ≠ [])
      /\ (require_verifier c = true -> exists n, n ∈ nodes p /\ verifies n = true))
  /\ topology_ok p.
Proof.
  intros Hne. unfold validate_after.
  by rewrite !seq_ok, check_terminals_ok, check_capabilities_ok, check_arguments_ok,
    check_verifiers_ok, check_topology_ok.
Qed.

Lemma validate_ok_aux p c : validate p c = Some (Ok tt) <-> plan_ok p c.
Proof.
  unfold validate. destruct (validate_before p c) as [[]|e] eqn:Hb.
  - apply validate_before_ok in Hb as (H1 & H2 & H3 & H4).
    assert (plan_ok p c <-> acyclic p /\ validate_after p c = Ok tt) as ->.
    { rewrite validate_after_ok by done. split; [intros []; tauto|].
      intros (? & (? & ?) & ? & (? & ?) & (? & ?) & ?). by constructor. }
    rewrite <- check_acyclic_ok. destruct (check_acyclic p) as [[[]|e]|].
    + split; [by intros [= ->]|by intros [_ ->]].
    + split; [intros [=]|intros [[=] _]].
    + split; [intros [=]|intros [[=] _]].
  - split; [done|]. intros Hok. assert (validate_before p c = Ok tt); [|congruence].
    apply validate_before_ok. by destruct Hok.
Qed.

(** *** What executing a valid plan does *)

Lemma deps_lookup (ns : list (PlanNode V)) : forall (m : gmap StepId (list StepId)) n,
  NoDup (node_id <$> ns) -> n ∈ ns ->
  foldl (fun m n => <[node_id n := depends_on n]> m) m ns !! node_id n = Some (depends_on n).
Proof.
  induction ns as [|a ns IH]; intros m n Hnd Hn; [by apply elem_of_nil in Hn|].
  rewrite fmap_cons, NoDup_cons in Hnd. destruct Hnd as [Ha Hnd]. simpl.
  apply elem_of_cons in Hn as [->|Hn]; [|by apply IH].
  assert (forall m' : gmap StepId (list StepId), m' !! node_id a = Some (depends_on a) ->
    foldl (fun m (n : PlanNode V) => <[node_id n := depends_on n]> m) m' ns !! node_id a = Some (depends_on a)) as Hk.
  { clear IH Hnd. induction ns as [|b ns IH]; intros m' Hm'; [done|]. simpl. apply IH.
    - intros Hin. apply Ha. by right.
    - rewrite lookup_insert_ne; [done|]. intros He. apply Ha. rewrite <- He. by left. }
  apply Hk. by rewrite lookup_insert_eq.
Qed.

Lemma children_node p n : NoDup (node_id <$> nodes p) -> n ∈ nodes p ->
  children p (node_id n) = depends_on n.
Proof. intros Hnd Hn. unfold children, deps. by rewrite deps_lookup. Qed.

Lemma is_ready_spec (don : gset StepId) n : is_ready don n = true <->
  node_id n ∉ don /\ forall d, d ∈ depends_on n -> d ∈ don.
Proof.
  unfold is_ready. rewrite andb_true_iff, negb_true_iff, bool_decide_eq_false, forallb_forall.
  setoid_rewrite bool_decide_eq_true. setoid_rewrite list_elem_of_In. done.
Qed.

Lemma elem_of_ready p (don : gset StepId) s : s ∈ ready p don <->
  exists n, n ∈ nodes p /\ node_id n = s /\ s ∉ don /\ forall d, d ∈ depends_on n -> d ∈ don.
Proof.
  unfold ready. rewrite (merge_sort_Permutation N.le), list_elem_of_fmap.
  setoid_rewrite list_elem_of_filter. setoid_rewrite is_ready_spec.
  split; [intros (n & -> & [? ?] & ?)|intros (n & ? & <- & ? & ?)]; by exists n.
Qed.

(** Dispatching one ready step at a time, in any order: the sets of finished
    steps a run of the plan goes through. *)
Inductive executes p : list StepId -> gset StepId -> Prop :=
| executes_nil : executes p [] ∅
| executes_step tr don s : executes p tr don -> s ∈ ready p don -> executes p (s :: tr) ({[s]} ∪ don).

Lemma executes_invariant p tr don : NoDup (node_id <$> nodes p) -> executes p tr don ->
  NoDup tr /\ (forall s, s ∈ tr <-> s ∈ don) /\ don ⊆ ids p
  /\ forall n d, n ∈ nodes p -> node_id n ∈ don -> d ∈ depends_on n -> d ∈ don.
Proof.
  intros Hnd. induction 1 as [|tr don s _ (IH1 & IH2 & IH3 & IH4) Hs].
  { split_and!; [constructor|set_solver..]. }
  apply elem_of_ready in Hs as (n & Hn & <- & Hnot & Hd). split_and!.
  - apply NoDup_cons. split; [by rewrite IH2|done].
  - set_solver.
  - assert (node_id n ∈ ids p) by (apply elem_of_ids; by exists n). set_solver.
  - intros m d Hm [He%elem_of_singleton|Hin]%elem_of_union Hmd; apply elem_of_union; right.
    + apply Hd. rewrite <- (children_node p n), <- He, children_node by done. done.
    + by apply (IH4 m).
Qed.

Lemma ready_progress p (don : gset StepId) x : NoDup (node_id <$> nodes p) ->
  (forall n d, n ∈ nodes p -> d ∈ depends_on n -> exists m, m ∈ nodes p /\ node_id m = d) ->
  Acc (fun b a => waits p a b) x -> x ∈ ids p -> x ∉ don -> exists s, s ∈ ready p don.
Proof.
  intros Hnd Hdeps. induction 1 as [x _ IH]. intros Hx Hnot.
  apply elem_of_ids in Hx as (n & Hn & <-).
  destruct (decide (Forall (fun d => d ∈ don) (depends_on n))) as [Hall|Hall].
  - rewrite Forall_forall in Hall. exists (node_id n). apply elem_of_ready. by exists n.
  - apply not_Forall_Exists in Hall; [|apply _]. apply Exists_exists in Hall as (d & Hd & Hdn).
    apply (IH d); [|by apply elem_of_ids, (Hdeps n)|done].
    unfold waits. by rewrite children_node.
Qed.

Lemma is_complete_spec p (don : gset StepId) : is_complete p don = true <->
  forall n, n ∈ nodes p -> terminal n = true -> node_id n ∈ don.
Proof.
  unfold is_complete. rewrite forallb_forall. setoid_rewrite <- list_elem_of_In.
  setoid_rewrite orb_true_iff. setoid_rewrite negb_true_iff. setoid_rewrite bool_decide_eq_true.
  split; intros Ha n Hn; specialize (Ha n Hn); destruct (terminal n); naive_solver.
Qed.

(** Finished steps in a run that is stuck are all the steps. *)
Lemma executes_all p tr don c : plan_ok p c -> executes p tr don -> ready p don = [] -> don = ids p.
Proof.
  intros Hok Hex Hr. destruct Hok as [H1 H2 H3 H4 H5 _ _ _ _ _ _ _ _].
  destruct (executes_invariant _ _ _ H3 Hex) as (_ & _ & Hsub & _).
  apply set_eq. intros x. split; [by apply Hsub|]. intros Hx.
  destruct (decide (x ∈ don)) as [|Hnot]; [done|]. exfalso.
  destruct (acyclic_result p) as (r & Hca & Hacc). rewrite (proj2 (check_acyclic_ok p) H5) in Hca.
  injection Hca as <-. pose proof Hx as Hx'. apply elem_of_ids in Hx' as (n & Hn & Hid).
  destruct (ready_progress p don x H3 H4) as [s Hs]; [|done..|by rewrite Hr in Hs; apply elem_of_nil in Hs].
  apply Hacc. rewrite list_elem_of_fmap. by exists n.
Qed.
End contract.

(** *** Which checks can report which errors *)

Definition fails_only {E T} (P : E -> Prop) (m : result E T) : Prop := forall e, m = Err e -> P e.

Lemma fails_ensure {E} (P : E -> Prop) b e : P e -> fails_only P (ensure b e).
Proof. intros He e'. destruct b; [done|]. by intros [= <-]. Qed.
Lemma fails_seq {E T} (P : E -> Prop) (m : result E unit) (k : result E T) :
  fails_only P m -> fails_only P k -> fails_only P (_ ← m; k).
Proof. intros Hm Hk e. destruct m as [[]|e']; [apply Hk|]. intros [= <-]. by apply Hm. Qed.
Lemma fails_each {A E} (P : E -> Prop) (f : A -> result E unit) xs :
  (forall x, fails_only P (f x)) -> fails_only P (check_each f xs).
Proof. intros Hf. induction xs as [|x xs IH]; [done|]. simpl. by apply fails_seq. Qed.

Definition not_cycle (e : PlanError) : Prop := forall s, e ≠ Cycle s.
Ltac no_cycle := repeat first
  [ apply fails_seq | apply fails_ensure | apply fails_each; intros ? | case_match; subst
  | progress (intros ? [= <-]) | done ].

Lemma validate_before_errors {V} (p : PlanIR V) c : fails_only not_cycle (validate_before p c).
Proof.
  unfold validate_before, check_dependencies. no_cycle.
  generalize (∅ : gset StepId). induction (nodes p) as [|n ns IH]; intros seen; [done|].
  simpl. case_decide; [|apply IH]. by intros e [= <-].
Qed.

Lemma check_disjoint_errors rs : forall m : gmap str StepId, fails_only not_cycle (check_disjoint m rs).
Proof.
  induction rs as [|[f id] rs IH]; intros m; [done|]. simpl.
  case_match; [case_decide|]; try apply IH. by intros e [= <-].
Qed.

Lemma validate_after_errors {V} (p : PlanIR V) c : fails_only not_cycle (validate_after p c).
Proof.
  unfold validate_after, check_terminals, check_capabilities, check_arguments, check_verifiers,
    check_topology. no_cycle; apply check_disjoint_errors.
Qed.

(** ** Properties *)

Section properties.
Context {V : Type}.
Implicit Types p : PlanIR V.

(** [validate] accepts a plan if and only if it meets the whole contract:
    nonempty, within the size bound, distinct ids, dependencies that exist, no
    dependency cycle, a terminal node and no discarded work, capabilities the
    runtime provides, arguments bound and bound upstream, verifiers with a
    subject, and a topology worth its cost. *)
Theorem validate_spec p c : validate p c = Some (Ok tt) <-> plan_ok p c.
Proof. apply validate_ok_aux. Qed.

(** Validation is total, on malformed input too: the explicit-stack walk of
    [check_acyclic] always finishes within its fuel (each step entered and left
    once, each dependency looked at once), whatever the plan's shape; and a
    plan refused for a cycle has one, through the step the refusal names. *)
Theorem validate_total p c :
  exists r, validate p c = Some r /\ forall s, r = Err (Cycle s) -> tc (waits p) s s.
Proof.
  unfold validate. destruct (validate_before p c) as [[]|e] eqn:Hb.
  - destruct (acyclic_result p) as (r & -> & Hr). destruct r as [u|e].
    + eexists. split; [reflexivity|]. intros s Hs. by destruct (validate_after_errors p c _ Hs s).
    + eexists. split; [reflexivity|]. destruct Hr as (s & -> & Hs). by intros ? [= <-].
  - eexists. split; [reflexivity|]. intros s [= ->]. by destruct (validate_before_errors p c _ Hb s).
Qed.

(** C38. A validated plan executes to completion, whatever order its ready steps
    finish in: no step is dispatched twice or before a step it depends on, and
    when nothing is ready any more every step has run, so every terminal one
    has and the plan is complete. *)
Theorem valid_plan_completes p c tr don :
  validate p c = Some (Ok tt) -> executes p tr don ->
  NoDup tr /\ length tr <= length (nodes p)
  /\ (forall n d, n ∈ nodes p -> node_id n ∈ don -> d ∈ depends_on n -> d ∈ don)
  /\ (ready p don = [] -> is_complete p don = true /\ length tr = length (nodes p)).
Proof.
  rewrite validate_ok_aux. intros Hok Hex.
  destruct (executes_invariant _ _ _ (po_distinct _ _ Hok) Hex) as (H1 & H2 & H3 & H4).
  assert (forall n, n ∈ nodes p -> node_id n ∈ ids p) as Hids by (intros n Hn; apply elem_of_ids; by exists n).
  split; [done|]. split; [|split; [done|]].
  - rewrite <- (length_fmap node_id (nodes p)). apply submseteq_length, NoDup_submseteq; [done|].
    intros s Hs. apply H2, H3, elem_of_ids in Hs as (n & Hn & <-). apply list_elem_of_fmap. by exists n.
  - intros Hr. pose proof (executes_all _ _ _ _ Hok Hex Hr) as ->. split.
    + apply is_complete_spec. auto.
    + rewrite <- (length_fmap node_id (nodes p)). apply Permutation_length, NoDup_Permutation.
      * done.
      * apply (po_distinct _ _ Hok).
      * intros s. rewrite H2, elem_of_ids, list_elem_of_fmap. naive_solver.
Qed.

(** [ready] is deterministic: ascending, exactly the steps not yet done
    whose dependencies all are, and the same list however the plan's nodes are
    listed. *)
Theorem ready_deterministic p p' (don : gset StepId) : nodes p ≡ₚ nodes p' ->
  ready p don = ready p' don /\ Sorted N.le (ready p don)
  /\ forall s, s ∈ ready p don <->
       exists n, n ∈ nodes p /\ node_id n = s /\ s ∉ don /\ forall d, d ∈ depends_on n -> d ∈ don.
Proof.
  intros Hp. split; [|split; [apply (Sorted_merge_sort N.le)|intros s; apply elem_of_ready]].
  unfold ready. apply (Sorted_unique N.le); try apply (Sorted_merge_sort N.le).
  rewrite !(merge_sort_Permutation N.le). by rewrite Hp.
Qed.

(** *** The fan-out builder *)

Lemma elem_of_push_dep ds d x : x ∈ push_dep ds d <-> x ∈ ds \/ x = d.
Proof.
  unfold push_dep. case_decide; [naive_solver|]. rewrite elem_of_app, list_elem_of_singleton. done.
Qed.

Definition join_arg (j : PlanNode V) (ic : nat * Capability) : PlanNode V :=
  arg j ic.2 (Node (step_of ic.1) None).

Lemma join_fold ics : forall j : PlanNode V,
  let r := foldl join_arg j ics in
  node_id r = node_id j /\ capability r = capability j /\ terminal r = terminal j
  /\ verifies r = verifies j
  /\ (forall d, d ∈ depends_on r <-> d ∈ depends_on j \/ exists ic, ic ∈ ics /\ d = step_of ic.1)
  /\ (forall k s, args r !! k = Some s -> args j !! k = Some s
        \/ exists ic, ic ∈ ics /\ s = Node (step_of ic.1) None)
  /\ (ics ≠ [] \/ args j ≠ ∅ -> args r ≠ ∅).
Proof.
  induction ics as [|ic ics IH]; intros j; simpl.
  { split_and!; try done; [intros d; split; [by left|]|by left|naive_solver].
    by intros [|(ic & Hic%elem_of_nil & _)]. }
  destruct (IH (join_arg j ic)) as (-> & -> & -> & -> & Hd & Ha & Hne). cbn.
  setoid_rewrite elem_of_cons. split_and!; try done.
  - intros d. rewrite Hd. cbn. rewrite elem_of_push_dep. split.
    + intros [[| ->]|(ic' & ? & ->)]; [by left|right; exists ic; auto|right; exists ic'; auto].
    + intros [|(ic' & [->|?] & ->)]; [auto|left; by right|right; by exists ic'].
  - intros k s Hs. apply Ha in Hs as [Hs|(ic' & ? & ->)]; [|right; exists ic'; auto].
    cbn in Hs. apply lookup_insert_Some in Hs as [[_ <-]|[_ Hs]]; [|by left].
    right. exists ic. auto.
  - intros _. apply Hne. right. cbn. apply insert_non_empty.
Qed.

Definition fits (branches : list Capability) : Prop := (Z.of_nat (length branches) <= u32_max)%Z.

Lemma step_of_fits (branches : list Capability) i : fits branches -> i <= length branches ->
  step_of i = N.of_nat i.
Proof. unfold fits, step_of. intros. by rewrite decide_True by lia. Qed.

Lemma elem_of_branch (branches : list Capability) (n : PlanNode V) : fits branches ->
  n ∈ zip_with fan_out_node (seq 0 (length branches)) branches <->
  exists i cap, branches !! i = Some cap /\ i < length branches
    /\ n = arg (node_new (N.of_nat i) cap) (lit "input") (RunInput None).
Proof.
  intros Hf. rewrite elem_of_lookup_zip_with. split.
  - intros (i & x & cap & -> & Hx & Hc). apply lookup_seq in Hx as [-> Hi].
    exists i, cap. split_and!; [done..|]. unfold fan_out_node. cbn. by rewrite (step_of_fits branches) by (done || lia).
  - intros (i & cap & Hc & Hi & ->). exists i, i, cap. split_and!; [|apply lookup_seq; split; lia|done].
    unfold fan_out_node. by rewrite (step_of_fits branches) by (done || lia).
Qed.

Lemma elem_of_zip_seq (branches : list Capability) ic :
  ic ∈ zip (seq 0 (length branches)) branches <-> branches !! ic.1 = Some ic.2.
Proof.
  rewrite elem_of_lookup_zip_with. destruct ic as [i cap]. cbn. split.
  - intros (k & x & y & [= -> ->] & Hx & Hy). apply lookup_seq in Hx as [-> _]. done.
  - intros Hc. exists i, i, cap. split_and!; [done| |done]. apply lookup_seq.
    apply lookup_lt_Some in Hc. lia.
Qed.

(** The aggregator of a fan-out: last, terminal, after every branch. *)
Record join_shape (branches : list Capability) aggregate (j : PlanNode V) : Prop := {
  js_id : node_id j = N.of_nat (length branches);
  js_cap : capability j = aggregate;
  js_terminal : terminal j = true;
  js_verifies : verifies j = false;
  js_deps : forall d, d ∈ depends_on j <-> exists i, i < length branches /\ d = N.of_nat i;
  js_args : forall k s, args j !! k = Some s -> exists d, s = Node d None /\ d ∈ depends_on j;
  js_bound : branches ≠ [] -> args j ≠ ∅;
}.

Lemma fan_out_join_shape branches aggregate : fits branches ->
  join_shape branches aggregate (fan_out_join branches aggregate).
Proof.
  intros Hf.
  pose proof (join_fold (zip (seq 0 (length branches)) branches)
    (set_terminal (node_new (step_of (length branches)) aggregate))) as H.
  change (foldl join_arg _ _) with (fan_out_join (V:=V) branches aggregate) in H.
  destruct H as (Jid & Jcap & Jterm & Jver & Jd & Ja & Jne).
  cbn in Jid, Jcap, Jterm, Jver. split; try done.
  - by rewrite Jid, (step_of_fits branches) by done.
  - intros d. rewrite Jd. cbn. setoid_rewrite elem_of_zip_seq. split.
    + intros [Hd%elem_of_nil|(ic & Hic & ->)]; [done|]. apply lookup_lt_Some in Hic.
      exists ic.1. split; [done|]. apply (step_of_fits branches); [done|lia].
    + intros (i & Hi & ->). right. destruct (lookup_lt_is_Some_2 _ _ Hi) as [cap Hc].
      exists (i, cap). split; [done|]. symmetry. apply (step_of_fits branches); [done|]. cbn. lia.
  - intros k s Hk. apply Ja in Hk as [Hk|(ic & Hic & ->)]; [by cbn in Hk; rewrite lookup_empty in Hk|].
    eexists. split; [done|]. apply Jd. right. by exists ic.
  - intros Hne. apply Jne. left. intros He. apply (f_equal length) in He.
    rewrite length_zip_with, length_seq in He. cbn in He. by destruct branches.
Qed.

Lemma branch_ids (branches : list Capability) : fits branches ->
  node_id <$> (zip_with fan_out_node (seq 0 (length branches)) branches : list (PlanNode V))
    = N.of_nat <$> seq 0 (length branches).
Proof.
  intros Hf. apply list_eq. intros i. rewrite !list_lookup_fmap, lookup_zip_with.
  destruct (decide (i < length branches)) as [Hi|Hi].
  - destruct (lookup_lt_is_Some_2 _ _ Hi) as [cap Hc].
    rewrite Hc, (proj2 (lookup_seq _ _ _ _) (conj eq_refl Hi)). cbn.
    by rewrite (step_of_fits branches) by (done || lia).
  - by rewrite (lookup_ge_None_2 branches), (lookup_ge_None_2 (seq _ _)) by (rewrite ?length_seq; lia).
Qed.

(** Waiting always points at a smaller id. *)
Lemma descending_acyclic p : (forall n d, n ∈ nodes p -> d ∈ depends_on n -> (d < node_id n)%N) -> acyclic p.
Proof.
  intros Hd a Hc. assert (forall a b, tc (waits p) a b -> (b < a)%N) as Ht.
  { induction 1 as [x y (n & Hn & <- & Hy)%waits_in|x y z (n & Hn & <- & Hy)%waits_in _ IH];
      specialize (Hd n _ Hn Hy); lia. }
  apply Ht in Hc. lia.
Qed.

Lemma fan_out_plan_ok branches aggregate c (j : PlanNode V) bs :
  fits branches -> branches ≠ [] -> join_shape branches aggregate j ->
  bs = zip_with fan_out_node (seq 0 (length branches)) branches ->
  (forall cap, cap ∈ aggregate :: branches -> cap ∈ provided c) -> require_verifier c = false ->
  (forall max, contract_max_steps c = Some max -> (Z.of_nat (S (length branches)) <= max)%Z) ->
  plan_ok (plan_new (bs ++ [j])) c.
Proof.
  intros Hf Hne [Jid Jcap Jterm Jver Jdeps Jargs Jbound] Hbs Hprov Hver Hmax.
  pose proof (fun n => elem_of_branch branches n Hf) as Hbr. rewrite <- Hbs in Hbr.
  pose proof (branch_ids branches Hf) as Hids. rewrite <- Hbs in Hids.
  assert (length bs = length branches) as Hlen by (subst bs; rewrite length_zip_with, length_seq; lia).
  assert (forall n, n ∈ bs ++ [j] <-> n ∈ bs \/ n = j) as Hin
    by (intros n; by rewrite elem_of_app, list_elem_of_singleton).
  constructor; cbn [nodes plan_new topology]; try (setoid_rewrite Hin).
  - by destruct bs.
  - intros max Hm. rewrite length_app, Hlen. cbn. specialize (Hmax max Hm). lia.
  - rewrite fmap_app, Hids. apply NoDup_app. split_and!.
    + apply NoDup_fmap; [intros x y; lia|apply NoDup_seq].
    + intros x (i & -> & Hi%elem_of_seq)%list_elem_of_fmap. cbn. rewrite list_elem_of_singleton, Jid. lia.
    + apply NoDup_singleton.
  - intros n d [(i & cap & _ & _ & ->)%Hbr| ->] Hd; [by apply elem_of_nil in Hd|].
    apply Jdeps in Hd as (i & Hi & ->). destruct (lookup_lt_is_Some_2 _ _ Hi) as [cap Hc].
    eexists. split; [left; apply Hbr; by exists i, cap|done].
  - apply descending_acyclic. intros n d [(i & cap & _ & _ & ->)%Hbr| ->]%Hin Hd; [by apply elem_of_nil in Hd|].
    apply Jdeps in Hd as (i & Hi & ->). rewrite Jid. lia.
  - exists j. by split; [right|].
  - intros n [(i & cap & _ & Hi & ->)%Hbr| ->]; [right|by left]. exists j. split; [by right|].
    apply Jdeps. by exists i.
  - intros n [(i & cap & Hc & _ & ->)%Hbr| ->]; [|rewrite Jcap; apply Hprov; by left].
    apply Hprov. right. by apply list_elem_of_lookup_2 in Hc.
  - intros n [(i & cap & _ & _ & ->)%Hbr| ->]; [apply insert_non_empty|by apply Jbound].
  - intros n k step f [(i & cap & _ & _ & ->)%Hbr| ->] Hk.
    + cbn in Hk. apply lookup_insert_Some in Hk as [[_ ?]|[_ Hk]]; [done|by rewrite lookup_empty in Hk].
    + apply Jargs in Hk as (d & [= -> ->] & Hd). done.
  - intros n [(i & cap & _ & _ & ->)%Hbr| ->] Hv; [done|congruence].
  - congruence.
  - done.
Qed.

(** [fan_out] builds a plan the contract accepts: for any nonempty list of
    branches that fits a [u32], under a contract that provides every capability
    it names, demands no verifier and allows its size, the fan-out validates,
    duplicate branches included. *)
Theorem fan_out_valid branches aggregate p c :
  fan_out branches aggregate = Some p -> fits branches ->
  (forall cap, cap ∈ aggregate :: branches -> cap ∈ provided c) -> require_verifier c = false ->
  (forall max, contract_max_steps c = Some max -> (Z.of_nat (S (length branches)) <= max)%Z) ->
  validate p c = Some (Ok tt).
Proof.
  unfold fan_out. case_decide as Hne; [done|]. intros [= <-] Hf Hprov Hver Hmax.
  apply validate_ok_aux. by apply (fan_out_plan_ok branches aggregate); auto using fan_out_join_shape.
Qed.
End properties.

(** ** A concrete plan *)

Module PlanWitness.
Definition draft : PlanNode nat := arg (node_new 0%N (lit "draft")) (lit "input") (RunInput None).
Definition review : PlanNode nat :=
  set_verifies (arg (node_new 1%N (lit "review")) (lit "text") (Node 0%N None)).
Definition send : PlanNode nat :=
  set_terminal (after (arg (node_new 2%N (lit "send")) (lit "text") (Node 0%N None)) 1%N).
Definition letter : PlanIR nat := plan_new [send; draft; review].
Definition office : Contract :=
  mk_contract {[lit "draft"; lit "review"; lit "send"]} true (Some 5%Z).

Example letter_valid : validate letter office = Some (Ok tt).
Proof. evaluate. Qed.
Example loop_refused :
  validate (plan_new [after draft 2%N; review; send]) office = Some (Err (Cycle 0%N)).
Proof. evaluate. Qed.

Lemma valid_plan_completes_witness :
  is_complete letter ({[2%N]} ∪ ({[1%N]} ∪ ({[0%N]} ∪ ∅))) = true.
Proof.
  apply (valid_plan_completes letter office [2%N; 1%N; 0%N] ({[2%N]} ∪ ({[1%N]} ∪ ({[0%N]} ∪ ∅)))).
  - evaluate.
  - repeat (apply executes_step; [|evaluate]). constructor.
  - evaluate.
Defined.

Lemma ready_deterministic_witness : ready letter {[0%N]} = ready (plan_new [draft; review; send]) {[0%N]}.
Proof.
  apply (ready_deterministic letter (plan_new [draft; review; send]) {[0%N]}).
  cbn. etrans; [apply Permutation_swap|]. constructor. apply Permutation_swap.
Defined.

Definition panel : list Capability := [lit "billing.anomaly"; lit "billing.regulatory"].
Definition panel_contract : Contract :=
  mk_contract {[lit "billing.anomaly"; lit "billing.regulatory"; lit "billing.decide"]} false None.
Lemma fan_out_valid_witness :
  exists p, fan_out panel (lit "billing.decide") = Some p
    /\ validate (V:=nat) p panel_contract = Some (Ok tt).
Proof.
  eexists. split; [reflexivity|].
  apply (fan_out_valid panel (lit "billing.decide")).
  - reflexivity.
  - by unfold fits.
  - cbn. set_solver.
  - reflexivity.
  - done.
Defined.

(** Two branches of one capability share one argument name: the aggregator
    waits for both and reads only the second. *)
Lemma fan_out_drops_duplicate :
  let j := fan_out_join (V:=nat) [lit "score"; lit "score"] (lit "decide") in
  depends_on j = [0%N; 1%N] /\ args j = {[lit "score" := Node 1%N None]}.
Proof. split; reflexivity. Qed.
End PlanWitness.
