(* ===== verification/Replay.v ===== *)
(** * Replay ([src/src/journal/replay.rs])

    A run's records folded into one cursor per step and phase, the ordered read
    that satisfies a step's effects from that cursor, and the fold that says
    which mutating effects a history cannot decide.  A record keeps the fields
    these folds read; the payloads they only carry (JSON values, operators,
    content verdicts) are abstract types.  A [Vec] is a list, a [BTreeMap] a
    [gmap] with its iteration in key order where the order shows. *)

From S2P Require Import Prelude Digest EffectKey Label Budget.

(** ** Records *)

Definition Seq := Z.

Inductive Disposition := DidNotHappen | InDoubt | Landed.
#[export] Instance disposition_eq_dec : EqDecision Disposition.
Proof. solve_decision. Defined.

Inductive Recovery := Retry | Idempotent (key : str) | Reconcile | RequiresOperator.
#[export] Instance recovery_eq_dec : EqDecision Recovery.
Proof. solve_decision. Defined.

Record DeclaredOutput := mk_declared { declared_trust : Trust; declared_sensitivity : Sensitivity }.
#[export] Instance declared_eq_dec : EqDecision DeclaredOutput.
Proof. solve_decision. Defined.
Definition declared_untrusted : DeclaredOutput := mk_declared Untrusted Internal.

Section replay.
(** JSON values, operators and content verdicts. *)
Context {V O C : Type} `{EqDecision V, EqDecision O, EqDecision C}.
Context (json_null : V).

Record EffectDescriptor := mk_descriptor { desc_kind : str; desc_args : V }.
#[export] Instance descriptor_eq_dec : EqDecision EffectDescriptor.
Proof. solve_decision. Defined.

(** The record kinds the replay folds look at; every other one is [Other]. *)
Inductive RecordKind :=
| EffectStarted (descriptor : EffectDescriptor) (recovery : Recovery) (mutates : bool) (attempt : N)
| EffectDone (output : V) (source : option str) (by_ : option O) (spend : Spend)
    (declared : DeclaredOutput) (content : option C)
| EffectFailed (error : str) (spend : Spend) (disposition : Disposition) (permanent : bool)
    (unreproducible : option str) (code : option str) (account : bool)
| EffectReconciled (disposition : Disposition) (output : option V) (spend : Spend)
    (declared : option DeclaredOutput)
| BudgetRefused (limit used : str) (ceiling : option str)
| BudgetReadmitted
| AuthorityWithheld (subject reason : str)
| PolicyDenied (reason action resource : str)
| Released
| Other.

Record JRecord := mk_record {
  rec_step : option StepId;
  rec_phase : Phase;
  rec_key : option EffectKey;
  rec_seq : Seq;
  rec_kind : RecordKind;
}.

(** ** What the journal says about one effect *)

Inductive EffectReplay :=
| Done (output : V) (source : option str) (by_ : option O) (spend : Spend)
    (declared : DeclaredOutput) (content : option C)
| Failed (error : str) (disposition : Disposition) (spend : Spend) (permanent : bool)
    (code : option str) (account : bool) (unreproducible : option str)
| Refused (limit used : str) (ceiling : option Ceiling)
| Denied (reason action resource : str)
| Withheld (subject reason : str)
| Orphan (recovery : Recovery).

#[export] Instance effect_replay_eq_dec : EqDecision EffectReplay.
Proof. solve_decision. Defined.

Definition refused (limit used : str) (ceiling : option str) : EffectReplay :=
  Refused limit used (ceiling ≫= ceiling_parse).

Definition replay_spend (r : EffectReplay) : Spend :=
  match r with
  | Done _ _ _ s _ _ | Failed _ _ s _ _ _ _ => s
  | _ => spend_zero
  end.

Definition add_spend (r : EffectReplay) (extra : Spend) : EffectReplay :=
  match r with
  | Done o s b sp d c => Done o s b (plus sp extra) d c
  | Failed e d sp p c a u => Failed e d (plus sp extra) p c a u
  | _ => r
  end.

Definition is_withheld (r : EffectReplay) : bool := match r with Withheld _ _ => true | _ => false end.
Definition is_refused (r : EffectReplay) : bool := match r with Refused _ _ _ => true | _ => false end.

Record Attempted := mk_attempted { att_kind : str; att_attempt : N }.
Record Journaled := mk_journaled {
  j_key : EffectKey;
  j_seq : Seq;
  j_what : option Attempted;
  j_replay : EffectReplay;
}.

Record Divergence := mk_divergence {
  dv_step : StepId;
  dv_phase : Phase;
  dv_recorded : option EffectKey;
  dv_recomputed : option EffectKey;
  dv_kind : option str;
}.

Record StepCursor := mk_cursor {
  effects : list Journaled;
  pos : nat;
  diverged : option Divergence;
}.
Definition cursor_empty : StepCursor := mk_cursor [] 0 None.

Definition with_entries (c : StepCursor) (es : list Journaled) : StepCursor :=
  mk_cursor es (pos c) (diverged c).
Definition with_replay (j : Journaled) (r : EffectReplay) : Journaled :=
  mk_journaled (j_key j) (j_seq j) (j_what j) r.

(** ** Folding records *)

(** [iter_mut().rev().find(p)]: change the last entry that satisfies [p]. *)
Fixpoint update_last (p : Journaled -> bool) (f : Journaled -> Journaled) (es : list Journaled) :
    list Journaled :=
  match es with
  | [] => []
  | e :: es => if existsb p es then e :: update_last p f es
               else if p e then f e :: es else e :: es
  end.

(** [rposition] and [remove]. *)
Fixpoint remove_last (p : Journaled -> bool) (es : list Journaled) : list Journaled :=
  match es with
  | [] => []
  | e :: es => if existsb p es then e :: remove_last p es else if p e then es else e :: es
  end.

Definition at_key (key : EffectKey) (e : Journaled) : bool := bool_decide (j_key e = key).

(** The later record's state, carrying what the state it supersedes cost. *)
Definition settled (state : EffectReplay) (slot : Journaled) : Journaled :=
  with_replay slot (add_spend state (replay_spend (j_replay slot))).
Definition settle (c : StepCursor) (key : EffectKey) (state : EffectReplay) : StepCursor :=
  with_entries c (update_last (at_key key) (settled state) (effects c)).

Definition supersede_withheld (c : StepCursor) (key : EffectKey) : StepCursor :=
  with_entries c (filter (fun e => at_key key e && is_withheld (j_replay e) = false) (effects c)).

Definition push (c : StepCursor) (j : Journaled) : StepCursor := with_entries c (effects c ++ [j]).

Definition announce (c : StepCursor) (key : EffectKey) (seq : Seq) (d : EffectDescriptor)
    (recovery : Recovery) (attempt : N) : StepCursor :=
  push (supersede_withheld c key)
    (mk_journaled key seq (Some (mk_attempted (desc_kind d) attempt)) (Orphan recovery)).

Definition unannounced (c : StepCursor) (key : EffectKey) (seq : Seq) (r : EffectReplay) : StepCursor :=
  push (supersede_withheld c key) (mk_journaled key seq None r).

Definition withheld (c : StepCursor) (key : EffectKey) (seq : Seq) (subject reason : str) : StepCursor :=
  unannounced c key seq (Withheld subject reason).

Definition reconciled (d : Disposition) (output : option V) (spend : Spend)
    (declared : option DeclaredOutput) : EffectReplay :=
  match d, output with
  | Landed, Some output => Done output None None spend (default declared_untrusted declared) None
  | d, _ => Failed (lit "resolved by reconciliation") d spend_zero false None false None
  end.

Definition record_release (c : StepCursor) (key : EffectKey) (seq : Seq) : StepCursor :=
  push c (mk_journaled key seq None (Done json_null None None spend_zero declared_untrusted None)).

Definition apply (c : StepCursor) (key : EffectKey) (seq : Seq) (kind : RecordKind) : StepCursor :=
  match kind with
  | EffectStarted d recovery _ attempt => announce c key seq d recovery attempt
  | EffectDone o s b sp d ct => settle c key (Done o s b sp d ct)
  | EffectReconciled d o sp dc => settle c key (reconciled d o sp dc)
  | BudgetRefused limit used ceiling => unannounced c key seq (refused limit used ceiling)
  | BudgetReadmitted =>
      let c := supersede_withheld c key in
      with_entries c (remove_last (fun e => at_key key e && is_refused (j_replay e)) (effects c))
  | AuthorityWithheld subject reason => withheld c key seq subject reason
  | PolicyDenied reason action resource => unannounced c key seq (Denied reason action resource)
  | Released => record_release c key seq
  | EffectFailed e sp d p u cd a => settle c key (Failed e d sp p cd a u)
  | Other => c
  end.

(** ** Reading a step's history *)

Definition exhausted (c : StepCursor) : bool := bool_decide (length (effects c) <= pos c).
Definition entry_kind (e : Journaled) : option str := att_kind <$> j_what e.
Definition first_unconsumed (c : StepCursor) : option (EffectKey * option str) :=
  (fun e => (j_key e, entry_kind e)) <$> effects c !! pos c.
Definition kind_at (c : StepCursor) (seq : Seq) : option str :=
  List.find (fun e => Z.eqb (j_seq e) seq) (effects c) ≫= entry_kind.
Definition note_divergence (c : StepCursor) (d : Divergence) : StepCursor :=
  mk_cursor (effects c) (pos c) (match diverged c with Some d0 => Some d0 | None => Some d end).
Definition peek_is (c : StepCursor) (key : EffectKey) : bool :=
  match effects c !! pos c with Some e => bool_decide (j_key e = key) | None => false end.

(** The ways the call being made can differ from the recorded one, which the
    message of [diverged_from] spells out. *)
Inductive Differs := NoCall | KindDiffers (recorded asked : str)
| AttemptDiffers (recorded asked : N) | ArgumentsDiffer.
Definition diverged_from (e : Journaled) (asked : EffectDescriptor) (attempt : N) : Differs :=
  match j_what e with
  | None => NoCall
  | Some w => if decide (att_kind w = desc_kind asked)
              then if decide (att_attempt w = attempt) then ArgumentsDiffer
                   else AttemptDiffers (att_attempt w) attempt
              else KindDiffers (att_kind w) (desc_kind asked)
  end.

Record NonDeterminism := mk_nondeterminism {
  nd_seq : Seq;
  nd_expected : EffectKey;
  nd_actual : EffectKey;
  nd_detail : Differs;
}.

(** [StepCursor::next]: the next journaled effect if it is the one asked for,
    [None] past the end of history; a mismatch consumes nothing. *)
Definition next (c : StepCursor) (recomputed : EffectKey) (asked : EffectDescriptor) (attempt : N) :
    StepCursor * result NonDeterminism (option EffectReplay) :=
  match effects c !! pos c with
  | None => (c, Ok None)
  | Some e =>
      if decide (j_key e = recomputed)
      then (mk_cursor (effects c) (S (pos c)) (diverged c), Ok (Some (j_replay e)))
      else (c, Err (mk_nondeterminism (j_seq e) (j_key e) recomputed (diverged_from e asked attempt)))
  end.

(** ** The run's cursor *)

Definition Slot : Type := StepId * Phase.
Definition slot_of (r : JRecord) : Slot := (default 0%N (rec_step r), rec_phase r).

Definition fold_record (m : gmap Slot StepCursor) (r : JRecord) : gmap Slot StepCursor :=
  match rec_key r with
  | None => m
  | Some key =>
      <[slot_of r := apply (default cursor_empty (m !! slot_of r)) key (rec_seq r) (rec_kind r)]> m
  end.

Record ReplayCursor := mk_replay { by_step : gmap Slot StepCursor; noted : option Divergence }.
Definition from_records (rs : list JRecord) : ReplayCursor := mk_replay (foldl fold_record ∅ rs) None.

Definition take_step (c : ReplayCursor) (step : StepId) (phase : Phase) : ReplayCursor * StepCursor :=
  (mk_replay (delete (step, phase) (by_step c)) (noted c),
   default cursor_empty (by_step c !! (step, phase))).
Definition restore (c : ReplayCursor) (step : StepId) (phase : Phase) (s : StepCursor) : ReplayCursor :=
  mk_replay (<[(step, phase) := s]> (by_step c)) (noted c).
Definition step_exhausted (c : ReplayCursor) (step : StepId) (phase : Phase) : bool :=
  match by_step c !! (step, phase) with Some s => exhausted s | None => true end.
Definition fully_exhausted (c : ReplayCursor) : bool :=
  bool_decide (map_Forall (fun _ s => exhausted s = true) (by_step c)).
(** [(StepId, Phase)] in the order its derived [Ord] gives. *)
Definition slot_cmp (a b : Slot) : comparison :=
  match N.compare a.1 b.1 with
  | Eq => match a.2, b.2 with Forward, Compensating => Lt | Compensating, Forward => Gt | _, _ => Eq end
  | c => c
  end.
Definition steps_in_order (c : ReplayCursor) : list (Slot * StepCursor) :=
  omap (fun s => (s,.) <$> by_step c !! s) (iter_by slot_cmp (dom (by_step c))).
(** [find_map]: the first [Some]. *)
Definition find_map {A B} (f : A -> option B) (l : list A) : option B := head (omap f l).
Definition run_first_unconsumed (c : ReplayCursor) : option (Slot * (EffectKey * option str)) :=
  find_map (fun sc => (sc.1,.) <$> first_unconsumed sc.2) (steps_in_order c).
Definition note_boundary (c : ReplayCursor) (d : Divergence) : ReplayCursor :=
  mk_replay (by_step c) (match noted c with Some d0 => Some d0 | None => Some d end).
(** A divergence noted at a boundary wins, then the lowest step's own. *)
Definition divergence (c : ReplayCursor) : option Divergence :=
  match noted c with
  | Some d => Some d
  | None => find_map (fun sc => diverged sc.2) (steps_in_order c)
  end.
Definition unconsumed_in (c : ReplayCursor) (step : StepId) (phase : Phase) :=
  by_step c !! (step, phase) ≫= first_unconsumed.

(** ** What is in doubt *)

Inductive Doubt := Announced | Inconclusive.
Record Pending := mk_pending {
  pd_step : StepId;
  pd_phase : Phase;
  pd_descriptor : EffectDescriptor;
  pd_seq : Seq;
}.
Record Undecided := mk_undecided {
  un_effect : EffectKey;
  un_step : StepId;
  un_phase : Phase;
  un_kind : str;
  un_doubt : Doubt;
}.

(** [open]: announced and not terminated; [doubts]: terminated without an
    answer. *)
Definition Doubts : Type := gmap EffectKey Pending * gmap EffectKey Pending.

Definition same_dispatch (a b : Pending) : bool :=
  bool_decide (pd_step a = pd_step b) && bool_decide (pd_descriptor a = pd_descriptor b).

Definition fold_doubt (st : Doubts) (r : JRecord) : Doubts :=
  let '(open, doubts) := st in
  match rec_key r with
  | None => st
  | Some key =>
      match rec_kind r with
      | EffectStarted d _ true _ =>
          match rec_step r with
          | Some step => (<[key := mk_pending step (rec_phase r) d (rec_seq r)]> open, doubts)
          | None => st
          end
      | EffectDone _ _ _ _ _ _ =>
          match open !! key with
          | Some s => (delete key open, filter (fun kp => same_dispatch kp.2 s = false) doubts)
          | None => st
          end
      | EffectFailed _ _ disposition _ _ _ _ =>
          match open !! key with
          | Some p => (delete key open,
                       if decide (disposition = InDoubt) then <[key := p]> doubts else doubts)
          | None => st
          end
      | EffectReconciled disposition _ _ _ =>
          (delete key open,
           match disposition with
           | Landed | DidNotHappen => delete key doubts
           | InDoubt => match open !! key with Some p => <[key := p]> doubts | None => doubts end
           end)
      | _ => st
      end
  end.

Definition into_undecided (d : Doubt) (kp : EffectKey * Pending) : StepId * Seq * Undecided :=
  (pd_step kp.2, pd_seq kp.2,
   mk_undecided kp.1 (pd_step kp.2) (pd_phase kp.2) (desc_kind (pd_descriptor kp.2)) d).

(** A map's entries in key order. *)
Definition key_order {A} (m : gmap EffectKey A) : list (EffectKey * A) :=
  omap (fun k => (k,.) <$> m !! k) (iter_by digest_cmp (dom m)).

(** [sort_by_key(|(step, seq, _)| ..)], which is stable. *)
Definition doubt_le (a b : StepId * Seq * Undecided) : Prop :=
  (a.1.1 < b.1.1)%N \/ (a.1.1 = b.1.1 /\ (a.1.2 <= b.1.2)%Z).
#[export] Instance doubt_le_dec a b : Decision (doubt_le a b).
Proof. unfold doubt_le. apply _. Defined.

Definition undecided_effects (rs : list JRecord) : list Undecided :=
  let '(open, doubts) := foldl fold_doubt (∅, ∅) rs in
  snd <$> merge_sort doubt_le
    ((into_undecided Announced <$> key_order open) ++ (into_undecided Inconclusive <$> key_order doubts)).

(** ** Grouping by step *)

Definition in_slot (s : Slot) (r : JRecord) : bool :=
  bool_decide (is_Some (rec_key r)) && bool_decide (slot_of r = s).

(** The records of one step and phase, as the cursor folds them. *)
Definition apply_record (c : StepCursor) (r : JRecord) : StepCursor :=
  match rec_key r with Some key => apply c key (rec_seq r) (rec_kind r) | None => c end.
Definition step_cursor (rs : list JRecord) : StepCursor := foldl apply_record cursor_empty rs.

Lemma fold_lookup rs : forall (m : gmap Slot StepCursor) s,
  foldl fold_record m rs !! s =
    match filter (fun r => in_slot s r = true) rs with
    | [] => m !! s
    | rs' => Some (foldl apply_record (default cursor_empty (m !! s)) rs')
    end.
Proof.
  induction rs as [|r rs IH]; intros m s; [done|]. simpl. rewrite IH.
  rewrite filter_cons. destruct (decide (in_slot s r = true)) as [Hs|Hs].
  - apply andb_true_iff in Hs as [[key Hk]%bool_decide_eq_true He%bool_decide_eq_true]. subst s.
    unfold fold_record. rewrite Hk, lookup_insert_eq. cbn [foldl]. cbn.
    assert (apply_record (default cursor_empty (m !! slot_of r)) r
      = apply (default cursor_empty (m !! slot_of r)) key (rec_seq r) (rec_kind r)) as ->
      by (unfold apply_record; by rewrite Hk).
    by destruct (filter _ rs).
  - assert (fold_record m r !! s = m !! s) as ->; [|done].
    unfold fold_record. destruct (rec_key r) as [key|] eqn:Hk; [|done].
    rewrite lookup_insert_ne; [done|]. intros He. apply Hs. unfold in_slot.
    by rewrite Hk, !bool_decide_true by (done || by eexists).
Qed.

(** ** What a step's history says, without the cursor

    A reference reading: each record that opens a position gives one entry, and
    its outcome is what the later records of its key say, in order. *)

Definition pushed (r : JRecord) : option Journaled :=
  match rec_key r with
  | None => None
  | Some key =>
      match rec_kind r with
      | EffectStarted d recovery _ attempt =>
          Some (mk_journaled key (rec_seq r) (Some (mk_attempted (desc_kind d) attempt)) (Orphan recovery))
      | BudgetRefused limit used ceiling =>
          Some (mk_journaled key (rec_seq r) None (refused limit used ceiling))
      | AuthorityWithheld subject reason => Some (mk_journaled key (rec_seq r) None (Withheld subject reason))
      | PolicyDenied reason action resource =>
          Some (mk_journaled key (rec_seq r) None (Denied reason action resource))
      | Released =>
          Some (mk_journaled key (rec_seq r) None
                  (Done json_null None None spend_zero declared_untrusted None))
      | _ => None
      end
  end.

(** The outcome a terminal record reports. *)
Definition outcome (r : JRecord) : option EffectReplay :=
  match rec_kind r with
  | EffectDone o s b sp d ct => Some (Done o s b sp d ct)
  | EffectFailed e sp d p u cd a => Some (Failed e d sp p cd a u)
  | EffectReconciled d o sp dc => Some (reconciled d o sp dc)
  | _ => None
  end.

Definition verdict_step (key : EffectKey) (st : EffectReplay) (r : JRecord) : EffectReplay :=
  if decide (rec_key r = Some key)
  then match outcome r with Some s => add_spend s (replay_spend st) | None => st end
  else st.
Definition verdict (key : EffectKey) (rs : list JRecord) (st : EffectReplay) : EffectReplay :=
  foldl (verdict_step key) st rs.

Fixpoint entries (rs : list JRecord) : list Journaled :=
  match rs with
  | [] => []
  | r :: rs => match pushed r with
               | Some j => with_replay j (verdict (j_key j) rs (j_replay j)) :: entries rs
               | None => entries rs
               end
  end.

(** Each position opened once and no refusal re-admitted: a history no pass
    had to go back on. *)
Definition keys_of (rs : list JRecord) : list EffectKey := j_key <$> omap pushed rs.
Record straight (rs : list JRecord) : Prop := {
  st_once : NoDup (keys_of rs);
  st_readmit : forall r, r ∈ rs -> rec_kind r ≠ BudgetReadmitted;
}.

Lemma existsb_key es key : existsb (at_key key) es = true <-> key ∈ j_key <$> es.
Proof.
  rewrite existsb_exists, list_elem_of_fmap. unfold at_key. setoid_rewrite bool_decide_eq_true.
  setoid_rewrite <- list_elem_of_In. naive_solver.
Qed.

Lemma update_last_map key f es : NoDup (j_key <$> es) ->
  update_last (at_key key) f es = (fun e => if at_key key e then f e else e) <$> es.
Proof.
  induction es as [|e es IH]; [done|]. rewrite !fmap_cons, NoDup_cons. intros [He Hnd]. cbn [update_last].
  destruct (existsb (at_key key) es) eqn:Hex.
  - rewrite IH by done. apply existsb_key in Hex. unfold at_key at 2. case_bool_decide as Hk; [|done].
    by rewrite <- Hk in Hex.
  - assert (((fun e => if at_key key e then f e else e) <$> es) = es) as ->.
    { rewrite <- (list_fmap_id es) at 2. apply list_fmap_ext. intros i x Hx. simpl.
      unfold at_key. case_bool_decide as Hk; [|done]. exfalso.
      assert (existsb (at_key key) es = true); [|congruence]. apply existsb_key.
      apply list_elem_of_fmap. exists x. split; [done|]. by apply list_elem_of_lookup_2 in Hx. }
    by destruct (at_key key e).
Qed.

Lemma supersede_fresh c key : key ∉ j_key <$> effects c -> supersede_withheld c key = c.
Proof.
  intros Hk. unfold supersede_withheld, with_entries. destruct c as [es p d]. simpl in *. f_equal.
  induction es as [|e es IH]; [done|]. rewrite fmap_cons, not_elem_of_cons in Hk. destruct Hk as [He Hes].
  rewrite filter_cons, decide_True, IH by (done || by unfold at_key; rewrite bool_decide_false).
  done.
Qed.

Lemma apply_pushed c r j : pushed r = Some j -> j_key j ∉ j_key <$> effects c ->
  apply_record c r = with_entries c (effects c ++ [j]) /\ outcome r = None /\ rec_key r = Some (j_key j).
Proof.
  unfold pushed, apply_record, outcome. destruct (rec_key r) as [key|]; [|done].
  destruct (rec_kind r); intros [= <-] Hfresh; simpl in *; split_and!; try done;
    unfold announce, withheld, unannounced, record_release, push; by rewrite ?supersede_fresh.
Qed.

Lemma apply_outcome c r key s : rec_key r = Some key -> outcome r = Some s ->
  apply_record c r = settle c key s /\ pushed r = None.
Proof.
  unfold pushed, apply_record, outcome. intros ->. by destruct (rec_kind r); intros [= <-].
Qed.

Lemma apply_silent c r : pushed r = None -> outcome r = None \/ rec_key r = None ->
  rec_kind r ≠ BudgetReadmitted -> apply_record c r = c.
Proof.
  unfold pushed, apply_record, outcome. destruct (rec_key r); [|done].
  destruct (rec_kind r); intros ? [?|?] ?; done.
Qed.

Lemma settle_entries c key s : NoDup (j_key <$> effects c) ->
  effects (settle c key s) = (fun e => if at_key key e then settled s e else e) <$> effects c.
Proof. intros Hnd. unfold settle, with_entries. simpl. by apply update_last_map. Qed.

Lemma with_replay_id e : with_replay e (j_replay e) = e.
Proof. by destruct e. Qed.

(** The fold is the reference reading. *)
Lemma fold_entries rs : forall c,
  NoDup ((j_key <$> effects c) ++ keys_of rs) -> (forall r, r ∈ rs -> rec_kind r ≠ BudgetReadmitted) ->
  let c' := foldl apply_record c rs in
  effects c' = ((fun e => with_replay e (verdict (j_key e) rs (j_replay e))) <$> effects c) ++ entries rs
  /\ pos c' = pos c.
Proof.
  induction rs as [|r rs IH]; intros c Hnd Hre; simpl.
  { split; [|done]. rewrite app_nil_r. rewrite <- (list_fmap_id (effects c)) at 1.
    apply list_fmap_ext. intros i e _. symmetry. apply with_replay_id. }
  assert (forall r', r' ∈ rs -> rec_kind r' ≠ BudgetReadmitted) as Hre' by (intros r' Hr'; apply Hre; by right).
  unfold keys_of in *. cbn [omap list_omap] in Hnd. destruct (pushed r) as [j|] eqn:Hp.
  - rewrite fmap_cons in Hnd.
    assert (j_key j ∉ j_key <$> effects c) as Hfresh
      by (apply NoDup_app in Hnd as (_ & Hd & _); intros Hin; apply (Hd _ Hin); by left).
    destruct (apply_pushed c r j Hp Hfresh) as (-> & Ho & Hk).
    destruct (IH (with_entries c (effects c ++ [j]))) as [-> ->]; [|done|].
    { simpl. rewrite fmap_app, <- app_assoc. exact Hnd. }
    split; [|done]. simpl. rewrite fmap_app, <- app_assoc. f_equal.
    apply list_fmap_ext. intros i e _. unfold verdict_step. rewrite Ho. by case_decide.
  - destruct (rec_key r) as [key|] eqn:Hk; [destruct (outcome r) as [s|] eqn:Ho|].
    + destruct (apply_outcome c r key s Hk Ho) as [-> _].
      assert (NoDup (j_key <$> effects c)) as Hndc by (by apply NoDup_app in Hnd as (? & _)).
      assert (j_key <$> effects (settle c key s) = j_key <$> effects c) as Hkeys.
      { rewrite settle_entries, <- list_fmap_compose by done. apply list_fmap_ext.
        intros i e _. simpl. by destruct (at_key key e). }
      destruct (IH (settle c key s)) as [-> ->]; [by rewrite Hkeys|done|]. split; [|done]. f_equal.
      rewrite settle_entries, <- list_fmap_compose by done. apply list_fmap_ext. intros i e _. simpl.
      unfold verdict_step, at_key. rewrite Hk, Ho. case_bool_decide as Hje.
      * by rewrite decide_True by congruence.
      * by rewrite decide_False by congruence.
    + rewrite apply_silent by auto using list_elem_of_here. destruct (IH c Hnd Hre') as [-> ->]. split; [|done]. f_equal.
      apply list_fmap_ext. intros i e _. unfold verdict_step. rewrite Ho. by case_decide.
    + rewrite apply_silent by auto using list_elem_of_here. destruct (IH c Hnd Hre') as [-> ->]. split; [|done]. f_equal.
      apply list_fmap_ext. intros i e _. unfold verdict_step. rewrite Hk. by rewrite decide_False.
Qed.

Lemma step_cursor_entries rs : straight rs ->
  effects (step_cursor rs) = entries rs /\ pos (step_cursor rs) = 0.
Proof.
  intros [Hnd Hre]. destruct (fold_entries rs cursor_empty) as [He Hp]; [by rewrite app_nil_l|done|].
  split; [exact He|exact Hp].
Qed.

Lemma entries_keys rs : j_key <$> entries rs = keys_of rs.
Proof.
  unfold keys_of. induction rs as [|r rs IH]; [done|]. cbn [omap list_omap entries].
  destruct (pushed r) as [j|]; [|done]. by rewrite !fmap_cons, <- IH.
Qed.

(** ** A pass over the history *)

(** The calls a step makes, each with the key recomputed for it. *)
Record Ask := mk_ask { ask_key : EffectKey; ask_desc : EffectDescriptor; ask_attempt : N }.

Fixpoint read_all (c : StepCursor) (asks : list Ask) :
    StepCursor * result NonDeterminism (list (option EffectReplay)) :=
  match asks with
  | [] => (c, Ok [])
  | a :: asks =>
      match next c (ask_key a) (ask_desc a) (ask_attempt a) with
      | (c, Err e) => (c, Err e)
      | (c, Ok o) => let '(c, r) := read_all c asks in (c, (o ::.) <$> r)
      end
  end.

(** What is left to read. *)
Definition rest (c : StepCursor) : list Journaled := drop (pos c) (effects c).

Lemma rest_cons c e es : rest c = e :: es -> effects c !! pos c = Some e /\ drop (S (pos c)) (effects c) = es.
Proof.
  intros Hr. unfold rest in Hr. assert (effects c !! pos c = Some e) as He.
  { rewrite <- (Nat.add_0_r (pos c)), <- lookup_drop, Hr. done. }
  split; [done|]. rewrite (drop_S _ _ _ He) in Hr. by injection Hr.
Qed.

Lemma rest_nil c : rest c = [] <-> effects c !! pos c = None.
Proof.
  unfold rest. rewrite lookup_ge_None. split; [|apply drop_ge].
  intros Hd%(f_equal length). rewrite length_drop in Hd. simpl in Hd. lia.
Qed.

Lemma exhausted_rest c : exhausted c = true <-> rest c = [].
Proof. rewrite rest_nil, lookup_ge_None. unfold exhausted. by rewrite bool_decide_eq_true. Qed.

(** Reading calls whose keys start with what is left returns the recorded
    outcomes, and goes on live after the last. *)
Lemma read_matching asks : forall c, j_key <$> rest c `prefix_of` ask_key <$> asks ->
  exists c', read_all c asks
    = (c', Ok ((Some ∘ j_replay <$> rest c) ++ replicate (length asks - length (rest c)) None))
    /\ exhausted c' = true.
Proof.
  induction asks as [|a asks IH]; intros c Hp.
  - exists c. apply prefix_nil_inv, fmap_nil_inv in Hp. rewrite Hp. split; [done|]. by apply exhausted_rest.
  - cbn [read_all]. unfold next. destruct (rest c) as [|e es] eqn:Hr.
    + rewrite (proj1 (rest_nil c) Hr). destruct (IH c) as (c' & Heq & Hx); [rewrite Hr; apply prefix_nil|].
      rewrite Heq. exists c'. split; [|done]. rewrite Hr. simpl. rewrite Nat.sub_0_r. done.
    + destruct (rest_cons _ _ _ Hr) as [He Hd]. rewrite He.
      rewrite fmap_cons in Hp. cbn [fmap list_fmap] in Hp.
      apply prefix_cons_inv_1 in Hp as Hk. apply prefix_cons_inv_2 in Hp.
      rewrite decide_True by done.
      destruct (IH (mk_cursor (effects c) (S (pos c)) (diverged c))) as (c' & Heq & Hx).
      { unfold rest. simpl. by rewrite Hd. }
      rewrite Heq. exists c'. split; [|done]. unfold rest at 1 2. simpl. by rewrite Hd.
Qed.

(** Where a pass parts from the record, it stops there. *)
Lemma read_diverging asks : forall c c' e, read_all c asks = (c', Err e) ->
  exists i a entry, asks !! i = Some a /\ rest c !! i = Some entry /\ pos c' = pos c + i
    /\ effects c' = effects c /\ ask_key <$> take i asks = j_key <$> take i (rest c)
    /\ ask_key a ≠ j_key entry
    /\ e = mk_nondeterminism (j_seq entry) (j_key entry) (ask_key a)
             (diverged_from entry (ask_desc a) (ask_attempt a)).
Proof.
  induction asks as [|a asks IH]; intros c c' e; cbn [read_all]; [done|].
  unfold next. destruct (rest c) as [|en es] eqn:Hr.
  - rewrite (proj1 (rest_nil c) Hr). destruct (read_all c asks) as [c1 [os|e1]] eqn:Hc; intros [= <- <-].
    destruct (IH _ _ _ Hc) as (i & b & entry & _ & Hl & _). by rewrite Hr in Hl.
  - destruct (rest_cons _ _ _ Hr) as [He Hd]. rewrite He. case_decide as Hk.
    + destruct (read_all _ asks) as [c1 [os|e1]] eqn:Hc; intros [= <- <-].
      destruct (IH _ _ _ Hc) as (i & b & entry & Ha & Hl & Hpos & Heff & Htake & Hne & Herr).
      unfold rest in Hl, Htake. simpl in Hl, Htake, Hpos, Heff. rewrite Hd in Hl, Htake.
      exists (S i), b, entry. cbn [take]. rewrite !fmap_cons, Htake, Hk. split_and!; try done. lia.
    + intros [= <- <-]. exists 0, a, en. split_and!; (done || lia).
Qed.

Lemma read_all_exact asks : forall c c' outs, read_all c asks = (c', Ok (Some <$> outs)) ->
  exhausted c' = true -> ask_key <$> asks = j_key <$> rest c.
Proof.
  induction asks as [|a asks IH]; intros c c' outs; cbn [read_all].
  { intros [= <- _] Hx. apply exhausted_rest in Hx. by rewrite Hx. }
  unfold next. destruct (rest c) as [|en es] eqn:Hr.
  - rewrite (proj1 (rest_nil c) Hr). destruct (read_all c asks) as [c1 [os|e1]]; intros [= _ Ho].
    by destruct outs.
  - destruct (rest_cons _ _ _ Hr) as [He Hd]. rewrite He. case_decide as Hk; [|by intros [= _]].
    destruct (read_all _ asks) as [c1 [os|e1]] eqn:Hc; intros [= <- Ho] Hx.
    destruct outs as [|o outs]; [done|]. rewrite fmap_cons in Ho. injection Ho as _ Ho. subst os.
    rewrite !fmap_cons, Hk. f_equal. rewrite (IH _ _ _ Hc Hx). unfold rest. simpl. by rewrite Hd.
Qed.

(** ** Properties *)

(** Replay reproduces the live pass.  For a step history in which every
    position is opened once, a pass asking for the same keys in the order they
    were opened reads back, for each, exactly what the journal says of it (its
    announcement followed by every later record of its key, the last one
    standing), consumes the whole history, and then continues live. *)
Theorem replay_reproduces rs asks live :
  straight rs -> ask_key <$> asks = keys_of rs ->
  exists c', read_all (step_cursor rs) (asks ++ live)
      = (c', Ok ((Some ∘ j_replay <$> entries rs) ++ replicate (length live) None))
    /\ exhausted c' = true.
Proof.
  intros Hs Hk. destruct (step_cursor_entries rs Hs) as [He Hp].
  assert (rest (step_cursor rs) = entries rs) as Hr by (unfold rest; by rewrite He, Hp).
  destruct (read_matching (asks ++ live) (step_cursor rs)) as (c' & Heq & Hx).
  { rewrite Hr, entries_keys, fmap_app, Hk. by apply prefix_app_r. }
  exists c'. split; [|done]. rewrite Heq, Hr.
  assert (length asks = length (entries rs)) as Hl
    by (by rewrite <- (length_fmap ask_key asks), Hk, <- entries_keys, length_fmap).
  rewrite length_app, Hl. replace (length (entries rs) + length live - length (entries rs))
    with (length live) by lia. done.
Qed.

(** A strict replay accepts exactly the recorded sequence.  Reading from
    the start, a pass is served from history throughout and leaves nothing
    unread if and only if the keys it recomputes are the recorded keys, in
    order; and a pass that is refused is refused at the first position where
    they differ, with the recorded key, the recomputed one and nothing past it
    consumed. *)
Theorem strict_replay_exact c asks : pos c = 0 ->
  ((exists c' outs, read_all c asks = (c', Ok (Some <$> outs)) /\ exhausted c' = true)
     <-> ask_key <$> asks = j_key <$> effects c)
  /\ forall c' e, read_all c asks = (c', Err e) ->
       exists a entry, asks !! pos c' = Some a /\ effects c !! pos c' = Some entry
         /\ ask_key <$> take (pos c') asks = j_key <$> take (pos c') (effects c)
         /\ nd_expected e = j_key entry /\ nd_actual e = ask_key a /\ nd_actual e ≠ nd_expected e
         /\ first_unconsumed c' = Some (j_key entry, entry_kind entry).
Proof.
  intros Hp. assert (rest c = effects c) as Hr by (unfold rest; by rewrite Hp). split; [split|].
  - intros (c' & outs & Hread & Hx). rewrite <- Hr. by eapply read_all_exact.
  - intros Hk. destruct (read_matching asks c) as (c' & Heq & Hx).
    { by rewrite Hr, Hk. }
    exists c', (j_replay <$> effects c). split; [|done].
    rewrite Heq, Hr, list_fmap_compose.
    rewrite <- (length_fmap ask_key asks), Hk, length_fmap, Nat.sub_diag. simpl. by rewrite app_nil_r.
  - intros c' e Hread.
    destruct (read_diverging _ _ _ _ Hread) as (i & a & entry & Ha & Hl & Hpos & Heff & Htake & Hne & ->).
    rewrite Hp in Hpos. simpl in Hpos. subst i. rewrite Hr in *.
    exists a, entry. split_and!; try done. unfold first_unconsumed. by rewrite Heff, Hl.
Qed.

(** Order is verified per step, not globally.  Two journals that interleave
    the same per-step histories differently give the same cursor, and a step's
    part of it is the fold of that step's records alone. *)
Theorem interleaving_irrelevant rs rs' :
  (forall s, filter (fun r => in_slot s r = true) rs = filter (fun r => in_slot s r = true) rs') ->
  from_records rs = from_records rs'
  /\ forall s, default cursor_empty (by_step (from_records rs) !! s)
       = step_cursor (filter (fun r => in_slot s r = true) rs).
Proof.
  intros Hf. split.
  - unfold from_records. f_equal. apply map_eq. intros s. rewrite !fold_lookup. by rewrite Hf.
  - intros s. unfold from_records. simpl. rewrite fold_lookup, lookup_empty.
    unfold step_cursor. by destruct (filter _ rs).
Qed.

(** The figures the records of [key] report. *)
Definition figure (key : EffectKey) (r : JRecord) : option Spend :=
  if decide (rec_key r = Some key) then replay_spend <$> outcome r else None.
Definition figures_of (key : EffectKey) (rs : list JRecord) : list Spend := omap (figure key) rs.

Lemma outcome_spend r s extra : outcome r = Some s ->
  replay_spend (add_spend s extra) = plus (replay_spend s) extra.
Proof.
  unfold outcome. destruct (rec_kind r) as [| | |[] [] | | | | | |]; try done; by intros [= <-].
Qed.

Lemma verdict_spend key rs : forall st,
  replay_spend (verdict key rs st) = foldl (fun acc s => plus s acc) (replay_spend st) (figures_of key rs).
Proof.
  induction rs as [|r rs IH]; intros st; [done|]. unfold verdict, figures_of. cbn [foldl omap list_omap].
  change (foldl (verdict_step key) ?x rs) with (verdict key rs x). rewrite IH.
  unfold verdict_step, figure. case_decide as Hk; [|done].
  destruct (outcome r) as [s|] eqn:Ho; [|done]. simpl. by rewrite (outcome_spend r s _ Ho).
Qed.

Lemma plus_comm a b : plus a b = plus b a.
Proof. unfold plus. by rewrite (sat_add_comm (tokens a)), (sat_add_comm (minor_units a)). Qed.

Lemma plus_assoc a b c : spend_ok a -> spend_ok b -> spend_ok c ->
  plus a (plus b c) = plus (plus a b) c.
Proof.
  intros [[] []] [[] []] [[] []]. unfold plus. simpl. by rewrite !sat_add_assoc.
Qed.

Lemma billed_ok ss : Forall spend_ok ss -> spend_ok (billed ss).
Proof. induction 1; simpl; [apply spend_zero_ok|by apply plus_ok]. Qed.

Lemma billed_foldl ss : forall acc, spend_ok acc -> Forall spend_ok ss ->
  foldl (fun acc s => plus s acc) acc ss = plus (billed ss) acc.
Proof.
  induction ss as [|s ss IH]; intros acc Hacc Hss; simpl.
  - destruct acc as [t m], Hacc as [Ht Hm]. unfold plus. simpl in *.
    by rewrite !(sat_add_comm 0), !sat_add_0_r.
  - apply Forall_cons in Hss as [Hs Hss]. rewrite IH by eauto with plane.
    rewrite <- plus_assoc by auto using billed_ok. rewrite plus_assoc by auto using billed_ok.
    rewrite (plus_comm (billed ss) s), <- plus_assoc by auto using billed_ok. done.
Qed.

(** A slot bills everything its attempt cost.  An announced attempt's slot
    carries the sum of every figure the records of its key report, those a
    later record superseded included, so the pass that replays it adds what the
    live pass added record by record. *)
Theorem slot_bills_everything key rs recovery : Forall spend_ok (figures_of key rs) ->
  replay_spend (verdict key rs (Orphan recovery)) = billed (figures_of key rs).
Proof.
  intros Hok. rewrite verdict_spend. rewrite billed_foldl by (done || apply spend_zero_ok).
  apply billed_ok in Hok as [Ht Hm]. unfold plus. simpl.
  rewrite !sat_add_0_r by done. by destruct (billed _).
Qed.

Lemma filter_idem (P : Journaled -> Prop) `{forall x, Decision (P x)} (es : list Journaled) :
  filter P (filter P es) = filter P es.
Proof. rewrite list_filter_filter. apply list_filter_iff. tauto. Qed.

Lemma existsb_snoc {A} (p : A -> bool) l x : p x = true -> existsb p (l ++ [x]) = true.
Proof. intros Hp. rewrite existsb_app. simpl. rewrite Hp. by rewrite orb_true_r. Qed.

Lemma elem_of_update_last p f (es : list Journaled) en :
  en ∈ update_last p f es -> en ∈ es \/ exists en0, en0 ∈ es /\ p en0 = true /\ en = f en0.
Proof.
  induction es as [|en0 es IH]; simpl; [by left|]. repeat case_match; rewrite !elem_of_cons; intros Hen.
  - destruct Hen as [->|Hen]; [by auto|]. destruct (IH Hen) as [?|(en1 & ? & ? & ?)]; [by auto|].
    right. exists en1. rewrite elem_of_cons. auto.
  - destruct Hen as [->|Hen]; [|by auto]. right. exists en0. rewrite elem_of_cons. auto.
  - auto.
Qed.

Lemma elem_of_remove_last p (es : list Journaled) en :
  en ∈ remove_last p es -> en ∈ es.
Proof.
  induction es as [|en0 es IH]; simpl; [done|]. repeat case_match; rewrite !elem_of_cons; intros Hen; try tauto.
Qed.

Lemma update_last_snoc p f (es : list Journaled) en : p en = true -> update_last p f (es ++ [en]) = es ++ [f en].
Proof.
  intros Hp. induction es as [|en0 es IH]; simpl; [by rewrite Hp|].
  rewrite existsb_snoc by done. by rewrite IH.
Qed.

Lemma remove_last_snoc p es e : p e = true -> remove_last p (es ++ [e]) = es.
Proof.
  intros Hp. induction es as [|a es IH]; simpl; [by rewrite Hp|].
  by rewrite existsb_snoc, IH by done.
Qed.

(** What was gone back on is superseded.  A refusal answered by a
    re-admission at its key leaves no trace but that any withholding there is
    lifted; and whatever is next recorded at a withheld hop (its announcement,
    a refusal, a denial, another withholding) leaves at most that last record
    there as a withholding. *)
Theorem superseded_decisions c key seq seq' kind l u ce :
  apply (apply c key seq (BudgetRefused l u ce)) key seq' BudgetReadmitted = supersede_withheld c key
  /\ (pushed (mk_record None Forward (Some key) seq kind) <> None -> kind <> Released ->
      forall e, e ∈ effects (apply c key seq kind) -> at_key key e = true -> is_withheld (j_replay e) = true ->
      exists s r, kind = AuthorityWithheld s r /\ j_replay e = Withheld s r /\ j_seq e = seq).
Proof.
  split.
  - cbn [apply]. unfold unannounced, supersede_withheld, push, with_entries. simpl.
    rewrite filter_app, filter_idem. simpl. rewrite filter_cons, filter_nil.
    rewrite decide_True by (cbn; unfold refused; by rewrite andb_false_r).
    rewrite remove_last_snoc; [done|]. unfold at_key. simpl. by rewrite bool_decide_true.
  - intros Hp Hr e He Hk Hw.
    assert (forall j, e ∈ effects (push (supersede_withheld c key) j) -> e = j) as Hlast.
    { intros j [Hin|Hin]%elem_of_app; [|by apply list_elem_of_singleton in Hin].
      apply list_elem_of_filter in Hin as [Hf _]. by rewrite Hk, Hw in Hf. }
    destruct kind; try done; apply Hlast in He as ->; try done. by eexists _, _.
Qed.

(** ** Doubt, as a property of the history *)

(** [P] held of a record, in the history before it, and every later record left
    it standing. *)
Definition since (P Q : list JRecord -> JRecord -> Prop) (rs : list JRecord) : Prop :=
  exists l1 r l2, rs = l1 ++ r :: l2 /\ P l1 r
    /\ forall l r' l', l2 = l ++ r' :: l' -> Q (l1 ++ r :: l) r'.

Lemma since_nil P Q : ~ since P Q [].
Proof. intros (l1 & r & l2 & H & _). by destruct l1. Qed.

Lemma since_snoc P Q rs x : since P Q (rs ++ [x]) <-> P rs x \/ (since P Q rs /\ Q rs x).
Proof.
  split.
  - intros (l1 & r & l2 & Heq & Hp & Hq). destruct l2 as [|y l2 _] using rev_ind.
    + apply app_inj_tail in Heq as [-> ->]. by left.
    + rewrite app_comm_cons, app_assoc in Heq. apply app_inj_tail in Heq as [-> ->]. right. split.
      * exists l1, r, l2. split_and!; [done..|]. intros l r' l' ->. apply (Hq l r' (l' ++ [y])).
        by rewrite <- app_assoc.
      * apply (Hq l2 y []). done.
  - intros [Hp|[(l1 & r & l2 & -> & Hp & Hq) Hx]].
    + exists rs, x, []. split_and!; [done..|]. intros l r' l' Hl. by destruct l.
    + exists l1, r, (l2 ++ [x]). split_and!; [by rewrite <- app_assoc|done|].
      intros l r' l' Hl. destruct l' as [|y l' _] using rev_ind.
      * apply app_inj_tail in Hl as [-> ->]. done.
      * rewrite app_comm_cons, app_assoc in Hl. apply app_inj_tail in Hl as [-> ->]. by apply (Hq l r' l').
Qed.

(** A mutating announcement attributed to a step. *)
Definition opening (r : JRecord) : option Pending :=
  match rec_kind r, rec_step r with
  | EffectStarted d _ true _, Some step => Some (mk_pending step (rec_phase r) d (rec_seq r))
  | _, _ => None
  end.
Definition opens (key : EffectKey) (p : Pending) (r : JRecord) : Prop :=
  rec_key r = Some key /\ opening r = Some p.
Definition is_done (r : JRecord) : bool :=
  match rec_kind r with EffectDone _ _ _ _ _ _ => true | _ => false end.
Definition reports_doubt (r : JRecord) : bool :=
  match rec_kind r with
  | EffectFailed _ _ InDoubt _ _ _ _ | EffectReconciled InDoubt _ _ _ => true
  | _ => false
  end.
(** Asked and answered: it landed, or it did not happen. *)
Definition answers (r : JRecord) : bool :=
  match rec_kind r with
  | EffectReconciled Landed _ _ _ | EffectReconciled DidNotHappen _ _ _ => true
  | _ => false
  end.

(** Announced, and no terminal record of its key since. *)
Definition announced (key : EffectKey) (p : Pending) : list JRecord -> Prop :=
  since (fun _ r => opens key p r)
    (fun _ r => rec_key r = Some key -> outcome r = None /\ forall p', ~ opens key p' r).

(** Terminated in doubt, and since then neither answered nor landed by a later
    performance of the same dispatch. *)
Definition inconclusive (key : EffectKey) (p : Pending) : list JRecord -> Prop :=
  since (fun rs r => rec_key r = Some key /\ reports_doubt r = true /\ announced key p rs)
    (fun rs r =>
       (rec_key r = Some key -> answers r = false
          /\ (reports_doubt r = true -> forall p', ~ announced key p' rs))
       /\ forall k' s, rec_key r = Some k' -> is_done r = true -> announced k' s rs ->
            same_dispatch p s = false).

Lemma fold_open o d r : (fold_doubt (o, d) r).1 =
  match rec_key r, opening r, outcome r with
  | Some k, Some p, _ => <[k := p]> o
  | Some k, None, Some _ => delete k o
  | _, _, _ => o
  end.
Proof.
  unfold fold_doubt, opening, outcome. destruct (rec_key r) as [k|]; [|done].
  destruct (rec_kind r) as [desc rec [] a| | | | | | | | |]; try done; try (by destruct (rec_step r)).
  - destruct (o !! k) eqn:Hk; [done|]. simpl. by rewrite delete_id.
  - destruct (o !! k) eqn:Hk; [done|]. simpl. by rewrite delete_id.
Qed.

Lemma fold_doubts o d r : (fold_doubt (o, d) r).2 =
  match rec_key r with
  | None => d
  | Some k =>
      if answers r then delete k d
      else match o !! k with
           | Some p => if is_done r then filter (fun kp => same_dispatch kp.2 p = false) d
                       else if reports_doubt r then <[k := p]> d else d
           | None => d
           end
  end.
Proof.
  unfold fold_doubt, answers, is_done, reports_doubt. destruct (rec_key r) as [k|]; [|done].
  destruct (rec_kind r) as [desc rec [] a| |err sp [] pm u cd ac|[] out sp dc| | | | | |];
    try done; try (by destruct (o !! k)); by destruct (rec_step r), (o !! k).
Qed.

Lemma opening_outcome r p : opening r = Some p -> outcome r = None.
Proof. unfold opening, outcome. by destruct (rec_kind r). Qed.
Lemma done_not_doubt r : is_done r = true -> answers r = false /\ reports_doubt r = false.
Proof. unfold is_done, answers, reports_doubt. by destruct (rec_kind r). Qed.
Lemma doubt_not_answer r : reports_doubt r = true -> answers r = false /\ is_done r = false.
Proof. unfold is_done, answers, reports_doubt. by destruct (rec_kind r) as [| |? ? []|[]| | | | | |]. Qed.

Lemma open_step o d r key p : (fold_doubt (o, d) r).1 !! key = Some p <->
  opens key p r
  \/ (o !! key = Some p /\ (rec_key r = Some key -> outcome r = None /\ forall p', ~ opens key p' r)).
Proof.
  rewrite fold_open. unfold opens. destruct (rec_key r) as [k|] eqn:Hk.
  2:{ split; [intros Ho; right; by split|]. by intros [[? _]|[? _]]. }
  destruct (decide (k = key)) as [->|Hne].
  - destruct (opening r) as [q|] eqn:Hq; [rewrite lookup_insert_eq|].
    + split; [by left|]. intros [[_ ?]|[_ Hno]]; [done|]. destruct (Hno eq_refl) as [_ Hq']. by destruct (Hq' q).
    + destruct (outcome r) as [s|]; [rewrite lookup_delete_eq|].
      * split; [done|]. intros [[_ ?]|[_ Hno]]; [done|]. by destruct (Hno eq_refl).
      * split; [intros Ho; right; split; [done|]; intros _; split; [done|]; by intros p' [_ ?]|].
        by intros [[_ ?]|[? _]].
  - assert (match opening r, outcome r with
      | Some p, _ => <[k := p]> o | None, Some _ => delete k o | None, None => o end !! key = o !! key) as ->.
    { destruct (opening r); [by apply lookup_insert_ne|].
      destruct (outcome r); [by apply lookup_delete_ne|done]. }
    split; [intros Ho; right; split; [done|congruence]|]. intros [[? _]|[? _]]; [congruence|done].
Qed.

Lemma doubt_step o d r key p : (fold_doubt (o, d) r).2 !! key = Some p <->
  (rec_key r = Some key /\ reports_doubt r = true /\ o !! key = Some p)
  \/ (d !! key = Some p
      /\ (rec_key r = Some key -> answers r = false
            /\ (reports_doubt r = true -> forall p', ~ o !! key = Some p'))
      /\ forall k' s, rec_key r = Some k' -> is_done r = true -> o !! k' = Some s ->
           same_dispatch p s = false).
Proof.
  rewrite fold_doubts. destruct (rec_key r) as [k|] eqn:Hk.
  2:{ split; [intros Ho; right; by split|]. by intros [[? _]|[? _]]. }
  destruct (answers r) eqn:Ha.
  - assert (reports_doubt r = false) as Hrd
      by (destruct (reports_doubt r) eqn:Hr; [by apply doubt_not_answer in Hr as [? _]; congruence|done]).
    assert (is_done r = false) as Hdn
      by (destruct (is_done r) eqn:Hr; [by apply done_not_doubt in Hr as [? _]; congruence|done]).
    rewrite lookup_delete_Some, Hrd, Hdn. split.
    + intros [Hne Hd]. right. split; [done|]. split; [congruence|done].
    + intros [(_ & ? & _)|(Hd & Hno & _)]; [done|]. split; [|done]. intros ->. by destruct (Hno eq_refl).
  - destruct (o !! k) as [q|] eqn:Ho.
    2:{ split; [|by intros [([= ->] & _ & ?)|[? _]]; [congruence|]].
        intros Hd. right. split; [done|]. split; [intros [= ->]; split; [done|congruence]|].
        intros k' s [= <-] _. congruence. }
    destruct (is_done r) eqn:Hdn; [|destruct (reports_doubt r) eqn:Hrd].
    + destruct (done_not_doubt r Hdn) as [_ Hrd]. rewrite map_lookup_filter_Some, Hrd. simpl. split.
      * intros [Hd Hs]. right. split; [done|]. split; [done|]. intros k' s [= <-] _. congruence.
      * intros [(_ & ? & _)|(Hd & _ & Hs)]; [done|]. split; [done|]. by apply (Hs k).
    + rewrite lookup_insert_Some. split.
      * intros [[-> ->]|[Hne Hd]]; [by left|]. right. split; [done|]. split; [congruence|done].
      * intros [([= ->] & _ & Hp)|(Hd & Hno & _)]; [left; split; congruence|].
        right. split; [|done]. intros ->. destruct (Hno eq_refl) as [_ Hno']. by destruct (Hno' eq_refl q).
    + split; [intros Hd; right|by intros [(_ & ? & _)|[? _]]]. split; [done|]. split; [done|].
      intros k' s _ ?. done.
Qed.

Lemma announced_snoc key p rs r : announced key p (rs ++ [r]) <->
  opens key p r
  \/ (announced key p rs /\ (rec_key r = Some key -> outcome r = None /\ forall p', ~ opens key p' r)).
Proof. apply since_snoc. Qed.

Lemma inconclusive_snoc key p rs r : inconclusive key p (rs ++ [r]) <->
  (rec_key r = Some key /\ reports_doubt r = true /\ announced key p rs)
  \/ (inconclusive key p rs
      /\ (rec_key r = Some key -> answers r = false
            /\ (reports_doubt r = true -> forall p', ~ announced key p' rs))
      /\ forall k' s, rec_key r = Some k' -> is_done r = true -> announced k' s rs ->
           same_dispatch p s = false).
Proof. apply since_snoc. Qed.

Lemma doubts_spec rs : forall key p,
  ((foldl fold_doubt (∅, ∅) rs).1 !! key = Some p <-> announced key p rs)
  /\ ((foldl fold_doubt (∅, ∅) rs).2 !! key = Some p <-> inconclusive key p rs).
Proof.
  induction rs as [|r rs IH] using rev_ind; intros key p.
  { simpl. rewrite !lookup_empty. unfold announced, inconclusive.
    split; (split; [done|by intros ?%since_nil]). }
  rewrite foldl_app. cbn [foldl]. destruct (foldl fold_doubt (∅, ∅) rs) as [o d]. simpl in IH.
  pose proof (fun k q => proj1 (IH k q)) as IHo. pose proof (fun k q => proj2 (IH k q)) as IHd.
  rewrite announced_snoc, inconclusive_snoc, open_step, doubt_step, <- IHo, <- IHd.
  setoid_rewrite IHo. done.
Qed.

Lemma elem_of_key_order {A} (m : gmap EffectKey A) k a : (k, a) ∈ key_order m <-> m !! k = Some a.
Proof.
  unfold key_order. rewrite list_elem_of_omap. split.
  - intros (k' & _ & Hk). destruct (m !! k') as [b|] eqn:Hm; [|done]. by injection Hk as <- <-.
  - intros Hm. exists k. split; [|apply fmap_Some; by exists a].
    apply (elem_of_iter_by digest_cmp), elem_of_dom. by eexists.
Qed.

Definition reported (d : Doubt) (key : EffectKey) (p : Pending) : Undecided :=
  mk_undecided key (pd_step p) (pd_phase p) (desc_kind (pd_descriptor p)) d.

(** What is in doubt is exactly what the history leaves undecided.  An
    effect is listed as announced if and only if it mutates, was announced in a
    step, and no terminal record of its key has followed; as inconclusive if
    and only if it terminated in doubt and since then neither a reconciliation
    answered it nor the same dispatch landed.  Time resolves nothing, and no
    read is ever listed. *)
Theorem undecided_spec rs u : u ∈ undecided_effects rs <->
  (exists key p, announced key p rs /\ u = reported Announced key p)
  \/ (exists key p, inconclusive key p rs /\ u = reported Inconclusive key p).
Proof.
  unfold undecided_effects. pose proof (doubts_spec rs) as Hs.
  destruct (foldl fold_doubt (∅, ∅) rs) as [o d]. simpl in Hs.
  rewrite list_elem_of_fmap. setoid_rewrite (merge_sort_Permutation doubt_le).
  setoid_rewrite elem_of_app. setoid_rewrite list_elem_of_fmap. split.
  - intros (t & -> & [([key p] & -> & Hin)|([key p] & -> & Hin)]); apply elem_of_key_order, Hs in Hin;
      [left|right]; by exists key, p.
  - intros [(key & p & Hin & ->)|(key & p & Hin & ->)]; apply Hs, elem_of_key_order in Hin;
      eexists; (split; [|(left + right); by exists (key, p)]); done.
Qed.
End replay.

Arguments mk_descriptor {V}.
Arguments EffectStarted {V O C}.
Arguments EffectDone {V O C}.
Arguments EffectFailed {V O C}.
Arguments EffectReconciled {V O C}.
Arguments BudgetReadmitted {V O C}.
Arguments mk_record {V O C}.
Arguments mk_ask {V}.
Arguments Orphan {V O C}.

(** ** A concrete history *)

Module ReplayWitness.
#[local] Instance key_hash : Sha256 := toy_hash.

(** Step 0 charges a card twice: the first attempt fails in doubt after
    spending, a probe finds it never happened, the second lands.  Step 1 reads
    a clock in between. *)
Definition charge : EffectDescriptor := mk_descriptor (lit "tool.call") 7.
Definition clock : EffectDescriptor := mk_descriptor (lit "clock.now") 0.
Definition key (step ordinal attempt : N) (d : EffectDescriptor) : EffectKey :=
  derive step Forward ordinal attempt (desc_kind d) (le_bytes 1 (N.of_nat (desc_args d))).
Definition k1 : EffectKey := key 0 0 1 charge.
Definition k2 : EffectKey := key 0 0 2 charge.
Definition k3 : EffectKey := key 1 0 1 clock.

Definition rec0 : EffectKey -> Seq -> RecordKind (V:=nat) (O:=unit) (C:=unit) -> JRecord :=
  fun k => mk_record (Some 0%N) Forward (Some k).
Definition start1 := rec0 k1 1%Z (EffectStarted charge Reconcile true 1%N).
Definition fail1 :=
  rec0 k1 2%Z (EffectFailed (lit "timeout") (mk_spend 5 2) InDoubt false None None false).
Definition probe1 := rec0 k1 3%Z (EffectReconciled DidNotHappen None (mk_spend 9 9) None).
Definition start2 := rec0 k2 4%Z (EffectStarted charge Reconcile true 2%N).
Definition done2 := rec0 k2 5%Z (EffectDone 42 None None (mk_spend 4 3) declared_untrusted None).
Definition clock_start : JRecord (V:=nat) (O:=unit) (C:=unit) :=
  mk_record (Some 1%N) Forward (Some k3) 6%Z (EffectStarted clock Retry false 1%N).

Definition charging : list JRecord := [start1; fail1; probe1; start2; done2].
Definition asks : list Ask := [mk_ask k1 charge 1%N; mk_ask k2 charge 2%N].

Lemma charging_straight : straight 0 charging.
Proof.
  split; [evaluate|].
  apply (proj1 (Forall_forall _ _)). repeat constructor; discriminate.
Qed.

Lemma replay_reproduces_witness :
  exists c', read_all (step_cursor 0 charging) (asks ++ [])
    = (c', Ok [Some (Failed (lit "resolved by reconciliation") DidNotHappen (mk_spend 5 2) false None false None);
               Some (Done 42 None None (mk_spend 4 3) declared_untrusted None)])
    /\ exhausted c' = true.
Proof.
  destruct (replay_reproduces 0 charging asks [] charging_straight) as (c' & Hr & Hx);
    [evaluate|].
  exists c'. split; [|exact Hx]. rewrite Hr. vm_compute. reflexivity.
Defined.

Lemma strict_replay_exact_witness :
  exists c' outs, read_all (step_cursor 0 charging) asks = (c', Ok (Some <$> outs))
    /\ exhausted c' = true.
Proof.
  apply (strict_replay_exact (step_cursor 0 charging) asks); [reflexivity|evaluate].
Defined.

Lemma interleaving_irrelevant_witness :
  from_records 0 [start1; clock_start; fail1] = from_records 0 [clock_start; start1; fail1].
Proof.
  apply interleaving_irrelevant. intros s. rewrite !filter_cons.
  destruct (decide (in_slot s clock_start = true)) as [Hc|Hc];
    destruct (decide (in_slot s start1 = true)) as [Hs|Hs]; try reflexivity.
  exfalso. unfold in_slot in *. apply andb_true_iff in Hc as [_ Hc], Hs as [_ Hs].
  apply bool_decide_eq_true in Hc, Hs. rewrite <- Hs in Hc. discriminate Hc.
Defined.

Lemma slot_bills_everything_witness :
  replay_spend (verdict k1 charging (Orphan Reconcile)) = mk_spend 5 2.
Proof.
  rewrite (slot_bills_everything k1 charging Reconcile).
  - vm_compute. reflexivity.
  - assert (figures_of k1 charging = [mk_spend 5 2; spend_zero]) as -> by (vm_compute; reflexivity).
    repeat constructor; apply BudgetWitness.u64_small; reflexivity.
Defined.

Example charging_decided : undecided_effects charging = [].
Proof. vm_compute. reflexivity. Qed.
Example crash_undecided : length (undecided_effects [start1; fail1]) = 1.
Proof. vm_compute. reflexivity. Qed.
End ReplayWitness.
