(* ===== verification/Retry.v ===== *)
(** * Failures and when to repeat them ([src/src/core/error.rs], [src/src/core/retry.rs])

    What one failed external interaction says of itself (whether the call took
    effect, what it cost, when to come back), and the schedule a policy gives
    its repeats.  A [Duration] is its nanoseconds as a [Z] up to the type's
    maximum; the sentence [thiserror] renders for an error and [hex::encode]
    are parameters. *)

From S2P Require Import Prelude Digest EffectKey Budget Replay.

Local Open Scope Z_scope.

(** ** Failures *)

(** A JSON error is opaque: only its rendering is read. *)
Inductive EffectError :=
| Unavailable (driver detail : str)
| Rejected (words : str)
| RateLimited (detail : str) (retry_after : option Z)
| EffectRefused (detail : str) (code : option str) (account : bool)
| Timeout (driver : str) (waited_ms : Z)
| Interrupted (driver detail : str)
| Metered (detail : str) (spend : Spend) (disposition : Disposition)
| Performed (words : str)
| OutputShape (detail : str)
| Final (detail : str) (disposition : Disposition) (code : option str) (account : bool)
| Unreproducible (what detail : str)
| OtherError (words : str).

#[export] Instance effect_error_eq_dec : EqDecision EffectError.
Proof. solve_decision. Defined.

Definition error_message (to_string : EffectError -> str) (e : EffectError) : str :=
  match e with
  | Rejected words | Performed words | OtherError words => words
  | EffectRefused detail _ _ | Metered detail _ _ => detail
  | _ => to_string e
  end.

Definition error_code (e : EffectError) : option str :=
  match e with EffectRefused _ code _ | Final _ _ code _ => code | _ => None end.

Definition refuses_the_account (e : EffectError) : bool :=
  match e with EffectRefused _ _ account | Final _ _ _ account => account | _ => false end.

Definition error_spend (e : EffectError) : Spend :=
  match e with Metered _ spend _ => spend | _ => spend_zero end.

Definition error_retry_after (e : EffectError) : option Z :=
  match e with RateLimited _ retry_after => retry_after | _ => None end.

Definition error_class (e : EffectError) : str :=
  match e with
  | Unavailable _ _ => lit "unavailable"
  | Rejected _ => lit "rejected"
  | RateLimited _ _ => lit "rate_limited"
  | EffectRefused _ _ _ => lit "refused"
  | Timeout _ _ => lit "timeout"
  | Interrupted _ _ => lit "interrupted"
  | Metered _ _ _ => lit "metered"
  | Performed _ => lit "performed"
  | OutputShape _ => lit "output_shape"
  | Final _ _ _ _ => lit "final"
  | Unreproducible _ _ => lit "unreproducible"
  | OtherError _ => lit "other"
  end.

Definition error_disposition (e : EffectError) : Disposition :=
  match e with
  | Metered _ _ disposition | Final _ disposition _ _ => disposition
  | Unavailable _ _ | Rejected _ | RateLimited _ _ | EffectRefused _ _ _ | Unreproducible _ _ =>
      DidNotHappen
  | OutputShape _ | Performed _ => Landed
  | Timeout _ _ | Interrupted _ _ | OtherError _ => InDoubt
  end.

(** ** Policies *)

(** [Duration::MAX] and [Duration::saturating_mul] by a [u32]. *)
Definition duration_max : Z := (u64_max + 1) * 1000000000 - 1.
Definition sat_duration_mul (d m : Z) : Z := Z.min duration_max (d * m).
Definition u128_max : Z := 2 ^ 128 - 1.
Definition millis (n : Z) : Z := n * 1000000.
Definition seconds (n : Z) : Z := n * 1000000000.

Record RetryPolicy := mk_policy {
  max_attempts : N;
  initial_backoff : Z;
  max_backoff : Z;
  multiplier : Z;
  jitter : bool;
  max_advice : Z;
}.

Definition retry_default : RetryPolicy := mk_policy 3 (millis 100) (seconds 10) 2 true (seconds 60).
Definition never : RetryPolicy := mk_policy 1 0 0 1 false 0.
Definition attempts (n : N) : RetryPolicy :=
  mk_policy (N.max n 1) (initial_backoff retry_default) (max_backoff retry_default)
    (multiplier retry_default) (jitter retry_default) (max_advice retry_default).
Definition with_backoff (p : RetryPolicy) (initial max : Z) : RetryPolicy :=
  mk_policy (max_attempts p) initial max (multiplier p) (jitter p) (max_advice p).
Definition without_jitter (p : RetryPolicy) : RetryPolicy :=
  mk_policy (max_attempts p) (initial_backoff p) (max_backoff p) (multiplier p) false (max_advice p).
Definition wait_at_most (p : RetryPolicy) (advice : Z) : RetryPolicy :=
  mk_policy (max_attempts p) (initial_backoff p) (max_backoff p) (multiplier p) (jitter p) advice.

Definition permits (p : RetryPolicy) (attempt : N) : bool := (attempt <? max_attempts p)%N.

(** The [for] loop with its [break]. *)
Fixpoint grow (p : RetryPolicy) (steps : nat) (delay : Z) : Z :=
  match steps with
  | O => delay
  | S steps =>
      let delay := Z.min (sat_duration_mul delay (multiplier p)) (max_backoff p) in
      if max_backoff p <=? delay then delay else grow p steps delay
  end.

(** [u64::from_be_bytes]. *)
Definition from_be (b : list Byte.byte) : Z :=
  foldl (fun acc c => acc * 256 + Z.of_N (Byte.to_N c)) 0 b.

Section schedule.
Context `{Sha256} (hex : list Byte.byte -> str).

(** [run] is the run id as its [Display] writes it. *)
Definition backoff (p : RetryPolicy) (run : str) (key : EffectKey) (attempt : N) : Z :=
  if (attempt <=? 1)%N then 0 else
  let steps := if 1 <? multiplier p then N.to_nat (attempt - 2) else 0%nat in
  let delay := Z.min (grow p steps (initial_backoff p)) (max_backoff p) in
  if negb (jitter p) || (delay =? 0) then delay else
  let seed := str_bytes run ++ str_bytes (hex (as_bytes key)) ++ be_bytes 4 attempt in
  let spread := from_be (take 8 (as_bytes (digest_of seed))) in
  let half := delay / 2 in
  let extra := Z.min u128_max (half * spread) / u64_max in
  u64_or_max (half + extra).

Definition wait_before (p : RetryPolicy) (run : str) (key : EffectKey) (attempt : N)
    (advice : option Z) : Z :=
  if (attempt <=? 1)%N then 0 else
  match advice with
  | Some named => if named =? 0 then backoff p run key attempt else Z.min named (max_advice p)
  | None => backoff p run key attempt
  end.

(** ** The schedule *)

Record policy_ok (p : RetryPolicy) : Prop := {
  po_initial : 0 <= initial_backoff p;
  po_max : 0 <= max_backoff p <= duration_max;
  po_multiplier : u32_ok (multiplier p);
  po_advice : 0 <= max_advice p;
}.

(** The delay before [attempt] with no jitter: exponential under a ceiling. *)
Definition exponential (p : RetryPolicy) (attempt : N) : Z :=
  Z.min (max_backoff p) (initial_backoff p * Z.max 1 (multiplier p) ^ Z.of_N (attempt - 2)).

Lemma grow_closed p : policy_ok p -> 1 < multiplier p -> forall n d, 0 <= d ->
  Z.min (grow p n d) (max_backoff p) = Z.min (max_backoff p) (d * multiplier p ^ Z.of_nat n).
Proof.
  intros Hp Hm. pose proof (po_max p Hp) as Hmax.
  induction n as [|n IH]; intros d Hd; [simpl; lia|].
  rewrite Nat2Z.inj_succ, Z.pow_succ_r by lia.
  assert (0 < multiplier p ^ Z.of_nat n) as Hpow by (apply Z.pow_pos_nonneg; lia).
  cbn [grow]. unfold sat_duration_mul. destruct (Z.leb_spec (max_backoff p)
    (Z.min (Z.min duration_max (d * multiplier p)) (max_backoff p))) as [Hb|Hb].
  - assert (max_backoff p <= d * multiplier p) by lia. nia.
  - rewrite IH by lia.
    replace (Z.min (Z.min duration_max (d * multiplier p)) (max_backoff p)) with (d * multiplier p) by lia.
    f_equal. ring.
Qed.

(** The delay before jitter is the exponential one, whatever the loop broke at. *)
Lemma delay_closed p attempt : policy_ok p ->
  Z.min (grow p (if 1 <? multiplier p then N.to_nat (attempt - 2) else 0%nat) (initial_backoff p))
    (max_backoff p) = exponential p attempt.
Proof.
  intros Hp. unfold exponential. destruct (Z.ltb_spec 1 (multiplier p)) as [Hm|Hm].
  - rewrite (grow_closed p Hp Hm) by apply Hp. rewrite N_nat_Z, (Z.max_r 1) by lia. done.
  - rewrite (Z.max_l 1), Z.pow_1_l by lia. simpl. lia.
Qed.

Lemma from_be_range b : 0 <= from_be b < 256 ^ Z.of_nat (length b).
Proof.
  unfold from_be. induction b as [|c b IH] using rev_ind; [simpl; lia|].
  rewrite foldl_app, length_app, Nat2Z.inj_add, Z.pow_add_r by lia. cbn [foldl length].
  pose proof (Byte.to_N_bounded c). change (256 ^ Z.of_nat 1) with 256. nia.
Qed.

Lemma spread_range b : 0 <= from_be (take 8 (as_bytes (digest_of b))) <= u64_max.
Proof.
  pose proof (from_be_range (take 8 (as_bytes (digest_of b)))) as Hr.
  rewrite length_take, digest_length in Hr. change (256 ^ Z.of_nat (8 `min` 32)) with (u64_max + 1) in Hr.
  lia.
Qed.

Lemma exponential_range p attempt : policy_ok p -> 0 <= exponential p attempt <= max_backoff p.
Proof.
  intros Hp. pose proof (po_initial p Hp). pose proof (po_max p Hp).
  assert (0 <= Z.max 1 (multiplier p) ^ Z.of_N (attempt - 2)) by (apply Z.pow_nonneg; lia).
  unfold exponential. nia.
Qed.

(** The share jitter adds to half the delay is at most that half. *)
Lemma extra_range half spread : 0 <= half -> 0 <= spread <= u64_max ->
  0 <= Z.min u128_max (half * spread) / u64_max <= half.
Proof.
  intros Hh Hs. split.
  - apply Z.div_pos; [unfold u128_max|unfold u64_max]; nia.
  - apply Z.div_le_upper_bound; [unfold u64_max; lia|]. nia.
Qed.

Lemma backoff_spec p run key attempt : policy_ok p -> (2 <= attempt)%N ->
  (jitter p = false -> backoff p run key attempt = exponential p attempt)
  /\ Z.min u64_max (exponential p attempt / 2) <= backoff p run key attempt
       <= exponential p attempt.
Proof.
  intros Hp Ha. pose proof (exponential_range p attempt Hp) as He. unfold backoff.
  rewrite (proj2 (N.leb_gt _ _)) by lia. cbv zeta. rewrite delay_closed by done.
  set (d := exponential p attempt) in *.
  assert (0 <= d / 2) by (apply Z.div_pos; lia). pose proof (Z.mul_div_le d 2).
  split; [by intros ->|]. destruct (jitter p); simpl; [|lia].
  destruct (Z.eqb_spec d 0) as [Hd|Hd]; [lia|].
  pose proof (spread_range (str_bytes run ++ str_bytes (hex (as_bytes key)) ++ be_bytes 4 attempt)) as Hs.
  pose proof (extra_range (d / 2) _ ltac:(lia) Hs) as Hx.
  unfold u64_or_max. case_decide; lia.
Qed.

(** The schedule is the declared one.  A first attempt is immediate; with
    jitter off, attempt [n] waits [initial * multiplier^(n-2)] under the
    ceiling, although the code iterates with saturation and stops early; jitter
    keeps every wait between half of that (or what 64 bits of nanoseconds hold)
    and the whole of it. *)
Theorem backoff_schedule p run key attempt : policy_ok p ->
  ((attempt <= 1)%N -> backoff p run key attempt = 0)
  /\ ((2 <= attempt)%N ->
      (jitter p = false -> backoff p run key attempt = exponential p attempt)
      /\ Z.min u64_max (exponential p attempt / 2) <= backoff p run key attempt
           <= exponential p attempt).
Proof.
  intros Hp. split; [|by apply backoff_spec].
  intros Ha. unfold backoff. by rewrite (proj2 (N.leb_le _ _) Ha).
Qed.

(** A peer's advice is obeyed and bounded.  A named time replaces the
    computed one, shorter or longer, up to the policy's own ceiling; no wait at
    all precedes a first attempt, and whatever a peer says no wait exceeds the
    two ceilings. *)
Theorem advice_bounded p run key attempt advice : policy_ok p ->
  (forall named, advice = Some named -> 0 <= named) ->
  0 <= wait_before p run key attempt advice <= Z.max (max_advice p) (max_backoff p)
  /\ (forall named, (2 <= attempt)%N -> advice = Some named -> 0 < named ->
      wait_before p run key attempt advice = Z.min named (max_advice p)).
Proof.
  intros Hp Hn. pose proof (po_advice p Hp). pose proof (po_max p Hp).
  pose proof (exponential_range p attempt Hp).
  unfold wait_before.
  destruct (N.leb_spec attempt 1) as [Ha|Ha]; [split; [lia|intros; lia]|].
  destruct (backoff_spec p run key attempt Hp ltac:(lia)) as [_ Hb].
  assert (0 <= backoff p run key attempt <= max_backoff p) as Hw.
  { split; [|lia]. etrans; [|apply Hb]. apply Z.min_glb; [done|]. apply Z.div_pos; lia. }
  split.
  - destruct advice as [named|]; [|lia]. specialize (Hn named eq_refl). case_match; lia.
  - intros named _ -> Hpos. by rewrite (proj2 (Z.eqb_neq _ _)) by lia.
Qed.
End schedule.

(** ** Witnesses *)

Module RetryWitness.
#[local] Instance key_hash : Sha256 := toy_hash.
(** Two hex digits a byte. *)
Definition hex_digit (n : N) : ascii := ascii_of_N (if (n <? 10)%N then n + 48 else n + 87).
Definition hex_bytes (b : list Byte.byte) : str :=
  b ≫= fun c => [hex_digit (Byte.to_N c / 16); hex_digit (Byte.to_N c mod 16)].

Definition key : EffectKey := derive 0%N Forward 0%N 1%N (lit "tool.call") [].

Lemma default_ok : policy_ok retry_default.
Proof.
  split; unfold retry_default, millis, seconds, duration_max, u32_ok, u32_max, u64_max; simpl; lia.
Qed.

Example doubling : (fun n => backoff hex_bytes (without_jitter retry_default) (lit "r") key n) <$> [1; 2; 3; 4; 20]%N
  = [0; millis 100; millis 200; millis 400; seconds 10].
Proof. vm_compute. reflexivity. Qed.

Example hex_text : hex_bytes [x00; xab; xff] = lit "00abff".
Proof. reflexivity. Qed.

Lemma backoff_schedule_witness :
  millis 200 <= backoff hex_bytes retry_default (lit "run") key 4%N <= millis 400.
Proof.
  destruct (backoff_schedule hex_bytes retry_default (lit "run") key 4%N default_ok) as [_ Hs].
  destruct (Hs ltac:(lia)) as [_ [Hl Hu]]. split.
  - exact Hl.
  - exact Hu.
Defined.

Lemma advice_bounded_witness :
  wait_before hex_bytes retry_default (lit "run") key 2%N (Some (seconds 3600)) = seconds 60.
Proof.
  destruct (advice_bounded hex_bytes retry_default (lit "run") key 2%N (Some (seconds 3600)) default_ok)
    as [_ Hn].
  - intros named [= <-]. unfold seconds. lia.
  - exact (Hn (seconds 3600) ltac:(lia) eq_refl ltac:(unfold seconds; lia)).
Defined.
End RetryWitness.
