(* ===== verification/Authority.v ===== *)
(** * Standing authority ([src/src/authority/mod.rs], [src/src/authority/approval.rs],
      [src/src/store/redb_authority.rs])

    What somebody authorized: terms written once, a balance that every draw
    moves, and receipts that make a repeated draw read back its first answer.
    [State] is one tenant's three tables; the operations are those of the redb
    store, each one write transaction.  The canonical serialization of the terms
    is the class [TermsCodec]; JSON values answer through [JsonView]. *)

From S2P Require Import Prelude Digest Label Identity Tainted Budget Retry EffectKey Text.
From stdpp Require Import gmap.

(** What a matcher reads of a [serde_json::Value]. *)
Class JsonView (V : Type) := {
  at_pointer : V -> str -> option V;
  as_str : V -> option str;
  as_array : V -> option (list V);
}.

(** ** Paths *)

Record Normal := mk_normal { absolute : bool; segments : list str }.

(** The loop of [normalise]; [kept] is newest first. *)
Fixpoint resolve (kept : list str) (pieces : list str) : option (list str) :=
  match pieces with
  | [] => Some (reverse kept)
  | piece :: pieces =>
      if bool_decide (piece = []) || bool_decide (piece = lit ".") then resolve kept pieces
      else if bool_decide (piece = lit "..")
      then match kept with [] => None | _ :: kept => resolve kept pieces end
      else resolve (piece :: kept) pieces
  end.
Definition normalise (path : str) : option Normal :=
  if bool_decide (ascii_of_N 0 ∈ path) then None else
  segments ← resolve [] (split_char slash path);
  Some (mk_normal (starts_with slash path) segments).

Fixpoint is_prefix (p l : list str) : bool :=
  match p, l with
  | [], _ => true
  | x :: p, y :: l => bool_decide (x = y) && is_prefix p l
  | _ :: _, [] => false
  end.

Section authority.
Context {V Operator : Type} `{EqDecision V, JsonView V}.

(** ** Approval rules *)

Inductive Matcher := Exact (v : V) | PathPrefix (prefix : str) | ArgvPrefix (argv : list str).
Record FieldMatch := mk_field { fm_pointer : str; fm_matcher : Matcher }.
Record ApprovalRule := mk_rule { ar_tool : str; ar_fields : list FieldMatch }.

Definition rule_new (tool pointer : str) (m : Matcher) : ApprovalRule := mk_rule tool [mk_field pointer m].
Definition rule_and (r : ApprovalRule) (pointer : str) (m : Matcher) : ApprovalRule :=
  mk_rule (ar_tool r) (ar_fields r ++ [mk_field pointer m]).

Definition path_matches (prefix path : str) : bool :=
  match normalise prefix, normalise path with
  | Some p, Some q => Bool.eqb (absolute p) (absolute q) && is_prefix (segments p) (segments q)
  | _, _ => false
  end.
Definition matcher_matches (m : Matcher) (value : V) : bool :=
  match m with
  | Exact expected => bool_decide (value = expected)
  | PathPrefix prefix => match as_str value with Some path => path_matches prefix path | None => false end
  | ArgvPrefix prefix =>
      match as_array value with
      | Some argv => bool_decide (length prefix <= length argv)
                     && forallb (fun wg => bool_decide (as_str wg.2 = Some wg.1)) (zip prefix argv)
      | None => false
      end
  end.
Definition rule_matches (r : ApprovalRule) (tool : str) (arguments : V) : bool :=
  bool_decide (ar_tool r = tool) && negb (bool_decide (length (ar_fields r) = 0))
  && forallb (fun f => match at_pointer arguments (fm_pointer f) with
                       | Some value => matcher_matches (fm_matcher f) value
                       | None => false
                       end) (ar_fields r).

Inductive Malformation :=
| NoId | NoHolder | NoBasis | PermitsNothing | NobodyIssued | NoExpiry
| RuleNamesNoTool | RuleConstrainsNothing | NotAPointer | BadPathPrefix | EmptyArgv.

Definition field_problem (f : FieldMatch) : option Malformation :=
  if negb (starts_with slash (fm_pointer f)) then Some NotAPointer else
  match fm_matcher f with
  | Exact _ => None
  | PathPrefix prefix =>
      match normalise prefix with
      | Some n => if bool_decide (length (segments n) = 0) then Some BadPathPrefix else None
      | None => Some BadPathPrefix
      end
  | ArgvPrefix argv => if bool_decide (length argv = 0) then Some EmptyArgv else None
  end.
Definition problem (r : ApprovalRule) : option Malformation :=
  if blank (ar_tool r) then Some RuleNamesNoTool
  else if bool_decide (length (ar_fields r) = 0) then Some RuleConstrainsNothing
  else head (omap field_problem (ar_fields r)).

(** ** The terms *)

Inductive Holder := HolderTenant | HolderSubject (id : str).
#[export] Instance holder_eq_dec : EqDecision Holder.
Proof. solve_decision. Defined.

Record StandingAuthority := mk_authority {
  sa_id : str;
  sa_holder : Holder;
  sa_basis : str;
  ceiling : Spend;
  max_draws : option Z;
  expires_at : option Z;
  approves : list ApprovalRule;
  issued_by : option Operator;
}.

Definition authority_new (id : str) (holder : Holder) (basis : str) (ceiling : Spend) : StandingAuthority :=
  mk_authority id holder basis ceiling None None [] None.
Definition approval (id : str) (holder : Holder) (issuer : Operator) (basis : str) (rule : ApprovalRule) (expires : Z) :
    StandingAuthority :=
  mk_authority id holder basis spend_zero None (Some expires) [rule] (Some issuer).

Inductive AuthorityError :=
| AUnknown (id : str)
| AExhausted (id : str) (asked remaining : Spend)
| ADrawsSpent (id : str) (allowed : Z)
| ARevoked (id reason : str)
| AExpired (id : str) (expired_at : Z)
| ANotHolder (id : str) (holder : Holder) (drawer : option Holder)
| AMalformed (m : Malformation)
| AAlreadyIssued (id : str)
| AUnavailable (detail : str).

Definition validate (a : StandingAuthority) : result AuthorityError unit :=
  ensure (negb (blank (sa_id a))) (AMalformed NoId) ;;
  ensure (negb (match sa_holder a with HolderSubject id => blank id | HolderTenant => false end)) (AMalformed NoHolder) ;;
  ensure (negb (blank (sa_basis a))) (AMalformed NoBasis) ;;
  ensure (negb (is_free (ceiling a) && bool_decide (length (approves a) = 0))) (AMalformed PermitsNothing) ;;
  if bool_decide (length (approves a) = 0) then Ok tt else
  ensure (match issued_by a with Some _ => true | None => false end) (AMalformed NobodyIssued) ;;
  ensure (match expires_at a with Some _ => true | None => false end) (AMalformed NoExpiry) ;;
  match head (omap problem (approves a)) with Some p => Err (AMalformed p) | None => Ok tt end.

(** The holder a run draws as. *)
Definition holder_of (chain : option Delegation) (served_unchained : bool) : option Holder :=
  match chain with
  | Some chain => Some (HolderSubject (pr_id (owner chain)))
  | None => if served_unchained then None else Some HolderTenant
  end.

(** ** The decision *)

Definition left_of (ceiling drawn : Spend) : Spend :=
  mk_spend (sat_sub (tokens ceiling) (tokens drawn)) (sat_sub (minor_units ceiling) (minor_units drawn)).

Definition permits (a : StandingAuthority) (amount drawn : Spend) (taken : Z) (revoked : option str) (now : Z) :
    result AuthorityError Spend :=
  (match revoked with Some reason => Err (ARevoked (sa_id a) reason) | None => Ok tt end) ;;
  (match expires_at a with
   | Some expires => ensure (negb (expires <=? now)%Z) (AExpired (sa_id a) expires)
   | None => Ok tt
   end) ;;
  (match max_draws a with
   | Some allowed => ensure (negb (allowed <=? taken)%Z) (ADrawsSpent (sa_id a) allowed)
   | None => Ok tt
   end) ;;
  let remaining := left_of (ceiling a) drawn in
  ensure (negb ((tokens remaining <? tokens amount) || (minor_units remaining <? minor_units amount))%Z)
    (AExhausted (sa_id a) amount remaining) ;;
  Ok remaining.

(** ** The tables *)

Class TermsCodec := {
  to_canon : StandingAuthority -> result str str;
  from_json : str -> result str StandingAuthority;
}.
Class TermsLaws `{TermsCodec} : Prop := {
  canon_read a t : to_canon a = Ok t -> from_json t = Ok a;
}.

Record Balance := mk_balance {
  b_drawn : Spend;
  b_draws : Z;
  b_revoked : bool;
  b_at : Z;
  b_reason : str;
}.
Definition no_balance : Balance := mk_balance spend_zero 0 false 0 [].
Record Drawn := mk_drawn { d_authority : str; d_amount : Spend; d_remaining : Spend; d_draws : Z }.

Record State := mk_state {
  terms : gmap str str;
  balance : gmap str Balance;
  receipts : gmap (str * EffectKey) (Spend * Spend * Z);
}.
Definition empty_state : State := mk_state ∅ ∅ ∅.

Context `{TermsCodec}.

Definition issue (st : State) (a : StandingAuthority) : State * result AuthorityError unit :=
  match validate a with
  | Err e => (st, Err e)
  | Ok _ =>
      match to_canon a with
      | Err e => (st, Err (AUnavailable e))
      | Ok t =>
          match terms st !! sa_id a with
          | Some existing => (st, if decide (existing = t) then Ok tt else Err (AAlreadyIssued (sa_id a)))
          | None => (mk_state (<[sa_id a := t]> (terms st)) (<[sa_id a := no_balance]> (balance st)) (receipts st), Ok tt)
          end
      end
  end.

Definition balance_of (st : State) (id : str) : Balance := default no_balance (balance st !! id).

Definition draw (st : State) (id : str) (key : EffectKey) (amount : Spend) (now : Z) :
    State * result AuthorityError Drawn :=
  match receipts st !! (id, key) with
  | Some (taken, rest, n) => (st, Ok (mk_drawn id taken rest n))
  | None =>
      match terms st !! id with
      | None => (st, Err (AUnknown id))
      | Some raw =>
          match from_json raw with
          | Err e => (st, Err (AUnavailable (lit "stored authority is unreadable: " ++ e)))
          | Ok a =>
              let b := balance_of st id in
              match permits a amount (b_drawn b) (b_draws b) (if b_revoked b then Some (b_reason b) else None) now with
              | Err e => (st, Err e)
              | Ok remaining =>
                  let n := wrap_u32 (b_draws b + 1) in
                  let rest := left_of remaining amount in
                  (mk_state (terms st) (<[id := mk_balance (Budget.plus (b_drawn b) amount) n false 0 []]> (balance st))
                     (<[(id, key) := (amount, rest, n)]> (receipts st)),
                   Ok (mk_drawn id amount rest n))
              end
          end
      end
  end.

Definition revoke (st : State) (id reason : str) (now : Z) : State * result AuthorityError unit :=
  match balance st !! id with
  | None => (st, Err (AUnknown id))
  | Some b =>
      if b_revoked b then (st, Ok tt) else
      (mk_state (terms st) (<[id := mk_balance (b_drawn b) (b_draws b) true now reason]> (balance st)) (receipts st), Ok tt)
  end.

Record Revocation := mk_revocation { rv_at : Z; rv_reason : str }.
Record AuthorityState := mk_authority_state {
  as_authority : StandingAuthority;
  as_drawn : Spend;
  as_draws : Z;
  as_revoked : option Revocation;
}.
Definition remaining (s : AuthorityState) : Spend := left_of (ceiling (as_authority s)) (as_drawn s).

Definition state_of (st : State) (id raw : str) : result str AuthorityState :=
  match from_json raw with
  | Err e => Err (lit "stored authority is unreadable: " ++ e)
  | Ok a =>
      let b := balance_of st id in
      Ok (mk_authority_state a (b_drawn b) (b_draws b)
            (if b_revoked b then Some (mk_revocation (b_at b) (b_reason b)) else None))
  end.
Definition state (st : State) (id : str) : result str (option AuthorityState) :=
  match terms st !! id with
  | None => Ok None
  | Some raw => s ← state_of st id raw; Ok (Some s)
  end.

Fixpoint held_rows (st : State) (holder : Holder) (rows : list (str * str)) : result str (list AuthorityState) :=
  match rows with
  | [] => Ok []
  | (id, raw) :: rows =>
      s ← state_of st id raw;
      rest ← held_rows st holder rows;
      Ok (if decide (sa_holder (as_authority s) = holder) then s :: rest else rest)
  end.
(** In the order of the ids. *)
Definition held_by (st : State) (holder : Holder) : result str (list AuthorityState) :=
  held_rows st holder (omap (fun id => raw ← terms st !! id; Some (id, raw)) (iter_str (dom (terms st)))).

(** ** Drawing as an effect ([runtime/effects.rs]) *)

Definition draw_error (text : AuthorityError -> str) (e : AuthorityError) : EffectError :=
  match e with
  | AUnavailable _ => Unavailable (lit "authority-store") (text e)
  | _ => EffectRefused (text e) None false
  end.

(** [DrawOnAuthority::perform]; the key is the dispatch's. *)
Definition draw_on (text : AuthorityError -> str) (st : State) (id : str) (holder : option Holder) (key : EffectKey)
    (amount : Spend) (now : Z) : State * result EffectError Drawn :=
  let held :=
    match state st id with
    | Err e => Err (AUnavailable e)
    | Ok None => Err (AUnknown id)
    | Ok (Some s) =>
        if decide (holder = Some (sa_holder (as_authority s))) then Ok tt
        else Err (ANotHolder id (sa_holder (as_authority s)) holder)
    end in
  match held with
  | Err e => (st, Err (draw_error text e))
  | Ok _ =>
      match draw st id key amount now with
      | (st, Ok d) => (st, Ok d)
      | (st, Err e) => (st, Err (draw_error text e))
      end
  end.

(** [ListStandingApprovals::perform]. *)
Definition stands_at (now : Z) (s : AuthorityState) : bool :=
  negb (bool_decide (length (approves (as_authority s)) = 0))
  && match as_revoked s with None => true | Some _ => false end
  && match expires_at (as_authority s) with Some expires => (now <? expires)%Z | None => false end.
Definition standing_approvals (st : State) (holder : Holder) (now : Z) : result EffectError (list StandingAuthority) :=
  match held_by st holder with
  | Err e => Err (Unavailable (lit "authority-store") e)
  | Ok held => Ok (as_authority <$> filter (fun s => stands_at now s = true) held)
  end.
End authority.

(** ** A path prefix and where paths lead *)

(** Walking a path through directories, newest name first, as a file system
    does: the parent of the root is the root. *)
Fixpoint visit (dir : list str) (pieces : list str) : list str :=
  match pieces with
  | [] => dir
  | piece :: pieces =>
      if bool_decide (piece = []) || bool_decide (piece = lit ".") then visit dir pieces
      else if bool_decide (piece = lit "..") then visit (tail dir) pieces
      else visit (piece :: dir) pieces
  end.
(** From every directory the walk ends below it, at [names]. *)
Definition leads_to (pieces names : list str) : Prop := forall dir, visit dir pieces = names ++ dir.

Lemma resolve_visit pieces : forall kept s dir,
  resolve kept pieces = Some s -> visit (kept ++ dir) pieces = reverse s ++ dir.
Proof.
  induction pieces as [|piece pieces IH]; intros kept s dir Hr; simpl in *.
  { injection Hr as <-. by rewrite reverse_involutive. }
  repeat case_match; simplify_eq/=; try by eapply IH. by apply (IH (piece :: kept)).
Qed.

(** How many of a name too long to be a piece are left. *)
Definition marks (x : str) (dir : list str) : nat := length (filter (fun y => y = x) dir).
Lemma marks_cons x y dir : marks x (y :: dir) = (if decide (y = x) then 1 else 0) + marks x dir.
Proof. unfold marks. rewrite filter_cons. by destruct (decide (y = x)). Qed.
Lemma visit_marks x pieces : (forall p, p ∈ pieces -> p <> x) -> forall dir,
  marks x (visit dir pieces) <= marks x dir.
Proof.
  induction pieces as [|piece pieces IH]; intros Hx dir; simpl; [done|].
  assert (forall dir, marks x (visit dir pieces) <= marks x dir) as IH'.
  { apply IH. intros p Hp. apply Hx. by right. }
  repeat case_match; [done| |].
  - etrans; [apply IH'|]. destruct dir as [|y dir]; [done|]. rewrite marks_cons. simpl. lia.
  - etrans; [apply IH'|]. rewrite marks_cons, decide_False; [done|]. apply Hx. by left.
Qed.
Lemma marks_app x a b : marks x (a ++ b) = marks x a + marks x b.
Proof. unfold marks. by rewrite filter_app, length_app. Qed.

Lemma resolve_escapes x pieces : (forall p, p ∈ pieces -> p <> x) -> forall kept dir,
  resolve kept pieces = None -> marks x kept = 0 -> 0 < marks x dir -> dir = replicate (length dir) x ->
  marks x (visit (kept ++ dir) pieces) < marks x dir.
Proof.
  induction pieces as [|piece pieces IH]; intros Hx kept dir Hr Hk Hd Hrep; simpl in *; [done|].
  assert (forall p, p ∈ pieces -> p <> x) as Hx' by (intros p Hp; apply Hx; by right).
  repeat case_match; simplify_eq/=; try by eapply IH.
  - destruct dir as [|y dir]; [change (marks x []) with 0 in Hd; lia|]. injection Hrep as -> Hrep. simpl.
    eapply Nat.le_lt_trans; [by apply visit_marks|]. rewrite marks_cons, decide_True by done. lia.
  - apply IH; try done. rewrite marks_cons in Hk. lia.
  - apply (IH Hx' (piece :: kept)); try done. rewrite marks_cons, decide_False; [done|]. apply Hx. by left.
Qed.

Lemma resolve_exact pieces s : resolve [] pieces = Some s <-> leads_to pieces (reverse s).
Proof.
  split; [intros Hr dir; by apply (resolve_visit _ [])|]. intros Hl.
  destruct (resolve [] pieces) as [s'|] eqn:Hr.
  - pose proof (resolve_visit _ _ _ [] Hr) as Hv. specialize (Hl []). simpl in *. rewrite !app_nil_r in *.
    rewrite Hl in Hv. apply (inj reverse) in Hv. congruence.
  - set (x := replicate (S (max_list (length <$> pieces))) "x"%char : str).
    assert (forall p, p ∈ pieces -> p <> x) as Hx.
    { intros p Hp ->. apply (list_elem_of_fmap_2 length), max_list_elem_of_le in Hp.
      unfold x in Hp at 1. rewrite length_replicate in Hp. lia. }
    pose proof (resolve_escapes x pieces Hx [] [x] Hr) as He. simpl in He.
    assert (marks x [x] = 1) as H1 by (unfold marks; by rewrite filter_cons_True, filter_nil).
    rewrite Hl, marks_app, H1 in He. specialize (He eq_refl ltac:(lia) eq_refl). lia.
Qed.

Lemma is_prefix_spec p : forall l, is_prefix p l = true <-> exists r, l = p ++ r.
Proof.
  induction p as [|x p IH]; intros [|y l]; simpl; try (split; [eauto|done]).
  - split; [done|]. by intros [r Hr].
  - rewrite andb_true_iff, bool_decide_eq_true, IH. split.
    + intros [-> [r ->]]. by exists r.
    + intros [r [= -> ->]]. eauto.
Qed.

Definition nul : ascii := ascii_of_N 0.
Lemma normalise_Some path n : normalise path = Some n <->
  nul ∉ path /\ absolute n = starts_with slash path /\ leads_to (split_char slash path) (reverse (segments n)).
Proof.
  unfold normalise. rewrite <-resolve_exact. case_bool_decide as Hn; [naive_solver|]. split.
  - intros (s & Hs & [= <-])%bind_Some. by split_and!.
  - intros (_ & Ha & Hs). apply bind_Some. eexists. split; [done|]. by rewrite <-Ha; destruct n.
Qed.

(** A path prefix matches by where paths lead.  A path matches exactly when
    neither text holds a NUL, both are absolute or both relative, and, walked
    from any directory, the prefix ends in a directory below it and the path
    ends at or below that one, never climbing out of where it started: no
    spelling with [..], [.] or repeated slashes matches from outside, and none
    that stays below its start is refused from inside. *)
Theorem path_prefix_exact prefix path : path_matches prefix path = true <->
  nul ∉ prefix /\ nul ∉ path /\ starts_with slash prefix = starts_with slash path
  /\ exists names below, leads_to (split_char slash prefix) names
                       /\ leads_to (split_char slash path) (below ++ names).
Proof.
  unfold path_matches. split.
  - destruct (normalise prefix) as [p|] eqn:Hp; [|done]. destruct (normalise path) as [q|] eqn:Hq; [|done].
    apply normalise_Some in Hp as (Hn & Ha & Hp). apply normalise_Some in Hq as (Hn' & Ha' & Hq).
    rewrite andb_true_iff, eqb_true_iff, is_prefix_spec. intros [Hab [r Hr]].
    split_and!; [done|done|congruence|]. exists (reverse (segments p)), (reverse r).
    split; [done|]. by rewrite <-reverse_app, <-Hr.
  - intros (Hn & Hn' & Ha & names & below & Hp & Hq).
    rewrite (proj2 (normalise_Some prefix (mk_normal (starts_with slash prefix) (reverse names))));
      [|simpl; by rewrite reverse_involutive].
    rewrite (proj2 (normalise_Some path (mk_normal (starts_with slash path) (reverse (below ++ names)))));
      [|simpl; by rewrite reverse_involutive].
    simpl. rewrite andb_true_iff, eqb_true_iff, is_prefix_spec. split; [done|].
    exists (reverse below). apply reverse_app.
Qed.

(** ** What a mandate can come to *)

Section mandates.
Context {V Operator : Type} `{EqDecision V, JsonView V, TermsCodec V Operator, !TermsLaws}.
Local Open Scope Z_scope.
Abbreviation StandingAuthority := (StandingAuthority (V:=V) (Operator:=Operator)).

Inductive Op :=
| OIssue (a : StandingAuthority)
| ODraw (id : str) (key : EffectKey) (amount : Spend) (now : Z)
| ORevoke (id reason : str) (now : Z).
Definition apply_op (st : State) (o : Op) : State :=
  match o with
  | OIssue a => (issue st a).1
  | ODraw id key amount now => (draw st id key amount now).1
  | ORevoke id reason now => (revoke st id reason now).1
  end.
Definition apply_ops (st : State) (os : list Op) : State := foldl apply_op st os.

(** The [u64]s and [u32]s an operation carries. *)
Definition spend_ok (s : Spend) : Prop := u64_ok (tokens s) /\ u64_ok (minor_units s).
Definition op_ok (o : Op) : Prop :=
  match o with
  | OIssue a => spend_ok (ceiling a) /\ (forall n, max_draws a = Some n -> u32_ok n)
  | ODraw _ _ amount _ => spend_ok amount
  | ORevoke _ _ _ => True
  end.

(** What the receipts of one authority add up to, without saturation. *)
Definition share (f : Spend -> Z) (id : str) (k : str * EffectKey) (r : Spend * Spend * Z) : Z :=
  if decide (k.1 = id) then f r.1.1 else 0.
Definition receipted (f : Spend -> Z) (id : str) (rs : gmap (str * EffectKey) (Spend * Spend * Z)) : Z :=
  map_fold (fun k r acc => share f id k r + acc) 0 rs.
Definition one (_ : Spend) : Z := 1.

Lemma receipted_empty f id : receipted f id ∅ = 0.
Proof. apply map_fold_empty. Qed.
Lemma receipted_insert f id k r rs : rs !! k = None ->
  receipted f id (<[k := r]> rs) = share f id k r + receipted f id rs.
Proof. intros Hk. unfold receipted. rewrite map_fold_insert_L; [done|intros; lia|done]. Qed.
Lemma receipted_none f id rs : (forall key, rs !! (id, key) = None) -> receipted f id rs = 0.
Proof.
  induction rs as [|k r rs Hk IH] using map_ind; intros Hn; [apply receipted_empty|].
  rewrite receipted_insert by done. unfold share. case_decide as Hd.
  - destruct k as [id' key]. simpl in Hd. subst. specialize (Hn key). by rewrite lookup_insert_eq in Hn.
  - rewrite IH; [lia|]. intros key. specialize (Hn key). apply lookup_insert_None in Hn. apply Hn.
Qed.

(** One authority's row beside its receipts, after [n] operations. *)
Record row_ok (n : nat) (st : State) (id raw : str) (a : StandingAuthority) (b : Balance) : Prop := {
  ro_raw : terms st !! id = Some raw;
  ro_read : from_json raw = Ok a;
  ro_balance : balance st !! id = Some b;
  ro_terms : sa_id a = id /\ spend_ok (ceiling a) /\ (forall m, max_draws a = Some m -> u32_ok m);
  ro_tokens : tokens (b_drawn b) = receipted tokens id (receipts st) /\ 0 <= tokens (b_drawn b) <= tokens (ceiling a);
  ro_minor : minor_units (b_drawn b) = receipted minor_units id (receipts st)
             /\ 0 <= minor_units (b_drawn b) <= minor_units (ceiling a);
  ro_draws : b_draws b = receipted one id (receipts st) /\ 0 <= b_draws b <= Z.of_nat n;
  ro_max : forall m, max_draws a = Some m -> b_draws b <= m;
}.
Record state_ok (n : nat) (st : State) : Prop := {
  so_rows id raw : terms st !! id = Some raw -> exists a b, row_ok n st id raw a b;
  so_balance id : is_Some (balance st !! id) -> is_Some (terms st !! id);
  so_receipts id key : is_Some (receipts st !! (id, key)) -> is_Some (terms st !! id);
}.

Lemma permits_Ok (a : StandingAuthority) amount drawn taken revoked now r :
  permits a amount drawn taken revoked now = Ok r <->
  r = left_of (ceiling a) drawn /\ revoked = None
  /\ (forall t, expires_at a = Some t -> now < t)
  /\ (forall m, max_draws a = Some m -> taken < m)
  /\ tokens amount <= tokens r /\ minor_units amount <= minor_units r.
Proof.
  unfold permits. rewrite !seq_ok.
  split.
  - intros (Hr & He & Hd & Hx & [= <-]). rewrite ensure_ok, negb_true_iff, orb_false_iff, !Z.ltb_ge in Hx.
    split_and!; try tauto; [by destruct revoked| |].
    + intros t Ht. rewrite Ht, ensure_ok, negb_true_iff, Z.leb_gt in He. lia.
    + intros m Hm. rewrite Hm, ensure_ok, negb_true_iff, Z.leb_gt in Hd. lia.
  - intros (-> & -> & He & Hd & Ht & Hm). split_and!; [done|..|done].
    + destruct (expires_at a) as [t|]; [|done]. rewrite ensure_ok, negb_true_iff, Z.leb_gt. by apply He.
    + destruct (max_draws a) as [m|]; [|done]. rewrite ensure_ok, negb_true_iff, Z.leb_gt. by apply Hd.
    + rewrite ensure_ok, negb_true_iff, orb_false_iff, !Z.ltb_ge. done.
Qed.

Lemma draw_cases st id key amount now st' r : draw st id key amount now = (st', r) ->
  (st' = st /\ (forall d, r = Ok d -> is_Some (receipts st !! (id, key))))
  \/ exists raw (a : StandingAuthority) rem, let b := balance_of st id in
      receipts st !! (id, key) = None /\ terms st !! id = Some raw /\ from_json raw = Ok a
      /\ permits a amount (b_drawn b) (b_draws b) (if b_revoked b then Some (b_reason b) else None) now = Ok rem
      /\ st' = mk_state (terms st)
           (<[id := mk_balance (Budget.plus (b_drawn b) amount) (wrap_u32 (b_draws b + 1)) false 0 []]> (balance st))
           (<[(id, key) := (amount, left_of rem amount, wrap_u32 (b_draws b + 1))]> (receipts st))
      /\ r = Ok (mk_drawn id amount (left_of rem amount) (wrap_u32 (b_draws b + 1))).
Proof.
  unfold draw. destruct (receipts st !! (id, key)) as [[[]]|] eqn:Hrc; [intros [= <- <-]; left; split; [done|by eexists]|].
  destruct (terms st !! id) as [raw|] eqn:Ht; [|intros [= <- <-]; by left].
  destruct (from_json raw) as [a|] eqn:Hj; [|intros [= <- <-]; by left].
  destruct (permits a amount _ _ _ now) as [rem|] eqn:Hp; [|intros [= <- <-]; by left].
  intros [= <- <-]. right. by exists raw, a, rem.
Qed.

Lemma issue_cases st (a : StandingAuthority) :
  (issue st a).1 = st \/ exists t, to_canon a = Ok t /\ terms st !! sa_id a = None
    /\ (issue st a).1 = mk_state (<[sa_id a := t]> (terms st)) (<[sa_id a := no_balance]> (balance st)) (receipts st).
Proof.
  unfold issue. destruct (validate a); [|by left]. destruct (to_canon a) as [raw|]; [|by left].
  destruct (terms st !! sa_id a) eqn:Ht; [by left|]. right. by eexists.
Qed.

Lemma row_ok_mono n st id raw a b : row_ok n st id raw a b -> row_ok (S n) st id raw a b.
Proof. intros []. split; try done. lia. Qed.
Lemma state_ok_mono n st : state_ok n st -> state_ok (S n) st.
Proof.
  intros [Hr Hb Hc]. split; [|done|done]. intros id raw Ht. destruct (Hr id raw Ht) as (a & b & Hrow).
  exists a, b. by apply row_ok_mono.
Qed.

(** Another authority's row. *)
Lemma row_ok_other n st st' id raw a b : row_ok n st id raw a b ->
  terms st' !! id = terms st !! id -> balance st' !! id = balance st !! id ->
  (forall f, receipted f id (receipts st') = receipted f id (receipts st)) -> row_ok n st' id raw a b.
Proof. intros [] Ht Hb Hr. split; rewrite ?Ht, ?Hb, ?Hr; done. Qed.

Lemma draw_row n st id key amount now raw (a : StandingAuthority) b rem :
  row_ok n st id raw a b -> (Z.of_nat n < u32_max) -> spend_ok amount -> receipts st !! (id, key) = None ->
  permits a amount (b_drawn b) (b_draws b) (if b_revoked b then Some (b_reason b) else None) now = Ok rem ->
  let b' := mk_balance (Budget.plus (b_drawn b) amount) (wrap_u32 (b_draws b + 1)) false 0 [] in
  row_ok (S n) (mk_state (terms st) (<[id := b']> (balance st))
    (<[(id, key) := (amount, left_of rem amount, wrap_u32 (b_draws b + 1))]> (receipts st))) id raw a b'.
Proof.
  intros [Hraw Hread Hbal (Hid & [Hct Hcm] & Hmd) [Ht Htr] [Hm Hmr] [Hd Hdr] Hmax] Hn [[Hat _] [Ham _]] Hk
    (-> & _ & _ & Hdraws & Hlt & Hlm)%permits_Ok b'.
  unfold left_of in Hlt, Hlm. simpl in Hlt, Hlm. unfold sat_sub in *. destruct Hct, Hcm.
  assert (wrap_u32 (b_draws b + 1) = b_draws b + 1) as Hw by (unfold wrap_u32; apply Z.mod_small; lia).
  assert (forall f, receipted f id (<[(id, key) := (amount, left_of (left_of (ceiling a) (b_drawn b)) amount,
    wrap_u32 (b_draws b + 1))]> (receipts st)) = f amount + receipted f id (receipts st)) as Hsum.
  { intros f. rewrite receipted_insert by done. unfold share. by rewrite decide_True. }
  split; simpl; rewrite ?Hsum, ?Hw, ?lookup_insert_eq; unfold one; try done.
  - unfold sat_add. lia.
  - unfold sat_add. lia.
  - unfold one in Hd. lia.
  - intros m Hm'. specialize (Hdraws m Hm'). lia.
Qed.

Lemma op_state_ok n st o : state_ok n st -> op_ok o -> Z.of_nat n < u32_max -> state_ok (S n) (apply_op st o).
Proof.
  intros Hst Ho Hn. destruct o as [a|id key amount now|id reason now]; simpl.
  - destruct (issue_cases st a) as [->|(t & Hc & Ht & ->)]; [by apply state_ok_mono|].
    destruct Hst as [Hr Hb Hrc]. split; simpl.
    + intros id raw Hl. destruct (decide (id = sa_id a)) as [->|Hne].
      * rewrite lookup_insert_eq in Hl. injection Hl as <-. exists a, no_balance.
        destruct Ho as [Hce Hmd]. pose proof Hce as [[] []].
        assert (forall f, receipted f (sa_id a) (receipts st) = 0) as Hz.
        { intros f. apply receipted_none. intros key. apply eq_None_not_Some. intros Hs%Hrc. rewrite Ht in Hs. by destruct Hs. }
        split; simpl; rewrite ?Hz, ?lookup_insert_eq; try done; [by apply canon_read|].
        intros m Hm. destruct (Hmd m Hm). lia.
      * rewrite lookup_insert_ne in Hl by done. destruct (Hr id raw Hl) as (a' & b & Hrow). exists a', b.
        apply row_ok_mono. eapply row_ok_other; [done|..]; simpl; by rewrite ?lookup_insert_ne.
    + intros id. destruct (decide (id = sa_id a)) as [->|Hne]; [by rewrite !lookup_insert_eq|].
      rewrite !lookup_insert_ne by done. apply Hb.
    + intros id key Hs%Hrc. destruct (decide (id = sa_id a)) as [->|Hne]; [by rewrite lookup_insert_eq|].
      by rewrite lookup_insert_ne.
  - destruct (draw st id key amount now) as [st' r] eqn:Hd. simpl.
    apply draw_cases in Hd as [[-> _]|(raw & a & rem & Hk & Ht & Hj & Hp & -> & _)]; [by apply state_ok_mono|].
    destruct Hst as [Hr Hb Hrc]. split; simpl.
    + intros id' raw' Hl. destruct (Hr id' raw' Hl) as (a' & b & Hrow). destruct (decide (id' = id)) as [->|Hne].
      * assert (a' = a /\ raw' = raw) as [-> ->] by (destruct Hrow; split; congruence).
        assert (balance_of st id = b) as Hbal by (unfold balance_of; by rewrite (ro_balance _ _ _ _ _ _ Hrow)).
        rewrite Hbal in Hp |- *. eexists a, _. by eapply draw_row.
      * exists a', b. apply row_ok_mono. eapply row_ok_other; [done|done|simpl; by rewrite lookup_insert_ne|].
        intros f. simpl. rewrite receipted_insert by done. unfold share. rewrite decide_False by done. done.
    + intros id' Hs. apply lookup_insert_is_Some in Hs as [<-|[_ Hs]]; [by rewrite Ht|by apply Hb].
    + intros id' key' Hs. apply lookup_insert_is_Some in Hs as [[= <- <-]|[_ Hs]]; [by rewrite Ht|by eapply Hrc].
  - unfold revoke. destruct (balance st !! id) as [b|] eqn:Hbal; [|by apply state_ok_mono].
    destruct (b_revoked b); [by apply state_ok_mono|]. destruct Hst as [Hr Hb Hrc]. split; simpl; [|..|done].
    + intros id' raw Hl. destruct (Hr id' raw Hl) as (a' & b' & Hrow). destruct (decide (id' = id)) as [->|Hne].
      * apply row_ok_mono in Hrow as []. simplify_eq. eexists a', _. split; simpl; rewrite ?lookup_insert_eq; done.
      * exists a', b'. apply row_ok_mono. eapply row_ok_other; [done|done|simpl; by rewrite lookup_insert_ne|done].
    + intros id' Hs. apply lookup_insert_is_Some in Hs as [<-|[_ Hs]]; [|by apply Hb]. apply Hb. by rewrite Hbal.
Qed.

Lemma apply_ops_ok os : forall n st, state_ok n st -> Forall op_ok os -> Z.of_nat (n + length os) <= u32_max ->
  state_ok (n + length os) (apply_ops st os).
Proof.
  induction os as [|o os IH]; intros n st Hst Hok Hn; simpl in *; [by rewrite Nat.add_0_r|].
  apply Forall_cons in Hok as [Ho Hok]. rewrite Nat.add_succ_r in Hn |- *.
  apply (IH (S n)); [|done|done]. apply op_state_ok; [done|done|lia].
Qed.

(** C39. A mandate is never overdrawn.  After any sequence of issues, draws and
    revocations, in any order, with any keys repeated, what an authority reports
    as drawn is what its receipts add up to, in both units, and at most its
    ceiling; the draws it counts are its receipts, at most as many as it
    permits; and its terms are the ones first issued under its id. *)
Theorem mandate_bounded os id s :
  Forall op_ok os -> Z.of_nat (length os) <= u32_max ->
  state (apply_ops empty_state os) id = Ok (Some s) ->
  let rs := receipts (apply_ops empty_state os) in
  sa_id (as_authority s) = id
  /\ tokens (as_drawn s) = receipted tokens id rs /\ receipted tokens id rs <= tokens (ceiling (as_authority s))
  /\ minor_units (as_drawn s) = receipted minor_units id rs /\ receipted minor_units id rs <= minor_units (ceiling (as_authority s))
  /\ as_draws s = receipted one id rs
  /\ (forall m, max_draws (as_authority s) = Some m -> receipted one id rs <= m).
Proof.
  intros Hok Hn Hs rs. assert (state_ok 0 empty_state) as H0' by by (split; [done|intros ? []|intros ?? []]).
  pose proof (apply_ops_ok os 0 _ H0' Hok Hn) as [Hr _ _]. unfold state in Hs.
  destruct (terms (apply_ops empty_state os) !! id) as [raw|] eqn:Ht; [|done].
  destruct (Hr id raw Ht) as (a & b & []). apply result_bind_ok in Hs as (s' & Hs & [= <-]). unfold state_of in Hs.
  rewrite ro_read0 in Hs. injection Hs as <-. unfold balance_of. rewrite ro_balance0. simpl in *. subst rs.
  destruct ro_terms0, ro_tokens0, ro_minor0, ro_draws0. split_and!; try done; try lia.
  intros m Hm. specialize (ro_max0 m Hm). lia.
Qed.

(** ** What has been drawn, and what has been revoked *)

Lemma receipts_stay st o k r : receipts st !! k = Some r -> receipts (apply_op st o) !! k = Some r.
Proof.
  intros Hk. destruct o as [a|id key amount now|id reason now]; simpl.
  - by destruct (issue_cases st a) as [->|(t & _ & _ & ->)].
  - destruct (draw st id key amount now) as [st' x] eqn:Hd.
    apply draw_cases in Hd as [[-> _]|(raw & a & rem & Hn & _ & _ & _ & -> & _)]; [done|]. simpl.
    rewrite lookup_insert_ne; [done|]. intros <-. congruence.
  - unfold revoke. by destruct (balance st !! id) as [b|]; [destruct (b_revoked b)|].
Qed.
Lemma receipts_stay_all os k r : forall st, receipts st !! k = Some r -> receipts (apply_ops st os) !! k = Some r.
Proof. induction os as [|o os IH]; intros st Hk; simpl; [done|]. by apply IH, receipts_stay. Qed.

Definition withdrawn (id : str) (st : State) : Prop :=
  is_Some (terms st !! id) /\ exists b, balance st !! id = Some b /\ b_revoked b = true.

Lemma withdrawn_stays st o id : withdrawn id st ->
  withdrawn id (apply_op st o) /\ forall key, receipts (apply_op st o) !! (id, key) = receipts st !! (id, key).
Proof.
  intros [Ht (b & Hb & Hrv)]. destruct o as [a|id' key amount now|id' reason now]; simpl.
  - destruct (issue_cases st a) as [->|(t & _ & Hn & ->)]; [by split; [split; [|exists b]|]|].
    assert (id <> sa_id a) by (intros ->; rewrite Hn in Ht; by destruct Ht).
    split; [|done]. split; simpl; [by rewrite lookup_insert_ne|]. exists b. by rewrite lookup_insert_ne.
  - destruct (draw st id' key amount now) as [st' x] eqn:Hd.
    apply draw_cases in Hd as [[-> _]|(raw & a & rem & Hn & _ & _ & Hp & -> & _)]; [by split; [split; [|exists b]|]|].
    assert (id <> id') as Hne.
    { intros ->. unfold balance_of in Hp. rewrite Hb in Hp. simpl in Hp. rewrite Hrv in Hp.
      apply permits_Ok in Hp as (_ & [=] & _). }
    split; [|intros k; simpl; rewrite lookup_insert_ne; [done|congruence]].
    split; [done|]. exists b. simpl. by rewrite lookup_insert_ne.
  - unfold revoke. destruct (balance st !! id') as [b'|] eqn:Hb'; [|by split; [split; [|exists b]|]].
    destruct (b_revoked b') eqn:Hrv'; [by split; [split; [|exists b]|]|].
    assert (id <> id') by congruence. split; [|done]. split; [done|]. exists b. simpl. by rewrite lookup_insert_ne.
Qed.

(** A draw is answered once and a revocation is final.  Repeating a draw
    that succeeded, with whatever amount, at whatever later time and after
    whatever else happened, the authority's revocation included, returns the
    first receipt and changes nothing; and once an issued authority is revoked
    no operation adds a receipt of it again. *)
Theorem draw_once st id key amount now st' d os :
  draw st id key amount now = (st', Ok d) ->
  (forall amount' now', draw (apply_ops st' os) id key amount' now' = (apply_ops st' os, Ok d))
  /\ (forall reason at_ st'', is_Some (terms st' !! id) -> revoke st' id reason at_ = (st'', Ok tt) ->
       forall key', receipts (apply_ops st'' os) !! (id, key') = receipts st' !! (id, key')).
Proof.
  intros Hd. assert (exists r, receipts st' !! (id, key) = Some r /\ d = mk_drawn id r.1.1 r.1.2 r.2) as ([[t l] n] & Hr & ->).
  { pose proof Hd as Hd'. unfold draw in Hd'. destruct (receipts st !! (id, key)) as [[[t l] n]|] eqn:Hr.
    - injection Hd' as <- <-. by exists (t, l, n).
    - apply draw_cases in Hd as [[-> Hs]|(raw & a & rem & _ & _ & _ & _ & -> & [= ->])].
      + destruct (Hs d eq_refl). congruence.
      + eexists. simpl. by rewrite lookup_insert_eq. }
  split.
  - intros amount' now'. unfold draw. by rewrite (receipts_stay_all os _ _ _ Hr).
  - intros reason at_ st'' Ht Hv key'.
    assert (withdrawn id st'' /\ receipts st'' = receipts st') as [Hw <-].
    { unfold revoke in Hv. destruct (balance st' !! id) as [b|] eqn:Hb; [|done].
      destruct (b_revoked b) eqn:Hrv; injection Hv as <-; (split; [|done]); (split; [done|]); [by exists b|].
      eexists. simpl. by rewrite lookup_insert_eq. }
    clear -Hw. revert st'' Hw. induction os as [|o os IH]; intros st Hw; simpl; [done|].
    destruct (withdrawn_stays st o id Hw) as [Hw' <-]. by apply IH.
Qed.
End mandates.

(** ** A mandate of 500, three draws *)

Module AuthorityWitness.
Import JsonModel.
Local Open Scope Z_scope.
#[local] Instance key_hash : Sha256 := toy_hash.
#[local] Instance view : JsonView json := {|
  at_pointer := pointer;
  as_str _ := None;
  as_array v := match v with JArr vs => Some vs | _ => None end;
|}.
#[local] Instance matcher_eq : EqDecision (Matcher (V:=json)).
Proof. solve_decision. Defined.
#[local] Instance field_eq : EqDecision (FieldMatch (V:=json)).
Proof. solve_decision. Defined.
#[local] Instance rule_eq : EqDecision (ApprovalRule (V:=json)).
Proof. solve_decision. Defined.
#[local] Instance authority_eq : EqDecision (StandingAuthority (V:=json) (Operator:=unit)).
Proof. solve_decision. Defined.

Definition mandate : StandingAuthority (V:=json) (Operator:=unit) :=
  mk_authority (lit "mandate-42") HolderTenant (lit "approval:SET-42") (spend_money 500) (Some 3) (Some 900) [] None.
#[local] Instance codec : TermsCodec (V:=json) (Operator:=unit) := {|
  to_canon a := if decide (a = mandate) then Ok (lit "m42") else Err (lit "no float");
  from_json t := if decide (t = lit "m42") then Ok mandate else Err (lit "expected value");
|}.
#[local] Instance codec_laws : TermsLaws (V:=json) (Operator:=unit).
Proof. split. intros a t. simpl. case_decide; [|done]. intros [= <-]. by subst. Qed.

Definition key (n : Byte.byte) : EffectKey := chain ZERO [n].
Definition id42 : str := lit "mandate-42".
Definition sek (amount : Z) (n : Byte.byte) (now : Z) : Op (V:=json) (Operator:=unit) :=
  ODraw id42 (key n) (spend_money amount) now.
(** Issued; 200 drawn, asked again, then refused 400 and drawn 300, then
    withdrawn and refused. *)
Definition history : list Op :=
  [OIssue mandate; sek 200 "001"%byte 10; sek 250 "001"%byte 20; sek 400 "002"%byte 30; sek 300 "003"%byte 40;
   ORevoke id42 (lit "withdrawn") 50; sek 0 "004"%byte 60; sek 200 "001"%byte 70].

Lemma ops_well_formed : Forall op_ok history.
Proof.
  unfold history. rewrite !Forall_cons. split_and!; try exact I; try (split; split; done).
  - split; [split; split; done|]. intros m Hm. by injection Hm as <-.
  - by apply Forall_nil.
Qed.

Definition ended : AuthorityState :=
  mk_authority_state mandate (spend_money 500) 2 (Some (mk_revocation 50 (lit "withdrawn"))).
Lemma mandate_bounded_witness :
  state (apply_ops empty_state history) id42 = Ok (Some ended)
  /\ 500 = receipted minor_units id42 (receipts (apply_ops empty_state history)).
Proof.
  assert (state (apply_ops empty_state history) id42 = Ok (Some ended)) as Hs by (vm_compute; reflexivity).
  split; [exact Hs|].
  assert (Z.of_nat (length history) <= u32_max) as Hn by done.
  destruct (mandate_bounded history id42 ended ops_well_formed Hn Hs) as (_ & _ & _ & Hm & _). exact Hm.
Defined.

Definition issued : State := (issue empty_state mandate).1.
Definition first : State * result AuthorityError Drawn := draw issued id42 (key "001"%byte) (spend_money 200) 10.
Definition receipt : Drawn := mk_drawn id42 (spend_money 200) (spend_money 300) 1.
Lemma draw_once_witness :
  first.2 = Ok receipt
  /\ draw (apply_ops first.1 history) id42 (key "001"%byte) (spend_money 999) 2000 = (apply_ops first.1 history, Ok receipt)
  /\ receipts (apply_ops (revoke first.1 id42 (lit "withdrawn") 50).1 history) !! (id42, key "003"%byte) = None.
Proof.
  assert (draw issued id42 (key "001"%byte) (spend_money 200) 10 = (first.1, Ok receipt)) as Hd by (vm_compute; reflexivity).
  split; [by vm_compute|].
  destruct (draw_once issued id42 (key "001"%byte) (spend_money 200) 10 first.1 receipt history Hd) as [Ha Hr].
  split; [apply Ha|].
  rewrite (Hr (lit "withdrawn") 50 (revoke first.1 id42 (lit "withdrawn") 50).1); [by vm_compute|by eexists|by vm_compute].
Defined.
End AuthorityWitness.
