(* ===== verification/Chain.v ===== *)
(** * The hash chain ([src/src/journal/record.rs], [journal/upcast.rs])

    A record's body, the bytes it was written as, and the links that chain them:
    sealing, reading back through an upcaster, and verifying a history.  Of a
    record's kind the constructors below keep what the store reads; every other
    kind is [OtherKind], and the fields no one here looks at are [rest].  JSON
    and its canonical form are the class [RecordCodec]. *)

From S2P Require Import Prelude Digest EffectKey Panel Text.

(** ** What a record says *)

Abbreviation RunId := str.
Abbreviation Epoch := Z.

Record AgentIdentity := mk_agent {
  ag_name : str;
  ag_version : str;
  ag_digest : Digest;
  ag_publisher : option str;
}.
Inductive SuspendReason :=
| AwaitingEvent (kind : str) (correlation : list (str * str)) (until : Z)
| AwaitingTime (until : Z).
Definition until (r : SuspendReason) : Z :=
  match r with AwaitingEvent _ _ t | AwaitingTime t => t end.

(** What established the name on an operator act, and the act's name. *)
Inductive Basis := Authenticated | Asserted | Connected.
Record Operator := mk_operator { actor : str; basis : Basis }.
#[export] Instance basis_eq_dec : EqDecision Basis.
Proof. solve_decision. Defined.
#[export] Instance basis_countable : Countable Basis.
Proof.
  apply (inj_countable' (fun b => match b with Authenticated => 0 | Asserted => 1 | Connected => 2 end)
    (fun n => match n with 0 => Authenticated | 1 => Asserted | _ => Connected end)). by intros [].
Defined.

Record KeySignature := mk_signature { key_id : str; sig_bytes : bytes }.
(** [Signer], and [Verifier::verify]. *)
Record Signer := mk_signer { signer_key : str; sign : Digest -> bytes }.
Definition signature_over (s : Signer) (hash : Digest) : KeySignature := mk_signature (signer_key s) (sign s hash).
Abbreviation Verifier := (str -> Digest -> bytes -> bool).

Definition DOMAIN_RECORD : str := lit "io.github.hupe1980.agentplane/record/v1".

Inductive StoreError :=
| Backend (detail : str)
| NotFound (what : str)
| Corrupt (at_seq : Z) (detail : str)
| Encoding (detail : str)
| RecordTooLarge (size limit : Z)
| RecordTooDeep (depth limit : Z)
| UnknownRecordVersion (kind : str) (version reads : Z)
| UnreadableRecordShape (kind : str) (version : Z) (detail : str)
| Fenced (run : RunId) (held current : Epoch)
| RunSealed (run : RunId) (outcome : str)
| DuplicateEffect (key : EffectKey)
| DuplicateAdmission (key : str) (run : RunId)
| LeaseHeld (run : RunId) (owner : str) (epoch : Epoch) (remaining : Z)
| LeaseNotHeld (run : RunId) (epoch : Epoch).

(** ** How deep JSON bytes nest *)

Definition quote : Byte.byte := x22.
Definition backslash : Byte.byte := x5c.
Definition opens (b : Byte.byte) : bool := bool_decide (b = x5b) || bool_decide (b = x7b).
Definition closes (b : Byte.byte) : bool := bool_decide (b = x5d) || bool_decide (b = x7d).

Record Scan := mk_scan { depth : nat; deepest : nat; in_string : bool; escaped : bool }.
Definition scan_byte (s : Scan) (b : Byte.byte) : Scan :=
  if in_string s then
    if escaped s then mk_scan (depth s) (deepest s) true false
    else if bool_decide (b = backslash) then mk_scan (depth s) (deepest s) true true
    else if bool_decide (b = quote) then mk_scan (depth s) (deepest s) false false
    else s
  else if bool_decide (b = quote) then mk_scan (depth s) (deepest s) true (escaped s)
  else if opens b then mk_scan (S (depth s)) (Nat.max (deepest s) (S (depth s))) false (escaped s)
  else if closes b then mk_scan (pred (depth s)) (deepest s) false (escaped s)
  else s.
Definition nesting_depth (b : bytes) : nat := deepest (foldl scan_byte (mk_scan 0 0 false false) b).

Section chain.
Context {Num Rest J : Type} `{Sha256}.
Abbreviation Score := (@Panel.Score Num).

Inductive RecordKind :=
| RunAdmitted (capability : str) (governed_by : option AgentIdentity) (idempotency_key : option str)
| RunSuspended (reason : SuspendReason)
| EffectStarted
| Assessed (of_ name : str) (value : Score) (by_ : Operator)
| RunConcluded (outcome : str)
| OtherKind (name : str).

Definition kind_str (k : RecordKind) : str :=
  match k with
  | RunAdmitted _ _ _ => lit "RunAdmitted"
  | RunSuspended _ => lit "RunSuspended"
  | EffectStarted => lit "EffectStarted"
  | Assessed _ _ _ _ => lit "Assessed"
  | RunConcluded _ => lit "RunConcluded"
  | OtherKind name => name
  end.
Definition version (_ : RecordKind) : Z := 1.

Record RecordBody := mk_body {
  seq : Z;
  run : RunId;
  case : option str;
  step : option StepId;
  phase : Phase;
  epoch : Epoch;
  v : Z;
  effect_key : option EffectKey;
  kind : RecordKind;
  rest : Rest;
}.

Record SealedRecord := mk_sealed {
  body : RecordBody;
  prev_hash : Digest;
  hash : Digest;
  signature : option KeySignature;
  raw : bytes;
}.
(** [Record::effect_key]. *)
Definition rec_key (r : SealedRecord) : option EffectKey := effect_key (body r).

(** ** The codec and the upcaster

    [to_canon] is [canon::to_bytes], [from_slice] and [from_value] are
    [serde_json]'s for a body, [position] its for the three fields [seal_at]
    reads, and the rest is what is asked of an untyped value. *)
Class RecordCodec := {
  to_canon : RecordBody -> result str bytes;
  from_slice : bytes -> result str RecordBody;
  position : bytes -> option (Z * Epoch * RunId);
  parse_value : bytes -> option J;
  from_value : J -> result str RecordBody;
  get : J -> str -> option J;
  as_text : J -> option str;
  as_u64 : J -> option Z;
}.
Context `{RecordCodec}.

Class CodecLaws : Prop := {
  canon_reads b x : to_canon b = Ok x -> from_slice x = Ok b;
  position_reads b x : from_slice x = Ok b -> position x = Some (seq b, epoch b, run b);
  kind_reads b x : from_slice x = Ok b ->
    exists j t, parse_value x = Some j /\ get j (lit "kind") = Some t /\ as_text t = Some (kind_str (kind b));
}.

Record Upcaster := mk_upcaster {
  current_version : str -> Z;
  upcast : str -> Z -> J -> result StoreError J;
}.
(** The upcaster this build ships. *)
Definition identity_upcaster : Upcaster := {|
  current_version _ := 1%Z;
  upcast kind version j := if bool_decide (version = 1%Z) then Ok j else Err (UnknownRecordVersion kind version 1);
|}.

Definition map_err {E E' T} (f : E -> E') (r : result E T) : result E' T :=
  match r with Ok x => Ok x | Err e => Err (f e) end.

Definition lift (up : Upcaster) (x : bytes) (kind : str) (version : Z) : result StoreError RecordBody :=
  written ← ok_or (parse_value x) (Encoding (lit "not json"));
  lifted ← upcast up kind version written;
  map_err Encoding (from_value lifted).
Definition version_claimed (x : bytes) : option (str * Z) :=
  value ← parse_value x;
  kind ← get value (lit "kind") ≫= as_text;
  version ← get value (lit "v") ≫= as_u64;
  if bool_decide (version <= u16_max)%Z then Some (kind, version) else None.
Definition unreadable (x : bytes) (parse : str) : StoreError :=
  match version_claimed x with
  | Some (kind, version) => UnreadableRecordShape kind version parse
  | None => Encoding parse
  end.
Definition read_through (up : Upcaster) (x : bytes) : result StoreError RecordBody :=
  match from_slice x with
  | Ok b => if bool_decide (v b = current_version up (kind_str (kind b))) then Ok b
            else lift up x (kind_str (kind b)) (v b)
  | Err parse =>
      match version_claimed x with
      | Some (kind, version) =>
          if bool_decide (version = current_version up kind) then Err (unreadable x parse)
          else lift up x kind version
      | None => Err (unreadable x parse)
      end
  end.

(** ** Sealing and reading back *)

Definition MAX_RECORD_BYTES : N := 2 ^ 20.
Definition MAX_RECORD_DEPTH : nat := 100.

(** [signing_hash(DOMAIN_RECORD, hash)]. *)
Definition record_signing_input (h : Digest) : Digest :=
  digest_of (str_bytes DOMAIN_RECORD ++ [x00] ++ as_bytes h).

Definition linked (b : RecordBody) (x : bytes) (prev : Digest) (signer : option Signer) :
    result StoreError SealedRecord :=
  ensure (bool_decide (N.of_nat (length x) <= MAX_RECORD_BYTES)%N)
    (RecordTooLarge (Z.of_nat (length x)) (Z.of_N MAX_RECORD_BYTES)) ;;
  ensure (nesting_depth x <=? MAX_RECORD_DEPTH)
    (RecordTooDeep (Z.of_nat (nesting_depth x)) (Z.of_nat MAX_RECORD_DEPTH)) ;;
  let h := chain prev x in
  Ok (mk_sealed b prev h ((fun s => signature_over s (record_signing_input h)) <$> signer) x).
Definition seal_signed (b : RecordBody) (prev : Digest) (signer : option Signer) : result StoreError SealedRecord :=
  x ← map_err Encoding (to_canon b);
  linked b x prev signer.
Definition seal_at (b : RecordBody) (written : option bytes) (prev : Digest) (signer : option Signer) :
    result StoreError SealedRecord :=
  match written with
  | None => seal_signed b prev signer
  | Some x =>
      if bool_decide (position x = Some (seq b, epoch b, run b)) then linked b x prev signer
      else Err (Corrupt (seq b) (lit "the written bytes do not name the position the store assigned"))
  end.

Definition from_stored_with (up : Upcaster) (x : bytes) (prev h : Digest) (s : option KeySignature) :
    result StoreError SealedRecord :=
  if decide (chain prev x = h) then
    b ← read_through up x;
    Ok (mk_sealed b prev h s x)
  else
    Err (Corrupt (default 0%Z (parse_value x ≫= fun j => get j (lit "seq") ≫= as_u64)) (lit "hash mismatch")).

(** ** Verifying a history *)

Fixpoint verify_loop (prev : Digest) (expect : Z) (rs : list SealedRecord) : result StoreError Digest :=
  match rs with
  | [] => Ok prev
  | r :: rs =>
      ensure (bool_decide (seq (body r) = expect)) (Corrupt (seq (body r)) (lit "sequence gap")) ;;
      ensure (bool_decide (prev_hash r = prev)) (Corrupt (seq (body r)) (lit "broken link")) ;;
      ensure (bool_decide (chain prev (raw r) = hash r)) (Corrupt (seq (body r)) (lit "hash does not cover the stored bytes")) ;;
      verify_loop (hash r) (expect + 1) rs
  end.
Definition verify_chain (rs : list SealedRecord) (from : Digest) : result StoreError Digest :=
  verify_loop from (match rs with [] => 1%Z | r :: _ => seq (body r) end) rs.

Fixpoint check_signatures (verifier : Verifier) (require_signature : bool) (rs : list SealedRecord) :
    result StoreError unit :=
  match rs with
  | [] => Ok tt
  | r :: rs =>
      (match signature r with
       | Some a => ensure (verifier (key_id a) (record_signing_input (hash r)) (sig_bytes a))
                     (Corrupt (seq (body r)) (lit "bad signature"))
       | None => ensure (negb require_signature) (Corrupt (seq (body r)) (lit "unsigned"))
       end) ;;
      check_signatures verifier require_signature rs
  end.
Definition verify_signed (rs : list SealedRecord) (from : Digest) (verifier : Verifier) (require_signature : bool) :
    result StoreError Digest :=
  head ← verify_chain rs from;
  check_signatures verifier require_signature rs ;;
  Ok head.

(** ** What the runtime hands the store *)

Record Append := mk_append {
  ap_run : RunId;
  ap_case : option str;
  ap_step : option StepId;
  ap_phase : Phase;
  ap_key : option EffectKey;
  ap_kind : RecordKind;
  ap_rest : Rest;
  ap_written : option bytes;
}.
Definition from_body (b : RecordBody) : Append :=
  mk_append (run b) (case b) (step b) (phase b) (effect_key b) (kind b) (rest b) None.
Definition restored (r : SealedRecord) : Append :=
  let a := from_body (body r) in
  mk_append (ap_run a) (ap_case a) (ap_step a) (ap_phase a) (ap_key a) (ap_kind a) (ap_rest a) (Some (raw r)).

Definition into_parts (a : Append) (s : Z) (e : Epoch) (up : Upcaster) :
    result StoreError (RecordBody * option bytes) :=
  let fields := mk_body s (ap_run a) (ap_case a) (ap_step a) (ap_phase a) e (version (ap_kind a)) (ap_key a)
                        (ap_kind a) (ap_rest a) in
  match ap_written a with
  | None => Ok (fields, None)
  | Some x =>
      b ← map_err (fun err => match err with
                              | UnknownRecordVersion _ _ _ => err
                              | _ => Corrupt s (lit "the written bytes handed to the store are not a record")
                              end) (read_through up x);
      if bool_decide (seq b = s) && bool_decide (epoch b = e) && bool_decide (run b = run fields)
      then Ok (b, Some x)
      else Err (Corrupt s (lit "the written bytes handed to the store name another position"))
  end.
End chain.

(** ** Nesting

    The bytes of a JSON text, as far as brackets and strings go: outside a
    string only brackets nest, and a string ends at the first quote that no
    backslash escapes. *)
Inductive string_body : bytes -> Prop :=
| sb_nil : string_body []
| sb_char b s : b <> quote -> b <> backslash -> string_body s -> string_body (b :: s)
| sb_escape b s : string_body s -> string_body (backslash :: b :: s).

Inductive nested : bytes -> nat -> Prop :=
| ne_nil : nested [] 0
| ne_plain b t d : b <> quote -> opens b = false -> closes b = false -> nested t d -> nested (b :: t) d
| ne_string s t d : string_body s -> nested t d -> nested (quote :: s ++ quote :: t) d
| ne_group o c inner t d d' : opens o = true -> closes c = true -> nested inner d -> nested t d' ->
    nested (o :: inner ++ c :: t) (Nat.max (S d) d').

Definition scan (s : Scan) (b : bytes) : Scan := foldl scan_byte s b.
Lemma scan_app s a b : scan s (a ++ b) = scan (scan s a) b.
Proof. apply foldl_app. Qed.

Lemma opens_not_quote b : opens b = true -> b <> quote.
Proof. by intros Ho ->. Qed.
Lemma closes_not_quote b : closes b = true -> b <> quote.
Proof. by intros Ho ->. Qed.
Lemma closes_not_opens b : closes b = true -> opens b = false.
Proof. unfold opens, closes. repeat case_bool_decide; naive_solver. Qed.

Lemma scan_string s : string_body s -> forall dp dd t,
  scan (mk_scan dp dd true false) (s ++ quote :: t) = scan (mk_scan dp dd false false) t.
Proof.
  induction 1 as [|b s Hq Hb _ IH|b s _ IH]; intros dp dd t; [done|..]; unfold scan in *; simpl.
  - unfold scan_byte at 2. simpl. rewrite !bool_decide_false by done. apply IH.
  - unfold scan_byte at 2 3. simpl. apply IH.
Qed.

Lemma scan_nested t d : nested t d -> forall dp dd, dp <= dd ->
  scan (mk_scan dp dd false false) t = mk_scan dp (Nat.max dd (dp + d)) false false.
Proof.
  induction 1 as [|b t d Hq Ho Hc _ IH|s t d Hs _ IH|o c inner t d d' Ho Hc _ IHi _ IHt]; intros dp dd Hd.
  - unfold scan; simpl. f_equal. lia.
  - change (scan ?s (b :: t)) with (scan (scan_byte s b) t). unfold scan_byte. simpl.
    rewrite bool_decide_false, Ho, Hc by done. by apply IH.
  - change (scan ?s (quote :: ?l)) with (scan (scan_byte s quote) l).
    change (scan_byte (mk_scan dp dd false false) quote) with (mk_scan dp dd true false).
    rewrite scan_string by done. by apply IH.
  - change (scan ?s (o :: ?l)) with (scan (scan_byte s o) l). unfold scan_byte at 1. simpl.
    rewrite bool_decide_false, Ho by by apply opens_not_quote. rewrite scan_app, IHi by lia.
    change (scan ?s (c :: t)) with (scan (scan_byte s c) t). unfold scan_byte at 1. simpl.
    rewrite bool_decide_false, closes_not_opens, Hc by first [done|by apply closes_not_quote].
    rewrite IHt by lia. f_equal. lia.
Qed.

(** The byte scan counts what a parser would: the levels of its input. *)
Lemma nesting_depth_exact t d : nested t d -> nesting_depth t = d.
Proof.
  intros Hn. unfold nesting_depth. change (foldl scan_byte ?s t) with (scan s t). rewrite (scan_nested t d) by done. done.
Qed.

(** ** Histories *)

Section histories.
Context {Num Rest J : Type} `{Sha256, RecordCodec (Num:=Num) (Rest:=Rest) (J:=J)}.
Abbreviation SealedRecord := (SealedRecord (Num:=Num) (Rest:=Rest)).
Implicit Types (r : SealedRecord) (rs : list SealedRecord).

(** What [prev_hash] links a record to, as hashed. *)
Definition link_input (r : SealedRecord) : bytes := as_bytes (prev_hash r) ++ raw r.
Definition unsigned (r : SealedRecord) : SealedRecord := mk_sealed (body r) (prev_hash r) (hash r) None (raw r).
(** Each body is what its bytes read as, which is how every record is read back. *)
Definition read_by (up : Upcaster) (rs : list SealedRecord) : Prop :=
  Forall (fun r => read_through up (raw r) = Ok (body r)) rs.

Lemma verify_loop_cons prev e r rs h : verify_loop prev e (r :: rs) = Ok h <->
  seq (body r) = e /\ prev_hash r = prev /\ hash r = chain prev (raw r) /\ verify_loop (hash r) (e + 1) rs = Ok h.
Proof.
  simpl. rewrite !seq_ok, !ensure_ok, !bool_decide_eq_true. naive_solver.
Qed.

Lemma verify_loop_app rs : forall prev e rs' h, verify_loop prev e (rs ++ rs') = Ok h <->
  exists p, verify_loop prev e rs = Ok p /\ verify_loop p (e + Z.of_nat (length rs)) rs' = Ok h.
Proof.
  induction rs as [|r rs IH]; intros prev e rs' h.
  - simpl. rewrite Z.add_0_r. split; [by exists prev|]. by intros (p & [= <-] & Hv).
  - rewrite <-app_comm_cons, verify_loop_cons, IH. setoid_rewrite verify_loop_cons.
    replace (e + Z.of_nat (length (r :: rs)))%Z with (e + 1 + Z.of_nat (length rs))%Z by (simpl; lia). naive_solver.
Qed.

Lemma verify_loop_snoc rs r prev e h : verify_loop prev e (rs ++ [r]) = Ok h <->
  verify_loop prev e rs = Ok (prev_hash r) /\ seq (body r) = (e + Z.of_nat (length rs))%Z
  /\ hash r = chain (prev_hash r) (raw r) /\ h = hash r.
Proof.
  rewrite verify_loop_app. setoid_rewrite verify_loop_cons. simpl. split.
  - intros (p & Hv & Hs & <- & Hh & [= <-]). done.
  - intros (Hv & Hs & Hh & ->). by exists (prev_hash r).
Qed.

Lemma verify_chain_loop r rs from : verify_chain (r :: rs) from = verify_loop from (seq (body r)) (r :: rs).
Proof. done. Qed.

Lemma loop_commits up (inputs : list bytes) rs : forall rs' from e h,
  collision_free inputs -> (link_input <$> rs) ⊆ inputs -> (link_input <$> rs') ⊆ inputs ->
  read_by up rs -> read_by up rs' -> rs <> [] -> rs' <> [] ->
  verify_loop from e rs = Ok h -> verify_loop from e rs' = Ok h -> unsigned <$> rs = unsigned <$> rs'.
Proof.
  induction rs as [|r rs IH] using rev_ind; [done|].
  intros rs' from e h Hcf Hin Hin' Hrd Hrd' _ Hne Hv Hv'.
  destruct rs' as [|r' rs' _] using rev_ind; [done|].
  rewrite fmap_app in Hin, Hin'. apply Forall_app in Hrd as [Hrd Hr], Hrd' as [Hrd' Hr'].
  rewrite Forall_singleton in Hr, Hr'.
  apply verify_loop_snoc in Hv as (Hv & Hs & Hh & ->), Hv' as (Hv' & Hs' & Hh' & Heq).
  assert (prev_hash r = prev_hash r' /\ raw r = raw r') as [Hp Hraw].
  { apply digest_app_inj, (collision_free_eq inputs); [done|..].
    - apply Hin. simpl. set_solver.
    - apply Hin'. simpl. set_solver.
    - change (chain (prev_hash r) (raw r) = chain (prev_hash r') (raw r')). congruence. }
  assert (body r = body r') as Hb by congruence.
  assert (length rs = length rs') as Hl by (rewrite Hb in Hs; lia).
  assert (unsigned r = unsigned r') as Hu.
  { unfold unsigned. rewrite Hb, Hp, Hraw, Heq. done. }
  rewrite !fmap_app. simpl. rewrite Hu. f_equal.
  destruct rs as [|r1 rs], rs' as [|r1' rs']; try done.
  apply (IH _ from e (prev_hash r)); try done; [set_solver..|congruence].
Qed.

(** C34. A head commits to the history.  Two histories that start at the same
    place, each read back from its own bytes and each passing [verify_chain] to
    the same head, agree in everything but signatures, or the hash collides on
    the links verified: after the fact nothing can be altered, removed, inserted
    or moved without the head changing. *)
Theorem chain_commits up rs rs' from h :
  read_by up rs -> read_by up rs' -> (seq ∘ body) <$> rs !! 0 = (seq ∘ body) <$> rs' !! 0 ->
  collision_free (link_input <$> (rs ++ rs')) ->
  verify_chain rs from = Ok h -> verify_chain rs' from = Ok h ->
  unsigned <$> rs = unsigned <$> rs'.
Proof.
  intros Hrd Hrd' Hs Hcf Hv Hv'. destruct rs as [|r rs], rs' as [|r' rs']; [done..|]. injection Hs as Hs.
  rewrite verify_chain_loop in Hv, Hv'. simpl in Hs. rewrite <-Hs in Hv'.
  eapply (loop_commits up); [exact Hcf|..]; try done; rewrite fmap_app; set_solver.
Qed.

Lemma verify_signed_ok rs from verifier req h : verify_signed rs from verifier req = Ok h <->
  verify_chain rs from = Ok h
  /\ Forall (fun r => match signature r with
                      | Some a => verifier (key_id a) (record_signing_input (hash r)) (sig_bytes a) = true
                      | None => req = false
                      end) rs.
Proof.
  assert (check_signatures verifier req rs = Ok tt <->
    Forall (fun r => match signature r with
                     | Some a => verifier (key_id a) (record_signing_input (hash r)) (sig_bytes a) = true
                     | None => req = false
                     end) rs) as <-.
  { clear. induction rs as [|r rs IH]; simpl; [by split|]. rewrite seq_ok, Forall_cons, IH.
    destruct (signature r); by rewrite ensure_ok, ?negb_true_iff. }
  unfold verify_signed. rewrite result_bind_ok. setoid_rewrite seq_ok. naive_solver.
Qed.

(** ** What is sealed reads back *)

Context `{!CodecLaws}.
(** The upcaster reads what this build writes. *)
Definition reads_current (up : Upcaster (J:=J)) : Prop := forall k : RecordKind (Num:=Num),
  current_version up (kind_str k) = version k.

Lemma identity_reads : reads_current identity_upcaster.
Proof. done. Qed.

Lemma linked_ok b x prev signer r : linked b x prev signer = Ok r <->
  (N.of_nat (length x) <= MAX_RECORD_BYTES)%N /\ nesting_depth x <= MAX_RECORD_DEPTH
  /\ r = mk_sealed b prev (chain prev x)
           ((fun s => signature_over s (record_signing_input (chain prev x))) <$> signer) x.
Proof.
  unfold linked. rewrite !seq_ok, !ensure_ok, bool_decide_eq_true, Nat.leb_le. naive_solver.
Qed.

Lemma seal_at_linked b w prev signer r : seal_at b w prev signer = Ok r ->
  exists x, linked b x prev signer = Ok r
    /\ match w with None => to_canon b = Ok x | Some x' => x = x' /\ position x = Some (seq b, epoch b, run b) end.
Proof.
  destruct w as [x|]; simpl.
  - case_bool_decide; [|done]. by exists x.
  - unfold seal_signed. intros (x & Hx & Hl)%result_bind_ok. exists x. split; [done|].
    by destruct (to_canon b); simplify_eq/=.
Qed.

Lemma into_parts_written a s e up b x : into_parts a s e up = Ok (b, Some x) ->
  read_through up x = Ok b /\ seq b = s /\ epoch b = e /\ run b = ap_run a.
Proof.
  unfold into_parts. destruct (ap_written a) as [y|]; [|done].
  intros (b' & Hb & Hk)%result_bind_ok. case_match eqn:Hc; [|done]. injection Hk as -> ->.
  rewrite !andb_true_iff, !bool_decide_eq_true in Hc. destruct Hc as [[? ?] ?]. split_and!; try done.
  by destruct (read_through up x); simplify_eq/=.
Qed.

(** A record materialized and sealed names its position, chains to [prev], and
    reads back as itself. *)
Lemma sealed_record up a s e prev signer b w r : reads_current up ->
  into_parts a s e up = Ok (b, w) -> seal_at b w prev signer = Ok r ->
  body r = b /\ prev_hash r = prev /\ hash r = chain prev (raw r) /\ read_through up (raw r) = Ok b
  /\ seq b = s /\ epoch b = e /\ run b = ap_run a
  /\ signature r = ((fun s => signature_over s (record_signing_input (hash r))) <$> signer)
  /\ (N.of_nat (length (raw r)) <= MAX_RECORD_BYTES)%N.
Proof.
  intros Hup Hp (x & (Hl & _ & ->)%linked_ok & Hw)%seal_at_linked. simpl. destruct w as [x'|].
  - destruct Hw as [-> _]. apply into_parts_written in Hp as (? & ? & ? & ?). by split_and!.
  - unfold into_parts in Hp. destruct (ap_written a); [by apply result_bind_ok in Hp as (? & _ & Hk); case_match|].
    injection Hp as <-. split_and!; try done. unfold read_through. rewrite (canon_reads _ _ Hw). simpl.
    rewrite bool_decide_true; [done|]. by rewrite Hup.
Qed.

Lemma from_stored_ok up x prev h sg r : from_stored_with up x prev h sg = Ok r <->
  chain prev x = h /\ exists b, read_through up x = Ok b /\ r = mk_sealed b prev h sg x.
Proof.
  unfold from_stored_with. destruct (decide _) as [Hc|Hc]; [|naive_solver].
  rewrite result_bind_ok. naive_solver.
Qed.
End histories.
