(* ===== verification/JournalRow.v ===== *)
(** * Journal rows ([Row] of [src/src/store/redb.rs])

    A record's columns as one value of the embedded store: the two links, the
    signature as one optional pair behind a flag byte, and the body, each
    variable part behind its length. *)

From S2P Require Import Prelude Digest EffectKey Text Chain.

(** ** Lengths and texts as bytes *)

(** [u32::from_le_bytes]. *)
Definition le_value (b : bytes) : N := foldr (fun c acc => (Byte.to_N c + 256 * acc)%N) 0%N b.

(** [String::from_utf8]: the well-formed byte sequences. *)
Definition byte_in (lo hi : N) (c : ascii) : bool := ((lo <=? code c) && (code c <=? hi))%N.
Definition tail_byte : ascii -> bool := byte_in 128 191.
Fixpoint utf8 (x : str) : bool :=
  match x with
  | [] => true
  | a :: x =>
      if byte_in 0 127 a then utf8 x else
      match x with
      | b :: x =>
          if byte_in 194 223 a then tail_byte b && utf8 x else
          match x with
          | c :: x =>
              if byte_in 224 239 a
              then (if (code a =? 224)%N then byte_in 160 191 b
                    else if (code a =? 237)%N then byte_in 128 159 b else tail_byte b)
                   && tail_byte c && utf8 x else
              match x with
              | d :: x =>
                  byte_in 240 244 a
                  && (if (code a =? 240)%N then byte_in 144 191 b
                      else if (code a =? 244)%N then byte_in 128 143 b else tail_byte b)
                  && tail_byte c && tail_byte d && utf8 x
              | [] => false
              end
          | [] => false
          end
      | [] => false
      end
  end.

(** [str::from_utf8] of bytes. *)
Definition from_utf8 (b : bytes) : option str :=
  let x := ascii_of_byte <$> b in if utf8 x then Some x else None.

(** [Digest::from_bytes] of a slice of the right length. *)
Definition to_digest (b : bytes) : option Digest :=
  match decide (bool_decide (length b = 32)) with left Hb => Some (mk_digest b Hb) | right _ => None end.

(** ** Rows *)

Record Row := mk_row {
  row_body : bytes;
  row_prev : Digest;
  row_hash : Digest;
  row_key : option str;
  row_sig : option bytes;
}.

Definition push_bytes (out b : bytes) : result StoreError bytes :=
  if bool_decide (N.of_nat (length b) < 2 ^ 32)%N then Ok (out ++ le_bytes 4 (N.of_nat (length b)) ++ b)
  else Err (Backend (lit "a row field has no u32 length")).

Definition encode (r : Row) : result StoreError bytes :=
  let out := as_bytes (row_prev r) ++ as_bytes (row_hash r) in
  out ← match row_key r, row_sig r with
        | Some k, Some s => out ← push_bytes (out ++ [x01]) (str_bytes k); push_bytes out s
        | _, _ => Ok (out ++ [x00])
        end;
  push_bytes out (row_body r).

(** What [raw\[at..\]] holds behind a length, and where it ends. *)
Definition take_bytes (x : bytes) (at_ : nat) : option (bytes * nat) :=
  if at_ + 4 <=? length x then
    let len := le_value (take 4 (drop at_ x)) in
    if (N.of_nat (at_ + 4) + len <=? N.of_nat (length x))%N then
      Some (take (N.to_nat len) (drop (at_ + 4) x), at_ + 4 + N.to_nat len)
    else None
  else None.

Definition corrupt (what : string) : StoreError := Corrupt 0 (lit "journal row truncated in " ++ lit what).

Definition decode (x : bytes) : result StoreError Row :=
  ensure (65 <=? length x) (corrupt "header") ;;
  prev ← ok_or (to_digest (take 32 x)) (corrupt "prev_hash");
  h ← ok_or (to_digest (take 32 (drop 32 x))) (corrupt "hash");
  attested ← match x !! 64 with
             | Some x00 => Ok false
             | Some x01 => Ok true
             | _ => Err (corrupt "the signature flag")
             end;
  '(k, s, at_) ← (if attested : bool then
    '(k, n) ← ok_or (take_bytes x 65) (corrupt "key_id");
    '(s, n) ← ok_or (take_bytes x n) (corrupt "signature");
    k ← ok_or (from_utf8 k) (corrupt "key_id utf-8");
    Ok (Some k, Some s, n)
  else Ok (None, None, 65));
  '(b, end_) ← ok_or (take_bytes x at_) (corrupt "body");
  if end_ =? length x then Ok (mk_row b prev h k s)
  else Err (Corrupt 0 (lit "journal row carries bytes after its body")).

(** The row of a record, and the record of a row. *)
Section rows.
Context {Num Rest J : Type} `{Sha256, RecordCodec (Num:=Num) (Rest:=Rest) (J:=J)}.
Definition row_of (r : SealedRecord (Num:=Num) (Rest:=Rest)) : Row :=
  mk_row (raw r) (prev_hash r) (hash r) (key_id <$> signature r) (sig_bytes <$> signature r).
Definition into_record (up : Upcaster) (r : Row) : result StoreError (SealedRecord (Num:=Num) (Rest:=Rest)) :=
  from_stored_with up (row_body r) (row_prev r) (row_hash r)
    (match row_key r, row_sig r with Some k, Some s => Some (mk_signature k s) | _, _ => None end).
End rows.

(** ** Decoding is the inverse of encoding *)

Definition row_ok (r : Row) : Prop :=
  match row_key r, row_sig r with
  | Some k, Some _ => utf8 k = true
  | None, None => True
  | _, _ => False
  end.

Lemma le_value_bytes b : le_bytes (length b) (le_value b) = b.
Proof.
  induction b as [|c b IH]; simpl; [done|]. set (l := le_value b) in *. pose proof (Byte.to_N_bounded c) as Hc.
  assert (N.land (Byte.to_N c + 256 * l) 255 = Byte.to_N c) as ->.
  { change 255%N with (N.ones 8). rewrite N.land_ones. change (2 ^ 8)%N with 256%N.
    rewrite N.mul_comm, N.Div0.mod_add. apply N.mod_small. lia. }
  assert (N.shiftr (Byte.to_N c + 256 * l) 8 = l) as ->.
  { rewrite N.shiftr_div_pow2. change (2 ^ 8)%N with 256%N. rewrite N.mul_comm, N.div_add by lia.
    rewrite N.div_small by lia. done. }
  by rewrite Byte.of_to_N, IH.
Qed.

Lemma le_value_bound b : (le_value b < 256 ^ N.of_nat (length b))%N.
Proof.
  induction b as [|c b IH]; simpl le_value; [done|]. pose proof (Byte.to_N_bounded c).
  change (length (c :: b)) with (S (length b)). rewrite Nat2N.inj_succ, N.pow_succ_r'. lia.
Qed.

Lemma le_bytes_value n x : (x < 256 ^ N.of_nat n)%N -> le_value (le_bytes n x) = x.
Proof.
  intros Hx. pose proof (le_value_bytes (le_bytes n x)) as Hb. rewrite le_bytes_length in Hb.
  apply (le_bytes_inj n) in Hb; [done| |done].
  pose proof (le_value_bound (le_bytes n x)) as Hl. by rewrite le_bytes_length in Hl.
Qed.

Lemma take_bytes_spec x at_ b n : take_bytes x at_ = Some (b, n) <->
  at_ <= length x /\ (N.of_nat (length b) < 2 ^ 32)%N /\ n = at_ + 4 + length b
  /\ drop at_ x = le_bytes 4 (N.of_nat (length b)) ++ b ++ drop n x.
Proof.
  unfold take_bytes. split.
  - destruct (Nat.leb_spec (at_ + 4) (length x)) as [H4|]; [|done].
    set (l := take 4 (drop at_ x)). assert (length l = 4) as Hl by (unfold l; rewrite length_take, length_drop; lia).
    pose proof (le_value_bound l) as Hb. pose proof (le_value_bytes l) as Hv. rewrite Hl in Hb, Hv.
    destruct (N.leb_spec (N.of_nat (at_ + 4) + le_value l) (N.of_nat (length x))) as [Hn|]; [|done].
    intros [= <- <-]. rewrite length_take, length_drop, Nat.min_l by lia.
    split_and!; [lia|by rewrite N2Nat.id|done|]. rewrite N2Nat.id, Hv. unfold l.
    rewrite <-(take_drop 4 (drop at_ x)) at 1. f_equal. rewrite drop_drop.
    rewrite <-(take_drop (N.to_nat (le_value l)) (drop (at_ + 4) x)) at 1. by rewrite drop_drop.
  - intros (Ha & Hb & -> & Hd). assert (take 4 (drop at_ x) = le_bytes 4 (N.of_nat (length b))) as Ht.
    { rewrite Hd. by rewrite take_app_length' by by rewrite le_bytes_length. }
    assert (length (drop at_ x) = 4 + (length b + length (drop (at_ + 4 + length b) x))) as Hlen.
    { rewrite Hd at 1. by rewrite !length_app, le_bytes_length. }
    rewrite !length_drop in Hlen. rewrite Ht, le_bytes_value by exact Hb.
    destruct (Nat.leb_spec (at_ + 4) (length x)); [|lia].
    destruct (N.leb_spec (N.of_nat (at_ + 4) + N.of_nat (length b)) (N.of_nat (length x))); [|lia].
    rewrite Nat2N.id. repeat f_equal. rewrite <-drop_drop, Hd, drop_app_length' by by rewrite le_bytes_length.
    by rewrite take_app_length.
Qed.

Lemma push_bytes_ok out b x : push_bytes out b = Ok x <->
  (N.of_nat (length b) < 2 ^ 32)%N /\ x = out ++ le_bytes 4 (N.of_nat (length b)) ++ b.
Proof.
  unfold push_bytes. generalize (out ++ le_bytes 4 (N.of_nat (length b)) ++ b). intros y.
  case_bool_decide as Hb; split; [by intros [= <-]|by intros [_ ->]|intros [=]|by intros [? _]].
Qed.

Lemma to_digest_Some b d : to_digest b = Some d <-> b = as_bytes d.
Proof.
  unfold to_digest. destruct (decide _) as [Hb|Hb]; split.
  - by intros [= <-].
  - intros ->. f_equal. by apply digest_eq.
  - intros [=].
  - intros ->. destruct Hb. apply bool_decide_pack, digest_length.
Qed.

Lemma from_utf8_Some b k : from_utf8 b = Some k <-> b = str_bytes k /\ utf8 k = true.
Proof.
  unfold from_utf8, str_bytes. split.
  - case_match eqn:Hu; [|done]. intros [= <-]. split; [|done].
    rewrite <-list_fmap_compose, <-(list_fmap_id b) at 1. apply list_fmap_ext. intros _ c _. simpl.
    by rewrite byte_of_ascii_of_byte.
  - intros [-> Hu]. rewrite <-list_fmap_compose.
    assert (ascii_of_byte ∘ byte_of_ascii <$> k = k) as ->; [|by rewrite Hu].
    rewrite <-(list_fmap_id k) at 2. apply list_fmap_ext. intros _ c _. simpl. by rewrite ascii_of_byte_of_ascii.
Qed.

Definition framed (b : bytes) : bytes := le_bytes 4 (N.of_nat (length b)) ++ b.
Definition fits32 (b : bytes) : Prop := (N.of_nat (length b) < 2 ^ 32)%N.
Lemma framed_length b : length (framed b) = 4 + length b.
Proof. unfold framed. by rewrite length_app, le_bytes_length. Qed.

Lemma take_framed x at_ b rest : at_ <= length x -> fits32 b -> drop at_ x = framed b ++ rest ->
  take_bytes x at_ = Some (b, at_ + 4 + length b) /\ drop (at_ + 4 + length b) x = rest
  /\ at_ + 4 + length b + length rest = length x.
Proof.
  intros Ha Hb Hd. assert (drop (at_ + 4 + length b) x = rest) as Hr.
  { rewrite <-Nat.add_assoc, <-drop_drop, Hd, drop_app_length' by by rewrite framed_length. done. }
  split_and!; [|done|].
  - apply take_bytes_spec. split_and!; [done..|]. rewrite Hr, Hd. unfold framed. by rewrite <-app_assoc.
  - pose proof (f_equal length Hd) as Hl. rewrite length_app, framed_length, length_drop in Hl. lia.
Qed.

Lemma take_framed_last x at_ b : at_ <= length x -> fits32 b -> drop at_ x = framed b ->
  take_bytes x at_ = Some (b, length x).
Proof.
  intros Ha Hb Hd. rewrite <-(app_nil_r (framed b)) in Hd. destruct (take_framed _ _ _ _ Ha Hb Hd) as (Ht & _ & Hl).
  rewrite Nat.add_0_r in Hl. by rewrite Hl in Ht.
Qed.

Lemma framed_taken x at_ b n : take_bytes x at_ = Some (b, n) ->
  fits32 b /\ drop at_ x = framed b ++ drop n x.
Proof. intros (_ & Hb & _ & Hd)%take_bytes_spec. split; [done|]. rewrite Hd. unfold framed. by rewrite <-app_assoc. Qed.

(** The header both directions share. *)
Lemma header x p h : 65 <= length x -> take 32 x = as_bytes p -> take 32 (drop 32 x) = as_bytes h ->
  exists f, x !! 64 = Some f /\ x = as_bytes p ++ as_bytes h ++ [f] ++ drop 65 x.
Proof.
  intros Hl Hp Hh. destruct (lookup_lt_is_Some_2 x 64) as [f Hf]; [lia|]. exists f. split; [done|].
  rewrite <-(take_drop 32 x) at 1. rewrite Hp. f_equal. rewrite <-(take_drop 32 (drop 32 x)), Hh at 1. f_equal.
  rewrite drop_drop. simpl Nat.add. by rewrite (drop_S x f 64).
Qed.

#[local] Opaque le_bytes.

Lemma split_header x p h f rest : x = as_bytes p ++ as_bytes h ++ [f] ++ rest ->
  65 <= length x /\ take 32 x = as_bytes p /\ take 32 (drop 32 x) = as_bytes h /\ x !! 64 = Some f /\ drop 65 x = rest.
Proof.
  intros ->. pose proof (digest_length p) as Hp. pose proof (digest_length h) as Hh. split_and!.
  - rewrite !length_app. simpl. lia.
  - by rewrite take_app_length'.
  - rewrite drop_app_length' by done. by rewrite take_app_length'.
  - rewrite lookup_app_r, lookup_app_r by lia. by rewrite Hp, Hh.
  - rewrite app_assoc, app_assoc. apply drop_app_length'. rewrite !length_app, Hp, Hh. done.
Qed.

Lemma decode_ok x r : decode x = Ok r <->
  65 <= length x /\ take 32 x = as_bytes (row_prev r) /\ take 32 (drop 32 x) = as_bytes (row_hash r)
  /\ ((x !! 64 = Some x00 /\ row_key r = None /\ row_sig r = None /\ take_bytes x 65 = Some (row_body r, length x))
      \/ (x !! 64 = Some x01 /\ exists k s n1 n2, row_key r = Some k /\ row_sig r = Some s /\ utf8 k = true
          /\ take_bytes x 65 = Some (str_bytes k, n1) /\ take_bytes x n1 = Some (s, n2)
          /\ take_bytes x n2 = Some (row_body r, length x))).
Proof.
  unfold decode. rewrite seq_ok, ensure_ok, Nat.leb_le. split.
  - intros [Hl Hd]. split; [done|].
    destruct (to_digest (take 32 x)) as [p|] eqn:Hp; [|done]. apply to_digest_Some in Hp.
    destruct (to_digest (take 32 (drop 32 x))) as [h|] eqn:Hh; [|done]. apply to_digest_Some in Hh. simpl in Hd.
    destruct (x !! 64) as [f|] eqn:Hf; [|done]. destruct f; try done; simpl in Hd.
    + destruct (take_bytes x 65) as [[b n]|] eqn:Hb; [|done]. simpl in Hd.
      destruct (Nat.eqb_spec n (length x)) as [->|]; [|done]. injection Hd as <-. split_and!; [done..|]. by left.
    + destruct (take_bytes x 65) as [[k n]|] eqn:Hk; [|done]. simpl in Hd.
      destruct (take_bytes x n) as [[s n']|] eqn:Hs; [|done]. simpl in Hd.
      destruct (from_utf8 k) as [k'|] eqn:Hu; [|done]. apply from_utf8_Some in Hu as [-> Hu]. simpl in Hd.
      destruct (take_bytes x n') as [[b m]|] eqn:Hb; [|done]. simpl in Hd.
      destruct (Nat.eqb_spec m (length x)) as [->|]; [|done]. injection Hd as <-. split_and!; [done..|].
      right. split; [done|]. by exists k', s, n, n'.
  - intros (Hl & Hp & Hh & Hc). split; [done|]. apply to_digest_Some in Hp, Hh. rewrite Hp, Hh. simpl.
    destruct r as [b p h key sg]. simpl in *.
    destruct Hc as [(-> & -> & -> & Hb)|(-> & k & s & n1 & n2 & -> & -> & Hu & Hk & Hs & Hb)]; simpl.
    + rewrite Hb. simpl. by rewrite Nat.eqb_refl.
    + rewrite Hk. simpl. rewrite Hs. simpl. rewrite (proj2 (from_utf8_Some (str_bytes k) k)) by done. simpl.
      rewrite Hb. simpl. by rewrite Nat.eqb_refl.
Qed.

Lemma encode_ok r x : row_ok r -> encode r = Ok x <-> fits32 (row_body r)
  /\ match row_key r, row_sig r with
     | Some k, Some s => fits32 (str_bytes k) /\ fits32 s
         /\ x = as_bytes (row_prev r) ++ as_bytes (row_hash r) ++ [x01]
                 ++ framed (str_bytes k) ++ framed s ++ framed (row_body r)
     | _, _ => x = as_bytes (row_prev r) ++ as_bytes (row_hash r) ++ [x00] ++ framed (row_body r)
     end.
Proof.
  intros Hr. unfold encode, row_ok in *. rewrite result_bind_ok. setoid_rewrite push_bytes_ok.
  destruct (row_key r) as [k|], (row_sig r) as [s|]; try done.
  - setoid_rewrite result_bind_ok. setoid_rewrite push_bytes_ok. unfold fits32, framed. split.
    + intros (t & (o & (Hk & ->) & Hs & ->) & Hb & ->). split_and!; [done..|]. by rewrite <-!app_assoc.
    + intros (Hb & Hk & Hs & ->). eexists. split; [eexists; split; [by split|by split]|]. split; [done|].
      by rewrite <-!app_assoc.
  - unfold fits32, framed. split.
    + intros (t & [= <-] & Hb & ->). split; [done|]. by rewrite <-!app_assoc.
    + intros (Hb & ->). eexists. split; [done|]. split; [done|]. by rewrite <-!app_assoc.
Qed.

(** A stored row is read back as exactly what was written.  [decode] accepts
    a value exactly when some row with both halves of a signature or neither
    encodes to it, and returns that row: no truncated, padded or half-signed row
    reads as anything, and no two rows share their bytes. *)
Theorem row_exact x r : decode x = Ok r <-> row_ok r /\ encode r = Ok x.
Proof.
  destruct r as [b p h key sg]. rewrite decode_ok. unfold row_ok. simpl. split.
  - intros (Hl & Hp & Hh & Hc). destruct (header _ _ _ Hl Hp Hh) as (f & Hf & Hx).
    destruct Hc as [(Hf' & -> & -> & Hb)|(Hf' & k & s & n1 & n2 & -> & -> & Hu & Hk & Hs & Hb)]; simplify_eq;
      (split; [done|]); (apply encode_ok; [done|]); simpl;
      apply framed_taken in Hb as [Hb Hd]; rewrite drop_all, app_nil_r in Hd; (split; [done|]).
    + by rewrite <-Hd.
    + apply framed_taken in Hk as [Hk Hdk], Hs as [Hs Hds]. split_and!; [done..|]. by rewrite <-Hd, <-Hds, <-Hdk.
  - intros [Hr He]. apply encode_ok in He as [Hb He]; [|done]. simpl in Hb, He.
    assert (exists f rest, x = as_bytes p ++ as_bytes h ++ [f] ++ rest) as (f & rest & Hx).
    { destruct key, sg; try done; [destruct He as (_ & _ & ->)|subst x]; by eexists _, _. }
    destruct (split_header x p h f rest Hx) as (Hl & Hp & Hh & Hf & Hd).
    split_and!; [done..|]. destruct key as [k|], sg as [s|]; try done.
    + right. destruct He as (Hk & Hs & He). rewrite Hx in He. do 2 apply app_inv_head in He.
      apply (app_inj_1 _ [x01]) in He as [Hf1 ->]; [|done]. injection Hf1 as ->. split; [done|].
      destruct (take_framed x 65 _ _ Hl Hk Hd) as (Htk & Hdk & Hlk). rewrite length_app in Hlk.
      eapply (take_framed x _ s) in Hdk as (Hts & Hds & Hls); [|lia|done]. 
      apply take_framed_last in Hds as Htb; [|lia|done]. exists k, s. eexists _, _. by split_and!.
    + left. rewrite Hx in He. do 2 apply app_inv_head in He.
      apply (app_inj_1 _ [x00]) in He as [Hf1 ->]; [|done]. injection Hf1 as ->. split_and!; [done..|].
      by apply take_framed_last.
Qed.
