(* ===== verification/Journal.v ===== *)
(** * The embedded journal store ([src/src/store/redb.rs])

    One tenant's tables and every operation of [RedbStore] on them.  An
    operation that writes is one transaction: it either returns the state it
    committed or leaves the state it met.  A table that is only looked up is a
    [gmap]; one that is read by range keeps its rows in key order.  A run is its
    id's text, so the listings' parsing of ids is not repeated; the clock is an
    argument. *)

From S2P Require Import Prelude Digest EffectKey Panel Merkle Checkpoint Text Chain JournalRow.

(** ** A table in key order *)

Abbreviation table A := (list (Z * A)).

Section table.
Context {A : Type}.
Fixpoint put (k : Z) (x : A) (t : table A) : table A :=
  match t with
  | [] => [(k, x)]
  | (k', x') :: t' => if (k <? k')%Z then (k, x) :: t
                      else if (k =? k')%Z then (k, x) :: t' else (k', x') :: put k x t'
  end.
Fixpoint at_key (k : Z) (t : table A) : option A :=
  match t with
  | [] => None
  | (k', x) :: t => if (k =? k')%Z then Some x else at_key k t
  end.
Definition remove (k : Z) (t : table A) : table A := filter (fun kx => kx.1 <> k) t.
Definition from_key (k : Z) (t : table A) : table A := filter (fun kx => k <= kx.1)%Z t.
End table.

(** ** The admission key of an event ([core/event.rs]) *)

Definition unit_separator : ascii := ascii_of_N 31.
Definition origin_key (source id : str) : str :=
  show_Z (Z.of_nat (length source)) ++ [unit_separator] ++ source ++ [unit_separator] ++ id.
(** [str::split_once] at a character. *)
Fixpoint split_once (c : ascii) (x : str) : option (str * str) :=
  match x with
  | [] => None
  | d :: x => if decide (d = c) then Some ([], x) else '(a, b) ← split_once c x; Some (d :: a, b)
  end.
Definition origin_source (key : str) : option str :=
  '(len, rest) ← split_once unit_separator key;
  if bool_decide (len = []) || negb (forallb is_digit len) then None else
  len ← parse_u64 len;
  if bool_decide (len <= Z.of_nat (length rest))%Z && starts_with unit_separator (drop (Z.to_nat len) rest)
  then Some (take (Z.to_nat len) rest) else None.

(** ** State *)

Record Head := mk_head { h_seq : Z; h_hash : Digest }.
Definition genesis : Head := mk_head 0 ZERO.
Record Lease := mk_lease { l_run : RunId; l_owner : str; l_epoch : Epoch }.
Record Cancellation := mk_cancellation { cn_actor : Operator; cn_reason : str }.
Record Inclusion := mk_inclusion { in_index : Z; in_size : Z; in_seal : Digest; in_proof : list Digest }.

(** How a waiting reason is stored and read back. *)
Class ReasonCodec := {
  reason_text : SuspendReason -> result str str;
  reason_of : str -> result str SuspendReason;
}.

Section store.
Context {Num Rest J : Type} (number_zero : Num).
Context `{Sha256, RecordCodec (Num:=Num) (Rest:=Rest) (J:=J), ReasonCodec}.
Abbreviation SealedRecord := (SealedRecord (Num:=Num) (Rest:=Rest)).
Abbreviation RecordBody := (RecordBody (Num:=Num) (Rest:=Rest)).
Abbreviation RecordKind := (RecordKind (Num:=Num)).
Abbreviation Append := (Append (Num:=Num) (Rest:=Rest)).
Abbreviation Upcaster := (Upcaster (J:=J)).

(** The tables of one tenant, in groups that are written together; a counter
    starts at the value its absence reads as. *)
Record Runs := mk_runs {
  journal : gmap RunId (table bytes);
  by_case : gset (str * RunId * Z);
  once : gmap (RunId * EffectKey) Z;
  feed : table (RunId * Z);
  next_feed : Z;
}.
Record Seals := mk_seals {
  seals : gmap RunId (str * bytes * Z);
  seal_log : table RunId;
  next_log_index : Z;
  assessments : gmap str (table RunId);
  verdicts : gmap (str * str * Basis * str) (str * str * Num);
}.
Record Outcomes := mk_outcomes {
  by_outcome : gmap str (table RunId);
  outcome_of : gmap RunId (str * Z);
  next_conclusion : Z;
}.
Record Admission := mk_admitted {
  admissions : gmap str (RunId * Z);
  capabilities : gmap (str * RunId) (str * str * option Digest);
}.
Record Activity := mk_activity {
  activity : gset (Z * RunId);
  last_activity : gmap RunId Z;
  source_of : gmap RunId str;
  by_source : gset (str * Z * RunId);
}.
Record Waits := mk_waits {
  waiting : gmap (Z * RunId) str;
  waiting_at : gmap RunId Z;
}.
Record State := mk_state {
  runs : Runs;
  leases : gmap RunId (str * Epoch * Z);
  sealed : Seals;
  outcomes : Outcomes;
  admitted : Admission;
  active : Activity;
  waits : Waits;
  cancels : gmap RunId (Operator * str * Z);
}.
Definition empty_state : State :=
  mk_state (mk_runs ∅ ∅ ∅ [] 1) ∅ (mk_seals ∅ [] 0 ∅ ∅) (mk_outcomes ∅ ∅ 0) (mk_admitted ∅ ∅)
    (mk_activity ∅ ∅ ∅ ∅) (mk_waits ∅ ∅) ∅.
Definition with_leases (st : State) (l : gmap RunId (str * Epoch * Z)) : State :=
  mk_state (runs st) l (sealed st) (outcomes st) (admitted st) (active st) (waits st) (cancels st).
Definition with_sealed (st : State) (s : Seals) : State :=
  mk_state (runs st) (leases st) s (outcomes st) (admitted st) (active st) (waits st) (cancels st).

(** What a handle carries. *)
Record Handle := mk_handle { upcaster : Upcaster; signer : option Signer; log_origin : str }.

Definition rows (t : Runs) (run : RunId) : table bytes := default [] (journal t !! run).
Definition outcome_rows (o : Outcomes) (outcome : str) : table RunId := default [] (by_outcome o !! outcome).

Definition head_of (t : Runs) (run : RunId) : result StoreError Head :=
  match last (rows t run) with
  | None => Ok genesis
  | Some (s, x) => r ← decode x; Ok (mk_head s (row_hash r))
  end.

(** ** Appending *)

Definition fence (st : State) (run : RunId) (epoch : Epoch) : result StoreError unit :=
  match leases st !! run with
  | Some (_, current, _) => ensure (bool_decide (epoch = current)) (Fenced run epoch current)
  | None => Ok tt
  end.
Definition frozen (st : State) (run : RunId) : result StoreError unit :=
  match seals (sealed st) !! run with
  | Some (outcome, _, _) => Err (RunSealed run outcome)
  | None => Ok tt
  end.

(** Exactly-once: the key is the constraint. *)
Definition claim_effect (o : gmap (RunId * EffectKey) Z) (b : RecordBody) (run : RunId) :
    result StoreError (gmap (RunId * EffectKey) Z) :=
  match kind b, effect_key b with
  | EffectStarted, Some key =>
      match o !! (run, key) with
      | Some _ => Err (DuplicateEffect key)
      | None => Ok (<[(run, key) := seq b]> o)
      end
  | _, _ => Ok o
  end.
Definition write_row (t : Runs) (o : gmap (RunId * EffectKey) Z) (run : RunId) (b : RecordBody) (x : bytes) : Runs :=
  mk_runs (<[run := put (seq b) x (rows t run)]> (journal t))
    (match case b with Some c => {[(c, run, seq b)]} ∪ by_case t | None => by_case t end)
    o (put (next_feed t) (run, seq b) (feed t)) (next_feed t + 1).
Definition admission_source (k : RecordKind) : option str :=
  match k with RunAdmitted _ _ (Some key) => origin_source key | _ => None end.
Definition claim_admission (m : gmap str (RunId * Z)) (k : RecordKind) (run : RunId) (now : Z) :
    result StoreError (gmap str (RunId * Z)) :=
  match k with
  | RunAdmitted _ _ (Some key) =>
      match m !! key with
      | Some (held, _) => Err (DuplicateAdmission key held)
      | None => Ok (<[key := (run, now)]> m)
      end
  | _ => Ok m
  end.
Definition track_indexes (m : gmap (str * RunId) (str * str * option Digest)) (k : RecordKind) (run : RunId) :
    gmap (str * RunId) (str * str * option Digest) :=
  match k with
  | RunAdmitted capability governed_by _ =>
      <[(capability, run) := match governed_by with
                             | Some a => (ag_name a, ag_version a, Some (ag_digest a))
                             | None => ([], [], None)
                             end]> m
  | _ => m
  end.
(** The last conclusion wins. *)
Definition conclude (o : Outcomes) (k : RecordKind) (run : RunId) : Outcomes :=
  match k with
  | RunConcluded outcome =>
      let o := match outcome_of o !! run with
               | Some (prior, ord) =>
                   mk_outcomes (<[prior := remove ord (outcome_rows o prior)]> (by_outcome o)) (outcome_of o) (next_conclusion o)
               | None => o
               end in
      mk_outcomes (<[outcome := put (next_conclusion o) run (outcome_rows o outcome)]> (by_outcome o))
        (<[run := (outcome, next_conclusion o)]> (outcome_of o)) (next_conclusion o + 1)
  | _ => o
  end.
Definition suspension (k : RecordKind) : option SuspendReason :=
  match k with RunSuspended reason => Some reason | _ => None end.

(** What the loop over the batch carries. *)
Record Tx := mk_tx {
  tx_runs : Runs;
  tx_outcomes : Outcomes;
  tx_admitted : Admission;
  tx_head : Head;
  tx_waiting : option SuspendReason;
  tx_from : option str;
  tx_sealed : list SealedRecord;
}.
Definition append_one (h : Handle) (run : RunId) (epoch : Epoch) (now : Z) (t : Tx) (a : Append) : result StoreError Tx :=
  '(b, written) ← into_parts a (h_seq (tx_head t) + 1) epoch (upcaster h);
  r ← seal_at b written (h_hash (tx_head t)) (signer h);
  o ← claim_effect (once (tx_runs t)) b run;
  x ← encode (row_of r);
  m ← claim_admission (admissions (tx_admitted t)) (kind b) run now;
  Ok (mk_tx (write_row (tx_runs t) o run b x) (conclude (tx_outcomes t) (kind b) run)
        (mk_admitted m (track_indexes (capabilities (tx_admitted t)) (kind b) run))
        (mk_head (seq b) (hash r)) (suspension (kind b))
        (match admission_source (kind b) with Some s => Some s | None => tx_from t end)
        (tx_sealed t ++ [r])).
Fixpoint append_all (h : Handle) (run : RunId) (epoch : Epoch) (now : Z) (t : Tx) (batch : list Append) :
    result StoreError Tx :=
  match batch with
  | [] => Ok t
  | a :: batch => t ← append_one h run epoch now t a; append_all h run epoch now t batch
  end.

Definition settle_waits (w : Waits) (run : RunId) (reason : option SuspendReason) : result StoreError Waits :=
  let index := match waiting_at w !! run with
               | Some prior => base.delete (prior, run) (waiting w)
               | None => waiting w
               end in
  let at_ := base.delete run (waiting_at w) in
  match reason with
  | Some reason =>
      text ← map_err Backend (reason_text reason);
      Ok (mk_waits (<[(until reason, run) := text]> index) (<[run := until reason]> at_))
  | None => Ok (mk_waits index at_)
  end.
Definition touch (a : Activity) (run : RunId) (now : Z) (from : option str) : Activity :=
  let previous := last_activity a !! run in
  let act := match previous with Some p => activity a ∖ {[(p, run)]} | None => activity a end in
  let sources := match from with Some s => <[run := s]> (source_of a) | None => source_of a end in
  mk_activity ({[(now, run)]} ∪ act) (<[run := now]> (last_activity a)) sources
    (match sources !! run with
     | Some s => {[(s, now, run)]} ∪ (match previous with Some p => by_source a ∖ {[(s, p, run)]} | None => by_source a end)
     | None => by_source a
     end).

Definition append_tx (h : Handle) (st : State) (run : RunId) (epoch : Epoch) (now : Z) (batch : list Append) :
    result StoreError (State * list SealedRecord) :=
  fence st run epoch ;;
  frozen st run ;;
  head ← head_of (runs st) run;
  t ← append_all h run epoch now (mk_tx (runs st) (outcomes st) (admitted st) head None None []) batch;
  w ← settle_waits (waits st) run (tx_waiting t);
  Ok (mk_state (tx_runs t) (leases st) (sealed st) (tx_outcomes t) (tx_admitted t)
        (touch (active st) run now (tx_from t)) w (cancels st), tx_sealed t).
Definition append (h : Handle) (st : State) (now : Z) (epoch : Epoch) (batch : list Append) :
    State * result StoreError (list SealedRecord) :=
  match batch with
  | [] => (st, Ok [])
  | a :: _ =>
      if forallb (fun b => bool_decide (ap_run b = ap_run a)) batch then
        match append_tx h st (ap_run a) epoch now batch with
        | Ok (st', rs) => (st', Ok rs)
        | Err e => (st, Err e)
        end
      else (st, Err (Backend (lit "batch spans runs")))
  end.

(** ** Reading *)

Definition read_row (up : Upcaster) (x : bytes) : result StoreError SealedRecord :=
  r ← decode x;
  into_record up r.
Fixpoint read_rows (up : Upcaster) (t : list bytes) : result StoreError (list SealedRecord) :=
  match t with
  | [] => Ok []
  | x :: t => r ← read_row up x; rs ← read_rows up t; Ok (r :: rs)
  end.
Definition read_page (h : Handle) (st : State) (run : RunId) (from : Z) (limit : nat) :
    result StoreError (list SealedRecord) :=
  read_rows (upcaster h) (take limit (snd <$> from_key from (rows (runs st) run))).
Definition read (h : Handle) (st : State) (run : RunId) (from : Z) : result StoreError (list SealedRecord) :=
  read_rows (upcaster h) (snd <$> from_key from (rows (runs st) run)).
(** [JournalStore::verify]. *)
Definition verify (h : Handle) (st : State) (run : RunId) : result StoreError Digest :=
  rs ← read h st run 1;
  verify_chain rs ZERO.
Definition head (st : State) (run : RunId) : result StoreError Head := head_of (runs st) run.

Definition row_at (t : Runs) (run : RunId) (s : Z) : option bytes := at_key s (rows t run).
(** A page of the feed and the cursor to ask for the next one with. *)
Definition feed_page (h : Handle) (st : State) (after : option str) (limit : nat) :
    result StoreError (list SealedRecord * option str) :=
  from ← match after with
         | None => Ok 1%Z
         | Some cursor => p ← ok_or (parse_u64 cursor) (Backend (lit "not a feed cursor")); Ok (sat_add p 1)
         end;
  let page := take limit (from_key from (feed (runs st))) in
  rs ← read_rows (upcaster h) (omap (fun p => row_at (runs st) p.2.1 p.2.2) page);
  Ok (rs, match last page with Some p => Some (show_Z p.1) | None => after end).

Definition run_seq_cmp (x y : RunId * Z) : comparison := then_cmp (str_cmp x.1 y.1) (x.2 ?= y.2)%Z.
Definition case_rows (st : State) (c : str) : list (RunId * Z) :=
  iter_by run_seq_cmp (set_filter_map (fun x => if decide (x.1.1 = c) then Some (x.1.2, x.2) else None) (by_case (runs st))).
Definition case_history (h : Handle) (st : State) (c : str) (limit : nat) : result StoreError (list SealedRecord) :=
  read_rows (upcaster h) (take limit (omap (fun p => row_at (runs st) p.1 p.2) (case_rows st c))).

(** ** Leases *)

Definition lease_expiry (now ttl_secs : Z) : result StoreError Z :=
  if bool_decide (ttl_secs = 0%Z) then Err (Backend (lit "a lease TTL would round to zero")) else
  ok_or (checked_add now ttl_secs) (Backend (lit "a lease TTL overflows the expiry instant")).

Definition epoch_after_history (h : Handle) (t : Runs) (run : RunId) : result StoreError Epoch :=
  match last (rows t run) with
  | None => Ok 1%Z
  | Some (_, x) => r ← read_row (upcaster h) x; Ok (epoch (body r) + 1)%Z
  end.

Definition acquire_epoch (h : Handle) (st : State) (run : RunId) (now : Z) : result StoreError Epoch :=
  match leases st !! run with
  | None => epoch_after_history h (runs st) run
  | Some (held_by, e, expires_at) =>
      if (expires_at <=? now)%Z then Ok (e + 1)%Z
      else Err (LeaseHeld run held_by e (sat_sub expires_at now))
  end.
Definition acquire (h : Handle) (st : State) (run : RunId) (owner : str) (ttl_secs now : Z) :
    State * result StoreError Lease :=
  match lease_expiry now ttl_secs with
  | Err e => (st, Err e)
  | Ok expires =>
      match acquire_epoch h st run now with
      | Err e => (st, Err e)
      | Ok e => (with_leases st (<[run := (owner, e, expires)]> (leases st)), Ok (mk_lease run owner e))
      end
  end.
Definition renew (st : State) (run : RunId) (owner : str) (epoch : Epoch) (ttl_secs now : Z) :
    State * result StoreError Lease :=
  match lease_expiry now ttl_secs with
  | Err e => (st, Err e)
  | Ok expires =>
      match leases st !! run with
      | Some (held_by, held_epoch, expires_at) =>
          if bool_decide (held_by = owner) && bool_decide (held_epoch = epoch) && (now <? expires_at)%Z
          then (with_leases st (<[run := (owner, epoch, expires)]> (leases st)), Ok (mk_lease run owner epoch))
          else (st, Err (LeaseNotHeld run epoch))
      | None => (st, Err (LeaseNotHeld run epoch))
      end
  end.
Definition release_lease (st : State) (run : RunId) (epoch : Epoch) : State :=
  match leases st !! run with
  | Some (_, held, _) =>
      if bool_decide (held = epoch) then with_leases st (<[run := ([], epoch, 0%Z)]> (leases st)) else st
  | None => st
  end.
(** What a writer does when it opens the file. *)
Definition lapse_every_lease (st : State) (now : Z) : State :=
  with_leases st ((fun l => if negb (bool_decide (l.1.1 = [])) && (now <? l.2)%Z then (l.1, now) else l) <$> leases st).
(** Rows with one expiry are in the order the sort leaves them in. *)
Definition expires_first : relation (Z * RunId) := fun x y => (x.1 <= y.1)%Z.
#[local] Instance expires_first_dec : RelDecision expires_first := fun x y => decide (x.1 <= y.1)%Z.
Definition abandoned_runs (st : State) (limit : nat) (now : Z) : list RunId :=
  take limit (snd <$> merge_sort expires_first
    (omap (fun run => '(owner, _, expires_at) ← leases st !! run;
                      if bool_decide (owner = []) || (now <? expires_at)%Z then None else Some (expires_at, run))
          (iter_str (dom (leases st))))).

(** ** Sealing *)

Definition kind_of (x : bytes) : option str := v ← parse_value x; t ← get v (lit "kind"); as_text t.
Definition refuse_unconcluded (run : RunId) (row : option bytes) : result StoreError unit :=
  ensure (bool_decide (row ≫= kind_of = Some (lit "RunConcluded")))
    (Backend (lit "run cannot be sealed: its last record is not its conclusion")).

(** The kind, label and number a verdict is indexed under. *)
Definition stored_verdict (s : @Panel.Score Num) : str * str * Num :=
  match s with
  | SPass true => (lit "pass", [], number_zero)
  | SPass false => (lit "fail", [], number_zero)
  | SLabel l => (lit "label", l, number_zero)
  | SNumber n => (lit "number", [], n)
  end.
Definition index_verdict (h : Handle) (t : Runs) (s : Seals) (run : RunId) (position : Z) : result StoreError Seals :=
  match row_at t run 1 with
  | None => Ok s
  | Some x =>
      r ← read_row (upcaster h) x;
      Ok match kind (body r) with
         | Assessed of_ name value by_ =>
             mk_seals (seals s) (seal_log s) (next_log_index s)
               (<[of_ := put position run (default [] (assessments s !! of_))]> (assessments s))
               (<[(of_, actor by_, basis by_, name) := stored_verdict value]> (verdicts s))
         | _ => s
         end
  end.
Definition seal_tx (h : Handle) (st : State) (run : RunId) (epoch : Epoch) (outcome : str) (now : Z) :
    result StoreError (State * Digest) :=
  fence st run epoch ;;
  last_row ← match last (rows (runs st) run) with
             | None => Ok None
             | Some (_, x) => r ← decode x; Ok (Some (row_body r))
             end;
  refuse_unconcluded run last_row ;;
  head ← head_of (runs st) run;
  let s := sealed st in
  match seals s !! run with
  | Some _ => Ok (st, h_hash head)
  | None =>
      let next := next_log_index s in
      s ← index_verdict h (runs st)
            (mk_seals (<[run := (outcome, as_bytes (h_hash head), now)]> (seals s)) (put next run (seal_log s)) next
               (assessments s) (verdicts s)) run next;
      Ok (with_sealed st (mk_seals (seals s) (seal_log s) (next + 1) (assessments s) (verdicts s)), h_hash head)
  end.
Definition seal (h : Handle) (st : State) (run : RunId) (epoch : Epoch) (outcome : str) (now : Z) :
    State * result StoreError Digest :=
  match seal_tx h st run epoch outcome now with
  | Ok (st', d) => (st', Ok d)
  | Err e => (st, Err e)
  end.

(** ** The log *)

(** The log's leaves, and where each sealed run sits in them. *)
Fixpoint walk (st : State) (index : Z) (log : table RunId) : result StoreError (list LeafHash * list (RunId * (Z * Digest))) :=
  match log with
  | [] => Ok ([], [])
  | (_, run) :: log =>
      match seals (sealed st) !! run with
      | None => walk st index log
      | Some (_, h, _) =>
          d ← ok_or (to_digest h) (Corrupt 0 (lit "a stored hash is not 32 bytes"));
          '(leaves, at_) ← walk st (index + 1) log;
          Ok (leaf_hash d :: leaves, (run, (index, d)) :: at_)
      end
  end.
Definition log_walk (st : State) : result StoreError (list LeafHash * list (RunId * (Z * Digest))) :=
  walk st 0 (seal_log (sealed st)).
(** The last position a run was met at. *)
Definition placed (run : RunId) (at_ : list (RunId * (Z * Digest))) : option (Z * Digest) :=
  snd <$> last (filter (fun x => x.1 = run) at_).
Definition log_positions (st : State) (runs : list RunId) : result StoreError (list (option (Z * Digest))) :=
  '(_, at_) ← log_walk st;
  Ok ((fun run => placed run at_) <$> runs).
Definition checkpoint (h : Handle) (st : State) : result StoreError Checkpoint :=
  map_err (fun _ => Backend (lit "invalid origin")) (validate_origin (log_origin h)) ;;
  '(leaves, _) ← log_walk st;
  Ok (mk_checkpoint (log_origin h) (zlen leaves) (root leaves)).
Definition consistency_proof_at (st : State) (old_size new_size : Z) : result StoreError (list Digest) :=
  '(leaves, _) ← log_walk st;
  if bool_decide (new_size < old_size)%Z || bool_decide (zlen leaves < new_size)%Z
  then Err (Backend (lit "asked to prove past the log"))
  else Ok (Merkle.consistency_proof (take (Z.to_nat new_size) leaves) (Z.to_nat old_size)).
Definition consistency_proof (st : State) (old_size : Z) : result StoreError (list Digest) :=
  '(leaves, _) ← log_walk st;
  if bool_decide (zlen leaves < old_size)%Z then Err (Backend (lit "a checkpoint is larger than this log"))
  else Ok (Merkle.consistency_proof leaves (Z.to_nat old_size)).
Definition inclusion_proof (st : State) (run : RunId) : result StoreError (option Inclusion) :=
  '(leaves, at_) ← log_walk st;
  Ok (match placed run at_ with
      | None => None
      | Some (index, d) => Some (mk_inclusion index (zlen leaves) d (Merkle.inclusion_proof leaves (Z.to_nat index)))
      end).
Definition inclusion_proof_at (st : State) (run : RunId) (size : Z) : result StoreError (option Inclusion) :=
  '(leaves, at_) ← log_walk st;
  if bool_decide (zlen leaves < size)%Z then Err (Backend (lit "asked to prove past the log")) else
  let prefix := take (Z.to_nat size) leaves in
  Ok (match placed run at_ with
      | None => None
      | Some (index, d) =>
          if bool_decide (index < zlen prefix)%Z
          then Some (mk_inclusion index size d (Merkle.inclusion_proof prefix (Z.to_nat index))) else None
      end).

(** ** Listings and requests *)

Definition runs_by_outcome (st : State) (outcome : str) (limit : nat) : list RunId :=
  take limit (reverse (outcome_rows (outcomes st) outcome).*2).
Definition count_by_outcome (st : State) (outcome : str) : Z := zlen (outcome_rows (outcomes st) outcome).
Definition assessments_of (st : State) (run : RunId) (limit : nat) : list RunId :=
  take limit (default [] (assessments (sealed st) !! run)).*2.
Definition admitted_as (st : State) (key : str) : option RunId := fst <$> admissions (admitted st) !! key.
Definition forget_admissions (st : State) (cutoff : Z) : State * nat :=
  let m := admissions (admitted st) in
  let kept := filter (fun kv => ~ (kv.2.2 < cutoff)%Z) m in
  (mk_state (runs st) (leases st) (sealed st) (outcomes st) (mk_admitted kept (capabilities (admitted st)))
     (active st) (waits st) (cancels st), size m - size kept).

Definition time_run_cmp (x y : Z * RunId) : comparison := then_cmp (x.1 ?= y.1)%Z (str_cmp x.2 y.2).
Fixpoint waiting_rows (w : Waits) (keys : list (Z * RunId)) : result StoreError (list (RunId * SuspendReason)) :=
  match keys with
  | [] => Ok []
  | key :: keys =>
      reason ← match waiting w !! key with
               | Some text => map_err (fun _ => Corrupt 0 (lit "run_waiting holds an unreadable reason")) (reason_of text)
               | None => Err (Corrupt 0 (lit "run_waiting"))
               end;
      rest ← waiting_rows w keys;
      Ok ((key.2, reason) :: rest)
  end.
Definition waiting_runs (st : State) (limit : nat) : result StoreError (list (RunId * SuspendReason)) :=
  waiting_rows (waits st) (take limit (iter_by time_run_cmp (dom (waiting (waits st))))).

(** Newest first, below the cursor. *)
Definition recent (rows : gset (Z * RunId)) (after : option (Z * RunId)) (limit : nat) : list (RunId * Z) :=
  let below := match after with
               | Some cursor => filter (fun x => time_run_cmp x cursor = Lt) rows
               | None => rows
               end in
  take limit ((fun x => (x.2, x.1)) <$> reverse (iter_by time_run_cmp below)).
Definition recent_runs (st : State) (after : option (Z * RunId)) (limit : nat) : list (RunId * Z) :=
  recent (activity (active st)) after limit.
Definition recent_runs_from (st : State) (source : str) (after : option (Z * RunId)) (limit : nat) : list (RunId * Z) :=
  recent (set_filter_map (fun x => if decide (x.1.1 = source) then Some (x.1.2, x.2) else None) (by_source (active st)))
    after limit.
Definition runs_by_id (st : State) (after : option RunId) (limit : nat) : list RunId :=
  let ids := dom (last_activity (active st)) in
  take limit (iter_str (match after with Some cursor => filter (fun x => str_cmp cursor x = Lt) ids | None => ids end)).

Definition request_cancel (st : State) (run : RunId) (who : Operator) (reason : str) (now : Z) : State * bool :=
  match cancels st !! run with
  | Some _ => (st, false)
  | None => (mk_state (runs st) (leases st) (sealed st) (outcomes st) (admitted st) (active st) (waits st)
               (<[run := (who, reason, now)]> (cancels st)), true)
  end.
Definition cancellation (st : State) (run : RunId) : option Cancellation :=
  (fun c => mk_cancellation c.1.1 c.1.2) <$> cancels st !! run.
End store.
