(* ===== verification/JournalRuns.v ===== *)
(** * Stored histories

    The tables an append writes row by row, against the histories they stand
    for: what holds of them, and that one more record keeps it. *)

From stdpp Require Import functions.
From S2P Require Import Prelude Digest EffectKey Panel Text Chain JournalRow Journal.

Section table_lemmas.
Context {A : Type}.
Implicit Types t : table A.

Lemma put_last k x t : Forall (fun p => p.1 < k)%Z t -> put k x t = t ++ [(k, x)].
Proof.
  induction 1 as [|[k' x'] t Hk _ IH]; simpl in *; [done|].
  destruct (Z.ltb_spec k k'); [lia|]. destruct (Z.eqb_spec k k'); [lia|]. by rewrite IH.
Qed.
Lemma from_key_all k t : Forall (fun p => k <= p.1)%Z t -> from_key k t = t.
Proof. intros Hk. unfold from_key. induction Hk as [|p t Hp _ IH]; [done|]. by rewrite filter_cons, decide_True, IH. Qed.
Lemma at_key_elem k x t : NoDup t.*1 -> at_key k t = Some x <-> (k, x) ∈ t.
Proof.
  induction t as [|[k' x'] t IH]; simpl; [intros _; split; [done|]; by intros ?%elem_of_nil|].
  intros [Hk Hn]%NoDup_cons. rewrite elem_of_cons, <-IH by done. destruct (Z.eqb_spec k k') as [->|Hne].
  - split; [intros [= ->]; by left|]. intros [[= ->]|Hin%IH]; [done| |done].
    destruct Hk. apply list_elem_of_fmap. by exists (k', x).
  - split; [by right|]. by intros [[= -> ->]|].
Qed.
End table_lemmas.

(** The keys of a dense table: [from], [from + 1], ... *)
Fixpoint dense (from : Z) (ks : list Z) : Prop :=
  match ks with
  | [] => True
  | k :: ks => k = from /\ dense (from + 1) ks
  end.
Lemma dense_app from ks ks' : dense from (ks ++ ks') <-> dense from ks /\ dense (from + Z.of_nat (length ks)) ks'.
Proof.
  revert from. induction ks as [|k ks IH]; intros from; simpl; [by rewrite Z.add_0_r; split; [|intros []]|].
  rewrite IH. replace (from + 1 + Z.of_nat (length ks))%Z with (from + Z.of_nat (S (length ks)))%Z by lia. tauto.
Qed.
Lemma dense_range from ks : dense from ks -> Forall (fun k => from <= k < from + Z.of_nat (length ks))%Z ks.
Proof.
  revert from. induction ks as [|k ks IH]; intros from; simpl; [constructor|].
  intros [-> Hd]. constructor; [lia|]. eapply Forall_impl; [by apply IH|]. simpl. lia.
Qed.
Lemma dense_at from ks i k : dense from ks -> ks !! i = Some k -> k = (from + Z.of_nat i)%Z.
Proof.
  revert from i. induction ks as [|k' ks IH]; intros from [|i]; try done; simpl; intros [-> Hd].
  - intros [= <-]. lia.
  - intros Hk. rewrite (IH (from + 1)%Z i Hd Hk). lia.
Qed.
Lemma dense_nodup from ks : dense from ks -> NoDup ks.
Proof.
  revert from. induction ks as [|k ks IH]; intros from; simpl; [constructor|].
  intros [-> Hd]. constructor; [|by eapply IH]. intros Hin.
  apply dense_range in Hd. rewrite Forall_forall in Hd. specialize (Hd _ Hin). simpl in Hd. lia.
Qed.

Section histories.
Context {Num Rest J : Type} (number_zero : Num).
Context `{Sha256, RecordCodec (Num:=Num) (Rest:=Rest) (J:=J), !CodecLaws}.
Context (up : Upcaster (J:=J)).
Abbreviation SealedRecord := (SealedRecord (Num:=Num) (Rest:=Rest)).
Abbreviation RecordBody := (RecordBody (Num:=Num) (Rest:=Rest)).
Implicit Types (rs : list SealedRecord) (r : SealedRecord).

(** The signature's key id is text. *)
Definition signed_ok (r : SealedRecord) : Prop := forall a, signature r = Some a -> utf8 (key_id a) = true.
Definition tail_hash (rs : list SealedRecord) : Digest := match last rs with Some r => hash r | None => ZERO end.

(** A table holds a history: one row per record, in order, chained from the
    genesis and readable. *)
Record holds (run_ : RunId) (t : table bytes) (rs : list SealedRecord) : Prop := {
  ho_rows : Forall2 (fun p r => p.1 = seq (body r) /\ encode (row_of r) = Ok p.2) t rs;
  ho_chain : verify_loop ZERO 1 rs = Ok (tail_hash rs);
  ho_read : read_by up rs;
  ho_run : Forall (fun r => run (body r) = run_) rs;
  ho_signed : Forall signed_ok rs;
}.

Lemma row_of_ok r : signed_ok r -> row_ok (row_of r).
Proof. unfold signed_ok, row_ok, row_of. simpl. destruct (signature r) as [a|]; simpl; [by intros Ha; apply Ha|done]. Qed.

Lemma row_of_decodes r x : signed_ok r -> encode (row_of r) = Ok x -> decode x = Ok (row_of r).
Proof. intros Hs He. apply row_exact. split; [by apply row_of_ok|done]. Qed.

Lemma row_reads r x : signed_ok r -> encode (row_of r) = Ok x -> read_through up (raw r) = Ok (body r) ->
  hash r = chain (prev_hash r) (raw r) -> read_row up x = Ok r.
Proof.
  intros Hs He Hr Hh. unfold read_row. rewrite (row_of_decodes r x) by done. simpl. unfold into_record.
  apply from_stored_ok. split; [done|]. exists (body r). split; [done|]. simpl.
  destruct r as [b p h [[k s]|] x']; done.
Qed.

Lemma tail_hash_snoc rs r : tail_hash (rs ++ [r]) = hash r.
Proof. unfold tail_hash. by rewrite last_snoc. Qed.

Lemma verify_loop_tail from e rs h : verify_loop from e rs = Ok h ->
  Forall (fun r => hash r = chain (prev_hash r) (raw r)) rs /\ dense e ((seq ∘ body) <$> rs).
Proof.
  revert from e. induction rs as [|r rs IH]; intros from e; [done|].
  rewrite verify_loop_cons. intros (Hs & <- & Hh & [Hf Hd]%IH). split; [by constructor|]. done.
Qed.

Lemma holds_hashes run_ t rs : holds run_ t rs -> Forall (fun r => hash r = chain (prev_hash r) (raw r)) rs.
Proof. intros []. by eapply verify_loop_tail. Qed.
Lemma holds_dense run_ t rs : holds run_ t rs -> dense 1 t.*1 /\ t.*1 = (seq ∘ body) <$> rs.
Proof.
  intros [Hr Hc _ _ _]. assert (t.*1 = (seq ∘ body) <$> rs) as Heq.
  { clear Hc. induction Hr as [|p r t rs [Hp _] _ IH]; [done|]. rewrite !fmap_cons, IH, Hp. done. }
  split; [|done]. rewrite Heq. by eapply verify_loop_tail.
Qed.
Lemma holds_length run_ t rs : holds run_ t rs -> length t = length rs.
Proof. intros []. by eapply Forall2_length. Qed.

(** The head read from the table's last row is the end of the history. *)
Definition head_for (rs : list SealedRecord) : Head := mk_head (Z.of_nat (length rs)) (tail_hash rs).
Lemma holds_last run_ t rs : holds run_ t rs ->
  match last t, last rs with
  | None, None => rs = []
  | Some (s, x), Some r => s = Z.of_nat (length rs) /\ decode x = Ok (row_of r) /\ read_row up x = Ok r
  | _, _ => False
  end.
Proof.
  intros Hh. pose proof (holds_hashes _ _ _ Hh) as Hhs. destruct (holds_dense _ _ _ Hh) as [Hd Heq].
  pose proof (holds_length _ _ _ Hh) as Hl. destruct Hh as [Hr _ Hrd _ Hs].
  destruct rs as [|r rs _] using rev_ind; [by apply Forall2_nil_inv_r in Hr; subst|].
  apply Forall2_app_inv_r in Hr as (t' & t'' & _ & Hr & ->). apply Forall2_cons_inv_r in Hr as ([s x] & l & [Hs' He] & Hn & ->).
  apply Forall2_nil_inv_r in Hn as ->. rewrite !last_snoc. simpl in Hs', He.
  apply Forall_app in Hrd as [_ Hrd], Hs as [_ Hs], Hhs as [_ Hhs]. rewrite Forall_singleton in Hrd, Hs, Hhs.
  split_and!; [|by apply row_of_decodes|by apply row_reads].
  rewrite fmap_app in Hd. apply dense_app in Hd as [_ [Hd _]]. simpl in Hd. rewrite Hd, length_fmap.
  rewrite !length_app in Hl. rewrite length_app. simpl in *. lia.
Qed.

Lemma holds_head (t : Runs) run_ rs : holds run_ (rows t run_) rs -> head_of t run_ = Ok (head_for rs).
Proof.
  intros Hh. apply holds_last in Hh. unfold head_of, head_for, tail_hash.
  destruct (last (rows t run_)) as [[s x]|], (last rs) as [r|]; try done.
  - destruct Hh as (-> & -> & _). done.
  - by subst.
Qed.

Lemma holds_reads run_ t rs : holds run_ t rs -> read_rows up t.*2 = Ok rs.
Proof.
  intros Hh. pose proof (holds_hashes _ _ _ Hh) as Hhs. destruct Hh as [Hr _ Hrd _ Hs].
  induction Hr as [|[s x] r t rs [_ He] _ IH]; [done|].
  change (read_rows up ((s, x) :: t).*2) with (r ← read_row up x; rs ← read_rows up t.*2; Ok (r :: rs)).
  apply Forall_cons in Hrd as [Hrd Hrds], Hs as [Hs Hss], Hhs as [Hh Hhs].
  rewrite (row_reads r x) by done. by rewrite IH.
Qed.

Lemma holds_from run_ t rs : holds run_ t rs -> from_key 1 t = t.
Proof.
  intros Hh. apply from_key_all. destruct (holds_dense _ _ _ Hh) as [Hd _]. apply dense_range in Hd.
  rewrite Forall_fmap in Hd. eapply Forall_impl; [exact Hd|]. simpl. lia.
Qed.

(** One more record. *)
Lemma holds_snoc run_ t rs r x : holds run_ t rs ->
  seq (body r) = (Z.of_nat (length rs) + 1)%Z -> prev_hash r = tail_hash rs ->
  hash r = chain (prev_hash r) (raw r) -> read_through up (raw r) = Ok (body r) ->
  run (body r) = run_ -> signed_ok r -> encode (row_of r) = Ok x ->
  put (seq (body r)) x t = t ++ [(seq (body r), x)] /\ holds run_ (put (seq (body r)) x t) (rs ++ [r]).
Proof.
  intros Hh Hs Hp Hc Hrd Hrun Hsg He.
  assert (put (seq (body r)) x t = t ++ [(seq (body r), x)]) as Hput.
  { apply put_last. destruct (holds_dense _ _ _ Hh) as [Hd _]. pose proof (holds_length _ _ _ Hh) as Hl.
    apply dense_range in Hd. rewrite Forall_fmap in Hd. eapply Forall_impl; [exact Hd|].
    rewrite length_fmap. simpl. lia. }
  split; [done|]. rewrite Hput. destruct Hh as [Hr Hv Hrds Hruns Hsgs]. split.
  - apply Forall2_app; [done|]. by repeat constructor.
  - apply verify_loop_snoc. rewrite tail_hash_snoc. split_and!; [by rewrite Hp|lia|done|done].
  - apply Forall_app. split; [done|]. by apply Forall_singleton.
  - apply Forall_app. split; [done|]. by apply Forall_singleton.
  - apply Forall_app. split; [done|]. by apply Forall_singleton.
Qed.
Lemma holds_nil run_ : holds run_ [] [].
Proof. split; try done; constructor. Qed.

(** ** All runs of a tenant *)

(** What a record announces, if it announces an effect. *)
Definition started (b : RecordBody) : option EffectKey :=
  match kind b with EffectStarted => effect_key b | _ => None end.

(** The histories the tables stand for. *)
Abbreviation Histories := (RunId -> list SealedRecord).
Definition seqs_of (run_ : RunId) (es : list (RunId * Z)) : list Z :=
  omap (fun e => if decide (e.1 = run_) then Some e.2 else None) es.

Record runs_ok (hist : Histories) (t : Runs) : Prop := {
  ro_rows run_ : holds run_ (rows t run_) (hist run_);
  ro_once run_ key s : once t !! (run_, key) = Some s <->
    exists r, r ∈ hist run_ /\ started (body r) = Some key /\ seq (body r) = s;
  ro_unique run_ : NoDup (omap (started ∘ body) (hist run_));
  ro_case c run_ s : (c, run_, s) ∈ by_case t <->
    exists r, r ∈ hist run_ /\ case (body r) = Some c /\ seq (body r) = s;
  ro_feed : dense 1 (feed t).*1 /\ next_feed t = (Z.of_nat (length (feed t)) + 1)%Z;
  ro_feed_runs run_ : seqs_of run_ (feed t).*2 = (seq ∘ body) <$> hist run_;
}.

Lemma runs_ok_empty : runs_ok (fun _ => []) (runs (empty_state (Num:=Num))).
Proof.
  split.
  - intros run_. apply holds_nil.
  - intros run_ key s. split; [done|]. by intros (r & ?%elem_of_nil & _).
  - intros run_. constructor.
  - intros c run_ s. split; [set_solver|]. by intros (r & ?%elem_of_nil & _).
  - done.
  - done.
Qed.

Lemma claim_effect_ok (o o' : gmap (RunId * EffectKey) Z) b run_ : claim_effect o b run_ = Ok o' <->
  match started b with
  | Some key => o !! (run_, key) = None /\ o' = <[(run_, key) := seq b]> o
  | None => o' = o
  end.
Proof.
  unfold claim_effect, started. destruct (kind b); try naive_solver. destruct (effect_key b) as [key|]; [|naive_solver].
  destruct (o !! (run_, key)); naive_solver.
Qed.

Lemma seqs_of_snoc run_ run' s es :
  seqs_of run_ (es ++ [(run', s)]) = seqs_of run_ es ++ (if decide (run' = run_) then [s] else []).
Proof. unfold seqs_of. rewrite omap_app. simpl. by destruct (decide (run' = run_)). Qed.

Lemma rows_write (t : Runs) o run_ (b : RecordBody) x run' :
  rows (write_row t o run_ b x) run' = if decide (run' = run_) then put (seq b) x (rows t run_) else rows t run'.
Proof.
  unfold rows, write_row. simpl. destruct (decide (run' = run_)) as [->|Hne]; [by rewrite lookup_insert_eq|].
  by rewrite lookup_insert_ne.
Qed.

(** Appending one sealed record to its run. *)
Lemma runs_ok_write hist t o run_ r x : runs_ok hist t ->
  seq (body r) = (Z.of_nat (length (hist run_)) + 1)%Z -> prev_hash r = tail_hash (hist run_) ->
  hash r = chain (prev_hash r) (raw r) -> read_through up (raw r) = Ok (body r) ->
  run (body r) = run_ -> signed_ok r -> encode (row_of r) = Ok x ->
  claim_effect (once t) (body r) run_ = Ok o ->
  runs_ok (<[run_ := hist run_ ++ [r]]> hist) (write_row t o run_ (body r) x).
Proof.
  intros [Hrows Honce Huniq Hcase [Hfd Hfn] Hfr] Hs Hp Hh Hrd Hrun Hsg He Ho%claim_effect_ok.
  assert (forall run', <[run_ := hist run_ ++ [r]]> hist run' = if decide (run' = run_) then hist run_ ++ [r] else hist run') as Hup.
  { intros run'. destruct (decide (run' = run_)) as [->|Hne]; [by rewrite fn_lookup_insert|by rewrite fn_lookup_insert_ne]. }
  assert (put (next_feed t) (run_, seq (body r)) (feed t) = feed t ++ [(next_feed t, (run_, seq (body r)))]) as Hput.
  { apply put_last. apply dense_range in Hfd. rewrite Forall_fmap in Hfd. eapply Forall_impl; [exact Hfd|].
    rewrite length_fmap. simpl. lia. }
  split.
  - intros run'. rewrite rows_write, Hup. destruct (decide (run' = run_)) as [->|Hne]; [|apply Hrows].
    by apply holds_snoc.
  - intros run' key s. rewrite Hup. change (once (write_row t o run_ (body r) x)) with o.
    assert (forall key s, (exists r', r' ∈ hist run_ ++ [r] /\ started (body r') = Some key /\ seq (body r') = s) <->
      once t !! (run_, key) = Some s \/ (started (body r) = Some key /\ seq (body r) = s)) as Hsnoc.
    { intros key' s'. rewrite Honce. setoid_rewrite elem_of_app. setoid_rewrite list_elem_of_singleton. naive_solver. }
    destruct (decide (run' = run_)) as [->|Hne].
    + rewrite Hsnoc. destruct (started (body r)) as [key'|] eqn:Hst; [|subst; naive_solver].
      destruct Ho as [Hn ->]. destruct (decide (key = key')) as [->|Hk].
      * rewrite lookup_insert_eq. naive_solver.
      * rewrite lookup_insert_ne by congruence. naive_solver.
    + rewrite <-Honce. destruct (started (body r)) as [key'|]; [|by subst]. destruct Ho as [_ ->].
      by rewrite lookup_insert_ne by congruence.
  - intros run'. rewrite Hup. destruct (decide (run' = run_)) as [->|Hne]; [|apply Huniq].
    rewrite omap_app. apply NoDup_app. split; [apply Huniq|]. simpl.
    destruct (started (body r)) as [key|] eqn:Hst; simpl; rewrite ?Hst; [|split; [intros ?? ?%elem_of_nil; done|constructor]].
    split; [|apply NoDup_singleton]. intros key' (r' & Hr' & Hs')%list_elem_of_omap ->%list_elem_of_singleton.
    simpl in Hs'. destruct Ho as [Hn _]. assert (is_Some (once t !! (run_, key))) as [s' Hs''].
    { eexists. apply Honce. by exists r'. }
    congruence.
  - intros c run' s. rewrite Hup. simpl.
    assert ((c, run', s) ∈ by_case (write_row t o run_ (body r) x) <->
      (c, run', s) ∈ by_case t \/ (case (body r) = Some c /\ run' = run_ /\ s = seq (body r))) as ->.
    { simpl. destruct (case (body r)) as [c'|]; [|naive_solver]. rewrite elem_of_union, elem_of_singleton. naive_solver. }
    rewrite Hcase. destruct (decide (run' = run_)) as [->|Hne]; [|naive_solver].
    setoid_rewrite elem_of_app. setoid_rewrite list_elem_of_singleton. naive_solver.
  - simpl. rewrite Hput, fmap_app, dense_app, length_fmap, length_app. simpl. rewrite Hfn. split; [|lia].
    split_and!; [done|lia|done].
  - intros run'. simpl. rewrite Hput, fmap_app. simpl. rewrite seqs_of_snoc, Hfr, Hup. simpl.
    destruct (decide (run' = run_)) as [->|Hne].
    + rewrite decide_True by done. by rewrite fmap_app.
    + rewrite decide_False by done. by rewrite app_nil_r.
Qed.
End histories.
