(* ===== verification/JournalTrace.v ===== *)
(** * The journal store over time

    What one record moves in every table, and from it what every operation
    keeps: the invariant of a store's whole state against the histories its
    runs have, by induction over any sequence of operations. *)

From stdpp Require Import functions.
From S2P Require Import Prelude Digest EffectKey Panel Merkle Text Chain JournalRow Journal JournalRuns Index.

Section lists.
Context {A : Type}.
Implicit Types l : list A.
Lemma filter_ext_in l (P Q : A -> Prop) `{!forall x, Decision (P x), !forall x, Decision (Q x)} :
  (forall x, x ∈ l -> P x <-> Q x) -> filter P l = filter Q l.
Proof.
  induction l as [|x l IH]; intros Heq; [done|]. rewrite !filter_cons.
  rewrite IH by (intros y Hy; apply Heq; by right). pose proof (Heq x (list_elem_of_here _ _)).
  destruct (decide (P x)), (decide (Q x)); tauto.
Qed.
Lemma filter_none l (P : A -> Prop) `{!forall x, Decision (P x)} : (forall x, x ∈ l -> ~ P x) -> filter P l = [].
Proof.
  induction l as [|x l IH]; intros Hp; [done|]. rewrite filter_cons, decide_False by (apply Hp; left).
  apply IH. intros y Hy. apply Hp. by right.
Qed.
Lemma Forall_filter l (P Q : A -> Prop) `{!forall x, Decision (Q x)} : Forall P l -> Forall P (filter Q l).
Proof. rewrite !Forall_forall. intros Hp x [_ Hx]%list_elem_of_filter. by apply Hp. Qed.
End lists.

Section ascending.
Context {A : Type}.
Lemma ascending_inj (t : table A) k x y : StronglySorted (fun p q => p.1 < q.1)%Z t -> (k, x) ∈ t -> (k, y) ∈ t -> x = y.
Proof.
  induction t as [|[k' z] t IH]; [by intros _ ?%elem_of_nil|].
  intros [Hs Hk]%StronglySorted_inv Hx Hy. rewrite Forall_forall in Hk. apply elem_of_cons in Hx, Hy.
  destruct Hx as [Hx|Hx], Hy as [Hy|Hy]; simplify_eq; try done.
  - specialize (Hk _ Hy). simpl in Hk. lia.
  - specialize (Hk _ Hx). simpl in Hk. lia.
  - by apply IH.
Qed.
Lemma ascending_snoc (t : table A) k x : StronglySorted (fun p q => p.1 < q.1)%Z t -> Forall (fun p => p.1 < k)%Z t ->
  StronglySorted (fun p q => p.1 < q.1)%Z (t ++ [(k, x)]).
Proof.
  induction t as [|p t IH]; [intros _ _; by repeat constructor|].
  intros [Hs Hk]%StronglySorted_inv [Hp Ht]%Forall_cons. simpl. constructor; [by apply IH|].
  apply Forall_app. split; [done|]. by repeat constructor.
Qed.
End ascending.

Section trace.
Context {Num Rest J : Type} (number_zero : Num).
Context `{Sha256, RecordCodec (Num:=Num) (Rest:=Rest) (J:=J), !CodecLaws, ReasonCodec}.
Context (up : Upcaster (J:=J)) (up_reads : reads_current (Num:=Num) up).
Abbreviation SealedRecord := (SealedRecord (Num:=Num) (Rest:=Rest)).
Abbreviation RecordBody := (RecordBody (Num:=Num) (Rest:=Rest)).
Abbreviation RecordKind := (RecordKind (Num:=Num)).
Abbreviation Append := (Append (Num:=Num) (Rest:=Rest)).
Abbreviation Handle := (Handle (J:=J)).
Abbreviation State := (State (Num:=Num)).
Abbreviation Histories := (RunId -> list SealedRecord).
Abbreviation Tx := (Tx (Num:=Num) (Rest:=Rest)).
Implicit Types (rs : list SealedRecord) (r : SealedRecord) (hist : Histories).

(** The upcaster is the store's, and a signer's key id is text. *)
Definition handle_ok (h : Handle) : Prop :=
  upcaster h = up /\ forall s, signer h = Some s -> utf8 (signer_key s) = true.

(** ** One record of a batch *)

(** What [append_one] does, for the record [r] it seals. *)
Record appended (h : Handle) (run_ : RunId) (epoch_ : Epoch) (now : Z) (rs : list SealedRecord) (t t' : Tx) (r : SealedRecord) : Prop := {
  ap_seq : seq (body r) = (Z.of_nat (length rs) + 1)%Z;
  ap_prev : prev_hash r = tail_hash rs;
  ap_link : hash r = chain (prev_hash r) (raw r);
  ap_read : read_through up (raw r) = Ok (body r);
  ap_of : run (body r) = run_ /\ epoch (body r) = epoch_;
  ap_sig : signed_ok r;
  ap_runs : exists o x, encode (row_of r) = Ok x /\ claim_effect (once (tx_runs t)) (body r) run_ = Ok o
            /\ tx_runs t' = write_row (tx_runs t) o run_ (body r) x;
  ap_outcomes : tx_outcomes t' = conclude (tx_outcomes t) (kind (body r)) run_;
  ap_admitted : claim_admission (admissions (tx_admitted t)) (kind (body r)) run_ now = Ok (admissions (tx_admitted t'));
  ap_head : tx_head t' = head_for (rs ++ [r]);
  ap_waiting : tx_waiting t' = suspension (kind (body r));
  ap_sealed : tx_sealed t' = tx_sealed t ++ [r];
}.

Lemma append_one_ok h run_ epoch_ now rs t t' a : handle_ok h -> ap_run a = run_ -> tx_head t = head_for rs ->
  append_one h run_ epoch_ now t a = Ok t' -> exists r, appended h run_ epoch_ now rs t t' r.
Proof.
  intros [Hup Hsg] Hrun Hhd. unfold append_one. rewrite result_bind_ok. intros ([b w] & Hp & Hrest).
  rewrite result_bind_ok in Hrest. destruct Hrest as (r & Hr & Hrest).
  rewrite result_bind_ok in Hrest. destruct Hrest as (o & Ho & Hrest).
  rewrite result_bind_ok in Hrest. destruct Hrest as (x & Hx & Hrest).
  rewrite result_bind_ok in Hrest. destruct Hrest as (m & Hm & [= <-]).
  rewrite Hhd, Hup in *. 
  destruct (sealed_record up a _ _ _ _ b w r up_reads Hp Hr) as (Hb & Hpv & Hh & Hrd & Hs & He & Hru & Hsig & _).
  simpl in Hs. subst b. exists r. split; simpl; try done.
  - rewrite Hpv. done.
  - rewrite Hru. done.
  - intros s. rewrite Hsig. destruct (signer h) as [sg|] eqn:Hh'; [|done]. intros [= <-]. simpl. by apply Hsg.
  - by exists o, x.
  - unfold head_for. rewrite tail_hash_snoc, length_app. simpl. f_equal. lia.
Qed.

(** The invariant of the loop, for any property of a transaction and of the
    run's history that each record keeps. *)
Lemma append_all_ind (P : Tx -> list SealedRecord -> Prop) h run_ epoch_ now :
  handle_ok h ->
  (forall t t' rs r, P t rs -> appended h run_ epoch_ now rs t t' r -> P t' (rs ++ [r])) ->
  forall batch t t' rs, Forall (fun a => ap_run a = run_) batch -> tx_head t = head_for rs -> P t rs ->
  append_all h run_ epoch_ now t batch = Ok t' ->
  exists new, tx_sealed t' = tx_sealed t ++ new /\ P t' (rs ++ new) /\ length new = length batch
    /\ Forall (fun r => run (body r) = run_ /\ epoch (body r) = epoch_) new
    /\ tx_waiting t' = match last new with Some r => suspension (kind (body r)) | None => tx_waiting t end.
Proof.
  intros Hh Hstep. induction batch as [|a batch IH]; intros t t' rs Hruns Hhd HP; simpl.
  { intros [= <-]. exists []. by rewrite !app_nil_r. }
  apply Forall_cons in Hruns as [Hrun Hruns]. rewrite result_bind_ok. intros (t1 & H1' & H2').
  destruct (append_one_ok _ _ _ _ _ _ _ _ Hh Hrun Hhd H1') as [r Hr].
  destruct (IH t1 t' (rs ++ [r]) Hruns) as (new & Hs & HP' & Hl & Hf & Hw); [by destruct Hr|by eapply Hstep|done|].
  exists (r :: new). split_and!; [|by rewrite <-app_assoc in HP'|simpl; by rewrite Hl| |].
  - by rewrite Hs, (ap_sealed _ _ _ _ _ _ _ _ Hr), <-app_assoc.
  - constructor; [by destruct Hr|done].
  - rewrite Hw. destruct new as [|r' new]; [by destruct Hr|].
    change (last (r :: r' :: new)) with (last (r' :: new)). by destruct (last (r' :: new)) eqn:Hn; [|apply last_None in Hn].
Qed.

(** ** Histories as a record is added *)

Abbreviation grow hist run_ rs := (<[run_ := rs]> hist : Histories).
Lemma grow_at hist run_ rs run' : grow hist run_ rs run' = if decide (run' = run_) then rs else hist run'.
Proof.
  destruct (decide (run' = run_)) as [->|Hne]; [by rewrite fn_lookup_insert|by rewrite fn_lookup_insert_ne].
Qed.
Lemma grow_twice hist run_ rs rs' run' : grow (grow hist run_ rs) run_ rs' run' = grow hist run_ rs' run'.
Proof. rewrite !grow_at. by destruct (decide (run' = run_)). Qed.
Lemma grow_same hist run_ run' : grow hist run_ (hist run_) run' = hist run'.
Proof. rewrite grow_at. by destruct (decide (run' = run_)) as [->|]. Qed.

Lemma runs_ok_ext hist hist' t : (forall run_, hist run_ = hist' run_) -> runs_ok up hist t -> runs_ok up hist' t.
Proof. intros Heq []. split; intros; rewrite <-?Heq; auto. Qed.

Lemma runs_ok_appended h run_ epoch_ now hist rs t t' r : runs_ok up (grow hist run_ rs) (tx_runs t) ->
  appended h run_ epoch_ now rs t t' r -> runs_ok up (grow hist run_ (rs ++ [r])) (tx_runs t').
Proof.
  intros Hok []. destruct ap_runs0 as (o & x & He & Ho & ->). eapply runs_ok_ext; [apply (grow_twice hist run_ rs)|].
  assert (grow hist run_ rs run_ = rs) as Hg by (rewrite grow_at; by rewrite decide_True).
  pose proof (runs_ok_write up (grow hist run_ rs) (tx_runs t) o run_ r x) as Hw. rewrite Hg in Hw.
  apply Hw; try done. by destruct ap_of0.
Qed.

(** Where the feed points to for a record. *)
Definition place (r : SealedRecord) : RunId * Z := (run (body r), seq (body r)).
Lemma feed_appended h run_ epoch_ now hist rs t t' r : runs_ok up (grow hist run_ rs) (tx_runs t) ->
  appended h run_ epoch_ now rs t t' r -> (feed (tx_runs t')).*2 = (feed (tx_runs t)).*2 ++ [place r].
Proof.
  intros Hok []. destruct ap_runs0 as (o & x & _ & _ & ->). simpl. destruct (ro_feed _ _ _ Hok) as [Hd Hn].
  rewrite put_last.
  - rewrite fmap_app. unfold place. by destruct ap_of0 as [-> _].
  - apply dense_range in Hd. rewrite Forall_fmap in Hd. eapply Forall_impl; [exact Hd|]. rewrite length_fmap. simpl. lia.
Qed.

(** ** Conclusions *)

Definition conclusion (r : SealedRecord) : option str :=
  match kind (body r) with RunConcluded outcome => Some outcome | _ => None end.
Definition conclusions (rs : list SealedRecord) : list str := omap conclusion rs.

(** Rows by ascending key, the order of a range read. *)
Abbreviation ascending t := (StronglySorted (fun p q => p.1 < q.1)%Z t).

Record outcomes_ok (hist : Histories) (o : Outcomes) : Prop := {
  oo_of run_ : fst <$> outcome_of o !! run_ = last (conclusions (hist run_));
  oo_rows outcome ord run_ : (ord, run_) ∈ outcome_rows o outcome <-> outcome_of o !! run_ = Some (outcome, ord);
  oo_sorted outcome : ascending (outcome_rows o outcome);
  oo_next outcome : Forall (fun p => p.1 < next_conclusion o)%Z (outcome_rows o outcome);
}.

(** What a listing is, newest first, and what a record does to it: the
    specification the two tables refine. *)
Definition listing (o : Outcomes) (outcome : str) : list RunId := reverse (outcome_rows o outcome).*2.
Definition relist (outcome : str) (l : list RunId) (r : SealedRecord) : list RunId :=
  match conclusion r with
  | Some c => let others := filter (fun x => x <> run (body r)) l in
              if decide (c = outcome) then run (body r) :: others else others
  | None => l
  end.

Lemma outcomes_ok_ext hist hist' o : (forall run_, hist run_ = hist' run_) -> outcomes_ok hist o -> outcomes_ok hist' o.
Proof. intros Heq []. split; intros; rewrite <-?Heq; auto. Qed.

(** The outcomes with a run's row taken out. *)
Definition without (o : Outcomes) (run_ : RunId) : Outcomes :=
  match outcome_of o !! run_ with
  | Some (prior, ord) =>
      mk_outcomes (<[prior := remove ord (outcome_rows o prior)]> (by_outcome o)) (outcome_of o) (next_conclusion o)
  | None => o
  end.
Lemma outcome_rows_insert (m : gmap str (table RunId)) f n f' n' x t outcome :
  outcome_rows (mk_outcomes (<[x := t]> m) f n) outcome = if decide (x = outcome) then t else outcome_rows (mk_outcomes m f' n') outcome.
Proof.
  unfold outcome_rows. simpl. destruct (decide (x = outcome)) as [->|Hne]; [by rewrite lookup_insert_eq|by rewrite lookup_insert_ne].
Qed.
Lemma without_rows hist o run_ outcome : outcomes_ok hist o ->
  outcome_rows (without o run_) outcome = filter (fun p => p.2 <> run_) (outcome_rows o outcome).
Proof.
  intros Hok. unfold without. destruct (outcome_of o !! run_) as [[prior ord]|] eqn:Ho.
  - rewrite (outcome_rows_insert _ _ _ (outcome_of o) (next_conclusion o)). destruct (decide (prior = outcome)) as [->|Hne].
    + unfold remove. apply filter_ext_in. intros [k x] Hin. simpl. pose proof (proj2 (oo_rows _ _ Hok _ _ _) Ho) as Hrow.
      split; intros Hk; contradict Hk; subst.
      * apply (oo_rows _ _ Hok) in Hin. congruence.
      * by eapply ascending_inj; [apply (oo_sorted _ _ Hok)|..].
    + symmetry. destruct o. apply filter_all. intros [k x] Hin. simpl. intros ->. apply (oo_rows _ _ Hok) in Hin. congruence.
  - symmetry. apply filter_all. intros [k x] Hin. simpl. intros ->. apply (oo_rows _ _ Hok) in Hin. congruence.
Qed.

Lemma conclude_without (o : Outcomes) c run_ : conclude o (RunConcluded c : RecordKind) run_ =
  let o' := without o run_ in
  mk_outcomes (<[c := put (next_conclusion o') run_ (outcome_rows o' c)]> (by_outcome o'))
    (<[run_ := (c, next_conclusion o')]> (outcome_of o')) (next_conclusion o' + 1).
Proof. done. Qed.

Lemma without_kept o run_ : outcome_of (without o run_) = outcome_of o /\ next_conclusion (without o run_) = next_conclusion o.
Proof. unfold without. by destruct (outcome_of o !! run_) as [[]|]. Qed.

Lemma conclude_rows hist o c run_ outcome : outcomes_ok hist o ->
  outcome_rows (conclude o (RunConcluded c : RecordKind) run_) outcome =
  filter (fun p => p.2 <> run_) (outcome_rows o outcome) ++ (if decide (c = outcome) then [(next_conclusion o, run_)] else []).
Proof.
  intros Hok. rewrite conclude_without. cbv zeta. destruct (without_kept o run_) as [Hof Hn].
  rewrite (outcome_rows_insert _ _ _ (outcome_of (without o run_)) (next_conclusion (without o run_))).
  assert (outcome_rows (mk_outcomes (by_outcome (without o run_)) (outcome_of (without o run_)) (next_conclusion (without o run_))) outcome
    = outcome_rows (without o run_) outcome) as -> by by destruct (without o run_).
  destruct (decide (c = outcome)) as [->|Hne]; rewrite (without_rows hist) by done; [|by rewrite app_nil_r].
  rewrite Hn. apply put_last. apply Forall_filter. apply (oo_next _ _ Hok).
Qed.

Lemma others_rows (t : table RunId) run_ : (filter (fun p => p.2 <> run_) t).*2 = filter (fun x => x <> run_) t.*2.
Proof.
  induction t as [|p t IH]; [done|]. rewrite filter_cons, fmap_cons, filter_cons.
  destruct (decide (p.2 <> run_)); [by rewrite fmap_cons, IH|done].
Qed.

Lemma conclude_ok hist o c run_ rs r : outcomes_ok (grow hist run_ rs) o -> conclusion r = Some c ->
  outcomes_ok (grow hist run_ (rs ++ [r])) (conclude o (RunConcluded c : RecordKind) run_).
Proof.
  intros Hok Hc. assert (outcome_of (conclude o (RunConcluded c : RecordKind) run_) = <[run_ := (c, next_conclusion o)]> (outcome_of o)
    /\ next_conclusion (conclude o (RunConcluded c : RecordKind) run_) = (next_conclusion o + 1)%Z) as [Hof Hnx].
  { rewrite conclude_without. simpl. by destruct (without_kept o run_) as [-> ->]. }
  split; intros; rewrite ?Hof, ?Hnx, ?(conclude_rows _ _ _ _ _ Hok).
  - rewrite grow_at. destruct (decide (run_0 = run_)) as [->|Hne].
    + rewrite lookup_insert_eq. unfold conclusions. rewrite omap_app. simpl. rewrite Hc. by rewrite last_snoc.
    + rewrite lookup_insert_ne by done. rewrite (oo_of _ _ Hok), grow_at. by rewrite decide_False.
  - rewrite elem_of_app, list_elem_of_filter, (oo_rows _ _ Hok). simpl.
    destruct (decide (run_0 = run_)) as [->|Hne].
    + rewrite lookup_insert_eq. destruct (decide (c = outcome)) as [->|Hco].
      * rewrite list_elem_of_singleton. naive_solver.
      * split; [|congruence]. intros [[? _]|?%elem_of_nil]; done.
    + rewrite lookup_insert_ne by done. split; [|by left]. intros [[_ Ho]|Hin]; [done|].
      destruct (decide (c = outcome)); [apply list_elem_of_singleton in Hin; congruence|by apply elem_of_nil in Hin].
  - destruct (decide (c = outcome)).
    + apply ascending_snoc; [apply sorted_filter, (oo_sorted _ _ Hok)|apply Forall_filter, (oo_next _ _ Hok)].
    + rewrite app_nil_r. apply sorted_filter, (oo_sorted _ _ Hok).
  - apply Forall_app. split.
    + apply Forall_filter. eapply Forall_impl; [apply (oo_next _ _ Hok)|]. simpl. lia.
    + destruct (decide (c = outcome)); repeat constructor. simpl. lia.
Qed.

Lemma conclude_listing hist o c run_ outcome : outcomes_ok hist o ->
  listing (conclude o (RunConcluded c : RecordKind) run_) outcome =
  (if decide (c = outcome) then [run_] else []) ++ filter (fun x => x <> run_) (listing o outcome).
Proof.
  intros Hok. unfold listing. rewrite (conclude_rows _ _ _ _ _ Hok), fmap_app, reverse_app, others_rows, filter_reverse.
  by destruct (decide (c = outcome)).
Qed.

Lemma outcomes_ok_appended h run_ epoch_ now hist rs t t' r : outcomes_ok (grow hist run_ rs) (tx_outcomes t) ->
  appended h run_ epoch_ now rs t t' r ->
  outcomes_ok (grow hist run_ (rs ++ [r])) (tx_outcomes t')
  /\ forall outcome, listing (tx_outcomes t') outcome = relist outcome (listing (tx_outcomes t) outcome) r.
Proof.
  intros Hok Hap. rewrite (ap_outcomes _ _ _ _ _ _ _ _ Hap). pose proof (proj1 (ap_of _ _ _ _ _ _ _ _ Hap)) as Hrun.
  destruct (conclusion r) as [c|] eqn:Hc.
  - assert (kind (body r) = RunConcluded c) as -> by (unfold conclusion in Hc; destruct (kind (body r)); congruence).
    split; [by apply conclude_ok|]. intros outcome. rewrite (conclude_listing _ _ _ _ _ Hok). unfold relist.
    rewrite Hc, Hrun. by destruct (decide (c = outcome)).
  - assert (conclude (tx_outcomes t) (kind (body r)) run_ = tx_outcomes t) as ->.
    { unfold conclusion in Hc. by destruct (kind (body r)). }
    split; [|intros outcome; unfold relist; by rewrite Hc].
    destruct Hok. split; try done. intros run'. rewrite oo_of0, !grow_at. destruct (decide (run' = run_)); [|done].
    unfold conclusions. rewrite omap_app. simpl. rewrite Hc. by rewrite app_nil_r.
Qed.

(** ** Waits *)

(** What a run waits for: its last record, when that is a suspension. *)
Definition waits_for (rs : list SealedRecord) : option SuspendReason := r ← last rs; suspension (kind (body r)).

Record waits_ok (hist : Histories) (w : Waits) : Prop := {
  wo_at run_ : waiting_at w !! run_ = until <$> waits_for (hist run_);
  wo_rows u run_ text : waiting w !! (u, run_) = Some text <->
    exists reason, waits_for (hist run_) = Some reason /\ until reason = u /\ reason_text reason = Ok text;
}.

Lemma settle_waits_ok hist w w' run_ rs : waits_ok hist w -> settle_waits w run_ (waits_for rs) = Ok w' ->
  waits_ok (grow hist run_ rs) w'.
Proof.
  intros [Hat Hrows] Hs. unfold settle_waits in Hs.
  set (index := match waiting_at w !! run_ with Some prior => base.delete (prior, run_) (waiting w) | None => waiting w end) in Hs.
  assert (forall u run' text, index !! (u, run') = Some text <-> run' <> run_ /\ waiting w !! (u, run') = Some text) as Hindex.
  { intros u run' text. unfold index. rewrite Hat. destruct (waits_for (hist run_)) as [reason|] eqn:Hw; simpl.
    - rewrite lookup_delete_Some. split; [|naive_solver].
      intros [Hne Hl]. split; [|done]. intros ->. apply Hrows in Hl as (reason' & Hw' & <- & _). congruence.
    - split; [|naive_solver]. intros Hl. split; [|done]. intros ->. apply Hrows in Hl as (reason' & Hw' & _). congruence. }
  assert (exists text, match waits_for rs with
    | Some reason => reason_text reason = Ok text /\ w' = mk_waits (<[(until reason, run_) := text]> index) (<[run_ := until reason]> (base.delete run_ (waiting_at w)))
    | None => w' = mk_waits index (base.delete run_ (waiting_at w)) end) as [text Hw'].
  { destruct (waits_for rs) as [reason|]; [|exists []; congruence]. apply result_bind_ok in Hs as (text & Ht & [= <-]).
    exists text. by destruct (reason_text reason); simplify_eq/=. }
  clear Hs. split.
  - intros run'. rewrite grow_at. destruct (decide (run' = run_)) as [->|Hne].
    + destruct (waits_for rs) as [reason|]; [destruct Hw' as [_ ->]|subst w']; simpl;
        [by rewrite lookup_insert_eq|by rewrite lookup_delete_eq].
    + rewrite <-Hat. destruct (waits_for rs) as [reason|]; [destruct Hw' as [_ ->]|subst w']; simpl;
        by rewrite ?lookup_insert_ne, lookup_delete_ne.
  - intros u run' text'. rewrite grow_at. destruct (decide (run' = run_)) as [->|Hne].
    + destruct (waits_for rs) as [reason|]; [destruct Hw' as [Ht ->]|subst w']; simpl.
      * destruct (decide (until reason = u)) as [<-|Hu]; [rewrite lookup_insert_eq|rewrite lookup_insert_ne, Hindex by congruence].
        -- split; [intros [= <-]; by exists reason|]. intros (? & [= <-] & _ & Ht'). congruence.
        -- split; [by intros [? _]|]. intros (? & [= <-] & ? & _). done.
      * rewrite Hindex. split; [by intros [? _]|]. by intros (? & ? & _).
    + rewrite <-Hrows. destruct (waits_for rs) as [reason|]; [destruct Hw' as [Ht ->]|subst w']; simpl;
        rewrite ?lookup_insert_ne, Hindex by congruence; by split; [intros [_ ?]|].
Qed.

(** ** Leases and seals *)

Record leases_ok (hist : Histories) (l : gmap RunId (str * Epoch * Z)) : Prop := {
  lo_sorted run_ : StronglySorted Z.le ((epoch ∘ body) <$> hist run_);
  lo_lease run_ owner e x : l !! run_ = Some (owner, e, x) -> Forall (fun r => epoch (body r) <= e)%Z (hist run_);
}.

Record seals_ok (hist : Histories) (s : Seals (Num:=Num)) : Prop := {
  so_seal run_ o b t : seals s !! run_ = Some (o, b, t) -> b = as_bytes (tail_hash (hist run_))
    /\ exists r, last (hist run_) = Some r /\ kind_of (raw r) = Some (lit "RunConcluded");
  so_log : dense 0 (seal_log s).*1 /\ next_log_index s = Z.of_nat (length (seal_log s));
  so_once : NoDup (seal_log s).*2;
  so_runs run_ : run_ ∈ (seal_log s).*2 <-> is_Some (seals s !! run_);
}.

Lemma sorted_le_app l e n : StronglySorted Z.le l -> Forall (fun k => k <= e)%Z l -> StronglySorted Z.le (l ++ replicate n e).
Proof.
  induction l as [|k l IH]; intros Hs Hf; simpl.
  - clear. induction n as [|n IH]; simpl; constructor; [done|]. by apply Forall_replicate.
  - apply StronglySorted_inv in Hs as [Hs Hk]. apply Forall_cons in Hf as [Hke Hf]. constructor; [by apply IH|].
    apply Forall_app. split; [done|]. by apply Forall_replicate.
Qed.

(** The whole state against the histories. *)
Record ok (hist : Histories) (st : State) : Prop := {
  ok_runs : runs_ok up hist (runs st);
  ok_leases : leases_ok hist (leases st);
  ok_seals : seals_ok hist (sealed st);
  ok_outcomes : outcomes_ok hist (outcomes st);
  ok_waits : waits_ok hist (waits st);
}.

Lemma ok_empty : ok (fun _ => []) empty_state.
Proof.
  split.
  - by apply runs_ok_empty.
  - split; [intros; constructor|done].
  - split; try done; [constructor|]. intros run_. simpl. split; [by intros ?%elem_of_nil|by intros []].
  - split; try done; [|intros; constructor..]. intros outcome ord run_. split; [by intros ?%elem_of_nil|done].
  - split; [done|]. intros u run_ text. split; [done|]. by intros (reason & ? & _).
Qed.

(** ** Appending *)

(** An append without a lease is a restore's, which writes a run's records in
    the order they were written: at no epoch below the last. *)
Definition in_order (st : State) (run_ : RunId) (e : Epoch) : Prop :=
  match leases st !! run_ with
  | Some _ => True
  | None => match last (rows (runs st) run_) with
            | Some (_, x) => match read_row up x with Ok r => (epoch (body r) <= e)%Z | Err _ => True end
            | None => True
            end
  end.

Lemma sorted_last_max rs r : StronglySorted Z.le ((epoch ∘ body) <$> rs) -> last rs = Some r ->
  Forall (fun r' => epoch (body r') <= epoch (body r))%Z rs.
Proof.
  induction rs as [|r' rs IH]; [done|]. rewrite fmap_cons. intros [Hs Hk]%StronglySorted_inv Hl.
  destruct rs as [|r'' rs]; [injection Hl as <-; by repeat constructor|].
  change (last (r' :: r'' :: rs)) with (last (r'' :: rs)) in Hl. constructor; [|by apply IH].
  rewrite Forall_fmap, Forall_forall in Hk. apply last_Some_elem_of in Hl. by apply (Hk r).
Qed.

Lemma below_epoch hist st run_ e : ok hist st -> fence st run_ e = Ok tt -> in_order st run_ e ->
  Forall (fun r => epoch (body r) <= e)%Z (hist run_).
Proof.
  intros Hok Hf Ho. unfold fence, in_order in *. destruct (leases st !! run_) as [[[owner current] x]|] eqn:Hl.
  - apply ensure_ok, bool_decide_eq_true in Hf as ->. by apply (lo_lease _ _ (ok_leases _ _ Hok) _ _ _ _ Hl).
  - pose proof (holds_last up _ _ _ (ro_rows up _ _ (ok_runs _ _ Hok) run_)) as Hlast.
    destruct (last (rows (runs st) run_)) as [[s x]|], (last (hist run_)) as [r|] eqn:Hh; try done; [|by rewrite Hlast].
    destruct Hlast as (_ & _ & Hr). rewrite Hr in Ho.
    eapply Forall_impl; [by apply sorted_last_max; [apply (lo_sorted _ _ (ok_leases _ _ Hok))|]|]. simpl. lia.
Qed.

Lemma append_tx_ok hist h st run_ e now batch st' new : ok hist st -> handle_ok h ->
  batch <> [] -> Forall (fun a => ap_run a = run_) batch -> in_order st run_ e ->
  append_tx h st run_ e now batch = Ok (st', new) ->
  ok (grow hist run_ (hist run_ ++ new)) st' /\ seals (sealed st) !! run_ = None
  /\ leases st' = leases st /\ sealed st' = sealed st /\ length new = length batch
  /\ Forall (fun r => run (body r) = run_ /\ epoch (body r) = e) new
  /\ (feed (runs st')).*2 = (feed (runs st)).*2 ++ (place <$> new)
  /\ forall outcome, listing (outcomes st') outcome = foldl (relist outcome) (listing (outcomes st) outcome) new.
Proof.
  intros Hok Hh Hne Hruns Hord. unfold append_tx. rewrite !seq_ok. intros (Hf & Hz & Hrest).
  pose proof (below_epoch _ _ _ _ Hok Hf Hord) as Hle.
  rewrite (holds_head up (runs st) run_ (hist run_)) in Hrest by apply (ok_runs _ _ Hok).
  simpl in Hrest. apply result_bind_ok in Hrest as (t & Ht & Hrest).
  apply result_bind_ok in Hrest as (w & Hw & [= <- <-]).
  apply (append_all_ind (fun t rs => exists done_, rs = hist run_ ++ done_
      /\ runs_ok up (grow hist run_ rs) (tx_runs t) /\ outcomes_ok (grow hist run_ rs) (tx_outcomes t)
      /\ (feed (tx_runs t)).*2 = (feed (runs st)).*2 ++ (place <$> done_)
      /\ forall outcome, listing (tx_outcomes t) outcome = foldl (relist outcome) (listing (outcomes st) outcome) done_)
    h run_ e now Hh) with (rs := hist run_) in Ht as (new & Hs & (done_ & Hd & Hro & Hoo & Hfe & Hli) & Hl & Hfo & Hwt);
    [|clear -up_reads|done|done|].
  - apply app_inv_head in Hd as <-. simpl in Hs. rewrite Hs. simpl.
    assert (seals (sealed st) !! run_ = None) as Hns.
    { unfold frozen in Hz. by destruct (seals (sealed st) !! run_) as [[[]]|]. }
    split_and!; try done. destruct Hok as [_ Hlo Hso _ Hwo]. split; simpl; try done.
    + split; intros run'; rewrite grow_at; destruct (decide (run' = run_)) as [->|]; try apply Hlo.
      * rewrite fmap_app. assert ((epoch ∘ body) <$> new = replicate (length new) e) as ->.
        { clear -Hfo. induction Hfo as [|r new [_ Hr] _ IH]; [done|]. rewrite fmap_cons, IH. simpl. by rewrite Hr. }
        apply sorted_le_app; [apply Hlo|]. by rewrite Forall_fmap.
      * intros owner e' x Hle'. apply Forall_app. split; [by eapply Hlo|].
        unfold fence in Hf. rewrite Hle' in Hf. apply ensure_ok, bool_decide_eq_true in Hf as <-.
        eapply Forall_impl; [exact Hfo|]. simpl. lia.
    + destruct Hso. split; try done. intros run' o b t' Hse. rewrite grow_at.
      destruct (decide (run' = run_)) as [->|]; [congruence|by eapply so_seal0].
    + apply (settle_waits_ok hist (waits st)); [done|]. rewrite <-Hw. f_equal. rewrite Hwt. unfold waits_for.
      destruct new as [|r new _] using rev_ind; [by destruct batch|]. by rewrite app_assoc, !last_snoc.
  - intros t0 t1 rs r (done_ & -> & Hro & Hoo & Hfe & Hli) Hap. exists (done_ ++ [r]).
    destruct (outcomes_ok_appended _ _ _ _ _ _ _ _ _ Hoo Hap) as [Hoo' Hli'].
    split_and!; [by rewrite app_assoc|by eapply runs_ok_appended|done| |].
    { rewrite (feed_appended _ _ _ _ _ _ _ _ _ Hro Hap), Hfe, fmap_app. by rewrite app_assoc. }
    intros outcome. by rewrite Hli', Hli, foldl_snoc.
  - exists []. rewrite !app_nil_r. split_and!; [done| | |done|done].
    + eapply runs_ok_ext; [intros run'; symmetry; apply grow_same|]. apply Hok.
    + eapply outcomes_ok_ext; [intros run'; symmetry; apply grow_same|]. apply Hok.
Qed.

(** ** Sealing *)

Lemma index_verdict_log h (t : Runs) (s s' : Seals (Num:=Num)) run_ n : index_verdict number_zero h t s run_ n = Ok s' ->
  seals s' = seals s /\ seal_log s' = seal_log s /\ next_log_index s' = next_log_index s.
Proof.
  unfold index_verdict. destruct (row_at t run_ 1) as [x|]; [|by intros [= <-]].
  intros (r & _ & [= <-])%result_bind_ok. by destruct (kind (body r)).
Qed.

Lemma seal_tx_ok hist h st run_ e outcome now st' d : ok hist st ->
  seal_tx number_zero h st run_ e outcome now = Ok (st', d) ->
  ok hist st' /\ d = tail_hash (hist run_) /\ is_Some (seals (sealed st') !! run_)
  /\ (st' = st \/ (seals (sealed st) !! run_ = None /\ st' = with_sealed st (sealed st')
        /\ (forall run', run' <> run_ -> seals (sealed st') !! run' = seals (sealed st) !! run')
        /\ seal_log (sealed st') = seal_log (sealed st) ++ [(next_log_index (sealed st), run_)])).
Proof.
  intros Hok. unfold seal_tx. rewrite seq_ok. intros [_ Hrest].
  apply result_bind_ok in Hrest as (row & Hrow & Hrest). apply seq_ok in Hrest as [Hc Hrest].
  rewrite (holds_head up (runs st) run_ (hist run_)) in Hrest by apply (ok_runs _ _ Hok). simpl in Hrest.
  assert (exists r, last (hist run_) = Some r /\ kind_of (raw r) = Some (lit "RunConcluded")) as (r & Hr & Hk).
  { pose proof (holds_last up _ _ _ (ro_rows up _ _ (ok_runs _ _ Hok) run_)) as Hl.
    apply ensure_ok, bool_decide_eq_true in Hc.
    destruct (last (rows (runs st) run_)) as [[s x]|]; [|by injection Hrow as <-].
    destruct (last (hist run_)) as [r|]; [|done]. destruct Hl as (_ & Hd & _). rewrite Hd in Hrow. injection Hrow as <-.
    by exists r. }
  destruct (seals (sealed st) !! run_) as [p|] eqn:Hs.
  { injection Hrest as <- <-. split_and!; [done|done|by rewrite Hs|by left]. }
  apply result_bind_ok in Hrest as (s' & Hi & [= <- <-]). apply index_verdict_log in Hi as (Hse & Hlo & Hne). simpl in *.
  destruct (ok_seals _ _ Hok) as [Hseal [Hdense Hnext] Honce Hruns].
  assert (put (next_log_index (sealed st)) run_ (seal_log (sealed st)) = seal_log (sealed st) ++ [(next_log_index (sealed st), run_)]) as Hput.
  { apply put_last. apply dense_range in Hdense. rewrite Forall_fmap in Hdense. eapply Forall_impl; [exact Hdense|].
    rewrite length_fmap. simpl. lia. }
  rewrite Hput in Hlo. split_and!; [|done|rewrite Hse; by rewrite lookup_insert_eq|].
  - destruct Hok. split; try done. simpl. split; simpl.
    + intros run' o b t'. rewrite Hse. destruct (decide (run' = run_)) as [->|Hn].
      * rewrite lookup_insert_eq. intros [= <- <- <-]. split; [done|]. by exists r.
      * rewrite lookup_insert_ne by done. apply Hseal.
    + rewrite Hlo, fmap_app, dense_app, length_fmap, length_app. simpl. rewrite Hnext. split; [|lia]. split; [done|]. by split.
    + rewrite Hlo, fmap_app. apply NoDup_app. split; [done|]. split; [|apply NoDup_singleton].
      intros x Hx ->%list_elem_of_singleton. apply Hruns in Hx. simpl in Hx. rewrite Hs in Hx. by destruct Hx.
    + intros run'. rewrite Hlo, Hse, fmap_app, elem_of_app, Hruns. simpl. rewrite list_elem_of_singleton.
      destruct (decide (run' = run_)) as [->|Hn]; [rewrite lookup_insert_eq; naive_solver|].
      rewrite lookup_insert_ne by done. naive_solver.
  - right. split_and!; try done. intros run' Hn. rewrite Hse. by rewrite lookup_insert_ne.
Qed.

(** ** Leases *)

Lemma with_leases_ok hist st l : ok hist st ->
  (forall run_ owner e x, l !! run_ = Some (owner, e, x) -> Forall (fun r => epoch (body r) <= e)%Z (hist run_)) ->
  ok hist (with_leases st l).
Proof. intros [? [] ? ? ?] Hl. by split. Qed.

Lemma acquire_epoch_above hist h st run_ now e : ok hist st -> upcaster h = up -> acquire_epoch h st run_ now = Ok e ->
  Forall (fun r => epoch (body r) < e)%Z (hist run_)
  /\ match leases st !! run_ with Some (_, e', x) => e = (e' + 1)%Z /\ (x <= now)%Z | None => True end.
Proof.
  intros Hok Hup. unfold acquire_epoch. destruct (leases st !! run_) as [[[owner e'] x]|] eqn:Hl.
  - destruct (Z.leb_spec x now); [|done]. intros [= <-]. split; [|done].
    eapply Forall_impl; [by apply (lo_lease _ _ (ok_leases _ _ Hok) _ _ _ _ Hl)|]. simpl. lia.
  - pose proof (holds_last up _ _ _ (ro_rows up _ _ (ok_runs _ _ Hok) run_)) as Hlast. unfold epoch_after_history.
    destruct (last (rows (runs st) run_)) as [[s x]|], (last (hist run_)) as [r|] eqn:Hh; try done.
    + destruct Hlast as (_ & _ & Hr). rewrite Hup, Hr. intros [= <-]. split; [|done].
      eapply Forall_impl; [by apply sorted_last_max; [apply (lo_sorted _ _ (ok_leases _ _ Hok))|]|]. simpl. lia.
    + rewrite Hlast. by split.
Qed.

Lemma acquire_ok hist h st run_ owner ttl now st' l : ok hist st -> upcaster h = up ->
  acquire h st run_ owner ttl now = (st', Ok l) ->
  exists expires, st' = with_leases st (<[run_ := (owner, l_epoch l, expires)]> (leases st))
    /\ l_run l = run_ /\ l_owner l = owner /\ Forall (fun r => epoch (body r) < l_epoch l)%Z (hist run_)
    /\ match leases st !! run_ with Some (_, e', x) => l_epoch l = (e' + 1)%Z /\ (x <= now)%Z | None => True end.
Proof.
  intros Hok Hup. unfold acquire. destruct (lease_expiry now ttl) as [expires|]; [|done].
  destruct (acquire_epoch h st run_ now) as [e|] eqn:He; [|done]. intros [= <- <-]. simpl.
  destruct (acquire_epoch_above _ _ _ _ _ _ Hok Hup He). by exists expires.
Qed.

(** ** Sequences of operations *)

Inductive Op :=
| OAppend (h : Handle) (now : Z) (e : Epoch) (batch : list Append)
| OAcquire (h : Handle) (run_ : RunId) (owner : str) (ttl now : Z)
| ORenew (run_ : RunId) (owner : str) (e : Epoch) (ttl now : Z)
| ORelease (run_ : RunId) (e : Epoch)
| OReopen (now : Z)
| OSeal (h : Handle) (run_ : RunId) (e : Epoch) (outcome : str) (now : Z)
| OForget (cutoff : Z)
| OCancel (run_ : RunId) (who : Operator) (reason : str) (now : Z).
Definition apply_op (st : State) (o : Op) : State :=
  match o with
  | OAppend h now e batch => (append h st now e batch).1
  | OAcquire h run_ owner ttl now => (acquire h st run_ owner ttl now).1
  | ORenew run_ owner e ttl now => (renew st run_ owner e ttl now).1
  | ORelease run_ e => release_lease st run_ e
  | OReopen now => lapse_every_lease st now
  | OSeal h run_ e outcome now => (seal number_zero h st run_ e outcome now).1
  | OForget cutoff => (forget_admissions st cutoff).1
  | OCancel run_ who reason now => (request_cancel st run_ who reason now).1
  end.
Definition apply_ops (st : State) (os : list Op) : State := foldl apply_op st os.

Definition op_ok (st : State) (o : Op) : Prop :=
  match o with
  | OAppend h _ e batch => handle_ok h /\ match batch with a :: _ => in_order st (ap_run a) e | [] => True end
  | OAcquire h _ _ _ _ | OSeal h _ _ _ _ => upcaster h = up
  | _ => True
  end.
Fixpoint trace_ok (st : State) (os : list Op) : Prop :=
  match os with
  | [] => True
  | o :: os => op_ok st o /\ trace_ok (apply_op st o) os
  end.

(** The histories once the records [new] are committed. *)
Definition extend hist (new : list SealedRecord) : Histories :=
  fun run_ => hist run_ ++ filter (fun r => run (body r) = run_) new.
Lemma extend_nil hist run_ : extend hist [] run_ = hist run_.
Proof. apply app_nil_r. Qed.
Lemma extend_app hist a b run_ : extend (extend hist a) b run_ = extend hist (a ++ b) run_.
Proof. unfold extend. by rewrite filter_app, app_assoc. Qed.
Lemma extend_one hist run_ new run' : Forall (fun r => run (body r) = run_) new ->
  extend hist new run' = grow hist run_ (hist run_ ++ new) run'.
Proof.
  intros Hf. unfold extend. rewrite grow_at. destruct (decide (run' = run_)) as [->|Hne].
  - by rewrite filter_all by (by apply Forall_forall).
  - rewrite <-(app_nil_r (hist run')) at 2. f_equal. rewrite Forall_forall in Hf.
    apply filter_none. intros r Hr. rewrite Hf by done. congruence.
Qed.

Lemma ok_ext hist hist' st : (forall run_, hist run_ = hist' run_) -> ok hist st -> ok hist' st.
Proof.
  intros Heq [Hr [Hl1 Hl2] [Hs1 Hs2 Hs3 Hs4] Ho [Hw1 Hw2]]. split.
  - by eapply runs_ok_ext.
  - split; intros; rewrite <-Heq; eauto.
  - split; intros; rewrite <-?Heq; eauto.
  - by eapply outcomes_ok_ext.
  - split; intros; rewrite <-?Heq; eauto.
Qed.

(** What an operation that commits [new] moves, and what none takes back. *)
Record moves (new : list SealedRecord) (st st' : State) : Prop := {
  mv_sealed run_ : is_Some (seals (sealed st) !! run_) ->
    Forall (fun r => run (body r) <> run_) new /\ is_Some (seals (sealed st') !! run_);
  mv_log : seal_log (sealed st) `prefix_of` seal_log (sealed st');
  mv_lease run_ owner e x : leases st !! run_ = Some (owner, e, x) ->
    exists owner' e' x', leases st' !! run_ = Some (owner', e', x') /\ (e <= e')%Z;
  mv_feed : (feed (runs st')).*2 = (feed (runs st)).*2 ++ (place <$> new);
  mv_listing outcome : listing (outcomes st') outcome = foldl (relist outcome) (listing (outcomes st) outcome) new;
}.
Lemma moves_trans a b st1 st2 st3 : moves a st1 st2 -> moves b st2 st3 -> moves (a ++ b) st1 st3.
Proof.
  intros [Hs1 Hl1 He1 Hf1 Ho1] [Hs2 Hl2 He2 Hf2 Ho2]. split.
  - intros run_ Hs. destruct (Hs1 run_ Hs) as [Hh Hs']. destruct (Hs2 run_ Hs') as [Hh' Hs'']. by rewrite Forall_app.
  - by etrans.
  - intros run_ owner e x Hl. destruct (He1 _ _ _ _ Hl) as (o' & e' & x' & Hl' & Hle).
    destruct (He2 _ _ _ _ Hl') as (o'' & e'' & x'' & Hl'' & Hle'). exists o'', e'', x''. split; [done|lia].
  - by rewrite Hf2, Hf1, fmap_app, app_assoc.
  - intros outcome. by rewrite Ho2, Ho1, foldl_app.
Qed.

(** A step that commits [new] to a state whose histories are [hist]. *)
Definition steps_to hist (new : list SealedRecord) (st st' : State) : Prop := ok (extend hist new) st' /\ moves new st st'.
(** One that commits nothing: only the tables of seals, leases, admissions and
    requests may differ. *)
Lemma quiet hist st st' : ok hist st' -> runs st' = runs st -> outcomes st' = outcomes st ->
  seal_log (sealed st) `prefix_of` seal_log (sealed st') ->
  (forall run_, is_Some (seals (sealed st) !! run_) -> is_Some (seals (sealed st') !! run_)) ->
  (forall run_ owner e x, leases st !! run_ = Some (owner, e, x) ->
    exists owner' e' x', leases st' !! run_ = Some (owner', e', x') /\ (e <= e')%Z) ->
  steps_to hist [] st st'.
Proof.
  intros Hok Hr Ho Hlog Hs Hl. split; [eapply ok_ext; [|exact Hok]; intros; by rewrite extend_nil|].
  split; try done; [by auto|by rewrite Hr, app_nil_r|by rewrite Ho].
Qed.
Lemma still hist st : ok hist st -> steps_to hist [] st st.
Proof. intros Hok. apply quiet; try done. intros run_ owner e x Hl. by exists owner, e, x. Qed.

(** Only the leases move, and no epoch goes back. *)
Lemma lease_set hist st run_ owner' e' x' : ok hist st ->
  (forall owner e x, leases st !! run_ = Some (owner, e, x) -> (e <= e')%Z) ->
  Forall (fun r => epoch (body r) <= e')%Z (hist run_) ->
  steps_to hist [] st (with_leases st (<[run_ := (owner', e', x')]> (leases st))).
Proof.
  intros Hok Hle Hb. apply quiet; try done.
  - apply with_leases_ok; [done|]. intros run' owner e x.
    destruct (decide (run' = run_)) as [->|Hne]; [rewrite lookup_insert_eq; by intros [= <- <- <-]|].
    rewrite lookup_insert_ne by done. apply (lo_lease _ _ (ok_leases _ _ Hok)).
  - intros run' owner e x. simpl. destruct (decide (run' = run_)) as [->|Hne].
    + rewrite lookup_insert_eq. intros Hl. exists owner', e', x'. split; [done|by eapply Hle].
    + rewrite lookup_insert_ne by done. intros Hl. by exists owner, e, x.
Qed.

Lemma append_step hist h st now e batch : ok hist st -> op_ok st (OAppend h now e batch) ->
  match append h st now e batch with
  | (st', Ok new) => length new = length batch /\ steps_to hist new st st'
  | (st', Err _) => st' = st
  end.
Proof.
  intros Hok. destruct batch as [|a batch]; simpl; [by intros _; split; [|apply still]|]. intros [Hh Hord].
  destruct (bool_decide_reflect (ap_run a = ap_run a)) as [_|]; [|done]. simpl.
  destruct (forallb _ batch) eqn:Hall; [|done]. rewrite forallb_forall in Hall.
  destruct (append_tx h st (ap_run a) e now (a :: batch)) as [[st' new]|] eqn:Htx; [|done].
  eapply append_tx_ok in Htx as (Hok' & Hns & Hle & Hse & Hlen & Hf & Hfe & Hli); [|done..| |done].
  - assert (Forall (fun r => run (body r) = ap_run a) new) as Hr by (eapply Forall_impl; [exact Hf|]; by intros r []).
    split; [done|]. split; [eapply ok_ext; [|exact Hok']; intros; symmetry; by apply extend_one|].
    split; try done.
    + intros run' Hs. rewrite Hse. split; [|done]. eapply Forall_impl; [exact Hr|]. simpl. intros r Hru Heq. subst run'.
      rewrite Hru, Hns in Hs. by destruct Hs.
    + by rewrite Hse.
    + intros run' owner e' x Hl. rewrite Hle. by exists owner, e', x.
  - constructor; [done|]. apply Forall_forall. intros b Hb%list_elem_of_In. specialize (Hall _ Hb).
    by apply bool_decide_eq_true in Hall.
Qed.

Lemma renew_step hist st run_ owner e ttl now : ok hist st -> steps_to hist [] st (renew st run_ owner e ttl now).1.
Proof.
  intros Hok. unfold renew. destruct (lease_expiry now ttl) as [x'|]; [|by apply still].
  destruct (leases st !! run_) as [[[held_by held] x]|] eqn:Hl; [|by apply still].
  case_match eqn:Hc; [|by apply still]. rewrite !andb_true_iff, !bool_decide_eq_true in Hc.
  destruct Hc as [[-> ->] _]. simpl. apply lease_set; [done| |by eapply (lo_lease _ _ (ok_leases _ _ Hok))].
  intros owner' e' x'' Hl'. rewrite Hl in Hl'. injection Hl' as -> -> ->. lia.
Qed.
Lemma release_step hist st run_ e : ok hist st -> steps_to hist [] st (release_lease st run_ e).
Proof.
  intros Hok. unfold release_lease. destruct (leases st !! run_) as [[[held_by held] x]|] eqn:Hl; [|by apply still].
  case_bool_decide; [subst|by apply still].
  apply lease_set; [done| |by eapply (lo_lease _ _ (ok_leases _ _ Hok))].
  intros owner' e' x'' Hl'. rewrite Hl in Hl'. injection Hl' as -> -> ->. lia.
Qed.
Lemma lapse_step hist st now : ok hist st -> steps_to hist [] st (lapse_every_lease st now).
Proof.
  intros Hok. unfold lapse_every_lease. apply quiet; try done.
  - apply with_leases_ok; [done|]. intros run_ owner e x. rewrite lookup_fmap_Some.
    intros ([[owner' e'] x'] & Heq & Hl).
    assert (e = e') as -> by (case_match; simpl in Heq; congruence). by eapply (lo_lease _ _ (ok_leases _ _ Hok)).
  - intros run_ owner e x Hl. simpl. rewrite lookup_fmap, Hl. simpl. case_match; simpl; eexists _, e, _; by split.
Qed.
Lemma acquire_step hist h st run_ owner ttl now : ok hist st -> upcaster h = up ->
  steps_to hist [] st (acquire h st run_ owner ttl now).1.
Proof.
  intros Hok Hup. destruct (acquire h st run_ owner ttl now) as [st' [l|err]] eqn:Hac.
  - destruct (acquire_ok _ _ _ _ _ _ _ _ _ Hok Hup Hac) as (x & -> & _ & _ & Hb & Hl). simpl.
    apply lease_set; [done| |eapply Forall_impl; [exact Hb|]; simpl; lia].
    intros owner' e' x' Hl'. rewrite Hl' in Hl. lia.
  - assert (st' = st) as ->; [|by apply still]. unfold acquire in Hac. repeat case_match; congruence.
Qed.
Lemma seal_step hist h st run_ e outcome now : ok hist st ->
  steps_to hist [] st (seal number_zero h st run_ e outcome now).1.
Proof.
  intros Hok. unfold seal. destruct (seal_tx number_zero h st run_ e outcome now) as [[st' d]|] eqn:Htx; [|by apply still].
  eapply seal_tx_ok in Htx as (Hok' & _ & Hs' & Hc); [|done]. simpl.
  destruct Hc as [->|(Hn & Heq & Hoth & Hlog)]; [by apply still|].
  apply quiet; [done|by rewrite Heq|by rewrite Heq|rewrite Hlog; by apply prefix_app_r| |].
  - intros run' Hs. destruct (decide (run' = run_)) as [->|]; [done|by rewrite Hoth].
  - intros run' owner e' x Hl. rewrite Heq. by exists owner, e', x.
Qed.

Lemma step_ok hist st o : ok hist st -> op_ok st o -> exists new, steps_to hist new st (apply_op st o).
Proof.
  intros Hok Ho. destruct o as [h now e batch|h run_ owner ttl now|run_ owner e ttl now|run_ e|now|h run_ e outcome now|cutoff|run_ who reason now].
  - pose proof (append_step _ _ _ now e batch Hok Ho) as Hs. simpl.
    destruct (append h st now e batch) as [st' [new|err]]; [exists new; by destruct Hs|]. exists []. simpl in Hs. subst st'. simpl. apply (still _ _ Hok).
  - exists []. by apply acquire_step.
  - exists []. by apply renew_step.
  - exists []. by apply release_step.
  - exists []. by apply lapse_step.
  - exists []. by apply seal_step.
  - exists []. apply quiet; try done; [by destruct Hok|]. intros run' owner e x Hl. by exists owner, e, x.
  - exists []. simpl. unfold request_cancel. destruct (cancels st !! run_); [by apply still|].
    apply quiet; try done; [by destruct Hok|]. intros run' owner e x Hl. by exists owner, e, x.
Qed.

Lemma trace_later os : forall hist st, ok hist st -> trace_ok st os -> exists new, steps_to hist new st (apply_ops st os).
Proof.
  induction os as [|o os IH]; intros hist st Hok Ht; [exists []; by apply still|].
  destruct Ht as [Ho Ht]. destruct (step_ok _ _ _ Hok Ho) as (a & Hok1 & Hm1).
  destruct (IH _ _ Hok1 Ht) as (b & Hok2 & Hm2). exists (a ++ b). split; [|by eapply moves_trans].
  eapply ok_ext; [|exact Hok2]. intros run_. apply extend_app.
Qed.

Lemma trace_ok_app st os os' : trace_ok st (os ++ os') <-> trace_ok st os /\ trace_ok (apply_ops st os) os'.
Proof. revert st. induction os as [|o os IH]; intros st; simpl; [tauto|]. rewrite IH. tauto. Qed.
End trace.
