(* ===== verification/JournalSafety.v ===== *)
(** * What the journal store promises

    The store's contract over any sequence of its operations from an empty
    file: histories that only grow and always verify, writers that are fenced
    out for good, effects that start once, a log that can prove it only grew,
    and listings that are what replaying the feed would say. *)

From stdpp Require Import functions.
From S2P Require Import Prelude Digest EffectKey Panel Merkle Checkpoint Text Chain JournalRow Journal JournalRuns JournalTrace.

Section safety.
Context {Num Rest J : Type} (number_zero : Num).
Context `{Sha256, RecordCodec (Num:=Num) (Rest:=Rest) (J:=J), !CodecLaws, ReasonCodec}.
Context (up : Upcaster (J:=J)) (up_reads : reads_current (Num:=Num) up).
Abbreviation SealedRecord := (SealedRecord (Num:=Num) (Rest:=Rest)).
Abbreviation Append := (Append (Num:=Num) (Rest:=Rest)).
Abbreviation Handle := (Handle (J:=J)).
Abbreviation State := (State (Num:=Num)).
Abbreviation Histories := (RunId -> list SealedRecord).
Abbreviation Op := (Op (Num:=Num) (Rest:=Rest) (J:=J)).
Implicit Types (rs : list SealedRecord) (r : SealedRecord) (hist : Histories) (os : list Op) (st : State).

(** The store after the operations [os], opened on an empty file. *)
Definition after os : State := apply_ops number_zero empty_state os.
Definition legal os : Prop := trace_ok number_zero up empty_state os.
Abbreviation committed fs := (extend (fun _ => []) fs).

Lemma after_app os os' : after (os ++ os') = apply_ops number_zero (after os) os'.
Proof. apply foldl_app. Qed.

(** ** From the invariant to what is read *)

Lemma reached os : legal os -> exists fs, ok up (committed fs) (after os) /\ moves fs empty_state (after os).
Proof. intros Hl. eapply (trace_later number_zero up up_reads) in Hl as (fs & Hs); [by exists fs|]. apply ok_empty. Qed.
Lemma reached_more os os' : legal (os ++ os') -> exists fs more,
  (ok up (committed fs) (after os) /\ moves fs empty_state (after os))
  /\ ok up (extend (committed fs) more) (after (os ++ os')) /\ moves more (after os) (after (os ++ os')).
Proof.
  unfold legal. rewrite trace_ok_app. intros [Hl Hl']. destruct (reached os Hl) as (fs & Hok & Hm).
  eapply (trace_later number_zero up up_reads) in Hl' as (more & Hs); [|exact Hok]. rewrite after_app. by exists fs, more.
Qed.

Lemma reads_history hist st (h : Handle) run_ : ok up hist st -> upcaster h = up -> read h st run_ 1 = Ok (hist run_).
Proof.
  intros Hok Hup. pose proof (ro_rows up _ _ (ok_runs _ _ _ Hok) run_) as Hh. unfold read.
  rewrite (holds_from up _ _ _ Hh), Hup. by eapply holds_reads.
Qed.
Lemma verifies_history hist st (h : Handle) run_ : ok up hist st -> upcaster h = up -> verify h st run_ = Ok (tail_hash (hist run_)).
Proof.
  intros Hok Hup. unfold verify. rewrite (reads_history hist) by done. simpl.
  pose proof (ro_rows up _ _ (ok_runs _ _ _ Hok) run_) as Hh.
  destruct (hist run_) as [|r rs] eqn:Hr; [done|]. rewrite verify_chain_loop.
  pose proof (ho_chain _ _ _ _ Hh) as Hv. assert (seq (body r) = 1%Z) as ->; [|done].
  by apply verify_loop_cons in Hv as [? _].
Qed.
Lemma head_history hist st run_ : ok up hist st -> head st run_ = Ok (head_for (hist run_)).
Proof. intros Hok. by apply (holds_head up), (ok_runs _ _ _ Hok). Qed.

Lemma append_one_run h st now e run_ a (batch : list Append) : Forall (fun b => ap_run b = run_) (a :: batch) ->
  append h st now e (a :: batch) =
  match append_tx h st run_ e now (a :: batch) with Ok (st', rs) => (st', Ok rs) | Err e => (st, Err e) end.
Proof.
  intros Hr. unfold append. assert (ap_run a = run_) as Ha by by apply Forall_cons in Hr as [? _].
  match goal with |- context [forallb ?f ?l] => assert (forallb f l = true) as -> end; [|by rewrite Ha].
  apply forallb_forall. intros b Hin%list_elem_of_In. apply bool_decide_eq_true.
  rewrite Forall_forall in Hr. rewrite Ha. by apply Hr.
Qed.

(** ** Histories *)

(** C5. Histories verify and only grow.  After any sequence of appends,
    leases, renewals, releases, reopenings, seals, prunings and cancellations,
    every run reads back, [verify] accepts what it reads up to the head the store
    reports, positions count from one without a gap, and whatever happens next
    only adds records behind those already there. *)
Theorem history_verifies os os' h run_ : legal (os ++ os') -> upcaster h = up ->
  exists rs more,
    read h (after os) run_ 1 = Ok rs /\ verify h (after os) run_ = Ok (tail_hash rs)
    /\ head (after os) run_ = Ok (mk_head (Z.of_nat (length rs)) (tail_hash rs))
    /\ dense 1 ((seq ∘ body) <$> rs) /\ Forall (fun r => run (body r) = run_) rs
    /\ read h (after (os ++ os')) run_ 1 = Ok (rs ++ more).
Proof.
  intros (fs & more & [Hok _] & Hok' & _)%reached_more Hup.
  pose proof (ro_rows up _ _ (ok_runs _ _ _ Hok) run_) as Hh. destruct (holds_dense _ _ _ _ Hh) as [Hd Heq].
  eexists _, _. split_and!; [by apply reads_history|by apply verifies_history|by apply head_history|by rewrite <-Heq|by apply Hh|].
  by rewrite (reads_history (extend (committed fs) more)).
Qed.

(** C6. A lost lease is lost for good.  Once a run has been leased at an
    epoch, every record written before it carries a smaller one; and whatever
    happens later, a writer still at a smaller epoch can neither append nor
    seal, its store is not touched, and whoever leases the run next does so at a
    larger epoch.  Appends to a run nobody ever leased come in the order of
    their epochs, as a restore writes them ([legal]). *)
Theorem fenced_out os os' h run_ owner ttl now l st' : legal (os ++ OAcquire h run_ owner ttl now :: os') ->
  acquire h (after os) run_ owner ttl now = (st', Ok l) ->
  let st := after (os ++ OAcquire h run_ owner ttl now :: os') in
  (exists rs, read h (after os) run_ 1 = Ok rs /\ Forall (fun r => epoch (body r) < l_epoch l)%Z rs)
  /\ (forall h' now' e a batch, (e < l_epoch l)%Z -> Forall (fun b => ap_run b = run_) (a :: batch) ->
        exists current, (l_epoch l <= current)%Z /\ append h' st now' e (a :: batch) = (st, Err (Fenced run_ e current)))
  /\ (forall h' e outcome now', (e < l_epoch l)%Z ->
        exists current, (l_epoch l <= current)%Z /\ seal number_zero h' st run_ e outcome now' = (st, Err (Fenced run_ e current)))
  /\ (forall h' owner' ttl' now' st'' l', upcaster h' = up ->
        acquire h' st run_ owner' ttl' now' = (st'', Ok l') -> (l_epoch l < l_epoch l')%Z).
Proof.
  intros Hl Hac. cbv zeta. rewrite after_app. unfold legal in Hl. rewrite trace_ok_app in Hl. destruct Hl as [Hl [Hup Hl']].
  destruct (reached os Hl) as (fs & Hok & _). simpl in Hup.
  destruct (acquire_ok up _ _ _ _ _ _ _ _ _ Hok Hup Hac) as (x & Heq & _ & _ & Hb & _).
  fold (after os) in Hl'. simpl in Hl'. rewrite Hac in Hl'. simpl in Hl'.
  change (apply_ops number_zero (after os) (OAcquire h run_ owner ttl now :: os'))
    with (apply_ops number_zero (acquire h (after os) run_ owner ttl now).1 os').
  rewrite Hac. change (st', Ok l).1 with st'.
  pose proof (acquire_step up _ _ _ run_ owner ttl now Hok Hup) as [Hok1 _]. rewrite Hac in Hok1. simpl in Hok1.
  destruct (trace_later number_zero up up_reads _ _ _ Hok1 Hl') as (more & Hok2 & Hm).
  assert (leases st' !! run_ = Some (owner, l_epoch l, x)) as Hst'.
  { rewrite Heq. simpl. by rewrite lookup_insert_eq. }
  destruct (mv_lease _ _ _ Hm _ _ _ _ Hst') as (o' & e' & x' & Hl2 & Hle).
  set (st := apply_ops number_zero st' os') in *.
  assert (forall e, (e < l_epoch l)%Z -> fence st run_ e = Err (Fenced run_ e e')) as Hf.
  { intros e He. unfold fence. rewrite Hl2. unfold ensure. rewrite bool_decide_false; [done|lia]. }
  split_and!.
  - eexists. split; [by apply reads_history|done].
  - intros h' now' e a batch He Hr. exists e'. split; [done|]. rewrite (append_one_run _ _ _ _ run_) by done.
    unfold append_tx. by rewrite Hf.
  - intros h' e outcome now' He. exists e'. split; [done|]. unfold seal, seal_tx. by rewrite Hf.
  - intros h' owner' ttl' now' st'' l' Hup' Hac'.
    destruct (acquire_ok up _ _ _ _ _ _ _ _ _ Hok2 Hup' Hac') as (x'' & _ & _ & _ & _ & Hlt). rewrite Hl2 in Hlt. lia.
Qed.

(** ** Effects *)

Lemma append_one_once (h : Handle) run_ e now t t' a : append_one h run_ e now t a = Ok t' ->
  (forall key, is_Some (once (tx_runs t) !! (run_, key)) -> is_Some (once (tx_runs t') !! (run_, key)))
  /\ forall key, ap_written a = None -> ap_kind a = EffectStarted -> ap_key a = Some key ->
     once (tx_runs t) !! (run_, key) = None.
Proof.
  unfold append_one. intros ([b w] & Hp & Hrest)%result_bind_ok.
  apply result_bind_ok in Hrest as (r & _ & Hrest). apply result_bind_ok in Hrest as (o & Ho%claim_effect_ok & Hrest).
  apply result_bind_ok in Hrest as (x & _ & Hrest). apply result_bind_ok in Hrest as (m & _ & [= <-]). simpl. split.
  - intros key Hk. destruct (started b) as [key'|]; [|by subst]. destruct Ho as [_ ->].
    destruct (decide (key = key')) as [->|Hne]; [by rewrite lookup_insert_eq|by rewrite lookup_insert_ne by congruence].
  - intros key Hw Hk Hkey. unfold into_parts in Hp. rewrite Hw in Hp. injection Hp as <- _.
    unfold started in Ho. simpl in Ho. rewrite Hk, Hkey in Ho. by destruct Ho.
Qed.

Lemma append_all_once (h : Handle) run_ e now key a batch : a ∈ batch ->
  ap_written a = None -> ap_kind a = EffectStarted -> ap_key a = Some key ->
  forall t, is_Some (once (tx_runs t) !! (run_, key)) -> exists err, append_all h run_ e now t batch = Err err.
Proof.
  intros Hin Hw Hk Hkey. induction batch as [|b batch IH]; [by apply elem_of_nil in Hin|]. intros t Ht. simpl.
  destruct (append_one h run_ e now t b) as [t'|err] eqn:Hone; [|by exists err].
  apply append_one_once in Hone as [Hmono Hfresh]. apply elem_of_cons in Hin as [->|Hin].
  - rewrite (Hfresh key) in Ht by done. by destruct Ht.
  - apply IH; [done|]. by apply Hmono.
Qed.

(** C7. An effect starts once.  In every history the announced effect keys are
    all different; and once a key is announced, no later append whose batch
    announces it again in the same run commits, at whatever epoch and from
    whatever handle: it is refused and the store is as it was. *)
Theorem effect_starts_once os os' h run_ : legal (os ++ os') -> upcaster h = up ->
  exists rs, read h (after os) run_ 1 = Ok rs /\ NoDup (omap (started ∘ body) rs)
  /\ forall key, key ∈ omap (started ∘ body) rs ->
     forall h' now e a batch, Forall (fun b => ap_run b = run_) batch -> a ∈ batch ->
       ap_written a = None -> ap_kind a = EffectStarted -> ap_key a = Some key ->
       exists err, append h' (after (os ++ os')) now e batch = (after (os ++ os'), Err err).
Proof.
  intros (fs & more & [Hok _] & Hok' & _)%reached_more Hup.
  eexists. split_and!; [by apply reads_history|apply (ro_unique up _ _ (ok_runs _ _ _ Hok))|].
  intros key (r & Hr & Hs)%list_elem_of_omap h' now e a batch Hruns Hin Hw Hk Hkey.
  set (st := after (os ++ os')) in *.
  assert (is_Some (once (runs st) !! (run_, key))) as Ho.
  { eexists. apply (ro_once up _ _ (ok_runs _ _ _ Hok')). exists r. split_and!; [|exact Hs|done].
    apply elem_of_app. by left. }
  destruct batch as [|b batch]; [by apply elem_of_nil in Hin|]. rewrite (append_one_run _ _ _ _ run_) by done. unfold append_tx.
  destruct (fence st run_ e) as [[]|]; [|by eexists]. destruct (frozen st run_) as [[]|]; [|by eexists].
  rewrite (holds_head up _ _ _ (ro_rows up _ _ (ok_runs _ _ _ Hok') run_)).
  edestruct (append_all_once h' run_ e now key a (b :: batch)) as [err Herr]; [done..| |].
  2: { cbn [mbind]. simpl. simpl in Herr. rewrite Herr. by exists err. }
  done.
Qed.

(** ** The published log *)

(** The log's leaves and positions, from the histories. *)
Definition leaves_of hist (log : table RunId) : list LeafHash := (fun p => leaf_hash (tail_hash (hist p.2))) <$> log.
Definition places_of hist (i : Z) (log : table RunId) : list (RunId * (Z * Digest)) :=
  imap (fun k p => (p.2, ((i + Z.of_nat k)%Z, tail_hash (hist p.2)))) log.
Lemma places_cons hist i p log : places_of hist i (p :: log) = (p.2, (i, tail_hash (hist p.2))) :: places_of hist (i + 1) log.
Proof.
  unfold places_of. simpl. f_equal; [by rewrite Z.add_0_r|]. apply imap_ext. intros k q _. simpl.
  by replace (i + 1 + Z.of_nat k)%Z with (i + Z.of_nat (S k))%Z by lia.
Qed.
Lemma places_runs hist i log : (places_of hist i log).*1 = log.*2.
Proof. revert i. induction log as [|p log IH]; intros i; [done|]. by rewrite places_cons, !fmap_cons, IH. Qed.

Lemma walk_ok hist st log i : seals_ok hist (sealed st) -> Forall (fun p => is_Some (seals (sealed st) !! p.2)) log ->
  walk st i log = Ok (leaves_of hist log, places_of hist i log).
Proof.
  intros Hs. revert i. induction log as [|[k run_] log IH]; intros i; [done|]. intros [[[[o b] t] Hl] Hf]%Forall_cons.
  rewrite places_cons. simpl in *. rewrite Hl. destruct (so_seal _ _ Hs _ _ _ _ Hl) as [-> _].
  rewrite (proj2 (to_digest_Some _ (tail_hash (hist run_)))) by done. simpl. by rewrite IH.
Qed.
Lemma log_walk_ok hist st : ok up hist st -> log_walk st = Ok (leaves_of hist (seal_log (sealed st)), places_of hist 0 (seal_log (sealed st))).
Proof.
  intros Hok. apply walk_ok; [apply (ok_seals _ _ _ Hok)|]. apply Forall_forall. intros p Hp.
  apply (so_runs _ _ (ok_seals _ _ _ Hok)). apply list_elem_of_fmap. by exists p.
Qed.
Lemma placed_ok hist i log k run_ : NoDup log.*2 -> log.*2 !! k = Some run_ ->
  placed run_ (places_of hist i log) = Some ((i + Z.of_nat k)%Z, tail_hash (hist run_)).
Proof.
  revert i k. induction log as [|p log IH]; intros i k; [done|]. intros [Hp Hn]%NoDup_cons Hk.
  rewrite places_cons. unfold placed in *. rewrite filter_cons. simpl in *.
  destruct k as [|k]; simpl in Hk.
  - injection Hk as Hk. rewrite decide_True by done. rewrite filter_none; [simpl; by rewrite Z.add_0_r, Hk|].
    intros q Hq Hr. destruct Hp. rewrite <-(places_runs hist (i + 1)), Hk, <-Hr. apply list_elem_of_fmap. by exists q.
  - rewrite decide_False; [rewrite (IH _ k) by done;
      by replace (i + 1 + Z.of_nat k)%Z with (i + Z.of_nat (S k))%Z by lia|].
    intros Heq. destruct Hp. rewrite Heq. by eapply list_elem_of_lookup_2.
Qed.

Lemma leaves_prefix hist hist' log log' : log `prefix_of` log' -> (forall run_, run_ ∈ log.*2 -> hist' run_ = hist run_) ->
  take (length log) (leaves_of hist' log') = leaves_of hist log.
Proof.
  intros [l ->] Heq. unfold leaves_of. rewrite fmap_app, take_app_length' by by rewrite length_fmap.
  apply list_fmap_ext. intros k p Hp. rewrite Heq; [done|]. apply list_elem_of_fmap. exists p. split; [done|].
  by eapply list_elem_of_lookup_2.
Qed.

Lemma checkpoint_ok hist st (h : Handle) c : ok up hist st -> checkpoint h st = Ok c ->
  cp_size c = zlen (seal_log (sealed st)) /\ cp_root c = root (leaves_of hist (seal_log (sealed st))).
Proof.
  intros Hok. unfold checkpoint. intros [_ Hc]%seq_ok. rewrite (log_walk_ok hist) in Hc by done. simpl in Hc.
  injection Hc as <-. split; [|done]. unfold leaves_of. simpl. by rewrite zlen_fmap.
Qed.

Abbreviation log_of st := (seal_log (sealed st)).

(** A later log's leaves start with an earlier one's. *)
Lemma log_grows hist more st st' : ok up hist st -> ok up (extend hist more) st' -> moves more st st' ->
  length (log_of st) <= length (log_of st')
  /\ take (length (log_of st)) (leaves_of (extend hist more) (log_of st')) = leaves_of hist (log_of st)
  /\ forall k run_, (log_of st).*2 !! k = Some run_ -> (log_of st').*2 !! k = Some run_ /\ extend hist more run_ = hist run_.
Proof.
  intros Hok Hok' Hm. pose proof (mv_log _ _ _ Hm) as Hpre.
  assert (forall run_, run_ ∈ (log_of st).*2 -> extend hist more run_ = hist run_) as Hsame.
  { intros run_ Hr. apply (so_runs _ _ (ok_seals _ _ _ Hok)), (mv_sealed _ _ _ Hm) in Hr as [Hno _].
    unfold extend. rewrite filter_none; [by rewrite app_nil_r|]. by rewrite Forall_forall in Hno. }
  split_and!; [by apply prefix_length|by apply leaves_prefix|]. intros k run_ Hk. split.
  - destruct Hpre as [l Heq]. rewrite Heq, fmap_app. by apply lookup_app_l_Some.
  - apply Hsame. by eapply list_elem_of_lookup_2.
Qed.

Lemma leaves_zlen hist log : zlen (leaves_of hist log) = zlen log.
Proof. apply zlen_fmap. Qed.
Lemma zlen_nat {A} (l : list A) : Z.to_nat (zlen l) = length l.
Proof. apply Nat2Z.id. Qed.

Lemma consistency_served hist st n : ok up hist st -> fits (log_of st) -> n <= length (log_of st) ->
  let leaves := leaves_of hist (log_of st) in
  exists proof, consistency_proof_at st (Z.of_nat n) (zlen (log_of st)) = Ok proof
    /\ verify_consistency (Z.of_nat n) (root (take n leaves)) (zlen (log_of st)) (root leaves) proof = true.
Proof.
  intros Hok Hfit Hn leaves. exists (Merkle.consistency_proof leaves n). unfold consistency_proof_at.
  rewrite (log_walk_ok hist) by done. simpl. fold leaves.
  assert (zlen leaves = zlen (log_of st)) as Hz by apply leaves_zlen.
  rewrite Hz, !bool_decide_false by (unfold zlen; lia). simpl.
  rewrite Nat2Z.id, zlen_nat, firstn_all2 by (unfold leaves, leaves_of; rewrite length_fmap; lia).
  split; [done|]. rewrite <-Hz. apply consistency_complete; [by apply fits_fmap|unfold leaves, leaves_of; rewrite length_fmap; lia].
Qed.

Lemma inclusion_served hist st n k run_ : ok up hist st -> fits (log_of st) -> n <= length (log_of st) -> k < n ->
  (log_of st).*2 !! k = Some run_ ->
  let leaves := leaves_of hist (log_of st) in
  exists proof, inclusion_proof_at st run_ (Z.of_nat n) = Ok (Some (mk_inclusion (Z.of_nat k) (Z.of_nat n) (tail_hash (hist run_)) proof))
    /\ verify_inclusion (leaf_hash (tail_hash (hist run_))) (Z.of_nat k) (Z.of_nat n) proof (root (take n leaves)) = true.
Proof.
  intros Hok Hfit Hn Hkn Hk leaves. exists (Merkle.inclusion_proof (take n leaves) k).
  assert (length leaves = length (log_of st)) as Hl by apply length_fmap.
  assert (zlen (take n leaves) = Z.of_nat n) as Hz by (apply zlen_take; lia). split.
  - unfold inclusion_proof_at. rewrite (log_walk_ok hist) by done. simpl. fold leaves.
    rewrite bool_decide_false by (unfold zlen; lia).
    rewrite (placed_ok _ _ _ k) by (try done; apply (so_once _ _ (ok_seals _ _ _ Hok))). simpl.
    rewrite Z.add_0_l, !Nat2Z.id, Hz, bool_decide_true by lia. done.
  - rewrite <-Hz at 1. apply inclusion_complete; [unfold fits, zlen in *; rewrite length_take; lia|].
    rewrite lookup_take_lt by done. unfold leaves, leaves_of. apply list_lookup_fmap_Some in Hk as (p & Hk & Hl0).
    rewrite list_lookup_fmap, Hk. simpl. by rewrite Hl0.
Qed.

(** C29. The published log only grows, and what it commits to is the histories.
    Between any two checkpoints the store ever gives, the consistency proof it
    serves for their sizes satisfies the verifier; and for every run sealed by the
    first, the inclusion proof it serves at that size, however much later, places
    in the first checkpoint's root the very head the run's stored history still
    verifies to. *)
Theorem published_log os os' h c c' : legal (os ++ os') -> upcaster h = up ->
  fits (seal_log (sealed (after (os ++ os')))) ->
  checkpoint h (after os) = Ok c -> checkpoint h (after (os ++ os')) = Ok c' ->
  let st' := after (os ++ os') in
  (exists proof, consistency_proof_at st' (cp_size c) (cp_size c') = Ok proof
    /\ verify_consistency (cp_size c) (cp_root c) (cp_size c') (cp_root c') proof = true)
  /\ forall run_, is_Some (seals (sealed (after os)) !! run_) ->
     exists i, inclusion_proof_at st' run_ (cp_size c) = Ok (Some i)
       /\ verify_inclusion (leaf_hash (in_seal i)) (in_index i) (in_size i) (in_proof i) (cp_root c) = true
       /\ in_size i = cp_size c /\ verify h st' run_ = Ok (in_seal i).
Proof.
  intros (fs & more & [Hok _] & Hok' & Hm)%reached_more Hup Hfit Hc Hc'. cbv zeta.
  apply (checkpoint_ok _ _ _ _ Hok) in Hc as [-> ->]. apply (checkpoint_ok _ _ _ _ Hok') in Hc' as [-> ->].
  destruct (log_grows _ _ _ _ Hok Hok' Hm) as (Hlen & <- & Hat). split; [by apply consistency_served|].
  intros run_ Hs. apply (so_runs _ _ (ok_seals _ _ _ Hok)), list_elem_of_lookup in Hs as [k Hk].
  assert (k < length (log_of (after os))) as Hkl by (apply lookup_lt_Some in Hk; by rewrite length_fmap in Hk).
  destruct (Hat _ _ Hk) as [Hk' _].
  destruct (inclusion_served _ _ _ _ _ Hok' Hfit Hlen Hkl Hk') as (proof & Hp & Hv).
  eexists. split_and!; [exact Hp|exact Hv|done|by apply verifies_history].
Qed.

(** ** The feed and the listings *)

Lemma row_of_history hist st r : ok up hist st -> r ∈ hist (run (body r)) ->
  exists x, row_at (runs st) (run (body r)) (seq (body r)) = Some x /\ read_row up x = Ok r.
Proof.
  intros Hok Hr. pose proof (ro_rows up _ _ (ok_runs _ _ _ Hok) (run (body r))) as Hh.
  pose proof (holds_hashes _ _ _ _ Hh) as Hhs. destruct (holds_dense _ _ _ _ Hh) as [Hd _]. destruct Hh as [Hrows _ Hrd _ Hsg].
  apply list_elem_of_lookup in Hr as [i Hr]. destruct (Forall2_lookup_r _ _ _ _ _ Hrows Hr) as ([s x] & Hx & Hs & He).
  simpl in Hs, He. exists x. split.
  - apply at_key_elem; [by eapply dense_nodup|]. rewrite <-Hs. by eapply list_elem_of_lookup_2.
  - apply row_reads; [by eapply (Forall_lookup_1 _ _ _ _ Hsg)|done|by eapply (Forall_lookup_1 _ _ _ _ Hrd)|].
    by eapply (Forall_lookup_1 _ _ _ _ Hhs).
Qed.

Lemma dense_from k from (t : table (RunId * Z)) : dense from t.*1 ->
  from_key (from + Z.of_nat k) t = drop k t.
Proof.
  revert k from. induction t as [|p t IH]; intros k from; [by rewrite drop_nil|]. rewrite fmap_cons. intros [Hp Hd].
  unfold from_key in *. rewrite filter_cons. destruct k as [|k].
  - rewrite decide_True by lia. rewrite drop_0. f_equal. rewrite <-(drop_0 t) at 2. rewrite <-(IH 0 (from + 1)%Z) by done.
    apply filter_ext_in. intros q Hq. apply dense_range in Hd. rewrite Forall_fmap, Forall_forall in Hd.
    specialize (Hd _ Hq). simpl in Hd. lia.
  - rewrite decide_False by lia. simpl. rewrite <-(IH k (from + 1)%Z) by done. apply list_filter_iff. intros q. lia.
Qed.

Lemma read_places hist st (page : table (RunId * Z)) fs : ok up hist st -> page.*2 = place <$> fs ->
  Forall (fun r => r ∈ hist (run (body r))) fs ->
  read_rows up (omap (fun p => row_at (runs st) p.2.1 p.2.2) page) = Ok fs.
Proof.
  intros Hok. revert page. induction fs as [|r fs IH]; intros [|p page] Hpg Hin; [done..|].
  rewrite !fmap_cons in Hpg. injection Hpg as Hp Hpg. apply Forall_cons in Hin as [Hr Hin].
  destruct (row_of_history _ _ _ Hok Hr) as (x & Hx & Hrd). specialize (IH page Hpg Hin). simpl in IH |- *.
  rewrite Hp. simpl. rewrite Hx. simpl. rewrite Hrd. simpl. unfold omap in IH. by rewrite IH.
Qed.

(** Where a cursor stands: the position of the last record it has passed. *)
Definition cursor_at (k : nat) : option str := if decide (k = 0) then None else Some (show_Z (Z.of_nat k)).

Lemma feed_page_ok fs st (h : Handle) k limit : ok up (committed fs) st -> (feed (runs st)).*2 = place <$> fs ->
  upcaster h = up -> (zlen fs < u64_max)%Z -> k <= length fs ->
  feed_page h st (cursor_at k) limit =
    Ok (take limit (drop k fs), cursor_at (k + length (take limit (drop k fs)))).
Proof.
  intros Hok Hpl Hup Hlt Hk. destruct (ro_feed _ _ _ (ok_runs _ _ _ Hok)) as [Hd _].
  assert (length (feed (runs st)) = length fs) as Hlen by (apply (f_equal length) in Hpl; by rewrite !length_fmap in Hpl).
  assert (exists after, (match cursor_at k with
      | None => Ok 1%Z
      | Some cursor => p ← ok_or (parse_u64 cursor) (Backend (lit "not a feed cursor")); Ok (sat_add p 1)
      end : result StoreError Z) = Ok after /\ after = (1 + Z.of_nat k)%Z) as (after_ & Hc & ->).
  { unfold cursor_at, zlen in *. destruct (decide (k = 0)) as [->|Hk0]; [by exists 1%Z|].
    rewrite (proj2 (show_parse (Z.of_nat k) ltac:(unfold u64_ok; lia))). simpl. eexists. split; [done|].
    unfold sat_add. lia. }
  unfold feed_page. rewrite Hc. cbn [result_bind mbind]. rewrite dense_from by done.
  set (page := take limit (drop k (feed (runs st)))).
  assert (page.*2 = place <$> take limit (drop k fs)) as Hpage.
  { unfold page. by rewrite !fmap_take, !fmap_drop, Hpl. }
  rewrite Hup, (read_places _ _ _ _ Hok Hpage).
  2:{ apply Forall_take, Forall_drop, Forall_forall. intros r Hr. apply elem_of_app. right. by apply list_elem_of_filter. }
  simpl. f_equal. f_equal.
  assert (length page = length (take limit (drop k fs))) as <- by (apply (f_equal length) in Hpage; by rewrite !length_fmap in Hpage).
  destruct page as [|p0 page0 _] eqn:Hpe using rev_ind; [by rewrite Nat.add_0_r|].
  rewrite last_snoc, length_app. unfold cursor_at. rewrite decide_False by (simpl; lia). f_equal. f_equal.
  assert ((page0 ++ [p0]) !! length page0 = Some p0) as Hlook by by apply list_lookup_middle.
  rewrite <-Hpe in Hlook. unfold page in Hlook. apply lookup_take_Some in Hlook as [Hlook _].
  rewrite lookup_drop in Hlook. simpl.
  pose proof (dense_at 1 _ (k + length page0) p0.1 Hd) as Hat. rewrite list_lookup_fmap, Hlook in Hat. rewrite Hat by done. lia.
Qed.

(** The feed is the whole commit order, and the listings are its replay.
    Reading the feed page by page from its start yields, for any page sizes, one
    sequence of records: every cursor resumes exactly where its page ended.  Each
    run's records in that sequence are its history; and for every outcome the
    index lists, newest first, exactly what replaying the sequence gives, where a
    conclusion moves its run to the front of its outcome's list and out of every
    other. *)
Theorem feed_rebuilds os h : legal os -> upcaster h = up -> (zlen (feed (runs (after os))) < u64_max)%Z ->
  exists fs, (forall k limit, k <= length fs ->
      feed_page h (after os) (cursor_at k) limit =
        Ok (take limit (drop k fs), cursor_at (k + length (take limit (drop k fs)))))
    /\ (forall run_, read h (after os) run_ 1 = Ok (filter (fun r => run (body r) = run_) fs))
    /\ forall outcome limit,
         runs_by_outcome (after os) outcome limit = take limit (foldl (relist outcome) [] fs).
Proof.
  intros (fs & Hok & Hm)%reached Hup Hfit. exists fs. pose proof (mv_feed _ _ _ Hm) as Hpl. simpl in Hpl.
  split_and!.
  - intros k limit Hk. apply feed_page_ok; try done. apply (f_equal length) in Hpl. rewrite !length_fmap in Hpl.
    unfold zlen in *. lia.
  - intros run_. by apply (reads_history (committed fs)).
  - intros outcome limit. unfold runs_by_outcome. f_equal. change (reverse _) with (listing (outcomes (after os)) outcome).
    by rewrite (mv_listing _ _ _ Hm).
Qed.

End safety.

(** ** A concrete store

    A codec of five bytes: position, epoch, run, kind and whether the record
    has the one effect key.  It refuses every body it could not read back. *)

Module JournalWitness.
#[local] Instance hash : Sha256 := toy_hash.
Abbreviation Kind := (RecordKind (Num:=unit)).
Abbreviation Body := (RecordBody (Num:=unit) (Rest:=unit)).
#[local] Instance agent_dec : EqDecision AgentIdentity.
Proof. solve_decision. Defined.
#[local] Instance reason_dec : EqDecision SuspendReason.
Proof. solve_decision. Defined.
#[local] Instance operator_dec : EqDecision Operator.
Proof. solve_decision. Defined.
#[local] Instance score_dec : EqDecision (@Score unit).
Proof. solve_decision. Defined.
#[local] Instance kind_dec : EqDecision Kind.
Proof. solve_decision. Defined.
#[local] Instance body_dec : EqDecision Body.
Proof. solve_decision. Defined.

Definition the_key : EffectKey := derive 1%N Forward 0%N 1%N (lit "tool.call") [].
Definition kinds : list Kind :=
  [RunAdmitted (lit "triage") None None; EffectStarted; RunConcluded (lit "completed"); RunConcluded (lit "failed");
   OtherKind (lit "Note")].
Definition byte (n : nat) : Byte.byte := default x00 (Byte.of_nat n).
Definition kind_code (k : Kind) : nat := default 4 (fst <$> list_find (fun k' => k' = k) kinds).
Definition decode_body (x : bytes) : option Body :=
  match x with
  | [s; e; r; k; key] =>
      kind ← kinds !! Byte.to_nat k;
      Some (mk_body (Z.of_nat (Byte.to_nat s)) [ascii_of_byte r] None None Forward (Z.of_nat (Byte.to_nat e)) 1
              (if bool_decide (key = x00) then None else Some the_key) kind tt)
  | _ => None
  end.
Definition encode_body (b : Body) : bytes :=
  [byte (Z.to_nat (seq b)); byte (Z.to_nat (epoch b)); byte_of_ascii (default zero_digit (run b !! 0));
   byte (kind_code (kind b)); match effect_key b with Some _ => x01 | None => x00 end].
#[local] Arguments decode_body : simpl never.
#[local] Instance codec : RecordCodec (Num:=unit) (Rest:=unit) (J:=Body) := {
  to_canon b := if bool_decide (decode_body (encode_body b) = Some b) then Ok (encode_body b) else Err (lit "not encodable");
  from_slice x := ok_or (decode_body x) (lit "not a record");
  position x := (fun b => (seq b, epoch b, run b)) <$> decode_body x;
  parse_value := decode_body;
  from_value := Ok;
  get b name := if bool_decide (name = lit "kind") then Some b else None;
  as_text b := Some (kind_str (kind b));
  as_u64 b := None;
}.
#[local] Instance codec_laws : CodecLaws.
Proof.
  split; simpl; intros b x.
  - case_bool_decide as Hb; [|done]. intros [= <-]. by rewrite Hb.
  - destruct (decode_body x) as [b'|]; [|done]. by intros [= ->].
  - destruct (decode_body x) as [b'|]; [|done]. intros [= ->]. by exists b, b.
Qed.
#[local] Instance reasons : ReasonCodec := {
  reason_text _ := Err (lit "none here");
  reason_of _ := Err (lit "none here");
}.

Definition up : Upcaster (J:=Body) := identity_upcaster.
Lemma up_reads : reads_current (Num:=unit) up.
Proof. exact (identity_reads). Qed.
Definition plain : Handle := mk_handle up None (lit "plane.example/log").
Definition signing : Handle := mk_handle up (Some (mk_signer (lit "k1") (fun _ => [x01]))) (lit "plane.example/log").

Abbreviation op := (Op (Num:=unit) (Rest:=unit) (J:=Body)).
Definition entry (run_ : RunId) (k : Kind) (key : option EffectKey) : Append (Num:=unit) (Rest:=unit) :=
  mk_append run_ None None Forward key k tt None.
Definition work (h : Handle) (run_ : RunId) (e now : Z) : list op :=
  [OAcquire h run_ (lit "w") 60 now;
   OAppend h now e [entry run_ (RunAdmitted (lit "triage") None None) None; entry run_ EffectStarted (Some the_key)];
   OAppend h now e [entry run_ (RunConcluded (lit "completed")) None];
   OSeal h run_ e (lit "completed") now].
Definition first : list op := work plain (lit "a") 1 100.
Definition second : list op := work plain (lit "b") 1 200 ++ [OReopen 201; OAcquire plain (lit "a") (lit "v") 60 300].

(** Both handles are the tenant's, and every append is under a lease. *)
Definition ours (o : op) : Prop :=
  match o with
  | OAppend h _ _ _ => handle_ok up h
  | OAcquire h _ _ _ _ | OSeal h _ _ _ _ => upcaster h = up
  | _ => True
  end.
Fixpoint leased (st : State (Num:=unit)) (os : list op) : bool :=
  match os with
  | [] => true
  | o :: os =>
      match o with
      | OAppend _ _ _ (a :: _) => match leases st !! ap_run a with Some _ => true | None => false end
      | _ => true
      end && leased (apply_op tt st o) os
  end.
Lemma leased_legal os : forall st, Forall ours os -> leased st os = true -> trace_ok tt up st os.
Proof.
  induction os as [|o os IH]; intros st Ho Hl; [done|]. apply Forall_cons in Ho as [Ho Hos].
  simpl in Hl. apply andb_true_iff in Hl as [Hl Hls]. split; [|by apply IH].
  destruct o as [h now e [|a batch]| | | | | | |]; simpl in *; try done. split; [done|].
  unfold in_order. by destruct (leases st !! ap_run a).
Qed.
Lemma both_ok : handle_ok up plain /\ handle_ok up signing.
Proof. split; (split; [done|]); [done|]. by intros s [= <-]. Qed.
Lemma work_ours h run_ e now : handle_ok up h -> Forall ours (work h run_ e now).
Proof. intros Hh. repeat constructor; apply Hh. Qed.

(** Results and their bodies compared by the code's own equality. *)
Definition gives {E A} `{EqDecision A} (r : result E A) (x : A) : bool :=
  match r with Ok y => bool_decide (y = x) | Err _ => false end.
Lemma gives_ok {E A} `{EqDecision A} (r : result E A) x : gives r x = true -> r = Ok x.
Proof. destruct r; [|done]. simpl. by intros ->%bool_decide_eq_true. Qed.
Lemma read_by_check (rs : list (SealedRecord (Num:=unit) (Rest:=unit))) :
  forallb (fun r => gives (read_through up (raw r)) (body r)) rs = true -> read_by up rs.
Proof.
  rewrite forallb_forall. intros Hrs. apply Forall_forall. intros r Hr%list_elem_of_In. by apply gives_ok, Hrs.
Qed.

Lemma first_legal : legal tt up first.
Proof. apply leased_legal; [apply work_ours, both_ok|]. vm_compute. reflexivity. Qed.
Lemma both_legal : legal tt up (first ++ second).
Proof.
  apply leased_legal; [|vm_compute; reflexivity]. repeat (apply Forall_app; split); try apply work_ours, both_ok.
  repeat constructor.
Qed.

Lemma history_verifies_witness : exists rs more,
  read plain (after tt first) (lit "a") 1 = Ok rs /\ verify plain (after tt first) (lit "a") = Ok (tail_hash rs)
  /\ head (after tt first) (lit "a") = Ok (mk_head (Z.of_nat (length rs)) (tail_hash rs))
  /\ dense 1 ((seq ∘ body) <$> rs) /\ Forall (fun r => run (body r) = lit "a") rs
  /\ read plain (after tt (first ++ second)) (lit "a") 1 = Ok (rs ++ more).
Proof. exact (history_verifies tt up up_reads first second plain (lit "a") both_legal eq_refl). Defined.
(** Which is no empty history. *)
Example history_read : (length <$> (match read plain (after tt first) (lit "a") 1 with Ok rs => Some rs | Err _ => None end)) = Some 3.
Proof. vm_compute. reflexivity. Qed.

(** A writer loses its lease after announcing an effect; its successor appends. *)
Definition begun : list op := take 2 (work plain (lit "a") 1 100).
Definition taken : list op := [OAppend plain 301 2 [entry (lit "a") (OtherKind (lit "Note")) None]].
Definition note : Append := entry (lit "a") (OtherKind (lit "Note")) None.
Lemma taken_legal : legal tt up (begun ++ OAcquire plain (lit "a") (lit "v") 60 300 :: taken).
Proof. apply leased_legal; [|vm_compute; reflexivity]. repeat constructor; apply both_ok. Qed.
Lemma pair_second {S E T} (x : S * result E T) y : x.2 = Ok y -> x = (x.1, Ok y).
Proof. destruct x. simpl. by intros ->. Qed.

Lemma fenced_out_witness :
  let st := after tt (begun ++ OAcquire plain (lit "a") (lit "v") 60 300 :: taken) in
  exists current, (2 <= current)%Z /\ append plain st 302 1 [note] = (st, Err (Fenced (lit "a") 1 current)).
Proof.
  destruct (fenced_out tt up up_reads begun taken plain (lit "a") (lit "v") 60 300 (mk_lease (lit "a") (lit "v") 2)
    (acquire plain (after tt begun) (lit "a") (lit "v") 60 300).1 taken_legal) as (_ & Hap & _).
  - apply pair_second. vm_compute. reflexivity.
  - apply (Hap plain 302%Z 1%Z note []); [reflexivity|]. repeat constructor.
Defined.

Definition again : Append := entry (lit "a") EffectStarted (Some the_key).
Lemma effect_starts_once_witness :
  let st := after tt (begun ++ OAcquire plain (lit "a") (lit "v") 60 300 :: taken) in
  exists err, append plain st 302 2 [note; again] = (st, Err err).
Proof.
  destruct (effect_starts_once tt up up_reads begun (OAcquire plain (lit "a") (lit "v") 60 300 :: taken) plain (lit "a")
    taken_legal eq_refl) as (rs & Hrs & _ & Hst).
  apply (Hst the_key) with (a := again); [|repeat constructor|right; left|reflexivity..].
  assert (match read plain (after tt begun) (lit "a") 1 with
          | Ok rs => bool_decide (the_key ∈ omap (started ∘ body) rs)
          | Err _ => false
          end = true) as Hkeys by (vm_compute; reflexivity).
  rewrite Hrs in Hkeys. by apply bool_decide_eq_true in Hkeys.
Defined.
(** It is the key that refuses it. *)
Example key_refuses : match (append plain (after tt begun) 101 1 [again]).2 with
                      | Err (DuplicateEffect key) => bool_decide (key = the_key)
                      | _ => false
                      end = true.
Proof. vm_compute. reflexivity. Qed.

Definition published (os : list op) : Checkpoint :=
  match checkpoint plain (after tt os) with Ok c => c | Err _ => mk_checkpoint [] 0 ZERO end.
#[local] Instance checkpoint_dec : EqDecision Checkpoint.
Proof. solve_decision. Defined.
Lemma published_log_witness :
  exists proof, consistency_proof_at (after tt (first ++ second)) 1 2 = Ok proof
    /\ verify_consistency 1 (cp_root (published first)) 2 (cp_root (published (first ++ second))) proof = true.
Proof.
  apply (published_log tt up up_reads first second plain (published first) (published (first ++ second)) both_legal eq_refl).
  - by vm_compute.
  - apply gives_ok. vm_compute. reflexivity.
  - apply gives_ok. vm_compute. reflexivity.
Defined.

Lemma feed_rebuilds_witness : exists fs,
  (forall k limit, k <= length fs -> feed_page plain (after tt (first ++ second)) (cursor_at k) limit =
     Ok (take limit (drop k fs), cursor_at (k + length (take limit (drop k fs)))))
  /\ (forall run_, read plain (after tt (first ++ second)) run_ 1 = Ok (filter (fun r => run (body r) = run_) fs))
  /\ forall outcome limit, runs_by_outcome (after tt (first ++ second)) outcome limit = take limit (foldl (relist outcome) [] fs).
Proof. apply (feed_rebuilds tt up up_reads (first ++ second) plain both_legal eq_refl). by vm_compute. Defined.
Example newest_first : runs_by_outcome (after tt (first ++ second)) (lit "completed") 5 = [lit "b"; lit "a"].
Proof. vm_compute. reflexivity. Qed.

(** The same work, signed and unsigned, has one head. *)
Definition history (h : Handle) : list (SealedRecord (Num:=unit) (Rest:=unit)) :=
  match read h (after tt (work h (lit "a") 1 100)) (lit "a") 1 with Ok rs => rs | Err _ => [] end.
Lemma chain_commits_witness : unsigned <$> history plain = unsigned <$> history signing.
Proof.
  apply (chain_commits up _ _ ZERO (tail_hash (history plain))).
  - apply read_by_check. vm_compute. reflexivity.
  - apply read_by_check. vm_compute. reflexivity.
  - vm_compute. reflexivity.
  - apply collision_free_check. vm_compute. reflexivity.
  - apply gives_ok. vm_compute. reflexivity.
  - apply gives_ok. vm_compute. reflexivity.
Defined.
End JournalWitness.
