(* ===== verification/Worklist.v ===== *)
(** * Human tasks ([src/src/core/task.rs], [src/src/store/redb_tasks.rs])

    A task's life, who may decide it, and the worklist's transactions on one
    tenant's tables.  A task's row is its JSON, a class with its round trip; an
    instant is in nanoseconds and an index key in whole seconds, as [ts]
    truncates it.  The evidence a reviewer reads is opaque here except for what
    the code asks of it. *)

From S2P Require Import Prelude Digest EffectKey Index Panel Text Label Tainted Chain.

(** ** Vocabulary *)

Inductive TaskState := Open | Claimed | Completed | Expired | Escalated | Withdrawn.
#[export] Instance task_state_dec : EqDecision TaskState.
Proof. solve_decision. Defined.
Definition TASK_STATES : list TaskState := [Open; Claimed; Completed; Expired; Escalated; Withdrawn].
Definition state_str (s : TaskState) : str :=
  match s with
  | Open => lit "open" | Claimed => lit "claimed" | Completed => lit "completed"
  | Expired => lit "expired" | Escalated => lit "escalated" | Withdrawn => lit "withdrawn"
  end.
Definition state_parse (x : str) : option TaskState := snd <$> list_find (fun s => state_str s = x) TASK_STATES.
Definition is_pending (s : TaskState) : bool := match s with Open | Claimed | Escalated => true | _ => false end.
Definition is_queued (s : TaskState) : bool := match s with Open | Escalated => true | _ => false end.
Definition awaits_expiry (s : TaskState) : bool := match s with Open | Claimed => true | _ => false end.

Inductive Priority := Low | Normal | High | Urgent.
#[export] Instance priority_dec : EqDecision Priority.
Proof. solve_decision. Defined.
Definition rank (p : Priority) : Z := match p with Urgent => 0 | High => 1 | Normal => 2 | Low => 3 end.

Inductive OnExpiry := Deny | Escalate | Proceed.
#[export] Instance on_expiry_dec : EqDecision OnExpiry.
Proof. solve_decision. Defined.
Inductive Expiry := EDeny | EEscalate (to : list str) | ProceedUnattended.
Definition policy (e : Expiry) : OnExpiry :=
  match e with EDeny => Deny | EEscalate _ => Escalate | ProceedUnattended => Proceed end.
Definition escalate_roles (e : Expiry) : list str := match e with EEscalate to => to | _ => [] end.

Inductive Withheld := Sealed | Erased | Undecodable.

Record Ask := mk_ask { choices : list str; free_text : bool }.
Inductive TaskVerdict := Approved | Rejected | Answered (answer : str).
(** Whether a verdict decides a task that asks. *)
Definition verdict_fits (asks : option Ask) (v : TaskVerdict) : result str unit :=
  match asks, v with
  | Some _, Approved => Err (lit "this task asks a question")
  | None, Answered _ => Err (lit "this task asks for approval")
  | Some ask, Answered answer =>
      if negb (free_text ask) && negb (bool_decide (answer ∈ choices ask))
      then Err (lit "not one of the answers offered") else Ok tt
  | _, _ => Ok tt
  end.

(** Who answered: a person, or the policy declared for nobody answering. *)
Inductive Decided := DecidedBy (op : Operator) | DecidedOnExpiry (p : OnExpiry).
Definition decided_operator (d : Decided) : option Operator :=
  match d with DecidedBy op => Some op | DecidedOnExpiry _ => None end.

Abbreviation TaskId := Digest.

(** [ts]: whole seconds. *)
Definition ts (t : Z) : Z := t / 1000000000.

Section worklist.
Context {J R : Type} `{Sha256} (to_hex : Digest -> str).

(** [TaskId::derive]. *)
Definition task_id (run : RunId) (effect : EffectKey) : TaskId := digest_of (str_bytes run ++ str_bytes (to_hex effect)).

Record Justification := mk_just {
  summary : Tainted str;
  proposed_action : J;
  cost : option (Tainted str);
  evidence : list (Tainted str);
  asks : option Ask;
  just_rest : R;
}.
Definition untrusted_text (t : Tainted str) : bool := negb (bool_decide (trust (label t) = Trusted)).
Definition has_untrusted_prose (j : Justification) : bool :=
  untrusted_text (summary j) || match cost j with Some c => untrusted_text c | None => false end
  || existsb untrusted_text (evidence j).

Record Task := mk_task {
  t_id : TaskId;
  t_run : RunId;
  t_case : option str;
  t_kind : str;
  justification : Justification;
  candidate_roles : list str;
  assignee : option str;
  priority : Priority;
  state : TaskState;
  on_expiry : OnExpiry;
  escalate_to : list str;
  excluded_actors : list str;
  created_at : Z;
  due_at : option Z;
  withheld : option Withheld;
}.
(** What the operations change of a task. *)
Definition moved (t : Task) (roles : list str) (holder : option str) (s : TaskState) : Task :=
  mk_task (t_id t) (t_run t) (t_case t) (t_kind t) (justification t) roles holder (priority t) s (on_expiry t)
    (escalate_to t) (excluded_actors t) (created_at t) (due_at t) (withheld t).

Definition in_audience (t : Task) (roles : list str) : bool :=
  bool_decide (candidate_roles t = []) || existsb (fun r => bool_decide (r ∈ roles)) (candidate_roles t).
Definition may_decide (t : Task) (actor : str) (roles : list str) : bool :=
  negb (bool_decide (actor ∈ excluded_actors t)) && in_audience t roles.
(** [Task::escalate]: the audience widens, the reservation goes. *)
Definition widened (roles add : list str) : list str :=
  foldl (fun roles r => if decide (r ∈ roles) then roles else roles ++ [r]) roles add.
Definition escalated (t : Task) : Task :=
  moved t (match candidate_roles t with [] => [] | roles => widened roles (escalate_to t) end) None Escalated.

Inductive ClaimError :=
| NoSuchTask (id : TaskId)
| NotPending (id : TaskId) (s : TaskState)
| AlreadyClaimed (id : TaskId) (holder : str)
| Excluded (actor : str)
| WrongRole (actor : str)
| NotHeld (id : TaskId) (actor : str)
| AlreadyAnswered (id : TaskId)
| ClaimStore (e : StoreError).

(** ** The tables *)

Class TaskCodec := {
  task_json : Task -> result str str;
  task_of : str -> result str Task;
}.
Class TaskCodecLaws `{TaskCodec} : Prop := task_reads t s : task_json t = Ok s -> task_of s = Ok t.
Context `{TaskCodec}.

Record Tasks := mk_tasks {
  rows : gmap TaskId str;
  queued : gset (Z * Z * TaskId);
  due : gset (Z * TaskId);
  of_case : gset (str * Z * TaskId);
  pending : gset TaskId;
}.
Definition no_tasks : Tasks := mk_tasks ∅ ∅ ∅ ∅ ∅.
Definition set_row (st : Tasks) (id : TaskId) (s : str) : Tasks :=
  mk_tasks (<[id := s]> (rows st)) (queued st) (due st) (of_case st) (pending st).

Definition load (st : Tasks) (id : TaskId) : result StoreError (option Task) :=
  match rows st !! id with
  | None => Ok None
  | Some s => t ← map_err Encoding (task_of s); Ok (Some t)
  end.

(** Where membership goes when it goes from [was] to [is_]. *)
Definition shift {A} `{Countable A} (was is_ : bool) (x : A) (X : gset A) : gset A :=
  match was, is_ with
  | true, false => X ∖ {[x]}
  | false, true => {[x]} ∪ X
  | _, _ => X
  end.
Definition reindex (st : Tasks) (id : TaskId) (was : Task) (now_state : TaskState) : Tasks :=
  let before := state was in
  if bool_decide (before = now_state) then st else
  mk_tasks (rows st)
    (shift (is_queued before) (is_queued now_state) (rank (priority was), ts (created_at was), id) (queued st))
    (match due_at was with
     | Some d => shift (awaits_expiry before) (awaits_expiry now_state) (ts d, id) (due st)
     | None => due st
     end)
    (of_case st)
    (shift (is_pending before) (is_pending now_state) id (pending st)).
(** A task's row and its indexes, in one transaction. *)
Definition write (st : Tasks) (id : TaskId) (was new : Task) : result StoreError Tasks :=
  s ← map_err Encoding (task_json new);
  Ok (reindex (set_row st id s) id was (state new)).
Definition settle (st : Tasks) (id : TaskId) (t : Task) (s : TaskState) : result StoreError (Tasks * bool) :=
  if is_pending (state t) then
    st ← write st id t (moved t (candidate_roles t) (assignee t) s);
    Ok (st, true)
  else Ok (st, false).

(** Eligibility outranks availability. *)
Definition eligible (t : Task) (id : TaskId) (actor : str) (roles : list str) : result ClaimError unit :=
  ensure (negb (bool_decide (actor ∈ excluded_actors t))) (Excluded actor) ;;
  ensure (in_audience t roles) (WrongRole actor) ;;
  ensure (is_pending (state t)) (NotPending id (state t)).

(** ** The operations *)

(** A transaction: what it commits, or the store it met. *)
Definition committed {E T} (st : Tasks) (r : result E (Tasks * T)) : Tasks * result E T :=
  match r with Ok (st', x) => (st', Ok x) | Err e => (st, Err e) end.

Definition open_task (st : Tasks) (t : Task) : Tasks * result StoreError Task :=
  let id := t_id t in
  committed st (
    s ← map_err Encoding (task_json t);
    found ← load st id;
    match found with
    | Some held => Ok (st, held)
    | None =>
        back ← map_err Encoding (task_of s);
        Ok (mk_tasks (<[id := s]> (rows st))
              (if is_queued (state t) then {[(rank (priority t), ts (created_at t), id)]} ∪ queued st else queued st)
              (match due_at t with
               | Some d => if awaits_expiry (state t) then {[(ts d, id)]} ∪ due st else due st
               | None => due st
               end)
              (match t_case t with Some c => {[(c, ts (created_at t), id)]} ∪ of_case st | None => of_case st end)
              (if is_pending (state t) then {[id]} ∪ pending st else pending st), back)
    end).
Definition task (st : Tasks) (id : TaskId) : result StoreError (option Task) := load st id.

Definition claim (st : Tasks) (id : TaskId) (actor : str) (roles : list str) : Tasks * result ClaimError Task :=
  committed st (
    found ← map_err ClaimStore (load st id);
    t ← ok_or found (NoSuchTask id);
    eligible t id actor roles ;;
    (match assignee t with
     | Some holder => ensure (bool_decide (holder = actor)) (AlreadyClaimed id holder)
     | None => Ok tt
     end) ;;
    let new := moved t (candidate_roles t) (Some actor) Claimed in
    st ← map_err ClaimStore (write st id t new);
    Ok (st, new)).
Definition take_over (st : Tasks) (id : TaskId) (from actor : str) (roles : list str) : Tasks * result ClaimError Task :=
  committed st (
    found ← map_err ClaimStore (load st id);
    t ← ok_or found (NoSuchTask id);
    eligible t id actor roles ;;
    ensure (bool_decide (assignee t = Some from)) (NotHeld id from) ;;
    let new := moved t (candidate_roles t) (Some actor) Claimed in
    st ← map_err ClaimStore (write st id t new);
    Ok (st, new)).
Definition release (st : Tasks) (id : TaskId) (actor : str) : Tasks * result ClaimError unit :=
  committed st (
    found ← map_err ClaimStore (load st id);
    t ← ok_or found (NotHeld id actor);
    ensure (bool_decide (state t = Claimed) && bool_decide (assignee t = Some actor)) (NotHeld id actor) ;;
    st ← map_err ClaimStore (write st id t (moved t (candidate_roles t) None Open));
    Ok (st, tt)).
Definition escalate (st : Tasks) (id : TaskId) : Tasks * result StoreError Task :=
  committed st (
    found ← load st id;
    t ← ok_or found (NotFound (lit "task_" ++ to_hex id));
    if is_pending (state t) then
      st ← write st id t (escalated t);
      Ok (st, escalated t)
    else Ok (st, t)).
Definition set_state (st : Tasks) (id : TaskId) (s : TaskState) : Tasks * result StoreError bool :=
  committed st (
    found ← load st id;
    t ← ok_or found (NotFound (lit "task_" ++ to_hex id));
    settle st id t s).
Fixpoint withdraw_all (st : Tasks) (run : RunId) (n : nat) (awaited : list TaskId) : result StoreError (Tasks * nat) :=
  match awaited with
  | [] => Ok (st, n)
  | id :: awaited =>
      found ← load st id;
      '(st, m) ← (match found with
                  | Some t => if bool_decide (t_run t = run) then settle st id t Withdrawn else Ok (st, false)
                  | None => Ok (st, false)
                  end);
      withdraw_all st run (if m : bool then S n else n) awaited
  end.
Definition withdraw_run (st : Tasks) (run : RunId) (awaited : list TaskId) : Tasks * result StoreError nat :=
  committed st (withdraw_all st run 0 awaited).

(** ** The listings *)

Definition z_id_cmp : Z * TaskId -> Z * TaskId -> comparison := pair_cmp Z.compare digest_cmp.
Definition queue_cmp (x y : Z * Z * TaskId) : comparison :=
  then_cmp (x.1.1 ?= y.1.1)%Z (z_id_cmp (x.1.2, x.2) (y.1.2, y.2)).
(** Rows in index order, kept as they are read until the page is full. *)
Fixpoint page (st : Tasks) (keep : Task -> bool) (limit : nat) (ids : list TaskId) : result StoreError (list Task) :=
  match limit, ids with
  | O, _ | _, [] => Ok []
  | S n, id :: ids =>
      found ← load st id;
      match found with
      | Some t => if keep t then ts ← page st keep n ids; Ok (t :: ts) else page st keep limit ids
      | None => page st keep limit ids
      end
  end.
Definition queue (st : Tasks) (roles : list str) (limit : nat) : result StoreError (list Task) :=
  page st (fun t => in_audience t roles) limit (snd <$> iter_by queue_cmp (queued st)).
Definition overdue (st : Tasks) (now : Z) (limit : nat) : result StoreError (list Task) :=
  page st (fun _ => true) limit (snd <$> filter (fun x => x.1 <= ts now)%Z (iter_by z_id_cmp (due st))).
Definition for_case (st : Tasks) (c : str) : result StoreError (list Task) :=
  let keys := iter_by z_id_cmp (set_filter_map (fun x => if decide (x.1.1 = c) then Some (x.1.2, x.2) else None) (of_case st)) in
  page st (fun _ => true) (length keys) (snd <$> keys).
Definition open_count (st : Tasks) : nat := size (pending st).

(** ** Sequences of operations *)

Inductive Op :=
| OpOpen (t : Task)
| OpClaim (id : TaskId) (who : str) (roles : list str)
| OpTakeOver (id : TaskId) (from who : str) (roles : list str)
| OpRelease (id : TaskId) (who : str)
| OpEscalate (id : TaskId)
| OpSetState (id : TaskId) (s : TaskState)
| OpWithdraw (r : RunId) (awaited : list TaskId).
Inductive Answer := ATask (t : Task) | ADone | AMoved (b : bool) | ACount (n : nat).

Definition answering {T E} (f : T -> Answer) (g : E -> ClaimError) (x : Tasks * result E T) : Tasks * result ClaimError Answer :=
  (x.1, f <$> map_err g x.2).
Definition apply_op (st : Tasks) (o : Op) : Tasks * result ClaimError Answer :=
  match o with
  | OpOpen t => answering ATask ClaimStore (open_task st t)
  | OpClaim id who roles => answering ATask (fun e => e) (claim st id who roles)
  | OpTakeOver id from who roles => answering ATask (fun e => e) (take_over st id from who roles)
  | OpRelease id who => answering (fun _ => ADone) (fun e => e) (release st id who)
  | OpEscalate id => answering ATask ClaimStore (escalate st id)
  | OpSetState id s => answering AMoved ClaimStore (set_state st id s)
  | OpWithdraw r awaited => answering ACount ClaimStore (withdraw_run st r awaited)
  end.
Definition apply_ops (st : Tasks) (os : list Op) : Tasks := foldl (fun st o => (apply_op st o).1) st os.

(** ** The worklist as tasks by id

    What the operations promise, with no tables and no codec. *)
Abbreviation Worklist := (gmap TaskId Task).

(** One task changed, or a refusal. *)
Definition changed (M : Worklist) (id : TaskId) (missing : ClaimError) (f : Task -> result ClaimError (Task * Answer)) :
    Worklist * result ClaimError Answer :=
  match M !! id with
  | None => (M, Err missing)
  | Some t => match f t with Ok (t', a) => (<[id := t']> M, Ok a) | Err e => (M, Err e) end
  end.
Definition held_by (t : Task) (who : str) : Task := moved t (candidate_roles t) (Some who) Claimed.
Definition with_state (t : Task) (s : TaskState) : Task := moved t (candidate_roles t) (assignee t) s.
Definition settled (t : Task) (s : TaskState) : Task := if is_pending (state t) then with_state t s else t.
Definition withdrawn (r : RunId) (t : Task) : Task := if bool_decide (t_run t = r) then settled t Withdrawn else t.
Definition withdraws (r : RunId) (t : Task) : bool := bool_decide (t_run t = r) && is_pending (state t).
Fixpoint withdraw_spec (M : Worklist) (r : RunId) (n : nat) (awaited : list TaskId) : Worklist * nat :=
  match awaited with
  | [] => (M, n)
  | id :: awaited =>
      withdraw_spec (alter (withdrawn r) id M) r
        (if default false (withdraws r <$> M !! id) then S n else n) awaited
  end.

Definition spec (M : Worklist) (o : Op) : Worklist * result ClaimError Answer :=
  match o with
  | OpOpen t =>
      match M !! t_id t with
      | Some held => (M, Ok (ATask held))
      | None => (<[t_id t := t]> M, Ok (ATask t))
      end
  | OpClaim id who roles =>
      changed M id (NoSuchTask id) (fun t =>
        eligible t id who roles ;;
        (match assignee t with
         | Some holder => ensure (bool_decide (holder = who)) (AlreadyClaimed id holder)
         | None => Ok tt
         end) ;;
        Ok (held_by t who, ATask (held_by t who)))
  | OpTakeOver id from who roles =>
      changed M id (NoSuchTask id) (fun t =>
        eligible t id who roles ;;
        ensure (bool_decide (assignee t = Some from)) (NotHeld id from) ;;
        Ok (held_by t who, ATask (held_by t who)))
  | OpRelease id who =>
      changed M id (NotHeld id who) (fun t =>
        ensure (bool_decide (state t = Claimed) && bool_decide (assignee t = Some who)) (NotHeld id who) ;;
        Ok (moved t (candidate_roles t) None Open, ADone))
  | OpEscalate id =>
      changed M id (ClaimStore (NotFound (lit "task_" ++ to_hex id))) (fun t =>
        let t' := if is_pending (state t) then escalated t else t in Ok (t', ATask t'))
  | OpSetState id s =>
      changed M id (ClaimStore (NotFound (lit "task_" ++ to_hex id))) (fun t =>
        Ok (settled t s, AMoved (is_pending (state t))))
  | OpWithdraw r awaited => prod_map id (fun n => Ok (ACount n)) (withdraw_spec M r 0 awaited)
  end.

(** ** The tables stand for a worklist *)

Definition queue_key (t : Task) : Z * Z * TaskId := (rank (priority t), ts (created_at t), t_id t).
Definition queued_at (id : TaskId) (t : Task) : option (Z * Z * TaskId) :=
  if is_queued (state t) then Some (rank (priority t), ts (created_at t), id) else None.
Definition due_of (id : TaskId) (t : Task) : option (Z * TaskId) :=
  if awaits_expiry (state t) then (fun d => (ts d, id)) <$> due_at t else None.
Definition case_of (id : TaskId) (t : Task) : option (str * Z * TaskId) :=
  (fun c => (c, ts (created_at t), id)) <$> t_case t.
Definition pending_of (id : TaskId) (t : Task) : option TaskId := if is_pending (state t) then Some id else None.

Record stands_for (st : Tasks) (M : Worklist) : Prop := {
  sf_rows id : load st id = Ok (M !! id);
  sf_id id t : M !! id = Some t -> t_id t = id;
  sf_queued : indexed queued_at (queued st) M;
  sf_due : indexed due_of (due st) M;
  sf_case : indexed case_of (of_case st) M;
  sf_pending : indexed pending_of (pending st) M;
}.

Lemma elem_of_shift {A} `{Countable A} was is_ (x y : A) X : (x ∈ X <-> was = true) ->
  y ∈ shift was is_ x X <->
    (if is_ : bool then Some x else None) = Some y \/ y ∈ X /\ (if was : bool then Some x else None) <> Some y.
Proof.
  intros Hx. destruct (decide (x = y)) as [->|Hy], was, is_; simpl; set_solver.
Qed.
Lemma shift_same {A} `{Countable A} b (x : A) X : shift b b x X = X.
Proof. by destruct b. Qed.

Lemma reindex_spec st id t s : reindex st id t s =
  mk_tasks (rows st)
    (shift (is_queued (state t)) (is_queued s) (rank (priority t), ts (created_at t), id) (queued st))
    (match due_at t with Some d => shift (awaits_expiry (state t)) (awaits_expiry s) (ts d, id) (due st) | None => due st end)
    (of_case st) (shift (is_pending (state t)) (is_pending s) id (pending st)).
Proof.
  unfold reindex. case_bool_decide as Hs; [|done]. rewrite <-Hs, !shift_same.
  destruct st, (due_at t); by rewrite ?shift_same.
Qed.

Lemma queued_inj : key_inj queued_at.
Proof. intros k v k' v' x. unfold queued_at. branch; naive_solver. Qed.
Lemma due_inj : key_inj due_of.
Proof. intros k v k' v' x. unfold due_of. branch; rewrite ?fmap_Some; naive_solver. Qed.
Lemma case_inj : key_inj case_of.
Proof. intros k v k' v' x. unfold case_of. rewrite !fmap_Some. naive_solver. Qed.
Lemma pending_inj : key_inj pending_of.
Proof. intros k v k' v' x. unfold pending_of. branch; naive_solver. Qed.

Lemma no_tasks_stand : stands_for no_tasks ∅.
Proof. split; simpl; try apply indexed_empty; done. Qed.

Section refinement.
Context `{!TaskCodecLaws}.

Lemma load_set_row st id s t id' : task_of s = Ok t ->
  load (set_row st id s) id' = if decide (id = id') then Ok (Some t) else load st id'.
Proof.
  intros Hs. unfold load. simpl. case_decide as Hid; [subst|by rewrite lookup_insert_ne].
  by rewrite lookup_insert_eq, Hs.
Qed.

(** The one write every operation makes. *)
Lemma write_stands st M id t roles holder s st' : stands_for st M -> M !! id = Some t ->
  write st id t (moved t roles holder s) = Ok st' -> stands_for st' (<[id := moved t roles holder s]> M).
Proof.
  intros [Hr Hi Hq Hd Hc Hp] Ht Hw. unfold write in Hw. apply result_bind_ok in Hw as (row & Hj & [= <-]).
  rewrite reindex_spec. destruct (task_json _) eqn:Hj'; simplify_eq/=. rename Hj' into Hj.
  apply task_reads in Hj. split; simpl.
  - intros id'. pose proof (load_set_row st id row _ id' Hj) as Hl. unfold load in *. simpl in *. rewrite Hl.
    case_decide; [subst; by rewrite lookup_insert_eq|]. by rewrite lookup_insert_ne.
  - intros id' t'. rewrite lookup_insert_Some. intros [[<- <-]|[_ Ht']]; simpl; eauto.
  - eapply indexed_insert; [apply queued_inj|done|]. intros x. rewrite Ht. apply elem_of_shift.
    rewrite (indexed_mem _ _ _ _ _ _ Hq Ht); unfold queued_at; intros; branch; naive_solver.
  - eapply indexed_insert; [apply due_inj|done|]. intros x. rewrite Ht. simpl. unfold due_of at 1 2. simpl.
    destruct (due_at t) as [d|] eqn:Hd'; simpl; [apply elem_of_shift|].
    + rewrite (indexed_mem _ _ _ _ _ _ Hd Ht); unfold due_of; rewrite ?Hd'; simpl.
      * branch; naive_solver.
      * intros k' v'. branch; rewrite ?fmap_Some; naive_solver.
    + destruct (awaits_expiry s), (awaits_expiry (state t)); naive_solver.
  - by eapply indexed_same; [apply case_inj|..].
  - eapply indexed_insert; [apply pending_inj|done|]. intros x. rewrite Ht. apply elem_of_shift.
    rewrite (indexed_mem _ _ _ _ _ _ Hp Ht); unfold pending_of; intros; branch; naive_solver.
Qed.

(** ** Refinement *)

(** What an operation did is what the worklist says, or its row would not
    encode and nothing happened. *)
Definition as_promised (st : Tasks) (M : Worklist) (x : Tasks * result ClaimError Answer)
    (y : Worklist * result ClaimError Answer) : Prop :=
  (exists e, x = (st, Err (ClaimStore (Encoding e)))) \/ stands_for x.1 y.1 /\ x.2 = y.2.

Lemma insert_same st M id t : stands_for st M -> M !! id = Some t -> stands_for st (<[id := t]> M).
Proof. intros Hst Ht. by rewrite insert_id. Qed.
Lemma write_err st id t new e : write st id t new = Err e -> exists x, e = Encoding x.
Proof. unfold write. destruct (task_json new); naive_solver. Qed.

Lemma write_outcome st M id t roles holder s : stands_for st M -> M !! id = Some t ->
  let new := moved t roles holder s in
  (exists x, write st id t new = Err (Encoding x)) \/
  exists st', write st id t new = Ok st' /\ stands_for st' (<[id := new]> M).
Proof.
  intros Hst Ht new. destruct (write st id t new) as [st'|e] eqn:Hw.
  - right. exists st'. split; [done|]. by eapply write_stands.
  - left. apply write_err in Hw as [x ->]. by exists x.
Qed.

Lemma settle_outcome st M id t s : stands_for st M -> M !! id = Some t ->
  (exists x, settle st id t s = Err (Encoding x)) \/
  exists st', settle st id t s = Ok (st', is_pending (state t)) /\ stands_for st' (<[id := settled t s]> M).
Proof.
  intros Hst Ht. unfold settle, settled. destruct (is_pending (state t)).
  - destruct (write_outcome st M id t (candidate_roles t) (assignee t) s Hst Ht) as [[x ->]|(st' & -> & Hst')];
      [left; by exists x|right; by exists st'].
  - right. exists st. split; [done|]. by apply insert_same.
Qed.

Lemma withdraw_outcome st M r n awaited : stands_for st M ->
  (exists x, withdraw_all st r n awaited = Err (Encoding x)) \/
  exists st', withdraw_all st r n awaited = Ok (st', (withdraw_spec M r n awaited).2) /\
    stands_for st' (withdraw_spec M r n awaited).1.
Proof.
  revert st M n. induction awaited as [|id awaited IH]; intros st M n Hst; simpl; [right; by exists st|].
  rewrite (sf_rows _ _ Hst). simpl. destruct (M !! id) as [t|] eqn:Ht; simpl.
  - rewrite (alter_as_insert _ _ _ _ Ht). unfold withdraws, withdrawn. case_bool_decide; simpl.
    + destruct (settle_outcome st M id t Withdrawn Hst Ht) as [[x ->]|(st' & -> & Hst')]; simpl; [left; by exists x|].
      by apply IH.
    + apply IH. by apply insert_same.
  - rewrite alter_missing by done. by apply IH.
Qed.

(** What a transaction makes of the one row it loaded. *)
Definition serves {T E} (M : Worklist) (id : TaskId) (g : E -> ClaimError) (ans : T -> Answer)
    (x : result E (Tasks * T)) (y : result ClaimError (Task * Answer)) : Prop :=
  match y with
  | Ok (t', a) => (exists e m, x = Err e /\ g e = ClaimStore (Encoding m)) \/
                  exists st' v, x = Ok (st', v) /\ ans v = a /\ stands_for st' (<[id := t']> M)
  | Err e => exists e', x = Err e' /\ g e' = e
  end.

Lemma serves_guard {T} M id (ans : T -> Answer) (b : result ClaimError unit) x y :
  serves M id (fun e => e) ans x y -> serves M id (fun e => e) ans (b ;; x) (b ;; y).
Proof. destruct b as [[]|e]; [done|]. intros _. by exists e. Qed.

Lemma serves_write {T E} st M id (g : E -> ClaimError) (enc : StoreError -> E) (ans : T -> Answer) t roles holder s v :
  (forall e, g (enc e) = ClaimStore e) -> stands_for st M -> M !! id = Some t ->
  let new := moved t roles holder s in
  serves M id g ans (st ← map_err enc (write st id t new); Ok (st, v)) (Ok (new, ans v)).
Proof.
  intros Hg Hst Ht new. destruct (write_outcome st M id t roles holder s Hst Ht) as [[m Hw]|(st' & Hw & Hst')];
    fold new in Hw; rewrite Hw; [left; exists (enc (Encoding m)), m; by rewrite Hg|right; by exists st', v].
Qed.

Lemma changed_refines {T E} st M id (g : E -> ClaimError) (ans : T -> Answer) (missing : E)
    (k : Task -> result E (Tasks * T)) f :
  (forall t, M !! id = Some t -> serves M id g ans (k t) (f t)) -> stands_for st M ->
  as_promised st M (answering ans g (committed st (t ← ok_or (M !! id) missing; k t))) (changed M id (g missing) f).
Proof.
  intros Hb Hst. unfold changed. destruct (M !! id) as [t|] eqn:Ht; [|by right].
  specialize (Hb t eq_refl). unfold as_promised, serves in *. simpl. destruct (f t) as [[t' a]|e].
  - destruct Hb as [(e & x & -> & Hg)|(st' & v & -> & Ha & Hst')]; unfold answering; simpl.
    + left. exists x. by rewrite Hg.
    + right. by rewrite Ha.
  - destruct Hb as (e' & -> & Hg). right. unfold answering. simpl. by rewrite Hg.
Qed.

Lemma open_refines st M t : stands_for st M ->
  as_promised st M (answering ATask ClaimStore (open_task st t)) (spec M (OpOpen t)).
Proof.
  intros Hst. unfold open_task, as_promised. destruct (task_json t) as [row|m] eqn:Hj; [|left; by exists m].
  right. simpl. rewrite (sf_rows _ _ Hst). simpl. destruct (M !! t_id t) as [held|] eqn:Hh; [done|].
  pose proof (task_reads _ _ Hj) as Hr. rewrite Hr. split; [|done]. simpl.
  destruct Hst as [Hl Hi Hq Hd Hc Hp]. split; simpl.
  - intros id. pose proof (load_set_row st (t_id t) row t id Hr) as Hl'. unfold load in *. simpl in *. rewrite Hl'.
    case_decide; [subst; by rewrite lookup_insert_eq|]. by rewrite lookup_insert_ne.
  - intros id t'. rewrite lookup_insert_Some. intros [[<- <-]|[_ Ht']]; eauto.
  - pose proof (indexed_fresh _ _ _ _ t queued_inj Hq Hh) as Hf. unfold queued_at in Hf at 2. by destruct (is_queued (state t)).
  - pose proof (indexed_fresh _ _ _ _ t due_inj Hd Hh) as Hf. unfold due_of in Hf at 2.
    by destruct (due_at t), (awaits_expiry _).
  - pose proof (indexed_fresh _ _ _ _ t case_inj Hc Hh) as Hf. unfold case_of in Hf at 2. by destruct (t_case t).
  - pose proof (indexed_fresh _ _ _ _ t pending_inj Hp Hh) as Hf. unfold pending_of in Hf at 2. by destruct (is_pending (state t)).
Qed.

Lemma op_refines st M o : stands_for st M -> as_promised st M (apply_op st o) (spec M o).
Proof.
  intros Hst. destruct o as [t|id who roles|id from who roles|id who|id|id s|r awaited]; simpl.
  - by apply open_refines.
  - unfold claim. rewrite (sf_rows _ _ Hst).
    apply (changed_refines st M id (fun e => e) ATask (NoSuchTask id)); [|done]. intros t Ht.
    do 2 apply serves_guard. by apply serves_write.
  - unfold take_over. rewrite (sf_rows _ _ Hst).
    apply (changed_refines st M id (fun e => e) ATask (NoSuchTask id)); [|done]. intros t Ht.
    do 2 apply serves_guard. by apply serves_write.
  - unfold release. rewrite (sf_rows _ _ Hst).
    apply (changed_refines st M id (fun e => e) (fun _ => ADone) (NotHeld id who)); [|done]. intros t Ht.
    apply serves_guard. by apply (serves_write _ _ _ _ _ (fun _ => ADone)).
  - unfold escalate. rewrite (sf_rows _ _ Hst).
    apply (changed_refines st M id ClaimStore ATask (NotFound _)); [|done]. intros t Ht.
    destruct (is_pending (state t)).
    + assert (exists roles, escalated t = moved t roles None Escalated) as [roles ->] by by eexists.
      destruct (write_outcome st M id t roles None Escalated Hst Ht) as [[m ->]|(st' & -> & Hst')];
        [left|right]; eauto 6.
    + right. exists st, t. split_and!; [done..|]. by apply insert_same.
  - unfold set_state. rewrite (sf_rows _ _ Hst).
    apply (changed_refines st M id ClaimStore AMoved (NotFound _)); [|done]. intros t Ht.
    destruct (settle_outcome st M id t s Hst Ht) as [[m ->]|(st' & -> & Hst')]; [left|right]; eauto 6.
  - unfold withdraw_run, as_promised.
    destruct (withdraw_outcome st M r 0 awaited Hst) as [[m ->]|(st' & -> & Hst')]; [left; by exists m|by right].
Qed.

End refinement.

(** ** Histories *)

(** Each operation done, or not done at all. *)
Inductive evolves : Worklist -> list Op -> Worklist -> Prop :=
| ev_nil M : evolves M [] M
| ev_skip M o os M' : evolves M os M' -> evolves M (o :: os) M'
| ev_do M o os M' : evolves (spec M o).1 os M' -> evolves M (o :: os) M'.

(** A property of every task that each operation keeps. *)
Lemma evolves_ind_inv (P : list Op -> Worklist -> Prop) M os M' :
  evolves M os M' -> (forall done M o, P done M -> P (done ++ [o]) M /\ P (done ++ [o]) (spec M o).1) ->
  forall done, P done M -> P (done ++ os) M'.
Proof.
  intros He Hs. induction He as [M|M o os M' _ IH|M o os M' _ IH]; intros done HP.
  - by rewrite app_nil_r.
  - rewrite cons_middle, app_assoc. apply IH, Hs, HP.
  - rewrite cons_middle, app_assoc. apply IH, Hs, HP.
Qed.

(** What an operation may make of one task. *)
Inductive task_step (o : Op) (t : Task) : Task -> Prop :=
| ts_same : task_step o t t
| ts_claim who roles : o = OpClaim (t_id t) who roles -> may_decide t who roles = true -> is_pending (state t) = true ->
    assignee t = None \/ assignee t = Some who -> task_step o t (held_by t who)
| ts_take_over from who roles : o = OpTakeOver (t_id t) from who roles -> may_decide t who roles = true ->
    is_pending (state t) = true -> assignee t = Some from -> task_step o t (held_by t who)
| ts_release who : o = OpRelease (t_id t) who -> state t = Claimed -> assignee t = Some who ->
    task_step o t (moved t (candidate_roles t) None Open)
| ts_escalate : o = OpEscalate (t_id t) -> is_pending (state t) = true -> task_step o t (escalated t)
| ts_settle s : o = OpSetState (t_id t) s -> is_pending (state t) = true -> task_step o t (with_state t s)
| ts_withdraw r l : o = OpWithdraw r l -> is_pending (state t) = true -> task_step o t (with_state t Withdrawn).

Lemma eligible_ok t id who roles u : eligible t id who roles = Ok u ->
  may_decide t who roles = true /\ is_pending (state t) = true.
Proof.
  unfold eligible, may_decide. rewrite !seq_ok, !ensure_ok. intros (-> & -> & ->). done.
Qed.

Lemma withdraw_spec_lookup M r n awaited id t : (withdraw_spec M r n awaited).1 !! id = Some t ->
  exists t0, M !! id = Some t0 /\ (t = t0 \/ is_pending (state t0) = true /\ t = with_state t0 Withdrawn).
Proof.
  revert M n. induction awaited as [|i awaited IH]; intros M n; simpl; [eauto|].
  intros (t1 & Ht1 & Hor)%IH. destruct (decide (i = id)) as [->|Hi]; [|rewrite lookup_alter_ne in Ht1; eauto].
  rewrite lookup_alter_eq in Ht1. destruct (M !! id) as [t0|]; [|done]. simplify_eq/=. exists t0. split; [done|].
  unfold withdrawn, settled in *. repeat case_match; destruct Hor as [->|[Hp ->]]; auto; congruence.
Qed.

(** A task comes from its opening, and otherwise from itself. *)
Lemma spec_lookup M o id t : (forall i u, M !! i = Some u -> t_id u = i) -> (spec M o).1 !! id = Some t ->
  M !! id = None /\ o = OpOpen t /\ t_id t = id \/ exists t0, M !! id = Some t0 /\ task_step o t0 t.
Proof.
  intros Hid.
  assert (forall i miss f t', (changed M i miss f).1 !! id = Some t' ->
    (forall t0 a, M !! i = Some t0 -> f t0 = Ok (t', a) -> task_step o t0 t') ->
    exists t0, M !! id = Some t0 /\ task_step o t0 t') as Hch.
  { intros i miss f t' Hl Hf. unfold changed in Hl. destruct (M !! i) as [t0|] eqn:Hi; [|exists t'; by split; [|constructor]].
    destruct (f t0) as [[t1 a]|e] eqn:Hft; simpl in Hl; [|exists t'; by split; [|constructor]].
    apply lookup_insert_Some in Hl as [[<- <-]|[_ Hl]]; [|exists t'; by split; [|constructor]].
    exists t0. split; [done|]. by eapply Hf. }
  destruct o as [u|i who roles|i from who roles|i who|i|i s|r awaited]; simpl; intros Hl.
  - destruct (M !! t_id u) as [held|] eqn:Hu; simpl in Hl; [right; exists t; by split; [|constructor]|].
    apply lookup_insert_Some in Hl as [[<- <-]|[_ Hl]]; [by left|right; exists t; by split; [|constructor]].
  - right. eapply Hch; [exact Hl|]. intros t0 a Hi Hf. rewrite !seq_ok in Hf. destruct Hf as (He & Ha & [= <- <-]).
    apply eligible_ok in He as [Hm Hp]. apply Hid in Hi as <-. eapply ts_claim; [done..|].
    destruct (assignee t0); [|by left]. apply ensure_ok, bool_decide_eq_true in Ha as ->. by right.
  - right. eapply Hch; [exact Hl|]. intros t0 a Hi Hf. rewrite !seq_ok in Hf. destruct Hf as (He & Ha & [= <- <-]).
    apply eligible_ok in He as [Hm Hp]. apply Hid in Hi as <-. apply ensure_ok, bool_decide_eq_true in Ha.
    by eapply ts_take_over.
  - right. eapply Hch; [exact Hl|]. intros t0 a Hi Hf. rewrite !seq_ok in Hf. destruct Hf as (Ha & [= <- <-]).
    apply ensure_ok, andb_true_iff in Ha as [Hs%bool_decide_eq_true Hw%bool_decide_eq_true].
    apply Hid in Hi as <-. by eapply ts_release.
  - right. eapply Hch; [exact Hl|]. intros t0 a Hi [= <- <-]. apply Hid in Hi as <-.
    destruct (is_pending (state t0)) eqn:Hp; [by apply ts_escalate|constructor].
  - right. eapply Hch; [exact Hl|]. intros t0 a Hi [= <- <-]. apply Hid in Hi as <-. unfold settled.
    destruct (is_pending (state t0)) eqn:Hp; [by eapply ts_settle|constructor].
  - right. destruct (withdraw_spec M r 0 awaited) as [M' n] eqn:Hw. simpl in Hl.
    destruct (withdraw_spec_lookup M r 0 awaited id t) as (t0 & Ht0 & Hor); [by rewrite Hw|].
    exists t0. split; [done|]. destruct Hor as [->|[Hp ->]]; [constructor|by eapply ts_withdraw].
Qed.

Definition ids_own (M : Worklist) : Prop := forall id t, M !! id = Some t -> t_id t = id.
Lemma step_id o t t' : task_step o t t' -> t_id t' = t_id t.
Proof. by destruct 1. Qed.
Lemma spec_ids M o : ids_own M -> ids_own (spec M o).1.
Proof.
  intros Hid id t [(_ & _ & Ht)|(t0 & Ht0 & Hs)]%spec_lookup; [done| |done].
  rewrite (step_id _ _ _ Hs). by apply Hid.
Qed.

Lemma withdraw_keeps M r n awaited id : is_Some (M !! id) -> is_Some ((withdraw_spec M r n awaited).1 !! id).
Proof.
  revert M n. induction awaited as [|i awaited IH]; intros M n [t Ht]; simpl; [by exists t|]. apply IH.
  destruct (decide (i = id)) as [->|Hi]; [rewrite lookup_alter_eq, Ht|rewrite lookup_alter_ne by done]; by eexists.
Qed.
(** A task stays, and only as an operation makes of it. *)
Lemma spec_keeps M o id t : ids_own M -> M !! id = Some t -> exists t', (spec M o).1 !! id = Some t' /\ task_step o t t'.
Proof.
  intros Hid Ht.
  assert (is_Some ((spec M o).1 !! id)) as [t' Ht'].
  { assert (forall i miss f, is_Some ((changed M i miss f).1 !! id)) as Hch.
    { intros i miss f. unfold changed. destruct (M !! i); [|by exists t]. destruct (f _) as [[]|]; [|by exists t].
      simpl. destruct (decide (i = id)) as [->|]; [rewrite lookup_insert_eq|rewrite lookup_insert_ne by done]; by eexists. }
    destruct o as [u| | | | | |r awaited]; try apply Hch; simpl.
    - destruct (M !! t_id u) eqn:Hu; [by exists t|]. simpl. rewrite lookup_insert_ne by congruence. by exists t.
    - pose proof (withdraw_keeps M r 0 awaited id (mk_is_Some _ _ Ht)) as Hw. by destruct (withdraw_spec M r 0 awaited). }
  exists t'. split; [done|]. destruct (spec_lookup _ _ _ _ Hid Ht') as [(Hn & _)|(t0 & Ht0 & Hs)]; congruence.
Qed.

(** What holds of one task through any operations. *)
Lemma task_life (P : list Op -> Task -> Prop) M os M' : evolves M os M' -> ids_own M ->
  (forall done o t t', P done t -> task_step o t t' -> P (done ++ [o]) t') ->
  forall id t, M !! id = Some t -> P [] t -> exists t', M' !! id = Some t' /\ P os t'.
Proof.
  intros He Hid HP id t Ht H0'.
  assert (ids_own M' /\ exists t', M' !! id = Some t' /\ P os t') as [_ Hres]; [|done].
  apply (evolves_ind_inv (fun done M => ids_own M /\ exists t', M !! id = Some t' /\ P done t') M os M' He) with (done := []);
    [|split; eauto].
  clear dependent t. intros done M0 o (Hid0 & t' & Ht' & Hp). split; (split; [done || by apply spec_ids|]).
  - exists t'. split; [done|]. eapply HP; [done|constructor].
  - destruct (spec_keeps M0 o id t' Hid0 Ht') as (t'' & Ht'' & Hs). exists t''. split; [done|]. by eapply HP.
Qed.

Lemma step_settled o t t' : is_pending (state t) = false -> task_step o t t' -> t' = t.
Proof. intros Hp. destruct 1 as [|w l ? ? ? ?|? w l ? ? ? ?|w ? Hs ?| | |]; try congruence. by rewrite Hs in Hp. Qed.

(** What takes a reservation from its holder. *)
Definition frees (id : TaskId) (who : str) (o : Op) : bool :=
  match o with
  | OpRelease i w => bool_decide (i = id) && bool_decide (w = who)
  | OpTakeOver i from _ _ => bool_decide (i = id) && bool_decide (from = who)
  | OpEscalate i => bool_decide (i = id)
  | _ => false
  end.
Lemma step_reserved o t t' who : task_step o t t' -> assignee t = Some who ->
  assignee t' = Some who \/ frees (t_id t) who o = true.
Proof.
  intros Hs Ha.
  destruct Hs as [|w roles -> _ _ Hw|from w roles -> _ _ Hf|w -> _ Hw| -> _|s -> _|r l -> _]; simpl; auto.
  - left. destruct Hw; congruence.
  - right. by rewrite !bool_decide_true by congruence.
  - right. by rewrite !bool_decide_true by congruence.
  - right. by rewrite bool_decide_true.
Qed.

(** A task is opened unreserved, and set only to a state it ends in. *)
Definition ordinary (o : Op) : bool :=
  match o with
  | OpOpen t => bool_decide (state t = Open) && bool_decide (assignee t = None)
  | OpSetState _ s => negb (is_pending s)
  | _ => true
  end.
(** Who acquired a task, and in which roles. *)
Definition acquired (id : TaskId) (who : str) (roles : list str) (o : Op) : Prop :=
  o = OpClaim id who roles \/ exists from, o = OpTakeOver id from who roles.

(** Nobody holds a task they were barred from, or whose audience they were not
    in when they took it. *)
Definition held_well (os : list Op) (t : Task) : Prop :=
  (is_pending (state t) = true -> state t = Claimed <-> assignee t <> None) /\
  forall who, assignee t = Some who -> who ∉ excluded_actors t /\
    exists roles o, in_audience t roles = true /\ acquired (t_id t) who roles o /\ o ∈ os.

Lemma widened_mono roles add r : r ∈ roles -> r ∈ widened roles add.
Proof. revert roles. induction add as [|a add IH]; intros roles Hr; [done|]. apply IH. case_decide; set_solver. Qed.
Lemma escalated_audience t roles : in_audience t roles = true -> in_audience (escalated t) roles = true.
Proof.
  unfold in_audience, escalated. simpl. rewrite !orb_true_iff, !bool_decide_eq_true.
  destruct (candidate_roles t) as [|r l]; [by left|]. intros [|He]; [done|]. right.
  apply existsb_exists in He as (x & Hx%list_elem_of_In & Hr). apply existsb_exists. exists x. split; [|done].
  apply list_elem_of_In. by apply widened_mono.
Qed.

Lemma held_well_step os o t t' : ordinary o = true -> held_well os t -> task_step o t t' -> held_well (os ++ [o]) t'.
Proof.
  intros Ho [Hc Hw] Hs.
  assert (forall u, excluded_actors u = excluded_actors t -> t_id u = t_id t -> assignee u = assignee t ->
    (forall roles, in_audience t roles = true -> in_audience u roles = true) ->
    forall who, assignee u = Some who -> who ∉ excluded_actors u /\
    exists roles p, in_audience u roles = true /\ acquired (t_id u) who roles p /\ p ∈ os ++ [o]) as Hkeep.
  { intros u -> -> -> Hin who (Hx & roles & p & Hr & Hp & Hos)%Hw. split; [done|]. exists roles, p.
    split_and!; [auto|done|set_solver]. }
  assert (forall who roles, acquired (t_id t) who roles o -> may_decide t who roles = true ->
    held_well (os ++ [o]) (held_by t who)) as Htaken.
  { intros who roles Ha [Hx%negb_true_iff%bool_decide_eq_false Hr]%andb_true_iff. split; [done|]. simpl.
    intros ? [= <-]. split; [done|]. exists roles, o. split_and!; [done..|set_solver]. }
  destruct Hs as [|w roles -> Hm _ _|from w roles -> Hm _ _|w -> _ _| -> _|s -> Hp|r l -> Hp].
  - split; [done|]. by apply Hkeep.
  - eapply Htaken; [by left|done].
  - eapply Htaken; [right; by eexists|done].
  - by split.
  - split; [done|]. done.
  - split; [|by apply Hkeep]. simpl in *. by apply negb_true_iff in Ho as ->.
  - split; [done|]. by apply Hkeep.
Qed.

Lemma history_held_well os M : evolves ∅ os M -> forallb ordinary os = true ->
  forall id t, M !! id = Some t -> held_well os t.
Proof.
  intros He Ho.
  apply (evolves_ind_inv (fun done M => ids_own M /\ (forallb ordinary done = true ->
    forall id t, M !! id = Some t -> held_well done t)) ∅ os M He) with (done := []); [|by split|done].
  clear os M He Ho. intros done M o [Hid Hd]. split; (split; [done || by apply spec_ids|]); rewrite forallb_app; simpl;
    rewrite andb_true_r; intros [Hdone Ho]%andb_true_iff id t Ht.
  - eapply held_well_step; [done|by apply (Hd Hdone id)|constructor].
  - destruct (spec_lookup _ _ _ _ Hid Ht) as [(_ & -> & _)|(t0 & Ht0 & Hs)].
    + apply andb_true_iff in Ho as [Hs%bool_decide_eq_true Ha%bool_decide_eq_true].
      split; rewrite ?Hs, Ha; naive_solver.
    + eapply held_well_step; [done|by apply (Hd Hdone id)|done].
Qed.

(** ** What the tables show *)

Lemma page_spec st M keep limit l : stands_for st M ->
  page st keep limit l = Ok (take limit (filter (fun t => keep t) (omap (fun id => M !! id) l))).
Proof.
  intros Hst. revert limit. induction l as [|id l IH]; intros [|limit]; simpl; try done.
  rewrite (sf_rows _ _ Hst). simpl. destruct (M !! id) as [t|]; simpl; [|apply IH].
  rewrite filter_cons. destruct (keep t); simpl; [|apply IH]. by rewrite IH.
Qed.

Definition due_key (t : Task) : Z * TaskId := (default 0%Z (ts <$> due_at t), t_id t).
Definition case_key (t : Task) : Z * TaskId := (ts (created_at t), t_id t).
#[export] Instance z_id_cmp_order : CmpOrder z_id_cmp := _.
#[export] Instance queue_cmp_order : CmpOrder queue_cmp.
Proof.
  apply (then_cmp_order (fun x => x.1.1) (fun x => (x.1.2, x.2)) Z.compare z_id_cmp); [apply _..|].
  by intros [[] ?] [[] ?]; simpl; intros -> [= -> ->].
Qed.
(** Tasks [l] are those of [M] that satisfy [P], in the order of their keys. *)
Definition in_order {X} (cmp : X -> X -> comparison) (key : Task -> X) (P : Task -> bool) (M : Worklist) (l : list Task) : Prop :=
  l ≡ₚ rows_of P M /\ StronglySorted (fun t u => by_cmp cmp (key t) (key u)) l.

Lemma in_order_listed {X} `{Countable X} cmp `{!CmpOrder cmp} (index : TaskId -> Task -> option X) (id_of : X -> TaskId)
    (key : Task -> X) (P : Task -> bool) (S : gset X) M :
  (forall k t x, index k t = Some x -> id_of x = k) -> indexed index S M ->
  (forall k t, M !! k = Some t -> index k t = if P t then Some (key t) else None) ->
  in_order cmp key P M (listed id_of cmp S M).
Proof.
  intros Hid HS Hk. split.
  - apply (listed_perm index id_of Hid); [done|]. intros k t Ht. rewrite (Hk _ _ Ht). destruct (P t); naive_solver.
  - apply (listed_sorted index id_of Hid); [done..|]. intros k t x Ht. rewrite (Hk _ _ Ht). destruct (P t); naive_solver.
Qed.

Lemma queue_lists st M : stands_for st M -> exists l, in_order queue_cmp queue_key (fun t => is_queued (state t)) M l /\
  forall roles limit, queue st roles limit = Ok (take limit (filter (fun t => in_audience t roles) l)).
Proof.
  intros Hst. exists (listed snd queue_cmp (queued st) M). split.
  - apply (in_order_listed queue_cmp queued_at); [|apply Hst|].
    + intros k t x. unfold queued_at. case_match; naive_solver.
    + intros k t <-%(sf_id _ _ Hst). done.
  - intros roles limit. unfold queue. rewrite (page_spec _ _ _ _ _ Hst). unfold listed. by rewrite omap_of_fmap.
Qed.

Lemma overdue_lists st M : stands_for st M -> exists l,
  in_order z_id_cmp due_key (fun t => awaits_expiry (state t) && bool_decide (due_at t <> None)) M l /\
  forall now limit, overdue st now limit = Ok (take limit (filter (fun t => (due_key t).1 <= ts now)%Z l)).
Proof.
  intros Hst.
  assert (forall k t, M !! k = Some t ->
    due_of k t = if awaits_expiry (state t) && bool_decide (due_at t <> None) then Some (due_key t) else None) as Hk.
  { intros k t <-%(sf_id _ _ Hst). unfold due_of, due_key. by destruct (awaits_expiry _), (due_at t). }
  assert (forall k t x, due_of k t = Some x -> snd x = k) as Hid.
  { intros k t x. unfold due_of. case_match; [|done]. rewrite fmap_Some. naive_solver. }
  exists (listed snd z_id_cmp (due st) M). split.
  - by apply (in_order_listed z_id_cmp due_of); [|apply Hst|].
  - intros now limit. unfold overdue. rewrite (page_spec _ _ _ _ _ Hst). f_equal. f_equal.
    rewrite omap_of_fmap. rewrite filter_all by done.
    pose proof (listed_filter due_of snd Hid z_id_cmp (due st) M due_key (fun x => x.1 <= ts now)%Z (sf_due _ _ Hst)) as Hf.
    apply Hf.
    intros k t x Ht. rewrite (Hk _ _ Ht). case_match; naive_solver.
Qed.

Lemma case_lists st M c : stands_for st M -> exists l,
  in_order z_id_cmp case_key (fun t => bool_decide (t_case t = Some c)) M l /\ for_case st c = Ok l.
Proof.
  intros Hst. set (f := fun x : str * Z * TaskId => if decide (x.1.1 = c) then Some (x.1.2, x.2) else None).
  pose proof (indexed_filter_map case_of f _ _ (sf_case _ _ Hst)) as Hi.
  assert (forall k t, case_of k t ≫= f = if bool_decide (t_case t = Some c) then Some (ts (created_at t), k) else None) as Hk.
  { intros k t. unfold case_of, f. destruct (t_case t) as [c'|]; simpl; [|done].
    case_decide; case_bool_decide; naive_solver. }
  assert (forall k t x, case_of k t ≫= f = Some x -> snd x = k) as Hid.
  { intros k t x. rewrite Hk. case_match; naive_solver. }
  assert (forall k t, M !! k = Some t -> case_of k t ≫= f =
    if bool_decide (t_case t = Some c) then Some (case_key t) else None) as Hk'.
  { intros k t <-%(sf_id _ _ Hst). apply Hk. }
  exists (listed snd z_id_cmp (set_filter_map f (of_case st)) M). split.
  - by apply (in_order_listed z_id_cmp (fun k t => case_of k t ≫= f)).
  - unfold for_case. fold f. rewrite (page_spec _ _ _ _ _ Hst), omap_of_fmap. f_equal.
    rewrite filter_all by done. apply take_ge.
    rewrite <-(listed_keys _ snd Hid z_id_cmp _ M case_key Hi), length_fmap; [done|].
    intros k t x Ht. rewrite (Hk' _ _ Ht). case_match; naive_solver.
Qed.

Lemma count_pending st M : stands_for st M -> open_count st = length (rows_of (fun t => is_pending (state t)) M).
Proof. intros Hst. by apply (indexed_size pending_of); [apply Hst|]. Qed.

Section theorems.
Context `{!TaskCodecLaws}.

Lemma ops_refine st M os : stands_for st M -> exists M', evolves M os M' /\ stands_for (apply_ops st os) M'.
Proof.
  revert st M. induction os as [|o os IH]; intros st M Hst; simpl; [exists M; split; [constructor|done]|].
  destruct (op_refines st M o Hst) as [[e He]|[Hst' _]].
  - rewrite He. destruct (IH _ _ Hst) as (M' & ? & ?). exists M'. split; [by constructor|done].
  - destruct (IH _ _ Hst') as (M' & ? & ?). exists M'. split; [by apply ev_do|done].
Qed.

Lemma history_stands os : exists M, evolves ∅ os M /\ stands_for (apply_ops no_tasks os) M.
Proof. apply ops_refine, no_tasks_stand. Qed.

(** C27. After any operations the listings are the tasks themselves: the queue
    is the queued tasks by priority and age as far as the caller's roles may
    see them, the overdue scan those whose window closed, a case's list its
    tasks in every state, the settled ones too, and the backlog counts the
    pending ones. *)
Theorem worklist_exact os : let st := apply_ops no_tasks os in
  exists M, (forall id, task st id = Ok (M !! id)) /\
    (exists l, in_order queue_cmp queue_key (fun t => is_queued (state t)) M l /\
      forall roles limit, queue st roles limit = Ok (take limit (filter (fun t => in_audience t roles) l))) /\
    (exists l, in_order z_id_cmp due_key (fun t => awaits_expiry (state t) && bool_decide (due_at t <> None)) M l /\
      forall now limit, overdue st now limit = Ok (take limit (filter (fun t => (due_key t).1 <= ts now)%Z l))) /\
    (forall c, exists l, in_order z_id_cmp case_key (fun t => bool_decide (t_case t = Some c)) M l /\ for_case st c = Ok l) /\
    open_count st = length (rows_of (fun t => is_pending (state t)) M).
Proof.
  intros st. destruct (history_stands os) as (M & _ & Hst). exists M. split_and!.
  - intros id. apply Hst.
  - by apply queue_lists.
  - by apply overdue_lists.
  - intros c. by apply case_lists.
  - by apply count_pending.
Qed.

(** A settled task is settled: whatever is asked of the worklist
    afterwards, the task reads as it did. *)
Theorem settled_final os os' id t :
  task (apply_ops no_tasks os) id = Ok (Some t) -> is_pending (state t) = false ->
  task (apply_ops no_tasks (os ++ os')) id = Ok (Some t).
Proof.
  intros Ht Hp. destruct (history_stands os) as (M & _ & Hst). unfold apply_ops in *. rewrite foldl_app.
  unfold task in *. rewrite (sf_rows _ _ Hst) in Ht. injection Ht as Ht.
  destruct (ops_refine _ M os' Hst) as (M' & He & Hst'). unfold apply_ops in Hst'. rewrite (sf_rows _ _ Hst'). f_equal.
  destruct (task_life (fun _ u => u = t) M os' M' He (sf_id _ _ Hst)) with (id := id) (t := t) as (u & Hu & ->); [|done..].
  intros ? o u u' ->. by apply step_settled.
Qed.

(** C26. A reservation is exclusive and the holder's to end: as long as nobody
    released it in the holder's name, took it over from them, or escalated the
    task, whoever held it holds it. *)
Theorem reserved_until_freed os os' id t who t' :
  task (apply_ops no_tasks os) id = Ok (Some t) -> assignee t = Some who ->
  task (apply_ops no_tasks (os ++ os')) id = Ok (Some t') -> existsb (frees id who) os' = false ->
  assignee t' = Some who.
Proof.
  intros Ht Ha Ht' Hf. destruct (history_stands os) as (M & _ & Hst). unfold apply_ops in *. rewrite foldl_app in Ht'.
  unfold task in *. rewrite (sf_rows _ _ Hst) in Ht. injection Ht as Ht.
  destruct (ops_refine _ M os' Hst) as (M' & He & Hst'). unfold apply_ops in Hst'. rewrite (sf_rows _ _ Hst') in Ht'.
  injection Ht' as Ht'. pose proof (sf_id _ _ Hst _ _ Ht) as Hid.
  destruct (task_life (fun done u => t_id u = id /\ (existsb (frees id who) done = false -> assignee u = Some who))
    M os' M' He (sf_id _ _ Hst)) with (id := id) (t := t) as (u & Hu & _ & Hw); [|done..|].
  - intros done o u u' [Hi Hw] Hs. split; [by rewrite (step_id _ _ _ Hs)|]. rewrite existsb_app. simpl.
    rewrite orb_false_r. intros [Hd Ho]%orb_false_iff. destruct (step_reserved _ _ _ who Hs (Hw Hd)) as [|Hfr]; [done|].
    rewrite Hi in Hfr. congruence.
  - rewrite Ht' in Hu. simplify_eq. by apply Hw.
Qed.

(** Four eyes: a pending task is claimed exactly when somebody holds it,
    and whoever holds a task is not barred from it and took it in a role of its
    audience. *)
Theorem holder_may_decide os id t : forallb ordinary os = true ->
  task (apply_ops no_tasks os) id = Ok (Some t) ->
  (is_pending (state t) = true -> state t = Claimed <-> assignee t <> None) /\
  forall who, assignee t = Some who -> exists roles o, may_decide t who roles = true /\ acquired (t_id t) who roles o /\ o ∈ os.
Proof.
  intros Ho Ht. destruct (history_stands os) as (M & He & Hst). unfold task in Ht. rewrite (sf_rows _ _ Hst) in Ht.
  injection Ht as Ht. destruct (history_held_well os M He Ho id t Ht) as [Hc Hw]. split; [done|].
  intros who (Hx & roles & o & Hr & Hacq)%Hw. exists roles, o. split; [|done]. unfold may_decide.
  by rewrite bool_decide_false, Hr.
Qed.
End theorems.
End worklist.

Module WorklistWitness.
#[local] Instance hash : Sha256 := toy_hash.
Abbreviation Act := (Op (J:=unit) (R:=unit)).
Abbreviation Item := (Task (J:=unit) (R:=unit)).
#[local] Instance tainted_dec : EqDecision (Tainted str).
Proof. solve_decision. Defined.
#[local] Instance ask_dec : EqDecision Ask.
Proof. solve_decision. Defined.
#[local] Instance just_dec : EqDecision (Justification (J:=unit) (R:=unit)).
Proof. solve_decision. Defined.
#[local] Instance withheld_dec : EqDecision Withheld.
Proof. solve_decision. Defined.
#[local] Instance item_dec : EqDecision Item.
Proof. solve_decision. Defined.

Definition hex (_ : Digest) : str := lit "hex".
Definition item (n : nat) (roles : list str) (holder : option str) (s : TaskState) : Item :=
  mk_task (task_id hex (repeat zero_digit n) (digest_of [])) (repeat zero_digit n) (Some (lit "case")) (lit "refund")
    (mk_just (tainted_trusted (lit "refund 900")) tt None [] None tt) roles holder Urgent s Escalate [lit "lead"] [lit "proposer"]
    0 (Some 60000000000%Z) None.
Definition people : list str := [lit "alice"; lit "bob"].
Definition audiences : list (list str) := [[lit "clerk"]; [lit "clerk"; lit "lead"]].
(** Rows name a task by number, audience, holder and state. *)
Definition decode_item (x : str) : option Item :=
  match x with
  | [n; r; h; s] =>
      roles ← audiences !! nat_of_ascii r;
      s ← TASK_STATES !! nat_of_ascii s;
      Some (item (nat_of_ascii n) roles (people !! nat_of_ascii h) s)
  | _ => None
  end.
Definition index_of {A} `{EqDecision A} (x : A) (l : list A) : nat := default (length l) (fst <$> list_find (fun y => y = x) l).
Definition encode_item (t : Item) : str :=
  ascii_of_nat <$> [length (t_run t); index_of (candidate_roles t) audiences;
    default 9 ((fun p => index_of p people) <$> assignee t); index_of (state t) TASK_STATES].
#[local] Arguments decode_item : simpl never.
#[local] Arguments encode_item : simpl never.
#[local] Instance codec : TaskCodec (J:=unit) (R:=unit) := {
  task_json t := if bool_decide (decode_item (encode_item t) = Some t) then Ok (encode_item t) else Err (lit "not encodable");
  task_of x := ok_or (decode_item x) (lit "not a task");
}.
#[local] Instance codec_laws : TaskCodecLaws.
Proof. intros t x. simpl. case_bool_decide as Ht; [|done]. intros [= <-]. by rewrite Ht. Qed.

Definition id1 : TaskId := t_id (item 1 [] None Open).
Definition id2 : TaskId := t_id (item 2 [] None Open).
Abbreviation after := (apply_ops hex no_tasks).
Definition reads (os : list Act) (id : TaskId) (t : Item) : bool := 
  match task (after os) id with Ok (Some t') => bool_decide (t' = t) | _ => false end.
Lemma reads_ok os id t : reads os id t = true -> task (after os) id = Ok (Some t).
Proof. unfold reads. destruct (task _ _) as [[t'|]|]; [|done..]. by intros ->%bool_decide_eq_true. Qed.

Definition opened : list Act := [OpOpen (item 1 [lit "clerk"] None Open); OpOpen (item 2 [lit "clerk"] None Open)].
Definition by_alice : list Act := opened ++ [OpClaim id1 (lit "alice") [lit "clerk"]].
(** Bob's attempts, the proposer's, and one in the wrong role. *)
Definition attempts : list Act :=
  [OpClaim id1 (lit "bob") [lit "clerk"]; OpClaim id1 (lit "proposer") [lit "clerk"]; OpRelease id1 (lit "bob");
   OpTakeOver id1 (lit "bob") (lit "carol") [lit "clerk"]; OpClaim id2 (lit "bob") [lit "lead"]].
Definition held : Item := item 1 [lit "clerk"] (Some (lit "alice")) Claimed.
Definition done : Item := item 1 [lit "clerk"] (Some (lit "alice")) Completed.

Lemma reserved_until_freed_witness :
  reads by_alice id1 held = true /\ forall t, task (after (by_alice ++ attempts)) id1 = Ok (Some t) -> assignee t = Some (lit "alice").
Proof.
  split; [vm_compute; reflexivity|]. intros t Ht.
  apply (reserved_until_freed hex by_alice attempts id1 held (lit "alice") t); [|reflexivity|exact Ht|vm_compute; reflexivity].
  apply reads_ok. vm_compute. reflexivity.
Defined.

Lemma settled_final_witness :
  task (after ((by_alice ++ [OpSetState id1 Completed]) ++ [OpEscalate id1; OpSetState id1 Open; OpWithdraw [] [id1]])) id1
  = Ok (Some done).
Proof. apply (settled_final hex); [|reflexivity]. apply reads_ok. vm_compute. reflexivity. Defined.

Lemma holder_may_decide_witness : exists roles o,
  may_decide held (lit "alice") roles = true /\ acquired id1 (lit "alice") roles o /\ o ∈ by_alice.
Proof.
  destruct (holder_may_decide hex by_alice id1 held) as [_ Hw]; [vm_compute; reflexivity| |].
  - apply reads_ok. vm_compute. reflexivity.
  - exact (Hw (lit "alice") eq_refl).
Defined.

Lemma worklist_exact_witness : exists M : gmap TaskId Item, forall id, task (after by_alice) id = Ok (M !! id).
Proof. destruct (worklist_exact hex by_alice) as (M & HM & _). exists M. exact HM. Defined.

(** A task past its window is escalated and leaves the overdue scan; a
    reviewer of the wider audience claims it, and it is overdue again: the next
    sweep escalates it and the reservation is gone. *)
Definition late : Z := 120000000000.
Definition overdue_ids (os : list Act) : list TaskId :=
  match overdue (after os) late 10 with Ok l => t_id <$> l | Err _ => [] end.
Definition one : list Act := [OpOpen (item 1 [lit "clerk"] None Open); OpEscalate id1].
Definition reclaimed : list Act := one ++ [OpClaim id1 (lit "bob") [lit "lead"]].
Example escalated_again :
  (overdue_ids one = [] /\ overdue_ids reclaimed = [id1]) /\
  reads (reclaimed ++ [OpEscalate id1]) id1 (item 1 [lit "clerk"; lit "lead"] None Escalated) = true.
Proof. split; [split|]; [apply (bool_decide_unpack _); vm_compute; exact I..|vm_compute; reflexivity]. Qed.
End WorklistWitness.
