(* ===== verification/Mailbox.v ===== *)
(** * Inbound events and waits ([src/src/core/event.rs], [src/src/store/redb_events.rs])

    One tenant's mailbox: messages buffered as they arrive, waits registered by
    runs, and the transactions in which the two meet.  A payload is JSON text, a
    class with its round trip; instants are whole seconds, as the tables hold
    them.  Whether a run is sealed is the journal's to say and an argument here.
    No correlation namespace sorts after the one string the scans end at. *)

From S2P Require Import Prelude Digest EffectKey Index Panel Text Chain.
From S2P Require Journal.

(** ** Messages and waits *)

(** A namespace and a value. *)
Abbreviation CorrelationKey := (str * str)%type.

Section types.
Context {J : Type}.
Record InboundEvent := mk_event {
  ev_source : str;
  ev_id : str;
  ev_kind : str;
  ev_correlation : list CorrelationKey;
  ev_payload : J;
  ev_by : option Operator;
}.
End types.
Record Subscription := mk_sub {
  sub_run : RunId;
  sub_case : option str;
  sub_effect : EffectKey;
  sub_step : StepId;
  sub_phase : Phase;
  sub_kind : str;
  sub_correlation : list CorrelationKey;
  sub_from : option str;
}.
Definition dedup_key {J} (e : InboundEvent (J:=J)) : str := Journal.origin_key (ev_source e) (ev_id e).
Definition is_reserved_kind (k : str) : bool := match strip_prefix (lit "agentplane.") k with Some _ => true | None => false end.
(** A wait naming its sender is not a waiter for anyone else. *)
Definition accepts (from : option str) (source : str) : bool :=
  match from with Some f => bool_decide (f = source) | None => true end.
Definition accepts_source (s : Subscription) (source : str) : bool := accepts (sub_from s) source.

(** ** The operator slots of a row *)
Definition basis_str (b : Basis) : str :=
  match b with Authenticated => lit "authenticated" | Asserted => lit "asserted" | Connected => lit "connected" end.
Definition basis_parse (x : str) : option Basis :=
  snd <$> list_find (fun b => basis_str b = x) [Authenticated; Asserted; Connected].
Definition operator_new (a : str) (b : Basis) : option Operator :=
  if blank a then None else if bool_decide (length a <= 256) then Some (mk_operator a b) else None.
Definition encode_minter (o : option Operator) : str * str :=
  match o with Some o => (actor o, basis_str (basis o)) | None => ([], []) end.
Definition decode_minter (x : str * str) : result StoreError (option Operator) :=
  match x with
  | ([], []) => Ok None
  | (_ :: _, _ :: _) => o ← ok_or (b ← basis_parse x.2; operator_new x.1 b) (Corrupt 0 (lit "cannot attribute")); Ok (Some o)
  | _ => Err (Corrupt 0 (lit "half an operator"))
  end.

(** ** The tables *)

Record EventRow := mk_erow {
  e_source : str;
  e_id : str;
  e_kind : str;
  e_payload : str;
  received : Z;
  claim : option (RunId * Z);
  dead_as : option str;
  minted : str * str;
}.
Record SubRow := mk_srow {
  s_case : option str;
  s_step : StepId;
  s_phase : Phase;
  s_kind : str;
  created : Z;
  s_from : option str;
}.
Abbreviation Wait := (RunId * EffectKey)%type.

Record Mailbox := mk_mailbox {
  events : gmap str EventRow;
  corr : gset (str * CorrelationKey);
  by_key : gset (CorrelationKey * Z * str);
  live : gset (Z * str);
  dead : gset (Z * str);
  claimed : gmap (RunId * str) EffectKey;
  targeted : gset str;
  erased : gset str;
  subs : gmap (Wait * CorrelationKey) SubRow;
  subs_by_key : gset (str * CorrelationKey * Z * Wait);
  by_time : gset (Z * Wait * CorrelationKey);
  parked : gmap Wait Z;
}.
Definition no_mail : Mailbox := mk_mailbox ∅ ∅ ∅ ∅ ∅ ∅ ∅ ∅ ∅ ∅ ∅ ∅.

(** Tables written together: a message's row with the two indexes of its state,
    what names it, who holds it, and the waits. *)
Definition with_rows (st : Mailbox) ev li de : Mailbox :=
  mk_mailbox ev (corr st) (by_key st) li de (claimed st) (targeted st) (erased st) (subs st) (subs_by_key st) (by_time st) (parked st).
Definition with_keys (st : Mailbox) co bk : Mailbox :=
  mk_mailbox (events st) co bk (live st) (dead st) (claimed st) (targeted st) (erased st) (subs st) (subs_by_key st) (by_time st) (parked st).
Definition with_claimed (st : Mailbox) cl : Mailbox :=
  mk_mailbox (events st) (corr st) (by_key st) (live st) (dead st) cl (targeted st) (erased st) (subs st) (subs_by_key st) (by_time st) (parked st).
Definition with_marks (st : Mailbox) ta er : Mailbox :=
  mk_mailbox (events st) (corr st) (by_key st) (live st) (dead st) (claimed st) ta er (subs st) (subs_by_key st) (by_time st) (parked st).
Definition with_waits (st : Mailbox) su sk bt : Mailbox :=
  mk_mailbox (events st) (corr st) (by_key st) (live st) (dead st) (claimed st) (targeted st) (erased st) su sk bt (parked st).
Definition with_parked (st : Mailbox) pk : Mailbox :=
  mk_mailbox (events st) (corr st) (by_key st) (live st) (dead st) (claimed st) (targeted st) (erased st) (subs st) (subs_by_key st) (by_time st) pk.

(** ** Orders of the scans *)
Definition time_id_cmp : Z * str -> Z * str -> comparison := pair_cmp Z.compare str_cmp.
Definition key_cmp : CorrelationKey -> CorrelationKey -> comparison := pair_cmp str_cmp str_cmp.
Definition wait_cmp : Wait -> Wait -> comparison := pair_cmp str_cmp digest_cmp.
Definition time_wait_cmp : Z * Wait -> Z * Wait -> comparison := pair_cmp Z.compare wait_cmp.
Definition time_wait_key_cmp : Z * Wait * CorrelationKey -> Z * Wait * CorrelationKey -> comparison := pair_cmp time_wait_cmp key_cmp.
Definition effect_key_cmp : EffectKey * CorrelationKey -> EffectKey * CorrelationKey -> comparison := pair_cmp digest_cmp key_cmp.
#[export] Instance time_id_order : CmpOrder time_id_cmp := _.
#[export] Instance wait_order : CmpOrder wait_cmp := _.
#[export] Instance time_wait_order : CmpOrder time_wait_cmp := _.

Definition load_correlation (st : Mailbox) (id : str) : list CorrelationKey :=
  iter_by key_cmp (set_filter_map (fun x => if decide (x.1 = id) then Some x.2 else None) (corr st)).
(** A wait's keys. *)
Definition wait_keys (st : Mailbox) (w : Wait) : list CorrelationKey :=
  iter_by key_cmp (set_filter_map (fun x => if decide (x.1 = w) then Some x.2 else None) (dom (subs st))).
(** Messages carrying a key, oldest first. *)
Definition scan_key (st : Mailbox) (k : CorrelationKey) : list (Z * str) :=
  iter_by time_id_cmp (set_filter_map (fun x => if decide (x.1.1 = k) then Some (x.1.2, x.2) else None) (by_key st)).
(** Waits on a kind under a key, oldest first. *)
Definition scan_waits (st : Mailbox) (kind : str) (k : CorrelationKey) : list (Z * Wait) :=
  iter_by time_wait_cmp (set_filter_map (fun x => if decide (x.1.1 = (kind, k)) then Some (x.1.2, x.2) else None)
    (subs_by_key st)).
(** One run's wait rows. *)
Definition run_rows (st : Mailbox) (run : RunId) : list (EffectKey * CorrelationKey) :=
  iter_by effect_key_cmp (set_filter_map (fun x => if decide (x.1.1 = run) then Some (x.1.2, x.2) else None)
    (dom (subs st))).

(** ** Writes the operations share *)

Definition claim_row (row : EventRow) (run : RunId) (at_ : Z) : EventRow :=
  mk_erow (e_source row) (e_id row) (e_kind row) (e_payload row) (received row) (Some (run, at_)) None (minted row).
Definition stripped (row : EventRow) : EventRow :=
  mk_erow (e_source row) (e_id row) (e_kind row) (lit "null") (received row) (claim row) (dead_as row) (minted row).
Definition strip_payload (st : Mailbox) (id : str) : Mailbox :=
  match events st !! id with
  | Some row => with_rows st (<[id := stripped row]> (events st)) (live st) (dead st)
  | None => st
  end.
(** A row nobody holds: live, or dead for a reason. *)
Definition unclaimed (row : EventRow) (why : option str) : EventRow :=
  mk_erow (e_source row) (e_id row) (e_kind row) (e_payload row) (received row) None why (minted row).
Definition ERASED_REASON : str := lit "erased".
Definition ADDRESSEE_CONCLUDED_REASON : str := lit "the run it was addressed to concluded without consuming it".
Definition dead_letter_as_erased (st : Mailbox) (id : str) (at_ : Z) : Mailbox :=
  match events st !! id with
  | Some row => with_rows st (<[id := unclaimed row (Some ERASED_REASON)]> (events st))
                  (live st ∖ {[(at_, id)]}) ({[(at_, id)]} ∪ dead st)
  | None => st
  end.
Definition unpark_for (st : Mailbox) (run : RunId) (id : str) : Mailbox :=
  let keys := load_correlation st id in
  with_parked st (filter (fun p => ~ (p.1.1 = run /\ existsb (fun k => bool_decide (is_Some (subs st !! (p.1, k)))) keys = true))
    (parked st)).
(** Who holds a message claimed and not yet consumed. *)
Definition holder_of (st : Mailbox) (id : str) (row : EventRow) : option RunId :=
  match claim row with Some (run, _) => (fun _ => run) <$> claimed st !! (run, id) | None => None end.
Definition index_correlation (st : Mailbox) (id : str) (keys : list CorrelationKey) (at_ : Z) : Mailbox :=
  with_keys st (list_to_set ((id,.) <$> keys) ∪ corr st) (list_to_set ((fun k => (k, at_, id)) <$> keys) ∪ by_key st).
(** A message claimed for a wait, which is parked until its unsubscribe. *)
Definition claim_event (st : Mailbox) (id : str) (row : EventRow) (w : Wait) (at_ : Z) : Mailbox :=
  let st := with_rows st (<[id := claim_row row w.1 at_]> (events st)) (live st ∖ {[(received row, id)]}) (dead st) in
  let st := with_claimed st (<[(w.1, id) := w.2]> (claimed st)) in
  with_parked st (<[w := at_]> (parked st)).

Definition wait_of (s : Subscription) : Wait := (sub_run s, sub_effect s).
Definition srow_of (s : Subscription) (at_ : Z) : SubRow :=
  mk_srow (sub_case s) (sub_step s) (sub_phase s) (sub_kind s) at_ (sub_from s).
Definition register_key (s : Subscription) (at_ : Z) (st : Mailbox) (k : CorrelationKey) : Mailbox :=
  match subs st !! (wait_of s, k) with
  | Some _ => st
  | None => with_waits st (<[(wait_of s, k) := srow_of s at_]> (subs st))
              ({[(sub_kind s, k, at_, wait_of s)]} ∪ subs_by_key st) ({[(at_, wait_of s, k)]} ∪ by_time st)
  end.
Definition register_wait (st : Mailbox) (s : Subscription) (at_ : Z) : Mailbox :=
  foldl (register_key s at_) st (sub_correlation s).
Definition drop_key (w : Wait) (st : Mailbox) (k : CorrelationKey) : Mailbox :=
  match subs st !! (w, k) with
  | Some r => with_waits st (base.delete (w, k) (subs st)) (subs_by_key st ∖ {[(s_kind r, k, created r, w)]})
                (by_time st ∖ {[(created r, w, k)]})
  | None => st
  end.
Definition drop_wait (st : Mailbox) (w : Wait) : Mailbox :=
  let st := foldl (drop_key w) st (wait_keys st w) in
  with_parked st (base.delete w (parked st)).

(** What a run holds claimed, for a wait that satisfies [P]. *)
Definition held (st : Mailbox) (run : RunId) (P : EffectKey -> bool) : list str :=
  iter_str (set_filter_map (fun x => if decide (x.1 = run /\ (P <$> claimed st !! x) = Some true) then Some x.2 else None)
    (dom (claimed st))).
Definition shed_one (run : RunId) (st : Mailbox) (id : str) : Mailbox :=
  let st := strip_payload st id in
  with_claimed st (base.delete (run, id) (claimed st)).
Definition shed_claimed (st : Mailbox) (run : RunId) (effect : option EffectKey) : Mailbox :=
  foldl (shed_one run) st
    (held st run (fun e => match effect with Some e' => bool_decide (e = e') | None => true end)).

(** What becomes of a message of a concluded run. *)
Definition hand_back (st : Mailbox) (id : str) (row : EventRow) : Mailbox :=
  if bool_decide (id ∈ targeted st)
  then with_rows st (<[id := unclaimed row (Some ADDRESSEE_CONCLUDED_REASON)]> (events st)) (live st)
         ({[(received row, id)]} ∪ dead st)
  else with_rows st (<[id := unclaimed row None]> (events st)) ({[(received row, id)]} ∪ live st) (dead st).

Section mailbox.
Context {J : Type}.
Class EventJson := {
  payload_text : J -> result str str;
  payload_of : str -> result str J;
}.
Class EventJsonLaws `{EventJson} : Prop := {
  payload_reads j s : payload_text j = Ok s -> payload_of s = Ok j;
  null_reads : is_ok (payload_of (lit "null")) = true;
}.
Context `{EventJson}.
Abbreviation Event := (InboundEvent (J:=J)).

Definition stored_event (st : Mailbox) (id : str) (row : EventRow) : result StoreError Event :=
  payload ← map_err Encoding (payload_of (e_payload row));
  by_ ← decode_minter (minted row);
  Ok (mk_event (e_source row) (e_id row) (e_kind row) (load_correlation st id) payload by_).
Definition stored_sub (st : Mailbox) (w : Wait) (kind : str) (r : SubRow) : Subscription :=
  mk_sub w.1 (s_case r) w.2 (s_step r) (s_phase r) kind (wait_keys st w) (s_from r).

Definition release_one (run : RunId) (st : Mailbox) (id : str) : result StoreError (Mailbox * list Event) :=
  let st := with_claimed st (base.delete (run, id) (claimed st)) in
  match events st !! id with
  | None => Ok (st, [])
  | Some row =>
      if bool_decide (is_Some (dead_as row)) then Ok (st, [])
      else if bool_decide (id ∈ targeted st) then Ok (hand_back st id row, [])
      else e ← stored_event st id row; Ok (hand_back st id row, [e])
  end.
Fixpoint release_each (run : RunId) (st : Mailbox) (ids : list str) : result StoreError (Mailbox * list Event) :=
  match ids with
  | [] => Ok (st, [])
  | id :: ids =>
      '(st, e) ← release_one run st id;
      '(st, es) ← release_each run st ids;
      Ok (st, e ++ es)
  end.
Definition release_claimed (st : Mailbox) (run : RunId) (unanswered : list EffectKey) :
    result StoreError (Mailbox * list Event) :=
  release_each run st (held st run (fun e => bool_decide (e ∈ unanswered))).

(** ** The operations *)

Definition committed {T} (st : Mailbox) (r : result StoreError (Mailbox * T)) : Mailbox * result StoreError T :=
  match r with Ok (st', x) => (st', Ok x) | Err e => (st, Err e) end.

Definition new_row (e : Event) (payload : str) (at_ : Z) (c : option (RunId * Z)) : EventRow :=
  mk_erow (ev_source e) (ev_id e) (ev_kind e) payload at_ c None (encode_minter (ev_by e)).
Definition buffer (st : Mailbox) (e : Event) (at_ : Z) : Mailbox * result StoreError bool :=
  committed st (
    payload ← map_err Encoding (payload_text (ev_payload e));
    let id := dedup_key e in
    match events st !! id with
    | Some _ => Ok (st, false)
    | None =>
        let st := with_rows st (<[id := new_row e payload at_ None]> (events st)) ({[(at_, id)]} ∪ live st) (dead st) in
        Ok (index_correlation st id (ev_correlation e) at_, true)
    end).
Definition subscribe (st : Mailbox) (s : Subscription) (at_ : Z) : Mailbox := register_wait st s at_.

Definition claimable (st : Mailbox) (s : Subscription) (id : str) (row : EventRow) : bool :=
  let parked_here := bool_decide (is_Some (parked st !! wait_of s)) in
  let own_claim := bool_decide ((fst <$> claim row) = Some (sub_run s))
                   && bool_decide (claimed st !! (sub_run s, id) = Some (sub_effect s)) in
  bool_decide (e_kind row = sub_kind s) && accepts_source s (e_source row)
  && ((bool_decide (claim row = None) && negb parked_here) || own_claim)
  && bool_decide (dead_as row = None) && negb (bool_decide (id ∈ erased st)).
Definition pick (st : Mailbox) (s : Subscription) : option (str * EventRow) :=
  head (omap (fun x => row ← events st !! x.2; if claimable st s x.2 row then Some (x.2, row) else None)
    (concat (scan_key st <$> sub_correlation s))).
(** What a wait finds in the buffer, with the instant it arrived. *)
Definition claim_for (st : Mailbox) (s : Subscription) (at_ : Z) : Mailbox * result StoreError (option (Event * Z)) :=
  committed st (
    match pick st s with
    | None => Ok (st, None)
    | Some (id, row) =>
        e ← stored_event st id row;
        Ok (claim_event st id row (wait_of s) at_, Some (e, received row))
    end).

Definition oldest_waiter (sealed : RunId -> bool) (st : Mailbox) (kind source : str) (keys : list CorrelationKey) :
    option (Wait * SubRow) :=
  head (omap (fun x : CorrelationKey * Wait =>
      if sealed x.2.1 || bool_decide (is_Some (parked st !! x.2)) then None
      else r ← subs st !! (x.2, x.1); if accepts (s_from r) source then Some (x.2, r) else None)
    (concat ((fun k => (fun x => (k, x.2)) <$> scan_waits st kind k) <$> keys))).
Definition match_waiter (sealed : RunId -> bool) (st : Mailbox) (e : Event) (at_ : Z) : Mailbox * option Subscription :=
  let id := dedup_key e in
  match oldest_waiter sealed st (ev_kind e) (ev_source e) (ev_correlation e) with
  | None => (st, None)
  | Some (w, r) =>
      match events st !! id with
      | Some row =>
          if bool_decide (claim row = None) && bool_decide (dead_as row = None)
          then (claim_event st id row w at_, Some (stored_sub st w (ev_kind e) r))
          else (st, None)
      | None => (st, None)
      end
  end.

Inductive TargetedDelivery := Matched (s : Subscription) | Duplicate | NotWaiting.
(** The wait a message the run already holds was claimed for. *)
Definition claimed_for (st : Mailbox) (run : RunId) (id : str) (row : EventRow) : option EffectKey :=
  if bool_decide ((fst <$> claim row) = Some run) then claimed st !! (run, id) else None.
Definition addressee (st : Mailbox) (run : RunId) (e : Event) : option (EffectKey * SubRow) :=
  let existing := events st !! dedup_key e in
  head (omap (fun x : EffectKey * CorrelationKey =>
      r ← subs st !! ((run, x.1), x.2);
      let eligible :=
        match existing with
        | Some row => bool_decide (claimed_for st run (dedup_key e) row = Some x.1)
        | None => bool_decide (parked st !! (run, x.1) = None)
        end in
      if eligible && bool_decide (s_kind r = ev_kind e) && accepts (s_from r) (ev_source e)
         && bool_decide (x.2 ∈ ev_correlation e)
      then Some (x.1, r) else None) (run_rows st run)).
Definition deliver_to (st : Mailbox) (run : RunId) (e : Event) (at_ : Z) : Mailbox * result StoreError TargetedDelivery :=
  committed st (
    payload ← map_err Encoding (payload_text (ev_payload e));
    let id := dedup_key e in
    match addressee st run e with
    | None => Ok (st, match events st !! id with Some _ => Duplicate | None => NotWaiting end)
    | Some (effect, r) =>
        let s := stored_sub st (run, effect) (ev_kind e) r in
        match events st !! id with
        | Some _ => Ok (st, Matched s)
        | None =>
            let st := with_rows st (<[id := new_row e payload at_ (Some (run, at_))]> (events st)) (live st) (dead st) in
            let st := index_correlation st id (ev_correlation e) at_ in
            let st := with_marks st ({[id]} ∪ targeted st) (erased st) in
            let st := with_claimed st (<[(run, id) := effect]> (claimed st)) in
            Ok (with_parked st (<[(run, effect) := at_]> (parked st)), Matched s)
        end
    end).

Definition unsubscribe (st : Mailbox) (w : Wait) : Mailbox :=
  shed_claimed (drop_wait st w) w.1 (Some w.2).
Definition run_waits (st : Mailbox) (run : RunId) : list EffectKey :=
  iter_by digest_cmp (set_filter_map (fun x => if decide (x.1.1 = run) then Some x.1.2 else None) (dom (subs st))).
Definition unsubscribe_run (st : Mailbox) (run : RunId) (unanswered : list EffectKey) :
    Mailbox * result StoreError (nat * list Event) :=
  committed st (
    let effects := run_waits st run in
    let st := foldl (fun st e => drop_wait st (run, e)) st effects in
    '(st, released) ← release_claimed st run unanswered;
    Ok (shed_claimed st run None, (length effects, released))).
Definition park_wait (st : Mailbox) (s : Subscription) (at_ : Z) : Mailbox :=
  let st := register_wait st s at_ in
  with_parked st (<[wait_of s := at_]> (parked st)).

Definition retire_sealed (sealed : RunId -> bool) (st : Mailbox) (w : Wait) : Mailbox :=
  if sealed w.1 then shed_claimed (drop_wait st w) w.1 None else st.
Definition parked_waits (sealed : RunId -> bool) (st : Mailbox) (limit : nat) : Mailbox * list Subscription :=
  let listed := iter_by wait_cmp (dom (parked st)) in
  let st := foldl (retire_sealed sealed) st listed in
  (st, take limit (omap (fun w => k ← head (wait_keys st w); r ← subs st !! (w, k); Some (stored_sub st w (s_kind r) r))
         (filter (fun w => sealed w.1 = false) listed))).

Definition erase_payload (st : Mailbox) (source id : str) : Mailbox * bool :=
  let key := Journal.origin_key source id in
  match events st !! key with
  | None => (st, false)
  | Some row =>
      let holder := holder_of st key row in
      let st := strip_payload st key in
      let st := with_marks st (targeted st) ({[key]} ∪ erased st) in
      let st := match holder with Some run => with_claimed st (base.delete (run, key) (claimed st)) | None => st end in
      let st := if (bool_decide (claim row = None) && bool_decide (dead_as row = None)) || bool_decide (is_Some holder)
                then dead_letter_as_erased st key (received row) else st in
      (match holder with Some run => unpark_for st run key | None => st end, true)
  end.

(** Who minted a message: nobody is [Some None]. *)
Definition minter (st : Mailbox) (source id : str) : result StoreError (option (option Operator)) :=
  match events st !! Journal.origin_key source id with
  | None => Ok None
  | Some row => by_ ← decode_minter (minted row); Ok (Some by_)
  end.

Definition retire (why : str) (x : Mailbox * nat) (key : Z * str) : Mailbox * nat :=
  let '(st, n) := x in
  match events st !! key.2 with
  | Some row => (with_rows st (<[key.2 := unclaimed row (Some why)]> (events st)) (live st ∖ {[key]})
                   ({[(received row, key.2)]} ∪ dead st), S n)
  | None => (st, n)
  end.
Definition sweep_unclaimed (st : Mailbox) (older_than : Z) (why : str) : Mailbox * nat :=
  foldl (retire why) (st, 0) (filter (fun x => x.1 <= older_than)%Z (iter_by time_id_cmp (live st))).

(** The listings stop at the first row they cannot read. *)
Fixpoint collect {A} (l : list (result StoreError A)) : result StoreError (list A) :=
  match l with [] => Ok [] | x :: l => a ← x; l ← collect l; Ok (a :: l) end.
Definition dead_letters (st : Mailbox) (limit : nat) : result StoreError (list (Event * Z * str)) :=
  collect (take limit (omap (fun x : Z * str =>
    row ← events st !! x.2;
    Some (e ← stored_event st x.2 row;
          let why := default [] (dead_as row) in
          Ok (e, received row, if bool_decide (why = []) then lit "unclaimed" else why)))
    (reverse (iter_by time_id_cmp (dead st))))).
Definition waiting (st : Mailbox) (limit : nat) : list Subscription :=
  take limit (omap (fun x : Z * Wait * CorrelationKey =>
    r ← subs st !! (x.1.2, x.2);
    Some (mk_sub x.1.2.1 (s_case r) x.1.2.2 (s_step r) (s_phase r) (s_kind r) [x.2] (s_from r)))
    (iter_by time_wait_key_cmp (by_time st))).
End mailbox.
