(* ===== verification/MailboxSafety.v ===== *)
(** * What a mailbox keeps ([src/src/store/redb_events.rs])

    The tables of [Mailbox] agree with each other after any operations, a
    message has one holder and is consumed once, a wait holds one message, and
    no message and wait that match are left apart. *)

From S2P Require Import Prelude Digest EffectKey Index Panel Text Chain Mailbox.
From S2P Require Journal.

(** ** The tables agree *)

Definition live_of (id : str) (row : EventRow) : option (Z * str) :=
  match claim row, dead_as row with None, None => Some (received row, id) | _, _ => None end.
Definition dead_of (id : str) (row : EventRow) : option (Z * str) :=
  match dead_as row with Some _ => Some (received row, id) | None => None end.
Definition waits_of (x : Wait * CorrelationKey) (r : SubRow) : option (str * CorrelationKey * Z * Wait) :=
  Some (s_kind r, x.2, created r, x.1).
Definition time_of (x : Wait * CorrelationKey) (r : SubRow) : option (Z * Wait * CorrelationKey) :=
  Some (created r, x.1, x.2).

Record rows_ok (ev : gmap str EventRow) (li de : gset (Z * str)) (cl : gmap (RunId * str) EffectKey) : Prop := {
  ro_live : indexed live_of li ev;
  ro_dead : indexed dead_of de ev;
  ro_free id row : ev !! id = Some row -> dead_as row <> None -> claim row = None;
  ro_held r id e : cl !! (r, id) = Some e -> exists row at_, ev !! id = Some row /\ claim row = Some (r, at_);
  ro_id id row : ev !! id = Some row -> Journal.origin_key (e_source row) (e_id row) = id;
}.
Record keys_ok (ev : gmap str EventRow) (co : gset (str * CorrelationKey)) (bk : gset (CorrelationKey * Z * str)) : Prop := {
  ko_scan k t id : (k, t, id) ∈ bk <-> (id, k) ∈ co /\ (received <$> ev !! id) = Some t;
  ko_corr id k : (id, k) ∈ co -> is_Some (ev !! id);
}.
Definition out_of_play (ev : gmap str EventRow) (cl : gmap (RunId * str) EffectKey) (id : str) : Prop :=
  (exists row, ev !! id = Some row /\ (claim row <> None \/ dead_as row <> None)) /\ forall r, cl !! (r, id) = None.
Definition waits_ok (su : gmap (Wait * CorrelationKey) SubRow) sk bt : Prop :=
  indexed waits_of sk su /\ indexed time_of bt su.

Record sound (st : Mailbox) : Prop := {
  so_rows : rows_ok (events st) (live st) (dead st) (claimed st);
  so_keys : keys_ok (events st) (corr st) (by_key st);
  so_erased id : id ∈ erased st -> out_of_play (events st) (claimed st) id;
  so_waits : waits_ok (subs st) (subs_by_key st) (by_time st);
}.

Lemma live_inj : key_inj live_of.
Proof. intros k v k' v' x. unfold live_of. repeat case_match; naive_solver. Qed.
Lemma dead_inj : key_inj dead_of.
Proof. intros k v k' v' x. unfold dead_of. repeat case_match; naive_solver. Qed.
Lemma waits_inj : key_inj waits_of.
Proof. intros [] ? [] ? ?. unfold waits_of. naive_solver. Qed.
Lemma time_inj : key_inj time_of.
Proof. intros [] ? [] ? ?. unfold time_of. naive_solver. Qed.

(** *** One row changed *)
Section rows.
Context (ev : gmap str EventRow) (li de : gset (Z * str)) (cl : gmap (RunId * str) EffectKey) (Hok : rows_ok ev li de cl).
Context (id : str) (row : EventRow) (Hrow : ev !! id = Some row).

(** A row put back with its identity, with the indexes moved as its state did. *)
Lemma rows_put row' li' de' cl' :
  e_source row' = e_source row -> e_id row' = e_id row ->
  (dead_as row' <> None -> claim row' = None) ->
  (forall x, x ∈ li' <-> live_of id row' = Some x \/ x ∈ li /\ live_of id row <> Some x) ->
  (forall x, x ∈ de' <-> dead_of id row' = Some x \/ x ∈ de /\ dead_of id row <> Some x) ->
  (forall r i e, cl' !! (r, i) = Some e -> i <> id -> cl !! (r, i) = Some e) ->
  (forall r e, cl' !! (r, id) = Some e -> exists at_, claim row' = Some (r, at_)) ->
  rows_ok (<[id := row']> ev) li' de' cl'.
Proof using Hok Hrow.
  intros Hs Hi Hf Hli Hde Hcl Hid. destruct Hok as [HL HD HF HH HI]. split.
  - eapply indexed_insert; [apply live_inj|exact HL|]. intros x. by rewrite Hrow.
  - eapply indexed_insert; [apply dead_inj|exact HD|]. intros x. by rewrite Hrow.
  - intros i r. rewrite lookup_insert_Some. intros [[<- <-]|[_ Hr]]; [done|by eapply HF].
  - intros r i e He. destruct (decide (i = id)) as [->|Hne].
    + destruct (Hid r e He) as [at_ Ha]. exists row', at_. by rewrite lookup_insert_eq.
    + rewrite lookup_insert_ne by done. apply (HH r i e), Hcl; done.
  - intros i r. rewrite lookup_insert_Some. intros [[<- <-]|[_ Hr]]; [rewrite Hs, Hi; by apply HI|by apply HI].
Qed.

Lemma rows_strip row' : e_source row' = e_source row -> e_id row' = e_id row -> received row' = received row ->
  claim row' = claim row -> dead_as row' = dead_as row -> rows_ok (<[id := row']> ev) li de cl.
Proof using Hok Hrow.
  intros Hs Hi Hr Hc Hd.
  assert (live_of id row' = live_of id row) as Hl by (unfold live_of; by rewrite Hc, Hd, Hr).
  assert (dead_of id row' = dead_of id row) as Hdd by (unfold dead_of; by rewrite Hd, Hr).
  apply rows_put; try done.
  - rewrite Hc, Hd. by apply (ro_free _ _ _ _ Hok id).
  - intros x. rewrite Hl. split; [|by intros [Hx|[]]; [apply (ro_live _ _ _ _ Hok); eauto|]].
    intros Hx. destruct (decide (live_of id row = Some x)); auto.
  - intros x. rewrite Hdd. split; [|by intros [Hx|[]]; [apply (ro_dead _ _ _ _ Hok); eauto|]].
    intros Hx. destruct (decide (dead_of id row = Some x)); auto.
  - intros r e He. rewrite Hc. destruct (ro_held _ _ _ _ Hok r id e He) as (w & a & Hw & Ha). rewrite Hrow in Hw.
    simplify_eq. by exists a.
Qed.

Lemma live_mem : (received row, id) ∈ li <-> claim row = None /\ dead_as row = None.
Proof using Hok Hrow.
  rewrite (indexed_mem _ _ _ _ _ _ (ro_live _ _ _ _ Hok) Hrow); unfold live_of.
  - destruct (claim row), (dead_as row); naive_solver.
  - intros k v. repeat case_match; naive_solver.
Qed.
Lemma dead_mem : (received row, id) ∈ de <-> dead_as row <> None.
Proof using Hok Hrow.
  rewrite (indexed_mem _ _ _ _ _ _ (ro_dead _ _ _ _ Hok) Hrow); unfold dead_of.
  - destruct (dead_as row); naive_solver.
  - intros k v. repeat case_match; naive_solver.
Qed.
Lemma held_by r e : cl !! (r, id) = Some e -> exists at_, claim row = Some (r, at_).
Proof using Hok Hrow.
  intros He. destruct (ro_held _ _ _ _ Hok r id e He) as (w & a & Hw & Ha). rewrite Hrow in Hw. simplify_eq. by exists a.
Qed.

Lemma rows_claim r at_ e : dead_as row = None -> claim row = None \/ (fst <$> claim row) = Some r ->
  rows_ok (<[id := claim_row row r at_]> ev) (li ∖ {[(received row, id)]}) de (<[(r, id) := e]> cl).
Proof using Hok Hrow.
  intros Hd Hc. pose proof live_mem as Hl. apply rows_put; try done.
  - intros x. unfold live_of. simpl. rewrite elem_of_difference, elem_of_singleton, Hd.
    destruct (claim row) as [[]|]; naive_solver.
  - intros x. unfold dead_of. simpl. rewrite Hd. naive_solver.
  - intros r' i e' He Hi. by rewrite lookup_insert_ne in He by congruence.
  - intros r' e' He. simpl. destruct (decide (r = r')) as [->|Hr]; [by eexists|].
    rewrite lookup_insert_ne in He by congruence. destruct (held_by _ _ He) as [a Ha]. rewrite Ha in Hc.
    destruct Hc; naive_solver.
Qed.

(** A row nobody holds is retired, or handed back. *)
Lemma rows_unclaimed why li' de' :
  (forall r, cl !! (r, id) = None) ->
  (forall x, x ∈ li' <-> (why = None /\ x = (received row, id)) \/ x ∈ li /\ x <> (received row, id)) ->
  (forall x, x ∈ de' <-> (why <> None /\ x = (received row, id)) \/ x ∈ de /\ x <> (received row, id)) ->
  rows_ok (<[id := unclaimed row why]> ev) li' de' cl.
Proof using Hok Hrow.
  intros Hcl Hli Hde. pose proof live_mem as Hl. pose proof dead_mem as Hdm. apply rows_put; try done.
  - intros x. rewrite Hli. unfold live_of. simpl. destruct (claim row), (dead_as row), why; naive_solver.
  - intros x. rewrite Hde. unfold dead_of. simpl. destruct (dead_as row), why; naive_solver.
  - intros r e. by rewrite Hcl.
Qed.
End rows.

Lemma rows_unhold ev li de cl k : rows_ok ev li de cl -> rows_ok ev li de (base.delete k cl).
Proof.
  intros [HL HD HF HH HI]. split; try done. intros r id e [_ He]%lookup_delete_Some. by eapply HH.
Qed.
Lemma rows_new ev li de cl id row li' cl' : rows_ok ev li de cl -> ev !! id = None ->
  Journal.origin_key (e_source row) (e_id row) = id -> dead_as row = None ->
  (forall x, x ∈ li' <-> live_of id row = Some x \/ x ∈ li) ->
  (forall r i e, cl' !! (r, i) = Some e -> cl !! (r, i) = Some e \/ i = id /\ exists at_, claim row = Some (r, at_)) ->
  rows_ok (<[id := row]> ev) li' de cl'.
Proof.
  intros [HL HD HF HH HI] Hn Hid Hd Hli Hcl. split.
  - eapply indexed_insert; [apply live_inj|exact HL|]. intros x. rewrite Hn, Hli. naive_solver.
  - eapply indexed_insert; [apply dead_inj|exact HD|]. intros x. rewrite Hn. unfold dead_of at 1. rewrite Hd. naive_solver.
  - intros i r. rewrite lookup_insert_Some. intros [[<- <-]|[_ Hr]]; [done|by eapply HF].
  - intros r i e [He|[-> [a Ha]]]%Hcl; [|exists row, a; by rewrite lookup_insert_eq].
    destruct (HH r i e He) as (w & a & Hw & Ha). exists w, a. rewrite lookup_insert_ne by congruence. done.
  - intros i r. rewrite lookup_insert_Some. intros [[<- <-]|[_ Hr]]; [done|by apply HI].
Qed.

Lemma keys_put ev co bk id row row' : keys_ok ev co bk -> ev !! id = Some row -> received row' = received row ->
  keys_ok (<[id := row']> ev) co bk.
Proof.
  intros [Hs Hc] Hrow Hr.
  assert (forall i, received <$> <[id := row']> ev !! i = received <$> ev !! i) as He.
  { intros i. destruct (decide (id = i)) as [<-|]; [by rewrite lookup_insert_eq, Hrow; simpl; rewrite Hr|].
    by rewrite lookup_insert_ne. }
  split; [intros k t i; by rewrite He|]. intros i k Hk. apply (fmap_is_Some received). rewrite He.
  apply fmap_is_Some. by eapply Hc.
Qed.
Lemma keys_new ev co bk id row keys : keys_ok ev co bk -> ev !! id = None ->
  keys_ok (<[id := row]> ev) (list_to_set ((id,.) <$> keys) ∪ co)
    (list_to_set ((fun k => (k, received row, id)) <$> keys) ∪ bk).
Proof.
  intros [Hs Hc] Hn. split.
  - intros k t i. rewrite !elem_of_union, !elem_of_list_to_set, !list_elem_of_fmap, Hs.
    destruct (decide (id = i)) as [<-|Hi].
    + rewrite lookup_insert_eq, Hn. simpl. split.
      * intros [(? & [= -> ->] & ?)|[_ ?]]; [|done]. split; [left; eauto|done].
      * intros [[(? & [= ->] & ?)|Hk] [= <-]]; [left; eauto|]. by apply Hc in Hk as [? ?]; congruence.
    + rewrite lookup_insert_ne by done. naive_solver.
  - intros i k. rewrite elem_of_union, elem_of_list_to_set, list_elem_of_fmap. destruct (decide (id = i)) as [<-|Hi].
    + rewrite lookup_insert_eq. eauto.
    + rewrite lookup_insert_ne by done. intros [(? & [= -> ->] & ?)|Hk]; [done|by eapply Hc].
Qed.

(** ** The waits' tables *)
Lemma waits_register su sk bt s at_ k : waits_ok su sk bt -> su !! (wait_of s, k) = None ->
  waits_ok (<[(wait_of s, k) := srow_of s at_]> su)
    ({[(sub_kind s, k, at_, wait_of s)]} ∪ sk) ({[(at_, wait_of s, k)]} ∪ bt).
Proof.
  intros [Hk Ht] Hn. split.
  - by apply (indexed_fresh waits_of _ _ _ (srow_of s at_) waits_inj Hk Hn).
  - by apply (indexed_fresh time_of _ _ _ (srow_of s at_) time_inj Ht Hn).
Qed.
Lemma waits_drop su sk bt w k r : waits_ok su sk bt -> su !! (w, k) = Some r ->
  waits_ok (base.delete (w, k) su) (sk ∖ {[(s_kind r, k, created r, w)]}) (bt ∖ {[(created r, w, k)]}).
Proof.
  intros [Hk Ht] Hr. split.
  - apply (indexed_delete waits_of _ _ _ r waits_inj Hk Hr).
  - apply (indexed_delete time_of _ _ _ r time_inj Ht Hr).
Qed.

(** ** Every write keeps the tables in agreement *)

Lemma foldl_keeps {A B} (P : A -> Prop) (f : A -> B -> A) l a : (forall a b, P a -> P (f a b)) -> P a -> P (foldl f a l).
Proof. intros Hf. revert a. induction l; simpl; auto. Qed.

Lemma no_mail_sound : sound no_mail.
Proof.
  split; simpl; [split|split|set_solver|split]; try apply indexed_empty; try done. set_solver.
Qed.

(** A row changed in place: what names it and what is out of play stay so. *)
Lemma put_sound st id row row' li' de' : sound st -> events st !! id = Some row -> received row' = received row ->
  rows_ok (<[id := row']> (events st)) li' de' (claimed st) ->
  (id ∈ erased st -> claim row' <> None \/ dead_as row' <> None) ->
  sound (with_rows st (<[id := row']> (events st)) li' de').
Proof.
  intros [Hr Hk He Hw] Hrow Hrec Hok Her. split; simpl; [done|by eapply keys_put| |done].
  intros i Hi. destruct (decide (id = i)) as [<-|Hne].
  - destruct (He id Hi) as [_ Hcl]. split; [exists row'; rewrite lookup_insert_eq; auto|done].
  - destruct (He i Hi) as [(w & Hw' & Ho) Hcl]. split; [exists w; by rewrite lookup_insert_ne|done].
Qed.

Lemma strip_sound st id : sound st -> sound (strip_payload st id).
Proof.
  intros Hs. unfold strip_payload. destruct (events st !! id) as [row|] eqn:Hrow; [|done].
  apply put_sound with (row := row); [done..| |].
  - eapply rows_strip; [apply Hs|done..].
  - intros Hi. destruct (so_erased _ Hs id Hi) as [(w & Hw & Ho) _]. rewrite Hrow in Hw. by simplify_eq.
Qed.

Lemma unhold_sound st k : sound st -> sound (with_claimed st (base.delete k (claimed st))).
Proof.
  intros [Hr Hk He Hw]. split; simpl; [by apply rows_unhold|done| |done].
  intros i Hi. destruct (He i Hi) as [Ho Hcl]. split; [done|]. intros r. apply lookup_delete_None. auto.
Qed.

Lemma parked_sound st pk : sound st -> sound (with_parked st pk).
Proof. by intros [Hr Hk He Hw]. Qed.

Lemma unclaimed_sound st id row why : sound st -> events st !! id = Some row ->
  (forall r, claimed st !! (r, id) = None) -> (id ∈ erased st -> why <> None) ->
  forall li' de',
  (forall x, x ∈ li' <-> (why = None /\ x = (received row, id)) \/ x ∈ live st /\ x <> (received row, id)) ->
  (forall x, x ∈ de' <-> (why <> None /\ x = (received row, id)) \/ x ∈ dead st /\ x <> (received row, id)) ->
  sound (with_rows st (<[id := unclaimed row why]> (events st)) li' de').
Proof.
  intros Hs Hrow Hcl Hwhy li' de' Hli Hde. apply put_sound with (row := row); [done..| |].
  - eapply rows_unclaimed; [apply Hs|done..].
  - intros Hi%Hwhy. by right.
Qed.

Lemma dead_letter_sound st id row : sound st -> events st !! id = Some row ->
  (forall r, claimed st !! (r, id) = None) -> sound (dead_letter_as_erased st id (received row)).
Proof.
  intros Hs Hrow Hcl. unfold dead_letter_as_erased. rewrite Hrow.
  apply unclaimed_sound; [done..| |]; intros x; rewrite ?elem_of_difference, ?elem_of_union, elem_of_singleton.
  - naive_solver.
  - destruct (decide (x = (received row, id))); naive_solver.
Qed.

Lemma hand_back_sound st id row : sound st -> events st !! id = Some row ->
  (forall r, claimed st !! (r, id) = None) -> claim row <> None -> id ∉ erased st -> sound (hand_back st id row).
Proof.
  intros Hs Hrow Hcl Hc Her. pose proof (live_mem _ _ _ _ (so_rows _ Hs) _ _ Hrow) as Hl.
  pose proof (dead_mem _ _ _ _ (so_rows _ Hs) _ _ Hrow) as Hd.
  assert (dead_as row = None) as Hdn.
  { destruct (dead_as row) eqn:E; [|done]. destruct Hc. apply (ro_free _ _ _ _ (so_rows _ Hs) id); congruence. }
  assert ((received row, id) ∉ live st) as Hl' by naive_solver.
  assert ((received row, id) ∉ dead st) as Hd' by naive_solver.
  unfold hand_back. case_bool_decide; (apply unclaimed_sound; [done|done|done|done || naive_solver|intros x|intros x]);
    rewrite ?elem_of_union, ?elem_of_singleton; destruct (decide (x = (received row, id))); naive_solver.
Qed.

Lemma claim_sound st id row w at_ : sound st -> events st !! id = Some row -> dead_as row = None ->
  claim row = None \/ (fst <$> claim row) = Some w.1 -> id ∉ erased st -> sound (claim_event st id row w at_).
Proof.
  intros Hs Hrow Hd Hc Her. destruct Hs as [Hr Hk He Hw]. unfold claim_event. apply parked_sound. split; simpl; [|by eapply keys_put| |done].
  - eapply rows_claim; done.
  - intros i Hi. destruct (decide (id = i)) as [<-|Hne]; [done|]. destruct (He i Hi) as [(r & Hr' & Ho) Hcl].
    split; [exists r; by rewrite lookup_insert_ne|]. intros r'. by rewrite lookup_insert_ne by congruence.
Qed.

Lemma register_sound st s at_ : sound st -> sound (register_wait st s at_).
Proof.
  apply foldl_keeps. clear st. intros st k Hs. unfold register_key. destruct (subs st !! _) eqn:Hk; [done|].
  destruct Hs as [Hr Hko He Hw]. split; try done. simpl. by apply waits_register.
Qed.
Lemma drop_key_sound w st k : sound st -> sound (drop_key w st k).
Proof.
  intros [Hr Hk He Hw]. unfold drop_key. destruct (subs st !! (w, k)) as [r|] eqn:Hs; [|done].
  split; try done. simpl. by eapply waits_drop.
Qed.
Lemma drop_sound st w : sound st -> sound (drop_wait st w).
Proof. intros Hs. apply parked_sound. apply foldl_keeps; [|done]. intros. by apply drop_key_sound. Qed.
Lemma shed_sound st run effect : sound st -> sound (shed_claimed st run effect).
Proof. apply foldl_keeps. intros st' id Hs. by apply unhold_sound, strip_sound. Qed.

(** What a run holds, listed. *)
Lemma elem_of_held st run P id : id ∈ held st run P <-> exists e, claimed st !! (run, id) = Some e /\ P e = true.
Proof.
  unfold held, iter_str. rewrite elem_of_iter_by, elem_of_set_filter_map. split.
  - intros ([r i] & Hin & Hx). case_decide as Hd; [|done]. simplify_eq/=. destruct Hd as [-> Hp].
    destruct (claimed st !! (run, id)) as [e|]; [|done]. simplify_eq/=. eauto.
  - intros (e & He & Hp). exists (run, id). split; [by apply elem_of_dom; eexists|].
    by rewrite decide_True by (simpl; rewrite He; simpl; by rewrite Hp).
Qed.
Lemma held_nodup st run P : NoDup (held st run P).
Proof. unfold held, iter_str, iter_by. rewrite merge_sort_Permutation. apply NoDup_elements. Qed.

(** A held message is its holder's alone. *)
Lemma sole_holder st r r' id e e' : sound st -> claimed st !! (r, id) = Some e -> claimed st !! (r', id) = Some e' -> r = r'.
Proof.
  intros Hs He He'. destruct (ro_held _ _ _ _ (so_rows _ Hs) _ _ _ He) as (row & a & Hrow & Hc).
  destruct (held_by _ _ _ _ (so_rows _ Hs) _ _ Hrow _ _ He') as [a' Hc']. congruence.
Qed.
Lemma held_unerased st r id e : sound st -> claimed st !! (r, id) = Some e -> id ∉ erased st.
Proof. intros Hs He Hi. destruct (so_erased _ Hs id Hi) as [_ Hn]. by rewrite Hn in He. Qed.
(** A live message is nobody's. *)
Lemma live_unheld st t id : sound st -> (t, id) ∈ live st -> exists row, events st !! id = Some row /\ t = received row /\
  claim row = None /\ dead_as row = None /\ forall r, claimed st !! (r, id) = None.
Proof.
  intros Hs Hl. apply (ro_live _ _ _ _ (so_rows _ Hs)) in Hl as (i & row & Hrow & Hl).
  unfold live_of in Hl. destruct (claim row) eqn:Hc, (dead_as row) eqn:Hd; simplify_eq.
  exists row. split_and!; [done..|]. intros r. destruct (claimed st !! (r, id)) as [e|] eqn:He; [|done].
  destruct (held_by _ _ _ _ (so_rows _ Hs) _ _ Hrow _ _ He). congruence.
Qed.

Lemma retire_sound why st n key : sound st -> key ∈ live st -> sound (retire why (st, n) key).1.
Proof.
  destruct key as [t id]. intros Hs Hl. pose proof (live_unheld _ _ _ Hs Hl) as (row & Hrow & -> & Hc & Hd & Hn).
  unfold retire. simpl. rewrite Hrow. apply unclaimed_sound; [done..| |]; intros x;
    rewrite ?elem_of_difference, ?elem_of_union, elem_of_singleton; destruct (decide (x = (received row, id))); naive_solver.
Qed.
Lemma retire_others why st n key : (retire why (st, n) key).1.(live) = live st ∖ {[key]} \/ (retire why (st, n) key).1 = st.
Proof. unfold retire. destruct (events st !! key.2); [by left|by right]. Qed.
(** What retiring one live message keeps, the sweep keeps. *)
Lemma sweep_keeps (P : Mailbox -> Prop) st older why : sound st -> P st ->
  (forall st n key, sound st -> P st -> key ∈ live st -> P (retire why (st, n) key).1) ->
  sound (sweep_unclaimed st older why).1 /\ P (sweep_unclaimed st older why).1.
Proof.
  intros Hs Hp HP. unfold sweep_unclaimed. set (l := filter _ _). generalize 0.
  assert (forall x, x ∈ l -> x ∈ live st) as Hl.
  { intros x. unfold l. rewrite list_elem_of_filter, elem_of_iter_by. tauto. }
  assert (NoDup l) as Hnd.
  { apply NoDup_filter. unfold iter_by. rewrite merge_sort_Permutation. apply NoDup_elements. }
  clearbody l. revert st Hs Hp Hl. induction Hnd as [|key l Hk _ IH]; intros st Hs Hp Hl n; [done|].
  assert (key ∈ live st) as Hkey by (apply Hl; by left).
  pose proof (retire_sound why st n key Hs Hkey) as Hs'. pose proof (HP st n key Hs Hp Hkey) as Hp'.
  pose proof (retire_others why st n key) as Ho.
  change (foldl (retire why) (st, n) (key :: l)) with (foldl (retire why) (retire why (st, n) key) l).
  destruct (retire why (st, n) key) as [st' n']. apply IH; [done..|].
  intros x Hx. destruct Ho as [Ho|Ho]; simpl in Ho; [rewrite Ho; assert (x <> key) by (by intros ->); set_solver|].
  subst st'. apply Hl. by right.
Qed.
Lemma sweep_sound st older why : sound st -> sound (sweep_unclaimed st older why).1.
Proof. intros Hs. by apply (sweep_keeps (fun _ => True)). Qed.

Lemma marks_sound st id : sound st -> out_of_play (events st) (claimed st) id ->
  sound (with_marks st (targeted st) ({[id]} ∪ erased st)).
Proof.
  intros [Hr Hk He Hw] Ho. split; simpl; [done|done| |done]. intros i [->%elem_of_singleton|Hi]%elem_of_union; [done|by apply He].
Qed.

Lemma holder_none st id row : sound st -> events st !! id = Some row -> holder_of st id row = None ->
  forall r, claimed st !! (r, id) = None.
Proof.
  intros Hs Hrow Hh r. destruct (claimed st !! (r, id)) as [e|] eqn:He; [|done].
  destruct (held_by _ _ _ _ (so_rows _ Hs) _ _ Hrow _ _ He) as [a Ha]. unfold holder_of in Hh. rewrite Ha, He in Hh. done.
Qed.
Lemma holder_some st id row run : sound st -> events st !! id = Some row -> holder_of st id row = Some run ->
  is_Some (claimed st !! (run, id)) /\ forall r, base.delete (run, id) (claimed st) !! (r, id) = None.
Proof.
  intros Hs Hrow Hh. unfold holder_of in Hh. destruct (claim row) as [[run' a]|]; [|done].
  destruct (claimed st !! (run', id)) as [e|] eqn:He; simplify_eq/=. split; [by rewrite He|].
  intros r. apply lookup_delete_None. destruct (decide (run = r)) as [->|Hr]; [by left|right].
  destruct (claimed st !! (r, id)) as [e'|] eqn:He'; [|done]. by destruct Hr; eapply sole_holder.
Qed.

Lemma erase_sound st source id : sound st -> sound (erase_payload st source id).1.
Proof.
  intros Hs. unfold erase_payload. set (key := Journal.origin_key source id).
  destruct (events st !! key) as [row|] eqn:Hrow; [|done]. fold (holder_of st key row).
  pose proof (strip_sound st key Hs) as Hst. unfold strip_payload in *. rewrite Hrow in *.
  assert (forall st2, sound st2 -> events st2 = <[key := stripped row]> (events st) ->
    (forall r, claimed st2 !! (r, key) = None) ->
    sound (with_marks (dead_letter_as_erased st2 key (received row)) (targeted st2) ({[key]} ∪ erased st2))) as Hdl.
  { intros st2 Hs2 He2 Hn2.
    assert (events st2 !! key = Some (stripped row)) as Hrow2 by by rewrite He2, lookup_insert_eq.
    pose proof (dead_letter_sound st2 key (stripped row) Hs2 Hrow2 Hn2) as Hd.
    unfold dead_letter_as_erased in *. rewrite Hrow2 in *. apply (marks_sound _ key) in Hd; [exact Hd|].
    split; [|exact Hn2]. simpl. eexists. rewrite lookup_insert_eq. split; [done|by right]. }
  destruct (holder_of st key row) as [run|] eqn:Hh; cbn zeta.
  - rewrite (bool_decide_true (is_Some (Some run))), orb_true_r by eauto. apply parked_sound. destruct (holder_some _ _ _ _ Hs Hrow Hh) as [_ Hn].
    apply (unhold_sound _ (run, key)) in Hst. specialize (Hdl _ Hst eq_refl Hn).
    unfold dead_letter_as_erased in *. simpl in *. by rewrite lookup_insert_eq in *.
  - pose proof (holder_none _ _ _ Hs Hrow Hh) as Hn.
    rewrite (bool_decide_false (is_Some (@None RunId))), orb_false_r by (by intros []).
    destruct (bool_decide (claim row = None) && bool_decide (dead_as row = None)) eqn:Hb.
    + specialize (Hdl _ Hst eq_refl Hn). unfold dead_letter_as_erased in *. simpl in *. by rewrite lookup_insert_eq in *.
    + apply (marks_sound _ key Hst). split; [|exact Hn]. exists (stripped row). simpl. rewrite lookup_insert_eq. split; [done|].
      apply andb_false_iff in Hb as [Hb%bool_decide_eq_false|Hb%bool_decide_eq_false]; auto.
Qed.

(** ** The searches *)

Lemma head_omap_Some {A B} (f : A -> option B) l y : head (omap f l) = Some y -> exists x, x ∈ l /\ f x = Some y.
Proof.
  induction l as [|x l IH]; [done|]. cbn. destruct (f x) as [z|] eqn:Hx.
  - intros [= ->]. exists x. split; [by left|done].
  - intros (x' & ? & ?)%IH. exists x'. split; [by right|done].
Qed.
Lemma head_omap_None {A B} (f : A -> option B) l x : head (omap f l) = None -> x ∈ l -> f x = None.
Proof.
  induction l as [|z l IH]; [set_solver|]. cbn. destruct (f z) as [y|] eqn:Hz; [done|].
  intros Hh [->|Hx]%elem_of_cons; [done|by apply IH].
Qed.

Lemma elem_of_scan_key st k t id : (t, id) ∈ scan_key st k <-> (k, t, id) ∈ by_key st.
Proof.
  unfold scan_key. rewrite elem_of_iter_by, elem_of_set_filter_map. split.
  - intros ([[k' t'] i] & Hin & Hx). case_decide; naive_solver.
  - intros Hin. exists (k, t, id). split; [done|]. by rewrite decide_True.
Qed.
Lemma elem_of_scan_waits st kind k t w : (t, w) ∈ scan_waits st kind k <-> (kind, k, t, w) ∈ subs_by_key st.
Proof.
  unfold scan_waits. rewrite elem_of_iter_by, elem_of_set_filter_map. split.
  - intros ([[[kd k'] t'] i] & Hin & Hx). case_decide; naive_solver.
  - intros Hin. exists (kind, k, t, w). split; [done|]. by rewrite decide_True.
Qed.
Lemma elem_of_run_rows st run e k : (e, k) ∈ run_rows st run <-> is_Some (subs st !! ((run, e), k)).
Proof.
  unfold run_rows. rewrite elem_of_iter_by, elem_of_set_filter_map, <-elem_of_dom. split.
  - intros ([[r e'] k'] & Hin & Hx). case_decide; naive_solver.
  - intros Hin. exists ((run, e), k). split; [done|]. by rewrite decide_True.
Qed.
Lemma elem_of_wait_keys st w k : k ∈ wait_keys st w <-> is_Some (subs st !! (w, k)).
Proof.
  unfold wait_keys. rewrite elem_of_iter_by, elem_of_set_filter_map, <-elem_of_dom. split.
  - intros ([w' k'] & Hin & Hx). case_decide; naive_solver.
  - intros Hin. exists (w, k). split; [done|]. by rewrite decide_True.
Qed.

(** Whether a message is one a wait may be handed. *)
Record matches (st : Mailbox) (s : Subscription) (id : str) (row : EventRow) : Prop := {
  ma_row : events st !! id = Some row;
  ma_kind : e_kind row = sub_kind s;
  ma_source : accepts_source s (e_source row) = true;
  ma_key : exists k, k ∈ sub_correlation s /\ (id, k) ∈ corr st;
}.
Definition free_or_own (st : Mailbox) (s : Subscription) (id : str) (row : EventRow) : Prop :=
  dead_as row = None /\ id ∉ erased st /\
  (claim row = None /\ parked st !! wait_of s = None \/
   (fst <$> claim row) = Some (sub_run s) /\ claimed st !! (sub_run s, id) = Some (sub_effect s)).

Lemma claimable_spec st s id row : claimable st s id row = true <->
  e_kind row = sub_kind s /\ accepts_source s (e_source row) = true /\ free_or_own st s id row.
Proof.
  unfold claimable, free_or_own. rewrite !andb_true_iff, orb_true_iff, !andb_true_iff, !negb_true_iff, !bool_decide_eq_true,
    !bool_decide_eq_false. rewrite <-eq_None_not_Some. tauto.
Qed.
Lemma pick_some st s id row : sound st -> pick st s = Some (id, row) -> matches st s id row /\ free_or_own st s id row.
Proof.
  intros Hs Hp. apply head_omap_Some in Hp as ([t i] & Hin & Hx). simpl in Hx.
  destruct (events st !! i) as [r|] eqn:Hr; [|done]. simpl in Hx. destruct (claimable st s i r) eqn:Hc; simplify_eq.
  apply claimable_spec in Hc as (Hk & Hsrc & Hf). split; [|done]. split; [done..|].
  apply elem_of_concat in Hin as (l & (k & -> & Hk')%list_elem_of_fmap & Hl). exists k. split; [done|].
  apply elem_of_scan_key, (ko_scan _ _ _ (so_keys _ Hs)) in Hl as [Hl _]. done.
Qed.
Lemma pick_none st s id row : sound st -> pick st s = None -> matches st s id row -> ~ free_or_own st s id row.
Proof.
  intros Hs Hp [Hrow Hk Hsrc (k & Hk' & Hc)] Hf.
  assert ((received row, id) ∈ concat (scan_key st <$> sub_correlation s)) as Hin.
  { apply elem_of_concat. exists (scan_key st k). split; [apply list_elem_of_fmap; eauto|].
    apply elem_of_scan_key, (ko_scan _ _ _ (so_keys _ Hs)). by rewrite Hrow. }
  eapply head_omap_None in Hin; [|exact Hp]. simpl in Hin. rewrite Hrow in Hin. simpl in Hin.
  destruct (claimable st s id row) eqn:Hcl; [done|].
  assert (claimable st s id row = true) as Ht by (by apply claimable_spec). congruence.
Qed.

Definition may_wait (sealed : RunId -> bool) (st : Mailbox) (kind source : str) (keys : list CorrelationKey) (w : Wait)
    (r : SubRow) : Prop :=
  sealed w.1 = false /\ parked st !! w = None /\ s_kind r = kind /\ accepts (s_from r) source = true /\
  exists k, k ∈ keys /\ subs st !! (w, k) = Some r.
Lemma oldest_some sealed st kind source keys w r : sound st ->
  oldest_waiter sealed st kind source keys = Some (w, r) -> may_wait sealed st kind source keys w r.
Proof.
  intros Hs Hp. apply head_omap_Some in Hp as ([k w'] & Hin & Hx). simpl in Hx.
  destruct (sealed w'.1) eqn:Hse; [done|]. simpl in Hx. case_bool_decide as Hpk; [done|].
  destruct (subs st !! (w', k)) as [r'|] eqn:Hr; [|done]. simpl in Hx. destruct (accepts _ _) eqn:Hacc; simplify_eq.
  apply elem_of_concat in Hin as (l & (k' & -> & Hk')%list_elem_of_fmap & Hl).
  apply list_elem_of_fmap in Hl as ([t w'] & [= -> ->] & Hl). apply elem_of_scan_waits in Hl.
  apply (proj1 (so_waits _ Hs)) in Hl as ([w'' k''] & r' & Hr' & Hx). unfold waits_of in Hx. simplify_eq/=.
  split_and!; [done|by apply eq_None_not_Some|congruence|done|]. exists k'. split; [done|congruence].
Qed.
Lemma oldest_none sealed st kind source keys w r : sound st ->
  oldest_waiter sealed st kind source keys = None -> ~ may_wait sealed st kind source keys w r.
Proof.
  intros Hs Hp (Hse & Hpk & Hk & Hacc & k & Hkk & Hr).
  assert ((k, w) ∈ concat ((fun k => (fun x => (k, x.2)) <$> scan_waits st kind k) <$> keys)) as Hin.
  { apply elem_of_concat. eexists. split; [apply list_elem_of_fmap; by exists k|].
    apply list_elem_of_fmap. exists (created r, w). split; [done|]. apply elem_of_scan_waits.
    apply (proj1 (so_waits _ Hs)). exists (w, k), r. unfold waits_of. simpl. by rewrite Hk. }
  eapply head_omap_None in Hin; [|exact Hp]. simpl in Hin. rewrite Hse, Hpk, Hr in Hin. simpl in Hin. by rewrite Hacc in Hin.
Qed.

Section mailbox.
Context {J : Type} `{EventJson J}.
Abbreviation Event := (InboundEvent (J:=J)).

(** ** Sequences of operations *)

Inductive Op :=
| Buffer (e : Event) (at_ : Z)
| Subscribe (s : Subscription) (at_ : Z)
| ClaimFor (s : Subscription) (at_ : Z)
| MatchWaiter (sealed : RunId -> bool) (e : Event) (at_ : Z)
| DeliverTo (run : RunId) (e : Event) (at_ : Z)
| Unsubscribe (w : Wait)
| UnsubscribeRun (run : RunId) (unanswered : list EffectKey)
| ParkWait (s : Subscription) (at_ : Z)
| ParkedWaits (sealed : RunId -> bool) (limit : nat)
| ErasePayload (source id : str)
| SweepUnclaimed (older_than : Z) (why : str).
(** The state an operation leaves, and the message it hands to a run. *)
Definition after (st : Mailbox) (o : Op) : Mailbox :=
  match o with
  | Buffer e at_ => (buffer st e at_).1
  | Subscribe s at_ => subscribe st s at_
  | ClaimFor s at_ => (claim_for st s at_).1
  | MatchWaiter sealed e at_ => (match_waiter sealed st e at_).1
  | DeliverTo run e at_ => (deliver_to st run e at_).1
  | Unsubscribe w => unsubscribe st w
  | UnsubscribeRun run un => (unsubscribe_run st run un).1
  | ParkWait s at_ => park_wait st s at_
  | ParkedWaits sealed limit => (parked_waits sealed st limit).1
  | ErasePayload source id => (erase_payload st source id).1
  | SweepUnclaimed older why => (sweep_unclaimed st older why).1
  end.
Definition handed (st : Mailbox) (o : Op) : option (Wait * str) :=
  match o with
  | ClaimFor s at_ => match (claim_for st s at_).2 with Ok (Some (e, _)) => Some (wait_of s, dedup_key e) | _ => None end
  | MatchWaiter sealed e at_ => (fun s => (wait_of s, dedup_key e)) <$> (match_waiter sealed st e at_).2
  | DeliverTo run e at_ => match (deliver_to st run e at_).2 with Ok (Matched s) => Some (wait_of s, dedup_key e) | _ => None end
  | _ => None
  end.
Definition run_ops (st : Mailbox) (os : list Op) : Mailbox := foldl after st os.
Lemma run_ops_app st os os' : run_ops st (os ++ os') = run_ops (run_ops st os) os'.
Proof. apply foldl_app. Qed.

(** The three ways a message changes hands. *)
Lemma stored_event_id st id row e : stored_event (J:=J) st id row = Ok e -> dedup_key e = Journal.origin_key (e_source row) (e_id row).
Proof.
  unfold stored_event. intros Hs. apply result_bind_ok in Hs as (p & _ & Hs).
  apply result_bind_ok in Hs as (by_ & _ & [= <-]). done.
Qed.
Lemma claim_for_cases st s at_ : sound st ->
  (claim_for (J:=J) st s at_).1 = st /\ handed st (ClaimFor s at_) = None \/
  exists id row, pick st s = Some (id, row) /\ matches st s id row /\ free_or_own st s id row /\
    (claim_for (J:=J) st s at_).1 = claim_event st id row (wait_of s) at_ /\ handed st (ClaimFor s at_) = Some (wait_of s, id).
Proof.
  intros Hs. unfold handed, claim_for. destruct (pick st s) as [[id row]|] eqn:Hp; [|by left].
  destruct (stored_event st id row) as [e|e] eqn:He; [|by left]. right. exists id, row.
  destruct (pick_some st s id row Hs Hp) as [Hm Hf]. split_and!; [done..|]. simpl.
  rewrite (stored_event_id _ _ _ _ He). by rewrite (ro_id _ _ _ _ (so_rows _ Hs) id row (ma_row _ _ _ _ Hm)).
Qed.
Lemma match_cases sealed st (e : Event) at_ : sound st ->
  (match_waiter sealed st e at_).1 = st /\ handed st (MatchWaiter sealed e at_) = None \/
  exists w r row, may_wait sealed st (ev_kind e) (ev_source e) (ev_correlation e) w r /\
    events st !! dedup_key e = Some row /\ claim row = None /\ dead_as row = None /\ dedup_key e ∉ erased st /\
    (match_waiter sealed st e at_).1 = claim_event st (dedup_key e) row w at_ /\
    handed st (MatchWaiter sealed e at_) = Some (w, dedup_key e).
Proof.
  intros Hs. unfold handed, match_waiter.
  destruct (oldest_waiter _ _ _ _ _) as [[w r]|] eqn:Hw; [|by left].
  destruct (events st !! dedup_key e) as [row|] eqn:Hrow; [|by left].
  destruct (bool_decide (claim row = None) && bool_decide (dead_as row = None)) eqn:Hb; [|by left].
  apply andb_true_iff in Hb as [Hc%bool_decide_eq_true Hd%bool_decide_eq_true]. right. exists w, r, row.
  split_and!; [by apply oldest_some|done..| |done|by destruct w].
  intros Hi. destruct (so_erased _ Hs _ Hi) as [(row' & Hrow' & Ho) _]. rewrite Hrow in Hrow'. simplify_eq. by destruct Ho.
Qed.

(** A message put in the tables for the first time. *)
Lemma new_sound st (e : Event) payload at_ c cl' pk ta : sound st -> events st !! dedup_key e = None ->
  (forall r i f, cl' !! (r, i) = Some f -> claimed st !! (r, i) = Some f \/ i = dedup_key e /\ exists a, c = Some (r, a)) ->
  sound (mk_mailbox (<[dedup_key e := new_row e payload at_ c]> (events st))
    (list_to_set ((dedup_key e,.) <$> ev_correlation e) ∪ corr st)
    (list_to_set ((fun k => (k, at_, dedup_key e)) <$> ev_correlation e) ∪ by_key st)
    (match c with None => {[(at_, dedup_key e)]} ∪ live st | Some _ => live st end) (dead st) cl' ta (erased st)
    (subs st) (subs_by_key st) (by_time st) pk).
Proof.
  intros [Hr Hk He Hw] Hn Hcl. split; simpl; [| | |done].
  - eapply rows_new; [done..| |done]. intros x. unfold live_of. simpl. destruct c; set_solver.
  - by apply (keys_new _ _ _ _ (new_row e payload at_ c)).
  - intros i Hi. destruct (He i Hi) as [(row & Hrow & Ho) Hnone].
    assert (dedup_key e <> i) by congruence. split; [exists row; by rewrite lookup_insert_ne|].
    intros r. destruct (cl' !! (r, i)) as [f|] eqn:Hf; [|done]. apply Hcl in Hf as [Hf|[-> _]]; [|done]. by rewrite Hnone in Hf.
Qed.
Lemma buffer_cases st (e : Event) at_ : (buffer st e at_).1 = st \/
  events st !! dedup_key e = None /\ exists payload, (buffer st e at_).1 =
    mk_mailbox (<[dedup_key e := new_row e payload at_ None]> (events st))
    (list_to_set ((dedup_key e,.) <$> ev_correlation e) ∪ corr st)
    (list_to_set ((fun k => (k, at_, dedup_key e)) <$> ev_correlation e) ∪ by_key st)
    ({[(at_, dedup_key e)]} ∪ live st) (dead st) (claimed st) (targeted st) (erased st)
    (subs st) (subs_by_key st) (by_time st) (parked st).
Proof.
  unfold buffer. destruct (payload_text _) as [p|]; [|by left]. simpl.
  destruct (events st !! dedup_key e) eqn:He; [by left|]. right. split; [done|]. by exists p.
Qed.
Lemma deliver_cases st run (e : Event) at_ :
  (deliver_to st run e at_).1 = st /\ handed st (DeliverTo run e at_) = None \/
  (exists f r row, addressee st run e = Some (f, r) /\ (deliver_to st run e at_).1 = st /\ events st !! dedup_key e = Some row /\
    claimed_for st run (dedup_key e) row = Some f /\ handed st (DeliverTo run e at_) = Some ((run, f), dedup_key e)) \/
  exists f r payload, addressee st run e = Some (f, r) /\ events st !! dedup_key e = None /\ parked st !! (run, f) = None /\
    handed st (DeliverTo run e at_) = Some ((run, f), dedup_key e) /\
    (deliver_to st run e at_).1 = mk_mailbox (<[dedup_key e := new_row e payload at_ (Some (run, at_))]> (events st))
    (list_to_set ((dedup_key e,.) <$> ev_correlation e) ∪ corr st)
    (list_to_set ((fun k => (k, at_, dedup_key e)) <$> ev_correlation e) ∪ by_key st)
    (live st) (dead st) (<[(run, dedup_key e) := f]> (claimed st)) ({[dedup_key e]} ∪ targeted st) (erased st)
    (subs st) (subs_by_key st) (by_time st) (<[(run, f) := at_]> (parked st)).
Proof.
  unfold handed, deliver_to. destruct (payload_text _) as [p|]; [|by left]. simpl.
  destruct (addressee st run e) as [[f r]|] eqn:Ha; [|by left; destruct (events st !! _)]. pose proof Ha as Ha'.
  apply head_omap_Some in Ha as ([f' k] & _ & Hx). simpl in Hx. destruct (subs st !! _); [|done]. simpl in Hx.
  destruct (events st !! dedup_key e) as [row|] eqn:He; simpl; right.
  - left. exists f, r, row. case_bool_decide; [|done]. case_match; simplify_eq. done.
  - right. exists f, r, p. case_bool_decide; [|done]. case_match; simplify_eq. done.
Qed.

Lemma release_one_cases st run id st' es : release_one (J:=J) run st id = Ok (st', es) ->
  let st1 := with_claimed st (base.delete (run, id) (claimed st)) in
  st' = st1 /\ (events st !! id = None \/ exists row, events st !! id = Some row /\ dead_as row <> None) \/
  exists row, events st !! id = Some row /\ dead_as row = None /\ st' = hand_back st1 id row.
Proof.
  unfold release_one. simpl. destruct (events st !! id) as [row|]; [|intros [= <- <-]; auto].
  case_bool_decide as Hd; [intros [= <- <-]; left; split; [done|right; exists row; split; [done|by apply eq_None_not_Some || (intros E; rewrite E in Hd; by destruct Hd)]]|].
  apply eq_None_not_Some in Hd. case_bool_decide; [intros [= <- <-]; right; by exists row|].
  intros Hr. apply result_bind_ok in Hr as (ev & _ & [= <- <-]). right. by exists row.
Qed.
Lemma hand_back_claimed st id row : claimed (hand_back st id row) = claimed st.
Proof. unfold hand_back. by case_bool_decide. Qed.
Lemma release_one_claimed st run id st' es : release_one (J:=J) run st id = Ok (st', es) ->
  claimed st' = base.delete (run, id) (claimed st).
Proof.
  intros [[-> _]|(row & _ & _ & ->)]%release_one_cases; [done|]. by rewrite hand_back_claimed.
Qed.
Lemma release_one_sound st run id st' es : sound st -> is_Some (claimed st !! (run, id)) ->
  release_one (J:=J) run st id = Ok (st', es) -> sound st'.
Proof.
  intros Hs [e He] [[-> _]|(row & Hrow & Hd & ->)]%release_one_cases; [by apply unhold_sound|].
  destruct (held_by _ _ _ _ (so_rows _ Hs) _ _ Hrow _ _ He) as [a Ha].
  apply hand_back_sound; simpl; [by apply unhold_sound|done| |congruence|by eapply held_unerased].
  intros r. apply lookup_delete_None. destruct (decide (run = r)) as [->|Hr]; [by left|right].
  destruct (claimed st !! (r, id)) as [e'|] eqn:He'; [|done]. by destruct Hr; eapply sole_holder.
Qed.
(** What each release keeps, the whole list keeps. *)
Lemma release_each_keeps (P : Mailbox -> Prop) run ids :
  (forall st id st' es, P st -> sound st -> is_Some (claimed st !! (run, id)) -> release_one (J:=J) run st id = Ok (st', es) -> P st') ->
  NoDup ids -> forall st st' es, sound st -> P st -> (forall id, id ∈ ids -> is_Some (claimed st !! (run, id))) ->
  release_each run st ids = Ok (st', es) -> sound st' /\ P st'.
Proof.
  intros HP Hnd. induction Hnd as [|id ids Hid _ IH]; intros st st' es Hs Hp Hin Hr; simpl in Hr; [by simplify_eq|].
  apply result_bind_ok in Hr as ([st1 e1] & H1 & Hr). apply result_bind_ok in Hr as ([st2 e2] & H2 & [= <- <-]).
  pose proof (Hin id ltac:(by left)) as Hid'.
  eapply IH; [..|exact H2]; [by eapply release_one_sound|by eapply HP|].
  intros i Hi. rewrite (release_one_claimed _ _ _ _ _ H1). assert (i <> id) by (by intros ->).
  rewrite lookup_delete_ne by congruence. apply Hin. by right.
Qed.

Lemma unsubscribe_run_cases st run un : sound st ->
  (unsubscribe_run (J:=J) st run un).1 = st \/
  let st1 := foldl (fun st e => drop_wait st (run, e)) st (run_waits st run) in
  sound st1 /\ exists st2 es, release_claimed (J:=J) st1 run un = Ok (st2, es) /\ sound st2 /\
    (unsubscribe_run (J:=J) st run un) = (shed_claimed st2 run None, Ok (length (run_waits st run), es)).
Proof.
  intros Hs. unfold unsubscribe_run. set (st1 := foldl _ _ _).
  assert (sound st1) as Hs1 by (apply foldl_keeps; [intros; by apply drop_sound|done]).
  destruct (release_claimed st1 run un) as [[st2 es]|e] eqn:Hr; [|by left]. right. split; [done|].
  exists st2, es. split_and!; [done| |done].
  eapply (release_each_keeps (fun _ => True)) in Hr; [tauto|done|apply held_nodup|done|done|].
  intros id (e & He & _)%elem_of_held. by rewrite He.
Qed.

Lemma step_sound st o : sound st -> sound (after st o).
Proof.
  intros Hs. destruct o as [e at_|s at_|s at_|sealed e at_|run e at_|w|run un|s at_|sealed limit|source id|older why]; simpl.
  - destruct (buffer_cases st e at_) as [->|(Hn & p & ->)]; [done|].
    apply (new_sound st e p at_ None); [done..|]. intros r i f Hf. by left.
  - by apply register_sound.
  - destruct (claim_for_cases st s at_ Hs) as [[-> _]|(id & row & _ & Hm & (Hd & Her & Hf) & -> & _)]; [done|].
    eapply claim_sound; [done|apply Hm|done| |done]. simpl. tauto.
  - destruct (match_cases sealed st e at_ Hs) as [[-> _]|(w & r & row & _ & Hrow & Hc & Hd & Her & -> & _)]; [done|].
    apply claim_sound; auto.
  - destruct (deliver_cases st run e at_) as [[-> _]|[(f & r & row & _ & -> & _)|(f & r & p & _ & Hn & _ & _ & ->)]]; [done..|].
    apply (new_sound st e p at_ (Some (run, at_))); [done..|]. intros r' i g.
    rewrite lookup_insert_Some. intros [[[= <- <-] <-]|[_ Hg]]; [right; eauto|by left].
  - by apply shed_sound, drop_sound.
  - destruct (unsubscribe_run_cases st run un Hs) as [->|(_ & st2 & es & _ & Hs2 & ->)]; [done|]. by apply shed_sound.
  - by apply parked_sound, register_sound.
  - apply foldl_keeps; [|done]. intros st' w Hs'. unfold retire_sealed.
    destruct (sealed w.1); [|done]. by apply shed_sound, drop_sound.
  - by apply erase_sound.
  - by apply sweep_sound.
Qed.
Lemma run_sound st os : sound st -> sound (run_ops st os).
Proof. apply foldl_keeps. apply step_sound. Qed.
Lemma history_sound os : sound (run_ops no_mail os).
Proof. apply run_sound, no_mail_sound. Qed.

(** ** An addressed message is nobody else's *)

(** A message sent to one run is never in the buffer. *)
Definition addressed (st : Mailbox) : Prop := forall id, id ∈ targeted st ->
  exists row, events st !! id = Some row /\ (claim row <> None \/ dead_as row <> None).
Lemma addressed_same st st' : events st' = events st -> targeted st' = targeted st -> addressed st -> addressed st'.
Proof. intros He Ht. unfold addressed. by rewrite He, Ht. Qed.
Lemma addressed_put st id row st' : events st' = <[id := row]> (events st) -> targeted st' = targeted st ->
  (id ∈ targeted st -> claim row <> None \/ dead_as row <> None) -> addressed st -> addressed st'.
Proof.
  intros He Ht Hr Ha i. rewrite Ht, He. intros Hi. destruct (decide (id = i)) as [->|Hne].
  - rewrite lookup_insert_eq. eauto.
  - rewrite lookup_insert_ne by done. by apply Ha.
Qed.
Lemma addressed_strip st id : addressed st -> addressed (strip_payload st id).
Proof.
  intros Ha. unfold strip_payload. destruct (events st !! id) as [row|] eqn:Hrow; [|done].
  apply (addressed_put st id (stripped row)); try done. intros (w & Hw & Ho)%Ha. rewrite Hrow in Hw. by simplify_eq.
Qed.
Lemma addressed_shed st run effect : addressed st -> addressed (shed_claimed st run effect).
Proof. apply foldl_keeps. intros st' id Ha. by apply (addressed_same (strip_payload st' id)), addressed_strip. Qed.
Lemma addressed_register st s at_ : addressed st -> addressed (register_wait st s at_).
Proof.
  apply foldl_keeps. intros st' k Ha. unfold register_key. destruct (subs st' !! _); [done|by apply (addressed_same st')].
Qed.
Lemma addressed_drop st w : addressed st -> addressed (drop_wait st w).
Proof.
  intros Ha. unfold drop_wait. eapply addressed_same; [done..|]. apply foldl_keeps; [|exact Ha].
  intros st' k Ha'. unfold drop_key. destruct (subs st' !! _); [by apply (addressed_same st')|done].
Qed.
Lemma addressed_dead st id at_ : addressed st -> addressed (dead_letter_as_erased st id at_).
Proof.
  intros Ha. unfold dead_letter_as_erased. destruct (events st !! id) as [row|]; [|done].
  apply (addressed_put st id (unclaimed row (Some ERASED_REASON))); try done. by right.
Qed.
Lemma addressed_release run st id st' es : addressed st -> release_one (J:=J) run st id = Ok (st', es) -> addressed st'.
Proof.
  intros Ha [[-> _]|(row & Hrow & _ & ->)]%release_one_cases; [by apply (addressed_same st)|].
  unfold hand_back. simpl. case_bool_decide as Ht.
  - apply (addressed_put st id (unclaimed row (Some ADDRESSEE_CONCLUDED_REASON))); try done. by right.
  - by apply (addressed_put st id (unclaimed row None)).
Qed.
Lemma addressed_erase st source id : addressed st -> addressed (erase_payload st source id).1.
Proof.
  intros Ha. unfold erase_payload. destruct (events st !! Journal.origin_key source id) as [row|]; [|done].
  set (key := Journal.origin_key source id). pose proof (addressed_strip st key Ha) as Hst. cbn zeta.
  set (st2 := with_marks (strip_payload st key) _ _).
  assert (addressed st2) as H2 by by apply (addressed_same (strip_payload st key)).
  destruct (holder_of st key row) as [run|]; cbn [fst].
  - set (st3 := with_claimed st2 _). assert (addressed st3) as H3 by by apply (addressed_same st2).
    eapply addressed_same; [done..|]. case_match; [by apply addressed_dead|done].
  - case_match; [by apply addressed_dead|done].
Qed.
Lemma addressed_retire st n why key : addressed st -> addressed (retire why (st, n) key).1.
Proof.
  intros Ha. unfold retire. destruct (events st !! key.2) as [row|]; [|done].
  apply (addressed_put st key.2 (unclaimed row (Some why))); try done. by right.
Qed.
Lemma step_addressed st o : sound st -> addressed st -> addressed (after st o).
Proof.
  intros Hs Ha. destruct o as [e at_|s at_|s at_|sealed e at_|run e at_|w|run un|s at_|sealed limit|source id|older why]; simpl.
  - destruct (buffer_cases st e at_) as [->|(Hn & p & ->)]; [done|].
    apply (addressed_put st (dedup_key e) (new_row e p at_ None)); try done. intros (w & Hw & _)%Ha. congruence.
  - by apply addressed_register.
  - destruct (claim_for_cases st s at_ Hs) as [[-> _]|(id & row & _ & _ & _ & -> & _)]; [done|].
    apply (addressed_put st id (claim_row row (wait_of s).1 at_)); try done. by left.
  - destruct (match_cases sealed st e at_ Hs) as [[-> _]|(w & r & row & _ & _ & _ & _ & _ & -> & _)]; [done|].
    apply (addressed_put st (dedup_key e) (claim_row row w.1 at_)); try done. by left.
  - destruct (deliver_cases st run e at_) as [[-> _]|[(f & r & row & _ & -> & _)|(f & r & p & _ & Hn & _ & _ & ->)]]; [done..|].
    intros i. simpl. intros [->%elem_of_singleton|Hi]%elem_of_union.
    + rewrite lookup_insert_eq. eexists. split; [done|by left].
    + destruct (Ha i Hi) as (w & Hw & Ho). exists w. by rewrite lookup_insert_ne by congruence.
  - by apply addressed_shed, addressed_drop.
  - unfold unsubscribe_run. set (st1 := foldl _ _ _).
    assert (sound st1 /\ addressed st1) as [Hs1 Ha1].
    { apply (foldl_keeps (fun st => sound st /\ addressed st)); [|done]. intros st' e []. split; [by apply drop_sound|by apply addressed_drop]. }
    destruct (release_claimed st1 run un) as [[st2 es]|] eqn:Hr; [|done]. apply addressed_shed.
    eapply (release_each_keeps addressed) in Hr; [by apply Hr| |apply held_nodup|done|done|].
    + intros st' id st'' es' Ha' _ _. by apply addressed_release.
    + intros id (e & He & _)%elem_of_held. by rewrite He.
  - by apply (addressed_same (register_wait st s at_)), addressed_register.
  - apply foldl_keeps; [|done]. intros st' w Ha'. unfold retire_sealed.
    destruct (sealed w.1); [by apply addressed_shed, addressed_drop|done].
  - by apply addressed_erase.
  - apply (sweep_keeps addressed); [done..|]. intros st' n key _ Ha' _. by apply addressed_retire.
Qed.

(** The waits listed are the rows, each under its one key. *)
Definition listing (w : Wait) (k : CorrelationKey) (r : SubRow) : Subscription :=
  mk_sub w.1 (s_case r) w.2 (s_step r) (s_phase r) (s_kind r) [k] (s_from r).
Lemma waiting_exact st s : sound st ->
  (exists limit, s ∈ waiting st limit) <-> exists w k r, subs st !! (w, k) = Some r /\ s = listing w k r.
Proof.
  intros Hs. unfold waiting. set (l := omap _ _).
  assert (s ∈ l <-> exists w k r, subs st !! (w, k) = Some r /\ s = listing w k r) as Hl.
  { unfold l. rewrite list_elem_of_omap. setoid_rewrite elem_of_iter_by. split.
    - intros ([[t w] k] & _ & Hx). simpl in Hx. destruct (subs st !! (w, k)) as [r|] eqn:Hr; [|done]. simplify_eq/=. by exists w, k, r.
    - intros (w & k & r & Hr & ->). exists (created r, w, k). simpl. rewrite Hr. split; [|done].
      apply (proj2 (so_waits _ Hs)). by exists (w, k), r. }
  rewrite <-Hl. split; [intros [limit Hin]; apply elem_of_take in Hin as (i & Hi & _); by eapply list_elem_of_lookup_2|]. intros Hin. exists (length l). by rewrite take_ge.
Qed.

(** ** A message out of play *)

(** Claimed, and its claim shed: its run journaled it. *)
Definition consumed (st : Mailbox) (id : str) : Prop :=
  (exists row, events st !! id = Some row /\ claim row <> None) /\ forall r, claimed st !! (r, id) = None.
(** Consumed, or retired. *)
Definition spent (st : Mailbox) (id : str) : Prop := out_of_play (events st) (claimed st) id.
Lemma consumed_spent st id : consumed st id -> spent st id.
Proof. intros [(row & Hrow & Hc) Hn]. split; eauto. Qed.

Lemma dead_spent st t id : sound st -> (t, id) ∈ dead st -> spent st id.
Proof.
  intros Hs Hd. apply (ro_dead _ _ _ _ (so_rows _ Hs)) in Hd as (i & row & Hrow & Hd). unfold dead_of in Hd.
  destruct (dead_as row) eqn:Hda; simplify_eq. split; [exists row; split; [done|right; congruence]|]. intros r.
  destruct (claimed st !! (r, id)) as [e|] eqn:He; [|done].
  destruct (held_by _ _ _ _ (so_rows _ Hs) _ _ Hrow _ _ He) as [a Ha].
  assert (claim row = None); [|congruence]. apply (ro_free _ _ _ _ (so_rows _ Hs) id row Hrow). congruence.
Qed.
Lemma spent_same st st' i : spent st i -> events st' !! i = events st !! i ->
  (forall r, claimed st' !! (r, i) = claimed st !! (r, i)) -> spent st' i.
Proof. intros [(row & Hrow & Hc) Hn] He Hcl. split; [exists row; by rewrite He|]. intros r. by rewrite Hcl. Qed.

Lemma strip_spent st id i : spent st i -> spent (strip_payload st id) i.
Proof.
  intros Hc. unfold strip_payload. destruct (events st !! id) as [row|] eqn:Hrow; [|done].
  destruct Hc as [(w & Hw & Hcw) Hn]. destruct (decide (id = i)) as [->|Hi].
  - split; [|done]. exists (stripped row). simpl. rewrite lookup_insert_eq. split; [done|]. simplify_eq. by destruct Hcw; [left|right].
  - split; [|done]. exists w. simpl. by rewrite lookup_insert_ne.
Qed.
Lemma unhold_spent st k i : spent st i -> spent (with_claimed st (base.delete k (claimed st))) i.
Proof. intros [Hr Hn]. split; [done|]. intros r. apply lookup_delete_None. auto. Qed.
Lemma shed_spent st run effect i : spent st i -> spent (shed_claimed st run effect) i.
Proof. apply (foldl_keeps (fun st => spent st i)). intros st' id Hc. by apply unhold_spent, strip_spent. Qed.
Lemma register_spent st s at_ i : spent st i -> spent (register_wait st s at_) i.
Proof. apply (foldl_keeps (fun st => spent st i)). intros st' k Hc. unfold register_key. by destruct (subs st' !! _). Qed.
Lemma drop_spent st w i : spent st i -> spent (drop_wait st w) i.
Proof.
  intros Hc. unfold drop_wait. cut (spent (foldl (drop_key w) st (wait_keys st w)) i); [done|].
  apply (foldl_keeps (fun st => spent st i)); [|done]. intros st' k Hc'. unfold drop_key. by destruct (subs st' !! _).
Qed.
Lemma put_other st id row li de i : spent st i -> id <> i -> spent (with_rows st (<[id := row]> (events st)) li de) i.
Proof. intros Hc Hi. apply (spent_same st); [done| |done]. simpl. by rewrite lookup_insert_ne. Qed.
Lemma claim_spent st id row w at_ i : spent st i -> id <> i -> spent (claim_event st id row w at_) i.
Proof.
  intros Hc Hi. apply (spent_same st); [done|simpl; by rewrite lookup_insert_ne|]. intros r. simpl.
  rewrite lookup_insert_ne; congruence.
Qed.
Lemma release_spent st run id st' es i : sound st -> spent st i -> is_Some (claimed st !! (run, id)) ->
  release_one (J:=J) run st id = Ok (st', es) -> spent st' i.
Proof.
  intros Hs Hc Hh Hr. assert (id <> i) as Hi by (intros ->; destruct Hc as [_ Hn]; rewrite Hn in Hh; by destruct Hh).
  apply (unhold_spent _ (run, id)) in Hc. destruct (release_one_cases _ _ _ _ _ Hr) as [[-> _]|(row & _ & _ & ->)]; [done|].
  unfold hand_back. case_bool_decide; by apply put_other.
Qed.
Lemma retire_spent why st n key i : sound st -> key ∈ live st -> spent st i -> spent (retire why (st, n) key).1 i.
Proof.
  destruct key as [t id]. intros Hs Hl Hc. unfold retire. simpl. destruct (events st !! id) as [row|] eqn:Hrow; [|done].
  apply put_other; [done|]. intros ->. destruct (live_unheld _ _ _ Hs Hl) as (w & Hw & _ & Hcl & Hdl & _).
  destruct Hc as [(w' & Hw' & Hc') _]. rewrite Hw in Hw'. simplify_eq. by destruct Hc'.
Qed.
Lemma erase_spent st source id i : sound st -> spent st i -> spent (erase_payload st source id).1 i.
Proof.
  intros Hs Hc. unfold erase_payload. set (key := Journal.origin_key source id).
  destruct (events st !! key) as [row|] eqn:Hrow; [|done]. cbn zeta.
  pose proof (strip_spent st key i Hc) as Hst. unfold strip_payload in *. rewrite Hrow in *.
  assert (key = i -> holder_of st key row = None /\
    bool_decide (claim row = None) && bool_decide (dead_as row = None) = false) as Heq.
  { intros <-. destruct Hc as [(w & Hw & Hcw) Hn]. rewrite Hrow in Hw. simplify_eq. unfold holder_of. split.
    - destruct (claim w) as [[r a]|]; [|done]. by rewrite Hn.
    - apply andb_false_iff. rewrite !bool_decide_eq_false. tauto. }
  destruct (decide (key = i)) as [Hk|Hk].
  - destruct (Heq Hk) as [-> ->]. rewrite (bool_decide_false (is_Some (@None RunId))) by (by intros []). exact Hst.
  - destruct (holder_of st key row) as [run|].
    + rewrite (bool_decide_true (is_Some (Some run))), orb_true_r by eauto. apply (unhold_spent _ (run, key)) in Hst.
      unfold dead_letter_as_erased. simpl. rewrite lookup_insert_eq.
      eapply spent_same; [exact Hst|simpl; by rewrite lookup_insert_ne|done].
    + case_match; [|exact Hst]. unfold dead_letter_as_erased. simpl. rewrite lookup_insert_eq.
      eapply spent_same; [exact Hst|simpl; by rewrite lookup_insert_ne|done].
Qed.

Lemma new_spent st st' i id row : spent st i -> events st !! id = None -> events st' = <[id := row]> (events st) ->
  (forall r, claimed st' !! (r, i) = claimed st !! (r, i) \/ i = id) -> spent st' i.
Proof.
  intros Hc Hn He Hcl. pose proof Hc as [(w & Hw & _) _]. assert (id <> i) as Hi by congruence.
  apply (spent_same st); [done|by rewrite He, lookup_insert_ne|]. intros r. destruct (Hcl r); congruence.
Qed.
Lemma step_spent st o i : sound st -> spent st i -> spent (after st o) i /\ forall w, handed st o <> Some (w, i).
Proof.
  intros Hs Hc. pose proof Hc as [(w0 & Hw0 & Hc0) Hn0].
  destruct o as [e at_|s at_|s at_|sealed e at_|run e at_|w|run un|s at_|sealed limit|source id|older why]; simpl after.
  - split; [|done]. destruct (buffer_cases st e at_) as [->|(Hn & p & ->)]; [done|].
    eapply (new_spent st); [done..|]. intros r. by left.
  - split; [|done]. by apply register_spent.
  - destruct (claim_for_cases st s at_ Hs) as [[-> ->]|(id & row & _ & Hm & (Hd & Her & Hf) & -> & ->)]; [done|].
    assert (id <> i) as Hi.
    { intros ->. pose proof (ma_row _ _ _ _ Hm). simplify_eq. destruct Hf as [[Hf _]|[_ Hf]]; [by destruct Hc0|by rewrite Hn0 in Hf]. }
    split; [by apply claim_spent|congruence].
  - destruct (match_cases sealed st e at_ Hs) as [[-> ->]|(w & r & row & _ & Hrow & Hcl & Hd & Her & -> & ->)]; [done|].
    assert (dedup_key e <> i) as Hi by (intros E; rewrite E in Hrow; simplify_eq; by destruct Hc0).
    split; [by apply claim_spent|congruence].
  - destruct (deliver_cases st run e at_) as [[-> ->]|[(f & r & row & _ & -> & Hrow & Hf & ->)|(f & r & p & _ & Hn & _ & -> & ->)]].
    + done.
    + split; [done|]. intros w [= _ Hi]. unfold claimed_for in Hf. case_bool_decide; [|done]. rewrite Hi, Hn0 in Hf. done.
    + assert (dedup_key e <> i) as Hi by (intros E; rewrite E in Hn; congruence). split; [|congruence].
      eapply (new_spent st); [done..|]. intros r'. left. simpl. rewrite lookup_insert_ne; congruence.
  - split; [|done]. by apply shed_spent, drop_spent.
  - split; [|done].
    unfold unsubscribe_run. set (st1 := foldl _ _ _).
    assert (sound st1) as Hs1 by (apply foldl_keeps; [intros; by apply drop_sound|done]).
    assert (spent st1 i) as Hc1.
    { apply (foldl_keeps (fun st => spent st i)); [intros; by apply drop_spent|done]. }
    destruct (release_claimed st1 run un) as [[st2 es]|e] eqn:Hr; [|done]. apply shed_spent.
    eapply (release_each_keeps (fun st => spent st i)) in Hr; [by apply Hr| |apply held_nodup|done|done|].
    + intros st' id st'' es' Hc' Hs' Hh Hr'. by eapply release_spent.
    + intros id (e & He & _)%elem_of_held. by rewrite He.
  - split; [|done]. by apply (register_spent _ s at_ i).
  - split; [|done]. simpl.
    apply (foldl_keeps (fun st => spent st i)); [|done]. intros st' w Hc'. unfold retire_sealed.
    destruct (sealed w.1); [|done]. by apply shed_spent, drop_spent.
  - split; [|done]. by apply erase_spent.
  - split; [|done]. apply (sweep_keeps (fun st => spent st i)); [done..|].
    intros st' n key Hs' Hc' Hk. by apply retire_spent.
Qed.

(** ** One message per wait *)

(** A held message's wait is parked, and it holds that one alone. *)
Record single (st : Mailbox) : Prop := {
  si_parked r i e : claimed st !! (r, i) = Some e -> is_Some (parked st !! (r, e));
  si_one r i j e : claimed st !! (r, i) = Some e -> claimed st !! (r, j) = Some e -> i = j;
}.
Lemma strip_rest st id : claimed (strip_payload st id) = claimed st /\ parked (strip_payload st id) = parked st.
Proof. unfold strip_payload. by destruct (events st !! id). Qed.
Lemma shed_parked st run effect : parked (shed_claimed st run effect) = parked st.
Proof.
  apply (foldl_keeps (fun st' => parked st' = parked st)); [|done]. intros st' id <-. simpl. apply strip_rest.
Qed.
Lemma shed_lookup st run effect r i e : claimed (shed_claimed st run effect) !! (r, i) = Some e ->
  claimed st !! (r, i) = Some e /\ (r = run -> match effect with Some e' => e <> e' | None => False end).
Proof.
  unfold shed_claimed. set (P := fun e => match effect with Some e' => bool_decide (e = e') | None => true end).
  assert (forall l st', claimed (foldl (shed_one run) st' l) !! (r, i) = Some e ->
    claimed st' !! (r, i) = Some e /\ (r = run -> i ∉ l)) as Hl.
  { induction l as [|id l IH]; intros st'; simpl; [split; [done|set_solver]|].
    intros [Hc Hi]%IH. simpl in Hc. apply lookup_delete_Some in Hc as [Hne Hc].
    rewrite (proj1 (strip_rest st' id)) in Hc. split; [done|]. intros ->. set_solver. }
  intros [Hc Hi]%Hl. split; [done|]. intros ->. specialize (Hi eq_refl).
  assert (P e = false) as HP.
  { apply not_true_iff_false. intros HP. apply Hi, elem_of_held. eauto. }
  unfold P in HP. destruct effect; [by apply bool_decide_eq_false in HP|done].
Qed.
Lemma drop_rest st w : claimed (drop_wait st w) = claimed st /\ parked (drop_wait st w) = base.delete w (parked st).
Proof.
  unfold drop_wait.
  assert (claimed (foldl (drop_key w) st (wait_keys st w)) = claimed st /\ parked (foldl (drop_key w) st (wait_keys st w)) = parked st)
    as [Hc Hp]; [|simpl; by rewrite Hc, Hp].
  apply (foldl_keeps (fun st' => claimed st' = claimed st /\ parked st' = parked st)); [|done].
  intros st' k [<- <-]. unfold drop_key. by destruct (subs st' !! _).
Qed.
Lemma register_rest st s at_ : claimed (register_wait st s at_) = claimed st /\ parked (register_wait st s at_) = parked st
  /\ events (register_wait st s at_) = events st.
Proof.
  apply (foldl_keeps (fun st' => claimed st' = claimed st /\ parked st' = parked st /\ events st' = events st)); [|done].
  intros st' k (<- & <- & <-). unfold register_key. by destruct (subs st' !! _).
Qed.

(** Fewer claims, and no less parked for those that stay. *)
Lemma single_less st st' : single st -> (forall r i e, claimed st' !! (r, i) = Some e ->
    claimed st !! (r, i) = Some e /\ (is_Some (parked st !! (r, e)) -> is_Some (parked st' !! (r, e)))) -> single st'.
Proof.
  intros [Hp Ho] Hle. split.
  - intros r i e [He Hpk]%Hle. by apply Hpk, (Hp r i).
  - intros r i j e [Hi _]%Hle [Hj _]%Hle. by apply (Ho r i j e).
Qed.
(** One more claim, for a wait that holds nothing or holds that. *)
Lemma single_more st st' r id e at_ : single st ->
  parked st !! (r, e) = None \/ claimed st !! (r, id) = Some e ->
  claimed st' = <[(r, id) := e]> (claimed st) -> parked st' = <[(r, e) := at_]> (parked st) -> single st'.
Proof.
  intros [Hp Ho] Hor Hc Hk.
  assert (forall i, claimed st !! (r, i) = Some e -> i = id) as Hsole.
  { intros i Hi. destruct Hor as [Hn|Hid]; [|by apply (Ho r i id e)]. apply Hp in Hi. rewrite Hn in Hi. by destruct Hi. }
  split; rewrite Hc; setoid_rewrite lookup_insert_Some; intros.
  - rewrite Hk. destruct (decide ((r, e) = (r0, e0))) as [[= -> ->]|]; [rewrite lookup_insert_eq; by eexists|].
    rewrite lookup_insert_ne by done. naive_solver.
  - naive_solver.
Qed.

(** Operations that erase nothing a run holds. *)
Definition spares_held (st : Mailbox) (o : Op) : Prop :=
  match o with
  | ErasePayload source id => forall r, claimed st !! (r, Journal.origin_key source id) = None
  | _ => True
  end.
Lemma erase_rest st source id : sound st -> spares_held st (ErasePayload source id) ->
  claimed (erase_payload st source id).1 = claimed st /\ parked (erase_payload st source id).1 = parked st.
Proof.
  simpl. intros Hs Hn. unfold erase_payload. set (key := Journal.origin_key source id) in *.
  destruct (events st !! key) as [row|] eqn:Hrow; [|done]. cbn zeta.
  assert (holder_of st key row = None) as ->.
  { unfold holder_of. destruct (claim row) as [[r a]|]; [|done]. by rewrite Hn. }
  unfold strip_payload. rewrite Hrow. case_match; [|done]. unfold dead_letter_as_erased. by case_match.
Qed.
Lemma step_single st o : sound st -> single st -> spares_held st o -> single (after st o).
Proof.
  intros Hs Hsi Hsp.
  destruct o as [e at_|s at_|s at_|sealed e at_|run e at_|w|run un|s at_|sealed limit|source id|older why]; simpl after.
  - destruct (buffer_cases st e at_) as [->|(Hn & p & ->)]; [done|]. by apply (single_less st).
  - apply (single_less st); [done|]. unfold subscribe. destruct (register_rest st s at_) as (-> & -> & _). done.
  - destruct (claim_for_cases st s at_ Hs) as [[-> _]|(id & row & _ & Hm & (Hd & Her & Hf) & -> & _)]; [done|].
    eapply (single_more st _ (sub_run s) id (sub_effect s)); [done| |done..].
    destruct Hf as [[_ Hf]|[_ Hf]]; [by left|by right].
  - destruct (match_cases sealed st e at_ Hs) as [[-> _]|([r' e'] & r & row & (_ & Hpk & _) & _ & _ & _ & _ & -> & _)]; [done|].
    eapply (single_more st _ r' _ e'); [done|by left|done..].
  - destruct (deliver_cases st run e at_) as [[-> _]|[(f & r & row & _ & -> & _)|(f & r & p & _ & Hn & Hpk & _ & ->)]]; [done..|].
    eapply (single_more st _ run _ f); [done|by left|done..].
  - destruct w as [r e]. apply (single_less st); [done|]. unfold unsubscribe. intros r' i e' [Hc Hne]%shed_lookup.
    rewrite shed_parked. cbn [fst snd] in *. destruct (drop_rest st (r, e)) as [Hdc Hdp]. rewrite Hdc in Hc. rewrite Hdp. split; [done|].
    rewrite lookup_delete_ne; [done|]. intros [= -> ->]. by apply Hne.
  - unfold unsubscribe_run. set (st1 := foldl _ _ _).
    assert (sound st1 /\ claimed st1 = claimed st /\ forall r e, r <> run -> parked st1 !! (r, e) = parked st !! (r, e))
      as (Hs1 & Hc1 & Hp1).
    { apply (foldl_keeps (fun st1 => sound st1 /\ claimed st1 = claimed st /\
        forall r e, r <> run -> parked st1 !! (r, e) = parked st !! (r, e))); [|done].
      intros st' e (Hs' & Hc & Hp). destruct (drop_rest st' (run, e)) as [-> ->].
      split_and!; [by apply drop_sound|done|]. intros r e' Hr. rewrite lookup_delete_ne by congruence. auto. }
    destruct (release_claimed st1 run un) as [[st2 es]|e] eqn:Hr; [|done]. simpl.
    eapply (release_each_keeps (fun st2 => parked st2 = parked st1 /\
      forall r i e, claimed st2 !! (r, i) = Some e -> claimed st !! (r, i) = Some e)) in Hr as [_ [Hp2 Hc2]];
      [|  |apply held_nodup|done|split; [done|by rewrite Hc1]|].
    + apply (single_less st); [done|]. intros r i e [Hc Hne]%shed_lookup. rewrite shed_parked, Hp2. split; [by apply Hc2|].
      rewrite Hp1; [done|]. intros ->. by apply Hne.
    + intros st' id st'' es' [<- Hc] _ _ Hr'. pose proof (release_one_claimed _ _ _ _ _ Hr') as Hc'. split.
      * destruct (release_one_cases _ _ _ _ _ Hr') as [[-> _]|(row & _ & _ & ->)]; [done|]. unfold hand_back. by case_bool_decide.
      * intros r i e. rewrite Hc'. intros [_ He]%lookup_delete_Some. by apply Hc.
    + intros id (e & He & _)%elem_of_held. by rewrite He.
  - apply (single_less st); [done|]. unfold park_wait. simpl. destruct (register_rest st s at_) as (-> & -> & _).
    intros r i e He. split; [done|]. intros Hpk.
    destruct (decide (wait_of s = (r, e))) as [->|]; [rewrite lookup_insert_eq; by eexists|by rewrite lookup_insert_ne].
  - simpl. apply (foldl_keeps single); [|done]. intros st' w Hsi'. unfold retire_sealed. destruct (sealed w.1); [|done].
    destruct w as [r e]. apply (single_less st'); [done|]. intros r' i e' [Hc Hne]%shed_lookup.
    rewrite shed_parked. cbn [fst snd] in *. destruct (drop_rest st' (r, e)) as [Hdc Hdp]. rewrite Hdc in Hc. rewrite Hdp. split; [done|].
    rewrite lookup_delete_ne; [done|]. intros [= -> ->]. by apply Hne.
  - apply (single_less st); [done|]. destruct (erase_rest st source id Hs Hsp) as [-> ->]. done.
  - apply (sweep_keeps single); [done..|]. intros st' n key _ Hsi' _. apply (single_less st'); [done|].
    unfold retire. destruct (events st' !! key.2); done.
Qed.

(** ** What holds after any operations *)

(** Where a message is: each is in one place. *)
Inductive Place := Buffered | Held (w : Wait) | Consumed (run : RunId) | DeadLetter (why : str).
Definition whereabouts (st : Mailbox) (id : str) (row : EventRow) : Place :=
  match claim row, dead_as row with
  | Some (r, _), _ => match claimed st !! (r, id) with Some e => Held (r, e) | None => Consumed r end
  | None, Some why => DeadLetter why
  | None, None => Buffered
  end.

(** C11. After any operations every message is in one place, and each index
    lists exactly the messages or waits of its kind: the buffer what nobody
    holds, the claims what a wait holds, the dead letters what was retired;
    a key's messages and waits are scanned oldest first; the waits by
    time are the waits there are, and are what the listing of waits shows; an
    erased message is out of play, and one addressed to a run is never in the
    buffer.  The parked marks index nothing: they are the mailbox's own. *)
Theorem mailbox_exact os : let st := run_ops no_mail os in
  (forall id row, events st !! id = Some row ->
    ((received row, id) ∈ live st <-> whereabouts st id row = Buffered) /\
    (forall r e, claimed st !! (r, id) = Some e <-> whereabouts st id row = Held (r, e)) /\
    (consumed st id <-> exists r, whereabouts st id row = Consumed r) /\
    ((received row, id) ∈ dead st <-> exists why, whereabouts st id row = DeadLetter why)) /\
  (forall t id, (t, id) ∈ live st \/ (t, id) ∈ dead st -> (received <$> events st !! id) = Some t) /\
  (forall r id e, claimed st !! (r, id) = Some e -> is_Some (events st !! id)) /\
  (forall k, StronglySorted (by_cmp time_id_cmp) (scan_key st k) /\
    forall t id, (t, id) ∈ scan_key st k <-> (id, k) ∈ corr st /\ (received <$> events st !! id) = Some t) /\
  (forall kind k, StronglySorted (by_cmp time_wait_cmp) (scan_waits st kind k) /\
    forall t w, (t, w) ∈ scan_waits st kind k <-> exists r, subs st !! (w, k) = Some r /\ s_kind r = kind /\ created r = t) /\
  (forall t w k, (t, w, k) ∈ by_time st <-> exists r, subs st !! (w, k) = Some r /\ created r = t) /\
  (forall s, (exists limit, s ∈ waiting st limit) <-> exists w k r, subs st !! (w, k) = Some r /\ s = listing w k r) /\
  (forall id, id ∈ erased st -> out_of_play (events st) (claimed st) id) /\
  (forall id, id ∈ targeted st -> exists row, events st !! id = Some row /\ whereabouts st id row <> Buffered).
Proof.
  intros st. pose proof (history_sound os : sound st) as Hs. split_and!.
  - intros id row Hrow. pose proof (held_by _ _ _ _ (so_rows _ Hs) _ _ Hrow) as Hh.
    pose proof (ro_free _ _ _ _ (so_rows _ Hs) id row Hrow) as Hfree.
    rewrite (live_mem _ _ _ _ (so_rows _ Hs) _ _ Hrow), (dead_mem _ _ _ _ (so_rows _ Hs) _ _ Hrow).
    unfold whereabouts, consumed. destruct (claim row) as [[r a]|] eqn:Hc.
    + assert (dead_as row = None) as Hd by (destruct (dead_as row); [by specialize (Hfree ltac:(done))|done]). rewrite Hd.
      assert (forall r' e, claimed st !! (r', id) = Some e -> r' = r) as Hr by (intros r' e He; destruct (Hh r' e He); congruence).
      assert (claimed st !! (r, id) = None -> forall r', claimed st !! (r', id) = None) as Hnone.
      { intros He r'. destruct (claimed st !! (r', id)) eqn:He'; [|done]. pose proof (Hr _ _ He'). congruence. }
      destruct (claimed st !! (r, id)) as [e|] eqn:He; refine (conj _ (conj _ (conj _ _))).
      * naive_solver.
      * intros r' e'. split; [intros He'; pose proof (Hr _ _ He'); subst; congruence|naive_solver].
      * split; [|naive_solver]. intros [_ Hn]. by rewrite Hn in He.
      * naive_solver.
      * naive_solver.
      * intros r' e'. split; [intros He'; pose proof (Hr _ _ He'); subst; congruence|naive_solver].
      * split; [by exists r|]. intros _. split; [exists row; split; [done|congruence]|by apply Hnone].
      * naive_solver.
    + assert (forall r, claimed st !! (r, id) = None) as Hn.
      { intros r. destruct (claimed st !! (r, id)) as [e|] eqn:He; [|done]. by destruct (Hh r e He). }
      assert (~ ((exists w, events st !! id = Some w /\ claim w <> None) /\ forall r, claimed st !! (r, id) = None)) as Hnc.
      { intros [(w & Hw & Hcw) _]. congruence. }
      destruct (dead_as row); refine (conj _ (conj _ (conj _ _))); try naive_solver; intros r e; by rewrite Hn.
  - intros t id [Hl|Hd].
    + destruct (live_unheld _ _ _ Hs Hl) as (row & -> & -> & _). done.
    + apply (ro_dead _ _ _ _ (so_rows _ Hs)) in Hd as (i & row & Hrow & Hd). unfold dead_of in Hd.
      destruct (dead_as row); simplify_eq. by rewrite Hrow.
  - intros r id e He. destruct (ro_held _ _ _ _ (so_rows _ Hs) _ _ _ He) as (row & a & -> & _). done.
  - intros k. split; [apply iter_by_sorted, _|]. intros t id. rewrite elem_of_scan_key. apply (so_keys _ Hs).
  - intros kind k. split; [apply iter_by_sorted, _|]. intros t w.
    rewrite elem_of_scan_waits. rewrite (proj1 (so_waits _ Hs) (kind, k, t, w)). split.
    + intros ([w' k'] & r & Hr & Hx). unfold waits_of in Hx. simplify_eq/=. eauto.
    + intros (r & Hr & <- & <-). exists (w, k), r. done.
  - intros t w k. rewrite (proj2 (so_waits _ Hs) (t, w, k)). split.
    + intros ([w' k'] & r & Hr & Hx). unfold time_of in Hx. simplify_eq/=. eauto.
    + intros (r & Hr & <-). by exists (w, k), r.
  - intros s. by apply waiting_exact.
  - apply Hs.
  - assert (sound st /\ addressed st) as [_ Ha].
    { apply (foldl_keeps (fun st => sound st /\ addressed st)); [|split; [apply no_mail_sound|done]].
      intros st' o []. split; [by apply step_sound|by apply step_addressed]. }
    intros id Hi. destruct (Ha id Hi) as (row & Hrow & Ho). exists row. split; [done|].
    unfold whereabouts. destruct (claim row) as [[]|], (dead_as row); repeat case_match; naive_solver.
Qed.

(** A message has one holder, and once it is consumed or retired it is
    never handed to anyone again, whatever is buffered, awaited, erased or
    swept afterwards. *)
Theorem consumed_once os os' o id w : let st := run_ops no_mail os in
  (forall r r' e e', claimed st !! (r, id) = Some e -> claimed st !! (r', id) = Some e' -> r = r') /\
  (consumed st id \/ (exists t, (t, id) ∈ dead st) -> handed (run_ops st os') o <> Some (w, id)).
Proof.
  intros st. pose proof (history_sound os : sound st) as Hs. split.
  - intros r r' e e'. by apply sole_holder.
  - intros Hor. assert (spent st id) as Hsp by (destruct Hor as [|[t Ht]]; [by apply consumed_spent|by eapply dead_spent]).
    assert (sound (run_ops st os') /\ spent (run_ops st os') id) as [Hs' Hc'].
    { apply (foldl_keeps (fun st => sound st /\ spent st id)); [|done].
      intros st' o' [Hs' Hc']. split; [by apply step_sound|by apply step_spent]. }
    by apply step_spent.
Qed.

(** Every erasure of the list finds its message unheld. *)
Fixpoint spares (st : Mailbox) (os : list Op) : Prop :=
  match os with [] => True | o :: os => spares_held st o /\ spares (after st o) os end.

(** As long as nothing held is erased, a wait holds at most one message it
    has not consumed, and is parked while it does; so the message it is handed
    is the one it holds. *)
Theorem one_message_per_wait os : spares no_mail os -> let st := run_ops no_mail os in
  (forall r i e, claimed st !! (r, i) = Some e -> is_Some (parked st !! (r, e))) /\
  (forall r i j e, claimed st !! (r, i) = Some e -> claimed st !! (r, j) = Some e -> i = j) /\
  (forall o r e i j, handed st o = Some ((r, e), i) -> claimed st !! (r, j) = Some e -> i = j).
Proof.
  intros Hsp st.
  assert (forall st0, sound st0 -> single st0 -> spares st0 os -> single (run_ops st0 os)) as Hgen.
  { clear. induction os as [|o os IH]; intros st0 Hs Hsi Hsp; simpl; [done|]. destruct Hsp as [Ho Hsp].
    apply IH; [by apply step_sound|by apply step_single|done]. }
  assert (single st) as Hsi by (apply Hgen; [apply no_mail_sound|split; done|done]).
  pose proof (history_sound os : sound st) as Hs. split_and!; [apply Hsi|apply Hsi|].
  intros o r e i j Ho Hj. pose proof (si_parked _ Hsi _ _ _ Hj) as [t Ht].
  destruct o as [| |s at_|sealed ev at_|run ev at_| | | | | |]; try done.
  - destruct (claim_for_cases st s at_ Hs) as [[_ Hn]|(id & row & _ & _ & (_ & _ & Hf) & _ & Hh)]; [congruence|].
    rewrite Hh in Ho. unfold wait_of in *. simplify_eq. destruct Hf as [[_ Hf]|[_ Hf]]; [congruence|].
    by apply (si_one _ Hsi (sub_run s) i j (sub_effect s)).
  - destruct (match_cases sealed st ev at_ Hs) as [[_ Hn]|(w & r0 & row & (_ & Hpk & _) & _ & _ & _ & _ & _ & Hh)]; congruence.
  - destruct (deliver_cases st run ev at_) as [[_ Hn]|[(f & r0 & row & _ & _ & Hrow & Hf & Hh)|(f & r0 & p & _ & Hn & Hpk & Hh & _)]];
      [congruence| |congruence].
    rewrite Hh in Ho. simplify_eq. unfold claimed_for in Hf. case_bool_decide; [|done].
    by apply (si_one _ Hsi r (dedup_key ev) j e).
Qed.
End mailbox.
