(* ===== verification/MailboxMeet.v ===== *)
(** * Where messages and waits meet ([src/src/store/redb_events.rs])

    A message is buffered and then offered to a waiter; a wait is registered
    and then looks in the buffer.  Each is two transactions, and whatever runs
    between them, a message and a wait that match are not both left behind. *)

From S2P Require Import Prelude Digest EffectKey Index Panel Text Chain Mailbox MailboxSafety.
From S2P Require Journal.

(** A buffered message and a registered wait that could take it. *)
Record apart (st : Mailbox) (id : str) (row : EventRow) (w : Wait) (k : CorrelationKey) (r : SubRow) : Prop := {
  ap_row : events st !! id = Some row;
  ap_live : claim row = None /\ dead_as row = None;
  ap_corr : (id, k) ∈ corr st;
  ap_sub : subs st !! (w, k) = Some r;
  ap_kind : s_kind r = e_kind row;
  ap_source : accepts (s_from r) (e_source row) = true;
  ap_unparked : parked st !! w = None;
}.

(** No pair that was not there, up to the row's claim and payload. *)
Definition same_letter (row row' : EventRow) : Prop := e_kind row = e_kind row' /\ e_source row = e_source row'.
Definition brings_none (st st' : Mailbox) : Prop :=
  forall id row' w k r, apart st' id row' w k r -> exists row, apart st id row w k r /\ same_letter row row'.
Lemma brings_refl st : brings_none st st.
Proof. intros id row w k r Ha. by exists row. Qed.
Lemma brings_trans st1 st2 st3 : brings_none st1 st2 -> brings_none st2 st3 -> brings_none st1 st3.
Proof.
  intros H1 H2 id row w k r Ha. destruct (H2 _ _ _ _ _ Ha) as (row2 & Ha2 & Hk & Hs).
  destruct (H1 _ _ _ _ _ Ha2) as (row1 & Ha1 & Hk' & Hs'). exists row1. split; [done|]. split; congruence.
Qed.

(** A row put back no more alive than it was. *)
Lemma brings_row st id row row' st' : events st !! id = Some row -> events st' = <[id := row']> (events st) ->
  (claim row' = None -> dead_as row' = None -> claim row = None /\ dead_as row = None /\ same_letter row row') ->
  corr st' = corr st -> subs st' = subs st -> (forall w, parked st' !! w = None -> parked st !! w = None) -> brings_none st st'.
Proof.
  intros Hrow He Hl Hc Hs Hp i rw w k r [Ha [Hc' Hd'] Hk Hsub Hkd Hsrc Hpk]. rewrite He in Ha. rewrite Hc in Hk. rewrite Hs in Hsub.
  apply lookup_insert_Some in Ha as [[<- <-]|[Hne Ha]].
  - destruct (Hl Hc' Hd') as (Hc0 & Hd0 & Hkk & Hss). exists row. split; [|done].
    split; auto; congruence.
  - exists rw. split; [|done]. split; auto.
Qed.
(** Nothing changed but what is parked, or who holds what. *)
Lemma brings_same st st' : events st' = events st -> corr st' = corr st -> subs st' = subs st ->
  (forall w, parked st' !! w = None -> parked st !! w = None) -> brings_none st st'.
Proof.
  intros He Hc Hs Hp i rw w k r [Ha Hl Hk Hsub Hkd Hsrc Hpk]. rewrite He in Ha. rewrite Hc in Hk. rewrite Hs in Hsub.
  exists rw. split; [|done]. split; auto.
Qed.

Lemma brings_foldl {A} (f : Mailbox -> A -> Mailbox) l st : (forall st a, brings_none st (f st a)) -> brings_none st (foldl f st l).
Proof.
  intros Hf. revert st. induction l as [|a l IH]; intros st; simpl; [apply brings_refl|].
  eapply brings_trans; [apply Hf|apply IH].
Qed.
Lemma brings_strip st id : brings_none st (strip_payload st id).
Proof.
  unfold strip_payload. destruct (events st !! id) as [row|] eqn:Hrow; [|apply brings_refl].
  eapply brings_row; done.
Qed.
Lemma brings_shed st run effect : brings_none st (shed_claimed st run effect).
Proof.
  apply brings_foldl. intros st' id. eapply brings_trans; [apply brings_strip|]. by apply brings_same.
Qed.
Lemma brings_retire st n why key : brings_none st (retire why (st, n) key).1.
Proof.
  unfold retire. destruct (events st !! key.2) as [row|] eqn:Hrow; [|apply brings_refl]. by eapply brings_row.
Qed.
Lemma brings_claim st id row w at_ : events st !! id = Some row -> brings_none st (claim_event st id row w at_).
Proof.
  intros Hrow. eapply brings_row; try done. simpl. intros w'. rewrite lookup_insert_None. tauto.
Qed.

(** A dropped wait leaves no row. *)
Lemma drop_subs st w x : subs (drop_wait st w) !! x = if decide (x.1 = w) then None else subs st !! x.
Proof.
  unfold drop_wait. simpl.
  assert (forall l st, subs (foldl (drop_key w) st l) !! x = if decide (x.1 = w /\ x.2 ∈ l) then None else subs st !! x) as Hl.
  { induction l as [|k l IH]; intros st'; simpl; [by rewrite decide_False by set_solver|]. rewrite IH.
    assert (subs (drop_key w st' k) !! x = if decide (x = (w, k)) then None else subs st' !! x) as ->.
    { clear IH. unfold drop_key. destruct (subs st' !! (w, k)) as [r|] eqn:Hr; simpl.
      - case_decide as Hd; [by rewrite Hd, lookup_delete_eq|rewrite lookup_delete_ne; [done|congruence]].
      - case_decide; [by subst|done]. }
    destruct x as [w' k']. simpl. repeat case_decide; set_solver. }
  rewrite Hl. clear Hl. destruct x as [w' k]. simpl. destruct (decide (w' = w)) as [->|Hw]; [|by rewrite decide_False by tauto].
  destruct (subs st !! (w, k)) as [r|] eqn:Hr; [|by case_decide].
  rewrite decide_True; [done|]. split; [done|]. apply elem_of_wait_keys. by rewrite Hr.
Qed.
Lemma drop_other st w : events (drop_wait st w) = events st /\ corr (drop_wait st w) = corr st.
Proof.
  unfold drop_wait. simpl.
  apply (foldl_keeps (fun st' => events st' = events st /\ corr st' = corr st)); [|done].
  intros st' k [<- <-]. unfold drop_key. by destruct (subs st' !! _).
Qed.
Lemma brings_drop st w : brings_none st (drop_wait st w).
Proof.
  intros i rw w' k r [Ha Hl Hk Hsub Hkd Hsrc Hpk]. destruct (drop_other st w) as [He Hc].
  rewrite He in Ha. rewrite Hc in Hk. rewrite drop_subs in Hsub. simpl in Hsub. case_decide; [done|].
  destruct (drop_rest st w) as [_ Hp]. rewrite Hp, lookup_delete_ne in Hpk by done. exists rw. split; [|done]. by split.
Qed.

(** ** Who owes a pair its meeting *)
Section meet.
Context {J : Type} `{EventJson J}.
Abbreviation Event := (InboundEvent (J:=J)).
Abbreviation Ops := (list (Op (J:=J))).

(** An offer of the pair's message, and a look in the buffer for its wait. *)
Definition letter (st : Mailbox) (id : str) (row : EventRow) (e : Event) : Prop :=
  dedup_key e = id /\ ev_kind e = e_kind row /\ ev_source e = e_source row /\
  forall k, (id, k) ∈ corr st -> k ∈ ev_correlation e.
Definition caller (w : Wait) (k : CorrelationKey) (r : SubRow) (s : Subscription) : Prop :=
  wait_of s = w /\ k ∈ sub_correlation s /\ sub_kind s = s_kind r /\ sub_from s = s_from r.
Definition offered (os : Ops) (e : Event) : Prop := exists sealed at_, MatchWaiter sealed e at_ ∈ os.
Definition looked (os : Ops) (s : Subscription) : Prop := exists at_, ClaimFor s at_ ∈ os.

Definition owed (st : Mailbox) (os : Ops) (id : str) (row : EventRow) (w : Wait) (k : CorrelationKey) (r : SubRow) : Prop :=
  (exists e, letter st id row e /\ offered os e) \/ (exists s, caller w k r s /\ looked os s).

(** Every message stored is offered later, every wait registered looks later,
    every message handed back is offered again; and nothing held is erased. *)
Definition follows (st : Mailbox) (o : Op) (os : Ops) : Prop :=
  match o with
  | Buffer e at_ => (buffer st e at_).2 = Ok true -> offered os e
  | Subscribe s _ => looked os s
  | UnsubscribeRun run un => forall n es, (unsubscribe_run st run un).2 = Ok (n, es) -> Forall (offered os) es
  | ErasePayload _ _ => spares_held st o
  | _ => True
  end.
Fixpoint followed (st : Mailbox) (os : Ops) : Prop :=
  match os with [] => True | o :: os => follows st o os /\ followed (after st o) os end.

(** What the operations of a history bring that was not there. *)
Definition brings (st st' : Mailbox) (P : str -> EventRow -> Wait -> CorrelationKey -> SubRow -> Prop) : Prop :=
  forall id row' w k r, apart st' id row' w k r ->
    (exists row, apart st id row w k r /\ same_letter row row') \/ P id row' w k r.

Lemma register_subs st s at_ x : subs (register_wait st s at_) !! x = subs st !! x \/
  subs st !! x = None /\ x.1 = wait_of s /\ x.2 ∈ sub_correlation s /\ subs (register_wait st s at_) !! x = Some (srow_of s at_).
Proof.
  unfold register_wait.
  assert (forall l st, subs (foldl (register_key s at_) st l) !! x = subs st !! x \/
    subs st !! x = None /\ x.1 = wait_of s /\ x.2 ∈ l /\ subs (foldl (register_key s at_) st l) !! x = Some (srow_of s at_)) as Hl; [|apply Hl].
  induction l as [|k l IH]; intros st'; simpl; [by left|].
  assert (subs (register_key s at_ st' k) !! x = subs st' !! x \/
    subs st' !! x = None /\ x = (wait_of s, k) /\ subs (register_key s at_ st' k) !! x = Some (srow_of s at_)) as Hk.
  { unfold register_key. destruct (subs st' !! (wait_of s, k)) eqn:Hs; [by left|]. simpl.
    destruct (decide (x = (wait_of s, k))) as [->|Hx]; [right; by rewrite lookup_insert_eq|left; by rewrite lookup_insert_ne]. }
  destruct (IH (register_key s at_ st' k)) as [->|(Hn & Hw & Hin & ->)].
  - destruct Hk as [->|(Hn & -> & ->)]; [by left|right]. simpl. split_and!; [done..|by left|done].
  - right. split_and!; [destruct Hk as [<-|(? & _ & _)]; done|done|by right|done].
Qed.
Lemma register_corr st s at_ : corr (register_wait st s at_) = corr st.
Proof.
  apply (foldl_keeps (fun st' => corr st' = corr st)); [|done]. intros st' k <-. unfold register_key. by destruct (subs st' !! _).
Qed.
Lemma brings_subscribe st s at_ : brings st (register_wait st s at_) (fun id row w k r => caller w k r s).
Proof.
  intros i rw w k r [Ha Hl Hk Hsub Hkd Hsrc Hpk]. destruct (register_rest st s at_) as (_ & Hp & He).
  rewrite He in Ha. rewrite register_corr in Hk. rewrite Hp in Hpk.
  destruct (register_subs st s at_ (w, k)) as [Hs|(_ & Hw & Hin & Hs)]; rewrite Hs in Hsub.
  - left. exists rw. split; [|done]. by split.
  - right. simplify_eq/=. done.
Qed.

Lemma brings_none_brings st st' P : brings_none st st' -> brings st st' P.
Proof. intros Hb id row w k r Ha. left. by apply Hb. Qed.

Lemma hand_back_letter st run id row e : sound st -> events st !! id = Some row ->
  stored_event (J:=J) (with_claimed st (base.delete (run, id) (claimed st))) id row = Ok e -> letter st id row e.
Proof.
  intros Hs Hrow He. pose proof (stored_event_id _ _ _ _ He) as Hid.
  rewrite (ro_id _ _ _ _ (so_rows _ Hs) id row Hrow) in Hid.
  unfold stored_event in He. apply result_bind_ok in He as (p & _ & He). apply result_bind_ok in He as (b & _ & [= <-]).
  split_and!; [done..|]. simpl. intros k Hk. unfold load_correlation. apply elem_of_iter_by, elem_of_set_filter_map.
  exists (id, k). split; [done|]. simpl. by rewrite decide_True.
Qed.
Lemma brings_release_one st run id st' es : sound st -> is_Some (claimed st !! (run, id)) -> release_one (J:=J) run st id = Ok (st', es) ->
  brings st st' (fun i row w k r => exists e, e ∈ es /\ letter st i row e).
Proof.
  intros Hs [f Hf] Hr. destruct (ro_held _ _ _ _ (so_rows _ Hs) _ _ _ Hf) as (row & a & Hrow & Hc).
  unfold release_one in Hr. simpl in Hr. rewrite Hrow in Hr. set (st1 := with_claimed _ _) in *.
  assert (brings_none st st1) as H1 by by apply brings_same.
  case_bool_decide as Hd; simplify_eq; [by apply brings_none_brings|].
  case_bool_decide as Ht; simplify_eq.
  - apply brings_none_brings. unfold hand_back. rewrite bool_decide_true by done. by eapply brings_row.
  - apply result_bind_ok in Hr as (e & He & [= <- <-]). unfold hand_back. rewrite bool_decide_false by done.
    intros i rw w k r [Ha Hl Hk Hsub Hkd Hsrc Hpk]. simpl in *. apply lookup_insert_Some in Ha as [[<- <-]|[Hne Ha]].
    + right. exists e. split; [by left|]. pose proof (hand_back_letter _ _ _ _ _ Hs Hrow He) as (Hi & Hki & Hso & Hco). by split_and!.
    + left. exists rw. split; [|done]. by split.
Qed.
Lemma release_one_corr st run id st' es : release_one (J:=J) run st id = Ok (st', es) ->
  corr st' = corr st /\ subs st' = subs st /\ parked st' = parked st.
Proof.
  intros [[-> _]|(row & _ & _ & ->)]%release_one_cases; [done|]. unfold hand_back. by case_bool_decide.
Qed.
Lemma letter_same st st' id row row' (e : Event) : letter st id row e -> same_letter row row' ->
  (forall k, (id, k) ∈ corr st' -> (id, k) ∈ corr st) -> letter st' id row' e.
Proof. intros (Hd & Hk & Hs & Hc) [Hk' Hs'] Hco. split_and!; [done|congruence|congruence|auto]. Qed.
Lemma brings_release st run ids : NoDup ids -> forall st' es, sound st -> (forall id, id ∈ ids -> is_Some (claimed st !! (run, id))) ->
  release_each (J:=J) run st ids = Ok (st', es) ->
  corr st' = corr st /\ brings st st' (fun i row w k r => exists e, e ∈ es /\ letter st i row e).
Proof.
  intros Hnd. revert st. induction Hnd as [|id ids Hid _ IH]; intros st st' es Hs Hin Hr; simpl in Hr.
  { simplify_eq. split; [done|]. apply brings_none_brings, brings_refl. }
  apply result_bind_ok in Hr as ([st1 e1] & H1 & Hr). apply result_bind_ok in Hr as ([st2 e2] & H2 & [= <- <-]).
  assert (is_Some (claimed st !! (run, id))) as Hhid by (apply Hin; by left).
  destruct (release_one_corr _ _ _ _ _ H1) as (Hc1 & _ & _).
  destruct (IH st1 st2 e2) as [Hc2 Hb2]; [by eapply release_one_sound| |done|].
  { intros i Hi. rewrite (release_one_claimed _ _ _ _ _ H1). assert (i <> id) by (by intros ->).
    rewrite lookup_delete_ne by congruence. apply Hin. by right. }
  split; [congruence|]. intros i rw w k r Ha. destruct (Hb2 _ _ _ _ _ Ha) as [(rw1 & Ha1 & Hsl)|(e & He & Hle)].
  - destruct (brings_release_one _ _ _ _ _ Hs Hhid H1 _ _ _ _ _ Ha1) as [(rw0 & Ha0 & Hsl')|(e & He & Hle)].
    + left. exists rw0. split; [done|]. destruct Hsl, Hsl'. split; congruence.
    + right. exists e. split; [set_solver|]. by eapply letter_same.
  - right. exists e. split; [set_solver|]. eapply letter_same; [exact Hle|done|]. intros k'. by rewrite Hc1.
Qed.

Lemma shed_corr st run effect : corr (shed_claimed st run effect) = corr st.
Proof.
  apply (foldl_keeps (fun st' => corr st' = corr st)); [|done]. intros st' id <-. simpl. unfold strip_payload. by destruct (events st' !! id).
Qed.
Lemma erase_brings st source id : sound st -> spares_held st (ErasePayload (J:=J) source id) ->
  corr (erase_payload st source id).1 = corr st /\ brings_none st (erase_payload st source id).1.
Proof.
  intros Hs Hsp. destruct (erase_rest st source id Hs Hsp) as [_ Hp]. simpl in Hsp. unfold erase_payload in *.
  set (key := Journal.origin_key source id) in *. destruct (events st !! key) as [row|] eqn:Hrow; [|split; [done|apply brings_refl]].
  cbn zeta in *. assert (holder_of st key row = None) as Hh.
  { unfold holder_of. destruct (claim row) as [[r a]|]; [|done]. by rewrite Hsp. }
  rewrite Hh in *. unfold strip_payload in *. rewrite Hrow in *. case_match eqn:Hb.
  - unfold dead_letter_as_erased in *. simpl in *. rewrite lookup_insert_eq in *. simpl in *. split; [done|].
    eapply (brings_row st key row); [done|by rewrite insert_insert_eq|done..].
  - split; [done|]. eapply (brings_row st key row); done.
Qed.

(** ** What each operation brings, and who owes it *)

(** The keys of a message already stored stay its own. *)
Definition keeps_corr (st st' : Mailbox) : Prop :=
  forall id k, is_Some (events st !! id) -> (id, k) ∈ corr st' -> (id, k) ∈ corr st.
Lemma keeps_corr_same st st' : corr st' = corr st -> keeps_corr st st'.
Proof. intros He id k _. by rewrite He. Qed.

Lemma new_event_corr st (e : Event) id k : events st !! dedup_key e = None ->
  is_Some (events st !! id) -> (id, k) ∈ (list_to_set ((dedup_key e,.) <$> ev_correlation e) : gset (str * CorrelationKey)) ∪ corr st ->
  (id, k) ∈ corr st.
Proof.
  intros Hn Hid [Hk|Hk]%elem_of_union; [|done]. apply elem_of_list_to_set, list_elem_of_fmap in Hk as (k' & [= -> ->] & _).
  rewrite Hn in Hid. by destruct Hid.
Qed.

Lemma step_brings st o os : sound st -> follows st o os ->
  keeps_corr st (after st o) /\ brings st (after st o) (owed (after st o) os).
Proof.
  intros Hs Hf.
  destruct o as [e at_|s at_|s at_|sealed e at_|run e at_|w|run un|s at_|sealed limit|source id|older why]; simpl after.
  - pose proof Hf as Hoff. simpl in Hoff. destruct (buffer_cases st e at_) as [Hsame|(Hn & p & Hst)].
    + rewrite Hsame. split; [by apply keeps_corr_same|apply brings_none_brings, brings_refl].
    + assert (offered os e) as Ho.
      { apply Hoff. unfold buffer in *. destruct (payload_text _); simpl in *; [by rewrite Hn|]. exfalso. apply (f_equal events) in Hst.
        simpl in Hst. assert (events st !! dedup_key e <> None); [|done]. rewrite Hst. by rewrite lookup_insert_eq. }
      rewrite Hst. split; [intros i k Hi; simpl; by eapply new_event_corr|].
      intros i rw w k r [Ha Hl Hk Hsub Hkd Hsrc Hpk]. simpl in *. apply lookup_insert_Some in Ha as [[<- <-]|[Hne Ha]].
      * right. left. exists e. split; [|done]. split_and!; [done..|]. simpl. intros k'.
        rewrite elem_of_union, elem_of_list_to_set, list_elem_of_fmap. intros [(? & [= ->] & ?)|Hk']; [done|].
        apply (ko_corr _ _ _ (so_keys _ Hs)) in Hk'. rewrite Hn in Hk'. by destruct Hk'.
      * left. exists rw. split; [|done]. split; try done. eapply new_event_corr; [done| |exact Hk]. by eexists.
  - split; [apply keeps_corr_same, register_corr|]. intros i rw w k r Ha.
    destruct (brings_subscribe st s at_ _ _ _ _ _ Ha) as [Ho|Hc]; [by left|right]. right. by exists s.
  - destruct (claim_for_cases st s at_ Hs) as [[-> _]|(id & row & _ & Hm & _ & -> & _)].
    + split; [by apply keeps_corr_same|apply brings_none_brings, brings_refl].
    + split; [by apply keeps_corr_same|]. apply brings_none_brings, brings_claim, Hm.
  - destruct (match_cases sealed st e at_ Hs) as [[-> _]|(w & r & row & _ & Hrow & _ & _ & _ & -> & _)].
    + split; [by apply keeps_corr_same|apply brings_none_brings, brings_refl].
    + split; [by apply keeps_corr_same|]. by apply brings_none_brings, brings_claim.
  - destruct (deliver_cases st run e at_) as [[-> _]|[(f & r & row & _ & -> & _)|(f & r & p & _ & Hn & Hpk & _ & ->)]];
      [split; [by apply keeps_corr_same|apply brings_none_brings, brings_refl]..|].
    split; [intros i k Hi; simpl; by eapply new_event_corr|]. apply brings_none_brings.
    intros i rw w k r' [Ha Hl Hk Hsub Hkd Hsrc Hpk']. simpl in *. apply lookup_insert_Some in Ha as [[<- <-]|[Hne Ha]].
    + by destruct Hl.
    + apply lookup_insert_None in Hpk' as [Hpk' _]. exists rw. split; [|done]. split; try done.
      eapply new_event_corr; [done| |exact Hk]. by eexists.
  - split; [apply keeps_corr_same; unfold unsubscribe; rewrite shed_corr; apply drop_other|].
    apply brings_none_brings. unfold unsubscribe. eapply brings_trans; [apply brings_drop|apply brings_shed].
  - simpl in Hf. unfold unsubscribe_run in *. set (st1 := foldl _ _ _) in *.
    assert (sound st1 /\ corr st1 = corr st) as [Hs1 Hc1].
    { apply (foldl_keeps (fun st' => sound st' /\ corr st' = corr st)); [|done]. intros st' e [Hs' <-].
      split; [by apply drop_sound|apply drop_other]. }
    assert (brings_none st st1) as Hb1 by (apply brings_foldl; intros; apply brings_drop).
    destruct (release_claimed st1 run un) as [[st2 es]|e] eqn:Hr; simpl in *;
      [|split; [by apply keeps_corr_same|apply brings_none_brings, brings_refl]].
    specialize (Hf _ _ eq_refl). apply brings_release in Hr as [Hc2 Hb2]; [|apply held_nodup|done|].
    + split; [apply keeps_corr_same; rewrite shed_corr; congruence|]. intros i rw w k r Ha.
      apply brings_shed in Ha as (rw2 & Ha2 & Hsl2). destruct (Hb2 _ _ _ _ _ Ha2) as [(rw1 & Ha1 & Hsl1)|(e & He & Hle)].
      * destruct (Hb1 _ _ _ _ _ Ha1) as (rw0 & Ha0 & Hsl0). left. exists rw0. split; [done|].
        destruct Hsl0, Hsl1, Hsl2. split; congruence.
      * right. left. exists e. split; [|by eapply Forall_forall in Hf]. eapply letter_same; [exact Hle|done|].
        intros k'. by rewrite shed_corr, Hc2.
    + intros id (e & He & _)%elem_of_held. by rewrite He.
  - split; [apply keeps_corr_same, register_corr|]. intros i rw w k r [Ha Hl Hk Hsub Hkd Hsrc Hpk]. simpl in *.
    apply lookup_insert_None in Hpk as [Hpk Hne].
    destruct (brings_subscribe st s at_ i rw w k r) as [Ho|[Hc _]]; [by split|by left|done].
  - assert (corr (parked_waits sealed st limit).1 = corr st /\ brings_none st (parked_waits sealed st limit).1) as [Hc Hb].
    { simpl. apply (foldl_keeps (fun st' => corr st' = corr st /\ brings_none st st')); [|split; [done|apply brings_refl]].
      intros st' w [<- Hb]. unfold retire_sealed. destruct (sealed w.1); [|done].
      split; [rewrite shed_corr; apply drop_other|]. eapply brings_trans; [exact Hb|].
      eapply brings_trans; [apply brings_drop|apply brings_shed]. }
    split; [by apply keeps_corr_same|by apply brings_none_brings].
  - destruct (erase_brings st source id Hs Hf) as [Hc Hb]. split; [by apply keeps_corr_same|by apply brings_none_brings].
  - assert (sound (sweep_unclaimed st older why).1 /\ corr (sweep_unclaimed st older why).1 = corr st /\
      brings_none st (sweep_unclaimed st older why).1) as (_ & Hc & Hb).
    { apply (sweep_keeps (fun st' => corr st' = corr st /\ brings_none st st')); [done|split; [done|apply brings_refl]|].
      intros st' n key _ [<- Hb] _. split; [unfold retire; by destruct (events st' !! key.2)|].
      eapply brings_trans; [exact Hb|apply brings_retire]. }
    split; [by apply keeps_corr_same|by apply brings_none_brings].
Qed.

(** ** Stored rows read back *)
Context `{!EventJsonLaws}.

Definition readable_row (row : EventRow) : Prop := is_ok (payload_of (e_payload row)) = true /\ is_ok (decode_minter (minted row)) = true.
Definition readable (st : Mailbox) : Prop := map_Forall (fun _ => readable_row) (events st).
(** An operator is what its constructors let through. *)
Definition well_minted (o : Op (J:=J)) : Prop :=
  match o with
  | Buffer e _ | DeliverTo _ e _ =>
      match ev_by e with Some p => operator_new (actor p) (basis p) = Some p | None => True end
  | _ => True
  end.

Lemma minted_reads o : match o with Some p => operator_new (actor p) (basis p) = Some p | None => True end ->
  decode_minter (encode_minter o) = Ok o.
Proof.
  destruct o as [[a b]|]; [|done]. simpl. intros Ho. unfold decode_minter.
  assert (basis_parse (basis_str b) = Some b) as Hb by by destruct b.
  destruct a as [|c a]; [done|].
  destruct (basis_str b) as [|d x] eqn:Hbs; [by destruct b|]. cbn [fst snd]. rewrite Hb. simpl. by rewrite Ho.
Qed.
Lemma readable_new (e : Event) payload at_ c : payload_text (ev_payload e) = Ok payload ->
  match ev_by e with Some p => operator_new (actor p) (basis p) = Some p | None => True end ->
  readable_row (new_row e payload at_ c).
Proof.
  intros Hp Hm. split; simpl; [by rewrite (payload_reads _ _ Hp)|by rewrite minted_reads].
Qed.
Lemma readable_put st id row li de : readable st -> readable_row row -> readable (with_rows st (<[id := row]> (events st)) li de).
Proof. intros Hr Hrow. by apply map_Forall_insert_2. Qed.
Lemma readable_strip st id : readable st -> readable (strip_payload st id).
Proof.
  intros Hr. unfold strip_payload. destruct (events st !! id) as [row|] eqn:Hrow; [|done].
  apply readable_put; [done|]. split; [apply null_reads|apply (Hr id row Hrow)].
Qed.
Lemma readable_shed st run effect : readable st -> readable (shed_claimed st run effect).
Proof. apply (foldl_keeps readable). intros st' id Hr. apply (readable_strip st' id Hr). Qed.
Lemma readable_drop st w : readable st -> readable (drop_wait st w).
Proof. unfold readable. by rewrite (proj1 (drop_other st w)). Qed.
Lemma readable_release_one st run id st' es : readable st -> release_one (J:=J) run st id = Ok (st', es) -> readable st'.
Proof.
  intros Hr [[-> _]|(row & Hrow & _ & ->)]%release_one_cases; [done|]. pose proof (Hr id row Hrow).
  unfold hand_back. case_bool_decide; by apply (readable_put (with_claimed st _)).
Qed.
Lemma readable_erase st source id : readable st -> readable (erase_payload st source id).1.
Proof.
  intros Hr. unfold erase_payload. set (key := Journal.origin_key source id).
  destruct (events st !! key) as [row|] eqn:Hrow; [|done]. cbn zeta.
  pose proof (readable_strip st key Hr) as Hr'. destruct (holder_of st key row) as [run|]; case_match; try exact Hr';
    unfold dead_letter_as_erased; simpl; (destruct (events (strip_payload st key) !! key) as [w|] eqn:Hw; [|exact Hr']);
    apply (map_Forall_insert_2 _ _ key (unclaimed w (Some ERASED_REASON))); [exact (Hr' key w Hw)|exact Hr'
      |exact (Hr' key w Hw)|exact Hr'].
Qed.
Lemma step_readable st o : sound st -> readable st -> well_minted o -> readable (after st o).
Proof.
  intros Hs Hr Hw.
  destruct o as [e at_|s at_|s at_|sealed e at_|run e at_|w|run un|s at_|sealed limit|source id|older why]; simpl after.
  - unfold buffer. destruct (payload_text _) as [p|] eqn:Hp; [|done]. simpl. destruct (events st !! _); [done|].
    apply map_Forall_insert_2; [by apply readable_new|done].
  - unfold readable, subscribe. by rewrite (proj2 (proj2 (register_rest st s at_))).
  - destruct (claim_for_cases st s at_ Hs) as [[-> _]|(id & row & _ & Hm & _ & -> & _)]; [done|].
    apply map_Forall_insert_2; [exact (Hr id row (ma_row _ _ _ _ Hm))|done].
  - destruct (match_cases sealed st e at_ Hs) as [[-> _]|(w & r & row & _ & Hrow & _ & _ & _ & -> & _)]; [done|].
    apply map_Forall_insert_2; [exact (Hr _ row Hrow)|done].
  - unfold deliver_to. destruct (payload_text _) as [p|] eqn:Hp; [|done]. simpl.
    destruct (addressee st run e) as [[f r]|]; [|done]. destruct (events st !! _); [done|].
    apply map_Forall_insert_2; [by apply readable_new|done].
  - by apply readable_shed, readable_drop.
  - unfold unsubscribe_run. set (st1 := foldl _ _ _).
    assert (sound st1 /\ readable st1) as [Hs1 Hr1].
    { apply (foldl_keeps (fun st => sound st /\ readable st)); [|done]. intros st' e [Hs' Hr'].
      split; [by apply drop_sound|by apply readable_drop]. }
    destruct (release_claimed st1 run un) as [[st2 es]|e] eqn:Hre; [|done]. apply readable_shed.
    eapply (release_each_keeps readable) in Hre; [by apply Hre| |apply held_nodup|done|done|].
    + intros st' id st'' es' Hr' _ _ Hre'. by eapply readable_release_one.
    + intros id (e & He & _)%elem_of_held. by rewrite He.
  - unfold readable, park_wait. simpl. by rewrite (proj2 (proj2 (register_rest st s at_))).
  - simpl. apply (foldl_keeps readable); [|done]. intros st' w Hr'. unfold retire_sealed.
    destruct (sealed w.1); [by apply readable_shed, readable_drop|done].
  - by apply readable_erase.
  - apply (sweep_keeps readable); [done..|]. intros st' n key _ Hr' _. unfold retire.
    destruct (events st' !! key.2) as [row|] eqn:Hrow; [|done]. apply readable_put; [done|exact (Hr' _ row Hrow)].
Qed.

(** ** The meeting *)

(** The offer and the look keep their promise. *)
Lemma offer_meets sealed st (e : Event) at_ id row w k r : sound st -> apart st id row w k r -> letter st id row e ->
  sealed w.1 = false -> forall row', events (match_waiter sealed st e at_).1 !! id = Some row' -> claim row' <> None.
Proof.
  intros Hs [Hrow [Hc Hd] Hk Hsub Hkd Hsrc Hpk] (<- & Hke & Hse & Hco) Hsl.
  unfold match_waiter. destruct (oldest_waiter _ _ _ _ _) as [[w' r']|] eqn:Ho.
  - rewrite Hrow, !bool_decide_true by done. simpl. rewrite lookup_insert_eq. naive_solver.
  - exfalso. eapply (oldest_none _ _ _ _ _ w r Hs Ho). split_and!; [done|done|congruence|by rewrite Hse|]. exists k. auto.
Qed.
Lemma look_meets st s at_ id row w k r : sound st -> readable st -> apart st id row w k r -> caller w k r s ->
  is_Some (parked (claim_for (J:=J) st s at_).1 !! w).
Proof.
  intros Hs Hr [Hrow [Hc Hd] Hk Hsub Hkd Hsrc Hpk] (<- & Hks & Hki & Hfr).
  assert (id ∉ erased st) as Her.
  { intros Hi. destruct (so_erased _ Hs _ Hi) as [(w' & Hw' & Ho) _]. rewrite Hrow in Hw'. simplify_eq. by destruct Ho. }
  assert (matches st s id row) as Hm.
  { split; [done|congruence|unfold accepts_source; by rewrite Hfr|eauto]. }
  unfold claim_for. destruct (pick st s) as [[id' row']|] eqn:Hp.
  - destruct (pick_some _ _ _ _ Hs Hp) as [Hm' _]. destruct (Hr id' row' (ma_row _ _ _ _ Hm')) as [Hpa Hmi].
    unfold stored_event. destruct (payload_of _); [|done]. simpl. destruct (decode_minter _); [|done]. simpl.
    rewrite lookup_insert_eq. by eexists.
  - exfalso. eapply (pick_none _ _ _ _ Hs Hp Hm). split_and!; [done..|by left].
Qed.

(** Runs the history never saw sealed. *)
Definition awake (run : RunId) (os : Ops) : Prop := forall sealed e at_, MatchWaiter sealed e at_ ∈ os -> sealed run = false.
Definition covered (run : RunId) (st : Mailbox) (os : Ops) : Prop :=
  forall id row w k r, w.1 = run -> apart st id row w k r -> owed st os id row w k r.

Lemma step_covered run st o os : sound st -> readable st -> awake run (o :: os) -> follows st o os ->
  covered run st (o :: os) -> covered run (after st o) os.
Proof.
  intros Hs Hr Haw Hf Hcov id row' w k r Hw Ha. destruct (step_brings st o os Hs Hf) as [Hco Hb].
  destruct (Hb _ _ _ _ _ Ha) as [(row & Ha0 & Hsl)|Ho]; [|done].
  destruct (Hcov _ _ _ _ _ Hw Ha0) as [(e & Hle & sealed & at_ & Hin)|(s & Hca & at_ & Hin)].
  - left. exists e. split.
    + eapply letter_same; [done..|]. intros k'. apply Hco. rewrite (ap_row _ _ _ _ _ _ Ha0). by eexists.
    + apply elem_of_cons in Hin as [<-|Hin]; [|by exists sealed, at_]. exfalso.
      assert (sealed w.1 = false) as Hse by (rewrite Hw; apply (Haw sealed e at_); by left).
      pose proof (ap_live _ _ _ _ _ _ Ha) as [Hc _]. pose proof (ap_row _ _ _ _ _ _ Ha) as Hrow. simpl in Hrow.
      by apply (offer_meets sealed st e at_ id row w k r Hs Ha0 Hle Hse _ Hrow).
  - right. exists s. split; [done|]. apply elem_of_cons in Hin as [<-|Hin]; [|by exists at_]. exfalso.
    pose proof (ap_unparked _ _ _ _ _ _ Ha) as Hpk. simpl in Hpk.
    destruct (look_meets st s at_ id row w k r Hs Hr Ha0 Hca). congruence.
Qed.

(** C10. No lost wake-up: when every message stored is offered once after, every
    wait registered looks in the buffer once after, every message handed back
    is offered again, and no message is erased while a run holds it, then
    however the operations interleave no message is left in the buffer beside
    an unparked wait that takes it, of a run no offer saw sealed.  Operators
    are ones their constructors let through, so that a stored row reads back. *)
Theorem no_lost_wakeup os : followed no_mail os -> Forall well_minted os ->
  forall id row w k r, awake w.1 os -> ~ apart (run_ops no_mail os) id row w k r.
Proof.
  intros Hfo Hm id row w k r Haw Ha.
  assert (forall st, sound st -> readable st -> followed st os -> covered w.1 st os -> covered w.1 (run_ops st os) []) as Hgen.
  { clear id row k r Ha Hfo. induction os as [|o os IH]; intros st Hs Hr Hfo Hco; [done|]. destruct Hfo as [Hf Hfo].
    apply Forall_cons in Hm as [Hmo Hm]. apply IH; [done| |by apply step_sound|by apply step_readable|done|by apply step_covered].
    intros sealed e at_ Hin. apply (Haw sealed e at_). by right. }
  destruct (Hgen no_mail no_mail_sound) with (id := id) (row := row) (w := w) (k := k) (r := r)
    as [(e & _ & sealed & at_ & Hin)|(s & _ & at_ & Hin)]; try done; try set_solver.
  intros i rw w' k' r' _ [Hrow _ _ _ _ _ _]. done.
Qed.
End meet.
