(* ===== verification/MailboxFate.v ===== *)
(** * What becomes of a held message ([src/src/store/redb_events.rs])

    For each operation of the mailbox: which claims it takes and for whom, and
    where a claim it drops leaves its message - consumed, retired, or handed
    back.  [Delivery] reads the journal's side of the same steps from these. *)

From S2P Require Import Prelude Digest EffectKey Index Panel Text Chain Mailbox MailboxSafety MailboxMeet.
From S2P Require Journal.

(** A message some run was given, whether or not it still holds it. *)
Definition marked (st : Mailbox) (id : str) : Prop := exists row, events st !! id = Some row /\ claim row <> None.
Definition marks_none (st st' : Mailbox) : Prop := forall id, marked st' id -> marked st id.
Definition claims_less (st st' : Mailbox) : Prop :=
  forall r i e, claimed st' !! (r, i) = Some e -> claimed st !! (r, i) = Some e.
(** A registered wait no message is held for. *)
Definition open_wait (st : Mailbox) (w : Wait) : Prop := parked st !! w = None /\ exists k, is_Some (subs st !! (w, k)).

Lemma held_marked st r id e : sound st -> claimed st !! (r, id) = Some e -> marked st id.
Proof. intros Hs He. destruct (ro_held _ _ _ _ (so_rows _ Hs) _ _ _ He) as (row & a & Hrow & Hc). exists row. by rewrite Hc. Qed.
Lemma consumed_marked st id : consumed st id <-> marked st id /\ forall r, claimed st !! (r, id) = None.
Proof. done. Qed.

Lemma marked_cases st id : sound st -> marked st id -> (exists w, claimed st !! (w.1, id) = Some w.2) \/ consumed st id.
Proof.
  intros Hs (row & Hrow & Hc). destruct (claim row) as [[r a]|] eqn:Hcl; [|done].
  destruct (claimed st !! (r, id)) as [e|] eqn:He; [left; by exists (r, e)|right]. split; [exists row; split; [done|congruence]|].
  intros r'. destruct (claimed st !! (r', id)) as [e|] eqn:He'; [|done].
  destruct (held_by _ _ _ _ (so_rows _ Hs) _ _ Hrow _ _ He') as [a' Ha]. congruence.
Qed.

Lemma marks_refl st : marks_none st st.
Proof. by intros id. Qed.
Lemma claims_refl st : claims_less st st.
Proof. by intros r i e. Qed.
#[local] Hint Resolve marks_refl claims_refl : core.
Lemma marks_row st id row row' st' : events st !! id = Some row -> events st' = <[id := row']> (events st) ->
  (claim row' <> None -> claim row <> None) -> marks_none st st'.
Proof.
  intros Hrow He Hc i (w & Hw & Hcw). rewrite He in Hw. apply lookup_insert_Some in Hw as [[<- <-]|[_ Hw]]; [|by exists w].
  exists row. auto.
Qed.
Lemma marks_same st st' : events st' = events st -> marks_none st st'.
Proof. intros He i. unfold marked. by rewrite He. Qed.
Lemma marks_strip st id : marks_none st (strip_payload st id).
Proof.
  unfold strip_payload. destruct (events st !! id) as [row|] eqn:Hrow; [|apply marks_refl]. by eapply marks_row.
Qed.
Lemma marks_shed st run effect : marks_none st (shed_claimed st run effect).
Proof.
  apply (foldl_keeps (marks_none st)); [|apply marks_refl]. intros st' id Hm i Hi. apply Hm, (marks_strip st' id). exact Hi.
Qed.
Lemma marks_hand_back st id row : events st !! id = Some row -> marks_none st (hand_back st id row).
Proof. intros Hrow. unfold hand_back. case_bool_decide; by eapply marks_row. Qed.

Section fate.
Context {J : Type} `{EventJson J}.
Abbreviation Event := (InboundEvent (J:=J)).

Lemma marks_release st run id st' es : release_one (J:=J) run st id = Ok (st', es) -> marks_none st st'.
Proof.
  intros [[-> _]|(row & Hrow & _ & ->)]%release_one_cases; [by apply marks_same|].
  intros i Hi. by apply (marks_hand_back (with_claimed st _) id row Hrow) in Hi.
Qed.
Lemma marks_erase st source id : marks_none st (erase_payload st source id).1.
Proof.
  unfold erase_payload. set (key := Journal.origin_key source id).
  destruct (events st !! key) as [row|] eqn:Hrow; [|apply marks_refl]. cbn zeta.
  unfold strip_payload. rewrite Hrow.
  destruct (holder_of st key row); case_match; unfold dead_letter_as_erased; simpl; rewrite ?lookup_insert_eq;
    (eapply marks_row; [exact Hrow|simpl; by rewrite ?insert_insert_eq|done]).
Qed.

(** ** Taking a message *)

Lemma unheld_free st id row : sound st -> events st !! id = Some row -> claim row = None -> forall r, claimed st !! (r, id) = None.
Proof.
  intros Hs Hrow Hc r. destruct (claimed st !! (r, id)) as [e|] eqn:He; [|done].
  destruct (held_by _ _ _ _ (so_rows _ Hs) _ _ Hrow _ _ He). congruence.
Qed.
Lemma unheld_new st id : sound st -> events st !! id = None -> forall r, claimed st !! (r, id) = None.
Proof.
  intros Hs Hn r. destruct (claimed st !! (r, id)) as [e|] eqn:He; [|done].
  destruct (ro_held _ _ _ _ (so_rows _ Hs) _ _ _ He) as (row & a & Hrow & _). congruence.
Qed.

(** What is handed is held for that wait: it was already, or nobody held it
    and the wait held nothing. *)
Lemma handed_holds st o w id : sound st -> handed st o = Some (w, id) ->
  claimed (after st o) !! (w.1, id) = Some w.2 /\
  (claimed st !! (w.1, id) = Some w.2 \/
   (forall r, claimed st !! (r, id) = None) /\ parked st !! w = None /\
   ((exists s at_, o = ClaimFor s at_ /\ wait_of s = w) \/ open_wait st w)).
Proof.
  intros Hs Ho. destruct o as [| |s at_|sealed e at_|run e at_| | | | | |]; try done; simpl after.
  - destruct (claim_for_cases st s at_ Hs) as [[_ Hn]|(i & row & _ & Hm & (_ & _ & Hf) & -> & Hh)]; [congruence|].
    rewrite Hh in Ho. simplify_eq. split; [simpl; by rewrite lookup_insert_eq|].
    destruct Hf as [[Hc Hp]|[_ Hf]]; [|by left]. right. split_and!; [|done|left; eauto].
    eapply unheld_free; [done|apply Hm|done].
  - destruct (match_cases sealed st e at_ Hs) as [[_ Hn]|(w' & r & row & (_ & Hp & _ & _ & k & _ & Hk) & Hrow & Hc & _ & _ & -> & Hh)];
      [congruence|].
    rewrite Hh in Ho. simplify_eq. split; [simpl; by rewrite lookup_insert_eq|]. right.
    split_and!; [by eapply unheld_free|done|right; split; [done|exists k; by eexists]].
  - destruct (deliver_cases st run e at_) as [[_ Hn]|[(f & r & row & _ & -> & Hrow & Hf & Hh)|(f & r & p & Ha & Hn & Hp & Hh & ->)]];
      [congruence|..]; rewrite Hh in Ho; simplify_eq.
    + unfold claimed_for in Hf. case_bool_decide; [|done]. auto.
    + split; [simpl; by rewrite lookup_insert_eq|]. right. split_and!; [by apply unheld_new|done|]. right. split; [done|].
      unfold addressee in Ha. apply head_omap_Some in Ha as ([f' k] & _ & Hx). simpl in Hx.
      destruct (subs st !! _) as [r'|] eqn:Hsub; [|done]. simpl in Hx. case_match; [|done]. simplify_eq. exists k. by eexists.
Qed.

Lemma drop_claims st w : claims_less st (drop_wait st w).
Proof. intros r i e. by rewrite (proj1 (drop_rest st w)). Qed.
Lemma shed_claims st run effect : claims_less st (shed_claimed st run effect).
Proof. by intros r i e [He _]%shed_lookup. Qed.
Lemma erase_claims st source id : claims_less st (erase_payload st source id).1.
Proof.
  unfold erase_payload. set (key := Journal.origin_key source id).
  destruct (events st !! key) as [row|] eqn:Hrow; [|by intros r i e]. cbn zeta.
  intros r i e. unfold strip_payload. rewrite Hrow.
  destruct (holder_of st key row); case_match; unfold dead_letter_as_erased; simpl; rewrite ?lookup_insert_eq; simpl;
    rewrite ?lookup_delete_Some; tauto.
Qed.
Lemma release_claims run ids st st' es : release_each (J:=J) run st ids = Ok (st', es) -> claims_less st st' /\ marks_none st st'.
Proof.
  revert st st' es. induction ids as [|id ids IH]; intros st st' es Hr; simpl in Hr.
  { simplify_eq. split; [by intros r i e|apply marks_refl]. }
  apply result_bind_ok in Hr as ([st1 e1] & H1 & Hr). apply result_bind_ok in Hr as ([st2 e2] & H2 & [= <- <-]).
  destruct (IH _ _ _ H2) as [Hc Hm]. split.
  - intros r i e He%Hc. rewrite (release_one_claimed _ _ _ _ _ H1) in He. by apply lookup_delete_Some in He as [_ He].
  - intros i Hi%Hm. by eapply marks_release.
Qed.
Lemma drops_rest st run l : sound st -> let st1 := foldl (fun st e => drop_wait st (run, e)) st l in
  sound st1 /\ claimed st1 = claimed st /\ events st1 = events st.
Proof.
  intros Hs. apply (foldl_keeps (fun st1 => sound st1 /\ claimed st1 = claimed st /\ events st1 = events st)); [|done].
  intros st' e (Hs' & <- & <-). split_and!; [by apply drop_sound|apply drop_rest|apply drop_other].
Qed.

(** Operations that hand nothing over claim nothing and mark nothing. *)
Lemma step_claims st o : sound st ->
  (forall r i e, claimed (after st o) !! (r, i) = Some e -> claimed st !! (r, i) = Some e \/ handed st o = Some ((r, e), i)) /\
  (forall i, marked (after st o) i -> marked st i \/ exists w, handed st o = Some (w, i)).
Proof.
  intros Hs.
  assert (forall st', claims_less st st' -> marks_none st st' ->
    (forall r i e, claimed st' !! (r, i) = Some e -> claimed st !! (r, i) = Some e \/ handed st o = Some ((r, e), i)) /\
    (forall i, marked st' i -> marked st i \/ exists w, handed st o = Some (w, i))) as Hless
    by (intros st' Hc Hm; split; [intros r i e He; left; by apply Hc|intros i Hi; left; by apply Hm]).
  assert (forall id row w at_, handed st o = Some (w, id) -> events st !! id = Some row ->
    (forall r i e, claimed (claim_event st id row w at_) !! (r, i) = Some e -> claimed st !! (r, i) = Some e \/ handed st o = Some ((r, e), i)) /\
    (forall i, marked (claim_event st id row w at_) i -> marked st i \/ exists w, handed st o = Some (w, i))) as Hclaim.
  { intros id row [r' e'] at_ Hh Hrow. split.
    - intros r i e. simpl. rewrite lookup_insert_Some. intros [[[= <- <-] <-]|[_ He]]; [by right|by left].
    - intros i (rw & Hrw & Hc). simpl in Hrw. apply lookup_insert_Some in Hrw as [[<- <-]|[_ Hrw]]; [right; eauto|left; by exists rw]. }
  destruct o as [e at_|s at_|s at_|sealed e at_|run e at_|w|run un|s at_|sealed limit|source id|older why]; simpl after.
  - destruct (buffer_cases st e at_) as [->|(Hn & p & ->)]; [by apply Hless|]. apply Hless; [by intros r i f|].
    intros i (rw & Hrw & Hc). simpl in Hrw. apply lookup_insert_Some in Hrw as [[<- <-]|[_ Hrw]]; [done|by exists rw].
  - destruct (register_rest st s at_) as (Hc & _ & He). apply Hless; [intros r i e; unfold subscribe; by rewrite Hc|by apply marks_same].
  - destruct (claim_for_cases st s at_ Hs) as [[-> _]|(id & row & _ & Hm & _ & -> & Hh)]; [by apply Hless|].
    apply Hclaim; [done|apply Hm].
  - destruct (match_cases sealed st e at_ Hs) as [[-> _]|(w & r & row & _ & Hrow & _ & _ & _ & -> & Hh)]; [by apply Hless|].
    by apply Hclaim.
  - destruct (deliver_cases st run e at_) as [[-> _]|[(f & r & row & _ & -> & _)|(f & r & p & _ & _ & _ & Hh & ->)]];
      [by apply Hless..|]. split.
    + intros r' i e'. simpl. rewrite lookup_insert_Some. intros [[[= <- <-] <-]|[_ He]]; [by right|by left].
    + intros i (rw & Hrw & Hc). simpl in Hrw. apply lookup_insert_Some in Hrw as [[<- <-]|[_ Hrw]]; [right; eauto|left; by exists rw].
  - apply Hless; unfold unsubscribe.
    + intros r i e He%shed_claims. by apply drop_claims in He.
    + intros i Hi%marks_shed. eapply marks_same; [apply drop_other|exact Hi].
  - apply Hless; unfold unsubscribe_run; destruct (drops_rest st run (run_waits st run) Hs) as (_ & Hc1 & He1);
      set (st1 := foldl _ _ _) in *; (destruct (release_claimed st1 run un) as [[st2 es]|] eqn:Hr; [|done]);
      apply release_claims in Hr as [Hc2 Hm2]; simpl.
    + intros r i e He%shed_claims%Hc2. by rewrite Hc1 in He.
    + intros i Hi%marks_shed%Hm2. by apply (marks_same st st1).
  - destruct (register_rest st s at_) as (Hc & _ & He). unfold park_wait.
    apply Hless; [intros r i e; simpl; by rewrite Hc|by apply marks_same].
  - simpl. assert (forall l, claims_less st (foldl (retire_sealed sealed) st l) /\ marks_none st (foldl (retire_sealed sealed) st l)) as Hl.
    { intros l. apply (foldl_keeps (fun st' => claims_less st st' /\ marks_none st st')); [|done].
      intros st' w [Hc Hm]. unfold retire_sealed. destruct (sealed w.1); [|done]. split.
      - intros r i e He%shed_claims%drop_claims. auto.
      - intros i Hi%marks_shed. apply Hm. eapply marks_same; [apply drop_other|exact Hi]. }
    apply Hless; apply Hl.
  - apply Hless; [apply erase_claims|apply marks_erase].
  - destruct (sweep_keeps (fun st' => claims_less st st' /\ marks_none st st') st older why) as (_ & Hc & Hm); [done|by split| |by apply Hless].
    intros st' n key _ [Hc Hm] _. unfold retire. destruct (events st' !! key.2) as [row|] eqn:Hrow; [|done]. split; [exact Hc|].
    intros i Hi. apply Hm. by refine (marks_row st' key.2 row (unclaimed row (Some why)) (with_rows _ _ _ _) Hrow eq_refl _ i Hi).
Qed.

(** ** Giving one up *)

Definition sheds (o : Op (J:=J)) (w : Wait) : Prop :=
  match o with
  | Unsubscribe w' => w = w'
  | UnsubscribeRun run un => w.1 = run /\ w.2 ∉ un
  | ParkedWaits sealed _ => sealed w.1 = true
  | _ => False
  end.
Definition erases (o : Op (J:=J)) (id : str) : Prop :=
  match o with ErasePayload source i => Journal.origin_key source i = id | _ => False end.
Definition hands_back (o : Op (J:=J)) (w : Wait) : Prop :=
  match o with UnsubscribeRun run un => w.1 = run /\ w.2 ∈ un | _ => False end.

Lemma shed_one_fate st run r i id e : sound st -> claimed st !! (r, id) = Some e ->
  claimed (shed_one run st i) !! (r, id) = Some e \/ spent (shed_one run st i) id /\ r = run.
Proof.
  intros Hs He. unfold shed_one. simpl. rewrite (proj1 (strip_rest st i)).
  destruct (decide ((run, i) = (r, id))) as [[= -> ->]|Hne]; [right|left; by rewrite lookup_delete_ne].
  split; [|done]. destruct (ro_held _ _ _ _ (so_rows _ Hs) _ _ _ He) as (row & a & Hrow & Hc). split.
  - unfold strip_payload. rewrite Hrow. exists (stripped row). simpl. rewrite lookup_insert_eq, Hc. naive_solver.
  - intros r'. simpl. apply lookup_delete_None. destruct (decide (r = r')) as [->|Hr]; [by left|right].
    destruct (claimed st !! (r', id)) as [e'|] eqn:He'; [|done]. by destruct Hr; eapply sole_holder.
Qed.
Lemma shed_fate st run effect r id e : sound st -> claimed st !! (r, id) = Some e ->
  claimed (shed_claimed st run effect) !! (r, id) = Some e \/
  spent (shed_claimed st run effect) id /\ r = run /\ (effect = Some e \/ effect = None).
Proof.
  intros Hs He. unfold shed_claimed. set (l := held _ _ _).
  assert (id ∈ l -> r = run -> effect = Some e \/ effect = None) as Hl.
  { intros (e' & He' & HP)%elem_of_held ->. destruct effect; [|by right]. apply bool_decide_eq_true in HP. left. congruence. }
  clearbody l.
  assert (sound (foldl (shed_one run) st l) /\ (claimed (foldl (shed_one run) st l) !! (r, id) = Some e \/
    spent (foldl (shed_one run) st l) id /\ r = run /\ (effect = Some e \/ effect = None))) as [_ Hx]; [|exact Hx].
  revert st Hs He. induction l as [|i l IH]; intros st Hs He; simpl; [auto|].
  assert (sound (shed_one run st i)) as Hs1 by by apply unhold_sound, strip_sound.
  destruct (shed_one_fate st run r i id e Hs He) as [He'|[Hsp ->]].
  - apply IH; [set_solver|done..].
  - destruct (decide (i = id)) as [->|Hi].
    + clear IH. assert (sound (foldl (shed_one run) (shed_one run st id) l) /\ spent (foldl (shed_one run) (shed_one run st id) l) id) as [Hs2 Hsp2].
      { apply (foldl_keeps (fun st => sound st /\ spent st id)); [|done].
        intros st' j [Hs' Hsp']. split; [by apply unhold_sound, strip_sound|by apply unhold_spent, strip_spent]. }
      split; [done|right]. split_and!; [done|done|apply Hl; [by left|done]].
    + exfalso. destruct Hsp as [_ Hn]. specialize (Hn run). unfold shed_one in Hn. simpl in Hn.
      rewrite (proj1 (strip_rest st i)), lookup_delete_ne in Hn by congruence. congruence.
Qed.
Lemma release_fate run ids r id e st st' es : sound st -> NoDup ids -> (forall i, i ∈ ids -> is_Some (claimed st !! (run, i))) ->
  claimed st !! (r, id) = Some e -> release_each (J:=J) run st ids = Ok (st', es) ->
  claimed st' !! (r, id) = Some e /\ ~ (r = run /\ id ∈ ids) \/ ~ marked st' id /\ r = run /\ id ∈ ids.
Proof.
  intros Hs Hnd. revert st st' es Hs. induction Hnd as [|i ids Hi _ IH]; intros st st' es Hs Hin He Hr; simpl in Hr.
  { simplify_eq. left. set_solver. }
  apply result_bind_ok in Hr as ([st1 e1] & H1 & Hr). apply result_bind_ok in Hr as ([st2 e2] & H2 & [= <- <-]).
  pose proof (release_one_claimed _ _ _ _ _ H1) as Hc1.
  assert (sound st1) as Hs1 by (eapply release_one_sound; [done|apply Hin; by left|done]).
  destruct (decide ((run, i) = (r, id))) as [[= -> ->]|Hne].
  - right. split_and!; [|done|by left]. intros Hm. apply (proj2 (release_claims _ _ _ _ _ H2)) in Hm.
    destruct (ro_held _ _ _ _ (so_rows _ Hs) _ _ _ He) as (row & a & Hrow & Hc).
    assert (dead_as row = None) as Hd.
    { destruct (dead_as row) eqn:E; [|done]. assert (claim row = None); [|congruence].
      apply (ro_free _ _ _ _ (so_rows _ Hs) id row Hrow). congruence. }
    destruct (release_one_cases _ _ _ _ _ H1) as [[-> [Hn|(w & Hw & Hdw)]]|(w & Hw & _ & ->)]; [congruence..|].
    destruct Hm as (w' & Hw' & Hcw'). unfold hand_back in Hw'. case_bool_decide; simpl in Hw'; rewrite lookup_insert_eq in Hw';
      by simplify_eq.
  - assert (claimed st1 !! (r, id) = Some e) as He1 by by rewrite Hc1, lookup_delete_ne.
    destruct (IH st1 st2 e2 Hs1) as [[Hk Hni]|[Hm Hr]]; [|done|done|left|right; set_solver].
    + intros j Hj. rewrite Hc1, lookup_delete_ne; [apply Hin; by right|]. intros [= ->]. done.
    + split; [done|]. intros [-> Hx]. apply elem_of_cons in Hx as [->|Hx]; [done|]. tauto.
Qed.

(** A held message stays held, is spent by an operation that sheds or erases
    it, or is handed back. *)
Lemma step_fate st o w id : sound st -> claimed st !! (w.1, id) = Some w.2 ->
  claimed (after st o) !! (w.1, id) = Some w.2 \/
  spent (after st o) id /\ (sheds o w \/ erases o id) \/
  ~ marked (after st o) id /\ hands_back o w.
Proof.
  intros Hs He.
  assert (forall i row w' at_, events st !! i = Some row -> claim row = None \/ claimed st !! (w'.1, i) = Some w'.2 ->
    claimed (claim_event st i row w' at_) !! (w.1, id) = Some w.2) as Hclaim.
  { intros i row [r' e'] at_ Hrow Hc. simpl. destruct (decide ((r', i) = (w.1, id))) as [E|Hne]; [|by rewrite lookup_insert_ne].
    injection E as E1 E2. subst. rewrite lookup_insert_eq. destruct Hc as [Hc|Hc]; [|simpl in Hc; congruence].
    pose proof (unheld_free _ _ _ Hs Hrow Hc w.1). congruence. }
  destruct o as [e at_|s at_|s at_|sealed e at_|run e at_|w'|run un|s at_|sealed limit|source i|older why]; simpl after.
  - left. by destruct (buffer_cases st e at_) as [->|(Hn & p & ->)].
  - left. unfold subscribe. by rewrite (proj1 (register_rest st s at_)).
  - left. destruct (claim_for_cases st s at_ Hs) as [[-> _]|(i & row & _ & Hm & (_ & _ & Hf) & -> & _)]; [done|].
    apply Hclaim; [apply Hm|]. destruct Hf as [[Hf _]|[_ Hf]]; [by left|by right].
  - left. destruct (match_cases sealed st e at_ Hs) as [[-> _]|(w' & r & row & _ & Hrow & Hc & _ & _ & -> & _)]; [done|].
    apply Hclaim; [done|by left].
  - left. destruct (deliver_cases st run e at_) as [[-> _]|[(f & r & row & _ & -> & _)|(f & r & p & _ & Hn & _ & _ & ->)]]; [done..|].
    simpl. rewrite lookup_insert_ne; [done|]. intros [= _ E]. rewrite (unheld_new st id) in He; [done..|congruence].
  - unfold unsubscribe. destruct (shed_fate (drop_wait st w') w'.1 (Some w'.2) w.1 id w.2) as [Hk|(Hsp & Hr & [[= Hx]|])];
      [by apply drop_sound|by rewrite (proj1 (drop_rest st w'))|by left| |done].
    right. left. split; [done|left]. simpl. destruct w, w'. simpl in *. congruence.
  - unfold unsubscribe_run. destruct (drops_rest st run (run_waits st run) Hs) as (Hs1 & Hc1 & He1).
    set (st1 := foldl _ _ _) in *. destruct (release_claimed st1 run un) as [[st2 es]|] eqn:Hr; [|by left]. simpl.
    assert (sound st2) as Hs2.
    { eapply (release_each_keeps (fun _ => True)) in Hr; [tauto|done|apply held_nodup|done|done|].
      intros i (e & Hi & _)%elem_of_held. by rewrite Hi. }
    pose proof Hr as Hr'. eapply release_fate in Hr' as [[Hk Hni]|(Hm & Hx & Hin)];
      [| |done|apply held_nodup| |by rewrite Hc1].
    + destruct (shed_fate st2 run None w.1 id w.2 Hs2 Hk) as [Hk'|(Hsp & Hx & _)]; [by left|].
      right. left. split; [done|left]. split; [done|]. intros Hun. apply Hni. split; [done|]. apply elem_of_held.
      exists w.2. rewrite Hc1, <-Hx. by rewrite bool_decide_true.
    + right. right. split; [|split; [done|]].
      * intros Hm'. by apply marks_shed in Hm'.
      * apply elem_of_held in Hin as (e & Hi & HP). apply bool_decide_eq_true in HP. rewrite Hc1, <-Hx in Hi. congruence.
    + intros i (e & Hi & _)%elem_of_held. by rewrite Hi.
  - left. unfold park_wait. simpl. by rewrite (proj1 (register_rest st s at_)).
  - simpl. set (l := iter_by _ _).
    assert (sound (foldl (retire_sealed sealed) st l) /\ (claimed (foldl (retire_sealed sealed) st l) !! (w.1, id) = Some w.2 \/
      spent (foldl (retire_sealed sealed) st l) id /\ sealed w.1 = true)) as [_ [Hx|[Hx Hy]]]; [|by left|right; left; auto].
    apply (foldl_keeps (fun st' => sound st' /\ (claimed st' !! (w.1, id) = Some w.2 \/ spent st' id /\ sealed w.1 = true)));
      [|split; [done|by left]].
    intros st' w' [Hs' Hor]. unfold retire_sealed. destruct (sealed w'.1) eqn:Hse; [|done].
    split; [by apply shed_sound, drop_sound|]. destruct Hor as [Hk|[Hsp Hsw]].
    + destruct (shed_fate (drop_wait st' w') w'.1 None w.1 id w.2) as [Hk'|(Hsp & Hx & _)];
        [by apply drop_sound|by rewrite (proj1 (drop_rest st' w'))|by left|right; split; [done|congruence]].
    + right. split; [by apply shed_spent, drop_spent|done].
  - destruct (decide (Journal.origin_key source i = id)) as [Hi|Hi].
    + right. left. split; [|by right]. apply (so_erased _ (erase_sound st source i Hs)).
      destruct (ro_held _ _ _ _ (so_rows _ Hs) _ _ _ He) as (row & a & Hrow & _). rewrite <-Hi in Hrow. subst id. clear He.
      unfold erase_payload. rewrite Hrow. cbn zeta. unfold strip_payload. rewrite Hrow.
      destruct (holder_of _ _ _); case_match; unfold dead_letter_as_erased; simpl; rewrite ?lookup_insert_eq; simpl; set_solver.
    + left. unfold erase_payload. destruct (events st !! _) as [row|] eqn:Hrow; [|done]. cbn zeta. unfold strip_payload. rewrite Hrow.
      destruct (holder_of _ _ _); case_match; unfold dead_letter_as_erased; simpl; rewrite ?lookup_insert_eq; simpl;
        rewrite ?lookup_delete_ne by congruence; done.
  - left. destruct (sweep_keeps (fun st' => claimed st' !! (w.1, id) = Some w.2) st older why) as [_ Hx]; [done..| |done].
    intros st' n key _ Hk _. unfold retire. by destruct (events st' !! key.2).
Qed.

(** ** Opening a wait *)
Lemma register_only st s at_ w k : is_Some (subs (register_wait st s at_) !! (w, k)) -> is_Some (subs st !! (w, k)) \/ wait_of s = w.
Proof. destruct (register_subs st s at_ (w, k)) as [->|(_ & Hw & _ & _)]; [by left|by right]. Qed.
Definition opens (st : Mailbox) (o : Op (J:=J)) (w : Wait) : Prop :=
  exists s at_, o = Subscribe s at_ /\ wait_of s = w /\ parked st !! w = None.
Definition registers (o : Op (J:=J)) (w : Wait) : Prop :=
  match o with Subscribe s _ | ParkWait s _ => wait_of s = w | _ => False end.

(** The waits' rows come from registrations; and a wait unparks only as it goes. *)
Definition waits_less (st st' : Mailbox) : Prop :=
  (forall w k, is_Some (subs st' !! (w, k)) -> is_Some (subs st !! (w, k))) /\
  (forall w, open_wait st' w -> open_wait st w).
Lemma waits_same st st' : subs st' = subs st -> parked st' = parked st -> waits_less st st'.
Proof. intros Hs Hp. unfold waits_less, open_wait. by rewrite Hs, Hp. Qed.
Lemma waits_parks st st' : subs st' = subs st -> (forall w, parked st' !! w = None -> parked st !! w = None) -> waits_less st st'.
Proof. intros Hs Hp. unfold waits_less, open_wait. rewrite Hs. naive_solver. Qed.
Lemma waits_trans st1 st2 st3 : waits_less st1 st2 -> waits_less st2 st3 -> waits_less st1 st3.
Proof. intros [] []. split; eauto. Qed.
Lemma waits_dropped st w : waits_less st (drop_wait st w).
Proof.
  assert (forall w' k, is_Some (subs (drop_wait st w) !! (w', k)) -> is_Some (subs st !! (w', k)) /\ w' <> w) as Hd.
  { intros w' k. rewrite drop_subs. simpl. case_decide as Hw; [by intros []|]. by intros Hk. }
  split; [intros w' k Hk; apply (Hd _ _ Hk)|]. intros w' (Hp & k & Hk). destruct (Hd _ _ Hk) as [Hk' Hw].
  rewrite (proj2 (drop_rest st w)), lookup_delete_ne in Hp by done. split; [done|by exists k].
Qed.
Lemma shed_subs st run effect : subs (shed_claimed st run effect) = subs st.
Proof.
  apply (foldl_keeps (fun st' => subs st' = subs st)); [|done]. intros st' id <-. simpl.
  unfold strip_payload. by destruct (events st' !! id).
Qed.
Lemma waits_shed st run effect : waits_less st (shed_claimed st run effect).
Proof. apply waits_same; [apply shed_subs|apply shed_parked]. Qed.
Lemma release_waits run ids st st' es : release_each (J:=J) run st ids = Ok (st', es) -> waits_less st st'.
Proof.
  revert st st' es. induction ids as [|id ids IH]; intros st st' es Hr; simpl in Hr; [by simplify_eq|].
  apply result_bind_ok in Hr as ([st1 e1] & H1 & Hr). apply result_bind_ok in Hr as ([st2 e2] & H2 & [= <- <-]).
  apply (waits_trans _ st1); [|by eapply IH].
  destruct (release_one_cases _ _ _ _ _ H1) as [[-> _]|(row & _ & _ & ->)]; [by apply waits_same|].
  unfold hand_back. case_bool_decide; by apply waits_same.
Qed.
Lemma waits_foldl {A} (f : Mailbox -> A -> Mailbox) l st : (forall st a, waits_less st (f st a)) -> waits_less st (foldl f st l).
Proof.
  intros Hf. apply (foldl_keeps (waits_less st)); [|by apply waits_same]. intros st' a Hl. by eapply waits_trans.
Qed.
Lemma step_opens st o : sound st -> spares_held st o ->
  (forall w k, is_Some (subs (after st o) !! (w, k)) -> is_Some (subs st !! (w, k)) \/ registers o w) /\
  (forall w, open_wait (after st o) w -> open_wait st w \/ opens st o w).
Proof.
  intros Hs Hsp.
  assert (forall st', waits_less st st' -> (forall w k, is_Some (subs st' !! (w, k)) -> is_Some (subs st !! (w, k)) \/ registers o w) /\
    (forall w, open_wait st' w -> open_wait st w \/ opens st o w)) as Hless by (intros st' [Hc Hm]; split; [eauto|by left; apply Hm]).
  assert (forall id row w at_, waits_less st (claim_event st id row w at_)) as Hclaim.
  { intros id row w at_. apply waits_parks; [done|]. intros w'. simpl. by intros [? _]%lookup_insert_None. }
  destruct o as [e at_|s at_|s at_|sealed e at_|run e at_|w|run un|s at_|sealed limit|source id|older why]; simpl after.
  - apply Hless. destruct (buffer_cases st e at_) as [->|(Hn & p & ->)]; by apply waits_same.
  - split; [intros w k; apply register_only|]. intros w [Hp [k Hk]]. unfold subscribe in *.
    rewrite (proj1 (proj2 (register_rest st s at_))) in Hp. apply register_only in Hk as [Hk|Hw]; [left; split; [done|by exists k]|].
    right. by exists s, at_.
  - apply Hless. destruct (claim_for_cases st s at_ Hs) as [[-> _]|(id & row & _ & _ & _ & -> & _)]; [by apply waits_same|apply Hclaim].
  - apply Hless. destruct (match_cases sealed st e at_ Hs) as [[-> _]|(w & r & row & _ & _ & _ & _ & _ & -> & _)]; [by apply waits_same|apply Hclaim].
  - apply Hless. destruct (deliver_cases st run e at_) as [[-> _]|[(f & r & row & _ & -> & _)|(f & r & p & _ & _ & _ & _ & ->)]];
      [by apply waits_same..|]. apply waits_parks; [done|]. intros w'. simpl. by intros [? _]%lookup_insert_None.
  - apply Hless. eapply waits_trans; [apply waits_dropped|apply waits_shed].
  - apply Hless. unfold unsubscribe_run. set (st1 := foldl _ _ _).
    assert (waits_less st st1) as H1 by (apply waits_foldl; intros; apply waits_dropped).
    destruct (release_claimed st1 run un) as [[st2 es]|] eqn:Hr; [|by apply waits_same]. simpl.
    eapply waits_trans; [exact H1|]. eapply waits_trans; [by eapply release_waits|apply waits_shed].
  - split; [intros w k; apply register_only|]. intros w [Hp [k Hk]]. unfold park_wait in *. simpl in *.
    rewrite (proj1 (proj2 (register_rest st s at_))) in Hp. apply lookup_insert_None in Hp as [Hp Hne].
    apply register_only in Hk as [Hk|Hw]; [left; split; [done|by exists k]|done].
  - apply Hless. simpl. apply waits_foldl. intros st' w. unfold retire_sealed. destruct (sealed w.1); [|by apply waits_same].
    eapply waits_trans; [apply waits_dropped|apply waits_shed].
  - apply Hless. apply waits_same; [|by apply (erase_rest (J:=J))]. unfold erase_payload. destruct (events st !! _) as [row|] eqn:Hrow; [|done].
    cbn zeta. unfold strip_payload. rewrite Hrow.
    destruct (holder_of _ _ _); case_match; unfold dead_letter_as_erased; simpl; by rewrite ?lookup_insert_eq.
  - apply Hless. destruct (sweep_keeps (waits_less st) st older why) as [_ Hx]; [done|by apply waits_same| |done].
    intros st' n key _ Hk _. eapply waits_trans; [exact Hk|]. unfold retire. by destruct (events st' !! key.2); apply waits_same.
Qed.

(** ** A wait's rows stay until it goes *)
Definition drops (o : Op (J:=J)) (w : Wait) : Prop :=
  match o with
  | Unsubscribe w' => w = w'
  | UnsubscribeRun run _ => w.1 = run
  | ParkedWaits sealed _ => sealed w.1 = true
  | _ => False
  end.
Definition row_stays (w : Wait) (k : CorrelationKey) (st st' : Mailbox) : Prop :=
  is_Some (subs st !! (w, k)) -> is_Some (subs st' !! (w, k)).
Lemma stays_same w k st st' : subs st' = subs st -> row_stays w k st st'.
Proof. intros Hs. unfold row_stays. by rewrite Hs. Qed.
Lemma stays_register w k st s at_ : row_stays w k st (register_wait st s at_).
Proof. intros Hr. destruct (register_subs st s at_ (w, k)) as [->|(_ & _ & _ & ->)]; [done|by eexists]. Qed.
Lemma stays_dropped w k st w' : w <> w' -> row_stays w k st (drop_wait st w').
Proof. intros Hw Hr. rewrite drop_subs. simpl. by rewrite decide_False. Qed.
Lemma release_subs run ids st st' es : release_each (J:=J) run st ids = Ok (st', es) -> subs st' = subs st.
Proof.
  revert st st' es. induction ids as [|id ids IH]; intros st st' es Hr; simpl in Hr; [by simplify_eq|].
  apply result_bind_ok in Hr as ([st1 e1] & H1 & Hr). apply result_bind_ok in Hr as ([st2 e2] & H2 & [= <- <-]).
  rewrite (IH _ _ _ H2). by destruct (release_one_corr _ _ _ _ _ H1) as (_ & -> & _).
Qed.
Lemma stays_drops w k st run es : w.1 <> run -> row_stays w k st (foldl (fun st e => drop_wait st (run, e)) st es).
Proof.
  intros Hw. apply (foldl_keeps (row_stays w k st)); [|by apply stays_same]. intros st' e Hk Hr. apply stays_dropped; [|by apply Hk].
  by intros ->.
Qed.
Lemma stays_retired sealed w k st l : sealed w.1 = false -> row_stays w k st (foldl (retire_sealed sealed) st l).
Proof.
  intros Hw. apply (foldl_keeps (row_stays w k st)); [|by apply stays_same]. intros st' w' Hk Hr. unfold retire_sealed.
  destruct (sealed w'.1) eqn:Hse; [|by apply Hk]. rewrite shed_subs. apply stays_dropped; [intros ->; congruence|by apply Hk].
Qed.
Lemma step_rows st o w k : sound st -> row_stays w k st (after st o) \/ drops o w.
Proof.
  intros Hs. destruct o as [e at_|s at_|s at_|sealed e at_|run e at_|w'|run un|s at_|sealed limit|source id|older why]; simpl after; simpl drops.
  - left. apply stays_same. by destruct (buffer_cases st e at_) as [->|(_ & p & ->)].
  - left. apply stays_register.
  - left. apply stays_same. by destruct (claim_for_cases st s at_ Hs) as [[-> _]|(id & row & _ & _ & _ & -> & _)].
  - left. apply stays_same. by destruct (match_cases sealed st e at_ Hs) as [[-> _]|(v & r & row & _ & _ & _ & _ & _ & -> & _)].
  - left. apply stays_same. by destruct (deliver_cases st run e at_) as [[-> _]|[(f & r & row & _ & -> & _)|(f & r & p & _ & _ & _ & _ & ->)]].
  - destruct (decide (w = w')) as [|Hw]; [by right|left]. intros Hr. unfold unsubscribe. rewrite shed_subs. by apply stays_dropped.
  - destruct (decide (w.1 = run)) as [|Hw]; [by right|left]. intros Hr. unfold unsubscribe_run.
    pose proof (stays_drops w k st run (run_waits st run) Hw Hr) as H1.
    destruct (release_claimed _ run un) as [[st2 es]|] eqn:Hre; [|done]. simpl. rewrite shed_subs.
    by rewrite (release_subs _ _ _ _ _ Hre).
  - left. apply (stays_register w k st s at_).
  - destruct (sealed w.1) eqn:Hse; [by right|left]. by apply stays_retired.
  - left. apply stays_same. unfold erase_payload. destruct (events st !! _) as [row|] eqn:Hrow; [|done].
    cbn zeta. unfold strip_payload. rewrite Hrow.
    destruct (holder_of _ _ _); case_match; unfold dead_letter_as_erased; simpl; by rewrite ?lookup_insert_eq.
  - left. destruct (sweep_keeps (row_stays w k st) st older why Hs) as [_ Hx]; [by apply stays_same| |done].
    intros st' n key _ Hk _ Hr. apply Hk in Hr. unfold retire. by destruct (events st' !! key.2).
Qed.

(** Whom an operation hands a message has a row; a look is for a key it names. *)
Lemma handed_row st o w id : sound st -> handed st o = Some (w, id) ->
  (exists k, is_Some (subs st !! (w, k))) \/ exists s at_ k, o = ClaimFor s at_ /\ wait_of s = w /\ k ∈ sub_correlation s.
Proof.
  intros Hs Hh. destruct o as [| |s at_|sealed e at_|run e at_| | | | | |]; try done.
  - destruct (claim_for_cases st s at_ Hs) as [[_ Hn]|(i & row & _ & [_ _ _ (k & Hk & _)] & _ & _ & Hi)]; [congruence|].
    right. exists s, at_, k. rewrite Hi in Hh. by simplify_eq.
  - destruct (match_cases sealed st e at_ Hs) as [[_ Hn]|(v & r & row & (_ & _ & _ & _ & k & _ & Hk) & _ & _ & _ & _ & _ & Hi)]; [congruence|].
    left. exists k. rewrite Hi in Hh. simplify_eq. by eexists.
  - left. assert (exists f r, addressee st run e = Some (f, r) /\ w = (run, f)) as (f & r & Ha & ->).
    { destruct (deliver_cases st run e at_) as [[_ Hn]|[(f & r & row & Ha & _ & _ & _ & Hi)|(f & r & p & Ha & _ & _ & Hi & _)]];
        [congruence|exists f, r; split; [done|congruence]..]. }
    apply head_omap_Some in Ha as ([f' k] & _ & Hx). simpl in Hx. destruct (subs st !! _) as [r'|] eqn:Hsub; [|done].
    simpl in Hx. case_match; simplify_eq. exists k. by rewrite Hsub.
Qed.

(** A parked wait with a row, of a run not sealed, is listed. *)
Lemma parked_listed sealed st w k limit : is_Some (parked st !! w) -> is_Some (subs st !! (w, k)) -> sealed w.1 = false ->
  size (parked st) <= limit -> exists s, s ∈ (parked_waits sealed st limit).2 /\ wait_of s = w.
Proof.
  intros Hp Hr Hse Hl. unfold parked_waits. cbn zeta. cbn [snd]. set (l := iter_by wait_cmp _). set (st' := foldl _ _ _).
  assert (is_Some (subs st' !! (w, k))) as Hr' by by apply stays_retired.
  assert (w ∈ l) as Hw by by apply elem_of_iter_by, elem_of_dom.
  assert (length l <= limit) as Hlen.
  { unfold l, iter_by. rewrite merge_sort_Permutation. by rewrite <-size_dom in Hl. }
  destruct (wait_keys st' w) as [|k' ks] eqn:Hks.
  { assert (k ∈ wait_keys st' w) as Hk by by apply elem_of_wait_keys. rewrite Hks in Hk. by apply not_elem_of_nil in Hk. }
  assert (k' ∈ wait_keys st' w) as [r Hk']%elem_of_wait_keys by (rewrite Hks; by left).
  exists (stored_sub st' w (s_kind r) r). split; [|by destruct w]. rewrite take_ge.
  - apply list_elem_of_omap. exists w. split; [by apply list_elem_of_filter|]. by rewrite Hks; simpl; rewrite Hk'.
  - etrans; [apply omap_shorter|]. etrans; [apply length_filter|done].
Qed.
End fate.
