(* ===== verification/Delivery.v ===== *)
(** * Delivery ([src/src/runtime/executor.rs])

    How the executor moves a message from the mailbox into a run's journal:
    [deliver], [deliver_to], the redelivery of claimed messages and the
    retirement of a closed run's waits.  Each is a sequence of transactions on
    two stores; [Act] is one transaction, so a list of acts is any interleaving
    of any number of them, with crashes where a sequence stops.  Of the journal
    a plane keeps which waits were announced, what answered them, and which
    runs are closed or sealed: an append is under the run's lease and fenced
    ([JournalSafety]), so reading the history and appending are one act. *)

From S2P Require Import Prelude Digest EffectKey Index Panel Text Chain Mailbox MailboxSafety MailboxFate.
From S2P Require Journal.

Section delivery.
Context {J : Type} `{EventJson J}.
Abbreviation Event := (InboundEvent (J:=J)).

Record Plane := mk_plane {
  mail : Mailbox;
  started : gset Wait;
  answers : gmap Wait str;
  closed : gset RunId;
  sealed : gset RunId;
  (** Messages some delivery was handed for a wait, recorded or not. *)
  in_hand : gset (Wait * str);
}.
Definition no_plane : Plane := mk_plane no_mail ∅ ∅ ∅ ∅ ∅.
Definition is_sealed (p : Plane) (run : RunId) : bool := bool_decide (run ∈ sealed p).

(** [unanswered_waits]. *)
Definition unanswered (p : Plane) (run : RunId) : list EffectKey :=
  snd <$> filter (fun w => w.1 = run /\ answers p !! w = None) (elements (started p)).

(** ** Acts *)

Definition mailed (p : Plane) (o : Op (J:=J)) : Plane :=
  mk_plane (after (mail p) o) (started p) (answers p) (closed p) (sealed p)
    (match handed (mail p) o with Some x => {[x]} ∪ in_hand p | None => in_hand p end).

Inductive Act :=
| Arrive (e : Event) (at_ : Z)
| Offer (e : Event) (at_ : Z)
| Address (run : RunId) (e : Event) (at_ : Z)
| Register (s : Subscription) (at_ : Z)
| Look (s : Subscription) (at_ : Z)
| Park (s : Subscription) (at_ : Z)
| ListParked (limit : nat)
| Erase (source id : str)
| Sweep (older_than : Z) (why : str)
| Announce (w : Wait)
| RecordAnswer (w : Wait) (id : str)
| Finish (w : Wait)
| Close (run : RunId)
| Reopen (run : RunId)
| Seal (run : RunId)
| Retire (run : RunId).

Definition may_record (p : Plane) (w : Wait) (id : str) : bool :=
  bool_decide ((w, id) ∈ in_hand p) && bool_decide (answers p !! w = None)
  && negb (bool_decide (w.1 ∈ closed p)) && negb (is_sealed p w.1).
Definition act (p : Plane) (a : Act) : Plane :=
  match a with
  | Arrive e at_ => mailed p (Buffer e at_)
  | Offer e at_ => mailed p (MatchWaiter (is_sealed p) e at_)
  | Address run e at_ => mailed p (DeliverTo run e at_)
  | Register s at_ => mailed p (Subscribe s at_)
  | Look s at_ => mailed p (ClaimFor s at_)
  | Park s at_ => mailed p (ParkWait s at_)
  | ListParked limit => mailed p (ParkedWaits (is_sealed p) limit)
  | Erase source id => mailed p (ErasePayload source id)
  | Sweep older why => mailed p (SweepUnclaimed older why)
  | Announce w => if is_sealed p w.1 then p else
      mk_plane (mail p) ({[w]} ∪ started p) (answers p) (closed p) (sealed p) (in_hand p)
  | RecordAnswer w id => if may_record p w id then
      mk_plane (mail p) (started p) (<[w := id]> (answers p)) (closed p) (sealed p) (in_hand p) else p
  | Finish w => match answers p !! w with Some _ => mailed p (Unsubscribe w) | None => p end
  | Close run => mk_plane (mail p) (started p) (answers p) ({[run]} ∪ closed p) (sealed p) (in_hand p)
  | Reopen run => if is_sealed p run then p else
      mk_plane (mail p) (started p) (answers p) (closed p ∖ {[run]}) (sealed p) (in_hand p)
  | Seal run => if bool_decide (run ∈ closed p) then
      mk_plane (mail p) (started p) (answers p) (closed p) ({[run]} ∪ sealed p) (in_hand p) else p
  | Retire run => if is_sealed p run then mailed p (UnsubscribeRun run (unanswered p run)) else p
  end.
Definition acts (p : Plane) (l : list Act) : Plane := foldl act p l.

(** ** The executor's functions, as the acts they make *)

Inductive Delivered := Resumed (run : RunId) | Buffered | DuplicateEvent | NotWaitingHere | Failed (e : StoreError).

(** [busy]: the run's lease stays held past the bounded retries. *)
Definition resume_subscription (busy : RunId -> bool) (p : Plane) (s : Subscription) (id : str) (at_ : Z) : Plane * Delivered :=
  if busy (sub_run s) then (act p (Park s at_), Buffered)
  else
    let was_closed := bool_decide (sub_run s ∈ closed p) || is_sealed p (sub_run s) in
    let p := act p (RecordAnswer (wait_of s) id) in
    if was_closed then (p, Buffered) else (act p (Finish (wait_of s)), Resumed (sub_run s)).
Definition deliver_buffered (busy : RunId -> bool) (p : Plane) (e : Event) (rematch : bool) (at_ : Z) : Plane * Delivered :=
  match (buffer (mail p) e at_).2 with
  | Err err => (act p (Arrive e at_), Failed err)
  | Ok fresh =>
      let p := act p (Arrive e at_) in
      if negb fresh && negb rematch then (p, DuplicateEvent) else
      let sub := (match_waiter (is_sealed p) (mail p) e at_).2 in
      let p := act p (Offer e at_) in
      match sub with
      | None => (p, if fresh then Buffered else DuplicateEvent)
      | Some s => resume_subscription busy p s (dedup_key e) at_
      end
  end.
Definition deliver (busy : RunId -> bool) (p : Plane) (e : Event) (at_ : Z) : option (Plane * Delivered) :=
  if is_reserved_kind (ev_kind e) then None else Some (deliver_buffered busy p e true at_).
Definition deliver_minted (busy : RunId -> bool) (p : Plane) (e : Event) (at_ : Z) : Plane * Delivered :=
  deliver_buffered busy p e false at_.
Definition deliver_addressed (busy : RunId -> bool) (p : Plane) (run : RunId) (e : Event) (at_ : Z) : option (Plane * Delivered) :=
  if is_reserved_kind (ev_kind e) then None else
  let answer := (Mailbox.deliver_to (mail p) run e at_).2 in
  let p := act p (Address run e at_) in
  Some match answer with
       | Err err => (p, Failed err)
       | Ok Duplicate => (p, DuplicateEvent)
       | Ok NotWaiting => (p, NotWaitingHere)
       | Ok (Matched s) => resume_subscription busy p s (dedup_key e) at_
       end.
(** One parked wait of the redelivery pass. *)
Definition redeliver_one (busy : RunId -> bool) (at_ : Z) (p : Plane) (s : Subscription) : Plane :=
  let found := (claim_for (J:=J) (mail p) s at_).2 in
  let p := act p (Look s at_) in
  match found with
  | Ok (Some (e, _)) => (resume_subscription busy p s (dedup_key e) at_).1
  | _ => p
  end.
Definition redeliver_claimed (busy : RunId -> bool) (p : Plane) (limit : nat) (at_ : Z) : Plane :=
  let listed := (parked_waits (is_sealed p) (mail p) limit).2 in
  foldl (redeliver_one busy at_) (act p (ListParked limit)) listed.
Definition offer_released (busy : RunId -> bool) (at_ : Z) (p : Plane) (e : Event) : Plane :=
  let sub := (match_waiter (is_sealed p) (mail p) e at_).2 in
  let p := act p (Offer e at_) in
  match sub with
  | None => p
  | Some s => (resume_subscription busy p s (dedup_key e) at_).1
  end.
Definition retire_waits (busy : RunId -> bool) (p : Plane) (run : RunId) (at_ : Z) : Plane :=
  let released := match (unsubscribe_run (J:=J) (mail p) run (unanswered p run)).2 with Ok (_, es) => es | Err _ => [] end in
  foldl (offer_released busy at_) (act p (Retire run)) released.
(** The wait's own pass: announce, register, look, and record what is there. *)
Definition wait_on (p : Plane) (s : Subscription) (at_ : Z) : Plane * option str :=
  let p := act (act p (Announce (wait_of s))) (Register s at_) in
  let found := (claim_for (J:=J) (mail p) s at_).2 in
  let p := act p (Look s at_) in
  match found with
  | Ok (Some (e, _)) => (act (act p (RecordAnswer (wait_of s) (dedup_key e))) (Finish (wait_of s)), Some (dedup_key e))
  | _ => (p, None)
  end.

(** ** A message is recorded once *)

(** A delivery that may still record what it was handed. *)
Definition open_hand (p : Plane) (w : Wait) (id : str) : Prop :=
  (w, id) ∈ in_hand p /\ answers p !! w = None /\ w.1 ∉ sealed p.
Definition held_or_spent (st : Mailbox) (w : Wait) (id : str) : Prop :=
  claimed st !! (w.1, id) = Some w.2 \/ spent st id.
Record orderly (p : Plane) : Prop := {
  or_sound : sound (mail p);
  or_open w id : open_hand p w id -> held_or_spent (mail p) w id /\ forall w', answers p !! w' <> Some id;
  or_alone w w' id : open_hand p w id -> open_hand p w' id -> w = w';
  or_answer w id : answers p !! w = Some id -> held_or_spent (mail p) w id;
  or_once w w' id : answers p !! w = Some id -> answers p !! w' = Some id -> w = w';
}.
Lemma no_plane_orderly : orderly no_plane.
Proof. split; [apply no_mail_sound|..]; unfold open_hand; simpl; intros *; try set_solver; by rewrite lookup_empty. Qed.

Lemma held_alone st w w' id : sound st -> claimed st !! (w.1, id) = Some w.2 -> held_or_spent st w' id -> w = w'.
Proof.
  intros Hs Hw [Hw'|[_ Hn]]; [|by rewrite Hn in Hw]. pose proof (sole_holder _ _ _ _ _ _ Hs Hw Hw') as Hr.
  destruct w, w'. simpl in *. subst. congruence.
Qed.
(** A hand-back is of a sealed run's unanswered waits. *)
Definition hands_fairly (p : Plane) (o : Op (J:=J)) : Prop :=
  forall w, hands_back o w -> w.1 ∈ sealed p /\ answers p !! w = None.
Lemma held_or_spent_step p o w id : sound (mail p) -> hands_fairly p o -> answers p !! w <> None \/ w.1 ∉ sealed p ->
  held_or_spent (mail p) w id -> held_or_spent (after (mail p) o) w id.
Proof.
  intros Hs Hf Hor [He|Hsp]; [|right; by apply step_spent].
  destruct (step_fate _ o _ _ Hs He) as [Hk|[[Hsp _]|[_ Hb]]]; [by left|by right|]. apply Hf in Hb. naive_solver.
Qed.
Lemma in_hand_mailed p o w id : (w, id) ∈ in_hand (mailed p o) -> (w, id) ∈ in_hand p \/ handed (mail p) o = Some (w, id).
Proof. unfold mailed. simpl. destruct (handed (mail p) o) as [x|]; [|by left]. set_solver. Qed.
Lemma mailed_orderly p o : orderly p -> hands_fairly p o -> orderly (mailed p o).
Proof.
  intros [Hs Hop Hal Han Hon] Hf.
  assert (forall w id, handed (mail p) o = Some (w, id) ->
    claimed (after (mail p) o) !! (w.1, id) = Some w.2 /\ forall w', held_or_spent (mail p) w' id -> w' = w) as Hnew.
  { intros w id Hh. destruct (handed_holds _ _ _ _ Hs Hh) as [Ha Hb]. split; [done|]. intros w' Hw'.
    destruct Hb as [Hb|(Hn & _)]; [symmetry; by eapply held_alone|]. exfalso.
    destruct Hw' as [Hw'|Hw']; [by rewrite Hn in Hw'|]. by apply (step_spent _ o id Hs Hw') in Hh. }
  assert (forall w id, open_hand (mailed p o) w id -> open_hand p w id \/ handed (mail p) o = Some (w, id)) as Hold.
  { intros w id (Hi & Ha & Hse). apply in_hand_mailed in Hi as [Hi|Hi]; [by left|by right]. }
  split; simpl; [by apply step_sound| | |intros w id Hw; apply held_or_spent_step; auto; left; congruence|done].
  - intros w id Ho. pose proof Ho as (_ & Hna & Hse). destruct (Hold _ _ Ho) as [Ho'|Hh].
    + destruct (Hop _ _ Ho') as [Hhs Hno]. split; [|done]. apply held_or_spent_step; auto.
    + destruct (Hnew _ _ Hh) as [Hc Hsole]. split; [by left|]. intros w' Hw'. pose proof (Hsole _ (Han _ _ Hw')). subst.
      simpl in Hna. congruence.
  - intros w w' id Ho Ho'. destruct (Hold _ _ Ho) as [H1|H1], (Hold _ _ Ho') as [H2|H2]; [by eapply Hal| | |congruence].
    + destruct (Hnew _ _ H2) as [_ Hsole]. apply Hsole, (Hop _ _ H1).
    + destruct (Hnew _ _ H1) as [_ Hsole]. symmetry. apply Hsole, (Hop _ _ H2).
Qed.
Lemma fair_but_run p o : (forall run un, o <> UnsubscribeRun run un) -> hands_fairly p o.
Proof. intros Hn w. destruct o; try done. naive_solver. Qed.
Lemma elem_of_unanswered p run e : e ∈ unanswered p run <-> (run, e) ∈ started p /\ answers p !! (run, e) = None.
Proof.
  unfold unanswered. rewrite list_elem_of_fmap. setoid_rewrite list_elem_of_filter. setoid_rewrite elem_of_elements. split.
  - intros ([r e'] & -> & [Hr Ha] & Hs). simpl in *. by subst.
  - intros [Hs Ha]. by exists (run, e).
Qed.
Lemma retire_fair p run : run ∈ sealed p -> hands_fairly p (UnsubscribeRun run (unanswered p run)).
Proof. intros Hse [r e] [Hr [_ Hu]%elem_of_unanswered]. simpl in *. by subst. Qed.

(** The same mailbox and answers, with no more hands open. *)
Lemma orderly_same p p' : orderly p -> mail p' = mail p -> answers p' = answers p ->
  (forall w id, open_hand p' w id -> open_hand p w id) -> orderly p'.
Proof. intros [Hs Hop Hal Han Hon] Hm Ha Hi. split; rewrite ?Hm, ?Ha; eauto. Qed.
Lemma orderly_record p w id : orderly p -> may_record p w id = true -> orderly
  (mk_plane (mail p) (started p) (<[w := id]> (answers p)) (closed p) (sealed p) (in_hand p)).
Proof.
  intros [Hs Hop Hal Han Hon]. unfold may_record, is_sealed. rewrite !andb_true_iff, !negb_true_iff, !bool_decide_eq_true, !bool_decide_eq_false.
  intros [[[Hi Hn] _] Hse]. assert (open_hand p w id) as Ho by done. destruct (Hop _ _ Ho) as [Hhs Hno].
  assert (forall w' i, open_hand (mk_plane (mail p) (started p) (<[w := id]> (answers p)) (closed p) (sealed p) (in_hand p)) w' i ->
    open_hand p w' i /\ w' <> w) as Hold.
  { intros w' i (Hi' & Ha & Hse'). simpl in *. apply lookup_insert_None in Ha as [Ha Hne]. by split. }
  split; simpl; [done| | | |].
  - intros w' i [Ho' Hne]%Hold. destruct (Hop _ _ Ho') as [Hhs' Hno']. split; [done|]. intros w''.
    rewrite lookup_insert_Some. intros [[<- <-]|[_ Hw'']]; [|by apply Hno' in Hw'']. by apply Hne, (Hal _ _ _ Ho').
  - intros w' w'' i [Ho' _]%Hold [Ho'' _]%Hold. by eapply Hal.
  - intros w' i. rewrite lookup_insert_Some. intros [[<- <-]|[_ Hw']]; [done|by apply Han].
  - intros w' w'' i. rewrite !lookup_insert_Some. intros [[<- <-]|[_ Hw']] [[<- ?]|[_ Hw'']]; subst; try done.
    + by apply Hno in Hw''.
    + by apply Hno in Hw'.
    + by eapply Hon.
Qed.
Lemma act_orderly p a : orderly p -> orderly (act p a).
Proof.
  intros Hp. destruct a; simpl; try (by apply mailed_orderly; [|apply fair_but_run]).
  - case_match; [done|]. by eapply orderly_same.
  - destruct (may_record p w id) eqn:Hm; [by apply orderly_record|done].
  - case_match; [|done]. by apply mailed_orderly, fair_but_run.
  - by eapply orderly_same.
  - case_match; [done|]. by eapply orderly_same.
  - case_match; [|done]. eapply orderly_same; [done..|]. unfold open_hand. simpl. set_solver.
  - unfold is_sealed. case_bool_decide as Hse; [|done]. by apply mailed_orderly, retire_fair.
Qed.

(** C8. A message is recorded as the answer of one wait: whatever deliveries,
    redeliveries, looks, erasures, closings and retirements interleave, and
    wherever one of them stops, no two waits have the same message in their
    journal. *)
Theorem recorded_once l w w' id : let p := acts no_plane l in
  answers p !! w = Some id -> answers p !! w' = Some id -> w = w'.
Proof. intros p. assert (orderly p) as Hp by exact (foldl_keeps orderly act l _ act_orderly no_plane_orderly). apply Hp. Qed.

(** ** Nothing is consumed unread *)

(** The discipline: only announced waits are registered, looked for and parked;
    a wait looks under keys it is registered for, its run not being sealed; a
    wait that has its answer is not opened again; a sealed run is listed after
    its unanswered waits have handed back what they held; and nothing held is
    erased. *)
Definition registered (p : Plane) (s : Subscription) : Prop :=
  (wait_of s).1 ∈ sealed p \/ forall k, k ∈ sub_correlation s -> is_Some (subs (mail p) !! (wait_of s, k)).
Definition still_due (p : Plane) (w : Wait) : Prop :=
  w ∈ started p /\ (answers p !! w = None \/ is_Some (parked (mail p) !! w)).
Definition careful (p : Plane) (a : Act) : Prop :=
  match a with
  | Register s _ => still_due p (wait_of s)
  | Look s _ => still_due p (wait_of s) /\ registered p s
  | Park s _ => wait_of s ∈ started p
  | ListParked _ => forall w id, is_sealed p w.1 = true -> claimed (mail p) !! (w.1, id) = Some w.2 -> answers p !! w <> None
  | Erase source id => spares_held (mail p) (ErasePayload (J:=J) source id)
  | _ => True
  end.
Fixpoint all_careful (p : Plane) (l : list Act) : Prop :=
  match l with [] => True | a :: l => careful p a /\ all_careful (act p a) l end.

Record complete (p : Plane) : Prop := {
  co_sound : sound (mail p);
  co_single : single (mail p);
  co_held w id : claimed (mail p) !! (w.1, id) = Some w.2 -> w ∈ started p;
  co_subs w k : is_Some (subs (mail p) !! (w, k)) -> w ∈ started p;
  co_shut w : answers p !! w <> None -> ~ open_wait (mail p) w;
  co_own w id j : answers p !! w = Some id -> claimed (mail p) !! (w.1, j) = Some w.2 -> j = id;
  co_read id : consumed (mail p) id -> exists w, answers p !! w = Some id;
  co_open w id : open_hand p w id -> claimed (mail p) !! (w.1, id) = Some w.2;
  co_row w id : claimed (mail p) !! (w.1, id) = Some w.2 -> w.1 ∉ sealed p -> exists k, is_Some (subs (mail p) !! (w, k));
}.
Lemma no_plane_complete : complete no_plane.
Proof.
  split; [apply no_mail_sound|split; done|..]; unfold open_hand, open_wait; simpl; try set_solver.
  all: intros; try (by rewrite lookup_empty in *). by match goal with H : consumed _ _ |- _ => destruct H as [(row & Hrow & _) _] end.
Qed.

(** What an operation must satisfy, given what is announced and answered. *)
Record proper (p : Plane) (o : Op (J:=J)) : Prop := {
  pr_spares : spares_held (mail p) o;
  pr_sheds w id : sheds o w -> claimed (mail p) !! (w.1, id) = Some w.2 -> answers p !! w <> None;
  pr_hands : hands_fairly p o;
  pr_look s at_ : o = ClaimFor s at_ -> still_due p (wait_of s) /\ registered p s;
  pr_drops w : drops o w -> o = Unsubscribe w \/ w.1 ∈ sealed p;
  pr_register w : registers o w -> w ∈ started p;
  pr_opens w : opens (mail p) o w -> answers p !! w = None;
}.
Lemma mailed_complete p o : complete p -> proper p o -> complete (mailed p o).
Proof.
  intros [Hs Hsi Hhe Hsu Hsh Hown Hre Hop Hrow] [Hsp Hshed Hha Hlo Hdr Hreg Hopens].
  destruct (step_claims _ o Hs) as [Hcl Hmk]. destruct (step_opens _ o Hs Hsp) as [Hrows Hopen].
  assert (forall w id, handed (mail p) o = Some (w, id) -> claimed (mail p) !! (w.1, id) = Some w.2 \/
    w ∈ started p /\ answers p !! w = None /\ parked (mail p) !! w = None) as Hnew.
  { intros w id Hh. destruct (handed_holds _ _ _ _ Hs Hh) as [_ [Hc|(_ & Hpk & Hor)]]; [by left|right].
    destruct Hor as [(s & at_ & Ho & <-)|Hopn].
    - destruct (Hlo _ _ Ho) as [[Hst [Hn|Hpk']] _]; [done|]. rewrite Hpk in Hpk'. by destruct Hpk'.
    - destruct Hopn as [Hp' [k Hk]]. split_and!; [by eapply Hsu| |done].
      destruct (answers p !! w) eqn:Ha; [|done]. exfalso. apply (Hsh w); [congruence|]. split; [done|by exists k]. }
  split; simpl; [by apply step_sound|by apply step_single| | | | | | |].
  - intros w id Hc. apply Hcl in Hc as [Hc|Hh]; [by eapply Hhe|]. rewrite <-surjective_pairing in Hh.
    destruct (Hnew _ _ Hh) as [Hc|[? _]]; [by eapply Hhe|done].
  - intros w k [Hk|Hk]%Hrows; [by eapply Hsu|by apply Hreg].
  - intros w Ha [Ho|Ho]%Hopen; [by eapply Hsh|by apply Ha, Hopens].
  - intros w id j Ha Hc. apply Hcl in Hc as [Hc|Hh]; [by eapply Hown|]. rewrite <-surjective_pairing in Hh.
    destruct (Hnew _ _ Hh) as [Hc|(_ & ? & _)]; [by eapply Hown|congruence].
  - intros id [Hm0 Hn]. destruct (Hmk _ Hm0) as [Hm|[w Hh]].
    + destruct (marked_cases _ _ Hs Hm) as [[w He]|Hco]; [|by apply Hre].
      destruct (step_fate _ o w id Hs He) as [Hk|[[_ [Hshd|Her]]|[Hnm _]]].
      * by rewrite Hn in Hk.
      * pose proof (Hshed _ _ Hshd He) as Ha. destruct (answers p !! w) as [i|] eqn:Hi; [|done].
        exists w. by rewrite (Hown _ _ _ Hi He).
      * destruct o; try done. simpl in Her, Hsp. subst. by rewrite Hsp in He.
      * exfalso. apply Hnm. exact Hm0.
    + apply handed_holds in Hh as [Hc _]; [|done]. by rewrite Hn in Hc.
  - intros w id (Hi & Ha & Hse). apply in_hand_mailed in Hi as [Hi|Hh]; [|by eapply handed_holds].
    assert (claimed (mail p) !! (w.1, id) = Some w.2) as He by by apply Hop.
    destruct (step_fate _ o _ _ Hs He) as [Hk|[[_ [Hshd|Her]]|[_ Hb]]]; [done|..].
    + by destruct (Hshed _ _ Hshd He).
    + destruct o; try done. simpl in Her, Hsp. subst. by rewrite Hsp in He.
    + apply Hha in Hb. naive_solver.
  - intros w id Hc Hse. assert (exists k, is_Some (subs (mail p) !! (w, k))) as [k Hk].
    { pose proof Hc as Hc'. apply Hcl in Hc' as [Hc'|Hh]; [by eapply Hrow|]. rewrite <-surjective_pairing in Hh.
      destruct (handed_row _ _ _ _ Hs Hh) as [Hk|(s & at_ & k & Ho & <- & Hk)]; [done|].
      destruct (Hlo _ _ Ho) as [_ [|Hr]]; [done|]. exists k. by apply Hr. }
    exists k. destruct (step_rows (mail p) o w k Hs) as [Hst|[->|]%Hdr]; [by apply Hst| |done].
    exfalso. simpl in Hc. unfold unsubscribe in Hc. apply shed_lookup in Hc as [_ Hne]. by apply Hne.
Qed.

(** The same mailbox, with more announced and no more hands open. *)
Lemma complete_same p p' : complete p -> mail p' = mail p -> answers p' = answers p -> started p ⊆ started p' ->
  sealed p ⊆ sealed p' -> (forall w id, open_hand p' w id -> open_hand p w id) -> complete p'.
Proof. intros [Hs Hsi Hhe Hsu Hsh Hown Hre Hop Hrow] Hm Ha Hst Hse Hi. split; rewrite ?Hm, ?Ha; eauto. Qed.
Lemma complete_record p w id : complete p -> orderly p -> may_record p w id = true -> complete
  (mk_plane (mail p) (started p) (<[w := id]> (answers p)) (closed p) (sealed p) (in_hand p)).
Proof.
  intros [Hs Hsi Hhe Hsu Hsh Hown Hre Hop Hrow] Hor. unfold may_record, is_sealed.
  rewrite !andb_true_iff, !negb_true_iff, !bool_decide_eq_true, !bool_decide_eq_false. intros [[[Hi Hn] _] Hse].
  assert (claimed (mail p) !! (w.1, id) = Some w.2) as Hc by by apply Hop.
  split; simpl; [done|done|done|done| | | | |done].
  - intros w' Ha [Hpk Hk]. destruct (decide (w = w')) as [<-|Hne]; [|rewrite lookup_insert_ne in Ha by done; by eapply Hsh].
    destruct w as [r e]. destruct (si_parked _ Hsi _ _ _ Hc) as [t Ht]. simpl in Ht. congruence.
  - intros w' i j. rewrite lookup_insert_Some. intros [[<- <-]|[_ Ha]] Hj; [|by eapply Hown].
    by eapply (si_one _ Hsi).
  - intros i [w' Hw']%Hre. exists w'. rewrite lookup_insert_ne; [done|congruence].
  - intros w' i (Hi' & Ha & Hse'). simpl in *. apply lookup_insert_None in Ha as [Ha _]. by apply Hop.
Qed.
Lemma plain_proper p o : spares_held (mail p) o -> (forall w, ~ sheds o w) -> (forall w, ~ drops o w) -> hands_fairly p o ->
  (forall w, ~ registers o w) -> (forall s at_, o <> ClaimFor s at_) -> proper p o.
Proof.
  intros Hsp Hsh Hd Hh Hr Hl. split; try done.
  - intros w id Hw. by apply Hsh in Hw.
  - intros s at_ Ho. by apply Hl in Ho.
  - intros w Hw. by apply Hd in Hw.
  - intros w Hw. by apply Hr in Hw.
  - intros w (s & at_ & -> & Hw & _). by apply (Hr w) in Hw.
Qed.
Lemma act_proper p a : complete p -> careful p a -> match a with
  | Arrive e at_ => proper p (Buffer e at_)
  | Offer e at_ => proper p (MatchWaiter (is_sealed p) e at_)
  | Address run e at_ => proper p (DeliverTo run e at_)
  | Register s at_ => proper p (Subscribe s at_)
  | Look s at_ => proper p (ClaimFor s at_)
  | Park s at_ => proper p (ParkWait s at_)
  | ListParked limit => proper p (ParkedWaits (is_sealed p) limit)
  | Erase source id => proper p (ErasePayload source id)
  | Sweep older why => proper p (SweepUnclaimed older why)
  | Finish w => answers p !! w <> None -> proper p (Unsubscribe w)
  | Retire run => run ∈ sealed p -> proper p (UnsubscribeRun run (unanswered p run))
  | _ => True
  end.
Proof.
  intros Hp Hc. destruct a; simpl in Hc; try done;
    try (by apply plain_proper; [|intros ? []|intros ? []|apply fair_but_run|intros ? []|]).
  - split; try done; [intros w <-; apply Hc|].
    intros w (s' & at' & [= <- <-] & <- & Hpk). destruct Hc as [_ [Hn|Hpk']]; [done|]. rewrite Hpk in Hpk'. by destruct Hpk'.
  - split; try done; [|by intros w (? & ? & ? & _)]. by intros s' at' [= <- <-].
  - split; try done; [by intros w <-|by intros w (? & ? & ? & _)].
  - split; try done; [|by intros w (? & ? & ? & _)]. intros w Hse. right. by apply bool_decide_eq_true in Hse.
  - intros Ha. split; try done; [by intros w' id ->|intros w' Hw; left; simpl in Hw; by subst|by intros w' (? & ? & ? & _)].
  - intros Hse. split; try done; [|by apply retire_fair|intros w' Hw; right; simpl in Hw; by subst|by intros w' (? & ? & ? & _)].
    intros [r e] id [Hr Hn] He Ha. simpl in *. subst. apply Hn, elem_of_unanswered. split; [|done].
    by apply (co_held _ Hp (run, e) id).
Qed.
Lemma act_complete p a : orderly p -> complete p -> careful p a -> complete (act p a).
Proof.
  intros Hor Hp Hc. pose proof (act_proper p a Hp Hc) as Hpr. destruct a; simpl; try (by apply mailed_complete).
  - case_match; [done|]. eapply complete_same; try done; simpl; set_solver.
  - destruct (may_record p w id) eqn:Hm; [by apply complete_record|done].
  - case_match eqn:Ha; [|done]. apply mailed_complete; [done|]. apply Hpr. congruence.
  - by eapply complete_same.
  - case_match; [done|]. by eapply complete_same.
  - case_match; [|done]. eapply complete_same; try done; unfold open_hand; simpl; set_solver.
  - unfold is_sealed. case_bool_decide as Hse; [|done]. by apply mailed_complete, Hpr.
Qed.

(** C9. No message is consumed unread: under the discipline, a message that is
    gone from the mailbox is in the journal as a wait's answer; and one handed
    for a wait that still has none, in a run not sealed, is still held for that
    wait, which is parked and is in what the redelivery pass lists, whenever
    its limit is at least what is parked. *)
Theorem nothing_lost l : all_careful no_plane l -> let p := acts no_plane l in
  (forall id, consumed (mail p) id -> exists w, answers p !! w = Some id) /\
  (forall w id, open_hand p w id ->
    claimed (mail p) !! (w.1, id) = Some w.2 /\ is_Some (parked (mail p) !! w) /\
    forall limit, size (parked (mail p)) <= limit ->
      exists s, s ∈ (parked_waits (is_sealed p) (mail p) limit).2 /\ wait_of s = w).
Proof.
  intros Hl. assert (forall p, orderly p -> complete p -> all_careful p l -> complete (acts p l)) as Hgen.
  { clear Hl. induction l as [|a l IH]; intros p Hor Hp Hl; [done|]. destruct Hl as [Ha Hl].
    apply IH; [by apply act_orderly|by apply act_complete|done]. }
  destruct (Hgen no_plane no_plane_orderly no_plane_complete Hl) as [Hs Hsi _ _ _ _ Hre Hop Hrow]. split; [done|].
  intros [r e] id Ho. pose proof (Hop _ _ Ho) as Hc. pose proof (si_parked _ Hsi r id e Hc) as Hp. split_and!; [done..|].
  intros limit. destruct (Hrow _ _ Hc) as [k Hk]; [apply Ho|]. apply (parked_listed _ _ _ k); [done..|].
  by apply bool_decide_eq_false, Ho.
Qed.
End delivery.
