(* ===== verification/DeliveryRuns.v ===== *)
(** * Deliveries, run ([src/src/runtime/executor.rs], [src/src/store/redb_events.rs])

    Concrete histories of [Mailbox] and [Delivery]: the theorems applied, and
    the three histories in which a message is consumed without being read. *)

From S2P Require Import Prelude Digest EffectKey Index Panel Text Chain Mailbox MailboxSafety MailboxMeet MailboxFate Delivery.
From S2P Require Journal.

#[local] Instance hash : Sha256 := toy_hash.
(** Payloads are their own text. *)
#[local] Instance plain_json : EventJson (J:=str) := {
  payload_text j := Ok j;
  payload_of s := Ok s;
}.
#[local] Instance plain_laws : EventJsonLaws (J:=str).
Proof. split; [by intros j s [= ->]|done]. Qed.

Definition order : CorrelationKey := (lit "order", lit "7").
Definition run1 : RunId := lit "run-1".
Definition effect (n : N) : EffectKey := derive 1%N Forward n 1%N (lit "await") [].
Definition wait (n : N) : Subscription := mk_sub run1 None (effect n) 1%N Forward (lit "paid") [order] None.
Definition msg (id : string) : InboundEvent (J:=str) :=
  mk_event (lit "shop") (lit id) (lit "paid") [order] (lit "9 euro") None.
Definition name (id : string) : str := dedup_key (msg id).

(** ** The mailbox *)
Definition nobody (_ : RunId) : bool := false.
Definition met : list (Op (J:=str)) :=
  [Buffer (msg "a") 1; Subscribe (wait 0) 2; MatchWaiter nobody (msg "a") 3; ClaimFor (wait 0) 4; Buffer (msg "b") 5;
   MatchWaiter nobody (msg "b") 6].
Definition holds (st : Mailbox) (n : N) (id : string) : bool := bool_decide (claimed st !! (run1, name id) = Some (effect n)).

Lemma one_message_per_wait_witness : holds (run_ops no_mail met) 0 "a" = true /\
  forall j, claimed (run_ops no_mail met) !! (run1, j) = Some (effect 0) -> name "a" = j.
Proof.
  split; [by vm_compute|]. intros j. apply (one_message_per_wait met) with (o := ClaimFor (wait 0) 7).
  - repeat (split; [exact I|]). exact I.
  - apply (bool_decide_unpack _). by vm_compute.
Defined.

(** Consumption, decided. *)
Definition gone (st : Mailbox) (id : str) : bool :=
  match events st !! id with Some row => negb (bool_decide (claim row = None)) | None => false end
  && forallb (fun x => negb (bool_decide (x.1.2 = id))) (map_to_list (claimed st)).
Lemma gone_ok st id : gone st id = true -> consumed st id.
Proof.
  unfold gone. rewrite andb_true_iff, forallb_forall. intros [Hrow Hcl]. split.
  - destruct (events st !! id) as [row|]; [|done]. exists row. split; [done|]. by apply negb_true_iff, bool_decide_eq_false in Hrow.
  - intros r. destruct (claimed st !! (r, id)) as [e|] eqn:He; [|done].
    apply elem_of_map_to_list, list_elem_of_In, Hcl in He. simpl in He. by rewrite bool_decide_true in He.
Qed.
Definition met_and_done : list (Op (J:=str)) := met ++ [Unsubscribe (wait_of (wait 0))].
Lemma consumed_once_witness : gone (run_ops no_mail met_and_done) (name "a") = true /\
  handed (run_ops (run_ops no_mail met_and_done) [Subscribe (wait 1) 8]) (ClaimFor (wait 1) 9) <> Some (wait_of (wait 1), name "a").
Proof. split; [by vm_compute|]. apply (consumed_once met_and_done). left. apply gone_ok. by vm_compute. Defined.

Lemma no_lost_wakeup_witness : holds (run_ops no_mail met) 0 "a" = true /\
  forall id row w k r, ~ apart (run_ops no_mail met) id row w k r.
Proof.
  split; [by vm_compute|]. intros id row w k r. apply (no_lost_wakeup met).
  - repeat split; try exact I.
    + intros _. exists nobody, 3%Z. right. left.
    + exists 4%Z. right. left.
    + intros _. exists nobody, 6%Z. left.
  - repeat constructor.
  - intros sealed e at_ Hin. repeat (apply elem_of_cons in Hin as [Hin|Hin]; [try discriminate Hin; by injection Hin as -> _ _|]).
    by apply not_elem_of_nil in Hin.
Defined.

(** ** The plane *)

Definition w0 : Wait := wait_of (wait 0).
Definition w1 : Wait := wait_of (wait 1).
(** A wait opened, a message delivered for it, redelivered after a stop, and
    recorded. *)
Definition delivered : list (Act (J:=str)) :=
  [Announce w0; Register (wait 0) 1; Look (wait 0) 2; Arrive (msg "a") 3; Offer (msg "a") 4; Arrive (msg "b") 5;
   ListParked 10; Look (wait 0) 6; RecordAnswer w0 (name "a"); Finish w0].
Definition answered (p : Plane) (w : Wait) (id : str) : bool := bool_decide (answers p !! w = Some id).
Lemma answered_ok p w id : answered p w id = true -> answers p !! w = Some id.
Proof. apply bool_decide_eq_true_1. Qed.

Lemma recorded_once_witness : answered (acts no_plane delivered) w0 (name "a") = true /\
  forall w, answers (acts no_plane delivered) !! w = Some (name "a") -> w0 = w.
Proof.
  assert (answered (acts no_plane delivered) w0 (name "a") = true) as Ha by by vm_compute. split; [exact Ha|].
  intros w. apply (recorded_once delivered). apply answered_ok, Ha.
Defined.

Definition dueb (p : Plane) (w : Wait) : bool := bool_decide (w ∈ started p) && bool_decide (answers p !! w = None).
Lemma due_ok p w : dueb p w = true -> still_due p w.
Proof. unfold dueb. rewrite andb_true_iff, !bool_decide_eq_true. intros [Hs Ha]. split; [done|by left]. Qed.
Definition wakeb (p : Plane) : bool := bool_decide (sealed p = ∅).
Lemma wake_ok p limit : wakeb p = true -> careful p (ListParked (J:=str) limit).
Proof.
  unfold wakeb, careful, is_sealed. rewrite bool_decide_eq_true. intros -> w id Hse.
  by rewrite bool_decide_false in Hse by set_solver.
Qed.
Definition lookb (p : Plane) (s : Subscription) : bool :=
  dueb p (wait_of s) && forallb (fun k => bool_decide (is_Some (subs (mail p) !! (wait_of s, k)))) (sub_correlation s).
Lemma look_ok p s at_ : lookb p s = true -> careful p (Look (J:=str) s at_).
Proof.
  unfold lookb. rewrite andb_true_iff, forallb_forall. intros [Hd Hk]. split; [by apply due_ok|right].
  intros k Hin. eapply bool_decide_eq_true_1, Hk. by apply list_elem_of_In.
Qed.
Definition openb (p : Plane) (w : Wait) (id : str) : bool :=
  bool_decide ((w, id) ∈ in_hand p) && bool_decide (answers p !! w = None) && bool_decide (w.1 ∉ sealed p).
Lemma open_ok p w id : openb p w id = true -> open_hand p w id.
Proof. unfold openb. rewrite !andb_true_iff, !bool_decide_eq_true. by intros [[? ?] ?]. Qed.
Ltac carefully := repeat match goal with
  | |- all_careful _ (_ :: _) => split
  | |- careful _ (ListParked _) => apply wake_ok; vm_compute; reflexivity
  | |- careful _ (Look _ _) => apply look_ok; vm_compute; reflexivity
  | |- careful _ _ => first [exact I | apply due_ok; vm_compute; reflexivity]
  | |- all_careful _ [] => exact I
  end.
(** The delivery of [a] stopped before recording it. *)
Definition stopped : list (Act (J:=str)) := take 7 delivered.
Lemma nothing_lost_witness : gone (mail (acts no_plane delivered)) (name "a") = true /\
  (exists w, answers (acts no_plane delivered) !! w = Some (name "a")) /\
  exists s, s ∈ (parked_waits (is_sealed (acts no_plane stopped)) (mail (acts no_plane stopped)) 1).2 /\ wait_of s = w0.
Proof.
  assert (gone (mail (acts no_plane delivered)) (name "a") = true) as Hg by by vm_compute. split_and!; [exact Hg|..].
  - apply (nothing_lost delivered); [unfold delivered; carefully|by apply gone_ok].
  - apply (nothing_lost stopped) with (id := name "a"); [unfold stopped, delivered; simpl take; carefully| |].
    + apply open_ok. by vm_compute.
    + apply Nat.leb_le. by vm_compute.
Defined.

(** ** Three histories that lose a message *)

(** Consumed, and in nobody's journal. *)
Definition unread (p : Plane) (id : str) : bool :=
  gone (mail p) id && forallb (fun x => negb (bool_decide (x.2 = id))) (map_to_list (answers p)).
Definition lost (p : Plane) (id : str) : Prop := consumed (mail p) id /\ forall w, answers p !! w <> Some id.
Lemma unread_ok p id : unread p id = true -> lost p id.
Proof.
  unfold unread. rewrite andb_true_iff, forallb_forall. intros [Hg Hall]. split; [by apply gone_ok|]. intros w Hw.
  apply elem_of_map_to_list, list_elem_of_In, Hall in Hw. simpl in Hw. by rewrite bool_decide_true in Hw.
Qed.

(** The redelivery pass lists a parked wait; its own delivery finishes; the
    pass then looks for the wait, which holds nothing and is not parked, and is
    handed the next message on the key.  The wait has its answer, so the pass
    unsubscribes it, and the message is shed. *)
Definition stale_look : list (Act (J:=str)) :=
  [Announce w0; Register (wait 0) 1; Arrive (msg "a") 2; Offer (msg "a") 3; ListParked 10;
   RecordAnswer w0 (name "a"); Finish w0; Arrive (msg "b") 4; Offer (msg "b") 5;
   Look (wait 0) 6; RecordAnswer w0 (name "b"); Finish w0].
Example stale_look_loses : lost (acts no_plane stale_look) (name "b").
Proof. apply unread_ok. by vm_compute. Qed.

(** A run is sealed over a message it never read, and the redelivery pass
    lists the parked waits before the run's are retired. *)
Definition listed_first : list (Act (J:=str)) :=
  [Announce w0; Register (wait 0) 1; Arrive (msg "a") 2; Offer (msg "a") 3; Close run1; Seal run1; ListParked 10; Retire run1].
Example listed_first_loses : lost (acts no_plane listed_first) (name "a").
Proof. apply unread_ok. by vm_compute. Qed.
Example retired_first_releases : gone (mail (acts no_plane
  [Announce w0; Register (wait 0) 1; Arrive (msg "a") 2; Offer (msg "a") 3; Close run1; Seal run1; Retire run1; ListParked 10]))
  (name "a") = false.
Proof. by vm_compute. Qed.

(** Two waits of a run on one key hold a message each; the first's is erased,
    and the second, unparked with it, is handed another beside its own. *)
Definition erased_beside : list (Act (J:=str)) :=
  [Announce w0; Announce w1; Register (wait 0) 1; Register (wait 1) 1; Arrive (msg "a") 2; Offer (msg "a") 3;
   Arrive (msg "b") 4; Offer (msg "b") 5; Erase (lit "shop") (lit "a"); Arrive (msg "c") 7; Offer (msg "c") 8;
   Arrive (msg "d") 9; Offer (msg "d") 10; RecordAnswer w1 (name "b"); Finish w1].
Definition held_for (st : Mailbox) (n : N) : list str :=
  omap (fun x => if bool_decide (x.2 = effect n) then Some x.1.2 else None) (map_to_list (claimed st)).
Example erased_beside_loses :
  length (held_for (mail (acts no_plane (take 13 erased_beside))) 1) = 2 /\ lost (acts no_plane erased_beside) (name "d").
Proof. split; [by vm_compute|]. apply unread_ok. by vm_compute. Qed.
