(* ===== verification/Timers.v ===== *)
(** * Durable timers ([src/src/core/event.rs], [src/src/case/timers.rs], [src/src/store/redb_timers.rs])

    A run's wake-ups: armed once, claimed by one sweeper at a time under a
    lease of a minute, retired when the run is sealed.  Instants are whole
    seconds, as the tables hold them; whether a run is sealed is the journal's
    to say and an argument. *)

From S2P Require Import Prelude Digest EffectKey Index Panel Text Chain Mailbox.

Record Timer := mk_timer {
  tm_run : RunId;
  tm_case : option str;
  tm_effect : EffectKey;
  tm_step : StepId;
  tm_phase : Phase;
  fire_at : Z;
}.
Definition timer_key (t : Timer) : Wait := (tm_run t, tm_effect t).

(** ** The tables *)
Record TimerRow := mk_trow {
  t_case : option str;
  t_step : StepId;
  t_phase : Phase;
  t_fire : Z;
  t_claimed : option Z;
}.
Record Timers := mk_timers {
  timers : gmap Wait TimerRow;
  due : gset (Z * Wait);
}.
Definition no_timers : Timers := mk_timers ∅ ∅.
(** How long a claim holds before another sweep may take the timer. *)
Definition CLAIM_LEASE : Z := 60.

Definition build (w : Wait) (r : TimerRow) : Timer := mk_timer w.1 (t_case r) w.2 (t_step r) (t_phase r) (t_fire r).
Definition retire (st : Timers) (w : Wait) : Timers :=
  match timers st !! w with
  | Some r => mk_timers (base.delete w (timers st)) (due st ∖ {[(t_fire r, w)]})
  | None => st
  end.
(** First arming wins. *)
Definition arm (st : Timers) (t : Timer) : Timers :=
  match timers st !! timer_key t with
  | Some _ => st
  | None => mk_timers (<[timer_key t := mk_trow (tm_case t) (tm_step t) (tm_phase t) (fire_at t) None]> (timers st))
              ({[(fire_at t, timer_key t)]} ∪ due st)
  end.

(** ** Claiming what is due *)
Definition under_claim (now : Z) (r : TimerRow) : bool :=
  match t_claimed r with Some at_ => bool_decide (now - CLAIM_LEASE < at_)%Z | None => false end.
Definition claim_row (r : TimerRow) (now : Z) : TimerRow := mk_trow (t_case r) (t_step r) (t_phase r) (t_fire r) (Some now).
Definition claim_one (sealed : RunId -> bool) (now : Z) (x : Timers * list Timer) (w : Wait) : Timers * list Timer :=
  let '(st, out) := x in
  if sealed w.1 then (retire st w, out) else
  match timers st !! w with
  | None => (st, out)
  | Some r => if under_claim now r then (st, out)
              else (mk_timers (<[w := claim_row r now]> (timers st)) (due st), out ++ [build w r])
  end.
(** A page of candidates, and whether the claims filled up. *)
Fixpoint claim_page (sealed : RunId -> bool) (now : Z) (limit : nat) (x : Timers * list Timer) (l : list (Z * Wait)) :
    (Timers * list Timer) * bool :=
  match l with
  | [] => (x, false)
  | c :: l => if limit <=? length x.2 then (x, true) else claim_page sealed now limit (claim_one sealed now x c.2) l
  end.
Definition beyond (after : option (Z * Wait)) (x : Z * Wait) : bool :=
  match after with None => true | Some a => match time_wait_cmp a x with Lt => true | _ => false end end.
Definition due_after (st : Timers) (now : Z) (after : option (Z * Wait)) : list (Z * Wait) :=
  filter (fun x => x.1 <= now /\ beyond after x = true)%Z (iter_by time_wait_cmp (due st)).
Fixpoint scan (fuel : nat) (sealed : RunId -> bool) (now : Z) (limit : nat) (x : Timers * list Timer) (after : option (Z * Wait)) :
    option (Timers * list Timer) :=
  match fuel with
  | 0 => None
  | S fuel =>
      let candidates := take (Nat.max limit 64) (due_after x.1 now after) in
      match last candidates with
      | None => Some x
      | Some c =>
          match claim_page sealed now limit x candidates with
          | (x, true) => Some x
          | (x, false) => scan fuel sealed now limit x (Some c)
          end
      end
  end.
Definition claim_due (sealed : RunId -> bool) (st : Timers) (now : Z) (limit : nat) : option (Timers * list Timer) :=
  scan (S (size (due st))) sealed now limit (st, []) None.

Definition pending_count (st : Timers) : nat := size (timers st).
Definition disarm (st : Timers) (w : Wait) : Timers := retire st w.
Definition run_timers (st : Timers) (run : RunId) : list EffectKey :=
  iter_by digest_cmp (set_filter_map (fun w => if decide (w.1 = run) then Some w.2 else None) (dom (timers st))).
Definition disarm_run (st : Timers) (run : RunId) : Timers * nat :=
  (foldl (fun st e => retire st (run, e)) st (run_timers st run), length (run_timers st run)).
Definition armed_timers (st : Timers) (run : RunId) : list Timer :=
  omap (fun e => build (run, e) <$> timers st !! (run, e)) (run_timers st run).

(** ** The due index *)
Definition due_key (w : Wait) (r : TimerRow) : option (Z * Wait) := Some (t_fire r, w).
Definition exact (st : Timers) : Prop := indexed due_key (due st) (timers st).
Lemma timer_due_inj : key_inj due_key.
Proof. intros k v k' v' x. unfold due_key. naive_solver. Qed.
Lemma due_row st t w : exact st -> (t, w) ∈ due st <-> (t_fire <$> timers st !! w) = Some t.
Proof.
  intros He. rewrite (He (t, w)). unfold due_key. split.
  - intros (k & v & Hk & [= <- <-]). by rewrite Hk.
  - destruct (timers st !! w) as [r|] eqn:Hw; [|done]. intros [= <-]. by exists w, r.
Qed.
Lemma retire_exact st w : exact st -> exact (retire st w).
Proof.
  intros He. unfold retire. destruct (timers st !! w) as [r|] eqn:Hw; [|done].
  by apply (indexed_delete due_key _ _ _ r timer_due_inj He Hw).
Qed.
Lemma arm_exact st t : exact st -> exact (arm st t).
Proof.
  intros He. unfold arm. destruct (timers st !! timer_key t) as [r|] eqn:Hw; [done|].
  by apply (indexed_fresh due_key _ _ _ (mk_trow _ _ _ (fire_at t) None) timer_due_inj He Hw).
Qed.
Lemma claim_one_exact sealed now x w : exact x.1 -> exact (claim_one sealed now x w).1.
Proof.
  destruct x as [st out]. simpl. intros He. destruct (sealed w.1); [by apply retire_exact|].
  destruct (timers st !! w) as [r|] eqn:Hw; [|done]. destruct (under_claim now r); [done|].
  by apply (indexed_same due_key _ _ _ r (claim_row r now) timer_due_inj He Hw).
Qed.

(** ** One page after another is one pass

    [one_pass] takes the due list whole. *)
Definition one_pass (sealed : RunId -> bool) (st : Timers) (now : Z) (limit : nat) : Timers * list Timer :=
  (claim_page sealed now limit (st, []) (due_after st now None)).1.

(** A step touches its own timer alone. *)
Lemma claim_one_other sealed now x w w' : w <> w' ->
  timers (claim_one sealed now x w).1 !! w' = timers x.1 !! w'.
Proof.
  destruct x as [st out]. intros Hne. unfold claim_one, retire. simpl.
  destruct (sealed w.1), (timers st !! w) as [r|]; simpl; try done; [by rewrite lookup_delete_ne|].
  destruct (under_claim now r); simpl; [done|by rewrite lookup_insert_ne].
Qed.
Lemma claim_one_due sealed now x t w y : exact x.1 -> (t, w) ∈ due x.1 -> y <> (t, w) ->
  y ∈ due (claim_one sealed now x w).1 <-> y ∈ due x.1.
Proof.
  destruct x as [st out]. simpl. intros He Hin Hy. apply due_row in Hin; [|done].
  unfold claim_one, retire. destruct (sealed w.1), (timers st !! w) as [r|]; simpl in *; try done.
  - simplify_eq. set_solver.
  - by destruct (under_claim now r).
Qed.
Lemma claim_page_app sealed now limit x l1 l2 : claim_page sealed now limit x (l1 ++ l2) =
  match claim_page sealed now limit x l1 with (x', true) => (x', true) | (x', false) => claim_page sealed now limit x' l2 end.
Proof. revert x. induction l1 as [|c l1 IH]; intros x; simpl; [done|]. destruct (limit <=? length x.2); [done|apply IH]. Qed.
Lemma claim_page_keeps sealed now limit l x : NoDup l -> exact x.1 -> (forall y, y ∈ l -> y ∈ due x.1) ->
  let x' := (claim_page sealed now limit x l).1 in
  exact x'.1 /\ (forall y, y ∉ l -> y ∈ due x'.1 <-> y ∈ due x.1) /\
  (forall w, w ∉ l.*2 -> timers x'.1 !! w = timers x.1 !! w).
Proof.
  intros Hnd. revert x. induction Hnd as [|[t w] l Hc Hnd IH]; intros x He Hin; simpl; [done|].
  destruct (limit <=? length x.2); [done|].
  assert ((t, w) ∈ due x.1) as Hd by (apply Hin; by left).
  destruct (IH (claim_one sealed now x w)) as (He' & Hdue & Hrow).
  - by apply claim_one_exact.
  - intros y Hy. apply (claim_one_due _ _ _ t); [done..|by intros ->|]. apply Hin. by right.
  - split_and!; [exact He'| |].
    + intros y Hy. rewrite not_elem_of_cons in Hy. destruct Hy as [Hne Hy]. rewrite Hdue by done. by apply (claim_one_due _ _ _ t).
    + intros w' Hw'. simpl in Hw'. rewrite not_elem_of_cons in Hw'. destruct Hw' as [Hne Hw'].
      rewrite Hrow by done. by apply claim_one_other.
Qed.

Lemma due_after_sorted st now after : StronglySorted (by_cmp time_wait_cmp) (due_after st now after).
Proof. apply sorted_filter, iter_by_sorted, _. Qed.
Lemma due_after_nodup st now after : NoDup (due_after st now after).
Proof. apply NoDup_filter. unfold iter_by. rewrite merge_sort_Permutation. apply NoDup_elements. Qed.
Lemma elem_of_due_after st now after y :
  y ∈ due_after st now after <-> y ∈ due st /\ (y.1 <= now)%Z /\ beyond after y = true.
Proof. unfold due_after. rewrite list_elem_of_filter, elem_of_iter_by. tauto. Qed.
(** What is left after a page is the rest of the list. *)
Lemma due_after_rest st st' now after l1 c l2 : due_after st now after = l1 ++ c :: l2 ->
  (forall y, y ∉ l1 ++ [c] -> y ∈ due st' <-> y ∈ due st) -> due_after st' now (Some c) = l2.
Proof.
  intros Hl Hd. pose proof (due_after_sorted st now after) as Hs. pose proof (due_after_nodup st now after) as Hnd.
  rewrite Hl in Hs, Hnd. change (c :: l2) with ([c] ++ l2) in Hs, Hnd. rewrite app_assoc in Hs, Hnd.
  apply StronglySorted_app in Hs as (Hlt & _ & Hs2). apply NoDup_app in Hnd as (_ & Hdis & Hnd2).
  apply (StronglySorted_unique (by_cmp time_wait_cmp)); [apply due_after_sorted|done|].
  apply NoDup_Permutation; [apply due_after_nodup|done|]. intros y. rewrite elem_of_due_after. simpl.
  assert (forall y, y ∈ l2 -> time_wait_cmp c y = Lt) as Hc.
  { intros z Hz. assert (by_cmp time_wait_cmp c z) as Hcz by (apply Hlt; [rewrite elem_of_app; right; by left|done]).
    apply (by_cmp_alt time_wait_cmp) in Hcz as [|<-]; [done|]. exfalso. apply (Hdis c); [rewrite elem_of_app; right; by left|done]. }
  split.
  - intros (Hy & Hn & Hb). destruct (time_wait_cmp c y) eqn:Hcy; try done.
    assert (y ∉ l1 ++ [c]) as Hni.
    { intros Hin. assert (by_cmp time_wait_cmp y c) as Hyc.
      { pose proof (due_after_sorted st now after) as Hs'. rewrite Hl in Hs'.
        apply elem_of_app in Hin as [Hin| ->%list_elem_of_singleton]; [|by apply (by_cmp_alt time_wait_cmp); right].
        apply StronglySorted_app in Hs' as (Hlt' & _ & _). apply Hlt'; [done|by left]. }
      assert (y = c) as ->.
      { apply (anti_symm (by_cmp time_wait_cmp)); [done|]. apply (by_cmp_alt time_wait_cmp). by left. }
      assert (time_wait_cmp c c = Eq) by by apply cmp_eq. congruence. }
    apply Hd in Hy; [|done]. assert (y ∈ due_after st now after) as Hin.
    { apply elem_of_due_after. split_and!; [done..|]. destruct after as [a|]; [|done]. simpl.
      assert (beyond (Some a) c = true) as Hac.
      { assert (c ∈ due_after st now (Some a)) as Hx by (rewrite Hl, elem_of_app; right; by left).
        apply elem_of_due_after in Hx. tauto. }
      simpl in Hac. destruct (time_wait_cmp a c) eqn:Hac'; try done. by rewrite (cmp_lt_trans _ _ _ Hac' Hcy). }
    rewrite Hl in Hin. rewrite not_elem_of_app in Hni. rewrite elem_of_app, elem_of_cons in Hin. set_solver.
  - intros Hy. assert (y ∈ due_after st now after) as (Hyd & Hyn & _)%elem_of_due_after.
    { rewrite Hl, elem_of_app, elem_of_cons. auto. }
    split_and!; [|done|by rewrite (Hc y Hy)]. apply Hd; [|done]. intros Hin. by apply (Hdis y).
Qed.

Lemma scan_one_pass fuel sealed now limit x after : exact x.1 -> length (due_after x.1 now after) < fuel ->
  scan fuel sealed now limit x after = Some (claim_page sealed now limit x (due_after x.1 now after)).1.
Proof.
  revert x after. induction fuel as [|fuel IH]; intros x after He Hf; [lia|]. simpl.
  set (L := due_after x.1 now after) in *. set (n := Nat.max limit 64).
  destruct (last (take n L)) as [c|] eqn:Hl.
  - apply last_Some in Hl as [l1 Hl]. assert (L = l1 ++ c :: drop n L) as HL.
    { rewrite <-(take_drop n L) at 1. rewrite Hl, <-app_assoc. done. }
    rewrite Hl. rewrite HL at 1. change (c :: drop n L) with ([c] ++ drop n L). rewrite app_assoc, (claim_page_app _ _ _ _ (l1 ++ [c])).
    assert (NoDup (l1 ++ [c])) as Hnd.
    { rewrite <-Hl. eapply sublist_NoDup; [apply (due_after_nodup x.1 now after)|apply sublist_take]. }
    assert (forall y, y ∈ l1 ++ [c] -> y ∈ due x.1) as Hin.
    { intros y Hy. rewrite <-Hl in Hy. apply elem_of_take in Hy as (i & Hy & _). apply list_elem_of_lookup_2 in Hy.
      by apply elem_of_due_after in Hy as [? _]. }
    pose proof (claim_page_keeps sealed now limit _ x Hnd He Hin) as (He' & Hdue & _).
    destruct (claim_page sealed now limit x (l1 ++ [c])) as [x' []]; [done|]. simpl in *.
    assert (due_after x'.1 now (Some c) = drop n L) as Hrest by (eapply due_after_rest; [exact HL|done]).
    rewrite IH; [by rewrite Hrest|done|]. rewrite Hrest. apply (f_equal length) in HL. rewrite length_app in HL. simpl in HL. lia.
  - apply last_None in Hl. assert (L = []) as ->; [|done]. apply take_nil_inv in Hl as [|]; [lia|done].
Qed.

(** ** What a claim returns *)

(** A due timer a sweeper may take: its run is not sealed, nobody's claim holds. *)
Definition eligible (sealed : RunId -> bool) (st : Timers) (now : Z) (c : Z * Wait) : option Timer :=
  r ← timers st !! c.2; if sealed c.2.1 || under_claim now r then None else Some (build c.2 r).

Lemma build_key w r : timer_key (build w r) = w.
Proof. by destruct w. Qed.
Lemma due_keys_nodup st now after : exact st -> NoDup (due_after st now after).*2.
Proof.
  intros He. apply NoDup_fmap_2_strong; [|apply due_after_nodup].
  intros [t w] [t' w'] [Hx _]%elem_of_due_after [Hy _]%elem_of_due_after Hw. simpl in Hw. subst w'.
  apply due_row in Hx, Hy; [|done..]. congruence.
Qed.
Lemma claim_page_out sealed now limit st l x : NoDup l.*2 ->
  (forall c, c ∈ l -> timers x.1 !! c.2 = timers st !! c.2) ->
  (claim_page sealed now limit x l).1.2 = x.2 ++ take (limit - length x.2) (omap (eligible sealed st now) l).
Proof.
  revert x. induction l as [|[t w] l IH]; intros x Hnd Hsame; simpl; [by rewrite take_nil, app_nil_r|].
  destruct (Nat.leb_spec limit (length x.2)) as [Hl|Hl].
  { replace (limit - length x.2) with 0 by lia. by rewrite take_0, app_nil_r. }
  simpl in Hnd. apply NoDup_cons in Hnd as [Hw Hnd]. rewrite IH; [|done|].
  - pose proof (Hsame (t, w) ltac:(by left)) as Hrow. simpl in Hrow. destruct x as [st1 out]. unfold eligible at 2. simpl in *.
    rewrite <-Hrow. destruct (sealed w.1); [by destruct (timers st1 !! w)|].
    destruct (timers st1 !! w) as [r|]; simpl; [|done]. destruct (under_claim now r); simpl; [done|].
    rewrite length_app. simpl. replace (limit - length out) with (S (limit - (length out + 1))) by lia.
    simpl. by rewrite <-app_assoc.
  - intros c Hc. rewrite claim_one_other; [apply Hsame; by right|]. intros ->. apply Hw, list_elem_of_fmap. eauto.
Qed.
(** What becomes of each timer. *)
Definition fate (sealed : RunId -> bool) (now : Z) (before after : Timers) (out : list Timer) (w : Wait) : Prop :=
  match timers before !! w with
  | Some r => timers after !! w = Some (if bool_decide (w ∈ timer_key <$> out) then claim_row r now else r)
              \/ timers after !! w = None /\ sealed w.1 = true /\ (t_fire r <= now)%Z
  | None => timers after !! w = None
  end.
Lemma claim_page_rows sealed now limit st l x w : NoDup l.*2 -> (forall c, c ∈ l -> (t_fire <$> timers st !! c.2) = Some c.1 /\ (c.1 <= now)%Z) ->
  (forall c, c ∈ l -> timers x.1 !! c.2 = timers st !! c.2) -> (w ∈ l.*2 -> w ∉ timer_key <$> x.2) ->
  fate sealed now st x.1 x.2 w ->
  fate sealed now st (claim_page sealed now limit x l).1.1 (claim_page sealed now limit x l).1.2 w.
Proof.
  revert x. induction l as [|[t w'] l IH]; intros x Hnd Hdue Hsame Hnew Hf; simpl; [done|].
  destruct (limit <=? length x.2); [done|]. simpl in Hnd. apply NoDup_cons in Hnd as [Hw Hnd].
  pose proof (Hsame (t, w') ltac:(by left)) as Hrow. destruct (Hdue (t, w') ltac:(by left)) as [Hfire Ht]. simpl in Hrow, Hfire, Ht.
  apply IH; [done|intros c Hc; apply Hdue; by right| | |].
  - intros c Hc. rewrite claim_one_other; [apply Hsame; by right|]. intros ->. apply Hw, list_elem_of_fmap. eauto.
  - intros Hin. assert (w' <> w) as Hne by (by intros ->). destruct x as [st1 out]. unfold claim_one. simpl in *.
    destruct (sealed w'.1); [apply Hnew; by right|]. destruct (timers st1 !! w') as [r|]; [|apply Hnew; by right].
    destruct (under_claim now r); [apply Hnew; by right|]. simpl. rewrite fmap_app, not_elem_of_app. split; [apply Hnew; by right|].
    simpl. rewrite build_key, list_elem_of_singleton. done.
  - destruct (decide (w' = w)) as [->|Hne].
    + specialize (Hnew ltac:(by left)). destruct x as [st1 out]. simpl in *. unfold fate in *. unfold claim_one, retire. rewrite Hrow.
      destruct (timers st !! w) as [r|] eqn:Hr; [|done]. injection Hfire as Hfire.
      destruct (sealed w.1) eqn:Hse; [simpl; right; rewrite lookup_delete_eq; split_and!; [done..|lia]|].
      destruct (under_claim now r); [done|]. simpl. left. rewrite lookup_insert_eq, bool_decide_true; [done|].
      rewrite fmap_app, elem_of_app. right. simpl. rewrite build_key. by left.
    + unfold fate in *. rewrite claim_one_other by done. destruct x as [st1 out]. simpl in *.
      assert (w ∈ timer_key <$> (claim_one sealed now (st1, out) w').2 <-> w ∈ timer_key <$> out) as Hk.
      { unfold claim_one. destruct (sealed w'.1); [done|]. destruct (timers st1 !! w') as [r|]; [|done].
        destruct (under_claim now r); [done|]. simpl. rewrite fmap_app, elem_of_app. simpl. rewrite build_key, list_elem_of_singleton.
        naive_solver. }
      destruct (timers st !! w) as [r|]; [|done]. by rewrite (bool_decide_ext _ _ Hk).
Qed.

(** ** Any sequence of operations *)
Inductive Op := Arm (t : Timer) | ClaimDue (sealed : RunId -> bool) (now : Z) (limit : nat) | Disarm (w : Wait) | DisarmRun (run : RunId).
Definition after (st : Timers) (o : Op) : Timers :=
  match o with
  | Arm t => arm st t
  | ClaimDue sealed now limit => match claim_due sealed st now limit with Some (st', _) => st' | None => st end
  | Disarm w => disarm st w
  | DisarmRun run => (disarm_run st run).1
  end.
Definition run_ops (st : Timers) (os : list Op) : Timers := foldl after st os.
Lemma run_ops_snoc st os o : run_ops st (os ++ [o]) = after (run_ops st os) o.
Proof. unfold run_ops. by rewrite foldl_app. Qed.
Lemma claim_due_spec sealed st now limit : exact st -> exists st' out, claim_due sealed st now limit = Some (st', out) /\
  out = take limit (omap (eligible sealed st now) (due_after st now None)) /\ exact st' /\ forall w, fate sealed now st st' out w.
Proof.
  intros He. unfold claim_due. rewrite scan_one_pass; simpl; [|done|].
  2: { unfold due_after, iter_by. apply Nat.lt_succ_r. rewrite length_filter. by rewrite merge_sort_Permutation. }
  pose proof (due_keys_nodup st now None He) as Hnd.
  destruct (claim_page sealed now limit (st, []) (due_after st now None)) as [[st' out] stop] eqn:Hc. exists st', out.
  split_and!; [done| | |].
  - pose proof (claim_page_out sealed now limit st (due_after st now None) (st, []) Hnd ltac:(done)) as Ho. rewrite Hc in Ho.
    simpl in Ho. by rewrite Nat.sub_0_r in Ho.
  - pose proof (claim_page_keeps sealed now limit (due_after st now None) (st, []) (due_after_nodup _ _ _) He) as Hk.
    rewrite Hc in Hk. apply Hk. intros y Hy. by apply elem_of_due_after in Hy as [? _].
  - intros w. pose proof (claim_page_rows sealed now limit st (due_after st now None) (st, []) w Hnd) as Hr. rewrite Hc in Hr.
    apply Hr; simpl; [|done|set_solver|].
    + intros [t w'] (Hy & Hn & _)%elem_of_due_after. simpl in *. split; [by apply due_row|done].
    + unfold fate. simpl. by destruct (timers st !! w); [left|].
Qed.
Lemma step_exact st o : exact st -> exact (after st o).
Proof.
  intros He. destruct o as [t|sealed now limit|w|run]; simpl.
  - by apply arm_exact.
  - destruct (claim_due_spec sealed st now limit He) as (st' & out & -> & _ & He' & _). done.
  - by apply retire_exact.
  - generalize (run_timers st run). intros l. revert st He. induction l as [|e l IH]; intros st He; simpl; [done|].
    by apply IH, retire_exact.
Qed.
Lemma run_exact os : exact (run_ops no_timers os).
Proof.
  assert (exact no_timers) as He by apply indexed_empty. revert He. generalize no_timers. induction os as [|o os IH]; intros st He; simpl; [done|].
  by apply IH, step_exact.
Qed.

(** The chunked scan ends, and returns what one pass over the due timers
    would: the first [limit], oldest first, whose runs are not sealed and that
    nobody holds; each of those is claimed at [now], a sealed run's due timer
    may go, and every other stays as it was. *)
Theorem claim_due_exact os sealed now limit : let st := run_ops no_timers os in
  exists st' out, claim_due sealed st now limit = Some (st', out) /\
    out = take limit (omap (eligible sealed st now) (due_after st now None)) /\
    StronglySorted (by_cmp time_wait_cmp) (due_after st now None) /\
    (forall t w, (t, w) ∈ due_after st now None <-> (t_fire <$> timers st !! w) = Some t /\ (t <= now)%Z) /\
    (forall w, fate sealed now st st' out w).
Proof.
  intros st. pose proof (run_exact os : exact st) as He.
  destruct (claim_due_spec sealed st now limit He) as (st' & out & Hc & Ho & _ & Hf). exists st', out.
  split_and!; [done|done|apply due_after_sorted| |done]. intros t w. rewrite elem_of_due_after, due_row by done. simpl. tauto.
Qed.

(** A timer goes by its disarming, its run's, or a sweep that finds the run sealed. *)
Definition lets_go (o : Op) (w : Wait) : Prop :=
  match o with
  | Arm _ => False
  | ClaimDue sealed _ _ => sealed w.1 = true
  | Disarm w' => w = w'
  | DisarmRun run => w.1 = run
  end.
Definition claimed_since (st : Timers) (w : Wait) (t0 : Z) : Prop :=
  exists r t, timers st !! w = Some r /\ t_claimed r = Some t /\ (t0 <= t)%Z.
Lemma retire_other st w w' : w <> w' -> timers (retire st w) !! w' = timers st !! w'.
Proof. intros Hne. unfold retire. destruct (timers st !! w); simpl; [by rewrite lookup_delete_ne|done]. Qed.
Lemma not_under_claim now r t : t_claimed r = Some t -> under_claim now r = false -> (t + CLAIM_LEASE <= now)%Z.
Proof. unfold under_claim, CLAIM_LEASE. intros ->. rewrite bool_decide_eq_false. lia. Qed.
(** A timer the pass returned, its row before and after. *)
Lemma returned_row sealed st st' now limit out tm : exact st -> claim_due sealed st now limit = Some (st', out) -> tm ∈ out ->
  exists r, timers st !! timer_key tm = Some r /\ tm = build (timer_key tm) r /\ under_claim now r = false /\
    sealed (tm_run tm) = false /\ (t_fire r <= now)%Z /\ timers st' !! timer_key tm = Some (claim_row r now).
Proof.
  intros He Hc Hin. destruct (claim_due_spec sealed st now limit He) as (st1 & out1 & Hc1 & Ho & _ & Hf).
  rewrite Hc in Hc1. simplify_eq. specialize (Hf (timer_key tm)). unfold fate in Hf.
  pose proof Hin as (i & Hi & _)%elem_of_take. apply list_elem_of_lookup_2, list_elem_of_omap in Hi as ([t w] & Hd & Hel).
  apply elem_of_due_after in Hd as (Hd & Hn & _). apply due_row in Hd; [|done]. simpl in Hn.
  unfold eligible in Hel. simpl in Hel. destruct (timers st !! w) as [r|] eqn:Hr; [|done]. simpl in Hel, Hd.
  destruct (sealed w.1) eqn:Hse; [done|]. destruct (under_claim now r) eqn:Hu; [done|]. simplify_eq/=.
  rewrite build_key in *. exists r. rewrite Hr in Hf. split_and!; [done..|].
  destruct Hf as [Hf|(_ & Hs & _)]; [|congruence]. rewrite bool_decide_true in Hf; [done|].
  apply list_elem_of_fmap. exists (build w r). by rewrite build_key.
Qed.
Lemma step_claimed st o w t0 : exact st -> claimed_since st w t0 -> ~ lets_go o w -> claimed_since (after st o) w t0.
Proof.
  intros He (r & t & Hr & Ht & Hle) Hno. destruct o as [tm|sealed now limit|w'|run]; simpl in *.
  - exists r, t. split_and!; [|done..]. unfold arm. destruct (timers st !! timer_key tm) eqn:Hk; [done|]. simpl.
    rewrite lookup_insert_ne; [done|]. congruence.
  - destruct (claim_due_spec sealed st now limit He) as (st' & out & Hc & _ & _ & Hf). rewrite Hc. specialize (Hf w).
    unfold fate in Hf. rewrite Hr in Hf. destruct Hf as [Hf|(_ & Hs & _)]; [|done]. case_bool_decide as Hin; [|by exists r, t].
    exists (claim_row r now), now. split_and!; [done..|]. apply list_elem_of_fmap in Hin as (tm & -> & Hin).
    destruct (returned_row sealed st st' now limit out tm He Hc Hin) as (r' & Hr' & _ & Hu & _). rewrite Hr in Hr'. simplify_eq.
    pose proof (not_under_claim _ _ _ Ht Hu). unfold CLAIM_LEASE in *. lia.
  - exists r, t. split_and!; [|done..]. unfold disarm. rewrite retire_other; [done|]. congruence.
  - exists r, t. split_and!; [|done..]. generalize (run_timers st run). intros l. revert st He Hr.
    induction l as [|e l IH]; intros st He Hr; simpl; [done|]. apply IH; [by apply retire_exact|].
    rewrite retire_other; [done|]. intros <-. by apply Hno.
Qed.

(** C40. A wake-up is one sweeper's: it is returned at or after its instant,
    and between two sweeps that return the same timer a whole lease passes,
    unless it was let go and armed again - whatever other sweeps ran, on
    whatever clocks. *)
Theorem claim_exclusive os sealed now limit st1 out tm os' sealed' now' limit' st2 out' tm' :
  claim_due sealed (run_ops no_timers os) now limit = Some (st1, out) -> tm ∈ out ->
  claim_due sealed' (run_ops st1 os') now' limit' = Some (st2, out') -> tm' ∈ out' ->
  (fire_at tm <= now)%Z /\
  (timer_key tm = timer_key tm' -> Forall (fun o => ~ lets_go o (timer_key tm)) os' -> (now + CLAIM_LEASE <= now')%Z).
Proof.
  intros Hc Hin Hc' Hin'. pose proof (run_exact os) as He.
  destruct (claim_due_spec sealed _ now limit He) as (st0 & out0 & Hc0 & _ & He1 & _). rewrite Hc in Hc0. simplify_eq.
  destruct (returned_row _ _ _ _ _ _ _ He Hc Hin) as (r & Hr & Htm & Hu & _ & Hn & Hr1). split; [by rewrite Htm|].
  intros Hk Hos. assert (exact (run_ops st0 os') /\ claimed_since (run_ops st0 os') (timer_key tm) now) as [He2 (r2 & t & Hr2 & Ht & Hle)].
  { assert (claimed_since st0 (timer_key tm) now) as Hcl by (exists (claim_row r now), now; done).
    clear -He1 Hcl Hos. revert st0 He1 Hcl. induction os' as [|o os' IH]; intros st He Hcl; [done|].
    apply Forall_cons in Hos as [Ho Hos]. apply IH; [done|by apply step_exact|by apply step_claimed]. }
  destruct (returned_row _ _ _ _ _ _ _ He2 Hc' Hin') as (r' & Hr' & _ & Hu' & _). rewrite <-Hk, Hr2 in Hr'. simplify_eq.
  pose proof (not_under_claim _ _ _ Ht Hu'). unfold CLAIM_LEASE in *. lia.
Qed.

(** ** Witness *)
Module TimersWitness.
#[local] Instance hash : Sha256 := toy_hash.
Definition effect (n : N) : EffectKey := derive 1%N Forward n 1%N (lit "sleep") [].
Definition nap (n : N) (at_ : Z) : Timer := mk_timer (lit "run-1") None (effect n) 1%N Forward at_.
Definition awake (_ : RunId) : bool := false.
Definition armed : list Op := [Arm (nap 0 10); Arm (nap 1 20); Arm (nap 0 5)].
Definition claimed_keys (x : option (Timers * list Timer)) : list Wait := match x with Some (_, out) => timer_key <$> out | None => [] end.
Definition holds (w : Wait) (x : option (Timers * list Timer)) : bool := bool_decide (w ∈ claimed_keys x).
(** A second sweep at once takes only what came due; a minute later, both. *)
Example swept : holds (timer_key (nap 0 10)) (claim_due awake (run_ops no_timers armed) 15 100) = true /\
  holds (timer_key (nap 0 10)) (claim_due awake (run_ops no_timers (armed ++ [ClaimDue awake 15 100])) 30 100) = false /\
  holds (timer_key (nap 1 20)) (claim_due awake (run_ops no_timers (armed ++ [ClaimDue awake 15 100])) 30 100) = true /\
  holds (timer_key (nap 0 10)) (claim_due awake (run_ops no_timers (armed ++ [ClaimDue awake 15 100])) 75 100) = true.
Proof. by vm_compute. Qed.
Lemma held_in x w : holds w x = true -> exists st out tm, x = Some (st, out) /\ tm ∈ out /\ timer_key tm = w.
Proof.
  unfold holds. intros Hw%bool_decide_eq_true. destruct x as [[st out]|]; [|by apply not_elem_of_nil in Hw].
  apply list_elem_of_fmap in Hw as (tm & -> & Hin). by exists st, out, tm.
Qed.
Lemma claim_exclusive_witness : exists st1 out tm st2 out' tm', claim_due awake (run_ops no_timers armed) 15 100 = Some (st1, out) /\
  tm ∈ out /\ claim_due awake (run_ops st1 []) 75 100 = Some (st2, out') /\ tm' ∈ out' /\ timer_key tm = timer_key tm' /\
  (15 + CLAIM_LEASE <= 75)%Z.
Proof.
  destruct (held_in (claim_due awake (run_ops no_timers armed) 15 100) (timer_key (nap 0 10))) as (st1 & out & tm & Hc & Hin & Hk);
    [by vm_compute|].
  destruct (held_in (claim_due awake (run_ops st1 []) 75 100) (timer_key (nap 0 10))) as (st2 & out' & tm' & Hc' & Hin' & Hk').
  { pose proof (proj2 (proj2 (proj2 swept))) as Hs. rewrite run_ops_snoc in Hs. unfold after in Hs. rewrite Hc in Hs. exact Hs. }
  exists st1, out, tm, st2, out', tm'. split_and!; [done..|congruence|].
  eapply (claim_exclusive armed awake 15 100 st1 out tm [] awake 75 100 st2 out' tm'); [done..|congruence|done].
Defined.
End TimersWitness.
