(* ===== verification/Cases.v ===== *)
(** * Cases ([src/src/core/case.rs], [src/src/case/mod.rs], [src/src/store/redb_cases.rs])

    One tenant's cases: the matters runs share, correlated by business key,
    with their state, obligations, legal holds, erasure records and links.
    State is JSON text, a class; a status or state column holds the text its
    type writes, and is the type here; instants are whole seconds, as the
    tables hold them.  The id of a new case is an argument. *)

From S2P Require Import Prelude Digest EffectKey Index Panel Text Chain Mailbox.

(** ** Vocabulary *)

Inductive CaseStatus := Open | AwaitingExternal | AwaitingHuman | Escalated | Closed.
#[export] Instance case_status_dec : EqDecision CaseStatus.
Proof. solve_decision. Defined.
Definition CASE_STATUSES : list CaseStatus := [Open; AwaitingExternal; AwaitingHuman; Escalated; Closed].
Definition status_str (s : CaseStatus) : str :=
  match s with
  | Open => lit "open" | AwaitingExternal => lit "awaiting_external" | AwaitingHuman => lit "awaiting_human"
  | Escalated => lit "escalated" | Closed => lit "closed"
  end.
Definition status_parse (x : str) : option CaseStatus := snd <$> list_find (fun s => status_str s = x) CASE_STATUSES.
#[export] Instance case_status_countable : Countable CaseStatus.
Proof. refine (inj_countable status_str status_parse _). by intros []. Defined.

Inductive DeadlineState := Pending | Warned | Breached | Met | Cancelled.
#[export] Instance deadline_state_dec : EqDecision DeadlineState.
Proof. solve_decision. Defined.
Definition DEADLINE_STATES : list DeadlineState := [Pending; Warned; Breached; Met; Cancelled].
Definition deadline_str (s : DeadlineState) : str :=
  match s with
  | Pending => lit "pending" | Warned => lit "warned" | Breached => lit "breached" | Met => lit "met" | Cancelled => lit "cancelled"
  end.
Definition deadline_parse (x : str) : option DeadlineState := snd <$> list_find (fun s => deadline_str s = x) DEADLINE_STATES.
Definition is_open (s : DeadlineState) : bool := match s with Pending | Warned => true | _ => false end.
Definition may_become (s to : DeadlineState) : bool :=
  match s, to with
  | Pending, (Pending | Warned) | Warned, Warned | Met, Met | Breached, Breached | Cancelled, Cancelled
  | (Pending | Warned), (Met | Breached | Cancelled) => true
  | _, _ => false
  end.

#[export] Instance operator_dec : EqDecision Operator.
Proof. solve_decision. Defined.
Record BreachNote := mk_note { note_by : Operator; note_text : str; note_at : Z }.
Definition is_unaccounted (s : DeadlineState) (ack : option BreachNote) : bool :=
  match s, ack with Breached, None => true | _, _ => false end.
Record LegalHold := mk_hold { placed_at : Z; hold_reason : str; hold_by : Operator }.
Record Erasure := mk_erasure { erased_at : Z; erased_reason : str; complete : bool }.
(** [CaseVersion::next]. *)
Definition next_version (v : Z) : option Z := if bool_decide (v < u64_max)%Z then Some (v + 1)%Z else None.

Abbreviation CaseId := str.
Record Deadline := mk_deadline {
  of_case : CaseId;
  dl_name : str;
  resolved_at : Z;
  calendar_digest : Digest;
  warn_at : option Z;
  dl_state : DeadlineState;
  acknowledged : option BreachNote;
}.
Definition is_due (d : Deadline) (now : Z) : bool := is_open (dl_state d) && bool_decide (resolved_at d <= now)%Z.
Definition needs_warning (d : Deadline) (now : Z) : bool :=
  bool_decide (dl_state d = Pending) && match warn_at d with Some w => bool_decide (w <= now)%Z | None => false end
  && bool_decide (now < resolved_at d)%Z.

(** ** The tables *)

Record CaseRow := mk_crow { c_kind : str; c_status : CaseStatus; c_state : str; c_version : Z; c_opened : Z }.
Record Matters := mk_matters {
  cases : gmap CaseId CaseRow;
  corr_open : gmap CorrelationKey CaseId;
  corr_all : gset (CaseId * CorrelationKey);
  cases_open : gset (Z * CaseId);
  by_status_idx : gset (CaseStatus * Z * CaseId);
}.
Record DeadlineRow := mk_drow {
  d_resolved : Z;
  d_digest : Digest;
  d_warn : option Z;
  d_state : DeadlineState;
  d_ack : option BreachNote;
}.
Record Obligations := mk_obligations {
  deadlines : gmap (CaseId * str) DeadlineRow;
  deadlines_due : gmap (Z * (CaseId * str)) Z;
  unaccounted : gset (Z * (CaseId * str));
  unnoted : gset (CaseId * str);
}.
Record Holds := mk_holds {
  held : gmap CaseId LegalHold;
  held_by_time : gset (Z * CaseId);
  erasures : gmap CaseId Erasure;
}.
Record Links := mk_links {
  case_blobs : gset (CaseId * Z * Digest);
  case_runs : gmap (CaseId * Z) RunId;
  run_seen : gmap (CaseId * RunId) Z;
}.
Record CaseTables := mk_tables { matters : Matters; obligations : Obligations; preserved : Holds; links : Links }.
Definition no_cases : CaseTables := mk_tables (mk_matters ∅ ∅ ∅ ∅ ∅) (mk_obligations ∅ ∅ ∅ ∅) (mk_holds ∅ ∅ ∅) (mk_links ∅ ∅ ∅).
Definition with_matters (st : CaseTables) m : CaseTables := mk_tables m (obligations st) (preserved st) (links st).
Definition with_obligations (st : CaseTables) o : CaseTables := mk_tables (matters st) o (preserved st) (links st).
Definition with_preserved (st : CaseTables) p : CaseTables := mk_tables (matters st) (obligations st) p (links st).
Definition with_links (st : CaseTables) l : CaseTables := mk_tables (matters st) (obligations st) (preserved st) l.

Inductive CaseError :=
| Store (e : StoreError)
| CaseConflict (case : CaseId) (expected current : Z)
| ObligationsOutstanding (case : CaseId) (outstanding : nat)
| CaseIsClosed (case : CaseId)
| DeadlineExists (case : CaseId) (name : str)
| DeadlineFinal (case : CaseId) (name : str) (from to : DeadlineState)
| NotBreached (case : CaseId) (name : str) (s : DeadlineState)
| CaseErased (case : CaseId) (at_ : Z) (reason : str).
Definition missing {T} (what : str) : result CaseError T := Err (Store (NotFound what)).

(** ** Matters *)

(** A case between the status and open indexes. *)
Definition reindex_status (m : Matters) (c : CaseId) (was now : CaseStatus) (opened : Z) : Matters :=
  if decide (was = now) then m else
  mk_matters (cases m) (corr_open m) (corr_all m)
    (match bool_decide (was = Closed), bool_decide (now = Closed) with
     | false, true => cases_open m ∖ {[(opened, c)]}
     | true, false => {[(opened, c)]} ∪ cases_open m
     | _, _ => cases_open m
     end)
    ({[(now, - opened, c)%Z]} ∪ (by_status_idx m ∖ {[(was, - opened, c)%Z]})).
Definition with_row (m : Matters) (c : CaseId) (r : CaseRow) : Matters :=
  mk_matters (<[c := r]> (cases m)) (corr_open m) (corr_all m) (cases_open m) (by_status_idx m).
Definition with_corr (m : Matters) co ca : Matters := mk_matters (cases m) co ca (cases_open m) (by_status_idx m).
(** A case's row and indexes under a new status. *)
Definition move_case (m : Matters) (c : CaseId) (r : CaseRow) (s : CaseStatus) : Matters :=
  reindex_status (with_row m c (mk_crow (c_kind r) s (c_state r) (c_version r) (c_opened r))) c (c_status r) s (c_opened r).
Definition case_keys (m : Matters) (c : CaseId) : list CorrelationKey :=
  iter_by key_cmp (set_filter_map (fun x => if decide (x.1 = c) then Some x.2 else None) (corr_all m)).
(** The keys still free. *)
Definition reclaim_key (c : CaseId) (m : Matters) (k : CorrelationKey) : Matters :=
  match corr_open m !! k with Some _ => m | None => with_corr m (<[k := c]> (corr_open m)) (corr_all m) end.
Definition reclaim_correlation (m : Matters) (c : CaseId) : Matters := foldl (reclaim_key c) m (case_keys m c).
(** Only if still ours. *)
Definition release_key (c : CaseId) (m : Matters) (k : CorrelationKey) : Matters :=
  if decide (corr_open m !! k = Some c) then with_corr m (base.delete k (corr_open m)) (corr_all m) else m.
Definition release_correlation (m : Matters) (c : CaseId) : Matters := foldl (release_key c) m (case_keys m c).

Definition attached (m : Matters) (keys : list CorrelationKey) : option CaseId := head (omap (fun k => corr_open m !! k) keys).
Definition correlate (st : CaseTables) (keys : list CorrelationKey) : option CaseId := attached (matters st) keys.
(** A new case's keys, each claimed once. *)
Fixpoint claim_keys (m : Matters) (c : CaseId) (keys : list CorrelationKey) : result CaseError Matters :=
  match keys with
  | [] => Ok m
  | k :: keys =>
      match corr_open m !! k with
      | Some _ => Err (Store (Backend (lit "claimed concurrently")))
      | None => claim_keys (with_corr m (<[k := c]> (corr_open m)) ({[(c, k)]} ∪ corr_all m)) c keys
      end
  end.
(** An import's keys: a closed case claims none. *)
Fixpoint import_keys (m : Matters) (c : CaseId) (closed : bool) (keys : list CorrelationKey) : result CaseError Matters :=
  match keys with
  | [] => Ok m
  | k :: keys =>
      let m := with_corr m (corr_open m) ({[(c, k)]} ∪ corr_all m) in
      if closed then import_keys m c closed keys else
      match corr_open m !! k with
      | Some c' => if decide (c' = c) then import_keys m c closed keys else Err (Store (Backend (lit "already claimed")))
      | None => import_keys (with_corr m (<[k := c]> (corr_open m)) (corr_all m)) c closed keys
      end
  end.
Definition list_case (m : Matters) (c : CaseId) (s : CaseStatus) (opened : Z) : Matters :=
  mk_matters (cases m) (corr_open m) (corr_all m)
    (if decide (s = Closed) then cases_open m else {[(opened, c)]} ∪ cases_open m)
    ({[(s, - opened, c)%Z]} ∪ by_status_idx m).

(** ** Obligations *)

(** When an obligation next needs attention. *)
Definition trigger_at (s : DeadlineState) (resolved : Z) (warn : option Z) : Z :=
  match s with Warned => resolved | _ => match warn with Some w => Z.min w resolved | None => resolved end end.
Definition reindex_unaccounted (o : Obligations) (k : CaseId * str) (resolved : Z) (was now : bool) : Obligations :=
  if decide (was = now) then o else
  mk_obligations (deadlines o) (deadlines_due o)
    (if now then {[(resolved, k)]} ∪ unaccounted o else unaccounted o ∖ {[(resolved, k)]}) (unnoted o).
Definition with_deadline (o : Obligations) (k : CaseId * str) (r : DeadlineRow) : Obligations :=
  mk_obligations (<[k := r]> (deadlines o)) (deadlines_due o) (unaccounted o) (unnoted o).
Definition with_due (o : Obligations) du : Obligations := mk_obligations (deadlines o) du (unaccounted o) (unnoted o).
Definition with_unnoted (o : Obligations) un : Obligations := mk_obligations (deadlines o) (deadlines_due o) (unaccounted o) un.
Definition in_state (r : DeadlineRow) (s : DeadlineState) : DeadlineRow := mk_drow (d_resolved r) (d_digest r) (d_warn r) s (d_ack r).
Definition row_unaccounted (r : DeadlineRow) : bool := is_unaccounted (d_state r) (d_ack r).
Definition move_deadline (o : Obligations) (k : CaseId * str) (r : DeadlineRow) (to : DeadlineState) : result CaseError Obligations :=
  if negb (may_become (d_state r) to) then Err (DeadlineFinal k.1 k.2 (d_state r) to) else
  let was := d_state r in
  let o := with_deadline o k (in_state r to) in
  let before := trigger_at was (d_resolved r) (d_warn r) in
  let after := trigger_at to (d_resolved r) (d_warn r) in
  let moved := negb (bool_decide (before = after)) in
  let o := if is_open was && (negb (is_open to) || moved) then with_due o (base.delete (before, k) (deadlines_due o)) else o in
  let o := if is_open to && (negb (is_open was) || moved) then with_due o (<[(after, k) := d_resolved r]> (deadlines_due o)) else o in
  Ok (reindex_unaccounted o k (d_resolved r) (row_unaccounted r) (row_unaccounted (in_state r to))).
(** A new row and its index entries. *)
Definition row_of (d : Deadline) : DeadlineRow := mk_drow (resolved_at d) (calendar_digest d) (warn_at d) (dl_state d) (acknowledged d).
Definition list_deadline (o : Obligations) (k : CaseId * str) (r : DeadlineRow) : Obligations :=
  let o := with_deadline o k r in
  let o := if is_open (d_state r)
           then with_due o (<[(trigger_at (d_state r) (d_resolved r) (d_warn r), k) := d_resolved r]> (deadlines_due o)) else o in
  reindex_unaccounted o k (d_resolved r) false (row_unaccounted r).
Definition build_deadline (k : CaseId * str) (r : DeadlineRow) : Deadline :=
  mk_deadline k.1 k.2 (d_resolved r) (d_digest r) (d_warn r) (d_state r) (d_ack r).
(** A case's obligations, by name. *)
Definition names_of (o : Obligations) (c : CaseId) : list str :=
  iter_str (set_filter_map (fun k => if decide (k.1 = c) then Some k.2 else None) (dom (deadlines o))).
Definition rows_for (o : Obligations) (c : CaseId) : list Deadline :=
  omap (fun n => build_deadline (c, n) <$> deadlines o !! (c, n)) (names_of o c).
Definition outstanding (o : Obligations) (c : CaseId) : nat := length (filter (fun d => is_open (dl_state d) = true) (rows_for o c)).
(** [sort_by_key]: stable. *)
Fixpoint insert_due (d : Deadline) (l : list Deadline) : list Deadline :=
  match l with
  | [] => [d]
  | x :: l => if bool_decide (resolved_at d <= resolved_at x)%Z then d :: x :: l else x :: insert_due d l
  end.
Definition by_resolved (l : list Deadline) : list Deadline := foldr insert_due [] l.

Definition refuse_erased (st : CaseTables) (c : CaseId) : result CaseError unit :=
  match erasures (preserved st) !! c with
  | Some e => Err (CaseErased c (erased_at e) (erased_reason e))
  | None => Ok tt
  end.
Definition committed {T} (st : CaseTables) (r : result CaseError (CaseTables * T)) : CaseTables * result CaseError T :=
  match r with Ok (st', x) => (st', Ok x) | Err e => (st, Err e) end.
Definition get_case (st : CaseTables) (c : CaseId) : result CaseError CaseRow :=
  ok_or (cases (matters st) !! c) (Store (NotFound c)).
Definition get_deadline (st : CaseTables) (k : CaseId * str) : result CaseError DeadlineRow :=
  ok_or (deadlines (obligations st) !! k) (Store (NotFound (k.1 ++ lit "/" ++ k.2))).

(** ** Cases and their state *)

Inductive Correlation := Opened (c : CaseId) | Attached (c : CaseId).
Definition case_id (x : Correlation) : CaseId := match x with Opened c | Attached c => c end.
Definition correlate_or_open (st : CaseTables) (id : CaseId) (kind : str) (keys : list CorrelationKey) (at_ : Z) :
    CaseTables * result CaseError Correlation :=
  committed st (
    match attached (matters st) keys with
    | Some c => Ok (st, Attached c)
    | None =>
        m ← claim_keys (with_row (matters st) id (mk_crow kind Open (lit "null") 0 at_)) id keys;
        Ok (with_matters st (list_case m id Open at_), Opened id)
    end).

Definition close (st : CaseTables) (c : CaseId) : CaseTables * result CaseError unit :=
  committed st (
    let n := outstanding (obligations st) c in
    if negb (bool_decide (n = 0)) then Err (ObligationsOutstanding c n) else
    r ← get_case st c;
    Ok (with_matters st (release_correlation (move_case (matters st) c r Closed) c), tt)).
Definition set_status (st : CaseTables) (c : CaseId) (s : CaseStatus) : CaseTables * result CaseError unit :=
  if decide (s = Closed) then close st c else
  committed st (
    _ ← refuse_erased st c;
    r ← get_case st c;
    let m := move_case (matters st) c r s in
    Ok (with_matters st (if decide (c_status r = Closed) then reclaim_correlation m c else m), tt)).

(** ** Deadlines *)

Definition register_deadline (st : CaseTables) (d : Deadline) : CaseTables * result CaseError unit :=
  committed st (
    let k := (of_case d, dl_name d) in
    if bool_decide ((c_status <$> cases (matters st) !! of_case d) = Some Closed) then Err (CaseIsClosed (of_case d)) else
    match deadlines (obligations st) !! k with
    | Some r =>
        if bool_decide (d_resolved r = resolved_at d) && bool_decide (d_digest r = calendar_digest d) && bool_decide (d_warn r = warn_at d)
        then Ok (st, tt) else Err (DeadlineExists (of_case d) (dl_name d))
    | None => Ok (with_obligations st (list_deadline (obligations st) k (row_of d)), tt)
    end).
Definition set_deadline_state (st : CaseTables) (k : CaseId * str) (s : DeadlineState) : CaseTables * result CaseError unit :=
  committed st (r ← get_deadline st k; o ← move_deadline (obligations st) k r s; Ok (with_obligations st o, tt)).
(** Breached and escalated in one decision, if still outstanding and due. *)
Definition breach_deadline (st : CaseTables) (k : CaseId * str) (now : Z) : CaseTables * result CaseError bool :=
  committed st (
    r ← get_deadline st k;
    if negb (is_open (d_state r)) || bool_decide (now < d_resolved r)%Z then Ok (st, false) else
    o ← move_deadline (obligations st) k r Breached;
    let st := with_obligations st (with_unnoted o ({[k]} ∪ unnoted o)) in
    c ← get_case st k.1;
    if bool_decide (c_status c = Closed) || bool_decide (c_status c = Escalated) then Ok (st, true)
    else Ok (with_matters st (move_case (matters st) k.1 c Escalated), true)).
Definition mark_breach_noted (st : CaseTables) (k : CaseId * str) : CaseTables * result CaseError unit :=
  committed st (_ ← get_deadline st k; let o := obligations st in Ok (with_obligations st (with_unnoted o (unnoted o ∖ {[k]})), tt)).
Definition acknowledge_breach (st : CaseTables) (k : CaseId * str) (note : BreachNote) : CaseTables * result CaseError bool :=
  committed st (
    r ← get_deadline st k;
    if negb (bool_decide (d_state r = Breached)) then Err (NotBreached k.1 k.2 (d_state r)) else
    if bool_decide (is_Some (d_ack r)) then Ok (st, false) else
    let r' := mk_drow (d_resolved r) (d_digest r) (d_warn r) (d_state r) (Some note) in
    let o := with_deadline (obligations st) k r' in
    Ok (with_obligations st (reindex_unaccounted o k (d_resolved r) (row_unaccounted r) (row_unaccounted r')), true)).

Definition name_cmp : CaseId * str -> CaseId * str -> comparison := pair_cmp str_cmp str_cmp.
Definition due_cmp : Z * (CaseId * str) -> Z * (CaseId * str) -> comparison := pair_cmp Z.compare name_cmp.
Definition read_deadlines (o : Obligations) (ks : list (CaseId * str)) : list Deadline :=
  omap (fun k => build_deadline k <$> deadlines o !! k) ks.
Definition deadlines_of (st : CaseTables) (c : CaseId) : list Deadline := by_resolved (rows_for (obligations st) c).
Definition breaches_to_note (st : CaseTables) (limit : nat) : list Deadline :=
  take limit (by_resolved (read_deadlines (obligations st) (iter_by name_cmp (unnoted (obligations st))))).
Definition due (st : CaseTables) (now : Z) (limit : nat) : list Deadline :=
  by_resolved (take limit (read_deadlines (obligations st)
    (snd <$> filter (fun x => x.1 <= now)%Z (iter_by due_cmp (dom (deadlines_due (obligations st))))))).
Definition breached (st : CaseTables) (limit : nat) : list Deadline :=
  take limit (read_deadlines (obligations st) (snd <$> iter_by due_cmp (unaccounted (obligations st)))).

(** ** Holds and erasures *)

Definition place_hold (st : CaseTables) (c : CaseId) (h : LegalHold) : CaseTables * result CaseError bool :=
  committed st (
    _ ← get_case st c;
    _ ← refuse_erased st c;
    let p := preserved st in
    match held p !! c with
    | Some _ => Ok (st, false)
    | None => Ok (with_preserved st (mk_holds (<[c := h]> (held p)) ({[(placed_at h, c)]} ∪ held_by_time p) (erasures p)), true)
    end).
(** Any hold, or that one. *)
Definition remove_hold (st : CaseTables) (c : CaseId) (expected : option LegalHold) : CaseTables * result CaseError bool :=
  committed st (
    _ ← get_case st c;
    let p := preserved st in
    match held p !! c with
    | Some h =>
        let same := match expected with
                    | Some e => bool_decide (placed_at h = placed_at e) && bool_decide (hold_reason h = hold_reason e)
                                && bool_decide (hold_by h = hold_by e)
                    | None => true
                    end in
        if same then Ok (with_preserved st (mk_holds (base.delete c (held p)) (held_by_time p ∖ {[(placed_at h, c)]}) (erasures p)), true)
        else Ok (st, false)
    | None => Ok (st, false)
    end).
Definition release_hold (st : CaseTables) (c : CaseId) : CaseTables * result CaseError bool := remove_hold st c None.
Definition release_hold_if (st : CaseTables) (c : CaseId) (standing : LegalHold) : CaseTables * result CaseError bool :=
  remove_hold st c (Some standing).
Definition hold (st : CaseTables) (c : CaseId) : option LegalHold := held (preserved st) !! c.
Inductive ErasureStart := Marked (e : Erasure) | HeldBy (h : LegalHold) | NotClosed (s : CaseStatus).
Definition begin_erasure (st : CaseTables) (c : CaseId) (at_ : Z) (reason : str) : CaseTables * result CaseError ErasureStart :=
  committed st (
    r ← get_case st c;
    let p := preserved st in
    match erasures p !! c, held p !! c with
    | Some e, _ => Ok (st, Marked e)
    | None, Some h => Ok (st, HeldBy h)
    | None, None =>
        if decide (c_status r = Closed) then
          let e := mk_erasure at_ reason false in
          Ok (with_preserved st (mk_holds (held p) (held_by_time p) (<[c := e]> (erasures p))), Marked e)
        else Ok (st, NotClosed (c_status r))
    end).
Definition complete_erasure (st : CaseTables) (c : CaseId) : CaseTables * result CaseError unit :=
  committed st (
    _ ← get_case st c;
    let p := preserved st in
    match erasures p !! c with
    | None => Err (Store (Backend (lit "no erasure was begun")))
    | Some e =>
        Ok (with_preserved st (mk_holds (held p) (held_by_time p) (<[c := mk_erasure (erased_at e) (erased_reason e) true]> (erasures p))), tt)
    end).
Definition erasure (st : CaseTables) (c : CaseId) : option Erasure := erasures (preserved st) !! c.
(** Strictly after a cursor. *)
Definition past {A} (cmp : A -> A -> comparison) (from : option A) (x : A) : bool :=
  match from with Some a => match cmp a x with Lt => true | _ => false end | None => true end.
(** A page of holds, oldest first, after the cursor's. *)
Definition time_case_cmp : Z * CaseId -> Z * CaseId -> comparison := pair_cmp Z.compare str_cmp.
Definition holds (st : CaseTables) (after : option CaseId) (limit : nat) : list (CaseId * LegalHold) :=
  let p := preserved st in
  let page from :=
    omap (fun x => (fun h => (x.2, mk_hold x.1 (hold_reason h) (hold_by h))) <$> held p !! x.2)
      (take limit (filter (past time_case_cmp from)
        (iter_by time_case_cmp (held_by_time p)))) in
  match after with
  | Some c => match held p !! c with Some h => page (Some (placed_at h, c)) | None => [] end
  | None => page None
  end.

(** ** Links *)

(** The next position, after the last. *)
Definition next_seq (l : Links) (c : CaseId) : Z :=
  map_fold (fun k _ acc => if decide (k.1 = c) then Z.max acc (k.2 + 1) else acc) 0%Z (case_runs l).
Definition attach_run (st : CaseTables) (c : CaseId) (run : RunId) : CaseTables :=
  let l := links st in
  match run_seen l !! (c, run) with
  | Some _ => st
  | None => let n := next_seq l c in
      with_links st (mk_links (case_blobs l) (<[(c, n) := run]> (case_runs l)) (<[(c, run) := n]> (run_seen l)))
  end.
Definition link_blob (st : CaseTables) (c : CaseId) (d : Digest) (at_ : Z) : CaseTables :=
  let l := links st in with_links st (mk_links ({[(c, at_, d)]} ∪ case_blobs l) (case_runs l) (run_seen l)).
Definition time_digest_cmp : Z * Digest -> Z * Digest -> comparison := pair_cmp Z.compare digest_cmp.
(** The same bytes stored twice are one artifact. *)
Fixpoint first_of_each (l : list Digest) : list Digest :=
  match l with [] => [] | d :: l => d :: filter (fun x => x <> d) (first_of_each l) end.
Definition blobs_of (st : CaseTables) (c : CaseId) : list Digest :=
  first_of_each (snd <$> iter_by time_digest_cmp
    (set_filter_map (fun x => if decide (x.1.1 = c) then Some (x.1.2, x.2) else None) (case_blobs (links st)))).
Definition runs_of (l : Links) (c : CaseId) : list RunId :=
  omap (fun n => case_runs l !! (c, n))
    (iter_by Z.compare (set_filter_map (fun k => if decide (k.1 = c) then Some k.2 else None) (dom (case_runs l)))).

Section cases.
Context {J : Type}.
Class CaseJson := {
  state_text : J -> result str str;
  state_of : str -> option J;
  null_state : J;
}.
Context `{CaseJson}.

Record Case := mk_case {
  id : CaseId;
  kind : str;
  status : CaseStatus;
  correlation : list CorrelationKey;
  state : J;
  version : Z;
  opened_at : Z;
  runs : list RunId;
}.
Definition case (st : CaseTables) (c : CaseId) : option Case :=
  (fun r => mk_case c (c_kind r) (c_status r) (case_keys (matters st) c) (default null_state (state_of (c_state r))) (c_version r)
    (c_opened r) (runs_of (links st) c)) <$> cases (matters st) !! c.
(** The write names the version it read. *)
Definition put_state (st : CaseTables) (c : CaseId) (expected : Z) (s : J) : CaseTables * result CaseError Z :=
  committed st (
    text ← map_err (fun e => Store (Encoding e)) (state_text s);
    next ← ok_or (next_version expected) (Store (Corrupt 0 (lit "at the last version")));
    _ ← refuse_erased st c;
    match cases (matters st) !! c with
    | Some r =>
        if bool_decide (c_version r = expected)
        then Ok (with_matters st (with_row (matters st) c (mk_crow (c_kind r) (c_status r) text next (c_opened r))), next)
        else Err (CaseConflict c expected (c_version r))
    | None => missing c
    end).

Fixpoint import_runs (l : Links) (c : CaseId) (n : Z) (rs : list RunId) : Links :=
  match rs with
  | [] => l
  | r :: rs => import_runs (mk_links (case_blobs l) (<[(c, n) := r]> (case_runs l)) (<[(c, r) := n]> (run_seen l))) c (n + 1) rs
  end.
Fixpoint import_blobs (l : Links) (c : CaseId) (at_ : Z) (ds : list Digest) : Links :=
  match ds with
  | [] => l
  | d :: ds => import_blobs (mk_links ({[(c, at_, d)]} ∪ case_blobs l) (case_runs l) (run_seen l)) c (at_ + 1) ds
  end.
Definition import_case (st : CaseTables) (x : Case) (ds : list Deadline) (blobs : list Digest) : CaseTables * result CaseError unit :=
  committed st (
    text ← map_err (fun e => Store (Backend e)) (state_text (state x));
    let c := id x in
    if bool_decide (is_Some (cases (matters st) !! c)) then Err (Store (Backend (lit "already exists"))) else
    m ← import_keys (with_row (matters st) c (mk_crow (kind x) (status x) text (version x) (opened_at x))) c
          (bool_decide (status x = Closed)) (correlation x);
    let o := foldl (fun o d => list_deadline o (c, dl_name d) (row_of d)) (obligations st) ds in
    let l := import_blobs (import_runs (links st) c 0 (runs x)) c (opened_at x) blobs in
    Ok (mk_tables (list_case m c (status x) (opened_at x)) o (preserved st) l, tt)).

Definition status_cmp (x y : Z * CaseId) : comparison := pair_cmp Z.compare str_cmp x y.
Definition by_status (st : CaseTables) (s : CaseStatus) (limit : nat) : list Case :=
  omap (fun x => case st x.2) (take limit (iter_by status_cmp
    (set_filter_map (fun x => if decide (x.1.1 = s) then Some (x.1.2, x.2) else None) (by_status_idx (matters st))))).
(** Every case in id order, strictly after the cursor. *)
Definition cases_page (st : CaseTables) (after : option CaseId) (limit : nat) : list Case :=
  omap (case st) (take limit (filter (past str_cmp after)
    (iter_str (dom (cases (matters st)))))).

Record CaseCensus := mk_census { open_count : nat; oldest_age : option Z; due_count : nat; breached_count : nat }.
Definition age_secs (opened now : Z) : Z := Z.max 0 (now - opened).
Definition census (st : CaseTables) (now : Z) : CaseCensus :=
  let opened := iter_by time_case_cmp (cases_open (matters st)) in
  mk_census (length opened) ((fun x => age_secs x.1 now) <$> head opened)
    (size (filter (fun x => x.1.1 <= now /\ x.2 <= now)%Z (deadlines_due (obligations st))))
    (size (unaccounted (obligations st))).
End cases.
