(* ===== verification/CasesTables.v ===== *)
(** * The cases' rows and indexes ([src/src/store/redb_cases.rs])

    The status indexes list exactly the cases, a key names a case that is open
    and has that key, and every operation on a case's row keeps it so. *)

From S2P Require Import Prelude Digest EffectKey Index Panel Text Chain Mailbox Cases.

(** ** The status indexes *)
Definition open_key (c : CaseId) (r : CaseRow) : option (Z * CaseId) := if decide (c_status r = Closed) then None else Some (c_opened r, c).
Definition status_key (c : CaseId) (r : CaseRow) : option (CaseStatus * Z * CaseId) := Some (c_status r, - c_opened r, c)%Z.
Lemma open_inj : key_inj open_key.
Proof. intros k v k' v' x. unfold open_key. repeat case_decide; naive_solver. Qed.
Lemma status_inj : key_inj status_key.
Proof. intros k v k' v' x. unfold status_key. naive_solver. Qed.

Record matters_ok (m : Matters) : Prop := {
  mo_open : indexed open_key (cases_open m) (cases m);
  mo_status : indexed status_key (by_status_idx m) (cases m);
  mo_corr c k : (c, k) ∈ corr_all m -> is_Some (cases m !! c);
  mo_claimed k c : corr_open m !! k = Some c -> (c, k) ∈ corr_all m;
  mo_live k c : corr_open m !! k = Some c -> (c_status <$> cases m !! c) <> Some Closed;
}.
Definition same_but_status (r r' : CaseRow) : Prop := c_opened r' = c_opened r.

Lemma with_row_ok m c r r' : matters_ok m -> cases m !! c = Some r -> c_status r' = c_status r -> c_opened r' = c_opened r ->
  matters_ok (with_row m c r').
Proof.
  intros [Ho Hs Hc Hk Hl] Hr Hst Hop. split; simpl.
  - eapply indexed_same; [apply open_inj|done..|]. unfold open_key. by rewrite Hst, Hop.
  - eapply indexed_same; [apply status_inj|done..|]. unfold status_key. by rewrite Hst, Hop.
  - intros c' k Hin. destruct (decide (c = c')) as [<-|]; [by rewrite lookup_insert_eq|rewrite lookup_insert_ne by done; by eapply Hc].
  - done.
  - intros k c' Hk'. destruct (decide (c = c')) as [<-|]; [|rewrite lookup_insert_ne by done; by eapply Hl].
    rewrite lookup_insert_eq. simpl. rewrite Hst. specialize (Hl _ _ Hk'). by rewrite Hr in Hl.
Qed.
(** A case moved: its row, and what the indexes list. *)
Lemma move_cases m c r s c' : cases (move_case m c r s) !! c' =
  if decide (c = c') then Some (mk_crow (c_kind r) s (c_state r) (c_version r) (c_opened r)) else cases m !! c'.
Proof.
  unfold move_case, reindex_status. case_decide as Hc; case_decide as Hd; simpl; subst;
    by rewrite ?lookup_insert_eq, ?lookup_insert_ne.
Qed.
Lemma move_corr m c r s : corr_open (move_case m c r s) = corr_open m /\ corr_all (move_case m c r s) = corr_all m.
Proof. unfold move_case, reindex_status. by case_decide. Qed.
Lemma move_indexes m c r s : cases m !! c = Some r -> indexed open_key (cases_open m) (cases m) ->
  indexed status_key (by_status_idx m) (cases m) ->
  indexed open_key (cases_open (move_case m c r s)) (cases (move_case m c r s)) /\
  indexed status_key (by_status_idx (move_case m c r s)) (cases (move_case m c r s)).
Proof.
  intros Hr Ho Hs. unfold move_case, reindex_status. destruct (decide (c_status r = s)) as [<-|Hne]; simpl.
  - split; eapply indexed_same; try done; [apply open_inj|apply status_inj].
  - split; (eapply indexed_insert; [apply open_inj || apply status_inj|done|]); intros x; rewrite Hr; simpl.
    + unfold open_key. simpl. assert ((c_opened r, c) ∈ cases_open m <-> c_status r <> Closed) as Hmem.
      { rewrite (indexed_mem _ _ _ c r (c_opened r, c) Ho Hr).
        - unfold open_key. destruct (decide (c_status r = Closed)); naive_solver.
        - intros k' v'. unfold open_key. destruct (decide (c_status v' = Closed)); naive_solver. }
      repeat case_bool_decide; repeat case_decide; try congruence;
        rewrite ?elem_of_difference, ?elem_of_union, ?elem_of_singleton; clear Ho Hs;
        destruct (decide (x = (c_opened r, c))) as [->|]; naive_solver.
    + clear Ho Hs Hr. unfold status_key. simpl. rewrite elem_of_union, elem_of_difference, !elem_of_singleton.
      destruct (decide (x = (s, - c_opened r, c)%Z)); naive_solver.
Qed.

(** *** Correlation *)
Ltac keys_solver := repeat match goal with H : forall k, _ = _ |- _ => clear H end;
  repeat case_decide; rewrite ?elem_of_cons in *; (done || (intuition (subst; congruence)) || naive_solver).
Lemma elem_of_case_keys m c k : k ∈ case_keys m c <-> (c, k) ∈ corr_all m.
Proof.
  unfold case_keys. rewrite elem_of_iter_by, elem_of_set_filter_map. split.
  - intros ([c' k'] & Hin & Hx). case_decide; naive_solver.
  - intros Hin. exists (c, k). split; [done|]. by rewrite decide_True.
Qed.
Lemma release_spec c l m : cases (foldl (release_key c) m l) = cases m /\ corr_all (foldl (release_key c) m l) = corr_all m /\
  cases_open (foldl (release_key c) m l) = cases_open m /\ by_status_idx (foldl (release_key c) m l) = by_status_idx m /\
  forall k, corr_open (foldl (release_key c) m l) !! k = if decide (k ∈ l /\ corr_open m !! k = Some c) then None else corr_open m !! k.
Proof.
  revert m. induction l as [|k0 l IH]; intros m; simpl; [split_and!; try done; intros k; by rewrite decide_False by set_solver|].
  destruct (IH (release_key c m k0)) as (-> & -> & -> & -> & Hk). unfold release_key in *.
  destruct (decide (corr_open m !! k0 = Some c)) as [He|He]; simpl in *; split_and!; try done; intros k; rewrite Hk.
  - destruct (decide (k0 = k)) as [->|Hne].
    + rewrite lookup_delete_eq. keys_solver.
    + rewrite lookup_delete_ne by done. keys_solver.
  - keys_solver.
Qed.
Lemma reclaim_spec c l m : cases (foldl (reclaim_key c) m l) = cases m /\ corr_all (foldl (reclaim_key c) m l) = corr_all m /\
  cases_open (foldl (reclaim_key c) m l) = cases_open m /\ by_status_idx (foldl (reclaim_key c) m l) = by_status_idx m /\
  forall k, corr_open (foldl (reclaim_key c) m l) !! k =
    match corr_open m !! k with Some c' => Some c' | None => if decide (k ∈ l) then Some c else None end.
Proof.
  revert m. induction l as [|k0 l IH]; intros m; simpl.
  { split_and!; try done. intros k. by destruct (corr_open m !! k). }
  destruct (IH (reclaim_key c m k0)) as (-> & -> & -> & -> & Hk). unfold reclaim_key in *.
  destruct (corr_open m !! k0) as [c0|] eqn:He; simpl in *; split_and!; try done; intros k; rewrite Hk.
  - destruct (corr_open m !! k) eqn:Hc; [done|]. keys_solver.
  - destruct (decide (k0 = k)) as [->|Hne].
    + rewrite lookup_insert_eq, He. symmetry. apply decide_True. by left.
    + rewrite lookup_insert_ne by done. destruct (corr_open m !! k) eqn:Hc; [done|]. keys_solver.
Qed.
(** Closing: the case's keys are nobody's. *)
Lemma close_matters m c r : matters_ok m -> cases m !! c = Some r -> matters_ok (release_correlation (move_case m c r Closed) c).
Proof.
  intros [Ho Hs Hc Hk Hl] Hr. destruct (move_indexes m c r Closed Hr Ho Hs) as [Ho' Hs'].
  pose proof (move_cases m c r Closed) as Hmc. destruct (move_corr m c r Closed) as [Hco Hca]. set (m1 := move_case m c r Closed) in *.
  unfold release_correlation. destruct (release_spec c (case_keys m1 c) m1) as (E1 & E2 & E3 & E4 & E5).
  split; rewrite ?E1, ?E2, ?E3, ?E4; try done.
  - intros c' k Hin. rewrite Hmc. case_decide; [done|]. apply (Hc c' k). congruence.
  - intros k c'. rewrite E5. case_decide; [done|]. rewrite Hco, Hca. apply Hk.
  - intros k c'. rewrite E5. case_decide as Hd; [done|]. intros Hk'. rewrite Hmc. case_decide as Hcc; [|rewrite Hco in Hk'; by eapply Hl].
    subst c'. exfalso. apply Hd. split; [|done]. apply elem_of_case_keys. rewrite Hca. apply Hk. congruence.
Qed.
(** Any other move keeps the open cases open. *)
Lemma move_matters m c r s : matters_ok m -> cases m !! c = Some r -> s <> Closed -> matters_ok (move_case m c r s).
Proof.
  intros [Ho Hs Hc Hk Hl] Hr Hne. destruct (move_indexes m c r s Hr Ho Hs) as [Ho' Hs'].
  destruct (move_corr m c r s) as [Hco Hca]. split; rewrite ?Hco, ?Hca; try done.
  - intros c' k Hin. rewrite move_cases. case_decide; [done|]. by eapply Hc.
  - intros k c' Hk'. rewrite move_cases. case_decide; [simpl; congruence|]. by eapply Hl.
Qed.
Lemma reclaim_matters m c : matters_ok m -> (c_status <$> cases m !! c) <> Some Closed -> matters_ok (reclaim_correlation m c).
Proof.
  intros [Ho Hs Hc Hk Hl] Hne. unfold reclaim_correlation. destruct (reclaim_spec c (case_keys m c) m) as (E1 & E2 & E3 & E4 & E5).
  split; rewrite ?E1, ?E2, ?E3, ?E4; try done.
  - intros k c'. rewrite E5. destruct (corr_open m !! k) as [c0|] eqn:Hc0; [intros [= <-]; by apply Hk|].
    case_decide as Hin; [|done]. intros [= <-]. by apply elem_of_case_keys.
  - intros k c'. rewrite E5. destruct (corr_open m !! k) as [c0|] eqn:Hc0; [intros [= <-]; by eapply Hl|].
    case_decide; [|done]. by intros [= <-].
Qed.
(** A new case. *)
Lemma list_matters m c r : matters_ok m -> cases m !! c = None ->
  matters_ok (list_case (with_row m c r) c (c_status r) (c_opened r)).
Proof.
  intros [Ho Hs Hc Hk Hl] Hn. split; simpl.
  - pose proof (indexed_fresh open_key _ _ c r open_inj Ho Hn) as Hi.
    assert (open_key c r = if decide (c_status r = Closed) then None else Some (c_opened r, c)) as E by done. rewrite E in Hi. by case_decide.
  - exact (indexed_fresh status_key _ _ c r status_inj Hs Hn).
  - intros c' k Hin. destruct (decide (c = c')) as [<-|]; [by rewrite lookup_insert_eq|rewrite lookup_insert_ne by done; by eapply Hc].
  - done.
  - intros k c' Hk'. destruct (decide (c = c')) as [<-|]; [|rewrite lookup_insert_ne by done; by eapply Hl].
    apply Hk, Hc in Hk' as [? Hk']. congruence.
Qed.
Lemma claim_keys_spec m c keys m' : claim_keys m c keys = Ok m' ->
  cases m' = cases m /\ cases_open m' = cases_open m /\ by_status_idx m' = by_status_idx m /\
  (forall c' k, (c', k) ∈ corr_all m' <-> (c', k) ∈ corr_all m \/ c' = c /\ k ∈ keys) /\
  (forall k, corr_open m' !! k = if decide (k ∈ keys) then Some c else corr_open m !! k) /\
  (forall k, k ∈ keys -> corr_open m !! k = None).
Proof.
  revert m. induction keys as [|k0 keys IH]; intros m; simpl.
  { intros [= <-]. split_and!; try done; [set_solver|set_solver]. }
  destruct (corr_open m !! k0) eqn:Hk0; [done|]. intros Hm. destruct (IH _ Hm) as (-> & -> & -> & Ha & Hk & Hn). simpl in *.
  split_and!; try done.
  - intros c' k. rewrite Ha. set_solver.
  - intros k. rewrite Hk. destruct (decide (k0 = k)) as [->|Hne].
    + rewrite lookup_insert_eq. keys_solver.
    + rewrite lookup_insert_ne by done. keys_solver.
  - intros k [->|Hin]%elem_of_cons; [done|]. specialize (Hn _ Hin). apply lookup_insert_None in Hn. tauto.
Qed.
Lemma import_keys_spec m c closed keys m' : import_keys m c closed keys = Ok m' ->
  cases m' = cases m /\ cases_open m' = cases_open m /\ by_status_idx m' = by_status_idx m /\
  (forall c' k, (c', k) ∈ corr_all m' <-> (c', k) ∈ corr_all m \/ c' = c /\ k ∈ keys) /\
  (forall k, corr_open m' !! k = if decide (k ∈ keys /\ closed = false) then Some c else corr_open m !! k) /\
  (forall k, k ∈ keys -> closed = false -> forall c', corr_open m !! k = Some c' -> c' = c).
Proof.
  revert m. induction keys as [|k0 keys IH]; intros m; simpl.
  { intros [= <-]. split_and!; try done; set_solver. }
  destruct closed; [|destruct (corr_open m !! k0) as [c0|] eqn:Hk0; [destruct (decide (c0 = c)) as [->|]; [|done]|]];
    intros Hm; destruct (IH _ Hm) as (-> & -> & -> & Ha & Hk & Hn); simpl in *; split_and!; try done.
  - intros c' k. rewrite Ha. set_solver.
  - intros k. rewrite Hk. by rewrite !decide_False by naive_solver.
  - intros c' k. rewrite Ha. set_solver.
  - intros k. rewrite Hk. destruct (decide (k = k0)) as [->|]; keys_solver.
  - intros k [->|Hin]%elem_of_cons; [congruence|by apply Hn].
  - intros c' k. rewrite Ha. set_solver.
  - intros k. rewrite Hk. destruct (decide (k0 = k)) as [->|Hne].
    + rewrite lookup_insert_eq. keys_solver.
    + rewrite lookup_insert_ne by done. keys_solver.
  - intros k [->|Hin]%elem_of_cons _ c' Hc'; [congruence|]. destruct (decide (k0 = k)) as [->|Hne]; [congruence|].
    apply (Hn k Hin eq_refl c'). by rewrite lookup_insert_ne.
Qed.
(** A new case that claims keys nobody holds. *)
Lemma claims_matters m m' c : matters_ok m -> (c_status <$> cases m !! c) <> Some Closed \/ (forall k, corr_open m' !! k = corr_open m !! k) ->
  is_Some (cases m !! c) -> cases m' = cases m -> cases_open m' = cases_open m -> by_status_idx m' = by_status_idx m ->
  (forall c' k, (c', k) ∈ corr_all m' -> (c', k) ∈ corr_all m \/ c' = c) -> (forall x, x ∈ corr_all m -> x ∈ corr_all m') ->
  (forall k, corr_open m' !! k = corr_open m !! k \/ corr_open m' !! k = Some c /\ (c, k) ∈ corr_all m') -> matters_ok m'.
Proof.
  intros [Ho Hs Hc Hk Hl] Hst Hex E1 E2 E3 Ha Hsub Hco. split; rewrite ?E1, ?E2, ?E3; try done.
  - intros c' k [Hin| ->]%Ha; [by eapply Hc|done].
  - intros k c' Hk'. destruct (Hco k) as [E|[E Hin]]; [|congruence]. apply Hsub, Hk. congruence.
  - intros k c' Hk'. destruct (Hco k) as [E|[E Hin]]; [apply (Hl k); congruence|].
    destruct Hst as [Hst|Hst]; [congruence|]. apply (Hl k). rewrite <-Hst. done.
Qed.
