(* ===== verification/CasesOwed.v ===== *)
(** * Obligations ([src/src/store/redb_cases.rs], [src/src/core/case.rs])

    The due index lists every outstanding obligation under the instant it next
    needs attention, the unaccounted index every breach nobody answered for;
    a row's terms never change, and its state only as the transitions allow. *)

From S2P Require Import Prelude Digest EffectKey Index Panel Text Chain Mailbox Cases.

(** ** Obligations *)
Definition owing_key (k : CaseId * str) (r : DeadlineRow) : option (Z * (CaseId * str)) :=
  if is_open (d_state r) then Some (trigger_at (d_state r) (d_resolved r) (d_warn r), k) else None.
Definition unaccounted_key (k : CaseId * str) (r : DeadlineRow) : option (Z * (CaseId * str)) :=
  if row_unaccounted r then Some (d_resolved r, k) else None.
Lemma owing_inj : key_inj owing_key.
Proof. intros k v k' v' x. unfold owing_key. repeat case_match; naive_solver. Qed.
Lemma unaccounted_inj : key_inj unaccounted_key.
Proof. intros k v k' v' x. unfold unaccounted_key. repeat case_match; naive_solver. Qed.

Record obligations_ok (o : Obligations) : Prop := {
  oo_due : indexed owing_key (dom (deadlines_due o)) (deadlines o);
  oo_terms t k v : deadlines_due o !! (t, k) = Some v -> d_resolved <$> deadlines o !! k = Some v;
  oo_unaccounted : indexed unaccounted_key (unaccounted o) (deadlines o);
  oo_unnoted k : k ∈ unnoted o -> d_state <$> deadlines o !! k = Some Breached;
}.
(** How a row may change: its terms never, its state as the transitions
    allow, its first account once. *)
Record row_moves (r r' : DeadlineRow) : Prop := {
  rm_resolved : d_resolved r' = d_resolved r;
  rm_digest : d_digest r' = d_digest r;
  rm_warn : d_warn r' = d_warn r;
  rm_state : may_become (d_state r) (d_state r') = true;
  rm_ack n : d_ack r = Some n -> d_ack r' = Some n;
}.
#[export] Instance row_moves_refl : Reflexive row_moves.
Proof. intros r. split; try done. by destruct (d_state r). Qed.
#[export] Instance row_moves_trans : Transitive row_moves.
Proof.
  intros r r1 r2 [? ? ? H1 H2] [? ? ? H3 H4]. split; try congruence; [|auto].
  by destruct (d_state r), (d_state r1), (d_state r2).
Qed.
Lemma row_moves_ended r r' : row_moves r r' -> is_open (d_state r) = false -> d_state r' = d_state r.
Proof. intros [_ _ _ H _]. by destruct (d_state r), (d_state r'). Qed.

(** What a case index holds once a row's keys are replaced. *)
Lemma unaccounted_spec o k t was now x : x ∈ unaccounted (reindex_unaccounted o k t was now) <->
  (was = false /\ now = true /\ x = (t, k)) \/ (x ∈ unaccounted o /\ ~ (was = true /\ now = false /\ x = (t, k))).
Proof. unfold reindex_unaccounted. destruct was, now; simpl; rewrite ?elem_of_union, ?elem_of_difference, ?elem_of_singleton; destruct (decide (x = (t, k))) as [->|]; intuition congruence. Qed.
Lemma reindex_rest o k t was now : deadlines (reindex_unaccounted o k t was now) = deadlines o /\
  deadlines_due (reindex_unaccounted o k t was now) = deadlines_due o /\ unnoted (reindex_unaccounted o k t was now) = unnoted o.
Proof. unfold reindex_unaccounted. by case_decide. Qed.
(** A row replaced, and the due index with it. *)
Lemma replace_ok o o' k r r' du : obligations_ok o -> deadlines o !! k = Some r -> row_moves r r' ->
  o' = reindex_unaccounted (with_due (with_deadline o k r') du) k (d_resolved r) (row_unaccounted r) (row_unaccounted r') ->
  (forall x, du !! x = if decide (owing_key k r' = Some x) then Some (d_resolved r) else
                       if decide (owing_key k r = Some x) then None else deadlines_due o !! x) -> obligations_ok o'.
Proof.
  intros [Hd Ht Hu Hn] Hr Hm -> Hdu. pose proof (rm_resolved _ _ Hm) as Hres.
  destruct (reindex_rest (with_due (with_deadline o k r') du) k (d_resolved r) (row_unaccounted r) (row_unaccounted r')) as (E1 & E2 & E3).
  split; rewrite ?E1, ?E2, ?E3; simpl.
  - eapply indexed_insert; [apply owing_inj|done|]. intros x. rewrite Hr. simpl. rewrite !elem_of_dom, Hdu.
    clear -x. repeat case_decide; unfold is_Some; naive_solver.
  - intros t k' v. rewrite Hdu. intros Hv. destruct (decide (k = k')) as [<-|Hne].
    + rewrite lookup_insert_eq. simpl. rewrite Hres. case_decide; [done|]. case_decide; [done|].
      apply Ht in Hv. by rewrite Hr in Hv.
    + rewrite lookup_insert_ne by done. unfold owing_key in Hv. repeat case_decide; repeat case_match; simplify_eq; by eapply Ht.
  - eapply indexed_insert; [apply unaccounted_inj|done|]. intros x. rewrite Hr, unaccounted_spec. simpl. unfold unaccounted_key.
    assert (row_unaccounted r = true -> (d_resolved r, k) ∈ unaccounted o) as Hin.
    { intros Hx. apply (Hu _). exists k, r. unfold unaccounted_key. by rewrite Hx. }
    rewrite Hres. clear -Hin. destruct (decide (x = (d_resolved r, k))) as [->|Hne];
      destruct (row_unaccounted r), (row_unaccounted r'); intuition congruence.
  - intros k' Hin. apply Hn in Hin. destruct (decide (k = k')) as [<-|Hne]; [|by rewrite lookup_insert_ne].
    rewrite lookup_insert_eq. rewrite Hr in Hin. simpl in *. f_equal. injection Hin as Hin. rewrite <-Hin. apply (row_moves_ended _ _ Hm). by rewrite Hin.
Qed.
Lemma move_deadline_ok o o' k r to : obligations_ok o -> deadlines o !! k = Some r -> move_deadline o k r to = Ok o' ->
  obligations_ok o' /\ row_moves r (in_state r to) /\ deadlines o' = <[k := in_state r to]> (deadlines o) /\ unnoted o' = unnoted o.
Proof.
  intros Ho Hr. unfold move_deadline. destruct (may_become (d_state r) to) eqn:Hmay; simpl; [|done].
  set (o1 := if is_open (d_state r) && _ then _ else _). set (o2 := if is_open to && _ then _ else _). intros [= <-].
  assert (row_moves r (in_state r to)) as Hm by (by split).
  assert (deadlines o2 = <[k := in_state r to]> (deadlines o) /\ unnoted o2 = unnoted o /\ unaccounted o2 = unaccounted o) as (E1 & E2 & E3).
  { unfold o2, o1. by repeat case_match. }
  destruct (reindex_rest o2 k (d_resolved r) (row_unaccounted r) (row_unaccounted (in_state r to))) as (E4 & _ & E5).
  split_and!; [|done|by rewrite E4|by rewrite E5].
  assert (o2 = with_due (with_deadline o k (in_state r to)) (deadlines_due o2)) as E by (unfold o2, o1; by repeat case_match).
  eapply (replace_ok o _ k r (in_state r to) (deadlines_due o2)); [done..|by rewrite <-E|]. intros x.
  assert (owing_key k r = Some x -> deadlines_due o !! x = Some (d_resolved r)) as Hwas.
  { intros Hx. assert (x ∈ dom (deadlines_due o)) as [v Hv]%elem_of_dom by (apply (oo_due _ Ho); eauto).
    destruct x as [t k']. assert (k' = k) as -> by (unfold owing_key in Hx; case_match; naive_solver).
    pose proof (oo_terms _ Ho _ _ _ Hv) as E'. rewrite Hr in E'. simpl in E'. congruence. }
  unfold o2, o1, owing_key in *. simpl in *. clear -Hwas.
  destruct (is_open (d_state r)), (is_open to); simpl in *;
    try (destruct (decide (trigger_at (d_state r) (d_resolved r) (d_warn r) = trigger_at to (d_resolved r) (d_warn r))) as [E|E];
      [rewrite (bool_decide_eq_true_2 _ E)|rewrite (bool_decide_eq_false_2 _ E)]); simpl;
    rewrite ?lookup_insert, ?lookup_delete; repeat case_decide; try congruence; try naive_solver; apply Hwas; congruence.
Qed.
(** A row nobody had. *)
Lemma list_deadline_rows o k r : deadlines (list_deadline o k r) = <[k := r]> (deadlines o) /\ unnoted (list_deadline o k r) = unnoted o.
Proof.
  unfold list_deadline. match goal with |- context [reindex_unaccounted ?o1 k ?t ?a ?b] => destruct (reindex_rest o1 k t a b) as (-> & _ & ->) end.
  by case_match.
Qed.
Lemma list_deadline_ok o k r : obligations_ok o -> deadlines o !! k = None -> obligations_ok (list_deadline o k r).
Proof.
  intros [Hd Ht Hu Hn] Hk. destruct (list_deadline_rows o k r) as [E1 E2]. split; rewrite ?E1, ?E2.
  - unfold list_deadline. set (o1 := with_deadline o k r). match goal with |- context [reindex_unaccounted ?o2 k ?t ?a ?b] =>
      destruct (reindex_rest o2 k t a b) as (_ & -> & _) end.
    pose proof (indexed_fresh owing_key _ _ k r owing_inj Hd Hk) as Hi.
    destruct (owing_key k r) as [x|] eqn:Hx; unfold owing_key in Hx; destruct (is_open (d_state r)); simplify_eq; [|done].
    simpl. by rewrite dom_insert_L.
  - intros t k' v. unfold list_deadline. match goal with |- context [reindex_unaccounted ?o2 k ?t ?a ?b] =>
      destruct (reindex_rest o2 k t a b) as (_ & -> & _) end.
    destruct (decide (k = k')) as [<-|Hne]; [rewrite lookup_insert_eq|rewrite lookup_insert_ne by done].
    + assert (forall t', deadlines_due o !! (t', k) = None) as Hno.
      { intros t'. destruct (deadlines_due o !! (t', k)) as [w|] eqn:E; [|done]. apply Ht in E. by rewrite Hk in E. }
      case_match; simpl; [|by rewrite Hno]. rewrite lookup_insert. case_decide; [by intros [= <-]|by rewrite Hno].
    + case_match; simpl; [|apply Ht]. rewrite lookup_insert_ne by congruence. apply Ht.
  - eapply indexed_insert; [apply unaccounted_inj|done|]. intros x. rewrite Hk. unfold list_deadline. rewrite unaccounted_spec.
    assert (unaccounted (if is_open (d_state r) then with_due (with_deadline o k r) (<[(trigger_at (d_state r) (d_resolved r) (d_warn r), k):=d_resolved r]> (deadlines_due (with_deadline o k r))) else with_deadline o k r) = unaccounted o) as -> by (by case_match).
    unfold unaccounted_key. simpl. clear. destruct (row_unaccounted r); intuition congruence.
  - intros k' Hin. apply Hn in Hin. destruct (decide (k = k')) as [<-|]; [|by rewrite lookup_insert_ne]. by rewrite Hk in Hin.
Qed.

(** ** What a case owes *)
Definition owes (o : Obligations) (c : CaseId) (n : str) : Prop := exists r, deadlines o !! (c, n) = Some r /\ is_open (d_state r) = true.
Lemma elem_of_names o c n : n ∈ names_of o c <-> is_Some (deadlines o !! (c, n)).
Proof.
  unfold names_of, iter_str. rewrite elem_of_iter_by, elem_of_set_filter_map. split.
  - intros ([c' n'] & Hin%elem_of_dom & Hx). simpl in Hx. case_decide; [|done]. injection Hx as <-. by subst c'.
  - intros Hs. exists (c, n). split; [by apply elem_of_dom|]. simpl. by rewrite decide_True.
Qed.
Lemma elem_of_rows o c d : d ∈ rows_for o c <-> exists n r, deadlines o !! (c, n) = Some r /\ d = build_deadline (c, n) r.
Proof.
  unfold rows_for. rewrite list_elem_of_omap. split.
  - intros (n & _ & Hn). apply fmap_Some in Hn as (r & Hr & ->). eauto.
  - intros (n & r & Hr & ->). exists n. split; [apply elem_of_names; eauto|]. by rewrite Hr.
Qed.
Lemma outstanding_zero o c : outstanding o c = 0 <-> forall n, ~ owes o c n.
Proof.
  unfold outstanding. split.
  - intros Hl%nil_length_inv n (r & Hr & Hop). assert (build_deadline (c, n) r ∈ filter (fun d => is_open (dl_state d) = true) (rows_for o c)) as Hin.
    { apply list_elem_of_filter. split; [done|]. apply elem_of_rows. eauto. }
    rewrite Hl in Hin. by apply not_elem_of_nil in Hin.
  - intros Hn. destruct (filter _ _) as [|d l] eqn:E; [done|]. exfalso.
    assert (d ∈ filter (fun d => is_open (dl_state d) = true) (rows_for o c)) as Hin by (rewrite E; by left).
    apply list_elem_of_filter in Hin as [Hop (n & r & Hr & ->)%elem_of_rows]. apply (Hn n). exists r. by split.
Qed.
(** How many, by name. *)
Lemma outstanding_counts o c : exists ns, NoDup ns /\ (forall n, n ∈ ns <-> owes o c n) /\ length ns = outstanding o c.
Proof.
  set (P := fun n => (is_open ∘ d_state) <$> deadlines o !! (c, n) = Some true). exists (filter P (names_of o c)). split_and!.
  - apply NoDup_filter. unfold names_of, iter_str, iter_by. rewrite merge_sort_Permutation. apply NoDup_elements.
  - intros n. rewrite list_elem_of_filter, elem_of_names. unfold P, owes, is_Some. split.
    + intros [(r & Hr & Hop)%fmap_Some _]. by exists r.
    + intros (r & Hr & Hop). rewrite Hr. simpl. rewrite Hop. eauto.
  - unfold outstanding, rows_for. induction (names_of o c) as [|n ns IH]; [done|]. rewrite filter_cons. csimpl.
    destruct (decide (P n)) as [HP|HP]; unfold P in HP; destruct (deadlines o !! (c, n)) as [r|]; simpl in HP |- *; try done;
      rewrite filter_cons; simpl; [injection HP as ->|destruct (is_open (d_state r)); [done|]]; simpl; by rewrite IH.
Qed.
Lemma move_deadline_rows o o' k r to : move_deadline o k r to = Ok o' -> deadlines o' = <[k := in_state r to]> (deadlines o).
Proof.
  unfold move_deadline. destruct (may_become _ _); simpl; [|done]. intros [= <-].
  match goal with |- context [reindex_unaccounted ?o1 k ?t ?a ?b] => destruct (reindex_rest o1 k t a b) as (-> & _ & _) end. by repeat case_match.
Qed.
