(* ===== verification/CasesSafety.v ===== *)
(** * What the case store keeps ([src/src/store/redb_cases.rs])

    After any operations the tables of [Cases] agree; a key names one open
    case; a closed case owes nothing and an ended obligation stays ended; no
    state write is lost; and a held case is not erased, nor an erased one held
    or changed. *)

From S2P Require Import Prelude Digest EffectKey Index Panel Text Chain Mailbox Cases CasesTables CasesOwed.

Definition held_key (c : CaseId) (h : LegalHold) : option (Z * CaseId) := Some (placed_at h, c).
Lemma held_inj : key_inj held_key.
Proof. intros k v k' v' x. unfold held_key. naive_solver. Qed.

(** ** The store's invariant *)
Record store_ok (st : CaseTables) : Prop := {
  so_matters : matters_ok (matters st);
  so_obligations : obligations_ok (obligations st);
  (** An obligation is of a known case, and a closed case owes nothing. *)
  so_known k d : deadlines (obligations st) !! k = Some d -> is_Some (cases (matters st) !! k.1);
  so_settled c n : c_status <$> cases (matters st) !! c = Some Closed -> ~ owes (obligations st) c n;
  (** A held case is known and not erased; an erased one is closed. *)
  so_held : indexed held_key (held_by_time (preserved st)) (held (preserved st));
  so_kept c : is_Some (held (preserved st) !! c) -> is_Some (cases (matters st) !! c) /\ erasures (preserved st) !! c = None;
  so_erased c : is_Some (erasures (preserved st) !! c) -> c_status <$> cases (matters st) !! c = Some Closed;
}.
Lemma no_cases_ok : store_ok no_cases.
Proof.
  split; simpl; try (intros *; rewrite ?lookup_empty; try done; by intros []); try apply indexed_empty.
  - split; simpl; try apply indexed_empty; intros *; by rewrite ?lookup_empty.
  - split; simpl; try (rewrite dom_empty_L; apply indexed_empty); try apply indexed_empty; try (intros *; by rewrite ?lookup_empty).
Qed.

(** ** The store in steps

    What one operation writes, as steps with what each was checked for. *)
Definition erase_row (p : Holds) (c : CaseId) (e : Erasure) : Holds := mk_holds (held p) (held_by_time p) (<[c := e]> (erasures p)).
Inductive step (st : CaseTables) : CaseTables -> Prop :=
| s_open c r keys m : cases (matters st) !! c = None ->
    (claim_keys (with_row (matters st) c r) c keys = Ok m /\ c_status r <> Closed \/
     import_keys (with_row (matters st) c r) c (bool_decide (c_status r = Closed)) keys = Ok m) ->
    step st (with_matters st (list_case m c (c_status r) (c_opened r)))
| s_close c r : cases (matters st) !! c = Some r -> (forall n, ~ owes (obligations st) c n) ->
    step st (with_matters st (release_correlation (move_case (matters st) c r Closed) c))
| s_move c r s : cases (matters st) !! c = Some r -> c_status r <> Closed -> s <> Closed ->
    step st (with_matters st (move_case (matters st) c r s))
| s_reopen c r s : cases (matters st) !! c = Some r -> erasures (preserved st) !! c = None -> s <> Closed ->
    step st (with_matters st (reclaim_correlation (move_case (matters st) c r s) c))
| s_put c r text next : cases (matters st) !! c = Some r -> erasures (preserved st) !! c = None ->
    next_version (c_version r) = Some next ->
    step st (with_matters st (with_row (matters st) c (mk_crow (c_kind r) (c_status r) text next (c_opened r))))
| s_register k d : is_Some (cases (matters st) !! k.1) -> deadlines (obligations st) !! k = None ->
    (is_open (d_state d) = true -> c_status <$> cases (matters st) !! k.1 <> Some Closed) ->
    step st (with_obligations st (list_deadline (obligations st) k d))
| s_deadline k d to o : deadlines (obligations st) !! k = Some d -> move_deadline (obligations st) k d to = Ok o ->
    step st (with_obligations st o)
| s_breached k d : deadlines (obligations st) !! k = Some d -> d_state d = Breached ->
    step st (with_obligations st (with_unnoted (obligations st) ({[k]} ∪ unnoted (obligations st))))
| s_noted k : step st (with_obligations st (with_unnoted (obligations st) (unnoted (obligations st) ∖ {[k]})))
| s_ack k d d' n : deadlines (obligations st) !! k = Some d -> d_state d = Breached -> d_ack d = None ->
    d' = mk_drow (d_resolved d) (d_digest d) (d_warn d) (d_state d) (Some n) ->
    step st (with_obligations st (reindex_unaccounted (with_deadline (obligations st) k d') k (d_resolved d) (row_unaccounted d) (row_unaccounted d')))
| s_hold c h : is_Some (cases (matters st) !! c) -> erasures (preserved st) !! c = None -> held (preserved st) !! c = None ->
    step st (with_preserved st (mk_holds (<[c := h]> (held (preserved st))) ({[(placed_at h, c)]} ∪ held_by_time (preserved st)) (erasures (preserved st))))
| s_release c h : held (preserved st) !! c = Some h ->
    step st (with_preserved st (mk_holds (base.delete c (held (preserved st))) (held_by_time (preserved st) ∖ {[(placed_at h, c)]}) (erasures (preserved st))))
| s_erase c e : c_status <$> cases (matters st) !! c = Some Closed -> held (preserved st) !! c = None -> erasures (preserved st) !! c = None ->
    step st (with_preserved st (erase_row (preserved st) c e))
| s_erased c e : erasures (preserved st) !! c = Some e ->
    step st (with_preserved st (erase_row (preserved st) c (mk_erasure (erased_at e) (erased_reason e) true)))
| s_links l : step st (with_links st l).

(** *** Rows *)
Lemma open_matters m c r keys m' : matters_ok m -> cases m !! c = None ->
  (claim_keys (with_row m c r) c keys = Ok m' /\ c_status r <> Closed \/
   import_keys (with_row m c r) c (bool_decide (c_status r = Closed)) keys = Ok m') ->
  matters_ok (list_case m' c (c_status r) (c_opened r)) /\ cases m' = <[c := r]> (cases m) /\
  (forall k c', corr_open m !! k = Some c' -> c' <> c -> corr_open m' !! k = Some c').
Proof.
  intros Hm Hn Hk. pose proof (list_matters m c r Hm Hn) as Hl.
  assert (cases m' = <[c := r]> (cases m) /\ cases_open m' = cases_open m /\ by_status_idx m' = by_status_idx m /\
    (forall c' k, (c', k) ∈ corr_all m' -> (c', k) ∈ corr_all m \/ c' = c) /\ (forall x, x ∈ corr_all m -> x ∈ corr_all m') /\
    (forall k, corr_open m' !! k = corr_open m !! k \/ corr_open m' !! k = Some c /\ (c, k) ∈ corr_all m' /\ c_status r <> Closed) /\
    (forall k c', corr_open m !! k = Some c' -> c' <> c -> corr_open m' !! k = Some c')) as (E1 & E2 & E3 & E4 & E5 & E6 & E7).
  { destruct Hk as [[Hk Hne]|Hk]; [apply claim_keys_spec in Hk as (E1 & E2 & E3 & E4 & E5 & E6)|apply import_keys_spec in Hk as (E1 & E2 & E3 & E4 & E5 & E6)];
      simpl in *; split_and!; try done; clear Hm Hl.
    - intros c' k Hin%E4. naive_solver.
    - intros [c' k] Hin. apply E4. by left.
    - intros k. rewrite E5, E4. case_decide; [|by left]. right. by split_and!; [|right|].
    - intros k c' Hk. rewrite E5. case_decide as Hin; [|done]. apply E6 in Hin. congruence.
    - intros c' k Hin%E4. naive_solver.
    - intros [c' k] Hin. apply E4. by left.
    - intros k. rewrite E5, E4. destruct (decide _) as [[? Hd%bool_decide_eq_false]|Hd]; [right; by split_and!; [|right|]|by left].
    - intros k c' Hk Hne. rewrite E5. destruct (decide _) as [[Hin Hc]|]; [|done]. destruct Hne. by eapply E6. }
  split_and!; [|done|done]. eapply (claims_matters _ _ c Hl); simpl; try done.
  - rewrite lookup_insert_eq. simpl. destruct (decide (c_status r = Closed)) as [Hc|]; [right|left; congruence].
    intros k. destruct (E6 k) as [?|(_ & _ & ?)]; done.
  - by rewrite lookup_insert_eq.
  - by rewrite E2.
  - by rewrite E3.
  - intros k. destruct (E6 k) as [?|(? & ? & _)]; [by left|by right].
Qed.
(** A case's row: what it is stays, its state moves with its version. *)
Record crow_moves (r r' : CaseRow) : Prop := {
  cm_kind : c_kind r' = c_kind r;
  cm_opened : c_opened r' = c_opened r;
  cm_version : (c_version r <= c_version r')%Z;
  cm_state : c_version r' = c_version r -> c_state r' = c_state r;
}.
#[export] Instance crow_moves_refl : Reflexive crow_moves.
Proof. intros r. by split. Qed.
#[export] Instance crow_moves_trans : Transitive crow_moves.
Proof.
  intros r r1 r2 [? ? ? Hs1] [? ? ? Hs2]. split; try congruence; [lia|]. intros E. rewrite Hs2, Hs1 by lia. done.
Qed.
(** Every step keeps the rows it does not write, and moves those it does. *)
Lemma step_matters st st' : store_ok st -> step st st' ->
  matters_ok (matters st') /\
  (forall c r, cases (matters st) !! c = Some r -> exists r', cases (matters st') !! c = Some r' /\ crow_moves r r' /\
    (is_Some (erasures (preserved st) !! c) -> r' = r)) /\
  (forall c, c_status <$> cases (matters st') !! c = Some Closed -> c_status <$> cases (matters st) !! c = Some Closed \/
    forall n, ~ owes (obligations st) c n).
Proof.
  intros Hst Hs. pose proof (so_matters _ Hst) as Hm.
  assert (forall c r r', cases (matters st) !! c = Some r -> crow_moves r r' -> (is_Some (erasures (preserved st) !! c) -> r' = r) ->
    forall c0 r0, cases (matters st) !! c0 = Some r0 -> exists r1, (if decide (c = c0) then Some r' else cases (matters st) !! c0) = Some r1 /\
      crow_moves r0 r1 /\ (is_Some (erasures (preserved st) !! c0) -> r1 = r0)) as Hrow.
  { intros c r r' Hr Hmv He c0 r0 Hr0. destruct (decide (c = c0)) as [<-|]; [|by exists r0].
    rewrite Hr in Hr0. injection Hr0 as <-. by exists r'. }
  assert (forall c r s, c_status r <> Closed -> cases (matters st) !! c = Some r -> is_Some (erasures (preserved st) !! c) -> mk_crow (c_kind r) s (c_state r) (c_version r) (c_opened r) = r) as Hne.
  { intros c r s Hnc Hr He%(so_erased _ Hst). rewrite Hr in He. simpl in He. congruence. }
  assert (forall r s, crow_moves r (mk_crow (c_kind r) s (c_state r) (c_version r) (c_opened r))) as Hmv by (by intros r s; split).
  destruct Hs as [c r keys m Hn Hk|c r Hr Hno|c r s Hr Hnc Hs|c r s Hr He Hs|c r text next Hr He Hv| | | | | | | | | |]; simpl;
    try (split_and!; [done| |by left]; intros c0 r0 Hr0; by exists r0).
  - destruct (open_matters _ _ _ _ _ Hm Hn Hk) as (Hok & E & _). rewrite E. split_and!; [done| |].
    + intros c0 r0 Hr0. exists r0. split_and!; [|done|done]. rewrite lookup_insert_ne; [done|congruence].
    + intros c0. destruct (decide (c = c0)) as [<-|]; [|rewrite lookup_insert_ne by done; by left].
      intros _. right. intros n (d & Hd & _). apply (so_known _ Hst) in Hd as [? Hd]. simpl in Hd. congruence.
  - pose proof (close_matters _ _ _ Hm Hr) as Hok. unfold release_correlation in *.
    destruct (release_spec c (case_keys (move_case (matters st) c r Closed) c) (move_case (matters st) c r Closed)) as (E & _).
    split_and!; [done| |]; rewrite E; [intros c0 r0 Hr0|intros c0]; rewrite move_cases.
    + apply (Hrow _ _ _ Hr); [apply Hmv| |done]. intros Hx%(so_erased _ Hst). rewrite Hr in Hx. destruct r; simpl in *. congruence.
    + case_decide as Hd; [subst c0; by right|by left].
  - split_and!; [by apply move_matters| |]; [intros c0 r0 Hr0|intros c0]; rewrite move_cases.
    + apply (Hrow _ _ _ Hr); [apply Hmv|by apply Hne|done].
    + case_decide; [simpl; congruence|by left].
  - pose proof (move_matters _ _ _ s Hm Hr Hs) as Hok. split_and!.
    + apply reclaim_matters; [done|]. rewrite move_cases, decide_True by done. simpl. congruence.
    + intros c0 r0 Hr0. unfold reclaim_correlation.
      destruct (reclaim_spec c (case_keys (move_case (matters st) c r s) c) (move_case (matters st) c r s)) as (E & _). rewrite E, move_cases.
      apply (Hrow _ _ _ Hr); [apply Hmv| |done]. rewrite He. by intros [].
    + intros c0. unfold reclaim_correlation.
      destruct (reclaim_spec c (case_keys (move_case (matters st) c r s) c) (move_case (matters st) c r s)) as (E & _). rewrite E, move_cases.
      case_decide; [simpl; congruence|by left].
  - unfold next_version in Hv. case_bool_decide; [|done]. injection Hv as <-. split_and!.
    + by eapply with_row_ok.
    + intros c0 r0 Hr0. rewrite lookup_insert. apply (Hrow _ _ _ Hr); [|rewrite He; by intros []|done].
      split; simpl; try done; lia.
    + intros c0. rewrite lookup_insert. case_decide as Hd; [subst c0; simpl; rewrite Hr; simpl; by left|by left].
Qed.
(** An obligation's row only moves, and a new one belongs to a case that may
    owe it. *)
Lemma step_obligations st st' : store_ok st -> step st st' ->
  obligations_ok (obligations st') /\
  (forall k d, deadlines (obligations st) !! k = Some d -> exists d', deadlines (obligations st') !! k = Some d' /\ row_moves d d') /\
  (forall k d', deadlines (obligations st') !! k = Some d' -> deadlines (obligations st) !! k = None ->
    is_Some (cases (matters st) !! k.1) /\ matters st' = matters st /\
    (is_open (d_state d') = true -> c_status <$> cases (matters st) !! k.1 <> Some Closed)).
Proof.
  intros Hst Hs. pose proof (so_obligations _ Hst) as Ho.
  assert (forall k d d' o', deadlines (obligations st) !! k = Some d -> row_moves d d' -> deadlines o' = <[k := d']> (deadlines (obligations st)) ->
    (forall k0 d0, deadlines (obligations st) !! k0 = Some d0 -> exists d1, deadlines o' !! k0 = Some d1 /\ row_moves d0 d1) /\
    (forall k0 d1, deadlines o' !! k0 = Some d1 -> deadlines (obligations st) !! k0 = None -> False)) as Hrep.
  { intros k d d' o' Hd Hmv E. rewrite E. split.
    - intros k0 d0 Hd0. rewrite lookup_insert. case_decide as Hk; [subst k0; rewrite Hd in Hd0; injection Hd0 as <-; eauto|by exists d0].
    - intros k0 d1 Hd1 Hn. rewrite lookup_insert in Hd1. case_decide; congruence. }
  destruct Hs as [| | | | |k d Hc Hn Hcl|k d to o Hd Hmv|k d Hd Hb|k|k d d' n Hd Hb Ha Hd'| | | | |]; simpl;
    try (split_and!; [done|intros k0 d0 Hd0; by exists d0|intros k0 d0 Hd0 Hn0; congruence]).
  - destruct (list_deadline_rows (obligations st) k d) as [E _]. split_and!; [by apply list_deadline_ok| |]; rewrite E; intros k0 d0 Hd0.
    + exists d0. split; [|done]. rewrite lookup_insert_ne; [done|congruence].
    + intros Hn0. rewrite lookup_insert in Hd0. case_decide; [|congruence]. subst k0. injection Hd0 as <-. done.
  - destruct (move_deadline_ok _ _ _ _ _ Ho Hd Hmv) as (Hok & Hrm & E & _). destruct (Hrep k d _ o Hd Hrm E) as [H1 H2].
    split_and!; [done|done|]. intros k0 d1 Hd1 Hn. by destruct (H2 _ _ Hd1 Hn).
  - split_and!; [|intros k0 d0 Hd0; by exists d0|intros; congruence]. destruct Ho as [Ho1 Ho2 Ho3 Ho4]. split; try done.
    simpl. intros k0 [->%elem_of_singleton|Hin]%elem_of_union; [by rewrite Hd, <-Hb|by apply Ho4].
  - split_and!; [|intros k0 d0 Hd0; by exists d0|intros; congruence]. destruct Ho as [Ho1 Ho2 Ho3 Ho4]. split; try done.
    simpl. intros k0 [Hin _]%elem_of_difference. by apply Ho4.
  - assert (row_moves d d') as Hrm by (subst d'; split; simpl; try done; [by destruct (d_state d)|congruence]).
    set (o' := reindex_unaccounted _ _ _ _ _). assert (deadlines o' = <[k := d']> (deadlines (obligations st))) as E.
    { unfold o'. match goal with |- context [reindex_unaccounted ?o1 k ?t ?a ?b] => destruct (reindex_rest o1 k t a b) as (-> & _ & _) end. done. }
    destruct (Hrep k d _ o' Hd Hrm E) as [H1 H2]. split_and!; [|done|intros k0 d1 Hd1 Hn; by destruct (H2 _ _ Hd1 Hn)].
    eapply (replace_ok (obligations st) o' k d d' (deadlines_due (obligations st)) Ho Hd Hrm); [done|].
    intros x. unfold owing_key. subst d'. simpl. rewrite Hb. by repeat case_decide.
Qed.
(** *** Holds and erasures *)
Record erasure_moves (e e' : Erasure) : Prop := {
  em_at : erased_at e' = erased_at e;
  em_reason : erased_reason e' = erased_reason e;
  em_complete : complete e = true -> complete e' = true;
}.
#[export] Instance erasure_moves_refl : Reflexive erasure_moves.
Proof. by split. Qed.
#[export] Instance erasure_moves_trans : Transitive erasure_moves.
Proof. intros e e1 e2 [? ? ?] [? ? ?]. split; try congruence. auto. Qed.
Definition kept_ok (p : Holds) : Prop :=
  indexed held_key (held_by_time p) (held p) /\ forall c, is_Some (held p !! c) -> erasures p !! c = None.
Lemma step_preserved st st' : store_ok st -> step st st' ->
  kept_ok (preserved st') /\
  (forall c, is_Some (held (preserved st') !! c) -> is_Some (cases (matters st) !! c)) /\
  (forall c e, erasures (preserved st) !! c = Some e -> exists e', erasures (preserved st') !! c = Some e' /\ erasure_moves e e') /\
  (forall c, is_Some (erasures (preserved st') !! c) -> c_status <$> cases (matters st) !! c = Some Closed).
Proof.
  intros Hst Hs.
  assert (kept_ok (preserved st)) as Hk by (split; [apply (so_held _ Hst)|intros c Hc; by apply (so_kept _ Hst)]).
  assert (forall c, is_Some (held (preserved st) !! c) -> is_Some (cases (matters st) !! c)) as Hh by (intros c Hc; by apply (so_kept _ Hst)).
  pose proof (so_erased _ Hst) as He.
  assert (forall c e, erasures (preserved st) !! c = Some e -> exists e', erasures (preserved st) !! c = Some e' /\ erasure_moves e e') as Hrefl by eauto using erasure_moves_refl.
  destruct Hs as [| | | | | | | | | |c h Hc Hn Hf|c h Hf|c e Hc Hf Hn|c e Hf|]; simpl; try (by split_and!).
  - destruct Hk as [Hi Hk]. split_and!; [split; simpl|..]; [exact (indexed_fresh held_key _ _ c h held_inj Hi Hf)|..|done|done];
      intros c0; rewrite lookup_insert; case_decide as Hd; try subst c0; auto.
  - destruct Hk as [Hi Hk]. split_and!; [split; simpl|..]; [exact (indexed_delete held_key _ _ c h held_inj Hi Hf)|..|done|done];
      intros c0 Hc0; [apply Hk|apply Hh]; rewrite lookup_delete in Hc0; case_decide; [by destruct Hc0|done|by destruct Hc0|done].
  - destruct Hk as [Hi Hk]. split_and!; [split; [done|]|done|..]; intros c0; simpl; rewrite lookup_insert; case_decide as Hd; try subst c0; auto.
    + rewrite Hf. by intros [].
    + intros e0. by rewrite Hn.
  - destruct Hk as [Hi Hk]. split_and!; [split; [done|]|done|..]; intros c0; simpl; rewrite lookup_insert; case_decide as Hd; try subst c0; auto.
    + intros Hx%Hk. congruence.
    + rewrite Hf. intros e0 [= <-]. eexists. by split.
Qed.

Lemma case_step_ok st st' : store_ok st -> step st st' -> store_ok st'.
Proof.
  intros Hst Hs. destruct (step_matters _ _ Hst Hs) as (Hm & Hrow & Hcl). destruct (step_obligations _ _ Hst Hs) as (Ho & Hd & Hnew).
  destruct (step_preserved _ _ Hst Hs) as ([Hi Hk] & Hh & _ & He).
  assert (forall c, is_Some (cases (matters st) !! c) -> is_Some (cases (matters st') !! c)) as Hkeep.
  { intros c [r Hr]. destruct (Hrow _ _ Hr) as (r' & Hr' & _). eauto. }
  split; try done.
  - intros k d Hk'. apply Hkeep. destruct (deadlines (obligations st) !! k) as [d0|] eqn:E; [by eapply (so_known _ Hst)|by eapply Hnew].
  - intros c n Hc (d & Hd' & Hop). destruct (deadlines (obligations st) !! (c, n)) as [d0|] eqn:E.
    + destruct (Hd _ _ E) as (d1 & E1 & Hmv). rewrite Hd' in E1. injection E1 as <-.
      assert (owes (obligations st) c n) as Howe.
      { exists d0. split; [done|]. destruct (is_open (d_state d0)) eqn:Hop0; [done|]. rewrite (row_moves_ended _ _ Hmv Hop0) in Hop. congruence. }
      destruct (Hcl _ Hc) as [Hc'|Hno]; [by eapply (so_settled _ Hst)|by eapply Hno].
    + destruct (Hnew _ _ Hd' E) as (_ & Em & Hne). rewrite Em in Hc. by apply Hne.
  - intros c Hc. split; [|by apply Hk]. apply Hkeep, Hh, Hc.
  - intros c Hc. destruct (erasures (preserved st) !! c) as [e|] eqn:E.
    + assert (c_status <$> cases (matters st) !! c = Some Closed) as (r & Hr & Hc')%fmap_Some by (apply (so_erased _ Hst); eauto).
      destruct (Hrow _ _ Hr) as (r' & Hr' & _ & Hfix). rewrite Hr', Hfix by eauto. simpl. congruence.
    + pose proof (He _ Hc) as Hx. destruct Hs; simpl in *; try (rewrite E in Hc; by destruct Hc); done.
Qed.

(** ** Operations

    The ones that write, in any order.  A new case has a fresh id, an
    obligation is registered for a known case, and an import names each
    obligation once and owes nothing when it is closed. *)
Section case_ops.
Context {J : Type} `{CaseJson J}.
Inductive Op :=
| OpOpen (id : CaseId) (kind : str) (keys : list CorrelationKey) (at_ : Z)
| OpStatus (c : CaseId) (s : CaseStatus)
| OpClose (c : CaseId)
| OpPut (c : CaseId) (expected : Z) (s : J)
| OpRegister (d : Deadline)
| OpDeadline (k : CaseId * str) (s : DeadlineState)
| OpBreach (k : CaseId * str) (now : Z)
| OpNoted (k : CaseId * str)
| OpAck (k : CaseId * str) (n : BreachNote)
| OpHold (c : CaseId) (h : LegalHold)
| OpUnhold (c : CaseId) (expected : option LegalHold)
| OpErase (c : CaseId) (at_ : Z) (reason : str)
| OpErased (c : CaseId)
| OpAttach (c : CaseId) (run : RunId)
| OpLink (c : CaseId) (d : Digest) (at_ : Z)
| OpImport (x : Case (J:=J)) (ds : list Deadline) (blobs : list Digest).
Definition after_op (st : CaseTables) (o : Op) : CaseTables :=
  match o with
  | OpOpen id kind keys at_ => (correlate_or_open st id kind keys at_).1
  | OpStatus c s => (set_status st c s).1
  | OpClose c => (close st c).1
  | OpPut c v s => (put_state st c v s).1
  | OpRegister d => (register_deadline st d).1
  | OpDeadline k s => (set_deadline_state st k s).1
  | OpBreach k now => (breach_deadline st k now).1
  | OpNoted k => (mark_breach_noted st k).1
  | OpAck k n => (acknowledge_breach st k n).1
  | OpHold c h => (place_hold st c h).1
  | OpUnhold c e => (remove_hold st c e).1
  | OpErase c at_ reason => (begin_erasure st c at_ reason).1
  | OpErased c => (complete_erasure st c).1
  | OpAttach c run => attach_run st c run
  | OpLink c d at_ => link_blob st c d at_
  | OpImport x ds blobs => (import_case st x ds blobs).1
  end.
Definition run_ops (st : CaseTables) (os : list Op) : CaseTables := foldl after_op st os.
Definition proper (st : CaseTables) (o : Op) : Prop :=
  match o with
  | OpOpen id _ _ _ => cases (matters st) !! id = None
  | OpRegister d => is_Some (cases (matters st) !! of_case d)
  | OpImport x ds _ => NoDup (dl_name <$> ds) /\ (status x = Closed -> Forall (fun d => is_open (dl_state d) = false) ds)
  | _ => True
  end.
Fixpoint proper_run (st : CaseTables) (os : list Op) : Prop :=
  match os with [] => True | o :: os => proper st o /\ proper_run (after_op st o) os end.

Lemma result_bind_cases {T U E} (m : result E T) (k : T -> result E U) : (m ≫= k) = match m with Ok x => k x | Err e => Err e end.
Proof. by destruct m. Qed.
(** An import's obligations, one step each. *)
Lemma import_steps c ds st : is_Some (cases (matters st) !! c) -> NoDup (dl_name <$> ds) ->
  (forall d, d ∈ ds -> deadlines (obligations st) !! (c, dl_name d) = None) ->
  (c_status <$> cases (matters st) !! c = Some Closed -> Forall (fun d => is_open (dl_state d) = false) ds) ->
  rtc step st (with_obligations st (foldl (fun o d => list_deadline o (c, dl_name d) (row_of d)) (obligations st) ds)).
Proof.
  intros Hc. revert st Hc. induction ds as [|d ds IH]; intros st Hc Hnd Hn Hcl; simpl.
  { destruct st. apply rtc_refl. }
  apply NoDup_cons in Hnd as [Hd Hnd]. eapply rtc_l.
  - apply (s_register st (c, dl_name d) (row_of d)); [done|apply Hn; by left|]. intros Hop E. apply Hcl in E.
    apply Forall_cons_1 in E as [E _]. simpl in Hop. congruence.
  - apply (IH (with_obligations st _)); simpl; [done|done| |intros E; by apply Hcl, Forall_cons_1 in E as [_ E]].
    intros d' Hin. destruct (list_deadline_rows (obligations st) (c, dl_name d) (row_of d)) as [-> _].
    rewrite lookup_insert_ne; [apply Hn; by right|]. intros [= E]. apply Hd. rewrite E. by apply list_elem_of_fmap_2.
Qed.
Ltac op_step := eapply rtc_l; [|apply rtc_refl].
Ltac looked := repeat match goal with
  | |- context [get_case ?st ?c] => unfold get_case; let E := fresh "Hr" in destruct (cases (matters st) !! c) eqn:E; simpl; [|apply rtc_refl]
  | |- context [get_deadline ?st ?k] => unfold get_deadline; let E := fresh "Hd" in destruct (deadlines (obligations st) !! k) eqn:E; simpl; [|apply rtc_refl]
  | |- context [refuse_erased ?st ?c] => unfold refuse_erased; let E := fresh "He" in destruct (erasures (preserved st) !! c) eqn:E; simpl; [apply rtc_refl|]
  end.
Lemma close_steps st c : rtc step st (close st c).1.
Proof.
  unfold close, committed. case_bool_decide as Hn; simpl; [|apply rtc_refl]. looked. op_step. apply (s_close _ c _ Hr). by apply outstanding_zero.
Qed.
Lemma status_steps st c s : rtc step st (set_status st c s).1.
Proof.
  unfold set_status. case_decide as Hs; [apply close_steps|]. unfold committed. looked. op_step. case_decide as Hc.
  - by eapply s_reopen.
  - by eapply s_move.
Qed.
Lemma breach_steps st k now : rtc step st (breach_deadline st k now).1.
Proof.
  unfold breach_deadline, committed. looked. destruct (negb _ || _); [apply rtc_refl|]. destruct (move_deadline _ _ _ _) as [o|] eqn:Hm; simpl; [|apply rtc_refl].
  pose proof (move_deadline_rows _ _ _ _ _ Hm) as E.
  unfold get_case. simpl. destruct (cases (matters st) !! k.1) as [r|] eqn:Hr; simpl; [|apply rtc_refl].
  eapply rtc_l; [by eapply s_deadline|]. eapply rtc_l.
  { eapply (s_breached _ k (in_state d Breached)); [|done]. simpl. by rewrite E, lookup_insert_eq. }
  simpl. destruct (_ || _) eqn:Hs; [apply rtc_refl|]. apply orb_false_iff in Hs as [Hs%bool_decide_eq_false _]. op_step.
  by apply (s_move (with_obligations st (with_unnoted o ({[k]} ∪ unnoted o))) k.1 r Escalated).
Qed.

Lemma put_steps st c v s : rtc step st (put_state st c v s).1.
Proof.
  unfold put_state, committed. destruct (state_text s) as [text|e]; simpl; [|apply rtc_refl].
  destruct (next_version v) as [next|] eqn:Hv; simpl; [|apply rtc_refl]. looked.
  destruct (cases (matters st) !! c) as [r|] eqn:Hr; [|apply rtc_refl]. case_bool_decide as Hver; [|apply rtc_refl]. subst v.
  op_step. by apply s_put.
Qed.
Lemma import_case_steps st x ds blobs : store_ok st -> NoDup (dl_name <$> ds) ->
  (status x = Closed -> Forall (fun d => is_open (dl_state d) = false) ds) -> rtc step st (import_case st x ds blobs).1.
Proof.
  intros Hst Hnd Hcl. unfold import_case, committed. destruct (state_text _) as [text|e]; simpl; [|apply rtc_refl].
  case_bool_decide as Hn; [apply rtc_refl|]. apply eq_None_not_Some in Hn.
  destruct (import_keys _ _ _ _) as [m|e] eqn:Hk; simpl; [|apply rtc_refl].
  set (r := mk_crow (kind x) (status x) text (version x) (opened_at x)) in *.
  pose proof (s_open st (id x) r (correlation x) m Hn (or_intror Hk)) as Hs.
  destruct (step_matters _ _ Hst Hs) as (_ & _ & Hc). assert (cases m = <[id x := r]> (cases (matters st))) as E by (by apply import_keys_spec in Hk as [-> _]).
  eapply rtc_l; [exact Hs|]. etransitivity.
  - apply (import_steps (id x) ds); simpl; rewrite ?E, ?lookup_insert_eq; [done|done| |intros [= Hx]; by apply Hcl].
    intros d _. destruct (deadlines (obligations st) !! (id x, dl_name d)) eqn:Hd; [|done].
    apply (so_known _ Hst) in Hd as [? Hd]. simpl in Hd. congruence.
  - op_step. match goal with |- step ?s _ => exact (s_links s (import_blobs (import_runs (links st) (id x) 0 (runs x)) (id x) (opened_at x) blobs)) end.
Qed.
Lemma after_steps st o : store_ok st -> proper st o -> rtc step st (after_op st o).
Proof.
  intros Hst Hp. destruct o; simpl in *; try apply status_steps; try apply close_steps; try apply breach_steps; try apply put_steps;
    unfold attach_run, link_blob, correlate_or_open, register_deadline, set_deadline_state, mark_breach_noted, acknowledge_breach,
      place_hold, remove_hold, begin_erasure, complete_erasure, committed; looked.
  - destruct (attached _ _); [apply rtc_refl|]. destruct (claim_keys _ _ _) as [m|] eqn:Hk; simpl; [|apply rtc_refl].
    op_step. apply (s_open st id (mk_crow kind Open (lit "null") 0 at_) keys m Hp). by left.
  - case_bool_decide as Hc; [apply rtc_refl|]. destruct (deadlines (obligations st) !! _) eqn:Hd; [destruct (_ && _); apply rtc_refl|].
    op_step. by apply s_register.
  - destruct (move_deadline _ _ _ _) as [o|] eqn:Hm; simpl; [|apply rtc_refl]. op_step. by eapply s_deadline.
  - op_step. apply s_noted.
  - case_bool_decide as Hb; [|apply rtc_refl]. case_bool_decide as Ha; [apply rtc_refl|]. simpl. op_step.
    apply eq_None_not_Some in Ha. by eapply s_ack.
  - destruct (held _ !! c) eqn:Hf; [apply rtc_refl|]. op_step. by apply s_hold.
  - destruct (held _ !! c) as [h|] eqn:Hf; [|apply rtc_refl]. match goal with |- context [if ?b then _ else _] => destruct b end; [|apply rtc_refl]. op_step. by apply s_release.
  - destruct (erasures _ !! c) eqn:Hx; [apply rtc_refl|]. destruct (held _ !! c) eqn:Hf; [apply rtc_refl|].
    case_decide; [|apply rtc_refl]. op_step. apply s_erase; [by rewrite Hr; simpl; congruence|done|done].
  - destruct (erasures _ !! c) as [e|] eqn:Hx; [|apply rtc_refl]. op_step. by apply s_erased.
  - destruct (run_seen _ !! _); [apply rtc_refl|]. op_step. apply s_links.
  - op_step. apply s_links.
  - destruct Hp. by apply import_case_steps.
Qed.
(** What nothing takes back: rows move, obligations move, erasures stand. *)
Record keeps (st st' : CaseTables) : Prop := {
  kp_rows c r : cases (matters st) !! c = Some r -> exists r', cases (matters st') !! c = Some r' /\ crow_moves r r' /\
    (is_Some (erasures (preserved st) !! c) -> r' = r);
  kp_owed k d : deadlines (obligations st) !! k = Some d -> exists d', deadlines (obligations st') !! k = Some d' /\ row_moves d d';
  kp_erased c e : erasures (preserved st) !! c = Some e -> exists e', erasures (preserved st') !! c = Some e' /\ erasure_moves e e';
}.
#[local] Instance keeps_refl : Reflexive keeps.
Proof. intros st. split; eauto using crow_moves_refl, row_moves_refl, erasure_moves_refl. Qed.
#[local] Instance keeps_trans : Transitive keeps.
Proof.
  intros st st1 st2 H1 H2. split.
  - intros c r Hr. destruct (kp_rows _ _ H1 _ _ Hr) as (r1 & Hr1 & Hm1 & He1). destruct (kp_rows _ _ H2 _ _ Hr1) as (r2 & Hr2 & Hm2 & He2).
    exists r2. split_and!; [done|by etransitivity|]. intros Hs. rewrite He2, He1; [done|done|]. destruct Hs as [e He].
    destruct (kp_erased _ _ H1 _ _ He) as (e' & He' & _). eauto.
  - intros k d Hd. destruct (kp_owed _ _ H1 _ _ Hd) as (d1 & Hd1 & ?). destruct (kp_owed _ _ H2 _ _ Hd1) as (d2 & ? & ?). eauto using row_moves_trans.
  - intros c e He. destruct (kp_erased _ _ H1 _ _ He) as (e1 & He1 & ?). destruct (kp_erased _ _ H2 _ _ He1) as (e2 & ? & ?). eauto using erasure_moves_trans.
Qed.
Lemma case_steps_ok st st' : store_ok st -> rtc step st st' -> store_ok st' /\ keeps st st'.
Proof.
  intros Hst Hs. induction Hs as [|st st1 st2 Hs _ IH]; [by split|]. destruct (IH (case_step_ok _ _ Hst Hs)) as [Hok Hk].
  split; [done|]. etransitivity; [|exact Hk]. split; [apply (step_matters _ _ Hst Hs)|apply (step_obligations _ _ Hst Hs)|apply (step_preserved _ _ Hst Hs)].
Qed.
Lemma run_keeps os : forall st, store_ok st -> proper_run st os -> store_ok (run_ops st os) /\ keeps st (run_ops st os).
Proof.
  induction os as [|o os IH]; intros st Hst Hp; simpl; [by split|]. destruct Hp as [Ho Hp].
  destruct (case_steps_ok _ _ Hst (after_steps _ _ Hst Ho)) as [Hok Hk]. destruct (IH _ Hok Hp) as [Hok' Hk']. split; [done|by etransitivity].
Qed.
Lemma reached_ok os : proper_run no_cases os -> store_ok (run_ops no_cases os).
Proof. intros Hp. by apply run_keeps; [apply no_cases_ok|]. Qed.

(** *** Correlation *)
Definition closes (c : CaseId) (o : Op) : Prop := o = OpClose c \/ o = OpStatus c Closed.
Lemma claim_release m c0 r c k : corr_open m !! k = Some c -> c0 <> c -> corr_open (release_correlation (move_case m c0 r Closed) c0) !! k = Some c.
Proof.
  intros Hk Hne. unfold release_correlation. set (m1 := move_case _ _ _ _). destruct (release_spec c0 (case_keys m1 c0) m1) as (_ & _ & _ & _ & ->).
  destruct (move_corr m c0 r Closed) as [E _]. fold m1 in E. rewrite E, Hk. by rewrite decide_False by naive_solver.
Qed.
Lemma claim_reclaim m c0 r s c k : corr_open m !! k = Some c -> corr_open (reclaim_correlation (move_case m c0 r s) c0) !! k = Some c.
Proof.
  intros Hk. unfold reclaim_correlation. set (m1 := move_case _ _ _ _). destruct (reclaim_spec c0 (case_keys m1 c0) m1) as (_ & _ & _ & _ & ->).
  destruct (move_corr m c0 r s) as [E _]. fold m1 in E. by rewrite E, Hk.
Qed.
Lemma claim_move m c0 r s c k : corr_open m !! k = Some c -> corr_open (move_case m c0 r s) !! k = Some c.
Proof. by destruct (move_corr m c0 r s) as [-> _]. Qed.
Lemma claim_close st c0 c k : corr_open (matters st) !! k = Some c -> c0 <> c -> corr_open (matters (close st c0).1) !! k = Some c.
Proof.
  intros Hk Hne. unfold close, committed. case_bool_decide; simpl; [|done]. unfold get_case.
  destruct (cases (matters st) !! c0) as [r|]; simpl; [|done]. by apply claim_release.
Qed.
(** Only closing a case gives its keys up. *)
Ltac unlooked := unfold committed, get_case, get_deadline, refuse_erased;
  repeat (match goal with
  | |- context [ok_or ?x _] => destruct x
  | |- context [map_err _ ?x] => destruct x
  | |- context [move_deadline ?a ?b ?c ?d] => destruct (move_deadline a b c d)
  | |- context [match ?x with _ => _ end] =>
    lazymatch x with context [match _ with _ => _ end] => fail | _ => destruct x end end; simpl; try done).
Lemma claim_after st o k c : store_ok st -> proper st o -> ~ closes c o -> corr_open (matters st) !! k = Some c ->
  corr_open (matters (after_op st o)) !! k = Some c.
Proof.
  intros Hst Hp Hno Hk.
  assert (forall c0, cases (matters st) !! c0 = None -> c <> c0) as Hnew.
  { intros c0 Hn <-. apply (mo_claimed _ (so_matters _ Hst)), (mo_corr _ (so_matters _ Hst)) in Hk as [? Hk]. congruence. }
  destruct o as [c0 ? keys ?|c0 s|c0|c0 v s|d|k0 s|k0 now|k0|k0 n|c0 h|c0 e|c0 ? ?|c0|c0 r|c0 d ?|x ds blobs]; simpl in *.
  - unfold correlate_or_open, committed. destruct (attached _ _); [done|]. destruct (claim_keys _ _ _) as [m|] eqn:Hm; simpl; [|done].
    assert (Open <> Closed) as Hoc by done.
    destruct (open_matters _ c0 (mk_crow _ _ _ _ _) keys m (so_matters _ Hst) Hp (or_introl (conj Hm Hoc))) as (_ & _ & Hkeep). apply Hkeep; [done|by apply Hnew].
  - unfold set_status. case_decide as Hs.
    + apply claim_close; [done|]. intros ->. apply Hno. subst s. by right.
    + unlooked; by apply claim_reclaim || by apply claim_move.
  - apply claim_close; [done|]. intros ->. apply Hno. by left.
  - unfold put_state. unlooked.
  - unfold register_deadline. unlooked.
  - unfold set_deadline_state. unlooked.
  - unfold breach_deadline. unlooked; by apply claim_move.
  - unfold mark_breach_noted. unlooked.
  - unfold acknowledge_breach. unlooked.
  - unfold place_hold. unlooked.
  - unfold remove_hold. unlooked.
  - unfold begin_erasure. unlooked.
  - unfold complete_erasure. unlooked.
  - unfold attach_run. unlooked.
  - done.
  - unfold import_case, committed. destruct (state_text _); simpl; [|done]. case_bool_decide as Hn; [done|]. apply eq_None_not_Some in Hn.
    destruct (import_keys _ _ _ _) as [m|] eqn:Hm; simpl; [|done].
    destruct (open_matters _ (id x) (mk_crow _ _ _ _ _) _ m (so_matters _ Hst) Hn (or_intror Hm)) as (_ & _ & Hkeep). apply Hkeep; [done|by apply Hnew].
Qed.

(** *** The runs of a case *)

(** A run's position and the position's run name each other. *)
Definition links_ok (l : Links) : Prop := forall c r n, run_seen l !! (c, r) = Some n <-> case_runs l !! (c, n) = Some r.
Lemma link_one l b c r n : links_ok l -> run_seen l !! (c, r) = None -> case_runs l !! (c, n) = None ->
  links_ok (mk_links b (<[(c, n) := r]> (case_runs l)) (<[(c, r) := n]> (run_seen l))).
Proof.
  intros Hl Hr Hn c0 r0 n0. simpl. rewrite !lookup_insert_Some, (Hl c0 r0 n0). split.
  - intros [[[= <- <-] <-]|[Hne H1]]; [by left|right]. split; [|done]. intros [= -> ->]. congruence.
  - intros [[[= <- <-] <-]|[Hne H1]]; [by left|right]. split; [|done]. intros [= -> ->]. apply Hl in H1. congruence.
Qed.
Lemma next_seq_free l c : case_runs l !! (c, next_seq l c) = None.
Proof.
  unfold next_seq. set (f := fun (k : CaseId * Z) (_ : RunId) acc => if decide (k.1 = c) then Z.max acc (k.2 + 1)%Z else acc).
  assert (forall m : gmap (CaseId * Z) RunId, forall n, is_Some (m !! (c, n)) -> (n < map_fold f 0 m)%Z) as Hlt.
  { apply (map_fold_weak_ind (fun r (m : gmap (CaseId * Z) RunId) => forall n, is_Some (m !! (c, n)) -> (n < r)%Z)).
    - intros n. rewrite lookup_empty. by intros [].
    - intros [c' i] x m r _ IH n Hn. unfold f. simpl. rewrite lookup_insert in Hn. case_decide as E; case_decide as E2; simplify_eq.
      + lia.
      + specialize (IH n Hn). lia.
      + by apply IH. }
  destruct (case_runs l !! (c, map_fold f 0%Z (case_runs l))) eqn:E; [|done]. specialize (Hlt (case_runs l) _ ltac:(eexists; exact E)). lia.
Qed.
Lemma import_runs_ok c rs : forall l n, links_ok l -> NoDup rs -> (forall r, r ∈ rs -> run_seen l !! (c, r) = None) ->
  (forall n', (n <= n')%Z -> case_runs l !! (c, n') = None) -> links_ok (import_runs l c n rs).
Proof.
  induction rs as [|r rs IH]; intros l n Hl Hnd Hr Hn; simpl; [done|]. apply NoDup_cons in Hnd as [Hni Hnd]. apply IH; simpl.
  - apply link_one; [done|apply Hr; by left|apply Hn; lia].
  - done.
  - intros r' Hr'. rewrite lookup_insert_ne by congruence. apply Hr. by right.
  - intros n' Hle. rewrite lookup_insert_ne by (intros [= ?]; lia). apply Hn. lia.
Qed.
Lemma import_blobs_runs c ds : forall l at_, case_runs (import_blobs l c at_ ds) = case_runs l /\ run_seen (import_blobs l c at_ ds) = run_seen l.
Proof. induction ds as [|d ds IH]; intros l at_; simpl; [done|]. apply (IH (mk_links _ _ _)). Qed.
(** An import names each run once, and nothing was linked to its case before. *)
Definition imports_fresh (st : CaseTables) (o : Op) : Prop :=
  match o with OpImport x _ _ => NoDup (runs x) /\ forall n, case_runs (links st) !! (id x, n) = None | _ => True end.
Fixpoint all_fresh (st : CaseTables) (os : list Op) : Prop :=
  match os with [] => True | o :: os => imports_fresh st o /\ all_fresh (after_op st o) os end.
Lemma links_after st o : imports_fresh st o -> links_ok (links st) -> links_ok (links (after_op st o)).
Proof.
  intros Hf Hl. destruct o as [c0 ? keys ?|c0 s|c0|c0 v s|d|k0 s|k0 now|k0|k0 n|c0 h|c0 e|c0 ? ?|c0|c0 r|c0 d ?|x ds blobs]; simpl in *.
  - unfold correlate_or_open, committed. destruct (attached _ _); [done|]. by destruct (claim_keys _ _ _).
  - unfold set_status, close. unlooked.
  - unfold close. unlooked.
  - unfold put_state. unlooked.
  - unfold register_deadline. unlooked.
  - unfold set_deadline_state. unlooked.
  - unfold breach_deadline. unlooked.
  - unfold mark_breach_noted. unlooked.
  - unfold acknowledge_breach. unlooked.
  - unfold place_hold. unlooked.
  - unfold remove_hold. unlooked.
  - unfold begin_erasure. unlooked.
  - unfold complete_erasure. unlooked.
  - unfold attach_run. destruct (run_seen _ !! _) eqn:Hs; [done|]. by apply link_one; [|done|apply next_seq_free].
  - done.
  - unfold import_case, committed. destruct (state_text _); simpl; [|done]. case_bool_decide; [done|].
    destruct (import_keys _ _ _ _); simpl; [|done]. destruct Hf as [Hnd Hf].
    destruct (import_blobs_runs (id x) blobs (import_runs (links st) (id x) 0 (runs x)) (opened_at x)) as [E1 E2].
    unfold links_ok. rewrite E1, E2. apply import_runs_ok; [done..| |by intros; apply Hf].
    intros r _. destruct (run_seen (links st) !! (id x, r)) as [n|] eqn:Hs; [|done]. apply Hl in Hs. by rewrite Hf in Hs.
Qed.
Lemma elem_of_runs l c r : links_ok l -> r ∈ runs_of l c <-> is_Some (run_seen l !! (c, r)).
Proof.
  intros Hl. unfold runs_of. rewrite list_elem_of_omap. setoid_rewrite elem_of_iter_by. setoid_rewrite elem_of_set_filter_map. split.
  - intros (n & _ & Hn). exists n. by apply Hl.
  - intros [n Hn]. apply Hl in Hn. exists n. split; [|done]. exists (c, n). split; [by apply elem_of_dom|]. simpl. by rewrite decide_True.
Qed.

(** ** Properties *)
Lemma elem_of_by_resolved l d : d ∈ by_resolved l <-> d ∈ l.
Proof.
  assert (forall x l, d ∈ insert_due x l <-> d = x \/ d ∈ l) as Hins.
  { intros x l0. induction l0 as [|y l0 IH]; simpl; [set_solver|]. case_bool_decide; rewrite ?elem_of_cons, ?IH; naive_solver. }
  induction l as [|x l IH]; simpl; [done|]. by rewrite Hins, IH, elem_of_cons.
Qed.
Lemma elem_of_read o ks d : d ∈ read_deadlines o ks <-> exists k r, k ∈ ks /\ deadlines o !! k = Some r /\ d = build_deadline k r.
Proof.
  unfold read_deadlines. rewrite list_elem_of_omap. split.
  - intros (k & Hk & (r & Hr & ->)%fmap_Some). eauto.
  - intros (k & r & Hk & Hr & ->). exists k. by rewrite Hr.
Qed.
(** The due scan, unlimited: what is outstanding and needs attention by now. *)
Lemma due_lists st now : obligations_ok (obligations st) -> forall d, d ∈ due st now (size (deadlines_due (obligations st))) <->
  exists k r, deadlines (obligations st) !! k = Some r /\ is_open (d_state r) = true /\
    (trigger_at (d_state r) (d_resolved r) (d_warn r) <= now)%Z /\ d = build_deadline k r.
Proof.
  intros Ho d. unfold due. rewrite elem_of_by_resolved, take_ge.
  - rewrite elem_of_read. split.
    + intros (k & r & Hk & Hr & ->). exists k, r. apply list_elem_of_fmap in Hk as ([t k'] & -> & [Ht Hin]%list_elem_of_filter). simpl in *.
      rewrite elem_of_iter_by in Hin. apply (oo_due _ Ho) in Hin as (k2 & r2 & Hr2 & Hx). unfold owing_key in Hx. case_match; [|done].
      injection Hx as Ht2 ->. rewrite Hr in Hr2. injection Hr2 as <-. by rewrite Ht2.
    + intros (k & r & Hr & Hop & Ht & ->). exists k, r. split_and!; [|done..].
      apply list_elem_of_fmap. exists (trigger_at (d_state r) (d_resolved r) (d_warn r), k). split; [done|]. apply list_elem_of_filter. split; [done|].
      rewrite elem_of_iter_by. apply (oo_due _ Ho). exists k, r. unfold owing_key. by rewrite Hop.
  - unfold read_deadlines. etransitivity; [apply omap_shorter|]. rewrite length_fmap. etransitivity; [apply length_filter|].
    unfold iter_by. rewrite (Permutation_length (merge_sort_Permutation _ _)). by rewrite <-size_dom.
Qed.

(** C20. After any operations in which a new case has a fresh id, obligations are
    registered for known cases, and an import names each obligation once and,
    for a closed case, none still owed, the store agrees with itself: every
    index of the cases, the obligations and the holds lists exactly its rows, a
    claimed key is a key of a case that is not closed, obligations are of known
    cases, a closed case owes nothing, held cases are not erased and erased
    ones are closed; the due scan lists exactly the outstanding obligations
    that need attention by then; and, when imports also bring each run once and
    to a case nothing was linked to, a case's runs and the index of those seen
    list the same runs. *)
Theorem cases_exact os : proper_run no_cases os -> let st := run_ops no_cases os in
  store_ok st /\
  (forall now d, d ∈ due st now (size (deadlines_due (obligations st))) <->
    exists k r, deadlines (obligations st) !! k = Some r /\ is_open (d_state r) = true /\
      (trigger_at (d_state r) (d_resolved r) (d_warn r) <= now)%Z /\ d = build_deadline k r) /\
  (all_fresh no_cases os ->
    (forall c r n, run_seen (links st) !! (c, r) = Some n <-> case_runs (links st) !! (c, n) = Some r) /\
    forall c r, r ∈ runs_of (links st) c <-> is_Some (run_seen (links st) !! (c, r))).
Proof.
  intros Hp st. pose proof (reached_ok _ Hp) as Hok. split_and!; [done| |].
  - intros now d. apply due_lists, (so_obligations _ Hok).
  - intros Hf. assert (links_ok (links st)) as Hl; [|split; [done|intros c r; by apply elem_of_runs]].
    assert (links_ok (links no_cases)) as H0 by (intros c r n; simpl; by rewrite !lookup_empty).
    unfold st. clear Hp st Hok. revert H0 Hf. generalize no_cases. induction os as [|o os IH]; intros st Hl Hf; simpl; [done|].
    destruct Hf as [Ho Hf]. by apply IH; [apply links_after|].
Qed.

(** C23. A key names one case: what correlation finds is a case that is not
    closed and has one of the keys; until that case is closed, whatever else
    happens, the key finds it, and opening on it attaches to it. *)
Theorem one_case_per_key os keys c : proper_run no_cases os -> correlate (run_ops no_cases os) keys = Some c ->
  exists k r, k ∈ keys /\ cases (matters (run_ops no_cases os)) !! c = Some r /\ c_status r <> Closed /\
    k ∈ case_keys (matters (run_ops no_cases os)) c /\
    forall os', proper_run (run_ops no_cases os) os' -> Forall (fun o => ~ closes c o) os' ->
      let st := run_ops (run_ops no_cases os) os' in
      (c_status <$> cases (matters st) !! c) <> Some Closed /\
      forall id kind rest at_, correlate_or_open st id kind (k :: rest) at_ = (st, Ok (Attached c)).
Proof.
  intros Hp Hc. pose proof (reached_ok _ Hp) as Hok. set (st0 := run_ops no_cases os) in *. clearbody st0.
  unfold correlate, attached in Hc. apply head_Some_elem_of, list_elem_of_omap in Hc as (k & Hin & Hk).
  pose proof (mo_claimed _ (so_matters _ Hok) _ _ Hk) as Hkey. destruct (mo_corr _ (so_matters _ Hok) _ _ Hkey) as [r Hr].
  exists k, r. split_and!; [done|done| |by apply elem_of_case_keys|].
  { pose proof (mo_live _ (so_matters _ Hok) _ _ Hk) as Hl. rewrite Hr in Hl. simpl in Hl. congruence. }
  intros os' Hp' Hno. assert (store_ok (run_ops st0 os') /\ corr_open (matters (run_ops st0 os')) !! k = Some c) as [Hok' Hk'].
  { clear -Hok Hk Hp' Hno. revert st0 Hok Hk Hp'. induction Hno as [|o os' Hn Hno IH]; intros st Hok Hk Hp'; simpl in *; [done|].
    destruct Hp' as [Ho Hp']. apply IH; [by apply (case_steps_ok _ _ Hok), after_steps|by apply claim_after|done]. }
  simpl. split; [exact (mo_live _ (so_matters _ Hok') _ _ Hk')|]. intros id kind rest at_. unfold correlate_or_open, attached. simpl. by rewrite Hk'.
Qed.

(** C22. No write is lost: a state write names the version it read and makes the
    next, so nothing that names the same version is accepted afterwards, and
    until a later write the state read back is the one written, if its own text
    parses back to it. *)
Theorem no_lost_update os c v s st v' :
  (forall text, state_text s = Ok text -> state_of text = Some s) ->
  proper_run no_cases os -> put_state (run_ops no_cases os) c v s = (st, Ok v') ->
  v' = (v + 1)%Z /\ forall os', proper_run st os' -> let st' := run_ops st os' in
    (forall s', is_ok (put_state st' c v s').2 = false) /\
    exists x, case st' c = Some x /\ (v' <= version x)%Z /\ (version x = v' -> state x = s).
Proof.
  intros Hlaw Hp Hput. pose proof (reached_ok _ Hp) as Hok. set (st0 := run_ops no_cases os) in *. clearbody st0.
  pose proof (put_steps st0 c v s) as Hst. rewrite Hput in Hst. simpl in Hst. destruct (case_steps_ok _ _ Hok Hst) as [Hok1 _].
  assert (v' = (v + 1)%Z /\ exists r text, cases (matters st) !! c = Some r /\ c_version r = v' /\ c_state r = text /\ state_of text = Some s) as (-> & r & text & Hr & Hv & Ht & Hs).
  { unfold put_state, committed in Hput. destruct (state_text s) as [text|] eqn:Ht; simpl in Hput; [|done].
    unfold next_version in Hput. case_bool_decide; simpl in Hput; [|done]. unfold refuse_erased in Hput.
    destruct (erasures _ !! c); simpl in Hput; [done|]. destruct (cases (matters st0) !! c) as [r|]; [|done].
    case_bool_decide; [|done]. injection Hput as <- <-. split; [done|]. eexists _, text. split_and!; [apply lookup_insert_eq|done|done|by apply Hlaw]. }
  split; [done|]. intros os' Hp'. simpl. destruct (run_keeps _ _ Hok1 Hp') as [_ Hk].
  destruct (kp_rows _ _ Hk _ _ Hr) as (r' & Hr' & Hm & _). pose proof (cm_version _ _ Hm). split.
  - intros s'. unfold put_state, committed. destruct (state_text s'); simpl; [|done]. destruct (next_version v); simpl; [|done].
    unfold refuse_erased. destruct (erasures _ !! c); simpl; [done|]. rewrite Hr'. rewrite bool_decide_eq_false_2 by lia. done.
  - eexists. unfold case. rewrite Hr'. simpl. split_and!; [done|simpl; lia|]. simpl. intros E.
    rewrite (cm_state _ _ Hm) by congruence. by rewrite Ht, Hs.
Qed.

(** C21. A case is never held and erased: a hold keeps erasure off, an erasure is
    begun only on a closed case, and once it is, whatever happens, no hold is
    placed, the case's row does not change, it owes nothing, and the record of
    the erasure stands - given what [proper_run] asks of new cases, of
    registrations and of imports: a closed case imported still owing goes on
    owing when it is erased. *)
Theorem hold_or_erasure os c : proper_run no_cases os -> let st := run_ops no_cases os in
  (hold st c = None \/ erasure st c = None) /\
  (forall h at_ reason, hold st c = Some h -> begin_erasure st c at_ reason = (st, Ok (HeldBy h))) /\
  forall e os', erasure st c = Some e -> proper_run st os' -> let st' := run_ops st os' in
    hold st' c = None /\ (exists e', erasure st' c = Some e' /\ erasure_moves e e') /\
    (exists r, cases (matters st') !! c = Some r /\ cases (matters st) !! c = Some r /\ c_status r = Closed) /\
    forall n, ~ owes (obligations st') c n.
Proof.
  intros Hp. pose proof (reached_ok _ Hp) as Hok. cbv zeta. set (st := run_ops no_cases os) in *. clearbody st. unfold hold, erasure. split_and!.
  - destruct (held _ !! c) eqn:E; [right; apply (so_kept _ Hok); eauto|by left].
  - intros h at_ reason Hh. destruct (so_kept _ Hok c) as [[r Hr] He]; [eauto|]. unfold begin_erasure, committed, get_case. by rewrite Hr, He, Hh.
  - intros e os' He Hp'. destruct (run_keeps _ _ Hok Hp') as [Hok' Hk]. destruct (kp_erased _ _ Hk _ _ He) as (e' & He' & Hm).
    assert (c_status <$> cases (matters st) !! c = Some Closed) as (r & Hr & Hcl)%fmap_Some by (apply (so_erased _ Hok); eauto).
    destruct (kp_rows _ _ Hk _ _ Hr) as (r' & Hr' & _ & Hfix). rewrite Hfix in Hr' by eauto. split_and!.
    + destruct (held _ !! c) eqn:E; [|done]. destruct (so_kept _ Hok' c) as [_ Hx]; [eauto|]. congruence.
    + eauto.
    + eauto.
    + intros n. apply (so_settled _ Hok'). rewrite Hr'. simpl. congruence.
Qed.

(** Who makes an obligation breached. *)
Lemma breach_after st o k d d' : store_ok st -> deadlines (obligations st) !! k = Some d -> deadlines (obligations (after_op st o)) !! k = Some d' ->
  d_state d' = Breached -> d_state d = Breached \/ (exists now, o = OpBreach k now /\ (d_resolved d <= now)%Z /\ is_open (d_state d) = true) \/
    o = OpDeadline k Breached.
Proof.
  intros Hst Hd Hd' Hb.
  assert (deadlines (obligations (after_op st o)) = deadlines (obligations st) -> d_state d = Breached) as Hsame by (intros E; rewrite E in Hd'; congruence).
  destruct o as [c0 ? keys ?|c0 s|c0|c0 v s|d0|k0 s|k0 now|k0|k0 n|c0 h|c0 e|c0 ? ?|c0|c0 r|c0 d0 ?|x ds blobs]; simpl in *.
  - left. apply Hsame. unfold correlate_or_open, committed. destruct (attached _ _); [done|]. by destruct (claim_keys _ _ _).
  - left. apply Hsame. unfold set_status, close. unlooked.
  - left. apply Hsame. unfold close. unlooked.
  - left. apply Hsame. unfold put_state. unlooked.
  - left. unfold register_deadline, committed in *. case_bool_decide; [by apply Hsame|].
    destruct (deadlines (obligations st) !! (of_case d0, dl_name d0)) eqn:E; [apply Hsame; by destruct (_ && _)|]. simpl in Hd'.
    destruct (list_deadline_rows (obligations st) (of_case d0, dl_name d0) (row_of d0)) as [E2 _]. rewrite E2, lookup_insert_ne in Hd' by congruence. congruence.
  - unfold set_deadline_state, committed, get_deadline in *. destruct (deadlines (obligations st) !! k0) as [r|] eqn:E; simpl in *; [|left; by apply Hsame].
    destruct (move_deadline _ _ _ _) as [o|] eqn:Hm; simpl in *; [|left; by apply Hsame].
    rewrite (move_deadline_rows _ _ _ _ _ Hm), lookup_insert in Hd'. case_decide as Hk; [|left; congruence]. subst k0.
    injection Hd' as <-. simpl in Hb. subst s. by right; right.
  - unfold breach_deadline, committed, get_deadline in *. destruct (deadlines (obligations st) !! k0) as [r|] eqn:E; simpl in *; [|left; by apply Hsame].
    destruct (negb _ || _) eqn:Hdue; [left; by apply Hsame|]. apply orb_false_iff in Hdue as [Hop%negb_false_iff Hdue%bool_decide_eq_false].
    destruct (move_deadline _ _ _ _) as [o|] eqn:Hm; simpl in *; [|left; by apply Hsame]. pose proof (move_deadline_rows _ _ _ _ _ Hm) as Hrows.
    assert (deadlines o !! k = Some d' \/ d' = d) as [Ho| ->]; [|rewrite Hrows, lookup_insert in Ho|by left].
    { unfold get_case in *. simpl in *. destruct (cases (matters st) !! k0.1); simpl in *; [left; by destruct (_ || _)|right; congruence]. }
    case_decide as Hk; [|left; congruence]. subst k0. right; left. exists now. split; [done|]. rewrite Hd in E. simplify_eq. split; [lia|done].
  - left. apply Hsame. unfold mark_breach_noted. unlooked.
  - left. unfold acknowledge_breach, committed, get_deadline in *. destruct (deadlines (obligations st) !! k0) as [r|] eqn:E; simpl in *; [|by apply Hsame].
    case_bool_decide as Hr; simpl in *; [|by apply Hsame]. case_bool_decide; simpl in *; [by apply Hsame|].
    match type of Hd' with context [reindex_unaccounted ?a ?b ?c ?d1 ?e] => rewrite (proj1 (reindex_rest a b c d1 e)) in Hd' end.
    simpl in Hd'. rewrite lookup_insert in Hd'. case_decide; [|congruence]. subst k0. congruence.
  - left. apply Hsame. unfold place_hold. unlooked.
  - left. apply Hsame. unfold remove_hold. unlooked.
  - left. apply Hsame. unfold begin_erasure. unlooked.
  - left. apply Hsame. unfold complete_erasure. unlooked.
  - left. apply Hsame. unfold attach_run. unlooked.
  - left. by apply Hsame.
  - left. unfold import_case, committed in *. destruct (state_text _); simpl in *; [|by apply Hsame]. case_bool_decide as Hn; [by apply Hsame|].
    destruct (import_keys _ _ _ _); simpl in *; [|by apply Hsame].
    assert (k.1 <> id x) as Hk by (intros E; apply Hn; rewrite <-E; by apply (so_known _ Hst _ d)).
    assert (forall l o, deadlines (foldl (fun o d => list_deadline o (id x, dl_name d) (row_of d)) o l) !! k = deadlines o !! k) as Hf.
    { induction l as [|y l IH]; intros o; simpl; [done|]. rewrite IH, (proj1 (list_deadline_rows _ _ _)). apply lookup_insert_ne. intros E. apply Hk. by rewrite <-E. }
    rewrite Hf in Hd'. congruence.
Qed.

(** C24. An obligation stands: once registered its instants and calendar never
    change, an ended one stays as it ended, and the first account of a breach
    is the one kept.  It becomes breached only by a caller that sets it so, or
    by the sweep, which breaches it once, only when it is due and still
    outstanding, and in the same write notes that it owes an account and
    escalates its case unless that is closed - given what [proper_run] asks. *)
Theorem obligation_stands os k d : proper_run no_cases os -> let st := run_ops no_cases os in
  deadlines (obligations st) !! k = Some d ->
  (forall os', proper_run st os' -> exists d', deadlines (obligations (run_ops st os')) !! k = Some d' /\ row_moves d d' /\
     (is_open (d_state d) = false -> d_state d' = d_state d)) /\
  (forall o d', deadlines (obligations (after_op st o)) !! k = Some d' -> d_state d' = Breached -> d_state d <> Breached ->
     o = OpDeadline k Breached \/ exists now, o = OpBreach k now /\ (d_resolved d <= now)%Z /\ is_open (d_state d) = true) /\
  forall now st1, breach_deadline st k now = (st1, Ok true) ->
    is_open (d_state d) = true /\ (d_resolved d <= now)%Z /\ deadlines (obligations st1) !! k = Some (in_state d Breached) /\
    k ∈ unnoted (obligations st1) /\ (exists s, c_status <$> cases (matters st1) !! k.1 = Some s /\ (s = Escalated \/ s = Closed)) /\
    forall os' now', proper_run st1 os' -> (breach_deadline (run_ops st1 os') k now').2 = Ok false.
Proof.
  intros Hp. pose proof (reached_ok _ Hp) as Hok. cbv zeta. set (st := run_ops no_cases os) in *. clearbody st. intros Hd. split_and!.
  - intros os' Hp'. destruct (run_keeps _ _ Hok Hp') as [_ Hk]. destruct (kp_owed _ _ Hk _ _ Hd) as (d' & Hd' & Hm).
    exists d'. split_and!; [done|done|]. by apply row_moves_ended.
  - intros o d' Hd' Hb Hnb. destruct (breach_after _ _ _ _ _ Hok Hd Hd' Hb) as [?|[?|?]]; [done|by right|by left].
  - intros now st1 Hb. pose proof (breach_steps st k now) as Hs. rewrite Hb in Hs. destruct (case_steps_ok _ _ Hok Hs) as [Hok1 _]. simpl in Hok1.
    unfold breach_deadline, committed, get_deadline in Hb. rewrite Hd in Hb. simpl in Hb.
    destruct (negb _ || _) eqn:Hopen; [done|]. apply orb_false_iff in Hopen as [Hopen%negb_false_iff Hdue%bool_decide_eq_false].
    destruct (move_deadline _ _ _ _) as [o|] eqn:Hm; simpl in Hb; [|done]. unfold get_case in Hb. simpl in Hb.
    destruct (cases (matters st) !! k.1) as [r|] eqn:Hr; simpl in Hb; [|done].
    assert (deadlines (obligations st1) !! k = Some (in_state d Breached) /\ k ∈ unnoted (obligations st1) /\
      exists s, c_status <$> cases (matters st1) !! k.1 = Some s /\ (s = Escalated \/ s = Closed)) as (Hd1 & Hu & Hesc).
    { pose proof (move_deadline_rows _ _ _ _ _ Hm) as E. destruct (_ || _) eqn:Hst; injection Hb as <-; simpl; rewrite E, lookup_insert_eq.
      - split_and!; [done|set_solver|]. exists (c_status r). rewrite Hr. split; [done|]. apply orb_true_iff in Hst as [?%bool_decide_eq_true|?%bool_decide_eq_true]; auto.
      - split_and!; [done|set_solver|]. exists Escalated. rewrite move_cases, decide_True by done. split; [done|by left]. }
    split_and!; [done|lia|done|done|done|]. intros os' now' Hp'. destruct (run_keeps _ _ Hok1 Hp') as [_ Hk].
    destruct (kp_owed _ _ Hk _ _ Hd1) as (d' & Hd' & Hmv). apply row_moves_ended in Hmv; [|done].
    unfold breach_deadline, committed, get_deadline. rewrite Hd'. simpl. by rewrite Hmv.
Qed.

(** C25. Closing is refused exactly while something is owed, with the number of
    obligations owed; an unknown case is not found, none having been registered
    for it; and a case that is closed gives up its keys, leaves every other
    case's status, and is registered no new obligation. *)
Theorem close_answers os c : proper_run no_cases os -> let st := run_ops no_cases os in
  ((exists n, owes (obligations st) c n) -> exists ns, NoDup ns /\ (forall n, n ∈ ns <-> owes (obligations st) c n) /\
    close st c = (st, Err (ObligationsOutstanding c (length ns)))) /\
  (cases (matters st) !! c = None -> close st c = (st, Err (Store (NotFound c)))) /\
  forall r, cases (matters st) !! c = Some r -> (forall n, ~ owes (obligations st) c n) -> exists st', close st c = (st', Ok tt) /\
    (forall c', c_status <$> cases (matters st') !! c' = if decide (c = c') then Some Closed else c_status <$> cases (matters st) !! c') /\
    (forall keys, correlate st' keys <> Some c) /\
    (forall d, of_case d = c -> register_deadline st' d = (st', Err (CaseIsClosed c))).
Proof.
  intros Hp. pose proof (reached_ok _ Hp) as Hok. cbv zeta. set (st := run_ops no_cases os) in *. clearbody st. unfold close. split_and!.
  - intros [n Hn]. destruct (outstanding_counts (obligations st) c) as (ns & Hnd & Hns & <-). exists ns. split_and!; [done..|].
    destruct (decide (length ns = 0)) as [E%nil_length_inv|E]; [|by rewrite bool_decide_eq_false_2].
    apply Hns in Hn. subst ns. by apply not_elem_of_nil in Hn.
  - intros Hn. assert (outstanding (obligations st) c = 0) as ->.
    { apply outstanding_zero. intros n (d & Hd & _). apply (so_known _ Hok) in Hd as [? Hd]. simpl in Hd. congruence. }
    simpl. unfold get_case. by rewrite Hn.
  - intros r Hr Hno. assert (outstanding (obligations st) c = 0) as -> by by apply outstanding_zero.
    simpl. unfold get_case. rewrite Hr. simpl. eexists. split; [done|].
    pose proof (close_matters _ _ _ (so_matters _ Hok) Hr) as Hm. set (m := release_correlation _ _) in *.
    assert (forall c', cases m !! c' = if decide (c = c') then Some (mk_crow (c_kind r) Closed (c_state r) (c_version r) (c_opened r)) else cases (matters st) !! c') as Hc.
    { intros c'. unfold m, release_correlation. set (m1 := move_case _ _ _ _). destruct (release_spec c (case_keys m1 c) m1) as (-> & _). apply move_cases. }
    simpl. split_and!.
    + intros c'. rewrite Hc. by case_decide.
    + intros keys Hk. unfold correlate, attached in Hk. simpl in Hk. apply head_Some_elem_of, list_elem_of_omap in Hk as (k & _ & Hk).
      apply (mo_live _ Hm) in Hk. rewrite Hc, decide_True in Hk by done. done.
    + intros d <-. unfold register_deadline. simpl. rewrite Hc, decide_True by done. simpl. done.
Qed.
End case_ops.
