(* ===== verification/CasesRuns.v ===== *)
(** * Cases computed

    Witnesses of the properties of [CasesSafety] on one concrete life of a
    case, and two behaviours its operations leave open. *)

From S2P Require Import Prelude Digest EffectKey Index Panel Text Chain Mailbox Cases CasesTables CasesOwed CasesSafety.

Module CasesRuns.
#[local] Instance json : CaseJson (J:=str) := { state_text := Ok; state_of := Some; null_state := lit "null" }.
Definition c1 : CaseId := lit "case-1".
Definition key1 : CorrelationKey := (lit "invoice", lit "I-1").
Definition owed (n : str) (at_ : Z) (warn : option Z) : Deadline := mk_deadline c1 n at_ ZERO warn Pending None.
Definition clerk : Operator := mk_operator (lit "clerk") Authenticated.
Definition opened : list (Op (J:=str)) := [OpOpen c1 (lit "matter") [key1] 10].
Definition working : list (Op (J:=str)) := opened ++
  [OpRegister (owed (lit "reply") 100 (Some 50)); OpRegister (owed (lit "file") 200 None); OpPut c1 0 (lit "drafting")]%Z.
Definition late : list (Op (J:=str)) := working ++ [OpBreach (c1, lit "reply") 120; OpAck (c1, lit "reply") (mk_note clerk (lit "called") 130)]%Z.
Definition settled : list (Op (J:=str)) := late ++ [OpDeadline (c1, lit "file") Met; OpClose c1].
Definition wiped : list (Op (J:=str)) := settled ++ [OpErase c1 300 (lit "request"); OpErased c1]%Z.
Abbreviation at_end os := (run_ops no_cases os).
Ltac properly := repeat split; try (by apply (bool_decide_unpack _); vm_compute); try by vm_compute.
Lemma wiped_proper : proper_run no_cases wiped.
Proof. properly. Qed.
Ltac computed := apply (bool_decide_unpack _); vm_compute; exact I.

(** ** The life, computed *)
Example life :
  bool_decide (correlate (at_end working) [key1] = Some c1) = true /\
  (dl_name <$> due (at_end working) 60 10) = [lit "reply"] /\ (dl_name <$> due (at_end working) 200 10) = [lit "reply"; lit "file"] /\
  (dl_name <$> breached (at_end (working ++ [OpBreach (c1, lit "reply") 120%Z])) 10) = [lit "reply"] /\ breached (at_end late) 10 = [] /\
  (dl_name <$> breaches_to_note (at_end late) 10) = [lit "reply"] /\
  bool_decide (correlate (at_end settled) [key1] = None) = true /\ (complete <$> erasure (at_end wiped) c1) = Some true.
Proof. by vm_compute. Qed.

(** A caller that names a key twice is told it was claimed concurrently, on an
    empty store, and every retry is told the same. *)
Example key_named_twice : (correlate_or_open no_cases c1 (lit "matter") [key1; key1] 10).2 = Err (Store (Backend (lit "claimed concurrently"))).
Proof. by vm_compute. Qed.
(** A blob and a run are linked to a case after its erasure is complete. *)
Example linked_after_erasure : blobs_of (link_blob (at_end wiped) c1 ZERO 400) c1 = [ZERO] /\ blobs_of (at_end wiped) c1 = [].
Proof. by vm_compute. Qed.

(** What the operations leave to their callers.  A caller that sets a deadline
    breached does so before it is due, with no account owed and the case open;
    an obligation is registered for a case there is none of, and closing it
    then answers that it owes; and a closed case is imported still owing, and
    erased so. *)
Example breached_early :
  let st := at_end (working ++ [OpDeadline (c1, lit "reply") Breached]) in
  (dl_name <$> breached st 10) = [lit "reply"] /\ breaches_to_note st 10 = [] /\ (status (J:=str) <$> case st c1) = Some Open.
Proof. by vm_compute. Qed.
Example owed_by_nobody :
  (close (register_deadline no_cases (owed (lit "reply") 100 None)).1 c1).2 = Err (ObligationsOutstanding c1 1).
Proof. by vm_compute. Qed.
Definition archived : Case (J:=str) := mk_case c1 (lit "matter") Closed [key1] (lit "done") 3 10 [].
Example erased_owing :
  let st := at_end [OpImport archived [owed (lit "reply") 100 None] []; OpErase c1 300 (lit "request")]%Z in
  is_Some (erasure st c1) /\ outstanding (obligations st) c1 = 1.
Proof. split; [eexists|]; by vm_compute. Qed.

(** ** Witnesses *)
Lemma working_proper : proper_run no_cases working.
Proof. properly. Qed.
Lemma settled_proper : proper_run no_cases settled.
Proof. properly. Qed.
Definition attending : list (Op (J:=str)) := wiped ++ [OpAttach c1 (lit "run-1"); OpAttach c1 (lit "run-2"); OpAttach c1 (lit "run-1")].
Lemma cases_exact_witness : proper_run no_cases attending /\ store_ok (at_end attending) /\
  runs_of (links (at_end attending)) c1 = [lit "run-1"; lit "run-2"] /\ is_Some (run_seen (links (at_end attending)) !! (c1, lit "run-2")).
Proof.
  assert (proper_run no_cases attending) as Hp by properly. destruct (cases_exact attending Hp) as (Hok & _ & Hruns).
  split_and!; [exact Hp|exact Hok|by vm_compute|]. apply Hruns; [by repeat split|].
  assert (runs_of (links (at_end attending)) c1 = [lit "run-1"; lit "run-2"]) as -> by by vm_compute. by right; left.
Defined.
Lemma one_case_per_key_witness : correlate (at_end working) [key1] = Some c1 /\ Forall (fun o => ~ closes c1 o) (drop 4 late) /\
  exists st, correlate_or_open st (lit "case-2") (lit "matter") [key1] 150 = (st, Ok (Attached c1)) /\ st = run_ops (at_end working) (drop 4 late).
Proof.
  assert (correlate (at_end working) [key1] = Some c1) as Hc by computed.
  assert (Forall (fun o => ~ closes c1 o) (drop 4 late)) as Hno by (repeat constructor; by intros [?|?]).
  split_and!; [done|done|]. eexists. split; [|done].
  destruct (one_case_per_key working [key1] c1 working_proper Hc) as (k & r & Hk & _ & _ & _ & Hst).
  apply list_elem_of_singleton in Hk. subst k. apply (Hst (drop 4 late)); [properly|done].
Defined.
Lemma no_lost_update_witness : exists st, put_state (at_end opened) c1 0 (lit "drafting") = (st, Ok 1%Z) /\
  is_ok (put_state st c1 0 (lit "other")).2 = false.
Proof.
  assert ((put_state (at_end opened) c1 0 (lit "drafting")).2 = Ok 1%Z) as Hput by by vm_compute.
  destruct (put_state (at_end opened) c1 0 (lit "drafting")) as [st o] eqn:E. simpl in Hput. subst o. exists st. split; [done|].
  destruct (no_lost_update opened c1 0 (lit "drafting") st 1) as [_ Hl]; [by intros text [= <-]|properly|exact E|]. by apply (Hl []).
Defined.
Lemma hold_or_erasure_witness : exists e, erasure (at_end wiped) c1 = Some e /\ hold (run_ops (at_end wiped) [OpHold c1 (mk_hold 400 (lit "claim") clerk)]) c1 = None.
Proof.
  assert (is_Some (erasure (at_end wiped) c1)) as [e He] by (eexists; by vm_compute). exists e. split; [done|].
  destruct (hold_or_erasure wiped c1 wiped_proper) as (_ & _ & Hst). exact (proj1 (Hst e [OpHold c1 (mk_hold 400 (lit "claim") clerk)] He (conj I I))).
Defined.
Lemma obligation_stands_witness : exists st1, breach_deadline (at_end working) (c1, lit "reply") 120 = (st1, Ok true) /\
  (breach_deadline (run_ops st1 []) (c1, lit "reply") 130).2 = Ok false.
Proof.
  assert ((breach_deadline (at_end working) (c1, lit "reply") 120).2 = Ok true) as Hb by by vm_compute.
  destruct (breach_deadline (at_end working) (c1, lit "reply") 120) as [st1 o] eqn:E. simpl in Hb. subst o. exists st1. split; [done|].
  destruct (obligation_stands working (c1, lit "reply") (row_of (owed (lit "reply") 100 (Some 50%Z))) working_proper) as (_ & _ & Hst); [by vm_compute|].
  destruct (Hst 120%Z st1 E) as (_ & _ & _ & _ & _ & Hst'). by apply (Hst' []).
Defined.
Lemma close_answers_witness : (close (at_end working) c1).2 = Err (ObligationsOutstanding c1 2) /\
  exists ns, NoDup ns /\ (forall n, n ∈ ns <-> owes (obligations (at_end working)) c1 n) /\
    close (at_end working) c1 = (at_end working, Err (ObligationsOutstanding c1 (length ns))).
Proof.
  split; [by vm_compute|]. apply (proj1 (close_answers working c1 working_proper)). exists (lit "reply"). eexists. by split; [vm_compute|].
Defined.
End CasesRuns.
