(* ===== verification/Dispatch.v ===== *)
(** * One effect, announced, performed and recorded ([src/src/runtime/ctx.rs])

    [StepCtx::effect_unlabelled] and everything it calls: the attempt loop, the
    gate, the announcement before the call and the record after it, the reading
    of a recorded attempt, the resolution of an orphan, the probe, and the rule
    that says whether a failure may be repeated.  The step context is the record
    [World]; a function of the code is a state-passing computation over it that
    returns, raises a [StepError], or dies with the process.

    What the code asks of the outside (does the store take this record, what
    did the call return, what does the probe say, is the authority withdrawn)
    is answered by scripts in [Env], and a script that has run out is a crash at
    that point.  [reached] is not state of the program: it is the outside
    world's own list of the calls that took effect.

    The gate is that of a plane without rate ceilings and without a manifest's
    [declared] and delegation-depth checks; spans and metrics are left out. *)

From S2P Require Import Prelude Digest EffectKey Label SinkGate Budget Replay Retry.
From stdpp Require Import pretty.

(** ** Step failures *)

Inductive StepError :=
| SEffect (e : EffectError)
| SPolicy (e : PolicyError)
| SStore (e : str)
| SEncoding (e : str)
| Undecidable (key : EffectKey) (recovery : Recovery) (detail : str)
| Unrecorded (key : EffectKey) (disposition : Disposition) (detail : str)
| SUnreproducible (what detail : str)
| SNonDeterminism (e : NonDeterminism)
| SBudget (e : BudgetExceeded)
| SWithheld (subject reason : str)
| SDenied (action resource reason : str)
| ReplayOverrun (actual : EffectKey) (kind : str).

Definition ACTION_PERFORM : str := lit "effect:perform".
Definition ACTION_EGRESS : str := lit "effect:egress".
Definition ACTION_CONTENT : str := lit "effect:content".
Definition FIRST_ATTEMPT : N := 1.

(** What a content rule said of a value ([core/content.rs]). *)
Record ContentVerdict := mk_verdict {
  cv_rules : list str;
  cv_sensitivity : option Sensitivity;
  cv_refused : option (str * str);
}.
#[export] Instance verdict_eq_dec : EqDecision ContentVerdict.
Proof. solve_decision. Defined.

Definition content_joined (declared : Sensitivity) (classified : option Sensitivity) : Sensitivity :=
  match classified with Some c => sens_max declared c | None => declared end.
Definition verdict_raise (v : option ContentVerdict) (declared : Sensitivity) : Sensitivity :=
  content_joined declared (v ≫= cv_sensitivity).
Definition raised (d : DeclaredOutput) (classified : option Sensitivity) : DeclaredOutput :=
  mk_declared (declared_trust d) (content_joined (declared_sensitivity d) classified).

(** ** When a failure stops the dispatch *)

Definition decimal (n : N) : str := lit (pretty n).

(** What the plane answers outside this crate's code: hex text, the sentence
    [thiserror] renders for an error, the canonical bytes of a JSON value and
    what [serde_json] parses them back as. *)
Class Rendering (V : Type) := {
  hex : list Byte.byte -> str;
  error_text : EffectError -> str;
  exceeded_text : BudgetExceeded -> str;
  consumed_text : Consumed -> str;
  value_bytes : V -> list Byte.byte;
  value_read : list Byte.byte -> V;
}.
(** What a reader of the journal finds of a value: the parse of its canonical
    bytes, which writes the double [100.0] as the integer [100]. *)
Definition as_written {V} `{Rendering V} (v : V) : V := value_read (value_bytes v).

Section stop.
Context {V : Type} `{Rendering V}.

(** [Display] of an effect key. *)
Definition key_text (key : EffectKey) : str := lit "ek:" ++ hex (as_bytes key).

(** [next]'s verdict, [None] when another attempt is permitted. *)
Definition stop_reason (disposition : Disposition) (recovery : Recovery) (key : EffectKey) (attempt : N)
    (policy : RetryPolicy) (message : str) (permanent : bool) (refusal : option str * bool)
    (mutates : bool) : option StepError :=
  let '(code, account) := refusal in
  let by_policy :=
    if permits policy attempt then None else
    Some (SEffect (Final (lit "effect " ++ key_text key ++ lit " failed on attempt " ++ decimal attempt
      ++ lit " of " ++ decimal (max_attempts policy) ++ lit ": " ++ message) disposition code account)) in
  match disposition with
  | Landed =>
      if negb mutates && negb permanent then by_policy
      else if negb mutates then
        Some (SEffect (Final (lit "effect " ++ key_text key ++ lit " ran and failed on attempt "
          ++ decimal attempt ++ lit ", and the failure is its answer rather than a fault (" ++ message
          ++ lit "); no retry would change it") disposition None false))
      else
        Some (SEffect (Final (lit "effect " ++ key_text key
          ++ lit " took effect and its response could not be used (" ++ message
          ++ lit "); repeating it would perform it a second time") disposition None false))
  | InDoubt =>
      match recovery with
      | Retry | Idempotent _ =>
          if mutates && negb (permits policy attempt) then
            Some (Undecidable key recovery (message
              ++ lit " — attempts exhausted with the outcome still unknown, and the effect mutates; whether the last call landed is a question for an operator, not for an unwind"))
          else by_policy
      | Reconcile =>
          Some (Undecidable key recovery (message
            ++ lit " — the reconciliation probe could not establish whether it landed"))
      | RequiresOperator =>
          Some (Undecidable key recovery (message ++ lit " — it may well have been applied"))
      end
  | DidNotHappen =>
      if permanent then
        Some (SEffect (Final (lit "effect " ++ key_text key ++ lit " was refused on attempt "
          ++ decimal attempt ++ lit ", and the refusal is an answer rather than a fault (" ++ message
          ++ lit "); no retry would change it") disposition code account))
      else by_policy
  end.
End stop.

(** ** The step context and what surrounds it *)

(** [Reconciliation<T>]. *)
Inductive Reconciliation (T : Type) := ProbeLanded (output : T) | ProbeDidNotHappen | ProbeInconclusive.
Arguments ProbeLanded {T}. Arguments ProbeDidNotHappen {T}. Arguments ProbeInconclusive {T}.
Definition probe_disposition {T} (r : Reconciliation T) : Disposition :=
  match r with
  | ProbeLanded _ => Landed
  | ProbeDidNotHappen => DidNotHappen
  | ProbeInconclusive => InDoubt
  end.

Inductive Decision := Permit | Refuse (reason : str).

(** The store's answer to one append.  An error may hide a record that was
    written all the same. *)
Inductive Ack := Stored | NotStored (e : str) | Unacknowledged (e : str).
(** One call: whether it took effect outside, and what it returned. *)
Record Called (T : Type) := mk_called { took_effect : bool; returned : result EffectError T }.
Arguments mk_called {T}. Arguments took_effect {T}. Arguments returned {T}.
(** A hop's read of the halts, [plane.upgrade()] included. *)
Inductive Hop := PlaneGone | HaltsUnread (e : str) | NotWithdrawn | Withdrawn (subject reason : str).

Section dispatch.
Context {V O T : Type} `{Rendering V, Sha256}.
Context (json_null : V).
(** [E::Output]'s own serde. *)
Context (to_value : T -> result str V) (from_value : V -> result str T).

Abbreviation RecordKind := (Replay.RecordKind (V:=V) (O:=O) (C:=ContentVerdict)).
Abbreviation JRecord := (Replay.JRecord (V:=V) (O:=O) (C:=ContentVerdict)).
Abbreviation StepCursor := (Replay.StepCursor (V:=V) (O:=O) (C:=ContentVerdict)).
Abbreviation EffectReplay := (Replay.EffectReplay (V:=V) (O:=O) (C:=ContentVerdict)).
Abbreviation EffectDescriptor := (Replay.EffectDescriptor (V:=V)).

(** What the protocol asks of an [Effect]; [perform] and [reconcile] are the
    environment's. *)
Record Effect := mk_effect {
  descriptor : EffectDescriptor;
  mutates : bool;
  recovery : Recovery;
  retry : RetryPolicy;
  retries_landed : bool;
  outbound_bytes : Z;
  declared_output : DeclaredOutput;
  output_spend : T -> Spend;
  subject_credential : bool;
}.

(** The parts of [StepCtx] no dispatch changes. *)
Record Config := mk_config {
  mode : Pass;
  run : str;
  step : StepId;
  phase : Phase;
  reversing : bool;
  abandoning : bool;
  granted_mutating : EffectDescriptor -> bool;
  policy : option (EffectDescriptor -> bool -> option Label -> Decision);
  source_verdict : str -> V -> option ContentVerdict;
}.

Record Env := mk_env {
  appends : list Ack;
  calls : list (Called T);
  probes : list (bool -> result EffectError (Reconciliation T));
  hops : list Hop;
}.

Record World := mk_world {
  cursor : StepCursor;
  ordinal : N;
  ledger : Ledger;
  journal : list JRecord;
  slept : list Z;
  moved_blob : option str;
  source_raise : option Sensitivity;
  env : Env;
  reached : list EffectKey;
}.

Definition set_cursor (w : World) (c : StepCursor) : World :=
  mk_world c (ordinal w) (ledger w) (journal w) (slept w) (moved_blob w) (source_raise w) (env w) (reached w).
Definition set_ordinal (w : World) (n : N) : World :=
  mk_world (cursor w) n (ledger w) (journal w) (slept w) (moved_blob w) (source_raise w) (env w) (reached w).
Definition set_ledger (w : World) (l : Ledger) : World :=
  mk_world (cursor w) (ordinal w) l (journal w) (slept w) (moved_blob w) (source_raise w) (env w) (reached w).
Definition set_journal (w : World) (j : list JRecord) : World :=
  mk_world (cursor w) (ordinal w) (ledger w) j (slept w) (moved_blob w) (source_raise w) (env w) (reached w).
Definition set_slept (w : World) (s : list Z) : World :=
  mk_world (cursor w) (ordinal w) (ledger w) (journal w) s (moved_blob w) (source_raise w) (env w) (reached w).
Definition set_moved_blob (w : World) (m : option str) : World :=
  mk_world (cursor w) (ordinal w) (ledger w) (journal w) (slept w) m (source_raise w) (env w) (reached w).
Definition set_source_raise (w : World) (r : option Sensitivity) : World :=
  mk_world (cursor w) (ordinal w) (ledger w) (journal w) (slept w) (moved_blob w) r (env w) (reached w).
Definition set_env (w : World) (e : Env) : World :=
  mk_world (cursor w) (ordinal w) (ledger w) (journal w) (slept w) (moved_blob w) (source_raise w) e (reached w).
Definition set_reached (w : World) (ks : list EffectKey) : World :=
  mk_world (cursor w) (ordinal w) (ledger w) (journal w) (slept w) (moved_blob w) (source_raise w) (env w) ks.

(** How a computation ends: with a value, an error, the process's death, or
    out of fuel (which never happens, see [DispatchSafety]). *)
Inductive Out (A : Type) := Ret (a : A) | Throw (e : StepError) | Died | Spun.
Arguments Ret {A}. Arguments Throw {A}. Arguments Died {A}. Arguments Spun {A}.

Definition M (A : Type) : Type := World -> World * Out A.
#[export] Instance m_ret : MRet M := fun A a w => (w, Ret a).
#[export] Instance m_bind : MBind M := fun A B k m w =>
  match m w with
  | (w, Ret a) => k a w
  | (w, Throw e) => (w, Throw e)
  | (w, Died) => (w, Died)
  | (w, Spun) => (w, Spun)
  end.
Definition throw {A} (e : StepError) : M A := fun w => (w, Throw e).
Definition get : M World := fun w => (w, Ret w).
Definition modify (f : World -> World) : M unit := fun w => (f w, Ret tt).
(** [expr?] on a plain [Result]. *)
Definition lift {A} (r : result StepError A) : M A :=
  match r with Ok a => mret a | Err e => throw e end.

(** ** The store, the call, the probe *)

(** The values of a record as its bytes hold them. *)
Definition written (kind : RecordKind) : RecordKind :=
  match kind with
  | EffectStarted d r m a => EffectStarted (mk_descriptor (desc_kind d) (as_written (desc_args d))) r m a
  | EffectDone o src by_ s d ct => EffectDone (as_written o) src by_ s d ct
  | EffectReconciled d o s dc => EffectReconciled d (as_written <$> o) s dc
  | kind => kind
  end.
Definition stamp (c : Config) (key : EffectKey) (kind : RecordKind) (w : World) : JRecord :=
  mk_record (Some (step c)) (phase c) (Some key) (Z.of_nat (S (length (journal w)))) (written kind).
Definition put (c : Config) (key : EffectKey) (kind : RecordKind) (w : World) : World :=
  set_journal w (journal w ++ [stamp c key kind w]).
Definition set_appends (w : World) (a : list Ack) : World :=
  set_env w (mk_env a (calls (env w)) (probes (env w)) (hops (env w))).

(** [append_effect], with the store's error not yet raised. *)
Definition try_append (c : Config) (key : EffectKey) (kind : RecordKind) : M (result str unit) := fun w =>
  match appends (env w) with
  | [] => (w, Died)
  | Stored :: acks => (put c key kind (set_appends w acks), Ret (Ok tt))
  | NotStored e :: acks => (set_appends w acks, Ret (Err e))
  | Unacknowledged e :: acks => (put c key kind (set_appends w acks), Ret (Err e))
  end.
Definition append_effect (c : Config) (key : EffectKey) (kind : RecordKind) : M unit :=
  r ← try_append c key kind;
  match r with Ok _ => mret tt | Err e => throw (SStore e) end.

Definition perform (key : EffectKey) : M (result EffectError T) := fun w =>
  match calls (env w) with
  | [] => (w, Died)
  | called :: rest =>
      let w := set_env w (mk_env (appends (env w)) rest (probes (env w)) (hops (env w))) in
      (if took_effect called then set_reached w (reached w ++ [key]) else w, Ret (returned called))
  end.
(** The provider answers from what happened under the key asked about. *)
Definition reconcile (key : EffectKey) : M (result EffectError (Reconciliation T)) := fun w =>
  match probes (env w) with
  | [] => (w, Died)
  | provider :: rest =>
      (set_env w (mk_env (appends (env w)) (calls (env w)) rest (hops (env w))),
       Ret (provider (bool_decide (key ∈ reached w))))
  end.
Definition read_halts : M Hop := fun w =>
  match hops (env w) with
  | [] => (w, Died)
  | hop :: rest =>
      (set_env w (mk_env (appends (env w)) (calls (env w)) (probes (env w)) rest), Ret hop)
  end.
Definition sleep (d : Z) : M unit := modify (fun w => set_slept w (slept w ++ [d])).

(** ** Billing and refusals *)

Definition bill_live (s : Spend) : M unit := modify (fun w => set_ledger w (record_live_spend (ledger w) s)).
Definition bill_replayed (s : Spend) (outbound : Z) : M unit :=
  modify (fun w => set_ledger w (replay_effect (ledger w) s outbound)).
Definition count_unadmitted (outbound : Z) : M unit :=
  modify (fun w => set_ledger w (count_effect (ledger w) outbound)).
Definition ledger_denial : M (result BudgetExceeded unit) := fun w =>
  let '(l, r) := record_denial (ledger w) in (set_ledger w l, Ret r).

Definition writes_enabled (c : Config) (w : World) : bool :=
  SinkGate.writes_enabled (mode c) (exhausted (cursor w)).
Definition undoing (c : Config) : bool := negb (is_forward (phase c)) || reversing c.

Definition counted_refusal (denial : PolicyError) : M StepError :=
  counted ← ledger_denial;
  mret (match counted with Err exceeded => SBudget exceeded | Ok _ => SPolicy denial end).

Definition arrival_refusal (content : option ContentVerdict) : M unit :=
  match content ≫= cv_refused with
  | Some (rule, pointer) => e ← counted_refusal (ContentRule rule pointer); throw e
  | None => mret tt
  end.

Definition is_sink_action (action : str) : bool :=
  bool_decide (action = ACTION_EGRESS) || bool_decide (action = ACTION_CONTENT).

Definition recorded_refusal (r : EffectReplay) : StepError :=
  match r with
  | Refused limit used ceiling => SBudget (Recorded limit used ceiling)
  | Denied reason action resource =>
      if is_sink_action action then SPolicy (PolicyRecorded reason) else SDenied action resource reason
  | Withheld subject reason => SWithheld subject reason
  | _ => SEffect (OtherError (lit "not a recorded refusal"))
  end.

Definition replayed_denial (c : Config) (r : EffectReplay) : M StepError :=
  match r with
  | Denied _ action _ =>
      counted ← ledger_denial;
      mret (match counted with
            | Err exceeded => if is_sink_action action || negb (undoing c) then SBudget exceeded
                              else recorded_refusal r
            | Ok _ => recorded_refusal r
            end)
  | _ => mret (recorded_refusal r)
  end.

Definition replayed_refusal (c : Config) (key : EffectKey) (refusal : EffectReplay) (outbound : Z) : M unit :=
  match refusal with
  | Refused limit used ceiling =>
      w ← get;
      if negb (writes_enabled c w) || abandoning c then throw (recorded_refusal refusal) else
      match can_admit_effect (ledger w) outbound with
      | Err _ => throw (SBudget (Recorded limit used ceiling))
      | Ok _ => append_effect c key BudgetReadmitted
      end
  | _ => e ← replayed_denial c refusal; throw e
  end.

(** ** The gate *)

Definition gated_mutates (c : Config) (d : EffectDescriptor) (claimed : bool) : bool :=
  claimed || granted_mutating c d.

Definition authorize (c : Config) (key : EffectKey) (d : EffectDescriptor) (mutates : bool)
    (outbound : option Label) : M unit :=
  match policy c with
  | None => mret tt
  | Some engine =>
      w ← get;
      match admit_policy_check (ledger w), undoing c with
      | Err exceeded, false => throw (SBudget exceeded)
      | _, _ =>
          match engine d mutates outbound with
          | Permit => mret tt
          | Refuse reason =>
              append_effect c key (PolicyDenied reason ACTION_PERFORM (desc_kind d)) ;;
              counted ← ledger_denial;
              match counted, undoing c with
              | Err exceeded, false => throw (SBudget exceeded)
              | _, _ => throw (SDenied ACTION_PERFORM (desc_kind d) reason)
              end
          end
      end
  end.

Definition admit_attempt (c : Config) (key : EffectKey) (outbound : Z) : M unit :=
  w ← get;
  match admit_effect (ledger w) outbound with
  | Ok l => modify (fun w => set_ledger w l)
  | Err exceeded =>
      append_effect c key (BudgetRefused (exceeded_text exceeded) (consumed_text (consumed (ledger w)))
        (ceiling_as_str <$> exceeded_ceiling exceeded)) ;;
      throw (SBudget exceeded)
  end.

Definition gate (c : Config) (key : EffectKey) (d : EffectDescriptor) (mutates : bool)
    (outbound : option Label) (bytes : Z) : M unit :=
  authorize c key d (gated_mutates c d mutates) outbound ;;
  if undoing c then count_unadmitted bytes else admit_attempt c key bytes.

Definition starts_no_work_when_abandoning (c : Config) (d : EffectDescriptor) : M unit :=
  if abandoning c && negb (undoing c)
  then throw (SEffect (Rejected (desc_kind d
         ++ lit " was not dispatched: the run is being cancelled, and cancelling starts no new work")))
  else mret tt.

Definition withdrawal_at_hop (c : Config) (key : EffectKey) : M unit :=
  if undoing c then mret tt else
  hop ← read_halts;
  match hop with
  | PlaneGone => throw (SEffect (OtherError
      (lit "the plane this run belongs to is gone, so its halts cannot be read")))
  | HaltsUnread e => throw (SStore e)
  | NotWithdrawn => mret tt
  | Withdrawn subject reason =>
      append_effect c key (AuthorityWithheld subject reason) ;;
      throw (SWithheld subject reason)
  end.

(** ** One attempt: announce, act, record *)

Definition unreproducible (e : EffectError) : option str :=
  match e with Unreproducible what _ => Some what | _ => None end.

Definition is_refusal (e : EffectError) : bool :=
  match e with EffectRefused _ _ _ => true | _ => false end.
Definition permanent_failure (e : Effect) (failure : EffectError) : bool :=
  is_refusal failure
  || (bool_decide (error_disposition failure = Landed) && negb (retries_landed e)).

Definition failure_record (e : Effect) (failure : EffectError) : RecordKind :=
  EffectFailed (error_message error_text failure) (error_spend failure) (error_disposition failure)
    (permanent_failure e failure) (unreproducible failure) (error_code failure)
    (refuses_the_account failure).

(** [OnceLock::set]. *)
Definition move_blob (what : str) : M unit :=
  modify (fun w => match moved_blob w with Some _ => w | None => set_moved_blob w (Some what) end).

Definition perform_once (c : Config) (e : Effect) (key : EffectKey) (attempt : N) (write_start : bool) :
    M (result EffectError T) :=
  (if write_start then
     append_effect c key (EffectStarted (descriptor e) (recovery e)
       (gated_mutates c (descriptor e) (mutates e)) attempt)
   else mret tt) ;;
  performed ← perform key;
  match performed with
  | Ok output =>
      match to_value output with
      | Err detail => throw (Unrecorded key Landed detail)
      | Ok json =>
          bill_live (output_spend e output) ;;
          let content := source_verdict c (desc_kind (descriptor e)) json in
          recorded ← try_append c key
            (EffectDone json None None (output_spend e output) (declared_output e) content);
          match recorded with
          | Err detail => throw (Unrecorded key Landed detail)
          | Ok _ =>
              arrival_refusal content ;;
              modify (fun w => set_source_raise w (content ≫= cv_sensitivity)) ;;
              mret (Ok output)
          end
      end
  | Err failure =>
      bill_live (error_spend failure) ;;
      recorded ← try_append c key (failure_record e failure);
      match recorded with
      | Err detail => throw (Unrecorded key (error_disposition failure)
          (error_text failure ++ lit "; and recording that failure failed: " ++ detail))
      | Ok _ =>
          match failure with
          | Unreproducible what detail => move_blob what ;; throw (SUnreproducible what detail)
          | _ => mret (Err failure)
          end
      end
  end.

Definition reconcile_and_record (c : Config) (e : Effect) (key : EffectKey) : M (Reconciliation T) :=
  answer ← reconcile key;
  let outcome := match answer with Ok r => r | Err _ => ProbeInconclusive end in
  recovered ← match outcome with
    | ProbeLanded output =>
        bill_live (output_spend e output) ;;
        match to_value output with
        | Ok json => mret (Some json, output_spend e output)
        | Err detail => throw (SEncoding detail)
        end
    | _ => mret (None, spend_zero)
    end;
  append_effect c key (EffectReconciled (probe_disposition outcome) recovered.1 recovered.2
    (match recovered.1 with Some _ => Some (declared_output e) | None => None end)) ;;
  mret outcome.

(** [Some output] is an answer a probe recovered, [None] another attempt. *)
Definition failed_attempt_verdict (c : Config) (e : Effect) (key : EffectKey) (attempt : N)
    (failure : EffectError) : M (option T) :=
  let decide_ disposition : M (option T) :=
    match stop_reason disposition (recovery e) key attempt (retry e) (error_message error_text failure)
            (permanent_failure e failure) (error_code failure, refuses_the_account failure) (mutates e) with
    | Some stop => throw stop
    | None => mret None
    end in
  if bool_decide (error_disposition failure = InDoubt) && bool_decide (recovery e = Reconcile) then
    resolved ← reconcile_and_record c e key;
    match resolved with
    | ProbeLanded output => mret (Some output)
    | _ => decide_ (probe_disposition resolved)
    end
  else decide_ (error_disposition failure).

(** ** An announcement with no outcome *)

Definition resolve_orphan (c : Config) (e : Effect) (key : EffectKey) (attempt : N) (recorded : Recovery) :
    M (result EffectError T) :=
  match mode c with
  | Strict => throw (Undecidable key recorded (lit
      "the journal ends mid-effect; strict replay verifies history and will not perform or probe to complete it"))
  | _ =>
      match recorded with
      | Retry | Idempotent _ => perform_once c e key attempt false
      | Reconcile =>
          resolved ← reconcile_and_record c e key;
          match resolved with
          | ProbeLanded output => mret (Ok output)
          | ProbeDidNotHappen => perform_once c e key attempt false
          | ProbeInconclusive => throw (Undecidable key recorded (lit
              "started before a crash, and the reconciliation probe could not establish whether it landed"))
          end
      | RequiresOperator =>
          throw (Undecidable key recorded (lit "started before a crash and never completed"))
      end
  end.

Definition orphan_verdict (c : Config) (e : Effect) (key : EffectKey) (attempt : N) (recorded : Recovery) :
    M (option T) :=
  resolved ← resolve_orphan c e key attempt recorded;
  match resolved with
  | Ok output => mret (Some output)
  | Err failure => failed_attempt_verdict c e key attempt failure
  end.

(** ** A recorded attempt *)

(** [attempt + 1] on a [u32]. *)
Definition succ_attempt (attempt : N) : N := ((attempt + 1) mod 4294967296)%N.
Definition attempt_key (c : Config) (e : Effect) (ord attempt : N) : EffectKey :=
  derive (step c) (phase c) ord attempt (desc_kind (descriptor e)) (value_bytes (desc_args (descriptor e))).

Definition recorded_failure (c : Config) (w : World) (e : Effect) (ord attempt : N) (error : str)
    (disposition : Disposition) (permanent : bool) (refusal : option str * bool) : result StepError N :=
  let next := attempt_key c e ord (succ_attempt attempt) in
  if peek_is (cursor w) next then Ok (succ_attempt attempt) else
  match stop_reason disposition (recovery e) (attempt_key c e ord attempt) attempt (retry e) error
          permanent refusal (mutates e) with
  | Some stop => Err stop
  | None =>
      match mode c with
      | Strict => Err (ReplayOverrun next (desc_kind (descriptor e)))
      | _ => Ok (succ_attempt attempt)
      end
  end.

Definition replay_recorded_failure (c : Config) (e : Effect) (ord attempt : N) (error : str)
    (disposition : Disposition) (s : Spend) (permanent : bool) (refusal : option str * bool) : M N :=
  bill_replayed s (outbound_bytes e) ;;
  w ← get;
  lift (recorded_failure c w e ord attempt error disposition permanent refusal).

Inductive Replayed := Answered (output : T) (declared : DeclaredOutput) | Continue (attempt : N) | GoLive.

(** [self.cursor.next(..)?]. *)
Definition next_recorded (e : Effect) (attempt : N) (key : EffectKey) : M (option EffectReplay) := fun w =>
  match next (cursor w) key (descriptor e) attempt with
  | (cur, Ok r) => (set_cursor w cur, Ret r)
  | (cur, Err d) => (set_cursor w cur, Throw (SNonDeterminism d))
  end.

Definition replayed_attempt (c : Config) (e : Effect) (ord attempt : N) : M Replayed :=
  let key := attempt_key c e ord attempt in
  entry ← next_recorded e attempt key;
  match entry with
  | Some (Done output _ _ s declared content) =>
      bill_replayed s (outbound_bytes e) ;;
      arrival_refusal content ;;
      match from_value output with
      | Ok output => mret (Answered output
          (mk_declared (declared_trust declared) (verdict_raise content (declared_sensitivity declared))))
      | Err detail => throw (SEncoding detail)
      end
  | Some (Withheld subject reason) =>
      w ← get;
      if writes_enabled c w then mret (Continue attempt) else throw (SWithheld subject reason)
  | Some (Refused _ _ _ as refusal) | Some (Denied _ _ _ as refusal) =>
      replayed_refusal c key refusal (outbound_bytes e) ;;
      mret (Continue attempt)
  | Some (Failed error disposition s permanent code account (Some what)) =>
      bill_replayed s (outbound_bytes e) ;;
      move_blob what ;;
      throw (SUnreproducible what error)
  | Some (Failed error disposition s permanent code account None) =>
      next ← replay_recorded_failure c e ord attempt error disposition s permanent (code, account);
      mret (Continue next)
  | Some (Orphan recorded) =>
      bill_replayed spend_zero (outbound_bytes e) ;;
      answer ← orphan_verdict c e key attempt recorded;
      match answer with
      | Some output => mret (Answered output (declared_output e))
      | None => mret (Continue (succ_attempt attempt))
      end
  | None =>
      match mode c with
      | Strict => throw (ReplayOverrun key (desc_kind (descriptor e)))
      | _ => mret GoLive
      end
  end.

(** ** The attempt loop *)

Definition is_replaying (m : Pass) : bool := match m with Resume | Strict => true | Live => false end.
Definition take_raise : M (option Sensitivity) := fun w => (set_source_raise w None, Ret (source_raise w)).

(** One live attempt: an answer, or the advice for the next one. *)
Definition live_attempt (c : Config) (e : Effect) (outbound : option Label) (ord attempt : N)
    (advice : option Z) : M (T * DeclaredOutput + option Z) :=
  let key := attempt_key c e ord attempt in
  starts_no_work_when_abandoning c (descriptor e) ;;
  (if subject_credential e then withdrawal_at_hop c key else mret tt) ;;
  gate c key (descriptor e) (mutates e) outbound (outbound_bytes e) ;;
  let wait := wait_before hex (retry e) (run c) key attempt advice in
  (if wait =? 0 then mret tt else sleep wait)%Z ;;
  performed ← perform_once c e key attempt true;
  match performed with
  | Ok output =>
      classified ← take_raise;
      mret (inl (output, raised (declared_output e) classified))
  | Err failure =>
      verdict ← failed_attempt_verdict c e key attempt failure;
      match verdict with
      | Some output => mret (inl (output, declared_output e))
      | None => mret (inr (error_retry_after failure))
      end
  end.

Fixpoint attempt_loop (fuel : nat) (c : Config) (e : Effect) (outbound : option Label) (ord attempt : N)
    (advice : option Z) : M (T * DeclaredOutput) :=
  match fuel with
  | 0 => fun w => (w, Spun)
  | S fuel =>
      replayed ← if is_replaying (mode c) then replayed_attempt c e ord attempt else mret GoLive;
      match replayed with
      | Answered output declared => mret (output, declared)
      | Continue next => attempt_loop fuel c e outbound ord next advice
      | GoLive =>
          answer ← live_attempt c e outbound ord attempt advice;
          match answer with
          | inl answer => mret answer
          | inr advice => attempt_loop fuel c e outbound ord (succ_attempt attempt) advice
          end
      end
  end.

(** An iteration reads one recorded attempt or makes a permitted one. *)
Definition enough (e : Effect) (w : World) : nat :=
  S (length (rest (cursor w)) + S (N.to_nat (max_attempts (retry e)))).

Definition effect_unlabelled (c : Config) (e : Effect) (outbound : option Label) : M (T * DeclaredOutput) :=
  w ← get;
  modify (fun w => set_ordinal w ((ordinal w + 1) mod 4294967296)%N) ;;
  attempt_loop (enough e w) c e outbound (ordinal w) FIRST_ATTEMPT None.

(** ** Passes over one step that makes this one dispatch *)

(** What outlives a process: the journal, and what happened outside. *)
Definition Durable : Type := list JRecord * list EffectKey.

Definition open_pass (budget : Budget) (d : Durable) (env : Env) : World :=
  mk_world (step_cursor json_null d.1) 0 (ledger_new budget) d.1 [] None None env d.2.

Definition pass (c : Config) (e : Effect) (outbound : option Label) (budget : Budget) (d : Durable) (env : Env) :
    World * Out (T * DeclaredOutput) :=
  effect_unlabelled c e outbound (open_pass budget d env).

Definition survives (w : World) : Durable := (journal w, reached w).

(** A life of the dispatch: a first pass that runs live, and the passes that
    resume what is left of it, each however far its process gets.  The result
    is what survives each pass, in order. *)
Definition with_mode (c : Config) (m : Pass) : Config :=
  mk_config m (run c) (step c) (phase c) (reversing c) (abandoning c) (granted_mutating c) (policy c)
    (source_verdict c).

Fixpoint resumes (c : Config) (e : Effect) (outbound : option Label) (budget : Budget) (d : Durable)
    (later : list Env) : list Durable :=
  d :: match later with
       | [] => []
       | env :: later =>
           resumes c e outbound budget (survives (pass (with_mode c Resume) e outbound budget d env).1) later
       end.

Definition life (c : Config) (e : Effect) (outbound : option Label) (budget : Budget) (first : Env)
    (later : list Env) : list Durable :=
  resumes c e outbound budget (survives (pass (with_mode c Live) e outbound budget ([], []) first).1) later.
End dispatch.

(** ** A payment, for the witnesses

    Values and outputs are numbers; the descriptor names one order. *)

Module Payment.
(** A number's digits, least first, and back. *)
Fixpoint digits (p : positive) : list Byte.byte :=
  match p with xH => [x01] | xO p => x00 :: digits p | xI p => x01 :: digits p end.
Definition nat_bytes (n : nat) : list Byte.byte := match N.of_nat n with N0 => [] | Npos p => digits p end.
Definition nat_read (b : list Byte.byte) : nat := N.to_nat (foldr (fun x acc => Byte.to_N x + 2 * acc)%N 0%N b).
Lemma nat_read_bytes n : nat_read (nat_bytes n) = n.
Proof.
  unfold nat_read, nat_bytes. assert (forall p, foldr (fun x acc => Byte.to_N x + 2 * acc)%N 0%N (digits p) = Npos p) as Hp
    by (induction p as [p IH|p IH|]; cbn [digits foldr]; rewrite ?IH; by simpl).
  destruct (N.of_nat n) as [|p] eqn:E; [simpl; lia|]. rewrite Hp, <-E. apply Nat2N.id.
Qed.
#[export] Instance key_hash : Sha256 := toy_hash.
#[export] Instance rendering : Rendering nat := {|
  hex := RetryWitness.hex_bytes;
  error_text e := error_class e;
  exceeded_text := exceeded_as_str;
  consumed_text _ := lit "consumed";
  value_bytes := nat_bytes;
  value_read := nat_read
|}.

Definition config (verdict : nat -> option ContentVerdict) (m : Pass) : Config (V:=nat) :=
  mk_config m (lit "run") 0%N Forward false false (fun _ => false) None (fun _ => verdict).
Definition effect (changes : bool) (r : Recovery) (n : N) : Effect (V:=nat) (T:=nat) :=
  mk_effect (mk_descriptor (lit "test.payment") 4711) changes r (attempts n) true 0 declared_untrusted
    (fun _ => spend_tokens 30) false.

Definition of_nat (n : nat) : result str nat := Ok n.
Definition run_pass (verdict : nat -> option ContentVerdict) (m : Pass) (e : Effect (V:=nat) (T:=nat))
    (d : Durable (V:=nat) (O:=unit)) (env : Env (T:=nat)) :=
  pass 0 of_nat of_nat (config verdict m) e None unlimited d env.
Definition no_rule (_ : nat) : option ContentVerdict := None.

(** The call is sent and never answered. *)
Definition timed_out (took : bool) : Called nat := mk_called took (Err (Timeout (lit "payments") 30000)).
Definition stored (n : nat) : list Ack := replicate n Stored.

(** Three attempts: refused for now, rejected, and then an answer. *)
Definition busy_env : Env (T:=nat) := mk_env (stored 6)
  [mk_called false (Err (RateLimited (lit "busy") (Some (seconds 3))));
   mk_called false (Err (Metered (lit "died") (spend_tokens 70) DidNotHappen));
   mk_called true (Ok 5)] [] [].
Definition busy := run_pass no_rule Live (effect true RequiresOperator 3) ([], []) busy_env.

Example busy_answers : busy.2 = Ret _ (5, declared_untrusted)
  /\ length (journal busy.1) = 6 /\ length (reached busy.1) = 1
  /\ tokens (spend (consumed (ledger busy.1))) = 100%Z /\ Budget.effects (consumed (ledger busy.1)) = 3%Z
  /\ head (slept busy.1) = Some (seconds 3).
Proof. vm_compute. split_and!; reflexivity. Qed.
End Payment.
