(* ===== verification/DispatchSafety.v ===== *)
(** * What a dispatch may do to the outside world

    Properties of the effect protocol of [Dispatch]: which failures may be
    repeated, that nothing is called before it is announced, that a call whose
    outcome cannot be known is not repeated across any sequence of crashes and
    resumes, that a strict pass only reads, and that every dispatch ends. *)

From S2P Require Import Prelude Digest EffectKey Label SinkGate Budget Replay Retry Dispatch.

(** ** Symbolic execution

    [wp R m K w]: from [w], [m] returns in [K] or ends otherwise in [R]. *)

Section safety.
Context {V O T : Type} `{Rendering V, Sha256}.
Context (json_null : V) (to_value : T -> result str V) (from_value : V -> result str T).

Abbreviation World := (Dispatch.World (V:=V) (O:=O) (T:=T)).
Abbreviation M := (Dispatch.M (V:=V) (O:=O) (T:=T)).
Abbreviation Config := (Dispatch.Config (V:=V)).
Abbreviation Effect := (Dispatch.Effect (V:=V) (T:=T)).
Abbreviation JRecord := (Replay.JRecord (V:=V) (O:=O) (C:=ContentVerdict)).
Abbreviation RecordKind := (Replay.RecordKind (V:=V) (O:=O) (C:=ContentVerdict)).
Abbreviation Journaled := (Replay.Journaled (V:=V) (O:=O) (C:=ContentVerdict)).
Implicit Types (w : World) (c : Config) (e : Effect).

Definition wp {A} (R : World -> Prop) (m : M A) (K : A -> World -> Prop) (w : World) : Prop :=
  match m w with (w', Ret _ a) => K a w' | (w', _) => R w' end.

Lemma wp_bind {A B} R (m : M A) (k : A -> M B) K w :
  wp R m (fun a w' => wp R (k a) K w') w -> wp R (m ≫= k) K w.
Proof.
  unfold wp, mbind, m_bind. by destruct (m w) as [w' []].
Qed.

Lemma wp_mono {A} (R R' : World -> Prop) (m : M A) (K K' : A -> World -> Prop) w :
  wp R m K w -> (forall w', R w' -> R' w') -> (forall a w', K a w' -> K' a w') -> wp R' m K' w.
Proof. unfold wp. destruct (m w) as [w' []]; auto. Qed.

Lemma wp_and {A} R R' (m : M A) (K K' : A -> World -> Prop) w :
  wp R m K w -> wp R' m K' w -> wp R m (fun a w' => K a w' /\ K' a w') w.
Proof. unfold wp. by destruct (m w) as [w' []]. Qed.

Lemma wp_ret {A} R (a : A) K w : K a w -> wp R (mret a) K w.
Proof. done. Qed.

Lemma wp_throw {A} R err (K : A -> World -> Prop) w : R w -> wp R (throw err) K w.
Proof. done. Qed.

(** A property every step keeps, however the computation ends. *)
Definition keeps {A} (I : World -> Prop) (m : M A) : Prop := forall w, I w -> wp I m (fun _ => I) w.

Lemma keeps_bind {A B} I (m : M A) (k : A -> M B) :
  keeps I m -> (forall a, keeps I (k a)) -> keeps I (m ≫= k).
Proof. intros Hm Hk w Hw. apply wp_bind. eapply wp_mono; [by apply Hm|done|]. intros a w'. apply Hk. Qed.

(** A kept step in front of a computation. *)
Lemma wp_frame {A B} I (R : World -> Prop) (m : M A) (k : A -> M B) K w :
  keeps I m -> I w -> (forall w', I w' -> R w') -> (forall a w', I w' -> wp R (k a) K w') ->
  wp R (m ≫= k) K w.
Proof. intros Hm Hw HR Hk. apply wp_bind. eapply wp_mono; [by apply Hm|done|]. intros a w'. apply Hk. Qed.

Lemma wp_seq {A B} (R : World -> Prop) (m : M A) (k : A -> M B) (J : A -> World -> Prop) K w :
  wp R m J w -> (forall a w', J a w' -> wp R (k a) K w') -> wp R (m ≫= k) K w.
Proof. intros Hm Hk. apply wp_bind. by eapply wp_mono; [exact Hm|done|]. Qed.

Lemma keeps_ret {A} I (a : A) : keeps I (mret a).
Proof. by intros w. Qed.
Lemma keeps_throw {A} I err : keeps (A:=A) I (throw err).
Proof. by intros w. Qed.
Lemma keeps_get I : keeps I get.
Proof. by intros w. Qed.
Lemma keeps_modify I f : (forall w, I w -> I (f w)) -> keeps I (modify f).
Proof. intros Hf w Hw. by apply Hf. Qed.

(** ** Frames

    What most of the protocol leaves alone: steps that only bill, wait or read
    a script, and records that open no attempt. *)

Definition env_le (a b : Env (T:=T)) : Prop :=
  appends a `suffix_of` appends b /\ calls a `suffix_of` calls b
  /\ probes a `suffix_of` probes b /\ hops a `suffix_of` hops b.
Lemma env_le_refl a : env_le a a.
Proof. by split_and!. Qed.

Definition is_note (k : RecordKind) : bool :=
  match k with
  | PolicyDenied _ _ _ | BudgetRefused _ _ _ | BudgetReadmitted | AuthorityWithheld _ _ => true
  | _ => false
  end.

Class Frame (I : World -> Prop) : Prop := frame w w' :
  journal w' = journal w -> reached w' = reached w -> cursor w' = cursor w ->
  env_le (env w') (env w) -> I w -> I w'.
Class Notes (I : World -> Prop) : Prop := notes w c key kind :
  is_note kind = true -> I w -> I (put c key kind w).

Section frames.
Context (I : World -> Prop) `{Frame I}.

Lemma keeps_modify_frame f : (forall w, journal (f w) = journal w /\ reached (f w) = reached w
    /\ cursor (f w) = cursor w /\ env (f w) = env w) -> keeps I (modify f).
Proof.
  intros Hf. apply keeps_modify. intros w. destruct (Hf w) as (Hj & Hr & Hc & He).
  apply frame; [done..|]. rewrite He. apply env_le_refl.
Qed.

Lemma keeps_ledger_denial : keeps I ledger_denial.
Proof. intros w Hw. unfold wp. simpl. by apply (frame w); try apply env_le_refl. Qed.
Lemma keeps_read_halts : keeps I read_halts.
Proof.
  intros w Hw. unfold wp, read_halts. destruct (hops (env w)) as [|h hs] eqn:Hh; [done|].
  apply (frame w); [done..| |done]. split_and!; try done. simpl. rewrite Hh. by apply suffix_cons_r.
Qed.
Lemma keeps_take_raise : keeps I take_raise.
Proof. intros w Hw. unfold wp. simpl. by apply (frame w); try apply env_le_refl. Qed.

Lemma env_le_appends w a acks : appends (env w) = a :: acks -> env_le (env (set_appends w acks)) (env w).
Proof. intros Ha. split_and!; try done. simpl. rewrite Ha. by apply suffix_cons_r. Qed.

(** An append that [R] survives on either answer, and that [K] follows. *)
Lemma wp_try_append (R : World -> Prop) c key kind (K : result str unit -> World -> Prop) w :
  I w -> (forall w', I w' -> R w') -> (forall w', I w' -> R (put c key kind w')) ->
  (forall w', I w' -> K (Ok tt) (put c key kind w')) ->
  (forall w' err, I w' -> K (Err err) w') -> (forall w' err, I w' -> K (Err err) (put c key kind w')) ->
  wp R (try_append c key kind) K w.
Proof.
  intros Hw HR HRp Hok He Hep. unfold wp, try_append.
  destruct (appends (env w)) as [|a acks] eqn:Ha; [by apply HR|].
  assert (I (set_appends w acks)) by (apply (frame w); [done..|by eapply env_le_appends|done]).
  destruct a; auto.
Qed.

Lemma wp_append (R : World -> Prop) c key kind (K : unit -> World -> Prop) w :
  I w -> (forall w', I w' -> R w') -> (forall w', I w' -> R (put c key kind w')) ->
  (forall w', I w' -> K tt (put c key kind w')) -> wp R (append_effect c key kind) K w.
Proof.
  intros Hw HR HRp Hok. apply wp_bind. apply wp_try_append; try done; by (intros; apply wp_throw; auto).
Qed.

Lemma keeps_note `{Notes I} c key kind : is_note kind = true -> keeps I (append_effect c key kind).
Proof. intros Hk w Hw. apply wp_append; try done; intros w'; by apply notes. Qed.
End frames.

(** ** Which failures may be repeated *)

Definition repeats (r : Recovery) : bool := match r with Retry | Idempotent _ => true | _ => false end.

(** Before the policy gets a say. *)
Definition safe_to_repeat (d : Disposition) (r : Recovery) (permanent mutates : bool) : bool :=
  match d with
  | DidNotHappen => negb permanent
  | InDoubt => repeats r
  | Landed => negb mutates && negb permanent
  end.

Lemma stop_reason_none d r key attempt p message permanent refusal mutates :
  stop_reason (V:=V) d r key attempt p message permanent refusal mutates = None
  <-> safe_to_repeat d r permanent mutates = true /\ permits p attempt = true.
Proof.
  destruct refusal as [code account]. unfold stop_reason, safe_to_repeat.
  destruct d, permanent, mutates, (permits p attempt), r; simpl; by split; [|intros []].
Qed.

(** C4. Retry safety.  Another attempt is made exactly when the failure is one
    that may be repeated (it did not happen and is not an answer; its outcome is
    unknown and the effect declares repeating safe; it landed, changed nothing
    and is not an answer) and the policy has attempts left, so a policy only
    narrows.  A stop says what is known: an unknown outcome that must not be
    guessed at, or that mutates and has run out of attempts, is undecidable and
    never an ordinary failure; every other stop carries the failure's own
    disposition upward. *)
Theorem retry_safety d r key attempt p message permanent refusal mutates :
  let stop := stop_reason (V:=V) d r key attempt p message permanent refusal mutates in
  (stop = None <-> safe_to_repeat d r permanent mutates = true /\ permits p attempt = true)
  /\ (forall s, stop = Some s ->
       (exists detail, s = Undecidable key r detail /\ d = InDoubt /\ (repeats r = false \/ mutates = true))
       \/ (exists detail code account, s = SEffect (Final detail d code account)
            /\ (d = InDoubt -> repeats r = true /\ mutates = false))).
Proof.
  split; [apply stop_reason_none|]. destruct refusal as [code account]. unfold stop_reason.
  destruct d, permanent, mutates, (permits p attempt), r; simpl; intros s Hs; simplify_eq;
    first [left; eexists; split_and!; [done|done|by auto]
          |right; do 3 eexists; split; [done|by intros]].
Qed.

(** ** Nothing is called before it is announced *)

Definition is_start (k : RecordKind) : bool := match k with EffectStarted _ _ _ _ => true | _ => false end.
Definition announced_in (j : list JRecord) (key : EffectKey) : Prop :=
  exists r, r ∈ j /\ rec_key r = Some key
    /\ is_start (rec_kind r) = true.
Definition is_orphan (en : Journaled) : bool := match j_replay en with Orphan _ => true | _ => false end.

(** Every call made, every orphan read and the keys [ks] are announced. *)
Definition intent (ks : list EffectKey) (w : World) : Prop :=
  Forall (announced_in (journal w)) (reached w)
  /\ Forall (announced_in (journal w)) ks
  /\ Forall (fun en => is_orphan en = true -> announced_in (journal w) (j_key en)) (effects (cursor w)).

Lemma announced_app j j' key : announced_in j key -> announced_in (j ++ j') key.
Proof. intros (r & Hr & Hk). exists r. split; [|done]. apply elem_of_app. by left. Qed.

Lemma intent_put ks w c key kind : intent ks w -> intent ks (put c key kind w).
Proof.
  intros (Hr & Hk & Ho). unfold intent, put; simpl. split_and!.
  - eapply Forall_impl; [exact Hr|]. intros k. apply announced_app.
  - eapply Forall_impl; [exact Hk|]. intros k. apply announced_app.
  - eapply Forall_impl; [exact Ho|]. intros en Hen Hen'. by apply announced_app, Hen.
Qed.

#[export] Instance intent_frame ks : Frame (intent ks).
Proof. unfold intent. by intros w w' -> -> ->. Qed.

Lemma intent_weaken ks key w : intent (key :: ks) w -> intent ks w.
Proof. intros (? & Hk & ?). apply Forall_cons in Hk as [_ Hk]. done. Qed.

#[export] Instance intent_notes ks : Notes (intent ks).
Proof. intros w c key kind _. apply intent_put. Qed.

Lemma keeps_try_append ks c key kind : keeps (intent ks) (try_append c key kind).
Proof. intros w Hw. apply (wp_try_append (intent ks)); auto using intent_put. Qed.

Lemma keeps_append ks c key kind : keeps (intent ks) (append_effect c key kind).
Proof. intros w Hw. apply (wp_append (intent ks)); auto using intent_put. Qed.

Lemma keeps_reconcile ks key : keeps (intent ks) (reconcile key).
Proof. intros w Hw. unfold wp, reconcile. destruct (probes (env w)); exact Hw. Qed.

Lemma keeps_perform ks key : key ∈ ks -> keeps (intent ks) (perform key).
Proof.
  intros Hin w Hw. unfold wp, perform. destruct (calls (env w)) as [|[[] r] cs]; [done| |done].
  destruct Hw as (Hr & Hk & Ho). split_and!; [|done|done]. simpl.
  apply Forall_app. split; [done|]. apply Forall_singleton. by eapply Forall_forall in Hk.
Qed.
End safety.

Create HintDb keeps.
#[export] Hint Resolve keeps_ret keeps_throw keeps_get keeps_ledger_denial keeps_read_halts keeps_take_raise
  keeps_note keeps_try_append keeps_append keeps_reconcile keeps_perform : keeps.

(** Walk a computation, splitting where the code branches. *)
Ltac keep :=
  repeat first
    [ solve [eauto with keeps typeclass_instances]
    | solve [apply keeps_modify_frame; [apply _|]; intros ?; repeat case_match; done]
    | lazymatch goal with |- keeps _ (_ ≫= _) => apply keeps_bind; [|intros ?] end
    | progress case_match ].

(** The steps that only refuse, gate or bill. *)
Section refusing.
Context {V O T : Type} `{Rendering V}.
Context (I : World (V:=V) (O:=O) (T:=T) -> Prop) `{Frame V O T I}.

Lemma keeps_counted_refusal denial : keeps I (counted_refusal denial).
Proof. unfold counted_refusal. keep. Qed.
Lemma keeps_arrival_refusal content : keeps I (arrival_refusal content).
Proof. unfold arrival_refusal, counted_refusal. keep. Qed.
Lemma keeps_abandoning c d : keeps I (starts_no_work_when_abandoning c d).
Proof. unfold starts_no_work_when_abandoning. keep. Qed.
Context `{Notes V O T I}.
Lemma keeps_replayed_refusal c key r b : keeps I (replayed_refusal c key r b).
Proof. unfold replayed_refusal, replayed_denial. keep. Qed.
Lemma keeps_gate c key d m out b : keeps I (gate c key d m out b).
Proof. unfold gate, authorize, admit_attempt, count_unadmitted. keep. Qed.
Lemma keeps_withdrawal c key : keeps I (withdrawal_at_hop c key).
Proof. unfold withdrawal_at_hop. keep. Qed.
End refusing.
#[export] Hint Resolve keeps_counted_refusal keeps_arrival_refusal keeps_replayed_refusal keeps_gate
  keeps_withdrawal keeps_abandoning : keeps.

(** Only [next_recorded] moves the cursor. *)
Section same_cursor.
Context {V O T : Type} `{Rendering V, Sha256}.
Context (to_value : T -> result str V) (c0 : StepCursor (V:=V) (O:=O) (C:=ContentVerdict)).
Definition same_cursor (w : World (V:=V) (O:=O) (T:=T)) : Prop := cursor w = c0.

#[local] Instance same_cursor_frame : Frame same_cursor.
Proof. unfold same_cursor. by intros w w' _ _ ->. Qed.
#[local] Instance same_cursor_notes : Notes same_cursor.
Proof. by intros w c key kind _ Hw. Qed.
Lemma same_try_append c key kind : keeps same_cursor (try_append c key kind).
Proof. intros w Hw. by apply (wp_try_append same_cursor). Qed.
Lemma same_append c key kind : keeps same_cursor (append_effect c key kind).
Proof. intros w Hw. by apply (wp_append same_cursor). Qed.
Lemma same_perform key : keeps same_cursor (perform key).
Proof. intros w Hw. unfold wp, perform. by destruct (calls (env w)) as [|[[] ?] ?]. Qed.
Lemma same_reconcile key : keeps same_cursor (reconcile key).
Proof. intros w Hw. unfold wp, reconcile. by destruct (probes (env w)). Qed.
#[local] Hint Resolve same_try_append same_append same_perform same_reconcile : keeps.
Lemma same_perform_once c e key attempt ws : keeps same_cursor (perform_once to_value c e key attempt ws).
Proof. unfold perform_once, bill_live, move_blob. keep. Qed.
Lemma same_reconcile_and_record c e key : keeps same_cursor (reconcile_and_record to_value c e key).
Proof. unfold reconcile_and_record, bill_live. keep. Qed.
#[local] Hint Resolve same_perform_once same_reconcile_and_record : keeps.
Lemma same_failed_attempt c e key attempt f :
  keeps same_cursor (failed_attempt_verdict to_value c e key attempt f).
Proof. unfold failed_attempt_verdict. keep. Qed.
#[local] Hint Resolve same_failed_attempt : keeps.
Lemma same_orphan_verdict c e key attempt r : keeps same_cursor (orphan_verdict to_value c e key attempt r).
Proof. unfold orphan_verdict, resolve_orphan. keep. Qed.
Lemma same_live_attempt c e outbound ord attempt advice :
  keeps same_cursor (live_attempt to_value c e outbound ord attempt advice).
Proof. unfold live_attempt, sleep. keep. Qed.
End same_cursor.

Section intent.
Context {V O T : Type} `{Rendering V, Sha256}.
Context (json_null : V) (to_value : T -> result str V) (from_value : V -> result str T).
Abbreviation World := (Dispatch.World (V:=V) (O:=O) (T:=T)).
Implicit Types (ks : list EffectKey).
Abbreviation intent := (intent (V:=V) (O:=O) (T:=T)).

Lemma keeps_reconcile_and_record ks c e key : keeps (intent ks) (reconcile_and_record to_value c e key).
Proof. unfold reconcile_and_record, bill_live. keep. Qed.
#[local] Hint Resolve keeps_reconcile_and_record : keeps.

(** Walking on with one more key announced. *)
Lemma wp_more {A} ks key (m : Dispatch.M (V:=V) (O:=O) (T:=T) A) w : keeps (intent (key :: ks)) m ->
  intent (key :: ks) w -> wp (intent ks) m (fun _ => intent (key :: ks)) w.
Proof.
  intros Hm Hw. eapply wp_mono; [by apply Hm| |done]. intros w'. apply intent_weaken.
Qed.

Lemma announce_intent ks c key d r m a w : intent ks w ->
  wp (intent ks) (append_effect c key (EffectStarted d r m a)) (fun _ => intent (key :: ks)) w.
Proof.
  intros Hw. unfold append_effect. apply wp_bind. unfold wp at 1, try_append.
  destruct (appends (env w)) as [|[]]; [exact Hw| |exact Hw|by apply intent_put].
  cbv iota beta. apply wp_ret. apply (intent_put ks _ c key (EffectStarted d r m a)) in Hw as (Hr & Hk & Ho).
  split_and!; [exact Hr| |exact Ho]. apply Forall_cons. split; [|exact Hk].
  exists (stamp c key (EffectStarted d r m a) w). split; [|done].
  simpl. apply elem_of_app. right. by apply list_elem_of_singleton.
Qed.

Lemma intent_perform_once ks c e key attempt ws w : intent ks w -> (ws = false -> key ∈ ks) ->
  wp (intent ks) (perform_once to_value c e key attempt ws) (fun _ => intent (key :: ks)) w.
Proof.
  intros Hw Hws. unfold perform_once. apply wp_bind.
  apply (wp_mono (intent ks) (intent ks) _ (fun _ => intent (key :: ks))).
  - destruct ws; [by apply announce_intent|]. apply wp_ret. destruct Hw as (? & Hk & ?).
    split_and!; [done| |done]. apply Forall_cons. split; [|done]. eapply Forall_forall in Hk; eauto.
  - done.
  - intros _ w1 Hw1. apply wp_more; [|done].
    assert (key ∈ key :: ks) by set_solver. clear Hws Hw Hw1. unfold bill_live, move_blob. keep.
Qed.

Lemma keeps_weaken {A} ks (m : Dispatch.M (V:=V) (O:=O) (T:=T) A) :
  (forall w, intent ks w -> exists key, wp (intent ks) m (fun _ => intent (key :: ks)) w) -> keeps (intent ks) m.
Proof.
  intros Hm w Hw. destruct (Hm w Hw) as [key Hk]. eapply wp_mono; [exact Hk|done|]. intros ? w'.
  apply intent_weaken.
Qed.

Lemma keeps_perform_new ks c e key attempt : keeps (intent ks) (perform_once to_value c e key attempt true).
Proof. apply keeps_weaken. intros w Hw. exists key. by apply intent_perform_once. Qed.
Lemma keeps_perform_again ks c e key attempt : key ∈ ks ->
  keeps (intent ks) (perform_once to_value c e key attempt false).
Proof. intros Hk. apply keeps_weaken. intros w Hw. exists key. by apply intent_perform_once. Qed.
#[local] Hint Resolve keeps_perform_new keeps_perform_again : keeps.

Lemma keeps_failed_attempt ks c e key attempt failure :
  keeps (intent ks) (failed_attempt_verdict to_value c e key attempt failure).
Proof. unfold failed_attempt_verdict. keep. Qed.
#[local] Hint Resolve keeps_failed_attempt : keeps.

Lemma keeps_resolve_orphan ks c e key attempt r : key ∈ ks ->
  keeps (intent ks) (resolve_orphan to_value c e key attempt r).
Proof.
  intros Hk. unfold resolve_orphan. keep.
Qed.
#[local] Hint Resolve keeps_resolve_orphan : keeps.

Lemma keeps_orphan_verdict ks c e key attempt r : key ∈ ks ->
  keeps (intent ks) (orphan_verdict to_value c e key attempt r).
Proof.
  intros Hk. unfold orphan_verdict. keep.
Qed.
#[local] Hint Resolve keeps_orphan_verdict : keeps.

(** Reading an orphan says its key was announced. *)
Lemma intent_next ks e attempt key w : intent ks w ->
  wp (intent ks) (next_recorded e attempt key)
    (fun r w' => intent ks w' /\ forall rc, r = Some (Orphan rc) -> announced_in (journal w') key) w.
Proof.
  intros Hw. unfold wp, next_recorded, next. destruct (effects (cursor w) !! pos (cursor w)) as [en|] eqn:Hen.
  - case_decide as Hk.
    + split; [exact Hw|]. intros rc [= Hrc]. destruct Hw as (_ & _ & Ho).
      eapply Forall_lookup_1 in Ho; [|exact Hen]. rewrite <- Hk. apply Ho. unfold is_orphan. by rewrite Hrc.
    + exact Hw.
  - split; [exact Hw|]. intros rc [=].
Qed.

Lemma keeps_replayed_attempt ks c e ord attempt :
  keeps (intent ks) (replayed_attempt to_value from_value c e ord attempt).
Proof.
  intros w Hw. unfold replayed_attempt. apply wp_bind. eapply wp_mono; [by apply intent_next|done|].
  intros r w1 [Hw1 Ho]. destruct r as [[| | | | |rc]|].
  6: {
    assert (intent (attempt_key c e ord attempt :: ks) w1) as Hw2.
    { destruct Hw1 as (? & ? & ?). split_and!; [done| |done]. apply Forall_cons. split; [by eapply Ho|done]. }
    eapply wp_mono; [eapply keeps_bind; [| |exact Hw2]| |].
    - by apply keeps_modify_frame; [apply _|].
    - intros ?. apply keeps_bind; [apply keeps_orphan_verdict; set_solver|]. intros []; keep.
    - intros w'. apply intent_weaken.
    - intros ? w'. apply intent_weaken. }
  all: match goal with |- wp _ ?m _ _ => assert (keeps (intent ks) m) as Hm; [|by apply Hm] end.
  all: clear; unfold replay_recorded_failure, lift, move_blob, bill_replayed; keep.
Qed.
#[local] Hint Resolve keeps_replayed_attempt : keeps.

Lemma keeps_live_attempt ks c e outbound ord attempt advice :
  keeps (intent ks) (live_attempt to_value c e outbound ord attempt advice).
Proof.
  unfold live_attempt, sleep, take_raise. keep.
Qed.
#[local] Hint Resolve keeps_live_attempt : keeps.

Lemma keeps_attempt_loop ks fuel c e outbound : forall ord attempt advice,
  keeps (intent ks) (attempt_loop to_value from_value fuel c e outbound ord attempt advice).
Proof.
  induction fuel as [|fuel IH]; intros ord attempt advice; [by intros w Hw|].
  cbn [attempt_loop]. keep.
Qed.


(** ** Folding a record, entry by entry *)

(** What a record makes of an entry's key: a new orphan only by announcing. *)
Lemma orphan_apply c key seq kind en : en ∈ effects (apply json_null c key seq kind) ->
  is_orphan (V:=V) (O:=O) en = true -> en ∈ effects c \/ (j_key en = key /\ is_start kind = true).
Proof.
  intros Hen Ho.
  assert (forall s, (forall e, is_orphan (mk_journaled (V:=V) (O:=O) key 0%Z None (add_spend s e)) = false) ->
    en ∈ effects (settle c key s) -> en ∈ effects c) as Hset.
  { intros s Hs [?|(en0 & _ & _ & ->)]%elem_of_update_last; [done|]. exfalso.
    specialize (Hs (replay_spend (j_replay en0))). unfold is_orphan, settled in *. simpl in *. congruence. }
  assert (forall s, en ∈ effects (unannounced c key seq s) -> is_orphan (mk_journaled (V:=V) (O:=O) key seq None s) = false ->
    en ∈ effects c) as Hun.
  { intros s [[_ ?]%list_elem_of_filter| ->%list_elem_of_singleton]%elem_of_app Hs; [done|]. congruence. }
  destruct kind; simpl in Hen; try (left; eapply Hun; [exact Hen|done]); try (left; by eapply Hset in Hen).
  - apply elem_of_app in Hen as [[_ ?]%list_elem_of_filter|Hen%list_elem_of_singleton]; [by left|].
    subst en. by right.
  - left. eapply Hset in Hen; [done|]. intros s. by destruct disposition, output.
  - left. apply elem_of_remove_last in Hen. by apply list_elem_of_filter in Hen as [_ ?].
  - left. apply elem_of_app in Hen as [?|Hen%list_elem_of_singleton]; [done|]. by subst en.
  - by left.
Qed.

(** An entry that reads as an orphan comes from its announcement. *)
Lemma orphans_announced rs : Forall (fun en => is_orphan (V:=V) (O:=O) en = true -> announced_in rs (j_key en))
  (effects (step_cursor json_null rs)).
Proof.
  apply Forall_forall. induction rs as [|r rs IH] using rev_ind; intros en; [by intros ?%elem_of_nil|].
  unfold step_cursor in *. rewrite foldl_app. simpl. unfold apply_record at 1.
  destruct (rec_key r) as [key|] eqn:Hkey; intros Hen Ho.
  - apply orphan_apply in Hen as [Hen|[Hk Hs]]; [by apply announced_app, IH| |done].
    exists r. split; [apply elem_of_app; right; by apply list_elem_of_singleton|]. by rewrite Hk.
  - by apply announced_app, IH.
Qed.

Lemma keeps_unlabelled ks c e outbound : keeps (intent ks) (effect_unlabelled to_value from_value c e outbound).
Proof. unfold effect_unlabelled. keep. apply keeps_attempt_loop. Qed.

Lemma intent_pass c e outbound budget d env : Forall (announced_in d.1) d.2 ->
  let d' := survives (pass json_null to_value from_value c e outbound budget d env).1 in
  Forall (announced_in (O:=O) d'.1) d'.2.
Proof.
  intros Hd. assert (intent [] (open_pass json_null budget d env)) as Hi.
  { split_and!; [done|constructor|]. apply orphans_announced. }
  pose proof (keeps_unlabelled [] c e outbound _ Hi) as Hk. unfold pass, wp in *.
  destruct (effect_unlabelled _ _ _ _ _ _) as [w' []]; by destruct Hk as (? & _ & _).
Qed.

(** C3. Durable intent precedes action.  Whatever the store, the callee and the
    probes answer, and wherever each process dies, no call ever takes effect
    whose own attempt is not announced by a durable record: what happened
    outside is always within what the journal admits to. *)
Theorem intent_precedes_action c e outbound budget first later :
  Forall (fun d => Forall (announced_in d.1) d.2)
    (life (O:=O) json_null to_value from_value c e outbound budget first later).
Proof.
  unfold life. set (d0 := survives _).
  assert (Forall (announced_in d0.1) d0.2) as Hd0 by (by apply intent_pass; constructor).
  clearbody d0. revert d0 Hd0. induction later as [|env later IH]; intros d0 Hd0; simpl;
    constructor; [done|constructor|done|].
  apply IH. by apply intent_pass.
Qed.
End intent.

(** ** Every dispatch ends *)

Section ends.
Context {V O T : Type} `{Rendering V, Sha256}.
Context (json_null : V) (to_value : T -> result str V) (from_value : V -> result str T).
Abbreviation World := (Dispatch.World (V:=V) (O:=O) (T:=T)).
Abbreviation M := (Dispatch.M (V:=V) (O:=O) (T:=T)).

Definition ends {A} (m : M A) : Prop := forall w, (m w).2 <> Spun A.

Lemma ends_bind {A B} (m : M A) (k : A -> M B) : ends m -> (forall a, ends (k a)) -> ends (m ≫= k).
Proof.
  intros Hm Hk w. specialize (Hm w). unfold mbind, m_bind. destruct (m w) as [w' []]; try done. apply Hk.
Qed.
Lemma ends_ret {A} (a : A) : ends (mret a). Proof. done. Qed.
Lemma ends_throw {A} err : ends (A:=A) (throw err). Proof. done. Qed.
Lemma ends_get : ends get. Proof. done. Qed.
Lemma ends_modify f : ends (modify f). Proof. done. Qed.
Lemma ends_ledger_denial : ends ledger_denial. Proof. done. Qed.
Lemma ends_take_raise : ends take_raise. Proof. done. Qed.
Lemma ends_read_halts : ends read_halts.
Proof. intros w. unfold read_halts. by destruct (hops (env w)). Qed.
Lemma ends_try_append c key kind : ends (try_append c key kind).
Proof. intros w. unfold try_append. by destruct (appends (env w)) as [|[]]. Qed.
Lemma ends_perform key : ends (perform key).
Proof. intros w. unfold perform. by destruct (calls (env w)). Qed.
Lemma ends_reconcile key : ends (reconcile key).
Proof. intros w. unfold reconcile. by destruct (probes (env w)). Qed.
Lemma ends_next e attempt key : ends (next_recorded e attempt key).
Proof. intros w. unfold next_recorded. by destruct (next _ _ _ _) as [? []]. Qed.

Create HintDb ends.
#[local] Hint Resolve ends_ret ends_throw ends_get ends_modify ends_ledger_denial ends_take_raise
  ends_read_halts ends_try_append ends_perform ends_reconcile ends_next : ends.
Ltac end_ := repeat first
  [ solve [eauto with ends]
  | lazymatch goal with |- ends (_ ≫= _) => apply ends_bind; [|intros ?] end
  | progress case_match ].

Lemma ends_append c key kind : ends (append_effect c key kind).
Proof. unfold append_effect. end_. Qed.
#[local] Hint Resolve ends_append : ends.
Lemma ends_arrival_refusal content : ends (arrival_refusal content).
Proof. unfold arrival_refusal, counted_refusal. end_. Qed.
#[local] Hint Resolve ends_arrival_refusal : ends.
Lemma ends_perform_once c e key attempt ws : ends (perform_once to_value c e key attempt ws).
Proof. unfold perform_once, bill_live, move_blob. end_. Qed.
Lemma ends_reconcile_and_record c e key : ends (reconcile_and_record to_value c e key).
Proof. unfold reconcile_and_record, bill_live. end_. Qed.
#[local] Hint Resolve ends_perform_once ends_reconcile_and_record : ends.
Lemma ends_failed_attempt c e key attempt f : ends (failed_attempt_verdict to_value c e key attempt f).
Proof. unfold failed_attempt_verdict. end_. Qed.
#[local] Hint Resolve ends_failed_attempt : ends.
Lemma ends_replayed_attempt c e ord attempt : ends (replayed_attempt to_value from_value c e ord attempt).
Proof.
  unfold replayed_attempt, move_blob, replayed_refusal, replayed_denial,
    replay_recorded_failure, bill_replayed, lift, orphan_verdict, resolve_orphan. end_.
Qed.
Lemma ends_live_attempt c e outbound ord attempt advice :
  ends (live_attempt to_value c e outbound ord attempt advice).
Proof.
  unfold live_attempt, starts_no_work_when_abandoning, withdrawal_at_hop, gate, authorize, admit_attempt,
    count_unadmitted, sleep. end_.
Qed.

(** A step nothing is asked of. *)
Lemma wp_skip {A B} (m : M A) (k : A -> M B) K w : (forall a w', wp (fun _ => True) (k a) K w') ->
  wp (fun _ => True) (m ≫= k) K w.
Proof. intros Hk. apply wp_bind. unfold wp at 1. destruct (m w) as [w' []]; auto. Qed.

(** Every entry read is an entry less to read. *)
Lemma replayed_consumes c e ord attempt (w : World) :
  wp (fun _ => True) (replayed_attempt to_value from_value c e ord attempt) (fun r w' =>
    match r with
    | Continue _ => length (rest (cursor w')) < length (rest (cursor w))
    | GoLive => rest (cursor w') = []
    | Answered _ _ => True
    end) w.
Proof.
  unfold replayed_attempt. eapply (wp_seq _ _ _ (fun r w' => match r with
    | None => rest (cursor w') = []
    | Some _ => length (rest (cursor w')) < length (rest (cursor w)) end)).
  { unfold wp, next_recorded, next. destruct (effects (cursor w) !! pos (cursor w)) as [en|] eqn:Hen;
      [|by apply rest_nil].
    case_decide; [|done]. simpl. apply lookup_lt_Some in Hen. unfold rest. simpl. rewrite !length_drop. lia. }
  intros [r|] w1 Hw1.
  - eapply (wp_mono _ _ _ (fun r w' => r <> GoLive /\ same_cursor (cursor w1) w')); [apply (wp_and _ (same_cursor (cursor w1)))|done|].
    + destruct r; repeat first [apply wp_skip; intros ? ?|case_match|by apply wp_ret|by apply wp_throw].
    + pose proof (same_cursor_frame (V:=V) (O:=O) (T:=T) (cursor w1)).
      pose proof (same_cursor_notes (V:=V) (O:=O) (T:=T) (cursor w1)).
      pose proof (same_orphan_verdict (O:=O) to_value (cursor w1)).
      match goal with |- wp _ ?m _ _ => assert (keeps (same_cursor (cursor w1)) m) as Hk end.
      { destruct r; unfold replay_recorded_failure, lift, bill_replayed, move_blob; keep. }
      by apply (Hk w1).
    + intros [] w2 [Hr Hc]; [done|by rewrite Hc|done].
  - destruct (mode c); [by apply wp_ret|by apply wp_ret|by apply wp_throw].
Qed.

(** A live attempt that asks for another had one left. *)
Lemma live_retries_permitted c e outbound ord attempt advice (w : World) :
  wp (fun _ => True) (live_attempt to_value c e outbound ord attempt advice) (fun r _ =>
    match r with inl _ => True | inr _ => permits (retry e) attempt = true end) w.
Proof.
  unfold live_attempt. do 4 (apply wp_skip; intros ? ?). apply wp_skip. intros [v|f] w1.
  - apply wp_skip. intros r w2. by apply wp_ret.
  - eapply (wp_seq _ _ _ (fun r _ => match r with None => permits (retry e) attempt = true | Some _ => True end)).
    + assert (forall d w2, wp (fun _ => True) (match stop_reason d (recovery e) (attempt_key c e ord attempt) attempt (retry e)
        (error_message error_text f) (permanent_failure e f) (error_code f, refuses_the_account f) (mutates e) with
        | Some stop => throw stop | None => mret None end)
        (fun (r : option T) (_ : World) => match r with None => permits (retry e) attempt = true | Some _ => True end) w2) as Hd.
      { intros d w2. destruct (stop_reason _ _ _ _ _ _ _ _ _) eqn:Hs; [done|].
        by apply stop_reason_none in Hs as [_ ?]. }
      unfold failed_attempt_verdict. case_match; [|apply Hd]. apply wp_skip. intros [] w2; [done|apply Hd..].
    + intros [v|] w2 Hp; by apply wp_ret.
Qed.

Lemma ends_seq {A B} (m : M A) (k : A -> M B) J w : ends m -> wp (fun _ => True) m J w ->
  (forall a w', J a w' -> (k a w').2 <> Spun B) -> ((m ≫= k) w).2 <> Spun B.
Proof.
  intros Hm HJ Hk. specialize (Hm w). unfold wp in HJ. unfold mbind, m_bind.
  destruct (m w) as [w' []]; try done. by apply Hk.
Qed.

(** Fuel for the entries still to read and the attempts a policy may permit. *)
Definition fuelled (c : Config (V:=V)) (e : Effect (V:=V) (T:=T)) (fuel : nat) (attempt : N) (w : World) : Prop :=
  let max := N.to_nat (max_attempts (retry e)) in
  length (rest (cursor w)) + S max < fuel
  \/ ((mode c = Live \/ rest (cursor w) = []) /\ max - N.to_nat attempt < fuel).

Lemma loop_ends c e outbound ord : (max_attempts (retry e) < 4294967296)%N -> forall fuel attempt advice w,
  fuelled c e fuel attempt w ->
  (attempt_loop to_value from_value fuel c e outbound ord attempt advice w).2 <> Spun _.
Proof.
  intros Hmax. induction fuel as [|fuel IH]; intros attempt advice w Hf; [unfold fuelled in Hf; lia|].
  cbn [attempt_loop]. eapply (ends_seq _ _ (fun r w' => match r with
    | Answered _ _ => True
    | Continue _ => length (rest (cursor w')) < length (rest (cursor w)) /\ mode c <> Live
    | GoLive => mode c = Live \/ rest (cursor w') = []
    end)).
  { destruct (is_replaying (mode c)); [apply ends_replayed_attempt|apply ends_ret]. }
  { destruct (mode c) eqn:Hm; simpl; [apply wp_ret; by left|..];
      (eapply wp_mono; [apply replayed_consumes|done|]); intros [] w'; auto. }
  intros [o d|nxt|] w1 Hr; [done|..].
  - apply IH. unfold fuelled in *. left. destruct Hr as [Hr Hm], Hf as [Hf|[[?|Hnil] _]]; [lia|done|].
    rewrite Hnil in Hr. simpl in Hr. lia.
  - eapply (ends_seq _ _ (fun r w' => match r with inl _ => True | inr _ => permits (retry e) attempt = true end
      /\ same_cursor (cursor w1) w')); [apply ends_live_attempt|apply (wp_and _ (same_cursor (cursor w1)))|].
    + apply live_retries_permitted.
    + by apply (same_live_attempt to_value (cursor w1)).
    + intros [a|adv] w2 [Hp Hc]; [done|]. unfold same_cursor in Hc. apply IH. right. rewrite Hc. split; [done|].
      unfold permits in Hp. apply N.ltb_lt in Hp. unfold succ_attempt. rewrite N.mod_small by lia.
      unfold fuelled in Hf. lia.
Qed.

(** Every dispatch ends.  Whatever the journal holds and however its
    surroundings answer, the attempt loop returns, fails or dies with the
    process: each turn reads one more recorded attempt or makes one the policy
    still permits, so the fuel it runs on is never used up. *)
Theorem dispatch_ends c e outbound budget (d : Durable (V:=V) (O:=O)) env :
  (max_attempts (retry e) < 4294967296)%N ->
  (pass json_null to_value from_value c e outbound budget d env).2 <> Spun _.
Proof.
  intros Hmax. unfold pass, effect_unlabelled. cbv beta iota delta [mbind m_bind get modify].
  apply loop_ends; [done|]. left. unfold enough. simpl. lia.
Qed.
End ends.

(** ** Witnesses *)

Module DispatchSafetyWitness.
Import Payment.

(** A pass over an empty store of answers dies at its first append. *)
Lemma dispatch_ends_witness :
  (run_pass no_rule Live (effect true Reconcile 3) ([], []) (mk_env [] [] [] [])).2 <> Spun _
  /\ (run_pass no_rule Live (effect true Reconcile 3) ([], []) (mk_env [] [] [] [])).2 = Died _.
Proof.
  split.
  - refine (dispatch_ends (O:=unit) 0 of_nat of_nat (config no_rule Live) (effect true Reconcile 3) None unlimited
      ([], []) (mk_env [] [] [] []) _).
    reflexivity.
  - vm_compute. reflexivity.
Defined.
End DispatchSafetyWitness.
