(* ===== verification/DispatchOnce.v ===== *)
(** * A mutation happens at most once

    The outside world's side of [Dispatch]: across a first pass and any number
    of resumes, each dying where it likes, a mutating effect whose unknown
    outcomes may not be guessed at takes effect at most once, given callees and
    probes that tell the truth about what happened. *)

From S2P Require Import Prelude Digest EffectKey Label SinkGate Budget Replay Retry Dispatch DispatchSafety.

Section once.
Context {V O T : Type} `{Rendering V, Sha256}.
Context (json_null : V) (to_value : T -> result str V) (from_value : V -> result str T).

Abbreviation World := (Dispatch.World (V:=V) (O:=O) (T:=T)).
Abbreviation Journaled := (Replay.Journaled (V:=V) (O:=O) (C:=ContentVerdict)).
Abbreviation RecordKind := (Replay.RecordKind (V:=V) (O:=O) (C:=ContentVerdict)).
Abbreviation EffectReplay := (Replay.EffectReplay (V:=V) (O:=O) (C:=ContentVerdict)).
Abbreviation Durable := (Dispatch.Durable (V:=V) (O:=O)).
Implicit Types (w : World) (en : Journaled) (es : list Journaled).

Context (c : Config (V:=V)) (e : Dispatch.Effect (V:=V) (T:=T)).
Context (Hmut : mutates e = true) (Hrec : repeats (recovery e) = false).

(** ** Truthful surroundings *)

(** A call that returns a value, or fails as landed, took effect; one that
    fails as not having happened did not; an unknown outcome may be either. *)
Definition honest_call (cl : Called T) : Prop :=
  match returned cl with
  | Ok _ => True
  | Err f => error_disposition f = DidNotHappen -> took_effect cl = false
  end.
(** A probe never denies a call that took effect. *)
Definition honest_probe (p : bool -> result EffectError (Reconciliation T)) : Prop :=
  p true <> Ok ProbeDidNotHappen.
Definition honest (env : Env (T:=T)) : Prop := Forall honest_call (calls env) /\ Forall honest_probe (probes env).

(** ** What the journal says happened *)

(** Entries under which nothing happened. *)
Definition quiet en : Prop :=
  match j_replay en with
  | Failed _ DidNotHappen _ _ _ _ _ | Refused _ _ _ | Denied _ _ _ | Withheld _ _ => True
  | _ => False
  end.
Definition denies en : Prop :=
  match j_replay en with Failed _ DidNotHappen _ _ _ _ _ => True | _ => False end.
(** Entries under which something may have happened. *)
Definition open_or_settled (r : EffectReplay) : Prop :=
  match r with
  | Orphan rc => rc = recovery e
  | Done _ _ _ _ _ _ | Failed _ InDoubt _ _ _ _ _ | Failed _ Landed _ _ _ _ _ => True
  | _ => False
  end.

Definition entries_of (j : list (JRecord (V:=V) (O:=O) (C:=ContentVerdict))) : list Journaled :=
  effects (step_cursor json_null j).

(** The last entry is [key]'s and reads as [P]; nothing happened before it. *)
Definition ends_in (P : EffectReplay -> Prop) (key : EffectKey) (es : list Journaled) : Prop :=
  exists es' en, es = es' ++ [en] /\ Forall quiet es' /\ j_key en = key /\ P (j_replay en).

Definition calm (d : Durable) : Prop := Forall quiet (entries_of d.1) /\ d.2 = [].
Definition perhaps (key : EffectKey) (ks : list EffectKey) : Prop := ks = [] \/ ks = [key].
Definition standing (key : EffectKey) (d : Durable) : Prop :=
  ends_in open_or_settled key (entries_of d.1) /\ perhaps key d.2.
(** The journal denies a call that took effect. *)
Definition hidden (d : Durable) : Prop :=
  exists key en, key ∈ d.2 /\ en ∈ entries_of d.1 /\ j_key en = key /\ denies en.
Definition accounted (d : Durable) : Prop :=
  calm d \/ (exists key, standing key d) \/ (recovery e = Reconcile /\ hidden d).

(** The same of a pass under way, whose scripts stay honest. *)
Definition here (P : Durable -> Prop) (w : World) : Prop := P (survives w) /\ honest (env w).

#[local] Instance here_frame P : Frame (here P).
Proof.
  intros w w' Hj Hr _ (_ & Hcalls & Hprobes & _) [HP [Hc Hp]]. unfold here, survives. rewrite Hj, Hr.
  split; [done|]. split; [destruct Hcalls as [l Hl]; rewrite Hl in Hc|destruct Hprobes as [l Hl]; rewrite Hl in Hp];
    by eapply Forall_app.
Qed.

(** ** Folding the next record *)

Lemma entries_put c' key kind w :
  entries_of (journal (put c' key kind w))
  = effects (apply json_null (step_cursor json_null (journal w)) key
      (Z.of_nat (S (length (journal w)))) (written kind)).
Proof. unfold entries_of, step_cursor. simpl. by rewrite foldl_app. Qed.

Lemma quiet_filter (P : Journaled -> Prop) `{forall en, base.Decision (P en)} es : Forall quiet es -> Forall quiet (filter P es).
Proof. rewrite !Forall_forall. intros Hq en [_ Hen]%list_elem_of_filter. auto. Qed.

Lemma quiet_remove p es : Forall quiet es -> Forall quiet (remove_last p es).
Proof. rewrite !Forall_forall. intros Hq en Hen%elem_of_remove_last. auto. Qed.

Lemma calm_note c' key kind w : is_note kind = true -> calm (survives w) -> calm (survives (put c' key kind w)).
Proof.
  intros Hk [Hq Hr]. split; [|exact Hr]. cbn [survives fst]. rewrite entries_put. unfold entries_of in Hq.
  cbn [survives fst] in Hq. destruct kind; try done; simpl.
  - apply Forall_app. split; [by apply quiet_filter|by constructor].
  - by apply quiet_remove, quiet_filter.
  - apply Forall_app. split; [by apply quiet_filter|by constructor].
  - apply Forall_app. split; [by apply quiet_filter|by constructor].
Qed.

(** A terminal record rewrites the last entry when that is its own. *)
Lemma ends_settle (P Q : EffectReplay -> Prop) key s j : ends_in P key (entries_of j) ->
  (forall extra, Q (add_spend s extra)) ->
  ends_in Q key (effects (settle (step_cursor json_null j) key s)).
Proof.
  intros (es & en & Hes & Hq & Hk & _) HQ. unfold entries_of in Hes. exists es, (settled s en).
  split_and!; [|done|done|apply HQ]. simpl. rewrite Hes. apply update_last_snoc.
  unfold at_key. by apply bool_decide_eq_true.
Qed.

Lemma ends_weaken (P Q : EffectReplay -> Prop) key es : (forall r, P r -> Q r) -> ends_in P key es -> ends_in Q key es.
Proof. intros HPQ (es' & en & ? & ? & ? & ?). exists es', en. auto. Qed.

Lemma ends_quiet key es : ends_in (fun r => quiet (mk_journaled key 0%Z None r)) key es -> Forall quiet es.
Proof. intros (es' & en & -> & Hq & _ & Hen). apply Forall_app. split; [done|]. by constructor. Qed.

(** ** One call *)

Definition denied (r : EffectReplay) : Prop := match r with Failed _ DidNotHappen _ _ _ _ _ => True | _ => False end.
Definition failed_as (d : Disposition) (r : EffectReplay) : Prop :=
  match r with Failed _ d' _ _ _ _ _ => d' = d | _ => False end.
(** About to call under [key], and having called: [P] says it did not happen. *)
Definition calling (P : Prop) (key : EffectKey) (d : Durable) : Prop :=
  ends_in (fun r => r = Orphan (recovery e) \/ (recovery e = Reconcile /\ denied r)) key (entries_of d.1)
  /\ perhaps key d.2 /\ (P -> d.2 = []).
Definition recorded (d0 : Disposition) (key : EffectKey) (d : Durable) : Prop :=
  ends_in (failed_as d0) key (entries_of d.1) /\ perhaps key d.2 /\ (d0 = DidNotHappen -> d.2 = []).

Lemma calling_accounted P key d : calling P key d -> accounted d.
Proof.
  intros ((es & en & Hes & Hq & Hk & Hr) & Hp & _). destruct Hr as [Hr|[Hrc Hr]].
  - right; left. exists key. split; [|done]. exists es, en. split_and!; [done..|]. by rewrite Hr.
  - destruct Hp as [Hp|Hp].
    + left. split; [|done]. rewrite Hes. apply Forall_app. split; [done|]. constructor; [|done].
      unfold quiet, denied in *. by destruct (j_replay en); try destruct disposition.
    + right; right. split; [done|]. exists key, en. split_and!; [rewrite Hp; set_solver|rewrite Hes; set_solver|done|exact Hr].
Qed.

Lemma recorded_accounted d0 key d : recorded d0 key d -> accounted d.
Proof.
  intros (He & Hp & Hd). destruct d0.
  - left. split; [|by apply Hd]. eapply ends_quiet, ends_weaken; [|exact He]. intros [] Hr; simpl in *; by subst.
  - right; left. exists key. split; [|done]. eapply ends_weaken; [|exact He].
    intros [] Hr; simpl in *; by subst.
  - right; left. exists key. split; [|done]. eapply ends_weaken; [|exact He].
    intros [] Hr; simpl in *; by subst.
Qed.

Lemma here_weaken (P Q : Durable -> Prop) w : (forall d, P d -> Q d) -> here P w -> here Q w.
Proof. intros HPQ [HP Hh]. split; [by apply HPQ|done]. Qed.

Lemma here_put (P Q : Durable -> Prop) key kind w :
  (P (survives w) -> Q (survives (put c key kind w))) -> here P w -> here Q (put c key kind w).
Proof. intros HPQ [HP Hh]. split; [by apply HPQ|done]. Qed.

Lemma put_started key d m a w : calm (survives w) ->
  calling True key (survives (put c key (EffectStarted d (recovery e) m a) w)).
Proof.
  intros [Hq Hr]. unfold calling. cbn [survives fst snd] in *. rewrite entries_put. simpl.
  rewrite Hr. split_and!; [|by left|done].
  do 2 eexists. split_and!; [done|by apply quiet_filter|done|by left].
Qed.

Lemma put_done P key o so b s dc ct w : calling P key (survives w) ->
  standing key (survives (put c key (EffectDone o so b s dc ct) w)).
Proof.
  intros (He & Hp & _). split; [|done]. cbn [survives fst snd] in *. rewrite entries_put. simpl.
  by eapply ends_settle.
Qed.

Lemma put_failed f key w : calling (error_disposition f = DidNotHappen) key (survives w) ->
  recorded (error_disposition f) key (survives (put c key (failure_record e f) w)).
Proof.
  intros (He & Hp & Hd). split_and!; [|done|done]. cbn [survives fst snd] in *. rewrite entries_put. simpl.
  by eapply ends_settle.
Qed.

Lemma announce_calling key d m a w : here calm w ->
  wp (here accounted) (append_effect c key (EffectStarted d (recovery e) m a)) (fun _ => here (calling True key)) w.
Proof.
  intros Hw. apply (wp_append (here calm)); [done|..]; intros w'.
  - apply here_weaken. intros ?. by left.
  - apply here_put. intros Hc. by eapply calling_accounted, put_started.
  - apply here_put, put_started.
Qed.

Lemma perform_calling key w : here (calling True key) w ->
  wp (here accounted) (perform key) (fun r w' =>
    here (calling (match r with Ok _ => False | Err f => error_disposition f = DidNotHappen end) key) w') w.
Proof.
  intros [(He & _ & Hp) [Hc Hb]]. specialize (Hp I). unfold wp, perform.
  destruct (calls (env w)) as [|cl cls] eqn:Hcalls.
  { split; [|by split; [rewrite Hcalls|]]. apply (calling_accounted True key). split_and!; [done|by left|done]. }
  apply Forall_cons in Hc as [Hcl Hcls]. cbn [survives snd] in Hp.
  destruct (took_effect cl) eqn:Htook; (split; [|by split]); (split_and!; [exact He|simpl; rewrite Hp|simpl]).
  - by right.
  - unfold honest_call in Hcl. destruct (returned cl); [done|]. intros Hd. specialize (Hcl Hd). congruence.
  - by left.
  - by rewrite Hp.
Qed.

Create HintDb once.
#[local] Hint Resolve calling_accounted recorded_accounted : once.
Lemma standing_accounted key d : standing key d -> accounted d.
Proof. intros Hd. right; left. by exists key. Qed.
Lemma calm_accounted d : calm d -> accounted d.
Proof. by left. Qed.
#[local] Hint Resolve standing_accounted calm_accounted : once.
#[local] Hint Extern 4 (here _ _) => (eapply here_weaken; [|eassumption]; eauto with once) : once.

Lemma perform_once_calling key attempt ws w :
  here (if ws : bool then calm else calling True key) w ->
  wp (here accounted) (perform_once to_value c e key attempt ws) (fun r w' => match r with
    | Ok _ => here (standing key) w'
    | Err f => here (recorded (error_disposition f) key) w' end) w.
Proof.
  intros Hw. unfold perform_once. eapply (wp_seq _ _ _ (fun _ => here (calling True key))).
  { destruct ws; [by apply announce_calling|by apply wp_ret]. }
  intros _ w1 Hw1. eapply wp_seq; [by apply perform_calling|]. intros [output|f] w2 Hw2; cbv beta iota in Hw2.
  - destruct (to_value output) as [json|detail]; [|apply wp_throw; eauto with once].
    eapply wp_frame; [apply keeps_modify_frame; [apply _|done]|exact Hw2|eauto with once|].
    intros _ w3 Hw3. apply wp_bind. eapply wp_try_append; [apply _|exact Hw3|..]; intros w4.
    + eauto with once.
    + apply here_put. intros Hd. by eapply standing_accounted, put_done.
    + intros Hw4. eapply here_put in Hw4; [|by apply put_done].
      eapply wp_frame; [apply keeps_arrival_refusal; apply _|exact Hw4|eauto with once|].
      intros _ w5 Hw5. eapply wp_frame; [apply keeps_modify_frame; [apply _|done]|exact Hw5|eauto with once|].
      done.
    + intros err Hw4. apply wp_throw. eauto with once.
    + intros err Hw4. apply wp_throw. eapply here_put; [|exact Hw4]. intros Hd. by eapply standing_accounted, put_done.
  - eapply wp_frame; [apply keeps_modify_frame; [apply _|done]|exact Hw2|eauto with once|].
    intros _ w3 Hw3. apply wp_bind. eapply wp_try_append; [apply _|exact Hw3|..]; intros w4.
    + eauto with once.
    + apply here_put. intros Hd. by eapply recorded_accounted, put_failed.
    + intros Hw4. eapply here_put in Hw4; [|by apply put_failed].
      destruct f; try exact Hw4.
      eapply wp_frame; [apply keeps_modify_frame; [apply _|]|exact Hw4|eauto with once|].
      * intros w'. destruct (moved_blob w'); by split_and!.
      * intros _ w5 Hw5. apply wp_throw. eauto with once.
    + intros err Hw4. apply wp_throw. eauto with once.
    + intros err Hw4. apply wp_throw. eapply here_put; [|exact Hw4]. intros Hd. by eapply recorded_accounted, put_failed.
Qed.

(** ** Asking, deciding, resolving *)

Lemma recorded_standing d0 key d : d0 <> DidNotHappen -> recorded d0 key d -> standing key d.
Proof.
  intros Hd (He & Hp & _). split; [|done]. eapply ends_weaken; [|exact He].
  intros [] Hr; simpl in *; try done. subst. by destruct d0.
Qed.

Lemma recorded_calm key d : recorded DidNotHappen key d -> calm d.
Proof.
  intros (He & _ & Hd). split; [|by apply Hd]. eapply ends_quiet, ends_weaken; [|exact He].
  intros [] Hr; simpl in *; by subst.
Qed.

Lemma recorded_calling key d : recovery e = Reconcile -> recorded DidNotHappen key d -> calling True key d.
Proof.
  intros Hr (He & Hp & Hd). split_and!; [|done|by intros _; apply Hd]. eapply ends_weaken; [|exact He].
  intros [] Hr'; simpl in *; try done. subst. by right.
Qed.
#[local] Hint Resolve recorded_calm : once.

Lemma reconcile_truth key w : here (standing key) w ->
  wp (here accounted) (reconcile key) (fun r w' =>
    here (fun d => standing key d /\ (r = Ok ProbeDidNotHappen -> d.2 = [])) w') w.
Proof.
  intros [Hs [Hc Hp]]. unfold wp, reconcile. destruct (probes (env w)) as [|p ps] eqn:Hprobes.
  { split; [by eapply standing_accounted|]. split; [done|]. by rewrite Hprobes. }
  apply Forall_cons in Hp as [Hp Hps]. split; [|by split]. split; [exact Hs|].
  case_bool_decide as Hin; [by intros ?%Hp|]. intros _.
  destruct Hs as [_ [Hd|Hd]]; [done|]. destruct Hin. simpl in Hd. rewrite Hd. set_solver.
Qed.

Definition answered (r : Reconciliation T) (key : EffectKey) (d : Durable) : Prop :=
  match r with ProbeDidNotHappen => recorded DidNotHappen key d | _ => standing key d end.
Lemma answered_accounted r key d : answered r key d -> accounted d.
Proof. destruct r; simpl; eauto with once. Qed.

Lemma put_reconciled (r : Reconciliation T) key output sp dc w : (forall o, r = ProbeLanded o -> is_Some output) ->
  standing key (survives w) /\ (r = ProbeDidNotHappen -> reached w = []) ->
  answered r key (survives (put c key (EffectReconciled (probe_disposition r) output sp dc) w)).
Proof.
  intros Hout [[He Hp] Hd]. destruct r as [o| |]; cbn [answered].
  - destruct (Hout o eq_refl) as [v ->]. split; [|done]. cbn [survives fst snd]. rewrite entries_put. simpl.
    by eapply ends_settle.
  - split_and!; [|exact Hp|by intros _; apply Hd]. cbn [survives fst snd]. rewrite entries_put. simpl.
    by eapply ends_settle.
  - split; [|done]. cbn [survives fst snd]. rewrite entries_put. simpl. by eapply ends_settle.
Qed.

Lemma reconcile_standing key w : here (standing key) w ->
  wp (here accounted) (reconcile_and_record to_value c e key) (fun r => here (answered r key)) w.
Proof.
  intros Hw. unfold reconcile_and_record. eapply wp_seq; [by apply reconcile_truth|]. intros r w1 Hw1.
  cbv beta in Hw1. set (outcome := match r with Ok r => r | Err _ => ProbeInconclusive end).
  assert (here (fun d => standing key d /\ (outcome = ProbeDidNotHappen -> d.2 = [])) w1) as Hw2.
  { eapply here_weaken; [|exact Hw1]. intros d [Hs Hd]. split; [done|]. intros Ho. apply Hd.
    unfold outcome in Ho. by destruct r; simplify_eq. }
  clearbody outcome. clear Hw1.
  assert (forall d, standing key d /\ (outcome = ProbeDidNotHappen -> d.2 = []) -> accounted d) as Hacc.
  { intros d [Hd _]. by eapply standing_accounted. }
  eapply (wp_seq _ _ _ (fun rec w' => (forall o, outcome = ProbeLanded o -> is_Some rec.1)
    /\ here (fun d => standing key d /\ (outcome = ProbeDidNotHappen -> d.2 = [])) w')).
  { destruct outcome as [o| |]; [|apply wp_ret; split; [by intros|exact Hw2]..].
    eapply wp_frame; [apply keeps_modify_frame; [apply _|done]|exact Hw2|intros w'; by apply here_weaken|].
    intros _ w3 Hw3. destruct (to_value o).
    - apply wp_ret. split; [by eexists|exact Hw3].
    - apply wp_throw. exact (here_weaken _ _ _ Hacc Hw3). }
  intros rec w3 [Hout Hw3]. eapply (wp_seq _ _ _ (fun _ => here (answered outcome key))).
  - eapply wp_append; [apply _|exact Hw3|..]; intros w4.
    + by apply here_weaken.
    + apply here_put. intros Hd. eapply answered_accounted. by apply put_reconciled.
    + apply here_put. intros Hd. by apply put_reconciled.
  - intros _ w4 Hw4. by apply wp_ret.
Qed.

Definition verdict_world (r : option T) : World -> Prop :=
  here (match r with Some _ => accounted | None => calm end).

Lemma failed_attempt_once key attempt f w : here (recorded (error_disposition f) key) w ->
  wp (here accounted) (failed_attempt_verdict to_value c e key attempt f) verdict_world w.
Proof.
  intros Hw. unfold failed_attempt_verdict.
  assert (forall d w', here (recorded d key) w' \/ (d <> DidNotHappen /\ here (standing key) w') ->
    wp (here accounted) (match stop_reason d (recovery e) key attempt (retry e) (error_message error_text f)
      (permanent_failure e f) (error_code f, refuses_the_account f) (mutates e) with
      | Some stop => throw stop | None => mret None end) verdict_world w') as Hdec.
  { intros d w' Hd. destruct (stop_reason _ _ _ _ _ _ _ _ _) eqn:Hstop.
    - apply wp_throw. destruct Hd as [?|[_ ?]]; eauto with once.
    - apply stop_reason_none in Hstop as [Hsafe _]. rewrite Hmut in Hsafe.
      destruct d; simpl in Hsafe; try congruence. destruct Hd as [Hd|[[] _]]; [|done].
      apply wp_ret. unfold verdict_world. eauto with once. }
  case_match; [|apply Hdec; by left].
  eapply wp_seq; [apply reconcile_standing|].
  { eapply here_weaken; [|exact Hw]. intros d. apply recorded_standing.
    intros Hd. rewrite Hd in *. by case_bool_decide. }
  intros [o| |] w1 Hw1; cbv beta iota in Hw1; simpl in Hw1.
  - apply wp_ret. unfold verdict_world. eauto with once.
  - apply Hdec. by left.
  - apply Hdec. by right.
Qed.

Lemma orphan_verdict_once key attempt rc w : mode c <> Live -> rc = recovery e -> here (standing key) w ->
  wp (here accounted) (orphan_verdict to_value c e key attempt rc) verdict_world w.
Proof.
  intros Hm Hrc Hw. unfold orphan_verdict. eapply (wp_seq _ _ _ (fun r => match r with
    | Ok _ => here accounted | Err f => here (recorded (error_disposition f) key) end)).
  - unfold resolve_orphan. destruct (mode c); [done| |apply wp_throw; eauto with once].
    pose proof Hrec as Hrep. rewrite <- Hrc in Hrep. destruct rc; [done|done| |apply wp_throw; eauto with once].
    eapply wp_seq; [by apply reconcile_standing|]. intros [o| |] w1 Hw1; simpl in Hw1.
    + apply wp_ret. eauto with once.
    + eapply wp_mono; [apply (perform_once_calling key attempt false)|done|].
      { eapply here_weaken; [|exact Hw1]. intros d. by apply recorded_calling. }
      intros [v|f] w2 Hw2; cbv beta iota in Hw2; eauto with once.
    + apply wp_throw. eauto with once.
  - intros [v|f] w1 Hw1; [apply wp_ret; unfold verdict_world; eauto with once|].
    by apply failed_attempt_once.
Qed.

(** ** Reading history *)

Lemma next_wp {R} attempt key (K : option EffectReplay -> World -> Prop) w :
  R w -> (forall err, R (set_cursor w err)) ->
  (rest (cursor w) = [] -> K None (set_cursor w (cursor w))) ->
  (forall en es cur, rest (cursor w) = en :: es -> j_key en = key -> rest cur = es ->
    K (Some (j_replay en)) (set_cursor w cur)) ->
  wp R (next_recorded e attempt key) K w.
Proof.
  intros HR HRc Hn Hs. unfold wp, next_recorded, next.
  destruct (effects (cursor w) !! pos (cursor w)) as [en|] eqn:Hen; [|by apply Hn, rest_nil].
  case_decide as Hk; [|apply HRc].
  destruct (rest (cursor w)) as [|en' es] eqn:Hrest; [apply rest_nil in Hrest; congruence|].
  apply rest_cons in Hrest as Hr. destruct Hr as [Hen' Hes]. assert (en' = en) as -> by congruence.
  by eapply Hs.
Qed.

Definition at_rest (es : list Journaled) (P : Durable -> Prop) (w : World) : Prop :=
  here P w /\ rest (cursor w) = es.
#[local] Instance at_rest_frame es P : Frame (at_rest es P).
Proof.
  intros w w' Hj Hr Hcur He [HP Hes]. split; [exact (here_frame P w w' Hj Hr Hcur He HP)|by rewrite Hcur].
Qed.
#[local] Instance at_rest_notes es : Notes (at_rest es calm).
Proof. intros w c' key kind Hk [[HP Hh] Hes]. split; [split; [by apply calm_note|done]|done]. Qed.

(** Nothing more will be read than happened: either nothing did, or the last
    entry is the one under which something may have. *)
Definition reading (w : World) : Prop :=
  (exists es, at_rest es calm w /\ Forall quiet es)
  \/ (exists pre en, at_rest (pre ++ [en]) (standing (j_key en)) w /\ Forall quiet pre
       /\ open_or_settled (j_replay en)).
Lemma reading_accounted w : reading w -> here accounted w.
Proof. intros [(es & [Hw _] & _)|(pre & en & [Hw _] & _)]; eauto with once. Qed.

Definition read_world (r : Replayed (T:=T)) (w : World) : Prop :=
  match r with
  | Answered _ _ => here accounted w
  | Continue _ => reading w
  | GoLive => at_rest [] calm w
  end.

Lemma at_rest_accounted es P w : (forall d, P d -> accounted d) -> at_rest es P w -> here accounted w.
Proof. intros HP [Hw _]. by eapply here_weaken. Qed.

(** A recorded failure under which nothing happened: follow it, or stop. *)
Lemma recorded_failure_quiet es P ord attempt error s pe re w :
  at_rest es P w -> (forall d, P d -> accounted d) -> (forall w', at_rest es P w' -> reading w') ->
  wp (here accounted) (n ← replay_recorded_failure c e ord attempt error DidNotHappen s pe re; mret (Continue n))
    read_world w.
Proof.
  intros Hw HP Hread. unfold replay_recorded_failure.
  apply wp_bind. eapply wp_frame; [apply keeps_modify_frame; [apply _|done]|exact Hw|
    intros w'; by apply at_rest_accounted|].
  intros _ w1 Hw1. apply wp_bind. apply wp_ret. unfold lift. destruct (recorded_failure _ _ _ _ _ _ _ _ _).
  - apply wp_ret, wp_ret. by apply Hread.
  - apply wp_throw. by eapply at_rest_accounted.
Qed.

Lemma replayed_calm es ord attempt w : at_rest es calm w -> Forall quiet es ->
  wp (here accounted) (replayed_attempt to_value from_value c e ord attempt) read_world w.
Proof.
  intros [Hw Hes] Hq. unfold replayed_attempt. apply wp_bind.
  apply next_wp; [eauto with once|intros ?; change (here accounted w); eauto with once| |].
  - intros Hnil. destruct (mode c); [by apply wp_ret|by apply wp_ret|apply wp_throw].
    change (here accounted w). eauto with once.
  - intros en es' cur Hrest Hkey Hcur. assert (es = en :: es') as -> by congruence. apply Forall_cons in Hq as [Hen Hq].
    assert (at_rest es' calm (set_cursor w cur)) as Hw1 by done.
    assert (forall w', at_rest es' calm w' -> reading w') as Hread by (intros w' ?; left; by exists es').
    clear Hw. set (w1 := set_cursor w cur) in *. clearbody w1.
    assert (forall w', at_rest es' calm w' -> here accounted w') as Hacc
      by (intros w'; apply at_rest_accounted; eauto with once).
    unfold quiet in Hen. destruct (j_replay en) as [|error d s pe co ac [what|]|l u ce|re ac rs|su re|rc]; try done.
    + eapply wp_frame; [apply keeps_modify_frame; [apply _|done]|exact Hw1|done|]. intros _ w2 Hw2.
      eapply wp_frame; [apply keeps_modify_frame; [apply _|]|exact Hw2|done|].
      { intros w'. destruct (moved_blob w'); by split_and!. }
      intros _ w3 Hw3. apply wp_throw. auto.
    + destruct d; try done. eapply recorded_failure_quiet; [exact Hw1|eauto with once|done].
    + eapply wp_frame; [apply keeps_replayed_refusal; apply _|exact Hw1|done|]. intros _ w2 Hw2.
      apply wp_ret. by apply Hread.
    + eapply wp_frame; [apply keeps_replayed_refusal; apply _|exact Hw1|done|]. intros _ w2 Hw2.
      apply wp_ret. by apply Hread.
    + apply wp_bind, wp_ret. case_match; [apply wp_ret|apply wp_throw]; auto. by apply Hread.
Qed.

(** Before a standing entry no refusal is re-asked. *)
Lemma writes_disabled w es : mode c <> Live -> rest (cursor w) = es -> es <> [] -> writes_enabled c w = false.
Proof.
  intros Hm Hes Hne. unfold writes_enabled. destruct (mode c); [done| |done]. simpl.
  destruct (exhausted (cursor w)) eqn:He; [|done]. apply exhausted_rest in He. congruence.
Qed.

Lemma replayed_before key en es ord attempt w : mode c <> Live ->
  at_rest (en :: es) (standing key) w -> es <> [] ->
  quiet en -> (forall w', at_rest es (standing key) w' -> reading w') ->
  wp (here accounted) (replayed_attempt to_value from_value c e ord attempt) read_world w.
Proof.
  intros Hm [Hw Hes] Hne Hen Hread. unfold replayed_attempt. apply wp_bind.
  apply next_wp; [eauto with once|intros ?; change (here accounted w); eauto with once|by rewrite Hes|].
  intros en' es' cur Hrest Hkey Hcur. rewrite Hes in Hrest. injection Hrest as <- <-.
  assert (at_rest es (standing key) (set_cursor w cur)) as Hw1 by done.
  clear Hw. set (w1 := set_cursor w cur) in *. clearbody w1.
  assert (forall w', at_rest es (standing key) w' -> here accounted w') as Hacc
    by (intros w'; apply at_rest_accounted; eauto with once).
  unfold quiet in Hen. destruct (j_replay en) as [|error d s pe co ac [what|]|l u ce|re ac rs|su re|rc]; try done.
  - eapply wp_frame; [apply keeps_modify_frame; [apply _|done]|exact Hw1|done|]. intros _ w2 Hw2.
    eapply wp_frame; [apply keeps_modify_frame; [apply _|]|exact Hw2|done|].
    { intros w'. destruct (moved_blob w'); by split_and!. }
    intros _ w3 Hw3. apply wp_throw. auto.
  - destruct d; try done. eapply recorded_failure_quiet; [exact Hw1|eauto with once|done].
  - apply wp_bind. unfold replayed_refusal. apply wp_bind, wp_ret.
    rewrite (writes_disabled w1 es) by (done || apply Hw1). apply wp_throw. auto.
  - apply wp_bind. unfold replayed_refusal. eapply wp_frame; [|exact Hw1|done|].
    { unfold replayed_denial. keep. }
    intros err w2 Hw2. apply wp_throw. auto.
  - apply wp_bind, wp_ret. rewrite (writes_disabled w1 es) by (done || apply Hw1). apply wp_throw. auto.
Qed.

Lemma replayed_last en ord attempt w : mode c <> Live -> at_rest [en] (standing (j_key en)) w ->
  open_or_settled (j_replay en) ->
  wp (here accounted) (replayed_attempt to_value from_value c e ord attempt) read_world w.
Proof.
  intros Hm [Hw Hes] Hen. unfold replayed_attempt. apply wp_bind.
  apply next_wp; [eauto with once|intros ?; change (here accounted w); eauto with once|by rewrite Hes|].
  intros en' es' cur Hrest Hkey Hcur. rewrite Hes in Hrest. injection Hrest as <- <-.
  assert (at_rest [] (standing (j_key en)) (set_cursor w cur)) as Hw1 by done.
  clear Hw. set (w1 := set_cursor w cur) in *. clearbody w1.
  assert (forall w', at_rest [] (standing (j_key en)) w' -> here accounted w') as Hacc
    by (intros w'; apply at_rest_accounted; eauto with once).
  unfold open_or_settled in Hen.
  destruct (j_replay en) as [|error d s pe co ac [what|]|l u ce|re ac rs|su re|rc]; try done.
  - eapply wp_frame; [apply keeps_modify_frame; [apply _|done]|exact Hw1|done|]. intros _ w2 Hw2.
    eapply wp_frame; [apply keeps_arrival_refusal; apply _|exact Hw2|done|]. intros _ w3 Hw3.
    destruct (from_value output); [apply wp_ret|apply wp_throw]; by apply Hacc.
  - eapply wp_frame; [apply keeps_modify_frame; [apply _|done]|exact Hw1|done|]. intros _ w2 Hw2.
    eapply wp_frame; [apply keeps_modify_frame; [apply _|]|exact Hw2|done|].
    { intros w'. destruct (moved_blob w'); by split_and!. }
    intros _ w3 Hw3. apply wp_throw. auto.
  - unfold replay_recorded_failure. apply wp_bind.
    eapply wp_frame; [apply keeps_modify_frame; [apply _|done]|exact Hw1|done|]. intros _ w2 Hw2.
    apply wp_bind, wp_ret. unfold recorded_failure, peek_is.
    destruct Hw2 as [Hw2 Hr2]. apply rest_nil in Hr2 as Hpos. rewrite Hpos.
    destruct (stop_reason _ _ _ _ _ _ _ _ _) eqn:Hstop.
    + apply wp_throw. apply Hacc. by split.
    + apply stop_reason_none in Hstop as [Hsafe _]. rewrite Hmut in Hsafe.
      exfalso. destruct d; simpl in Hsafe; try congruence; done.
  - subst rc. eapply wp_frame; [apply keeps_modify_frame; [apply _|done]|exact Hw1|done|]. intros _ w2 [Hw2 Hr2].
    eapply (wp_seq _ _ _ (fun r w' => verdict_world r w' /\ rest (cursor w') = [])).
    + eapply wp_mono; [apply (wp_and (here accounted) (same_cursor (cursor w2)) _ verdict_world
        (fun _ => same_cursor (cursor w2)))| |].
      * apply orphan_verdict_once; [done|done|by rewrite <- Hkey].
      * by apply same_orphan_verdict.
      * done.
      * intros a w' [? Hc]. split; [done|]. by rewrite Hc.
    + intros [v|] w3 [Hv Hr3]; apply wp_ret; [done|]. left. exists []. by split_and!.
Qed.

Lemma replayed_reading ord attempt w : mode c <> Live -> reading w ->
  wp (here accounted) (replayed_attempt to_value from_value c e ord attempt) read_world w.
Proof.
  intros Hm [(es & Hw & Hq)|(pre & en & Hw & Hq & Hen)]; [by eapply replayed_calm|].
  destruct pre as [|en0 pre]; [by apply (replayed_last en)|]. apply Forall_cons in Hq as [Hen0 Hq].
  apply (replayed_before (j_key en) en0 (pre ++ [en])); try done; [by destruct pre|].
  intros w' Hw'. right. by exists pre, en.
Qed.

(** ** Live attempts and the loop *)

#[local] Instance here_calm_notes : Notes (here calm).
Proof. intros w c' key kind Hk [HP Hh]. split; [by apply calm_note|done]. Qed.

Lemma live_once outbound ord attempt advice w : here calm w ->
  wp (here accounted) (live_attempt to_value c e outbound ord attempt advice)
    (fun r => here (match r with inl _ => accounted | inr _ => calm end)) w.
Proof.
  intros Hw. unfold live_attempt. assert (forall w', here calm w' -> here accounted w') as Hacc by eauto with once.
  eapply (wp_frame (here calm)); [apply keeps_abandoning; apply _|exact Hw|done|]. intros _ w1 Hw1.
  eapply (wp_frame (here calm)); [|exact Hw1|done|].
  { case_match; [apply keeps_withdrawal; apply _|apply keeps_ret]. }
  intros _ w2 Hw2. eapply (wp_frame (here calm)); [apply keeps_gate; apply _|exact Hw2|done|]. intros _ w3 Hw3.
  eapply (wp_frame (here calm)); [|exact Hw3|done|].
  { case_match; [apply keeps_ret|by apply keeps_modify_frame; [apply _|]]. }
  intros _ w4 Hw4. eapply wp_seq; [by apply (perform_once_calling _ attempt true)|].
  intros [v|f] w5 Hw5; cbv beta iota in Hw5.
  - eapply (wp_frame (here (standing _))); [apply keeps_take_raise; apply _|exact Hw5|eauto with once|]. intros r w6 Hw6.
    apply wp_ret. eauto with once.
  - eapply wp_seq; [by apply failed_attempt_once|]. by intros [v|] w6 Hw6; apply wp_ret.
Qed.

Lemma loop_once fuel outbound : forall ord attempt advice w,
  match mode c with Live => here calm w | _ => reading w end ->
  wp (here accounted) (attempt_loop to_value from_value fuel c e outbound ord attempt advice)
    (fun _ => here accounted) w.
Proof.
  induction fuel as [|fuel IH]; intros ord attempt advice w Hw.
  { unfold wp. simpl. destruct (mode c); [eauto with once|by apply reading_accounted..]. }
  cbn [attempt_loop].
  eapply (wp_seq _ _ _ (fun r w' => match mode c with Live => r = GoLive /\ here calm w' | _ => read_world r w' end)).
  { destruct (mode c) eqn:Hm; simpl; [by apply wp_ret|apply replayed_reading; congruence..]. }
  intros r w1 Hr. assert (match r with
    | Answered _ _ => here accounted w1
    | Continue _ => mode c <> Live /\ reading w1
    | GoLive => match mode c with Live => here calm w1 | _ => at_rest [] calm w1 end end) as Hr'.
  { destruct (mode c); [by destruct Hr as [-> ?]|by destruct r..]. }
  destruct r as [o d|next|]; [by apply wp_ret|..].
  - apply IH. destruct Hr' as [Hm Hr']. by destruct (mode c).
  - eapply wp_seq; [apply (wp_and (here accounted) (same_cursor (cursor w1)) _ (fun r =>
      here (match r with inl _ => accounted | inr _ => calm end)) (fun _ => same_cursor (cursor w1)))|].
    + apply live_once. destruct (mode c); [done|apply Hr'..].
    + by apply same_live_attempt.
    + intros [a|adv] w2 [Hw2 Hc2]; [by apply wp_ret|]. apply IH.
      assert (forall es, at_rest es calm w1 -> at_rest es calm w2) as Hmove.
      { intros es [_ Hes]. split; [done|]. by rewrite Hc2. }
      destruct (mode c); [done|left; exists []; split; [by apply Hmove|done]..].
Qed.

(** ** Passes and lives *)

Lemma step_cursor_pos rs : pos (step_cursor (O:=O) (C:=ContentVerdict) json_null rs) = 0.
Proof.
  unfold step_cursor. induction rs as [|r rs IH] using rev_ind; [done|]. rewrite foldl_app. simpl.
  unfold apply_record at 1. destruct (rec_key r); [|done]. by destruct (rec_kind r).
Qed.

Lemma rest_open rs : rest (step_cursor json_null rs) = entries_of rs.
Proof. unfold rest. by rewrite step_cursor_pos. Qed.

Lemma pass_once outbound budget d env : honest env ->
  match mode c with Live => calm d | _ => calm d \/ exists key, standing key d end ->
  accounted (survives (pass json_null to_value from_value c e outbound budget d env).1).
Proof.
  intros Hh Hd. unfold pass, effect_unlabelled.
  set (w := open_pass json_null budget d env).
  assert (match mode c with Live => here calm w | _ => reading w end) as Hw.
  { destruct d as [j ks].
    assert (calm (j, ks) \/ (exists key, standing key (j, ks)) -> reading w) as Hread.
    { intros [[Hq Hks]|[key [(es & en & Hes & Hq & Hk & Hen) Hp]]].
      - left. exists (entries_of j). split; [|done]. by split; [|apply rest_open].
      - right. exists es, en. subst key. split_and!; [|done|done]. split; [|by rewrite <- Hes; apply rest_open].
        split; [|done]. split; [|done]. by exists es, en. }
    destruct (mode c); [done|auto..]. }
  assert (wp (here accounted) (attempt_loop to_value from_value (enough e w) c e outbound (ordinal w)
    FIRST_ATTEMPT None) (fun _ => here accounted) (set_ordinal w ((ordinal w + 1) mod 4294967296)%N)) as Hwp.
  { apply loop_once. exact Hw. }
  unfold wp in Hwp. cbv beta iota delta [mbind m_bind get modify].
  by destruct (attempt_loop _ _ _ _ _ _ _ _ _ _) as [w' []]; destruct Hwp.
Qed.
End once.

Section lives.
Context {V O T : Type} `{Rendering V, Sha256}.
Context (json_null : V) (to_value : T -> result str V) (from_value : V -> result str T).

(** Under a quiet or standing record nothing that took effect is denied. *)
Lemma plain_not_hidden (e : Effect (V:=V) (T:=T)) (d : Durable (V:=V) (O:=O)) : calm json_null d \/ (exists key, standing json_null e key d) ->
  length d.2 <= 1.
Proof.
  intros [[_ Hd]|[key [_ [Hd|Hd]]]]; rewrite Hd; simpl; lia.
Qed.

(** C1. A mutation happens at most once.  For a mutating effect whose unknown
    outcomes may not be repeated (the operator must decide, or a probe is
    asked), over a first pass and any number of resumes, each of which may die
    at any interaction, find its appends refused or unacknowledged, and be
    throttled, denied or withheld: as long as callees do not report a call that
    took effect as not having happened and probes do not deny one, the effect
    takes effect at most once.  With a probe this needs that no pass ends with
    a call the journal denies (see [probe_window]); without one it does not. *)
Theorem at_most_once c (e : Effect (V:=V) (T:=T)) outbound budget first later :
  mutates e = true -> repeats (recovery e) = false -> Forall honest (first :: later) ->
  let lived := life (O:=O) json_null to_value from_value c e outbound budget first later in
  (recovery e = Reconcile -> Forall (fun d => ~ hidden json_null d) lived) ->
  Forall (fun d => length d.2 <= 1) lived.
Proof.
  intros Hmut Hrec Hh lived Hwin. apply Forall_cons in Hh as [Hfirst Hlater].
  assert (forall d : Durable (V:=V) (O:=O), accounted json_null e d -> (recovery e = Reconcile -> ~ hidden json_null d) ->
    calm json_null d \/ exists key, standing json_null e key d) as Hplain.
  { intros d [?|[?|[Hr Hd]]] Hn; [by left|by right|]. by destruct (Hn Hr). }
  subst lived. unfold life in *.
  set (d0 := survives _) in *.
  assert (accounted json_null e d0) as Hd0.
  { by eapply (pass_once json_null to_value from_value (with_mode c Live)). }
  clearbody d0. revert d0 Hd0 Hwin. induction Hlater as [|env later Henv _ IH]; intros d0 Hd0 Hwin; simpl in *.
  - constructor; [|constructor]. apply (plain_not_hidden e), Hplain; [done|].
    intros Hr. specialize (Hwin Hr). by apply Forall_cons in Hwin as [? _].
  - assert (calm json_null d0 \/ exists key, standing json_null e key d0) as Hp0.
    { apply Hplain; [done|]. intros Hr. specialize (Hwin Hr). by apply Forall_cons in Hwin as [? _]. }
    constructor; [by apply (plain_not_hidden e)|]. apply IH.
    + by apply (pass_once json_null to_value from_value (with_mode c Resume)).
    + intros Hr. specialize (Hwin Hr). by apply Forall_cons in Hwin as [_ ?].
Qed.
End lives.

(** ** Witnesses, and the window *)

Module DispatchOnceWitness.
Import Payment.

(** The call goes out, takes effect, and the process dies before the answer is
    recorded; a resume finds the orphan and leaves it to the operator. *)
Definition operated : Effect (V:=nat) (T:=nat) := effect true RequiresOperator 3.
Definition crash_env : Env (T:=nat) := mk_env (stored 1) [mk_called true (Ok 5)] [] [].
Definition idle_env : Env (T:=nat) := mk_env (stored 9) [mk_called true (Ok 5)] [] [].

Lemma crash_honest : Forall honest [crash_env; idle_env].
Proof. repeat constructor. Qed.

Lemma at_most_once_witness :
  Forall (fun d => length d.2 <= 1)
    (life (O:=unit) 0 of_nat of_nat (config no_rule Live) operated None unlimited crash_env [idle_env])
  /\ (length ∘ snd <$> life (O:=unit) 0 of_nat of_nat (config no_rule Live) operated None unlimited
        crash_env [idle_env]) = [1; 1].
Proof.
  split.
  - apply (at_most_once 0 of_nat of_nat (config no_rule Live) operated None unlimited crash_env [idle_env]).
    + reflexivity.
    + reflexivity.
    + exact crash_honest.
    + intros [=].
  - vm_compute. reflexivity.
Defined.

(** With a probe: the first pass dies after announcing; the resume asks, hears
    that nothing happened, performs under the same key, and dies before the
    answer is recorded. *)
Definition asked : Effect (V:=nat) (T:=nat) := effect true Reconcile 3.
Definition announced_env : Env (T:=nat) := mk_env (stored 1) [] [] [].
Definition truthful (landed : bool) : result EffectError (Reconciliation nat) :=
  if landed then Ok (ProbeLanded 5) else Ok ProbeDidNotHappen.
Definition reperformed_env : Env (T:=nat) := mk_env (stored 1) [mk_called true (Ok 5)] [truthful] [].
Definition again_env : Env (T:=nat) := mk_env (stored 9) [mk_called true (Ok 5)] [truthful] [].

Definition window_life := life (O:=unit) 0 of_nat of_nat (config no_rule Live) asked None unlimited
  announced_env [reperformed_env; again_env].

(** The re-performed orphan's window.  A probe's "it did not happen" settles
    an orphan's entry, and the re-performance it permits is not announced
    again; if its own outcome is then lost, the journal denies a call that took
    effect.  Under truthful callees and probes the next resume performs the
    mutation a second time, and meanwhile no effect of that history is listed
    as in doubt. *)
Theorem probe_window :
  Forall honest [announced_env; reperformed_env; again_env]
  /\ (length ∘ snd <$> window_life) = [0; 1; 2]
  /\ (undecided_effects ∘ fst <$> window_life !! 1) = Some [].
Proof.
  split_and!; [|vm_compute; reflexivity..]. repeat (constructor; try done).
Qed.

(** A crash after the failure's record and before its probe: the resume never
    asks, and reports that the probe could not establish the outcome. *)
Definition unasked_env : Env (T:=nat) := mk_env (stored 2) [timed_out true] [] [].
Definition unasked := run_pass no_rule Resume asked
  (survives (run_pass no_rule Live asked ([], []) unasked_env).1) again_env.
Example quarantined_without_asking :
  (exists key, unasked.2 = Throw _ (Undecidable key Reconcile
    (lit "timeout — the reconciliation probe could not establish whether it landed")))
  /\ length (probes (env unasked.1)) = 1.
Proof. vm_compute. split; [by eexists|reflexivity]. Qed.
End DispatchOnceWitness.
