(* ===== verification/DispatchReplay.v ===== *)
(** * A live answer is what a strict pass reads back

    The other half of [Dispatch]: if a first pass answers, a strict pass over
    the records it left gives the same value under the same declaration, asks
    nothing of the outside, writes nothing, and has spent what the first pass
    spent. *)

From S2P Require Import Prelude Digest EffectKey Label SinkGate Budget Replay Retry Dispatch DispatchSafety DispatchOnce.

Section replay.
Context {V O T : Type} `{Rendering V, Sha256}.
Context (json_null : V) (to_value : T -> result str V) (from_value : V -> result str T).

Abbreviation World := (Dispatch.World (V:=V) (O:=O) (T:=T)).
Abbreviation Journaled := (Replay.Journaled (V:=V) (O:=O) (C:=ContentVerdict)).
Abbreviation EffectReplay := (Replay.EffectReplay (V:=V) (O:=O) (C:=ContentVerdict)).
Implicit Types (w : World) (en : Journaled) (es : list Journaled).

Context (c : Config (V:=V)) (e : Dispatch.Effect (V:=V) (T:=T)) (ord : N).
(** What the output type's serde promises of canonical bytes, and meters
    inside 64 bits. *)
Context (Hcodec : forall v j, to_value v = Ok j -> from_value (as_written j) = Ok v).
Context (Hspend : forall v, spend_ok (output_spend e v)).

Definition metered (env : Env (T:=T)) : Prop :=
  Forall (fun cl => match returned cl with Err f => spend_ok (error_spend f) | Ok _ => True end) (calls env).

(** ** The history an answer leaves *)

Definition retried (r : EffectReplay) : Prop :=
  match r with Failed _ _ _ _ _ _ None => True | _ => False end.

(** Failed attempts numbered on from [attempt], up to the one [last] is at. *)
Fixpoint attempts_from (attempt last : N) (es : list Journaled) : Prop :=
  match es with
  | [] => attempt = last
  | en :: es =>
      j_key en = attempt_key c e ord attempt /\ retried (j_replay en)
      /\ attempts_from (succ_attempt attempt) last es
  end.

Lemma attempts_snoc es : forall attempt last en, attempts_from attempt last es ->
  j_key en = attempt_key c e ord last -> retried (j_replay en) ->
  attempts_from attempt (succ_attempt last) (es ++ [en]).
Proof.
  induction es as [|en0 es IH]; intros attempt last en; simpl.
  - by intros -> ? ?.
  - intros (? & ? & ?) ? ?. split_and!; [done|done|]. by apply IH.
Qed.

(** What reading an entry back does to a ledger's tally. *)
Definition billed_entry (l : Ledger) en : Ledger := replay_effect l (replay_spend (j_replay en)) (outbound_bytes e).
Definition tally (l : Ledger) (es : list Journaled) : Ledger := foldl billed_entry l es.

Lemma consumed_replay l l' s o : consumed l = consumed l' -> consumed (replay_effect l s o) = consumed (replay_effect l' s o).
Proof. unfold replay_effect, with_consumed. simpl. by intros ->. Qed.

(** Taking the slot and then adding the spend is reading the entry back. *)
Lemma consumed_live l s o : consumed (record_live_spend (count_effect l o) s) = consumed (replay_effect l s o).
Proof. done. Qed.

Lemma plus_zero_r s : spend_ok s -> plus s spend_zero = s.
Proof. unfold plus, spend_zero, spend_ok, u64_ok, sat_add, u64_max. destruct s. simpl. intros. f_equal; lia. Qed.
Lemma plus_zero_l s : spend_ok s -> plus spend_zero s = s.
Proof. unfold plus, spend_zero, spend_ok, u64_ok, sat_add, u64_max. destruct s. simpl. intros. f_equal; lia. Qed.

(** ** A live pass, record by record *)

Abbreviation wpk := (wp (V:=V) (O:=O) (T:=T) (fun _ => True)).
Abbreviation entries_of := (entries_of (O:=O) json_null).
Context (l0 : Ledger).

(** What a step may change and the history not notice. *)
Definition alike w w' : Prop :=
  journal w' = journal w /\ ledger w' = ledger w /\ (metered (env w) -> metered (env w')).
Lemma alike_refl w : alike w w.
Proof. by split_and!. Qed.
Lemma alike_trans w1 w2 w3 : alike w1 w2 -> alike w2 w3 -> alike w1 w3.
Proof. intros (? & ? & ?) (? & ? & ?). split_and!; [congruence|congruence|auto]. Qed.

Lemma abandoning_alike d w : wpk (starts_no_work_when_abandoning c d) (fun _ => alike w) w.
Proof. unfold starts_no_work_when_abandoning. case_match; [done|]. apply wp_ret, alike_refl. Qed.

Lemma withdrawal_alike key w : wpk (withdrawal_at_hop c key) (fun _ => alike w) w.
Proof.
  unfold withdrawal_at_hop. case_match; [apply wp_ret, alike_refl|]. apply wp_bind. unfold wp at 1, read_halts.
  destruct (hops (env w)) as [|[] hs]; try done. by apply wp_skip.
Qed.

Lemma authorize_same key d m out w : wpk (authorize c key d m out) (fun _ w' => w' = w) w.
Proof.
  unfold authorize. destruct (policy c); [|by apply wp_ret]. apply wp_bind, wp_ret.
  repeat case_match; try done; apply wp_skip; intros ? ?; apply wp_skip; intros ? ?; repeat case_match; done.
Qed.

Lemma admit_counts key b w : wpk (admit_attempt c key b) (fun _ w' => w' = set_ledger w (count_effect (ledger w) b)) w.
Proof.
  unfold admit_attempt. apply wp_bind, wp_ret. unfold admit_effect. destruct (can_admit_effect _ _); simpl.
  - done.
  - by apply wp_skip.
Qed.

Lemma gate_counts key d m out b w :
  wpk (gate c key d m out b) (fun _ w' => w' = set_ledger w (count_effect (ledger w) b)) w.
Proof.
  unfold gate. eapply wp_seq; [apply authorize_same|]. intros _ w1 ->. case_match; [done|]. apply admit_counts.
Qed.

(** Between attempts: so many failed, and the ledger has billed them. *)
Definition between (attempt : N) w : Prop :=
  exists es, entries_of (journal w) = es /\ attempts_from FIRST_ATTEMPT attempt es
    /\ consumed (ledger w) = consumed (tally l0 es) /\ spend_ok (spend (consumed (tally l0 es)))
    /\ metered (env w).
(** Inside one: its slot is taken, its entry reads [r], and [s] is billed. *)
Definition inside (attempt : N) (r : EffectReplay) (s : Spend) w : Prop :=
  exists es en, entries_of (journal w) = es ++ [en] /\ attempts_from FIRST_ATTEMPT attempt es
    /\ j_key en = attempt_key c e ord attempt /\ j_replay en = r
    /\ consumed (ledger w) = consumed (record_spend (count_effect (tally l0 es) (outbound_bytes e)) s)
    /\ spend_ok s /\ spend_ok (spend (consumed (tally l0 es))) /\ metered (env w).

Lemma inside_alike attempt r s w w' : alike w w' -> inside attempt r s w -> inside attempt r s w'.
Proof.
  intros (Hj & Hl & Hm) (es & en & ? & ? & ? & ? & ? & ? & ? & ?). exists es, en. rewrite Hj, Hl. split_and!; auto.
Qed.

Lemma between_alike attempt w w' : alike w w' -> between attempt w -> between attempt w'.
Proof. intros (Hj & Hl & Hm) (es & ? & ? & ? & ? & ?). exists es. rewrite Hj, Hl. split_and!; auto. Qed.

(** More spend on the attempt under way. *)
Lemma inside_bill attempt r s s' w : spend_ok s' -> inside attempt r s w ->
  inside attempt r (plus s s') (set_ledger w (record_live_spend (ledger w) s')).
Proof.
  intros Hs' (es & en & ? & ? & ? & ? & Hc & Hs & Ht & Hm). exists es, en. split_and!; try done.
  - simpl. rewrite Hc. simpl. unfold with_spend. simpl. f_equal. by rewrite plus_assoc.
  - by apply plus_ok.
Qed.

(** A terminal record rewrites the entry under way. *)
Lemma inside_settle attempt r s r' w kind :
  (forall cur seq, apply json_null cur (attempt_key c e ord attempt) seq (written kind)
    = settle cur (attempt_key c e ord attempt) r') ->
  inside attempt r s w ->
  inside attempt (add_spend r' (replay_spend r)) s (put c (attempt_key c e ord attempt) kind w).
Proof.
  intros Hkind (es & en & He & Ha & Hk & Hr & Hc & Hs & Ht & Hm). exists es, (settled r' en).
  split_and!; try done.
  - rewrite entries_put, Hkind. simpl. unfold DispatchOnce.entries_of in He. rewrite He. apply update_last_snoc.
    unfold at_key. by apply bool_decide_eq_true.
  - unfold settled. simpl. by rewrite Hr.
Qed.

(** A failed attempt that will be followed by another. *)
Lemma inside_between attempt r s w : retried r -> replay_spend r = s -> inside attempt r s w ->
  between (succ_attempt attempt) w.
Proof.
  intros Hret Hsp (es & en & He & Ha & Hk & Hr & Hc & Hs & Ht & Hm). exists (es ++ [en]). split_and!; [done| | | |done].
  - apply attempts_snoc; [done|done|by rewrite Hr].
  - unfold tally. rewrite foldl_app. simpl. unfold billed_entry at 1. by rewrite Hr, Hsp, Hc.
  - unfold tally. rewrite foldl_app. simpl. rewrite Hr, Hsp. by apply plus_ok.
Qed.

Lemma retried_not_withheld attempt last es : attempts_from attempt last es ->
  Forall (fun en => is_withheld (j_replay en) = false) es.
Proof.
  revert attempt. induction es as [|en es IH]; intros attempt; [constructor|].
  intros (_ & Hr & Ha). constructor; [|by eapply IH]. by destruct (j_replay en).
Qed.

Lemma between_started attempt d m w es :
  entries_of (journal w) = es -> attempts_from FIRST_ATTEMPT attempt es ->
  consumed (ledger w) = consumed (count_effect (tally l0 es) (outbound_bytes e)) ->
  spend_ok (spend (consumed (tally l0 es))) -> metered (env w) ->
  inside attempt (Orphan (recovery e)) spend_zero
    (put c (attempt_key c e ord attempt) (EffectStarted d (recovery e) m attempt) w).
Proof.
  intros He Ha Hc Ht Hm. exists es, (mk_journaled (attempt_key c e ord attempt)
    (Z.of_nat (S (length (journal w)))) (Some (mk_attempted (desc_kind d) attempt)) (Orphan (recovery e))).
  split_and!; [|exact Ha|done|done| |apply spend_zero_ok|done|done].
  - rewrite entries_put. simpl. f_equal. unfold DispatchOnce.entries_of in He. rewrite He.
    apply retried_not_withheld in Ha. clear -Ha. induction Ha as [|en es Hen _ IH]; [done|].
    rewrite filter_cons_True; [by rewrite IH|]. rewrite Hen. by rewrite andb_false_r.
  - simpl. rewrite Hc. simpl. unfold with_spend. simpl. by rewrite plus_zero_r.
Qed.

Lemma try_append_ret key kind w :
  wpk (try_append c key kind) (fun r w' => r = Ok tt -> exists w1, alike w w1 /\ w' = put c key kind w1) w.
Proof.
  unfold wp, try_append. destruct (appends (env w)) as [|[] acks]; try done.
  intros _. exists (set_appends w acks). by split.
Qed.

Lemma append_ret key kind w :
  wpk (append_effect c key kind) (fun _ w' => exists w1, alike w w1 /\ w' = put c key kind w1) w.
Proof.
  unfold append_effect. eapply wp_seq; [apply try_append_ret|]. intros [[]|d] w1 Hw1; [|done]. apply wp_ret. auto.
Qed.

Lemma perform_alike key w : metered (env w) -> wpk (perform key) (fun r w' =>
  alike w w' /\ forall f, r = Err f -> spend_ok (error_spend f)) w.
Proof.
  intros Hm. unfold wp, perform. destruct (calls (env w)) as [|cl cls] eqn:Hc; [done|].
  unfold metered in Hm. rewrite Hc in Hm. apply Forall_cons in Hm as [Hcl Hcls].
  split; [by destruct (took_effect cl); split_and!; [..|intros _; exact Hcls]|]. intros f Hf. by rewrite Hf in Hcl.
Qed.

Lemma arrival_ret content w : wpk (arrival_refusal content) (fun _ w' => w' = w /\ content ≫= cv_refused = None) w.
Proof.
  unfold arrival_refusal. destruct (content ≫= cv_refused) as [[]|]; [|by apply wp_ret]. by apply wp_skip.
Qed.

(** The two ways an attempt's own records leave its entry. *)
Definition answers_as (v : T) (d : DeclaredOutput) (r : EffectReplay) : Prop :=
  exists j sp d0 content, r = Done (as_written j) None None sp d0 content /\ to_value v = Ok j
    /\ content ≫= cv_refused = None
    /\ d = mk_declared (declared_trust d0) (verdict_raise content (declared_sensitivity d0)).
Definition ended (attempt : N) (P : EffectReplay -> Prop) w : Prop :=
  exists r, P r /\ inside attempt r (replay_spend r) w.

Lemma ended_alike attempt P w w' : alike w w' -> ended attempt P w -> ended attempt P w'.
Proof. intros Ha (r & ? & ?). exists r. split; [done|]. by eapply inside_alike. Qed.

Lemma perform_once_ends attempt d m w es :
  entries_of (journal w) = es -> attempts_from FIRST_ATTEMPT attempt es ->
  consumed (ledger w) = consumed (count_effect (tally l0 es) (outbound_bytes e)) ->
  spend_ok (spend (consumed (tally l0 es))) -> metered (env w) ->
  d = descriptor e -> m = true ->
  wpk (perform_once to_value c e (attempt_key c e ord attempt) attempt m) (fun r w' => match r with
    | Ok v => ended attempt (answers_as v (raised (declared_output e) (source_raise w'))) w'
    | Err f => ended attempt retried w' end) w.
Proof.
  intros He Ha Hc Ht Hm -> ->. unfold perform_once.
  eapply (wp_seq _ _ _ (fun _ => inside attempt (Orphan (recovery e)) spend_zero)).
  { eapply wp_mono; [apply append_ret|done|]. intros _ w' (w1 & (Hj & Hl & Hm1) & ->).
    apply (between_started attempt _ _ w1 es); [by rewrite Hj|done|by rewrite Hl|done|auto]. }
  intros _ w1 Hw1. assert (metered (env w1)) as Hm1 by (destruct Hw1 as (? & ? & ? & ? & ? & ? & ? & ? & ? & ?); done).
  eapply wp_seq; [by apply perform_alike|]. intros [v|f] w2 [Hal Hf]; apply (inside_alike _ _ _ _ _ Hal) in Hw1.
  - destruct (to_value v) as [j|] eqn:Hj; [|done].
    apply wp_bind. apply (wp_ret (fun _ => True) tt).
    eapply inside_bill in Hw1; [|apply (Hspend v)]. rewrite plus_zero_l in Hw1 by done.
    set (w3 := set_ledger w2 _) in *. set (content := source_verdict c _ j).
    eapply wp_seq; [apply try_append_ret|]. intros [[]|dd] w4 Hw4; [|done]. destruct (Hw4 eq_refl) as (w5 & Hal5 & ->).
    eapply wp_seq; [apply arrival_ret|]. intros _ w6 [-> Hcont]. apply wp_bind. apply (wp_ret (fun _ => True) tt).
    apply wp_ret. apply (inside_alike _ _ _ _ _ Hal5) in Hw1.
    eapply (inside_settle _ _ _ _ w5
      (EffectDone j None None (output_spend e v) (declared_output e) content)) in Hw1; [|done].
    exists (Done (as_written j) None None (plus (output_spend e v) spend_zero) (declared_output e) content). split.
    + by exists j, (plus (output_spend e v) spend_zero), (declared_output e), content.
    + simpl in *. rewrite plus_zero_r in * by done. eapply inside_alike; [|exact Hw1]. by split_and!.
  - apply wp_bind. apply (wp_ret (fun _ => True) tt). specialize (Hf f eq_refl).
    eapply inside_bill in Hw1; [|exact Hf]. rewrite plus_zero_l in Hw1 by done.
    set (w3 := set_ledger w2 _) in *.
    eapply wp_seq; [apply try_append_ret|]. intros [[]|dd] w4 Hw4; [|done]. destruct (Hw4 eq_refl) as (w5 & Hal5 & ->).
    apply (inside_alike _ _ _ _ _ Hal5) in Hw1.
    eapply (inside_settle _ _ _ _ w5 (failure_record e f)) in Hw1; [|done]. simpl in Hw1. rewrite plus_zero_r in Hw1 by done.
    assert (unreproducible f = None -> ended attempt retried (put c (attempt_key c e ord attempt) (failure_record e f) w5)) as Hend.
    { intros Hu. eexists. split; [|exact Hw1]. simpl. by rewrite Hu. }
    destruct f; try (apply wp_ret; by apply Hend). by apply wp_skip.
Qed.

Lemma inside_ok attempt r s w : inside attempt r s w -> spend_ok s /\ metered (env w).
Proof. by intros (? & ? & ? & ? & ? & ? & ? & ? & ? & ?). Qed.

Lemma reconcile_ends attempt w : ended attempt retried w ->
  wpk (reconcile_and_record to_value c e (attempt_key c e ord attempt)) (fun r => match r with
    | ProbeLanded v => ended attempt (answers_as v (declared_output e))
    | _ => ended attempt retried end) w.
Proof.
  intros Hw. unfold reconcile_and_record.
  eapply (wp_seq _ _ _ (fun _ => ended attempt retried)).
  { unfold wp, reconcile. destruct (probes (env w)); [done|]. by eapply ended_alike. }
  intros answer w1 (r & Hret & Hw1). destruct (inside_ok _ _ _ _ Hw1) as [Hs _].
  destruct (match answer with Ok r => r | Err _ => ProbeInconclusive end) as [v| |].
  - apply wp_bind, wp_bind. apply (wp_ret (fun _ => True) tt).
    eapply inside_bill in Hw1; [|apply (Hspend v)]. set (w2 := set_ledger w1 _) in *.
    destruct (to_value v) as [j|] eqn:Hj; [|done]. apply wp_ret. simpl.
    eapply wp_seq; [apply append_ret|]. intros _ w3 (w4 & Hal & ->). apply wp_ret.
    apply (inside_alike _ _ _ _ _ Hal) in Hw1.
    eapply (inside_settle _ _ _ _ w4 (EffectReconciled Landed (Some j) (output_spend e v) (Some (declared_output e))))
      in Hw1; [|done]. simpl in Hw1. rewrite (plus_comm (replay_spend r)) in Hw1. eexists. split; [|exact Hw1].
    exists j, (plus (output_spend e v) (replay_spend r)), (declared_output e), None. split_and!; [done..|].
    by destruct (declared_output e).
  - apply wp_bind, wp_ret. simpl. eapply wp_seq; [apply append_ret|]. intros _ w3 (w4 & Hal & ->). apply wp_ret.
    apply (inside_alike _ _ _ _ _ Hal) in Hw1.
    eapply (inside_settle _ _ _ _ w4 (EffectReconciled DidNotHappen None spend_zero None)) in Hw1; [|done].
    simpl in Hw1. rewrite plus_zero_l in Hw1 by done. eexists. by split; [|exact Hw1].
  - apply wp_bind, wp_ret. simpl. eapply wp_seq; [apply append_ret|]. intros _ w3 (w4 & Hal & ->). apply wp_ret.
    apply (inside_alike _ _ _ _ _ Hal) in Hw1.
    eapply (inside_settle _ _ _ _ w4 (EffectReconciled InDoubt None spend_zero None)) in Hw1; [|done].
    simpl in Hw1. rewrite plus_zero_l in Hw1 by done. eexists. by split; [|exact Hw1].
Qed.

Lemma failed_attempt_ends attempt f w : ended attempt retried w ->
  wpk (failed_attempt_verdict to_value c e (attempt_key c e ord attempt) attempt f) (fun r => match r with
    | Some v => ended attempt (answers_as v (declared_output e))
    | None => ended attempt retried end) w.
Proof.
  intros Hw. unfold failed_attempt_verdict. case_match; [|by case_match].
  eapply wp_seq; [by apply reconcile_ends|]. intros [v| |] w1 Hw1; [by apply wp_ret|by case_match..].
Qed.

Lemma ended_between attempt w : ended attempt retried w -> between (succ_attempt attempt) w.
Proof. intros (r & Hr & Hw). by eapply inside_between. Qed.

Lemma live_ends outbound attempt advice w : between attempt w ->
  wpk (live_attempt to_value c e outbound ord attempt advice) (fun r => match r with
    | inl (v, d) => ended attempt (answers_as v d)
    | inr _ => between (succ_attempt attempt) end) w.
Proof.
  intros Hw. unfold live_attempt.
  eapply wp_seq; [apply abandoning_alike|]. intros ? w1 Hw1. apply (between_alike _ _ _ Hw1) in Hw.
  eapply (wp_seq _ _ _ (fun _ => between attempt)).
  { case_match; [|by apply wp_ret]. eapply wp_mono; [apply withdrawal_alike|done|]. intros ? w2 Hw2.
    exact (between_alike _ _ _ Hw2 Hw). }
  intros ? w2 (es & He & Ha & Hc & Ht & Hm). eapply wp_seq; [apply gate_counts|]. intros _ w3 ->.
  set (w3 := set_ledger w2 _).
  eapply (wp_seq _ _ _ (fun _ => alike w3)).
  { case_match; [apply wp_ret, alike_refl|]. by split_and!. }
  intros ? w4 (Hj & Hl & Hm4). eapply wp_seq; [eapply (perform_once_ends attempt (descriptor e) true w4 es)|].
  - by rewrite Hj.
  - done.
  - rewrite Hl. simpl. by rewrite Hc.
  - done.
  - auto.
  - done.
  - done.
  - intros [v|f] w5 Hw5; cbv beta iota in Hw5.
    + apply wp_bind. unfold wp at 1, take_raise. apply wp_ret. eapply ended_alike; [|exact Hw5]. by split_and!.
    + eapply wp_seq; [by apply failed_attempt_ends|]. intros [v|] w6 Hw6; apply wp_ret; [done|].
      by apply ended_between.
Qed.

Lemma loop_answers fuel outbound : mode c = Live -> forall attempt advice w, between attempt w ->
  wpk (attempt_loop to_value from_value fuel c e outbound ord attempt advice)
    (fun a w' => exists last, ended last (answers_as a.1 a.2) w') w.
Proof.
  intros Hm. induction fuel as [|fuel IH]; intros attempt advice w Hw; [done|].
  cbn [attempt_loop]. rewrite Hm. simpl. apply wp_bind, wp_ret.
  eapply wp_seq; [by apply live_ends|]. intros [[v d]|adv] w1 Hw1; [|by apply IH].
  apply wp_ret. by exists attempt.
Qed.

(** ** Reading it back *)

Lemma next_read attempt key cur en es : rest cur = en :: es -> j_key en = key ->
  next cur key (descriptor e) attempt = (mk_cursor (effects cur) (S (pos cur)) (diverged cur), Ok (Some (j_replay en)))
  /\ rest (mk_cursor (effects cur) (S (pos cur)) (diverged cur)) = es.
Proof.
  intros Hr <-. apply rest_cons in Hr as [He Hd]. unfold next. rewrite He. by rewrite decide_True.
Qed.

Lemma strict_reads cs outbound v d : cs = with_mode c Strict -> forall es fuel attempt last en advice w,
  rest (cursor w) = es ++ [en] -> attempts_from attempt last es -> length es < fuel ->
  j_key en = attempt_key c e ord last -> answers_as v d (j_replay en) ->
  exists cur, attempt_loop to_value from_value fuel cs e outbound ord attempt advice w
    = (set_ledger (set_cursor w cur) (tally (ledger w) (es ++ [en])), Ret _ (v, d)).
Proof.
  intros ->. induction es as [|en0 es IH]; intros fuel attempt last en advice w Hrest Ha Hf Hk Hans;
    (destruct fuel as [|fuel]; [simpl in Hf; lia|]); cbn [attempt_loop]; simpl in Ha.
  - subst attempt. destruct Hans as (j & sp & d0 & content & Hr & Hj & Hcont & ->).
    destruct (next_read last (attempt_key c e ord last) (cursor w) en [] Hrest Hk) as [Hn _].
    rewrite Hr in Hn. cbn -[next]. unfold replayed_attempt, next_recorded.
    cbv beta iota delta [mbind m_bind]. change (attempt_key (with_mode c Strict) e ord last) with (attempt_key c e ord last).
    rewrite Hn. unfold bill_replayed, modify, arrival_refusal. rewrite Hcont, (Hcodec _ _ Hj).
    eexists. cbv beta iota delta [mret m_ret]. unfold tally, billed_entry. simpl. by rewrite Hr.
  - destruct Ha as (Hk0 & Hr0 & Ha).
    destruct (next_read attempt (attempt_key c e ord attempt) (cursor w) en0 (es ++ [en]) Hrest Hk0) as [Hn Hrest'].
    set (cur := mk_cursor _ _ _) in *.
    edestruct (IH fuel (succ_attempt attempt) last en advice
      (set_ledger (set_cursor w cur) (billed_entry (ledger w) en0))) as [cur' Hcur'];
      [exact Hrest'|done|simpl in Hf; lia|done|done|].
    exists cur'. cbn [is_replaying mode with_mode]. unfold replayed_attempt, next_recorded.
    cbv beta iota delta [mbind m_bind]. change (attempt_key (with_mode c Strict) e ord attempt) with (attempt_key c e ord attempt).
    rewrite Hn. destruct (j_replay en0) as [|er di sp pe co ac [un|]| | | |] eqn:Hj0; try done.
    unfold replay_recorded_failure, bill_replayed, modify, get, lift, recorded_failure.
    cbv beta iota delta [mbind m_bind].
    assert (peek_is cur (attempt_key c e ord (succ_attempt attempt)) = true) as Hpeek.
    { unfold peek_is. destruct es as [|en1 es].
      - simpl in Ha. subst last. apply rest_cons in Hrest' as [-> _]. by apply bool_decide_eq_true.
      - destruct Ha as (Hk1 & _). apply rest_cons in Hrest' as [-> _]. by apply bool_decide_eq_true. }
    simpl in *. change (attempt_key (with_mode c Strict) e) with (attempt_key c e). rewrite Hpeek.
    cbv beta iota delta [mret m_ret]. unfold billed_entry in Hcur' at 1. rewrite Hj0 in Hcur'. simpl in Hcur'.
    by rewrite Hcur'.
Qed.
End replay.

Section answers.
Context {V O T : Type} `{Rendering V, Sha256}.
Context (json_null : V) (to_value : T -> result str V) (from_value : V -> result str T).

(** C2. An answer is what a strict pass reads back.  If a first pass answers an
    effect, after whatever retries, waits and probes it took, a strict pass over
    the records it left returns the same value under the same declaration; it
    calls nobody, waits for nothing, writes nothing, and ends having consumed
    exactly what the first pass consumed, whatever its surroundings would have
    said.  The journal holds a value's canonical bytes: the output type must
    read its own JSON back out of those, which a raw JSON value holding a double
    such as [100.0] does not (see [raw_output_differs]); and reported spend must
    be in range. *)
Theorem answer_replays (c : Config (V:=V)) (e : Effect (V:=V) (T:=T)) outbound budget env env'
    (w : World (V:=V) (O:=O) (T:=T)) answer :
  mode c = Live -> (forall v j, to_value v = Ok j -> from_value (as_written j) = Ok v) ->
  (forall v, spend_ok (output_spend e v)) -> metered env ->
  pass json_null to_value from_value c e outbound budget ([], []) env = (w, Ret _ answer) ->
  exists w', pass json_null to_value from_value (with_mode c Strict) e outbound budget (survives w) env'
      = (w', Ret _ answer)
    /\ survives w' = survives w /\ Dispatch.env w' = env' /\ slept w' = []
    /\ consumed (ledger w') = consumed (ledger w).
Proof.
  intros Hm Hcodec Hspend Hmet Hpass. unfold pass, effect_unlabelled in *.
  cbv beta iota delta [mbind m_bind get modify] in *.
  assert (exists last, ended json_null c e 0%N (ledger_new budget) last
    (answers_as to_value answer.1 answer.2) w) as (last & r & Hans & es & en & He & Ha & Hk & Hr & Hc & Hs & Ht & _).
  { change (ordinal (open_pass json_null budget ([], []) env)) with 0%N in Hpass.
    match type of Hpass with attempt_loop _ _ ?f _ _ _ _ _ _ ?w0 = _ =>
      pose proof (loop_answers json_null to_value from_value c e 0%N Hspend (ledger_new budget) f outbound Hm
        FIRST_ATTEMPT None w0) as Hl end.
    unfold wp in Hl. rewrite Hpass in Hl. apply Hl. exists []. split_and!; try done; apply spend_zero_ok. }
  set (w0 := open_pass json_null budget (survives w) env').
  assert (rest (cursor w0) = es ++ [en]) as Hrest by (rewrite <- He; apply rest_open).
  subst r. destruct (strict_reads to_value from_value c e 0%N Hcodec _ outbound answer.1 answer.2 eq_refl es
    (enough e w0) FIRST_ATTEMPT last en None (set_ordinal w0 ((ordinal w0 + 1) mod 4294967296)%N)) as [cur Hcur];
    [exact Hrest|exact Ha| |exact Hk|exact Hans|].
  { unfold enough. rewrite Hrest, length_app. simpl. lia. }
  eexists. split; [rewrite <- surjective_pairing in Hcur; exact Hcur|]. split_and!; try done.
  simpl. rewrite Hc. unfold tally. rewrite foldl_app. done.
Qed.
End answers.

(** ** Witnesses *)

Module DispatchReplayWitness.
Import Payment.

Lemma busy_metered : metered busy_env.
Proof.
  repeat constructor; unfold u64_ok, u64_max; simpl; lia.
Qed.

Lemma answer_replays_witness : exists w', run_pass no_rule Strict (effect true RequiresOperator 3)
    (survives busy.1) (mk_env [] [] [] []) = (w', Ret _ (5, declared_untrusted))
  /\ survives w' = survives busy.1 /\ consumed (ledger w') = consumed (ledger busy.1).
Proof.
  destruct (answer_replays 0 of_nat of_nat (config no_rule Live) (effect true RequiresOperator 3) None unlimited
    busy_env (mk_env [] [] [] []) busy.1 (5, declared_untrusted)) as (w' & Hp & Hs & _ & _ & Hc).
  - reflexivity.
  - intros v j [= ->]. exact (f_equal Ok (nat_read_bytes j)).
  - intros v. unfold spend_ok, u64_ok, u64_max. simpl. lia.
  - exact busy_metered.
  - vm_compute. reflexivity.
  - exists w'. exact (conj Hp (conj Hs Hc)).
Defined.

(** An effect whose output is the JSON value itself.  A number here is an
    integer or a double of that value; both are written as its digits, and
    digits are read back as an integer. *)
Inductive Number := Int (n : nat) | Double (n : nat).
#[local] Instance number_rendering : Rendering Number := {|
  hex := @hex nat rendering;
  error_text := @error_text nat rendering;
  exceeded_text := @exceeded_text nat rendering;
  consumed_text := @consumed_text nat rendering;
  value_bytes x := match x with Int n | Double n => nat_bytes n end;
  value_read b := Int (nat_read b);
|}.
Definition raw : Effect (V:=Number) (T:=Number) :=
  mk_effect (mk_descriptor (lit "test.tool") (Int 1)) false Retry (attempts 1) true 0 declared_untrusted (fun _ => spend_zero) false.
Definition raw_pass (m : Pass) (d : Durable (V:=Number) (O:=unit)) (env : Env (T:=Number)) :=
  pass (Int 0) (fun x => Ok x) (fun x => Ok x)
    (mk_config m (lit "run") 0%N Forward false false (fun _ => false) None (fun _ _ => None)) raw None unlimited d env.
Definition raw_live := raw_pass Live ([], []) (mk_env (stored 2) [mk_called true (Ok (Double 100))] [] []).

(** The live pass answers the double it was given, a strict pass the integer
    its canonical bytes are. *)
Example raw_output_differs :
  raw_live.2 = Ret _ (Double 100, declared_untrusted)
  /\ (raw_pass Strict (survives raw_live.1) (mk_env [] [] [] [])).2 = Ret _ (Int 100, declared_untrusted).
Proof. vm_compute. split; reflexivity. Qed.

(** A content rule that classifies what arrives as [Secret]. *)
Definition classify (_ : nat) : option ContentVerdict := Some (mk_verdict [lit "iban"] (Some Secret) None).
Definition refuse (_ : nat) : option ContentVerdict := Some (mk_verdict [lit "iban"] None (Some (lit "iban", []))).
Definition read : Effect (V:=nat) (T:=nat) := effect false Retry 3.
Definition announced_read : Durable (V:=nat) (O:=unit) :=
  survives (run_pass classify Live read ([], []) (mk_env (stored 1) [] [] [])).1.
Definition recovered_read := run_pass classify Resume read announced_read (mk_env (stored 1) [mk_called true (Ok 5)] [] []).

(** The pass that re-performs an orphan answers under the declaration alone,
    and the pass that reads its record back under the rule's classification. *)
Example recovered_orphan_not_raised :
  recovered_read.2 = Ret _ (5, declared_untrusted)
  /\ (run_pass classify Strict read (survives recovered_read.1) (mk_env [] [] [] [])).2
     = Ret _ (5, mk_declared Untrusted Secret).
Proof. vm_compute. split; reflexivity. Qed.

(** A refusing rule stops an output that the call returns and not the same
    output when a probe recovers it. *)
Definition probed : Effect (V:=nat) (T:=nat) := effect true Reconcile 3.
Example probed_output_not_judged :
  (run_pass refuse Live probed ([], []) (mk_env (stored 2) [mk_called true (Ok 5)] [] [])).2
    = Throw _ (SPolicy (ContentRule (lit "iban") []))
  /\ (run_pass refuse Live probed ([], []) (mk_env (stored 3) [timed_out true] [fun _ => Ok (ProbeLanded 5)] [])).2
    = Ret _ (5, declared_untrusted).
Proof. vm_compute. split; reflexivity. Qed.
End DispatchReplayWitness.
