(* ===== verification/Groups.v ===== *)
(** * Effect groups ([src/src/runtime/group.rs])

    A group is several effects that take together, or not at all.  The group's
    state lives on the step context ([Cx]); the calls it makes of the context
    (dispatch an effect, append a record, commit the atomic members) are the
    class [Host], instantiated by the effect protocol in [GroupHost].  A skill is
    a term of [Skill], whose index says whether it holds the [EffectGroup]
    handle: the borrow that Rust checks.  [run_step] is a skill's body and
    [settle_abandoned_group] ([runtime/executor.rs]), which finishes what a
    dropped handle left open.

    [Saga] is the abstract contract: an automaton over what a group does to the
    outside.  Texts of refusals are abbreviated. *)

From S2P Require Import Prelude SinkGate Budget Replay Retry Dispatch.
From stdpp Require Import gmap.

Inductive GroupOutcome := Committed | Aborted | Quarantined.
#[export] Instance outcome_eq_dec : EqDecision GroupOutcome.
Proof. solve_decision. Defined.

Inductive GroupRecord :=
| GroupOpened (group : str) (resources : list str)
| GroupSettled (group : str) (outcome : GroupOutcome) (detail : option str).

(** The step errors a group meets: those of the effect protocol, a wait, and
    its own. *)
Inductive GroupError :=
| OfStep (e : StepError)
| Suspended
| SinkGateRequired (sink : str)
| GroupFootprint (group detail : str)
| GroupAborted (what : str)
| GroupUnsettled (group detail : str)
| CommitUnknown (detail : str).

Definition no_group : GroupError := GroupUnsettled [] (lit "the group was already settled").

Definition is_pause (e : GroupError) : bool :=
  match e with Suspended | OfStep (SWithheld _ _) | OfStep (SBudget _) => true | _ => false end.

Definition may_have_externalised (e : GroupError) : bool :=
  match e with
  | OfStep (Undecidable _ _ _) => true
  | OfStep (Unrecorded _ disposition _) => negb (bool_decide (disposition = DidNotHappen))
  | OfStep (SEffect inner) => negb (bool_decide (error_disposition inner = DidNotHappen))
  | _ => false
  end.

(** What a call of the context gives: an answer, an error, or the process died
    in it. *)
Inductive Answer (A : Type) := Got (a : A) | Raised (e : GroupError) | Dead.
Arguments Got {A}. Arguments Raised {A}. Arguments Dead {A}.

(** The step context as a group uses it: an effect past the group's own checks
    (the flag is [reversing]), a group record appended, the atomic members
    committed with the journal. *)
Class Host (W E V A : Type) := {
  dispatch : bool -> E -> W -> W * Answer V;
  append_group : GroupRecord -> W -> W * Answer unit;
  commit_atomic : str -> list A -> W -> W * Answer unit;
  store_is_atomic : W -> bool;
  kind : E -> str;
  mutates : E -> bool;
  binds_arguments : E -> bool;
  member_kind : A -> str;
  error_text : GroupError -> str;
}.

Record Invariant := mk_invariant { what : str; holds : bool }.

Inductive Outcome (V : Type) := OutDone (v : V) | OutReplan (reason : str) | OutFail (reason : str).
Arguments OutDone {V}. Arguments OutReplan {V}. Arguments OutFail {V}.
Inductive SkillError := SkStep (e : GroupError) | SkOther (detail : str).

Fixpoint join_with (sep : str) (l : list str) : str :=
  match l with [] => [] | [x] => x | x :: l => x ++ sep ++ join_with sep l end.

Section groups.
Context {W E V A : Type} `{Host W E V A}.

(** ** The state of a group *)

Record Reversal := mk_reversal { rv_resource : str; rv_kind : str; undo : E }.
Record Deferred := mk_deferred { df_resource : str; df_effect : E }.
Record AtomicMember := mk_atomic { am_resource : str; am_inner : A }.
Record OpenGroup := mk_open {
  og_name : str;
  og_resources : list str;
  reversals : list Reversal;
  og_deferred : list Deferred;
  og_atomic : list AtomicMember;
}.
Record RecordedGroup := mk_recorded { opened : nat; settled : nat }.

Record Cx := mk_cx {
  host : W;
  open_group : option OpenGroup;
  member_dispatch : bool;
  reversing : bool;
  recorded_groups : gmap str RecordedGroup;
}.
Definition set_host (w : W) (cx : Cx) : Cx := mk_cx w (open_group cx) (member_dispatch cx) (reversing cx) (recorded_groups cx).
Definition set_open (g : option OpenGroup) (cx : Cx) : Cx := mk_cx (host cx) g (member_dispatch cx) (reversing cx) (recorded_groups cx).
Definition set_member (b : bool) (cx : Cx) : Cx := mk_cx (host cx) (open_group cx) b (reversing cx) (recorded_groups cx).
Definition set_reversing (b : bool) (cx : Cx) : Cx := mk_cx (host cx) (open_group cx) (member_dispatch cx) b (recorded_groups cx).
Definition set_recorded (m : gmap str RecordedGroup) (cx : Cx) : Cx := mk_cx (host cx) (open_group cx) (member_dispatch cx) (reversing cx) m.

Definition G (T : Type) : Type := Cx -> Cx * Answer T.
#[export] Instance g_ret : MRet G := fun T a cx => (cx, Got a).
#[export] Instance g_bind : MBind G := fun S T k m cx =>
  match m cx with
  | (cx, Got a) => k a cx
  | (cx, Raised e) => (cx, Raised e)
  | (cx, Dead) => (cx, Dead)
  end.
Definition raise {T} (e : GroupError) : G T := fun cx => (cx, Raised e).
Definition get : G Cx := fun cx => (cx, Got cx).
Definition update (f : Cx -> Cx) : G unit := fun cx => (f cx, Got tt).
Definition on_host {T} (m : W -> W * Answer T) : G T := fun cx =>
  let '(w, r) := m (host cx) in (set_host w cx, r).
(** [match expr.await { Ok(..) => .., Err(..) => .. }]. *)
Definition attempt {T} (m : G T) : G (result GroupError T) := fun cx =>
  match m cx with
  | (cx, Got a) => (cx, Got (Ok a))
  | (cx, Raised e) => (cx, Got (Err e))
  | (cx, Dead) => (cx, Dead)
  end.

(** ** Dispatching *)

(** [StepCtx::effect] and the head of [effect_after_sink_gate]. *)
Definition effect (e : E) : G V :=
  if binds_arguments e then raise (SinkGateRequired (kind e)) else
  cx ← get;
  match open_group cx with
  | Some open =>
      if negb (member_dispatch cx) && mutates e
      then raise (GroupFootprint (og_name open)
             (kind e ++ lit " mutates and is not a member of the open group"))
      else on_host (dispatch (reversing cx) e)
  | None => on_host (dispatch (reversing cx) e)
  end.

Definition effect_as_member (e : E) : G V :=
  update (set_member true) ;;
  out ← attempt (effect e);
  update (set_member false) ;;
  match out with Ok v => mret v | Err e => raise e end.

Definition get_open : G OpenGroup :=
  cx ← get;
  match open_group cx with Some open => mret open | None => raise no_group end.
Definition group_name (cx : Cx) : str := from_option og_name [] (open_group cx).

Definition check_footprint (resource : str) : G unit :=
  open ← get_open;
  if bool_decide (resource ∈ og_resources open) then mret tt else
  raise (GroupFootprint (og_name open)
    (lit "member touches '" ++ resource ++ lit "', which is not among the declared resources ["
     ++ join_with (lit ", ") (og_resources open) ++ lit "]")).

Definition check_dispatchable (e : E) : option str :=
  if binds_arguments e
  then Some (kind e ++ lit " binds the arguments it sends, so it cannot be a group member")
  else None.

(** ** Settling *)

Definition settle_open_group (o : GroupOutcome) (detail : option str) : G unit :=
  open ← get_open;
  update (set_open None) ;;
  cx ← get;
  match recorded_groups cx !! og_name open with
  | Some r =>
      if bool_decide (0 < settled r)
      then update (set_recorded (<[og_name open := mk_recorded (opened r) (settled r - 1)]> (recorded_groups cx)))
      else on_host (append_group (GroupSettled (og_name open) o detail))
  | None => on_host (append_group (GroupSettled (og_name open) o detail))
  end.

(** The loop of [reverse_each], over the members newest first. *)
Fixpoint reverse_loop (total done_ : nat) (members : list Reversal) : G (result str unit) :=
  match members with
  | [] => mret (Ok tt)
  | m :: members =>
      r ← attempt (effect_as_member (undo m));
      match r with
      | Ok _ => reverse_loop total (S done_) members
      | Err e => mret (Err (lit "reversing '" ++ rv_kind m ++ lit "' on '" ++ rv_resource m
          ++ lit "' failed after " ++ decimal (N.of_nat done_) ++ lit " of " ++ decimal (N.of_nat total)
          ++ lit ": " ++ error_text e))
      end
  end.
Definition reverse_each (members : list Reversal) : G (result str unit) :=
  reverse_loop (length members) 0 (reverse members).

Definition abort_open_group (why : str) : G unit :=
  open ← get_open;
  update (set_open (Some (mk_open (og_name open) (og_resources open) [] [] (og_atomic open)))) ;;
  update (set_reversing true) ;;
  reversed ← reverse_each (reversals open);
  update (set_reversing false) ;;
  match reversed with
  | Ok _ => settle_open_group Aborted (Some why)
  | Err detail =>
      settle_open_group Quarantined (Some detail) ;;
      raise (GroupUnsettled (og_name open) detail)
  end.

(** ** The handle's operations *)

Definition group (name : str) (resources : list str) : G unit :=
  cx ← get;
  match open_group cx with
  | Some open => raise (GroupFootprint name (lit "group '" ++ og_name open ++ lit "' is still open"))
  | None =>
      if bool_decide (resources = [])
      then raise (GroupFootprint name (lit "a group must declare the resources it touches")) else
      (match recorded_groups cx !! name with
       | Some r =>
           if bool_decide (0 < opened r)
           then update (set_recorded (<[name := mk_recorded (opened r - 1) (settled r)]> (recorded_groups cx)))
           else on_host (append_group (GroupOpened name resources))
       | None => on_host (append_group (GroupOpened name resources))
       end) ;;
      update (set_open (Some (mk_open name resources [] [] [])))
  end.

Definition push_reversal (r : Reversal) : G unit :=
  open ← get_open;
  update (set_open (Some (mk_open (og_name open) (og_resources open) (reversals open ++ [r])
    (og_deferred open) (og_atomic open)))).

Definition reversible (resource : str) (e : E) (undo_of : V -> E) : G V :=
  check_footprint resource ;;
  out ← effect_as_member e;
  let undo := undo_of out in
  match check_dispatchable undo with
  | Some detail =>
      cx ← get;
      settle_open_group Quarantined (Some detail) ;;
      raise (GroupUnsettled (group_name cx) detail)
  | None =>
      push_reversal (mk_reversal resource (kind e) undo) ;;
      mret out
  end.

Definition read (resource : str) (e : E) : G V :=
  check_footprint resource ;;
  if mutates e
  then open ← get_open; raise (GroupFootprint (og_name open) (kind e ++ lit " mutates, so it cannot be a group read"))
  else effect_as_member e.

Definition deferred (resource : str) (e : E) : G unit :=
  check_footprint resource ;;
  match check_dispatchable e with
  | Some detail => cx ← get; raise (GroupFootprint (group_name cx) detail)
  | None =>
      open ← get_open;
      update (set_open (Some (mk_open (og_name open) (og_resources open) (reversals open)
        (og_deferred open ++ [mk_deferred resource e]) (og_atomic open))))
  end.

Definition atomic (resource : str) (m : A) : G unit :=
  check_footprint resource ;;
  cx ← get;
  if negb (store_is_atomic (host cx))
  then raise (GroupFootprint (group_name cx) (member_kind m ++ lit " must commit with the journal"))
  else
    open ← get_open;
    update (set_open (Some (mk_open (og_name open) (og_resources open) (reversals open)
      (og_deferred open) (og_atomic open ++ [mk_atomic resource m])))).

(** ** The frontier *)

(** [touched]: the atomic members' resources, through a [BTreeSet]. *)
Definition touched_of (members : list AtomicMember) : str :=
  join_with (lit ", ") (iter_str (list_to_set (am_resource <$> members))).

Definition commit_members (name : str) (members : list AtomicMember) : G unit :=
  committed ← attempt (on_host (commit_atomic name (am_inner <$> members)));
  match committed with
  | Ok _ => mret tt
  | Err (CommitUnknown _ as e) =>
      let detail := lit "the atomic members on [" ++ touched_of members
        ++ lit "] may have committed: " ++ error_text e in
      settle_open_group Quarantined (Some detail) ;;
      raise (GroupUnsettled name detail)
  | Err e =>
      let what := lit "the atomic members on [" ++ touched_of members ++ lit "] did not commit: " ++ error_text e in
      abort_open_group what ;;
      raise (GroupAborted what)
  end.

Fixpoint release (name : str) (atomic_committed : bool) (outputs : list V) (members : list Deferred) : G (list V) :=
  match members with
  | [] => settle_open_group Committed None ;; mret outputs
  | m :: members =>
      r ← attempt (effect_as_member (df_effect m));
      match r with
      | Ok v => release name atomic_committed (outputs ++ [v]) members
      | Err e =>
          let told := lit "deferred member '" ++ kind (df_effect m) ++ lit "' on '" ++ df_resource m ++ lit "' failed: " ++ error_text e in
          if is_pause e then raise e
          else if bool_decide (length outputs = 0) && negb atomic_committed && negb (may_have_externalised e)
          then abort_open_group told ;; raise (GroupAborted told)
          else settle_open_group Quarantined (Some told) ;; raise (GroupUnsettled name told)
      end
  end.

Definition commit (invariants : list Invariant) : G (list V) :=
  match head (filter (fun i => holds i = false) invariants) with
  | Some broken =>
      abort_open_group (lit "invariant: " ++ what broken) ;;
      raise (GroupAborted (what broken))
  | None =>
      open ← get_open;
      update (set_open (Some (mk_open (og_name open) (og_resources open) (reversals open) [] []))) ;;
      let atomic_committed := negb (bool_decide (length (og_atomic open) = 0)) in
      (if atomic_committed then commit_members (og_name open) (og_atomic open) else mret tt) ;;
      release (og_name open) atomic_committed [] (og_deferred open)
  end.

(** ** Skills *)

(** The index says whether the skill holds the handle: [commit] and [abort] take
    it by value, and while it is held the context is borrowed. *)
Inductive Skill : bool -> Type :=
| Return (r : result SkillError (Outcome V)) : Skill false
| Ambient (e : E) (k : result GroupError V -> Skill false) : Skill false
| Group (name : str) (resources : list str) (in_group : Skill true) (refused : GroupError -> Skill false) : Skill false
| Reversible (resource : str) (e : E) (undo_of : V -> E) (k : result GroupError V -> Skill true) : Skill true
| Read (resource : str) (e : E) (k : result GroupError V -> Skill true) : Skill true
| Defer (resource : str) (e : E) (k : result GroupError unit -> Skill true) : Skill true
| Atomic (resource : str) (m : A) (k : result GroupError unit -> Skill true) : Skill true
| Commit (invariants : list Invariant) (k : result GroupError (list V) -> Skill false) : Skill true
| Abandon (why : str) (k : result GroupError unit -> Skill false) : Skill true
| DropHandle (k : Skill false) : Skill true.

Fixpoint invoke {held} (s : Skill held) : G (result SkillError (Outcome V)) :=
  match s with
  | Return r => mret r
  | Ambient e k => r ← attempt (effect e); invoke (k r)
  | Group name resources in_group refused =>
      r ← attempt (group name resources);
      match r with Ok _ => invoke in_group | Err e => invoke (refused e) end
  | Reversible resource e undo_of k => r ← attempt (reversible resource e undo_of); invoke (k r)
  | Read resource e k => r ← attempt (read resource e); invoke (k r)
  | Defer resource e k => r ← attempt (deferred resource e); invoke (k r)
  | Atomic resource m k => r ← attempt (atomic resource m); invoke (k r)
  | Commit invariants k => r ← attempt (commit invariants); invoke (k r)
  | Abandon why k => r ← attempt (abort_open_group why); invoke (k r)
  | DropHandle k => invoke k
  end.

(** ** What the executor settles *)

Definition pauses (r : result SkillError (Outcome V)) : bool :=
  match r with Err (SkStep e) => is_pause e | _ => false end.
Definition doubtful (r : result SkillError (Outcome V)) : bool :=
  match r with Err (SkStep e) => may_have_externalised e | _ => false end.
Definition skill_text (e : SkillError) : str :=
  match e with SkStep e => error_text e | SkOther d => d end.

Definition settle_abandoned_group (abandoning : bool) (r : result SkillError (Outcome V)) :
    G (result SkillError (Outcome V)) :=
  cx ← get;
  match open_group cx with
  | None => mret r
  | Some open =>
      if negb abandoning && pauses r then mret r
      else if doubtful r then
        settled ← attempt (settle_open_group Quarantined
          (Some (match r with Err e => skill_text e | Ok _ => [] end)));
        match settled with Ok _ => mret r | Err e => mret (Err (SkStep e)) end
      else
        aborted ← attempt (abort_open_group (lit "the step ended without settling the group"));
        match aborted, r with
        | Err e, _ => mret (Err (SkStep e))
        | Ok _, Err e => mret (Err e)
        | Ok _, Ok (OutFail reason) => mret (Ok (OutFail reason))
        | Ok _, Ok _ => mret (Err (SkStep (GroupAborted
            (lit "step made progress with group '" ++ og_name open ++ lit "' still open"))))
        end
  end.

(** A fresh context: what the executor hands a step. *)
Definition fresh_cx (w : W) (recorded : gmap str RecordedGroup) : Cx := mk_cx w None false false recorded.

Definition run_step (abandoning : bool) (s : Skill false) : G (result SkillError (Outcome V)) :=
  r ← invoke s; settle_abandoned_group abandoning r.
End groups.
