(* ===== verification/Saga.v ===== *)
(** * What a group promises, and that the code keeps it

    [Saga] is the contract of [src/src/runtime/group.rs] without its
    bookkeeping: where a group stands, and which call of the outside may come
    next.  [runs] is a run of that automaton over the calls a host answered.
    [step_refines_saga]: every step of every skill, whatever the host answers, is
    such a run.  [settled_honestly]: what a settlement in such a run says of the
    calls before it. *)

From S2P Require Import Prelude SinkGate Budget Replay Retry Dispatch Groups.
From stdpp Require Import gmap.

Section saga.
Context {W E V A : Type} `{Host W E V A}.
Implicit Types (e u : E).

(** ** Events *)

(** Why an effect was dispatched: with the call that takes it back, as a read
    inside the group, as a deferred member, as an undo, or beside any group. *)
Inductive Role := Forward (resource : str) (undo_of : V -> E) | Reading (resource : str) | Releasing | Undoing | Beside.
Definition takes_back (r : Role) : bool := match r with Undoing => true | _ => false end.

(** A record is [None] where the journal already holds it. *)
Inductive Event :=
| Dispatched (role : Role) (e : E) (r : Answer V)
| Opening (name : str) (resources : list str) (r : option (Answer unit))
| Held (resource : str) (e : E)
| Enlisted (resource : str) (m : A)
| Frontier (invariants : list Invariant)
| Transacted (name : str) (members : list A) (r : Answer unit)
| Abandoned
| Ended (r : result SkillError (Outcome V))
| Settling (name : str) (o : GroupOutcome) (detail : option str) (r : option (Answer unit)).

(** The outside, and what the journal already holds of the step's groups: a
    record it holds is consumed rather than written again. *)
Abbreviation Outside := (W * gmap str RecordedGroup)%type.
Definition opened_in (m : gmap str RecordedGroup) (n : str) : nat := from_option opened 0 (m !! n).
Definition settled_in (m : gmap str RecordedGroup) (n : str) : nat := from_option settled 0 (m !! n).
Definition happens (o : Outside) (ev : Event) (o' : Outside) : Prop :=
  match ev with
  | Dispatched role e r => dispatch (takes_back role) e o.1 = (o'.1, r) /\ o'.2 = o.2
  | Opening name resources (Some r) =>
      opened_in o.2 name = 0 /\ append_group (GroupOpened name resources) o.1 = (o'.1, r) /\ o'.2 = o.2
  | Opening name resources None =>
      0 < opened_in o.2 name /\ o' = (o.1, <[name := mk_recorded (opened_in o.2 name - 1) (settled_in o.2 name)]> o.2)
  | Transacted name members r => commit_atomic name members o.1 = (o'.1, r) /\ o'.2 = o.2
  | Settling name u detail (Some r) =>
      settled_in o.2 name = 0 /\ append_group (GroupSettled name u detail) o.1 = (o'.1, r) /\ o'.2 = o.2
  | Settling name u detail None =>
      0 < settled_in o.2 name /\ o' = (o.1, <[name := mk_recorded (opened_in o.2 name) (settled_in o.2 name - 1)]> o.2)
  | _ => o' = o
  end.

(** ** The contract *)

Record Members := mk_members {
  g_name : str;
  g_resources : list str;
  g_undos : list E;
  g_held : list E;
  g_atoms : list A;
}.
Definition push_undo (u : E) (g : Members) : Members :=
  mk_members (g_name g) (g_resources g) (u :: g_undos g) (g_held g) (g_atoms g).
Definition hold (e : E) (g : Members) : Members :=
  mk_members (g_name g) (g_resources g) (g_undos g) (g_held g ++ [e]) (g_atoms g).
Definition enlist (m : A) (g : Members) : Members :=
  mk_members (g_name g) (g_resources g) (g_undos g) (g_held g) (g_atoms g ++ [m]).
Definition holding (es : list E) (g : Members) : Members :=
  mk_members (g_name g) (g_resources g) (g_undos g) es [].

(** Where a group stands.  [Released g c] has committed its atomic members iff
    [c] and still holds [g_held g]; [Paused] is a release cut short; [Over] is
    the process's death. *)
Inductive Saga :=
| Idle
| Opened (g : Members)
| AtFrontier (g : Members)
| Released (g : Members) (atomic_committed : bool) (done_ : list E)
| Paused (g : Members) (atomic_committed : bool) (done_ : list E)
| TakingBack (name : str) (undos : list E)
| Doubtful (name : str)
| Over.

Definition is_ambient (s : Saga) : Prop :=
  match s with Opened _ | Paused _ _ _ => True | _ => False end.
Definition members (s : Saga) : option Members :=
  match s with Opened g | Paused g _ _ => Some g | _ => None end.
(** After a call that answered, or in which the process died. *)
Definition unless_dead {T} (r : Answer T) (s : Saga) : Saga := match r with Dead => Over | _ => s end.
Definition opens (r : option (Answer unit)) (s : Saga) : Saga :=
  match r with None | Some (Got _) => s | Some (Raised _) => Idle | Some Dead => Over end.
Definition closes (r : option (Answer unit)) : Saga := match r with Some Dead => Over | _ => Idle end.

Definition after_forward (undo_of : V -> E) (r : Answer V) (g : Members) : Saga :=
  match r with
  | Got v => if binds_arguments (undo_of v) then Doubtful (g_name g) else Opened (push_undo (undo_of v) g)
  | Raised _ => Opened g
  | Dead => Over
  end.
Definition after_transaction (r : Answer unit) (g : Members) : Saga :=
  match r with
  | Got _ => Released g true []
  | Raised (CommitUnknown _) => Doubtful (g_name g)
  | Raised _ => TakingBack (g_name g) (g_undos g)
  | Dead => Over
  end.
Definition after_release (e : E) (r : Answer V) (g : Members) (committed : bool) (done_ : list E) : Saga :=
  match r with
  | Got _ => Released g committed (done_ ++ [e])
  | Raised err =>
      if is_pause err then Paused (holding [] g) committed done_
      else if bool_decide (length done_ = 0) && negb committed && negb (may_have_externalised err)
      then TakingBack (g_name g) (g_undos g)
      else Doubtful (g_name g)
  | Dead => Over
  end.
Definition after_undo (r : Answer V) (name : str) (undos : list E) : Saga :=
  match r with Got _ => TakingBack name undos | Raised _ => Doubtful name | Dead => Over end.
(** The step is over and its group is not settled. *)
Definition after_step (abandoning : bool) (r : result SkillError (Outcome V)) (g : Members) (s : Saga) : Saga :=
  if negb abandoning && pauses r then s
  else if doubtful r then Doubtful (g_name g) else TakingBack (g_name g) (g_undos g).

Inductive saga_step (abandoning : bool) : Saga -> Event -> Saga -> Prop :=
| step_beside e r : saga_step abandoning Idle (Dispatched Beside e r) (unless_dead r Idle)
| step_open name resources r : resources <> [] ->
    saga_step abandoning Idle (Opening name resources r) (opens r (Opened (mk_members name resources [] [] [])))
| step_ambient s e r : is_ambient s -> mutates e = false ->
    saga_step abandoning s (Dispatched Beside e r) (unless_dead r s)
| step_forward resource undo_of e r g : resource ∈ g_resources g -> binds_arguments e = false ->
    saga_step abandoning (Opened g) (Dispatched (Forward resource undo_of) e r) (after_forward undo_of r g)
| step_read resource e r g : resource ∈ g_resources g -> mutates e = false ->
    saga_step abandoning (Opened g) (Dispatched (Reading resource) e r) (unless_dead r (Opened g))
| step_hold resource e g : resource ∈ g_resources g -> binds_arguments e = false ->
    saga_step abandoning (Opened g) (Held resource e) (Opened (hold e g))
| step_enlist resource m g : resource ∈ g_resources g ->
    saga_step abandoning (Opened g) (Enlisted resource m) (Opened (enlist m g))
| step_abandon g : saga_step abandoning (Opened g) Abandoned (TakingBack (g_name g) (g_undos g))
| step_broken invariants g : (exists i, i ∈ invariants /\ holds i = false) ->
    saga_step abandoning (Opened g) (Frontier invariants) (TakingBack (g_name g) (g_undos g))
| step_frontier invariants g : (forall i, i ∈ invariants -> holds i = true) -> g_atoms g <> [] ->
    saga_step abandoning (Opened g) (Frontier invariants) (AtFrontier g)
| step_frontier_plain invariants g : (forall i, i ∈ invariants -> holds i = true) -> g_atoms g = [] ->
    saga_step abandoning (Opened g) (Frontier invariants) (Released g false [])
| step_transact r g :
    saga_step abandoning (AtFrontier g) (Transacted (g_name g) (g_atoms g) r)
      (after_transaction r (holding (g_held g) g))
| step_release e es r g committed done_ : g_held g = e :: es ->
    saga_step abandoning (Released g committed done_) (Dispatched Releasing e r)
      (after_release e r (holding es g) committed done_)
| step_commit g committed done_ r : g_held g = [] ->
    saga_step abandoning (Released g committed done_) (Settling (g_name g) Committed None r) (closes r)
| step_undo name u us r :
    saga_step abandoning (TakingBack name (u :: us)) (Dispatched Undoing u r) (after_undo r name us)
| step_aborted name detail r :
    saga_step abandoning (TakingBack name []) (Settling name Aborted detail r) (closes r)
| step_quarantined name detail r :
    saga_step abandoning (Doubtful name) (Settling name Quarantined detail r) (closes r)
| step_end s g r : members s = Some g ->
    saga_step abandoning s (Ended r) (after_step abandoning r g s).

Inductive runs (abandoning : bool) : Outside -> Saga -> list Event -> Outside -> Saga -> Prop :=
| runs_nil o s : runs abandoning o s [] o s
| runs_cons o s ev o1 s1 evs o2 s2 :
    happens o ev o1 -> saga_step abandoning s ev s1 -> runs abandoning o1 s1 evs o2 s2 ->
    runs abandoning o s (ev :: evs) o2 s2.

Lemma runs_app ab o s evs o1 s1 evs' o2 s2 :
  runs ab o s evs o1 s1 -> runs ab o1 s1 evs' o2 s2 -> runs ab o s (evs ++ evs') o2 s2.
Proof. induction 1; [done|]. intros. simpl. by eapply runs_cons; [..|auto]. Qed.

(** ** What a skill's calls may come to *)

Section follows.
Context (ab : bool).

(** What follows the mark of a commit, of an abandonment or of a step's end:
    the transaction, releases, undos and the settlement. *)
Definition aftermath (ev : Event) : Prop :=
  match ev with
  | Transacted _ _ _ | Dispatched Releasing _ _ | Dispatched Undoing _ _ | Settling _ _ _ _ => True
  | _ => False
  end.
Definition settled_as (o : GroupOutcome) (ev : Event) : bool :=
  match ev with
  | Settling _ q _ (None | Some (Got _)) => bool_decide (q = o)
  | _ => false
  end.
Definition released_value (ev : Event) : option V := match ev with Dispatched Releasing _ (Got v) => Some v | _ => None end.
(** The answer tells whether the group ended as [o]. *)
Definition answers_settled {T} (o : GroupOutcome) (a : Answer T) (evs : list Event) : Prop :=
  Forall aftermath evs /\
  match a with Got _ => existsb (settled_as o) evs = true | Raised _ => existsb (settled_as o) evs = false | Dead => True end.

(** A call is admitted, and then comes to [body]; or it is refused, and the
    outside hears nothing. *)
Definition call {T} (admitted : Prop) (body : Answer T -> list Event -> Prop) (a : Answer T) (evs : list Event) : Prop :=
  (admitted /\ body a evs) \/ (~ admitted /\ evs = [] /\ exists err, a = Raised err).
Definition member_of (s : Saga) (resource : str) : Prop := exists g, s = Opened g /\ resource ∈ g_resources g.
Definition says_effect (s : Saga) (e : E) : Answer V -> list Event -> Prop :=
  call (binds_arguments e = false /\ (s = Idle \/ mutates e = false)) (fun a evs => evs = [Dispatched Beside e a]).
Definition says_group (s : Saga) (name : str) (resources : list str) : Answer unit -> list Event -> Prop :=
  call (s = Idle /\ resources <> []) (fun a evs => exists r, evs = [Opening name resources r] /\ a = from_option id (Got tt) r).
Definition says_reversible (s : Saga) (resource : str) (e : E) (undo_of : V -> E) : Answer V -> list Event -> Prop :=
  call (member_of s resource /\ binds_arguments e = false) (fun a evs => exists r rest,
    evs = Dispatched (Forward resource undo_of) e r :: rest /\
    match r with
    | Got v => if binds_arguments (undo_of v) then Forall aftermath rest /\ (forall v', a <> Got v') else rest = [] /\ a = Got v
    | r => rest = [] /\ a = r
    end).
Definition says_read (s : Saga) (resource : str) (e : E) : Answer V -> list Event -> Prop :=
  call (member_of s resource /\ mutates e = false /\ binds_arguments e = false) (fun a evs => evs = [Dispatched (Reading resource) e a]).
Definition says_defer (s : Saga) (resource : str) (e : E) : Answer unit -> list Event -> Prop :=
  call (member_of s resource /\ binds_arguments e = false) (fun a evs => evs = [Held resource e] /\ a = Got tt).
Definition says_atomic (w : W) (s : Saga) (resource : str) (m : A) : Answer unit -> list Event -> Prop :=
  call (member_of s resource /\ store_is_atomic w = true) (fun a evs => evs = [Enlisted resource m] /\ a = Got tt).
Definition says_commit (s : Saga) (invariants : list Invariant) : Answer (list V) -> list Event -> Prop :=
  call (exists g, s = Opened g) (fun a evs => exists rest, evs = Frontier invariants :: rest /\ answers_settled Committed a rest /\
    match a with Got outs => outs = omap released_value rest | _ => True end).
Definition says_abandon (s : Saga) : Answer unit -> list Event -> Prop :=
  call (exists g, s = Opened g) (fun a evs => exists rest, evs = Abandoned :: rest /\ answers_settled Aborted a rest).

Definition at_rest (s : Saga) : Prop := match s with Idle | Opened _ | Paused _ _ _ => True | _ => False end.
(** One call and what the skill makes of its answer; a skill whose process died
    in a call goes no further. *)
Definition stage {T} (says : Answer T -> list Event -> Prop) (next : result GroupError T -> Outside -> Saga -> list Event -> Prop)
    (died : Outside -> Prop) (o : Outside) (s : Saga) (evs : list Event) : Prop :=
  exists a evs1 o1 s1 evs2, evs = evs1 ++ evs2 /\ runs ab o s evs1 o1 s1 /\ says a evs1 /\
  match a with
  | Got v => at_rest s1 /\ next (Ok v) o1 s1 evs2
  | Raised err => at_rest s1 /\ next (Err err) o1 s1 evs2
  | Dead => s1 = Over /\ evs2 = [] /\ died o1
  end.
(** The events are those of the skill's own calls, in its order, each answer
    handed to its continuation; [None] is a process that died on the way. *)
Fixpoint follows {held} (sk : Skill held) (o : Outside) (s : Saga) (evs : list Event) (o' : Outside) (s' : Saga)
    (res : option (result SkillError (Outcome V))) : Prop :=
  let died o1 := o' = o1 /\ s' = Over /\ res = None in
  match sk with
  | Return r => evs = [] /\ o' = o /\ s' = s /\ res = Some r
  | Ambient e k => stage (says_effect s e) (fun r o1 s1 evs => follows (k r) o1 s1 evs o' s' res) died o s evs
  | Group name resources in_group refused =>
      stage (says_group s name resources) (fun r o1 s1 evs => match r with
        | Ok _ => follows in_group o1 s1 evs o' s' res
        | Err err => follows (refused err) o1 s1 evs o' s' res end) died o s evs
  | Reversible resource e undo_of k =>
      stage (says_reversible s resource e undo_of) (fun r o1 s1 evs => follows (k r) o1 s1 evs o' s' res) died o s evs
  | Read resource e k => stage (says_read s resource e) (fun r o1 s1 evs => follows (k r) o1 s1 evs o' s' res) died o s evs
  | Defer resource e k => stage (says_defer s resource e) (fun r o1 s1 evs => follows (k r) o1 s1 evs o' s' res) died o s evs
  | Atomic resource m k => stage (says_atomic o.1 s resource m) (fun r o1 s1 evs => follows (k r) o1 s1 evs o' s' res) died o s evs
  | Commit invariants k => stage (says_commit s invariants) (fun r o1 s1 evs => follows (k r) o1 s1 evs o' s' res) died o s evs
  | Abandon why k => stage (says_abandon s) (fun r o1 s1 evs => follows (k r) o1 s1 evs o' s' res) died o s evs
  | DropHandle k => follows k o s evs o' s' res
  end.
(** What the end of a step makes of a group left open, and of its answer. *)
Definition ended (r : result SkillError (Outcome V)) (s : Saga) (evs : list Event) (s' : Saga) (a : Answer (result SkillError (Outcome V))) : Prop :=
  match members s with
  | None => s = Idle /\ evs = [] /\ a = Got r
  | Some _ => exists rest, evs = Ended r :: rest /\ Forall aftermath rest /\
      match a with
      | Got r' => (r' = r /\ rest = [] /\ ab = false /\ pauses r = true) \/
                  (s' = Idle /\ match r' with Ok (OutDone _) | Ok (OutReplan _) => False | _ => True end)
      | Raised _ => False
      | Dead => s' = Over
      end
  end.
End follows.

(** ** A small logic: a computation from a point of the saga *)

Section logic.
Context (ab : bool).
Abbreviation G := (Groups.G (W:=W) (E:=E) (A:=A)).
Abbreviation Cx := (Groups.Cx (W:=W) (E:=E) (A:=A)).
Abbreviation Post T := (Answer T -> list Event -> Saga -> Cx -> Prop).

Definition outside (cx : Cx) : Outside := (host cx, recorded_groups cx).
Definition tells {T} (s : Saga) (cx : Cx) (m : G T) (Q : Post T) : Prop :=
  exists evs s', runs ab (outside cx) s evs (outside (m cx).1) s' /\ Q (m cx).2 evs s' (m cx).1.
(** Where a computation that answered stands, whatever its events. *)
Definition now {T} (P : result GroupError T -> Saga -> Cx -> Prop) (a : Answer T) (s : Saga) (cx : Cx) : Prop :=
  match a with Got v => P (Ok v) s cx | Raised err => P (Err err) s cx | Dead => s = Over end.

Lemma tells_ret {T} s cx (a : T) (Q : Post T) : Q (Got a) [] s cx -> tells s cx (mret a) Q.
Proof. intros HQ. exists [], s. split; [constructor|done]. Qed.
Lemma tells_raise {T} s cx err (Q : Post T) : Q (Raised err) [] s cx -> tells s cx (raise err) Q.
Proof. intros HQ. exists [], s. split; [constructor|done]. Qed.
Lemma tells_get s cx (Q : Post Cx) : Q (Got cx) [] s cx -> tells s cx get Q.
Proof. intros HQ. exists [], s. split; [constructor|done]. Qed.
Lemma tells_update s cx f (Q : Post unit) : outside (f cx) = outside cx -> Q (Got tt) [] s (f cx) -> tells s cx (update f) Q.
Proof. intros Hf HQ. exists [], s. simpl. rewrite Hf. split; [constructor|done]. Qed.
(** Consuming a record the journal holds. *)
Lemma tells_noted ev s s1 cx f (Q : Post unit) :
  saga_step ab s ev s1 -> happens (outside cx) ev (outside (f cx)) -> Q (Got tt) [ev] s1 (f cx) -> tells s cx (update f) Q.
Proof. intros Hs Hh HQ. exists [ev], s1. split; [|done]. by eapply runs_cons; [| |constructor]. Qed.

Lemma tells_bind {S T} s cx (m : G S) (k : S -> G T) (Q : Post T) :
  tells s cx m (fun a evs s' cx' => match a with
    | Got v => tells s' cx' (k v) (fun b evs' => Q b (evs ++ evs'))
    | Raised err => Q (Raised err) evs s' cx'
    | Dead => Q Dead evs s' cx' end) ->
  tells s cx (m ≫= k) Q.
Proof.
  intros (evs & s1 & Hr & Ho). unfold tells. unfold mbind, g_bind.
  destruct (m cx) as [cx1 [a|e|]] eqn:Hm; simpl in *.
  - destruct Ho as (evs' & s2 & Hr' & Ho). exists (evs ++ evs'), s2. split; [by eapply runs_app|done].
  - by exists evs, s1.
  - by exists evs, s1.
Qed.
Lemma tells_attempt {T} s cx (m : G T) (Q : Post (result GroupError T)) :
  tells s cx m (fun a evs s' cx' => match a with
    | Got v => Q (Got (Ok v)) evs s' cx' | Raised err => Q (Got (Err err)) evs s' cx' | Dead => Q Dead evs s' cx' end) ->
  tells s cx (attempt m) Q.
Proof.
  intros (evs & s1 & Hr & Ho). exists evs, s1. unfold attempt.
  destruct (m cx) as [cx1 [a|e|]]; by split.
Qed.
Lemma tells_mono {T} s cx (m : G T) (P Q : Post T) :
  tells s cx m P -> (forall a evs s' cx', P a evs s' cx' -> Q a evs s' cx') -> tells s cx m Q.
Proof. intros (evs & s1 & Hr & Ho) HPQ. exists evs, s1. split; [done|]. auto. Qed.
(** The run itself, beside what is told of it. *)
Lemma tells_runs {T} s cx (m : G T) (Q : Post T) :
  tells s cx m Q -> tells s cx m (fun a evs s' cx' => runs ab (outside cx) s evs (outside cx') s' /\ Q a evs s' cx').
Proof. intros (evs & s1 & Hr & Ho). by exists evs, s1. Qed.
(** A step of the saga that asks nothing of the outside. *)
Lemma tells_event {T} ev s s1 cx (m : G T) (Q : Post T) :
  saga_step ab s ev s1 -> happens (outside cx) ev (outside cx) -> tells s1 cx m (fun a evs => Q a (ev :: evs)) -> tells s cx m Q.
Proof.
  intros Hs Hh (evs & s2 & Hr & Ho). exists (ev :: evs), s2. split; [|done].
  eapply runs_cons; [apply Hh|done|done].
Qed.
(** A call of the outside. *)
Lemma tells_host {T} (ev : Answer T -> Event) (next : Answer T -> Saga) s cx (m : W -> W * Answer T) (Q : Post T) :
  (forall w' r, m (host cx) = (w', r) -> happens (outside cx) (ev r) (w', recorded_groups cx)) ->
  (forall r, saga_step ab s (ev r) (next r)) ->
  (forall w' r, Q r [ev r] (next r) (set_host w' cx)) ->
  tells s cx (on_host m) Q.
Proof.
  intros Hh Hs Ha. unfold tells, on_host. destruct (m (host cx)) as [w' r] eqn:Hm. simpl.
  exists [ev r], (next r). split; [|apply Ha]. eapply runs_cons; [by apply Hh|done|constructor].
Qed.

(** ** Where the context stands *)

Definition calm (cx : Cx) : Prop := member_dispatch cx = false /\ reversing cx = false.
Definition members_of (o : OpenGroup (E:=E) (A:=A)) : Members :=
  mk_members (og_name o) (og_resources o) (reverse (undo <$> reversals o)) (df_effect <$> og_deferred o)
    (am_inner <$> og_atomic o).
Definition dispatchable (es : list E) : Prop := Forall (fun e => binds_arguments e = false) es.
Definition shows (g : Members) (cx : Cx) : Prop :=
  exists o, open_group cx = Some o /\ g = members_of o /\ dispatchable (g_undos g) /\ dispatchable (g_held g).
(** At rest: between two operations of a skill. *)
Definition stands (s : Saga) (cx : Cx) : Prop :=
  calm cx /\ match s with
            | Idle => open_group cx = None
            | Opened g | Paused g _ _ => shows g cx
            | _ => False
            end.
Lemma stands_rest s cx : stands s cx -> at_rest s.
Proof. intros [_ Hs]. by destruct s. Qed.

(** A member's dispatch: refused for the arguments it binds, or one event. *)
Lemma tells_as_member (role : Role) (next : Answer V -> Saga) s cx e (Q : Post V) :
  member_dispatch cx = false -> reversing cx = takes_back role -> is_Some (open_group cx) ->
  (binds_arguments e = false -> forall r, saga_step ab s (Dispatched role e r) (next r)) ->
  (binds_arguments e = true -> Q (Raised (SinkGateRequired (kind e))) [] s cx) ->
  (binds_arguments e = false -> forall w' r, r <> Dead -> Q r [Dispatched role e r] (next r) (set_host w' cx)) ->
  (binds_arguments e = false -> forall cx', Q Dead [Dispatched role e Dead] (next Dead) cx') ->
  tells s cx (effect_as_member e) Q.
Proof.
  intros Hm Hr [o Ho] Hs Hb Ha Hd. destruct cx as [w og md rv rec]. simpl in *. subst.
  apply tells_bind, tells_update; [done|]. apply tells_bind, tells_attempt. unfold effect.
  destruct (binds_arguments e).
  - apply tells_raise, tells_bind, tells_update; [done|]. apply tells_raise. by apply Hb.
  - apply tells_bind, tells_get. simpl.
    apply (tells_host (Dispatched role e) next); [done|by apply Hs|]. intros w' [v|err|]; simpl; [| |by apply Hd].
    + apply tells_bind, tells_update; [done|]. apply tells_ret. by apply (Ha eq_refl w' (Got v)).
    + apply tells_bind, tells_update; [done|]. apply tells_raise. by apply (Ha eq_refl w' (Raised err)).
Qed.
Lemma tells_get_open s cx o (Q : Post _) : open_group cx = Some o -> Q (Got o) [] s cx -> tells s cx get_open Q.
Proof. intros Ho HQ. apply tells_bind, tells_get. rewrite Ho. by apply tells_ret. Qed.
Lemma tells_get_open_none s cx (Q : Post _) : open_group cx = None -> Q (Raised no_group) [] s cx -> tells s cx get_open Q.
Proof. intros Ho HQ. apply tells_bind, tells_get. rewrite Ho. by apply tells_raise. Qed.

(** ** Settling *)

Definition rested (s : Saga) (cx : Cx) : Prop := s = Idle /\ stands Idle cx.
(** A settlement's one event, and where it leaves the context. *)
Definition settling (n : str) (q : GroupOutcome) (d : option str) (a : Answer unit) (evs : list Event) (s : Saga) (cx : Cx) : Prop :=
  exists r, evs = [Settling n q d r] /\ a = from_option id (Got tt) r /\ now (fun _ => rested) a s cx.
Lemma tells_settle s cx g q d (Q : Post unit) :
  calm cx -> open_group cx = Some g ->
  (forall r, saga_step ab s (Settling (og_name g) q d r) (closes r)) ->
  (forall a evs s' cx', settling (og_name g) q d a evs s' cx' -> Q a evs s' cx') ->
  tells s cx (settle_open_group q d) Q.
Proof.
  intros Hc Hg Hs HQ. apply tells_bind. eapply tells_get_open; [done|]. simpl.
  apply tells_bind, tells_update; [done|]. apply tells_bind, tells_get. simpl.
  set (cx1 := set_open None cx).
  assert (settled_in (recorded_groups cx) (og_name g) = 0 ->
    tells s cx1 (on_host (append_group (GroupSettled (og_name g) q d))) Q) as Hap.
  { intros H0. apply (tells_host (fun r => Settling (og_name g) q d (Some r)) (fun r => closes (Some r))); [done|auto|].
    intros w' r. apply HQ. exists (Some r). split_and!; [done|done|]. by destruct r. }
  destruct (recorded_groups cx !! og_name g) as [r|] eqn:Hrec; [|by apply Hap; unfold settled_in; rewrite Hrec].
  case_bool_decide as Hlt; [|apply Hap; unfold settled_in; rewrite Hrec; simpl; lia].
  apply (tells_noted (Settling (og_name g) q d None) _ Idle); [apply (Hs None)| |].
  - simpl. unfold settled_in, opened_in. rewrite Hrec. by split.
  - apply HQ. exists None. by split_and!.
Qed.

Definition undoing (ev : Event) : Prop := match ev with Dispatched Undoing _ _ => True | _ => False end.
Lemma tells_reverse_loop total name (ms : list (Reversal (E:=E))) : forall n cx,
  member_dispatch cx = false -> reversing cx = true -> is_Some (open_group cx) -> dispatchable (undo <$> ms) ->
  tells (TakingBack name (undo <$> ms)) cx (reverse_loop total n ms)
    (fun a evs s cx' => Forall undoing evs /\
       match a with
       | Got (Ok _) => s = TakingBack name [] /\ (exists w, cx' = set_host w cx)
       | Got (Err _) => s = Doubtful name /\ (exists w, cx' = set_host w cx)
       | Raised _ => False
       | Dead => s = Over
       end).
Proof.
  induction ms as [|m ms IH]; intros n cx Hm Hr Ho Hd; simpl.
  { apply tells_ret. split_and!; [constructor|done|]. exists (host cx). by destruct cx. }
  apply Forall_cons in Hd as [Hm0 Hd]. apply tells_bind, tells_attempt.
  apply (tells_as_member Undoing (fun r => after_undo r name (undo <$> ms))); try done.
  - intros _ r. constructor.
  - by rewrite Hm0.
  - intros _ w [v|err|] Hdead; [| |done]; simpl.
    + eapply tells_mono; [by apply (IH (S n) (set_host w cx))|].
      intros a evs s cx' [Hu Ha]. split; [by constructor|]. destruct a as [[]| |]; try done; destruct Ha as [? [w' ->]]; (split; [done|by exists w']).
    + apply tells_ret. split_and!; [by repeat constructor|done|by exists w].
  - intros _ cx'. split; [by repeat constructor|done].
Qed.

(** Taking back: undos, then the settlement; aborted iff it returned. *)
Definition taken_back (n : str) (a : Answer unit) (evs : list Event) (s : Saga) (cx : Cx) : Prop :=
  answers_settled Aborted a evs /\ existsb (settled_as Committed) evs = false /\ now (fun _ => rested) a s cx.
Lemma undoing_settles q evs : Forall undoing evs -> existsb (settled_as q) evs = false /\ Forall aftermath evs.
Proof.
  induction 1 as [|ev evs Hev _ [IH1 IH2]]; [done|]. destruct ev as [role| | | | | | | |]; try done. destruct role; try done.
  split; [exact IH1|by constructor].
Qed.
Lemma tells_abort cx o why (Q : Post unit) :
  calm cx -> open_group cx = Some o -> dispatchable (reverse (undo <$> reversals o)) ->
  (forall a evs s' cx', taken_back (og_name o) a evs s' cx' -> Q a evs s' cx') ->
  tells (TakingBack (og_name o) (reverse (undo <$> reversals o))) cx (abort_open_group why) Q.
Proof.
  intros [Hm Hr] Ho Hd HQ. apply tells_bind. eapply tells_get_open; [done|]. simpl.
  do 2 (apply tells_bind, tells_update; [done|]; simpl). apply tells_bind. unfold reverse_each.
  rewrite <-fmap_reverse in Hd |- *.
  eapply tells_mono; [by apply tells_reverse_loop|]. intros a evs s cx' [Hu Ha].
  destruct (undoing_settles Committed evs Hu) as [Hnc Haf], (undoing_settles Aborted evs Hu) as [Hna _].
  destruct a as [[[]|detail]|err|]; [destruct Ha as [-> [w ->]]..|done|subst s].
  - apply tells_bind, tells_update; [done|]. simpl. eapply tells_settle; [done|done|intros; constructor|].
    intros a evs' s' cx' (r & -> & -> & Hnow). apply HQ. split_and!; [|by rewrite existsb_app, Hnc; destruct r as [[]|]|done].
    split; [apply Forall_app; split; [done|by repeat constructor]|]. rewrite existsb_app, Hna. by destruct r as [[]|].
  - apply tells_bind, tells_update; [done|]. simpl. apply tells_bind. eapply tells_settle; [done|done|intros; constructor|].
    intros a evs' s' cx' (r & -> & -> & Hnow).
    assert (Forall aftermath (evs ++ [Settling (og_name o) Quarantined (Some detail) r])) as Haf' by (apply Forall_app; split; [done|by repeat constructor]).
    assert (forall q, q <> Quarantined -> existsb (settled_as q) evs = false ->
      existsb (settled_as q) (evs ++ [Settling (og_name o) Quarantined (Some detail) r]) = false) as Hq.
    { intros q Hu' He. rewrite existsb_app, He. simpl. rewrite bool_decide_eq_false_2 by congruence. by destruct r as [[]|]. }
    destruct (from_option id (Got tt) r) as [[]|err|]; simpl in Hnow.
    + apply tells_raise. rewrite app_nil_r. apply HQ. split_and!; [split; [done|by apply Hq]|by apply Hq|done].
    + apply HQ. split_and!; [split; [done|by apply Hq]|by apply Hq|done].
    + apply HQ. split_and!; [split; [done|done]|by apply Hq|done].
  - apply HQ. split_and!; [|done|done]. by split.
Qed.

(** ** The handle's operations *)

(** Where a skill that holds the handle stands. *)
Definition inside (s : Saga) (cx : Cx) : Prop := stands s cx /\ (s = Idle \/ exists g, s = Opened g).

Lemma inside_open s cx o : inside s cx -> open_group cx = Some o ->
  s = Opened (members_of o) /\ calm cx
  /\ dispatchable (reverse (undo <$> reversals o)) /\ dispatchable (df_effect <$> og_deferred o).
Proof.
  intros [[Hc Hs] Hsh] Ho. destruct Hsh as [->|[g ->]]; [congruence|].
  destruct Hs as (o' & Ho' & -> & Hu & Hh). simplify_eq. by split_and!.
Qed.
Lemma inside_closed s cx : inside s cx -> open_group cx = None -> s = Idle.
Proof. intros [[Hc Hs] [->|[g ->]]] Ho; [done|]. destruct Hs as (o & Ho' & _). congruence. Qed.
Lemma inside_opened cx o : calm cx -> open_group cx = Some o ->
  dispatchable (reverse (undo <$> reversals o)) -> dispatchable (df_effect <$> og_deferred o) ->
  inside (Opened (members_of o)) cx.
Proof. intros. split; [|eauto]. split; [done|]. exists o. by split_and!. Qed.
Lemma inside_idle cx : stands Idle cx -> inside Idle cx.
Proof. intros. split; [done|by left]. Qed.
Lemma inside_host s cx w : inside s cx -> inside s (set_host w cx).
Proof. intros [[Hc Hs] Hi]. split; [|done]. split; [done|]. by destruct s. Qed.

(** After a call of the handle, and what it said. *)
Definition told_inside {T} (says : Answer T -> list Event -> Prop) (a : Answer T) (evs : list Event) (s : Saga) (cx : Cx) : Prop :=
  says a evs /\ now (fun _ => inside) a s cx.
Definition told_stands {T} (says : Answer T -> list Event -> Prop) (a : Answer T) (evs : list Event) (s : Saga) (cx : Cx) : Prop :=
  says a evs /\ now (fun _ => stands) a s cx.

Lemma refused_call {T} (P : Prop) body (a : Answer T) err : ~ P -> a = Raised err -> call P body a [].
Proof. intros Hn ->. right. split_and!; [done|done|by exists err]. Qed.

Lemma tells_footprint s cx resource (Q : Post unit) : inside s cx ->
  (forall err, ~ member_of s resource -> Q (Raised err) [] s cx) ->
  (forall o, open_group cx = Some o -> s = Opened (members_of o) -> resource ∈ og_resources o -> Q (Got tt) [] s cx) ->
  tells s cx (check_footprint resource) Q.
Proof.
  intros Hin He Hok. apply tells_bind. destruct (open_group cx) as [o|] eqn:Ho.
  - eapply tells_get_open; [done|]. destruct (inside_open _ _ _ Hin Ho) as (-> & _). case_bool_decide as Hres.
    + by eapply tells_ret, Hok.
    + apply tells_raise, He. by intros (g & [= <-] & Hg).
  - apply tells_get_open_none; [done|]. apply He. rewrite (inside_closed _ _ Hin Ho). by intros (g & ? & _).
Qed.
Lemma member_opened o resource : resource ∈ og_resources o -> member_of (Opened (members_of o)) resource.
Proof. intros. by exists (members_of o). Qed.

Lemma reversible_inside s cx resource e f : inside s cx ->
  tells s cx (reversible resource e f) (told_inside (says_reversible s resource e f)).
Proof.
  intros Hin. apply tells_bind, tells_footprint; [done|..].
  { intros err Hn. split; [eapply refused_call; [|done]; by intros [? _]|exact Hin]. }
  intros o Ho -> Hres. apply member_opened in Hres as Hm. destruct (inside_open _ _ _ Hin Ho) as (_ & Hc & Hu & Hh). simpl. apply tells_bind.
  apply (tells_as_member (Forward resource f) (fun r => after_forward f r (members_of o))); try done; try by apply Hc; try by rewrite Ho.
  - intros Hb r. by constructor.
  - intros Hb. split; [eapply refused_call; [|done]; intros [_ ?]; congruence|exact Hin].
  - intros Hb w [v|err|] Hnd; [|split; [left; split; [done|]; by exists (Raised err), []|by apply inside_host]|done].
    simpl. unfold check_dispatchable. destruct (binds_arguments (f v)) eqn:Hbf.
    + apply tells_bind, tells_get, tells_bind. eapply tells_settle; [done|done|intros; constructor|].
      intros a evs s' cx' (r & -> & -> & Hnow).
      assert (forall a' q n d, (forall v', a' <> Got v') ->
        says_reversible (Opened (members_of o)) resource e f a' [Dispatched (Forward resource f) e (Got v); Settling n q d r]) as Hsay.
      { intros a' q n d Ha'. left. split; [done|]. eexists (Got v), _. split; [done|]. rewrite Hbf. split; [by repeat constructor|done]. }
      destruct (from_option id (Got tt) r) as [[]|err|]; simpl in *; [apply tells_raise|..]; (split; [by apply Hsay|]); try done;
        destruct Hnow as [-> Hi]; by apply inside_idle.
    + apply tells_bind. apply tells_bind. eapply tells_get_open; [done|]. simpl. apply tells_update; [done|]. apply tells_ret. simpl.
      assert (push_undo (f v) (members_of o) = members_of (mk_open (og_name o) (og_resources o)
        (reversals o ++ [mk_reversal resource (kind e) (f v)]) (og_deferred o) (og_atomic o))) as ->.
      { unfold members_of, push_undo. simpl. by rewrite fmap_app, reverse_app. }
      split; [left; split; [done|]; exists (Got v), []; by rewrite Hbf|].
      apply inside_opened; [done|done|..]; simpl; [|done].
      rewrite fmap_app, reverse_app. by constructor.
  - intros Hb cx'. split; [|done]. left. split; [done|]. by exists Dead, [].
Qed.

Lemma read_inside s cx resource e : inside s cx ->
  tells s cx (read resource e) (told_inside (says_read s resource e)).
Proof.
  intros Hin. apply tells_bind, tells_footprint; [done|..].
  { intros err Hn. split; [eapply refused_call; [|done]; by intros [? _]|exact Hin]. }
  intros o Ho -> Hres. simpl. apply member_opened in Hres as Hm. destruct (mutates e) eqn:Hmut.
  { apply tells_bind. eapply tells_get_open; [done|]. apply tells_raise. split; [eapply refused_call; [|done]; intros (_ & ? & _); congruence|exact Hin]. }
  destruct (inside_open _ _ _ Hin Ho) as (_ & Hc & Hu & Hh).
  apply (tells_as_member (Reading resource) (fun r => unless_dead r (Opened (members_of o)))); try done; try by apply Hc; try by rewrite Ho.
  - intros _ r. by constructor.
  - intros Hb. split; [eapply refused_call; [|done]; intros (_ & _ & ?); congruence|exact Hin].
  - intros Hb w r Hnd. split; [by left|]. destruct r; [by apply inside_host..|done].
  - intros Hb cx'. split; [by left|done].
Qed.

Lemma deferred_inside s cx resource e : inside s cx ->
  tells s cx (deferred resource e) (told_inside (says_defer s resource e)).
Proof.
  intros Hin. apply tells_bind, tells_footprint; [done|..].
  { intros err Hn. split; [eapply refused_call; [|done]; by intros [? _]|exact Hin]. }
  intros o Ho -> Hres. simpl. apply member_opened in Hres as Hm. unfold check_dispatchable.
  destruct (binds_arguments e) eqn:Hb.
  { apply tells_bind, tells_get, tells_raise. split; [eapply refused_call; [|done]; intros [_ ?]; congruence|exact Hin]. }
  destruct (inside_open _ _ _ Hin Ho) as (_ & Hc & Hu & Hh).
  apply (tells_event (Held resource e) _ (Opened (hold e (members_of o)))); [by constructor|done|].
  apply tells_bind. eapply tells_get_open; [done|]. simpl. apply tells_update; [done|].
  assert (hold e (members_of o) = members_of (mk_open (og_name o) (og_resources o) (reversals o)
    (og_deferred o ++ [mk_deferred resource e]) (og_atomic o))) as ->.
  { unfold members_of, hold. simpl. by rewrite fmap_app. }
  split; [by left|]. apply inside_opened; [done|done|done|]. simpl. rewrite fmap_app. apply Forall_app. split; [done|]. by repeat constructor.
Qed.

Lemma atomic_inside s cx resource m : inside s cx ->
  tells s cx (atomic resource m) (told_inside (says_atomic (host cx) s resource m)).
Proof.
  intros Hin. apply tells_bind, tells_footprint; [done|..].
  { intros err Hn. split; [eapply refused_call; [|done]; by intros [? _]|exact Hin]. }
  intros o Ho -> Hres. simpl. apply member_opened in Hres as Hm. apply tells_bind, tells_get. simpl.
  destruct (store_is_atomic (host cx)) eqn:Hat; simpl.
  2: { apply tells_raise. split; [eapply refused_call; [|done]; intros [_ ?]; congruence|exact Hin]. }
  destruct (inside_open _ _ _ Hin Ho) as (_ & Hc & Hu & Hh).
  apply (tells_event (Enlisted resource m) _ (Opened (enlist m (members_of o)))); [by constructor|done|].
  apply tells_bind. eapply tells_get_open; [done|]. simpl. apply tells_update; [done|].
  assert (enlist m (members_of o) = members_of (mk_open (og_name o) (og_resources o) (reversals o)
    (og_deferred o) (og_atomic o ++ [mk_atomic resource m]))) as ->.
  { unfold members_of, enlist. simpl. by rewrite fmap_app. }
  split; [by left|]. by apply inside_opened.
Qed.

(** Explicit abandonment. *)
Lemma no_opened s cx : inside s cx -> open_group cx = None -> ~ exists g, s = Opened g.
Proof. intros Hin Ho [g Hg]. rewrite (inside_closed _ _ Hin Ho) in Hg. done. Qed.
Lemma rested_stands {T} (a : Answer T) s cx : now (fun _ => rested) a s cx -> now (fun _ => stands) a s cx.
Proof. destruct a; simpl; try done; by intros [-> ?]. Qed.
Lemma abandon_stands s cx why : inside s cx ->
  tells s cx (abort_open_group why) (told_stands (says_abandon s)).
Proof.
  intros Hin. destruct (open_group cx) as [o|] eqn:Ho.
  - destruct (inside_open _ _ _ Hin Ho) as (-> & Hc & Hu & Hh).
    apply (tells_event Abandoned _ (TakingBack (og_name o) (reverse (undo <$> reversals o)))); [constructor|done|].
    apply tells_abort; [done..|]. intros a evs s' cx' (Ha & _ & Hnow). split; [|by apply rested_stands].
    left. split; [by eexists|]. by exists evs.
  - apply tells_bind, tells_get_open_none; [done|]. split; [eapply refused_call; [by eapply no_opened|done]|apply Hin].
Qed.

(** ** The frontier *)

(** The context past the frontier: the deferred members are in hand. *)
Definition crossing (g : Members) (cx : Cx) : Prop :=
  calm cx /\ dispatchable (g_undos g) /\ exists o, open_group cx = Some o /\ holding [] g = members_of o.

Lemma crossing_host g cx w : crossing g cx -> crossing g (set_host w cx).
Proof. intros (Hc & Hu & o & Ho & Hg). split; [done|split; [done|by exists o]]. Qed.
Lemma crossing_holding g es cx : crossing g cx -> crossing (holding es g) cx.
Proof. intros (Hc & Hu & o & Ho & Hg). split; [done|split; [done|by exists o]]. Qed.
Lemma crossing_paused g c d cx : crossing g cx -> stands (Paused (holding [] g) c d) cx.
Proof.
  intros (Hc & Hu & o & Ho & Hg). split; [done|]. exists o. rewrite Hg. split_and!; try done.
  - by rewrite <-Hg.
  - rewrite <-Hg. constructor.
Qed.
Lemma crossing_abort g cx why (Q : Post unit) : crossing g cx -> (forall a evs s' cx', taken_back (g_name g) a evs s' cx' -> Q a evs s' cx') ->
  tells (TakingBack (g_name g) (g_undos g)) cx (abort_open_group why) Q.
Proof.
  intros (Hc & Hu & o & Ho & Hg) HQ.
  assert (g_name g = og_name o /\ g_undos g = reverse (undo <$> reversals o)) as [En Hus].
  { unfold holding, members_of in Hg. by simplify_eq. }
  rewrite Hus in Hu |- *. rewrite En in *. by apply tells_abort.
Qed.
Lemma crossing_settle s g cx q d (Q : Post unit) : crossing g cx ->
  (forall r, saga_step ab s (Settling (g_name g) q d r) (closes r)) ->
  (forall a evs s' cx', settling (g_name g) q d a evs s' cx' -> Q a evs s' cx') ->
  tells s cx (settle_open_group q d) Q.
Proof.
  intros (Hc & Hu & og & Ho & Hg) Hs HQ.
  assert (og_name og = g_name g) as En by (unfold holding, members_of in Hg; by simplify_eq).
  eapply tells_settle; [done|done|by rewrite En|by rewrite En].
Qed.

(** A failure past the frontier: the group is closed, and not committed. *)
Definition failed {T} (a : Answer T) (evs : list Event) (s : Saga) (cx : Cx) : Prop :=
  Forall aftermath evs /\ existsb (settled_as Committed) evs = false /\ (forall v, a <> Got v) /\ now (fun _ => stands) a s cx.
(** Closing the group, one way or the other, and failing. *)
Lemma tells_failing {T} s cx (m : G unit) (err : GroupError) (Q : Post T) :
  tells s cx m (fun a evs s' cx' => Forall aftermath evs /\ existsb (settled_as Committed) evs = false /\ now (fun _ => rested) a s' cx') ->
  (forall a evs s' cx', failed a evs s' cx' -> Q a evs s' cx') -> tells s cx (m ;; raise err) Q.
Proof.
  intros Hm HQ. apply tells_bind. eapply tells_mono; [exact Hm|]. intros [[]|err'|] evs s' cx' (Ha & Hn & Hr); simpl in Hr.
  - apply tells_raise. rewrite app_nil_r. destruct Hr as [-> Hr]. by apply HQ.
  - destruct Hr as [-> Hr]. by apply HQ.
  - by apply HQ.
Qed.
Lemma taken_back_failing n a evs s cx : taken_back n a evs s cx ->
  Forall aftermath evs /\ existsb (settled_as Committed) evs = false /\ now (fun _ => rested) a s cx.
Proof. by intros ([? _] & ? & ?). Qed.
Lemma quarantine_failing n d a evs s cx : settling n Quarantined d a evs s cx ->
  Forall aftermath evs /\ existsb (settled_as Committed) evs = false /\ now (fun _ => rested) a s cx.
Proof. intros (r & -> & -> & Hn). split_and!; [by repeat constructor|by destruct r as [[]|]|done]. Qed.

Lemma members_cross g cx ms : crossing g cx -> g_atoms g = am_inner <$> ms ->
  tells (AtFrontier g) cx (commit_members (g_name g) ms)
    (fun a evs s' cx' => match a with
       | Got _ => s' = Released (holding (g_held g) g) true [] /\ crossing g cx' /\ exists r, evs = [Transacted (g_name g) (g_atoms g) r]
       | _ => failed a evs s' cx'
       end).
Proof.
  intros Hx Ha. pose proof (crossing_holding _ (g_held g) _ Hx) as Hx'. apply tells_bind, tells_attempt. rewrite <-Ha.
  apply (tells_host (Transacted (g_name g) (g_atoms g)) (fun r => after_transaction r (holding (g_held g) g)));
    [done|intros; constructor|].
  intros w [[]|err|]; simpl.
  { apply tells_ret. split_and!; [done|by apply crossing_host|by eexists]. }
  2: { by split_and!; [repeat constructor|..]. }
  pose proof (crossing_host _ _ w Hx') as Hw.
  assert (forall a evs s' cx', failed (T:=unit) a evs s' cx' ->
    match a with
    | Got _ => s' = Released (holding (g_held g) g) true [] /\ crossing g cx' /\ (exists r, Transacted (g_name g) (g_atoms g) (Raised err) :: evs = [Transacted (g_name g) (g_atoms g) r])
    | _ => failed a (Transacted (g_name g) (g_atoms g) (Raised err) :: evs) s' cx' end) as Hfail.
  { intros a evs s' cx' (? & ? & Hng & ?). destruct a as [v| |]; [by destruct (Hng v)|..]; (split_and!; [by constructor|done|done|done]). }
  assert (forall what, tells (TakingBack (g_name g) (g_undos g)) (set_host w cx)
    (abort_open_group what ;; raise (GroupAborted what) : G unit)
    (fun a evs s' cx' => match a with
       | Got _ => s' = Released (holding (g_held g) g) true [] /\ crossing g cx' /\ (exists r, Transacted (g_name g) (g_atoms g) (Raised err) :: evs = [Transacted (g_name g) (g_atoms g) r])
       | _ => failed a (Transacted (g_name g) (g_atoms g) (Raised err) :: evs) s' cx' end)) as Habort.
  { intros what. apply tells_failing; [|exact Hfail]. apply (crossing_abort _ _ _ _ Hw). intros. by eapply taken_back_failing. }
  destruct err; try apply Habort. simpl. apply tells_failing; [|exact Hfail].
  eapply (crossing_settle _ _ _ _ _ _ Hw); [intros; constructor|]. intros. by eapply quarantine_failing.
Qed.

(** What a release comes to, past the outputs it had. *)
Definition releases (a : Answer (list V)) (outputs : list V) (evs : list Event) (s : Saga) (cx : Cx) : Prop :=
  Forall aftermath evs /\ now (fun _ => stands) a s cx /\
  match a with
  | Got outs => outs = outputs ++ omap released_value evs /\ existsb (settled_as Committed) evs = true
  | Raised _ => existsb (settled_as Committed) evs = false
  | Dead => True
  end.
Lemma release_stands name c (ms : list (Deferred (E:=E))) : forall g cx outputs done_,
  crossing g cx -> g_name g = name -> g_held g = df_effect <$> ms -> dispatchable (g_held g) ->
  length outputs = length done_ ->
  tells (Released g c done_) cx (release name c outputs ms) (fun a evs s cx => releases a outputs evs s cx).
Proof.
  induction ms as [|m ms IH]; intros g cx outputs done_ Hx Hn Hg Hd Hl; simpl.
  { apply tells_bind. eapply (crossing_settle _ _ _ _ _ _ Hx); [intros; by constructor|].
    intros a evs s' cx' (r & -> & -> & Hnow).
    assert (Forall aftermath [Settling (g_name g) Committed None r]) as Haf by (by repeat constructor).
    destruct r as [[[]|err|]|]; simpl in *; [destruct Hnow as [-> Hnow]; apply tells_ret|destruct Hnow as [-> Hnow]| |destruct Hnow as [-> Hnow]; apply tells_ret];
      (split; [exact Haf|split; [exact Hnow|]]); try done; (split; [simpl; by rewrite app_nil_r|done]). }
  rewrite Hg in Hd. apply Forall_cons in Hd as [Hb Hd].
  pose proof (crossing_holding _ (df_effect <$> ms) _ Hx) as Hx'.
  apply tells_bind, tells_attempt. destruct Hx as ((Hm & Hr) & Hu & o & Ho & Hs).
  apply (tells_as_member Releasing (fun r => after_release (df_effect m) r (holding (df_effect <$> ms) g) c done_)); try done; try by rewrite Ho.
  - intros _ r. by constructor.
  - by rewrite Hb.
  - intros _ w [v|err|] Hnd; [| |done]; simpl.
    + eapply tells_mono; [apply IH; try done; rewrite !length_app; simpl; lia|].
      intros a evs s' cx' (Ha & Hst & Hout). split_and!; [by constructor|done|]. destruct a as [outs| |]; [|done|done].
      simpl. destruct Hout as [-> ?]. by rewrite <-app_assoc.
    + pose proof (crossing_host _ _ w Hx') as Hw. unfold after_release.
      assert (forall a evs s' cx', failed (T:=list V) a evs s' cx' -> releases a outputs (Dispatched Releasing (df_effect m) (Raised err) :: evs) s' cx') as Hfail.
      { intros a evs s' cx' (? & ? & Hng & ?). split_and!; [by constructor|done|]. destruct a as [v| |]; [by destruct (Hng v)|done|done]. }
      destruct (is_pause err); [by apply tells_raise, Hfail; split_and!; [..|by apply (crossing_paused _ _ _ _ Hw)]|]. rewrite Hl, <-Hn.
      destruct (bool_decide (length done_ = 0) && negb c && negb (may_have_externalised err)).
      * apply tells_failing; [|exact Hfail]. apply (crossing_abort _ _ _ _ Hw). intros. by eapply taken_back_failing.
      * apply tells_failing; [|exact Hfail]. eapply (crossing_settle _ _ _ _ _ _ Hw); [intros; constructor|]. intros. by eapply quarantine_failing.
  - intros _ cx'. by split_and!; [repeat constructor|..].
Qed.

Lemma head_filter_None (invs : list Invariant) :
  head (filter (fun i => holds i = false) invs) = None -> forall i, i ∈ invs -> holds i = true.
Proof.
  intros Hn i Hi. apply head_None in Hn. destruct (holds i) eqn:Hh; [done|].
  assert (i ∈ filter (fun i => holds i = false) invs) as Hin by by apply list_elem_of_filter.
  rewrite Hn in Hin. by apply elem_of_nil in Hin.
Qed.

Lemma says_committed s invariants (a : Answer (list V)) rest : (exists g, s = Opened g) -> Forall aftermath rest ->
  match a with
  | Got outs => outs = omap released_value rest /\ existsb (settled_as Committed) rest = true
  | Raised _ => existsb (settled_as Committed) rest = false
  | Dead => True
  end -> says_commit s invariants a (Frontier invariants :: rest).
Proof. intros Hs Hf Ha. left. split; [done|]. exists rest. split; [done|]. destruct a; [destruct Ha|..]; done. Qed.

Lemma commit_stands s cx invariants : inside s cx ->
  tells s cx (commit invariants) (told_stands (says_commit s invariants)).
Proof.
  intros Hin. unfold commit.
  destruct (open_group cx) as [o|] eqn:Ho.
  2: { assert (told_stands (says_commit s invariants) (Raised no_group) [] s cx) as Hno
         by (split; [eapply refused_call; [by eapply no_opened|done]|apply Hin]).
       destruct (head _) as [i|]; [apply tells_bind, tells_bind|apply tells_bind]; by apply tells_get_open_none. }
  destruct (inside_open _ _ _ Hin Ho) as (-> & Hc & Hu & Hd).
  destruct (head (filter (fun i => holds i = false) invariants)) as [i|] eqn:Hh.
  { apply head_Some_elem_of, list_elem_of_filter in Hh.
    apply (tells_event (Frontier invariants) _ (TakingBack (og_name o) (reverse (undo <$> reversals o))));
      [constructor; exists i; by destruct Hh|done|].
    apply tells_failing.
    - apply tells_abort; [done..|]. intros. by eapply taken_back_failing.
    - intros a evs s' cx' (Ha & Hn & Hng & Hst). split; [|done]. apply says_committed; [by eexists|done|].
      destruct a as [v| |]; [by destruct (Hng v)|done|done]. }
  pose proof (head_filter_None _ Hh) as Hall. apply tells_bind. eapply tells_get_open; [done|]. simpl.
  set (taken := mk_open (og_name o) (og_resources o) (reversals o) [] []).
  assert (crossing (members_of o) (set_open (Some taken) cx)) as Hx by (split; [done|split; [done|by exists taken]]).
  case_bool_decide as Hlen; simpl.
  - apply nil_length_inv in Hlen.
    apply (tells_event (Frontier invariants) _ (Released (members_of o) false []));
      [constructor; [done|simpl; by rewrite Hlen]|done|].
    apply tells_bind, tells_update; [done|]. apply tells_bind, tells_ret. simpl.
    eapply tells_mono; [by apply release_stands|]. intros a evs s' cx' (Ha & Hst & Hout). split; [|done].
    apply says_committed; [by eexists|done|done].
  - apply (tells_event (Frontier invariants) _ (AtFrontier (members_of o)));
      [apply step_frontier; [done|simpl; intros Hn%fmap_nil_inv; by rewrite Hn in Hlen]|done|].
    apply tells_bind, tells_update; [done|]. apply tells_bind. simpl.
    eapply tells_mono; [by apply (members_cross (members_of o))|].
    intros a evs s' cx' Ha. assert (forall a' : Answer (list V), failed a' evs s' cx' -> told_stands (says_commit (Opened (members_of o)) invariants) a' (Frontier invariants :: evs) s' cx') as Hfail.
    { intros a' (? & ? & Hng & ?). split; [|done]. apply says_committed; [by eexists|done|]. destruct a' as [v| |]; [by destruct (Hng v)|done|done]. }
    destruct a as [[]|err|]; [|destruct Ha as (? & ? & _ & ?); by apply (Hfail (Raised err))|destruct Ha as (? & ? & _ & ?); by apply (Hfail Dead)].
    destruct Ha as (-> & Hx' & r & ->). eapply tells_mono; [by apply release_stands|].
    intros a evs s' cx'' (Ha & Hst & Hout). split; [|done]. apply says_committed; [by eexists|by constructor|done].
Qed.

(** ** Beside a group, and opening one *)

Lemma stands_open s cx o : stands s cx -> open_group cx = Some o ->
  (exists g, members s = Some g /\ g = members_of o) /\ is_ambient s
  /\ dispatchable (reverse (undo <$> reversals o)).
Proof.
  intros [Hc Hs] Ho.
  destruct s; try done; [congruence|..]; destruct Hs as (o' & Ho' & -> & Hu & _); simplify_eq; (split; [by eexists|done]).
Qed.
Lemma stands_idle s cx : stands s cx -> open_group cx = None -> s = Idle.
Proof. intros [Hc Hs] Ho. destruct s; try done; destruct Hs as (o & Ho' & _); congruence. Qed.
Lemma stands_host s cx w : stands s cx -> stands s (set_host w cx).
Proof. intros [Hc Hs]. split; [done|]. by destruct s. Qed.

Lemma effect_stands s cx e : stands s cx ->
  tells s cx (effect e) (told_stands (says_effect s e)).
Proof.
  intros Hs. unfold effect. destruct (binds_arguments e) eqn:Hb.
  { apply tells_raise. split; [eapply refused_call; [|done]; intros [? _]; congruence|done]. }
  apply tells_bind, tells_get. simpl. destruct (open_group cx) as [o|] eqn:Ho.
  - destruct (stands_open _ _ _ Hs Ho) as (_ & Ham & _). pose proof Hs as [[Hm Hr] _]. rewrite Hm, Hr. simpl.
    destruct (mutates e) eqn:Hmut.
    { apply tells_raise. split; [eapply refused_call; [|done]|done]. intros [_ [->|?]]; [done|congruence]. }
    apply (tells_host (Dispatched Beside e) (fun r => unless_dead r s)); [done|intros; by constructor|].
    intros w r. split; [left; auto|]. destruct r; [by apply stands_host..|done].
  - pose proof (stands_idle _ _ Hs Ho) as ->. pose proof Hs as [[Hm Hr] _]. rewrite Hr.
    apply (tells_host (Dispatched Beside e) (fun r => unless_dead r Idle)); [done|intros; constructor|].
    intros w r. split; [left; auto|]. destruct r; [by apply stands_host..|done].
Qed.

Lemma group_stands s cx name resources : stands s cx ->
  tells s cx (group name resources) (fun a evs s' cx' => says_group s name resources a evs /\
    now (fun r s' cx' => match r with Ok _ => inside s' cx' | Err _ => stands s' cx' end) a s' cx').
Proof.
  intros Hs. apply tells_bind, tells_get. simpl. destruct (open_group cx) as [o|] eqn:Ho.
  { apply tells_raise. split; [eapply refused_call; [|done]|done]. intros [-> _]. destruct Hs as [_ Hs]. simpl in Hs. congruence. }
  pose proof (stands_idle _ _ Hs Ho) as ->. case_bool_decide as Hres.
  { apply tells_raise. split; [eapply refused_call; [|done]; by intros [_ ?]|done]. }
  set (fresh := mk_open name resources [] [] [] : OpenGroup (E:=E) (A:=A)).
  assert (forall cx', calm cx' -> inside (Opened (members_of fresh)) (set_open (Some fresh) cx')) as Hopen.
  { intros cx' Hc. apply inside_opened; [done|done|constructor|constructor]. }
  assert (forall r, saga_step ab Idle (Opening name resources r) (opens r (Opened (members_of fresh)))) as Hstep.
  { intros r. by apply step_open. }
  assert (forall r (a : Answer unit), a = from_option id (Got tt) r -> says_group Idle name resources a [Opening name resources r]) as Hsay.
  { intros r a ->. left. split; [done|]. by exists r. }
  assert (opened_in (recorded_groups cx) name = 0 ->
    tells Idle cx (on_host (append_group (GroupOpened name resources)) ;; update (set_open (Some fresh)))
      (fun a evs s' cx' => says_group Idle name resources a evs /\
        now (fun r s' cx' => match r with Ok _ => inside s' cx' | Err _ => stands s' cx' end) a s' cx')) as Happ.
  { intros H0. apply tells_bind.
    apply (tells_host (fun r => Opening name resources (Some r)) (fun r => opens (Some r) (Opened (members_of fresh)))); [done|auto|].
    intros w [[]|err|]; simpl; [|split; [by apply Hsay|by apply stands_host]|split; [by apply Hsay|done]].
    apply tells_update; [done|]. split; [by apply Hsay|]. apply Hopen, Hs. }
  destruct (recorded_groups cx !! name) as [r|] eqn:Hrec; [|by apply Happ; unfold opened_in; rewrite Hrec].
  case_bool_decide as Hlt; [|apply Happ; unfold opened_in; rewrite Hrec; simpl; lia].
  apply tells_bind. apply (tells_noted (Opening name resources None) _ (Opened (members_of fresh))); [apply (Hstep None)| |].
  - simpl. unfold settled_in, opened_in. rewrite Hrec. by split.
  - apply tells_update; [done|]. split; [by apply Hsay|]. apply Hopen, Hs.
Qed.

(** ** A whole step *)

(** The program's part of a step: its events follow the skill. *)
Definition invoked {held} (sk : Skill held) (s : Saga) (cx : Cx) (a : Answer (result SkillError (Outcome V)))
    (evs : list Event) (s' : Saga) (cx' : Cx) : Prop :=
  match a with
  | Got r => follows ab sk (outside cx) s evs (outside cx') s' (Some r) /\ stands s' cx'
  | Raised _ => False
  | Dead => follows ab sk (outside cx) s evs (outside cx') s' None /\ s' = Over
  end.
Lemma stage_told {T} (says : Answer T -> list Event -> Prop) next s cx (m : G T)
    (k : result GroupError T -> G (result SkillError (Outcome V))) (P : result GroupError T -> Saga -> Cx -> Prop) :
  tells s cx m (fun a evs s1 cx1 => says a evs /\ now P a s1 cx1) ->
  (forall r s1 cx1, P r s1 cx1 -> at_rest s1) ->
  (forall r s1 cx1, P r s1 cx1 -> tells s1 cx1 (k r) (fun a evs s' cx' => match a with
     | Got res => next r (outside cx1) s1 evs (outside cx') s' (Some res) /\ stands s' cx'
     | Raised _ => False
     | Dead => next r (outside cx1) s1 evs (outside cx') s' None /\ s' = Over end)) ->
  tells s cx (r ← attempt m; k r) (fun a evs s' cx' => match a with
     | Got res => stage ab says (fun r o1 s1 evs => next r o1 s1 evs (outside cx') s' (Some res))
                    (fun o1 => outside cx' = o1 /\ s' = Over /\ Some res = None) (outside cx) s evs /\ stands s' cx'
     | Raised _ => False
     | Dead => stage ab says (fun r o1 s1 evs => next r o1 s1 evs (outside cx') s' None)
                    (fun o1 => outside cx' = o1 /\ s' = Over /\ @None (result SkillError (Outcome V)) = None) (outside cx) s evs /\ s' = Over end).
Proof.
  intros Hm Hrest Hk. apply tells_bind, tells_attempt. eapply tells_mono; [by apply tells_runs|].
  intros a evs s1 cx1 (Hr & Hs & Hn). simpl in Hn.
  destruct a as [v|err|]; simpl in Hn.
  - eapply tells_mono; [by apply Hk|]. intros [res|e|] evs2 s' cx' Ha; [|done|]; destruct Ha as [Ha Hst]; (split; [|done]);
      exists (Got v), evs, (outside cx1), s1, evs2; split_and!; try done; by eapply Hrest.
  - eapply tells_mono; [by apply Hk|]. intros [res|e|] evs2 s' cx' Ha; [|done|]; destruct Ha as [Ha Hst]; (split; [|done]);
      exists (Raised err), evs, (outside cx1), s1, evs2; split_and!; try done; by eapply Hrest.
  - split; [|done]. exists Dead, evs, (outside cx1), s1, []. rewrite app_nil_r. by split_and!.
Qed.

Lemma invoke_stands held (sk : Skill held) : forall s cx,
  (if held then inside s cx else stands s cx) -> tells s cx (invoke sk) (invoked sk s cx).
Proof.
  assert (forall s cx, inside s cx -> at_rest s) as Hin by (intros s cx [Hs _]; by eapply stands_rest).
  induction sk as [r|e k IH|name resources sk1 IH1 k IH2|resource e f k IH|resource e k IH|resource e k IH|resource m k IH|invs k IH|why k IH|k IH];
    intros s cx Hs; simpl.
  - by apply tells_ret.
  - apply (stage_told _ (fun r o s evs o' s' res => follows ab (k r) o s evs o' s' res) _ _ _ _ (fun _ => stands)); [by apply effect_stands|..].
    + intros; by eapply stands_rest.
    + intros r s1 cx1. apply IH.
  - apply (stage_told _ (fun r o s evs o' s' res => match r with Ok _ => follows ab sk1 o s evs o' s' res | Err err => follows ab (k err) o s evs o' s' res end)
      _ _ _ _ (fun r s' cx' => match r with Ok _ => inside s' cx' | Err _ => stands s' cx' end)); [by apply group_stands|..].
    + intros [] s1 cx1; [apply Hin|apply stands_rest].
    + intros [] s1 cx1; [apply IH1|apply IH2].
  - apply (stage_told _ (fun r o s evs o' s' res => follows ab (k r) o s evs o' s' res) _ _ _ _ (fun _ => inside)); [by apply reversible_inside|..].
    + intros; by eapply Hin.
    + intros r s1 cx1. apply IH.
  - apply (stage_told _ (fun r o s evs o' s' res => follows ab (k r) o s evs o' s' res) _ _ _ _ (fun _ => inside)); [by apply read_inside|..].
    + intros; by eapply Hin.
    + intros r s1 cx1. apply IH.
  - apply (stage_told _ (fun r o s evs o' s' res => follows ab (k r) o s evs o' s' res) _ _ _ _ (fun _ => inside)); [by apply deferred_inside|..].
    + intros; by eapply Hin.
    + intros r s1 cx1. apply IH.
  - apply (stage_told _ (fun r o s evs o' s' res => follows ab (k r) o s evs o' s' res) _ _ _ _ (fun _ => inside)); [by apply atomic_inside|..].
    + intros; by eapply Hin.
    + intros r s1 cx1. apply IH.
  - apply (stage_told _ (fun r o s evs o' s' res => follows ab (k r) o s evs o' s' res) _ _ _ _ (fun _ => stands)); [by apply commit_stands|..].
    + intros; by eapply stands_rest.
    + intros r s1 cx1. apply IH.
  - apply (stage_told _ (fun r o s evs o' s' res => follows ab (k r) o s evs o' s' res) _ _ _ _ (fun _ => stands)); [by apply abandon_stands|..].
    + intros; by eapply stands_rest.
    + intros r s1 cx1. apply IH.
  - apply IH. apply Hs.
Qed.

(** How a step leaves the context: no group open, or one left for a resume. *)
Definition left (r : result SkillError (Outcome V)) (s : Saga) (cx : Cx) : Prop :=
  stands s cx /\ (s = Idle \/ (ab = false /\ pauses r = true)).

Lemma settle_left s cx r : stands s cx ->
  tells s cx (settle_abandoned_group ab r) (fun a evs s' cx' =>
    ended ab r s evs s' a /\ match a with Got r' => left r' s' cx' | Raised _ => False | Dead => s' = Over end).
Proof.
  intros Hs. unfold ended. apply tells_bind, tells_get. simpl. destruct (open_group cx) as [o|] eqn:Ho.
  2: { pose proof (stands_idle _ _ Hs Ho) as ->. apply tells_ret. split; [done|]. split; [done|by left]. }
  destruct (stands_open _ _ _ Hs Ho) as ((g & Hg & ->) & _ & Hd). pose proof Hs as [Hc _]. rewrite Hg.
  apply (tells_event (Ended r) _ (after_step ab r (members_of o) s)); [by constructor|done|]. unfold after_step.
  destruct (negb ab && pauses r) eqn:Hp.
  { apply andb_true_iff in Hp as [Hab Hp]. apply tells_ret. split; [|split; [done|right; by destruct ab]].
    exists []. split_and!; [done|constructor|]. left. by destruct ab. }
  assert (forall (a : Answer (result SkillError (Outcome V))) evs s' cx', Forall aftermath evs ->
    match a with
    | Got r' => rested s' cx' /\ match r' with Ok (OutDone _) | Ok (OutReplan _) => False | _ => True end
    | Raised _ => False
    | Dead => s' = Over
    end ->
    (exists rest, Ended r :: evs = Ended r :: rest /\ Forall aftermath rest /\ match a with
      | Got r' => (r' = r /\ rest = [] /\ ab = false /\ pauses r = true) \/
                  (s' = Idle /\ match r' with Ok (OutDone _) | Ok (OutReplan _) => False | _ => True end)
      | Raised _ => False
      | Dead => s' = Over
      end) /\ match a with Got r' => left r' s' cx' | Raised _ => False | Dead => s' = Over end) as Hend.
  { intros a evs s' cx' Hf Ha. split.
    - exists evs. split_and!; [done|done|]. destruct a as [r'| |]; [|done|done]. destruct Ha as [[-> ?] ?]. by right.
    - destruct a as [r'| |]; [|done|done]. destruct Ha as [[-> ?] ?]. split; [done|by left]. }
  destruct (doubtful r) eqn:Hdoubt.
  - apply tells_bind, tells_attempt. eapply tells_settle; [done|done|intros; constructor|].
    intros a evs s' cx' (q & -> & -> & Hnow).
    assert (Forall aftermath [Settling (og_name o) Quarantined (Some (match r with Err e => skill_text e | Ok _ => [] end)) q]) as Hf by (by repeat constructor).
    destruct (from_option id (Got tt) q) as [[]|err|]; [| |exact (Hend Dead _ s' cx' Hf Hnow)].
    + apply tells_ret. refine (Hend (Got r) _ s' cx' Hf (conj Hnow _)). by destruct r as [[]|].
    + apply tells_ret. exact (Hend (Got (Err (SkStep err))) _ s' cx' Hf (conj Hnow I)).
  - apply tells_bind, tells_attempt. apply tells_abort; [done..|].
    intros a evs s' cx' ([Hf _] & _ & Hnow). destruct a as [[]|err|]; [| |exact (Hend Dead _ s' cx' Hf Hnow)].
    + destruct Hnow as [-> Hst]. destruct r as [[]|]; apply tells_ret; rewrite app_nil_r;
        (split; [exists evs; split_and!; [done|done|by right]|split; [done|by left]]).
    + destruct Hnow as [-> Hst]. apply tells_ret. rewrite app_nil_r. split; [exists evs; split_and!; [done|done|by right]|split; [done|by left]].
Qed.
End logic.

(** What a whole step is, of the outside: the skill's calls, and then what its
    end makes of a group left open. *)
Definition step_told (ab : bool) (sk : Skill false) (w : W) (recorded : gmap str RecordedGroup)
    (cx : Groups.Cx (W:=W) (E:=E) (A:=A)) (a : Answer (result SkillError (Outcome V))) (evs : list Event) (s : Saga) : Prop :=
  exists evs1 o1 s1 evs2 res, evs = evs1 ++ evs2 /\ follows ab sk (w, recorded) Idle evs1 o1 s1 res /\
    match res with
    | Some r => runs ab o1 s1 evs2 (outside cx) s /\ ended ab r s1 evs2 s a
    | None => evs2 = [] /\ o1 = outside cx /\ s1 = s /\ a = Dead
    end.
Lemma step_runs ab (sk : Skill false) w recorded :
  tells ab Idle (fresh_cx w recorded) (run_step ab sk) (fun a evs s cx => step_told ab sk w recorded cx a evs s /\
    match a with Got r => left ab r s cx | Raised _ => False | Dead => s = Over end).
Proof.
  apply tells_bind. eapply tells_mono; [by apply (invoke_stands ab false sk)|].
  intros [r|e|] evs s cx Hs; simpl in Hs; [|done|].
  - destruct Hs as [Hf Hs]. eapply tells_mono; [by apply tells_runs, settle_left|]. intros a evs2 s' cx' (Hr & He & Ha). split; [|done].
    exists evs, (outside cx), s, evs2, (Some r). by split_and!.
  - destruct Hs as [Hf ->]. split; [|done]. exists evs, (outside cx), Over, [], None. rewrite app_nil_r. by split_and!.
Qed.

(** ** What a settlement says *)

Definition registered_of (ev : Event) : option E := match ev with Dispatched (Forward _ f) _ (Got v) => Some (f v) | _ => None end.
Definition undone_of (ev : Event) : option E := match ev with Dispatched Undoing e (Got _) => Some e | _ => None end.
Definition sent_of (ev : Event) : option E := match ev with Dispatched Releasing e (Got _) => Some e | _ => None end.
Definition held_of (ev : Event) : option E := match ev with Held _ e => Some e | _ => None end.
Definition enlisted_of (ev : Event) : option A := match ev with Enlisted _ m => Some m | _ => None end.
Definition transacted_of (ev : Event) : option (list A) := match ev with Transacted _ ms (Got _) => Some ms | _ => None end.

Definition registered (evs : list Event) : list E := omap registered_of evs.
Definition undone (evs : list Event) : list E := omap undone_of evs.
Definition sent (evs : list Event) : list E := omap sent_of evs.
Definition held (evs : list Event) : list E := omap held_of evs.
Definition enlisted (evs : list Event) : list A := omap enlisted_of evs.
Definition transacted (evs : list Event) : list (list A) := omap transacted_of evs.
(** A deferred member's dispatch paused the commit. *)
Definition pauses_release (ev : Event) : bool :=
  match ev with Dispatched Releasing _ (Raised err) => is_pause err | _ => false end.
Definition cut_short (evs : list Event) : bool := existsb pauses_release evs.
Definition troubling (ev : Event) : bool :=
  match ev with
  | Dispatched (Forward _ f) _ (Got v) => binds_arguments (f v)
  | Dispatched Undoing _ (Raised _) | Transacted _ _ (Raised (CommitUnknown _)) => true
  | Dispatched Releasing _ (Raised err) => negb (is_pause err)
  | Ended r => doubtful r
  | _ => false
  end.
Definition opened_by (r : option (Answer unit)) : bool :=
  match r with None | Some (Got _) => true | _ => false end.
Definition settles (ev : Event) : bool := match ev with Settling _ _ _ _ => true | _ => false end.

(** What the events since a group opened make of where it stands. *)
Definition gathered (n : str) (evs : list Event) (g : Members) : Prop :=
  g_name g = n /\ g_undos g = reverse (registered evs) /\ undone evs = [].
Definition told (n : str) (evs : list Event) (s : Saga) : Prop :=
  match s with
  | Opened g =>
      gathered n evs g /\ g_held g = held evs /\ g_atoms g = enlisted evs
      /\ sent evs = [] /\ transacted evs = [] /\ cut_short evs = false
  | AtFrontier g =>
      gathered n evs g /\ g_held g = held evs /\ g_atoms g = enlisted evs /\ length (enlisted evs) <> 0
      /\ sent evs = [] /\ transacted evs = [] /\ cut_short evs = false
  | Released g c d =>
      gathered n evs g /\ sent evs = d /\ d ++ g_held g = held evs
      /\ transacted evs = (if c then [enlisted evs] else []) /\ c = negb (bool_decide (length (enlisted evs) = 0))
      /\ cut_short evs = false
  | Paused g _ _ => gathered n evs g /\ cut_short evs = true
  | TakingBack name us =>
      name = n /\ undone evs ++ us = reverse (registered evs)
      /\ (cut_short evs = true \/ (sent evs = [] /\ transacted evs = []))
  | Doubtful name => name = n /\ existsb troubling evs = true
  | Idle => False
  | Over => True
  end.

Lemma omap_snoc {B} (f : Event -> option B) evs ev : omap f (evs ++ [ev]) = omap f evs ++ option_list (f ev).
Proof. rewrite omap_app. simpl. by destruct (f ev). Qed.
Lemma existsb_snoc' (f : Event -> bool) evs ev : existsb f (evs ++ [ev]) = existsb f evs || f ev.
Proof. rewrite existsb_app. simpl. by rewrite orb_false_r. Qed.

(** Read one more event off the lists, and see what is left to show. *)
Ltac look :=
  unfold told, gathered, registered, undone, sent, held, enlisted, transacted, cut_short in *;
  rewrite ?omap_snoc, ?existsb_snoc'; simpl in *;
  rewrite ?app_nil_r, ?orb_false_r, ?orb_true_r, ?reverse_snoc;
  destruct_and?; simplify_eq/=.

Ltac told := look;
  repeat match goal with H : omap _ _ = [] |- _ => rewrite !H in * end;
  repeat split; simpl; try done; try congruence; try (right; split; congruence); try (left; congruence).

Lemma told_step ab n evs s ev s' :
  told n evs s -> saga_step ab s ev s' -> settles ev = false -> told n (evs ++ [ev]) s'.
Proof.
  intros Ht Hs Hn. destruct Hs; try done; simpl in Ht.
  - destruct s as [| | | | |name us|name|]; try done; destruct r; told.
  - destruct r as [v|err|]; simpl; [destruct (binds_arguments (undo_of v)) eqn:Hb| |done]; told.
    by rewrite Hb, orb_true_r.
  - destruct r; told.
  - told.
  - told.
  - told.
  - told.
  - told. intros Hnil%nil_length_inv. congruence.
  - told. by replace (omap enlisted_of evs) with (@nil A) by congruence.
  - destruct r as [[]|err|]; [|destruct err|done]; told. by rewrite bool_decide_eq_false_2.
  - destruct r as [v|err|]; simpl; [| |done].
    { told. rewrite <-app_assoc. simpl. congruence. }
    destruct (is_pause err) eqn:Hp; [told; by rewrite Hp, orb_true_r|].
    destruct (bool_decide (length done_ = 0) && negb committed && negb (may_have_externalised err)) eqn:Hc.
    + told. right. apply andb_true_iff in Hc as [[Hl%bool_decide_eq_true Hcm]%andb_true_iff _].
      apply nil_length_inv in Hl. apply negb_true_iff in Hcm. by rewrite Hcm in *.
    + told. by rewrite Hp, orb_true_r.
  - destruct r as [v|err|]; [told; by rewrite <-app_assoc|told; by rewrite ?orb_true_r|done].
  - destruct s; simplify_eq/=; unfold after_step;
    (destruct (negb ab && pauses r); [|destruct (doubtful r) eqn:Hd]); told;
    by rewrite Hd, orb_true_r.
Qed.

Lemma told_run ab n evs : forall w s pre w' s',
  told n pre s -> runs ab w s evs w' s' -> Forall (fun ev => settles ev = false) evs -> told n (pre ++ evs) s'.
Proof.
  induction evs as [|ev evs IH]; intros w s pre w' s' Ht Hr Hn; inversion Hr; subst; [by rewrite app_nil_r|].
  apply Forall_cons in Hn as [Hev Hn]. rewrite cons_middle, app_assoc.
  eapply IH; [|done|done]. by eapply told_step.
Qed.

Lemma runs_split ab evs evs' : forall w s w2 s2, runs ab w s (evs ++ evs') w2 s2 ->
  exists w1 s1, runs ab w s evs w1 s1 /\ runs ab w1 s1 evs' w2 s2.
Proof.
  induction evs as [|ev evs IH]; simpl; intros w s w2 s2 Hr; [by exists w, s; split; [constructor|]|].
  inversion Hr; subst. edestruct IH as (wm & sm & Hl & Hr'); [done|].
  exists wm, sm. split; [by eapply runs_cons|done].
Qed.

(** What a settlement claims of the events between it and its group's opening. *)
Definition honest (o : GroupOutcome) (mid : list Event) : Prop :=
  match o with
  | Committed => undone mid = [] /\ sent mid = held mid
                 /\ transacted mid = (if decide (length (enlisted mid) = 0) then [] else [enlisted mid])
  | Aborted => undone mid = reverse (registered mid)
               /\ (cut_short mid = true \/ (sent mid = [] /\ transacted mid = []))
  | Quarantined => existsb troubling mid = true
  end.

Lemma settled_told ab n w s mid o d r w' s' name :
  told n mid s -> runs ab w s [Settling name o d r] w' s' -> name = n /\ honest o mid.
Proof.
  intros Ht Hr. inversion Hr as [|? ? ? ? ? ? ? ? _ Hs]; subst. inversion Hs; subst; simpl in *.
  - destruct Ht as ((<- & Hu & Hun) & <- & Hh & Htr & -> & Hcut). split; [done|].
    match goal with Hn : g_held _ = [] |- _ => rewrite Hn, app_nil_r in Hh end. split_and!; [done|done|]. rewrite Htr. case_bool_decide; by case_decide.
  - destruct Ht as (<- & Hu & Hor). by rewrite app_nil_r in Hu.
  - by destruct Ht as (<- & Hu).
Qed.

(** C30. Every step keeps the contract of its groups, whatever the outside
    answers.  For every skill, every host, every history of recorded group
    records and whether or not the pass abandons a cancelled run, what the step
    tells the outside follows the skill call by call, each answer handed to its
    continuation: a call is refused, silently, exactly when its guard says so; an
    effect inside a group names a declared resource and reaches the world with
    the undo the skill gave it in hand; the frontier checks the invariants the
    skill gave; a commit answers with its releases' values iff it settled
    [Committed], an abandonment answers iff it settled [Aborted]; a record the
    journal holds is consumed, any other is written.  All of it is one run of
    [saga_step]: deferred members wait for the frontier, nothing crosses it past
    a broken invariant, and taking back goes newest first.  A group left open is
    paused or settled, and then the step does not succeed.  The step answers or
    its process died, and when it answers no group is open, except across a
    pause. *)
Theorem step_refines_saga ab (sk : Skill false) w recorded :
  let out := run_step ab sk (fresh_cx w recorded) in
  exists evs s, runs ab (w, recorded) Idle evs (outside out.1) s
  /\ step_told ab sk w recorded out.1 out.2 evs s
  /\ match out.2 with
     | Got r => stands s out.1 /\ (s = Idle \/ (ab = false /\ pauses r = true))
     | Raised _ => False
     | Dead => s = Over
     end.
Proof. exact (step_runs ab sk w recorded). Qed.

(** A settlement says what happened.  Of the calls between a group's opening
    and its settlement: [Committed] means every deferred member was sent, in
    order, the atomic members were committed as one, and nothing was taken back;
    [Aborted] means every landed member was taken back, newest first, and,
    unless a pause cut a commit short, nothing deferred was sent and nothing
    atomic committed; [Quarantined] is only written over a call that failed in a
    way that forbids both claims. *)
Theorem settled_honestly ab (sk : Skill false) w recorded :
  exists evs s, runs ab (w, recorded) Idle evs (outside (run_step ab sk (fresh_cx w recorded)).1) s
  /\ forall pre n res r mid name o d r' post,
       evs = pre ++ Opening n res r :: mid ++ Settling name o d r' :: post ->
       opened_by r = true -> Forall (fun ev => settles ev = false) mid ->
       name = n /\ honest o mid.
Proof.
  destruct (step_runs ab sk w recorded) as (evs & s & Hr & _). exists evs, s. split; [done|].
  intros pre n res r mid name o d r' post -> Hop Hmid.
  apply runs_split in Hr as (w1 & s1 & _ & Hr).
  apply (runs_split _ [Opening n res r]) in Hr as (w2 & s2 & Ho & Hr).
  apply runs_split in Hr as (w3 & s3 & Hm & Hr).
  apply (runs_split _ [Settling name o d r']) in Hr as (w4 & s4 & Hs & _).
  eapply settled_told; [|done].
  change mid with ([] ++ mid). eapply told_run; [|done|done].
  inversion Ho as [|? ? ? ? ? ? ? ? _ Hst Hnil]; subst. inversion Hnil; subst. inversion Hst; subst.
  by destruct r as [[| |]|].
Qed.
End saga.
