(* ===== verification/GroupHost.v ===== *)
(** * Groups over the effect protocol ([src/src/runtime/group.rs], [commit_atomic])

    The instance of [Host]: a member is dispatched by [effect_unlabelled], a
    group record is appended where writing is enabled, and the atomic members
    go through [commit_atomic]: the recorded ones are read back, the others gated
    and then applied in one transaction with their records.

    The transaction answers from a script [Tx]: what each member's [apply]
    returns, and how the commit ends.  [touched] is the outside's list of the
    members whose writes stand. *)

From S2P Require Import Prelude Digest EffectKey Label SinkGate Budget Replay Retry Dispatch Groups.
From stdpp Require Import gmap.

(** How a transaction ends once every member applied: committed, refused by the
    server, or without an acknowledgement (and the writes may stand). *)
Inductive Ending := TxCommitted | TxRefused (e : str) | TxLost (stood : bool) (e : str).

Section host.
Context {V O T : Type} `{Rendering V, Sha256}.
Context (json_null : V).
Context (to_value : T -> result str V) (from_value : V -> result str T).
Context (c : Config (V:=V)).
Context (group_error_text : GroupError -> str).

Abbreviation World := (Dispatch.World (V:=V) (O:=O) (T:=T)).
Abbreviation M := (Dispatch.M (V:=V) (O:=O) (T:=T)).
Abbreviation EffectDescriptor := (Replay.EffectDescriptor (V:=V)).
Abbreviation RecordKind := (Replay.RecordKind (V:=V) (O:=O) (C:=ContentVerdict)).
Abbreviation JRecord := (Replay.JRecord (V:=V) (O:=O) (C:=ContentVerdict)).

Record Tx := mk_tx { applied : list (result EffectError V); ending : Ending }.

(** An effect as a group sees it, and a resource that commits with the journal. *)
Record Member := mk_member { member_effect : Effect (V:=V) (T:=T); sink_bound : bool }.
Record Resource := mk_resource { descriptor : EffectDescriptor }.

Record GroupWorld := mk_gw {
  base : World;
  group_log : list (Seq * GroupRecord);
  transactions : option (list Tx);
  touched : list EffectKey;
}.
Definition set_base (w : World) (g : GroupWorld) : GroupWorld := mk_gw w (group_log g) (transactions g) (touched g).

Definition HM (A : Type) : Type := GroupWorld -> GroupWorld * Answer A.
#[export] Instance hm_ret : MRet HM := fun A a g => (g, Got a).
#[export] Instance hm_bind : MBind HM := fun A B k m g =>
  match m g with
  | (g, Got a) => k a g
  | (g, Raised e) => (g, Raised e)
  | (g, Dead) => (g, Dead)
  end.
Definition refuse {A} (e : GroupError) : HM A := fun g => (g, Raised e).
Definition on_base {A} (m : M A) : HM A := fun g =>
  let '(w, r) := m (base g) in
  (set_base w g, match r with Ret _ a => Got a | Throw _ e => Raised (OfStep e) | Died _ | Spun _ => Dead end).
Definition catching {A} (m : HM A) : HM (result GroupError A) := fun g =>
  match m g with
  | (g, Got a) => (g, Got (Ok a))
  | (g, Raised e) => (g, Got (Err e))
  | (g, Dead) => (g, Dead)
  end.

(** ** The group records *)

(** [StepCtx::append] of a record that is no effect's. *)
Definition append (r : GroupRecord) : HM unit := fun g =>
  let w := base g in
  if negb (writes_enabled c w) then (g, Got tt) else
  let seq := Z.of_nat (S (length (journal w))) in
  let written w := mk_gw (set_journal w (journal w ++ [mk_record (Some (step c)) (phase c) None seq Other]))
                     (group_log g ++ [(seq, r)]) (transactions g) (touched g) in
  match appends (env w) with
  | [] => (g, Dead)
  | Stored :: acks => (written (set_appends w acks), Got tt)
  | NotStored e :: acks => (set_base (set_appends w acks) g, Raised (OfStep (SStore e)))
  | Unacknowledged e :: acks => (written (set_appends w acks), Raised (OfStep (SStore e)))
  end.

(** ** The transaction *)

(** The records [GroupCommit::run] builds for one member. *)
Definition started_record (d : EffectDescriptor) : RecordKind := EffectStarted d Retry true FIRST_ATTEMPT.
Definition done_record (output : V) : RecordKind :=
  EffectDone output None None spend_zero declared_untrusted None.

(** [GroupCommit::run]: the batch, or the first member that failed to apply. *)
Fixpoint group_commit (members : list (EffectKey * Resource)) (outputs : list (result EffectError V)) :
    result EffectError (list (EffectKey * RecordKind)) :=
  match members, outputs with
  | [], _ => Ok []
  | (key, m) :: members, Ok output :: outputs =>
      rest ← group_commit members outputs;
      Ok ((key, started_record (descriptor m)) :: (key, done_record output) :: rest)
  | _ :: _, Err e :: _ => Err e
  | _ :: _, [] => Err (OtherError (lit "the database did not answer"))
  end.

Definition put_all (batch : list (EffectKey * RecordKind)) (w : World) : World :=
  foldl (fun w b => put c b.1 b.2 w) w batch.

(** [AtomicJournal::append_atomic]. *)
Definition append_atomic (members : list (EffectKey * Resource)) : HM unit := fun g =>
  match transactions g with
  | None => (g, Raised (GroupFootprint [] (lit "the store stopped offering a transaction")))
  | Some [] => (g, Dead)
  | Some (tx :: txs) =>
      let g := mk_gw (base g) (group_log g) (Some txs) (touched g) in
      match group_commit members (applied tx) with
      | Err e => (g, Raised (OfStep (SStore (Dispatch.error_text e))))
      | Ok batch =>
          let stands := mk_gw (put_all batch (base g)) (group_log g) (Some txs) (touched g ++ members.*1) in
          match ending tx with
          | TxCommitted => (stands, Got tt)
          | TxRefused e => (g, Raised (OfStep (SStore e)))
          | TxLost stood e => (if stood then stands else g, Raised (CommitUnknown e))
          end
      end
  end.

(** ** [commit_atomic] *)

Definition next_effect_key (d : EffectDescriptor) : HM EffectKey := fun g =>
  let w := base g in
  (set_base (set_ordinal w ((ordinal w + 1) mod 4294967296)%N) g,
   Got (derive (step c) (phase c) (ordinal w) FIRST_ATTEMPT (desc_kind d) (value_bytes (desc_args d)))).

Fixpoint prepare (members : list Resource) : HM (list (EffectKey * Resource)) :=
  match members with
  | [] => mret []
  | m :: members =>
      key ← next_effect_key (descriptor m);
      rest ← prepare members;
      mret ((key, m) :: rest)
  end.

Definition cursor_next (key : EffectKey) (d : EffectDescriptor) :
    HM (option (EffectReplay (V:=V) (O:=O) (C:=ContentVerdict))) :=
  on_base (fun w =>
    match next (cursor w) key d FIRST_ATTEMPT with
    | (cur, Ok r) => (set_cursor w cur, Ret _ r)
    | (cur, Err d) => (set_cursor w cur, Throw _ (SNonDeterminism d))
    end).

Definition member_gate (key : EffectKey) (d : EffectDescriptor) : HM unit := on_base (gate c key d true None 0).
Fixpoint gate_all (members : list (EffectKey * Resource)) : HM unit :=
  match members with
  | [] => mret tt
  | (key, m) :: members => member_gate key (descriptor m) ;; gate_all members
  end.
Fixpoint bill_each (members : list (EffectKey * Resource)) : HM unit :=
  match members with
  | [] => mret tt
  | _ :: members => on_base (bill_replayed spend_zero 0) ;; bill_each members
  end.

(** One member read back: whether history settled it. *)
Definition member_recorded (group : str) (pending : list (EffectKey * Resource)) (key : EffectKey)
    (d : EffectDescriptor) : HM bool :=
  entry ← cursor_next key d;
  match entry with
  | Some (Done _ _ _ s _ _) => on_base (bill_replayed s 0) ;; mret true
  | Some (Refused _ _ _ as refusal) | Some (Denied _ _ _ as refusal) =>
      stands ← catching (on_base (replayed_refusal c key refusal 0));
      match stands with
      | Err e => bill_each pending ;; refuse e
      | Ok _ => mret false
      end
  | Some _ => refuse (GroupUnsettled group (desc_kind d
      ++ lit " replays what an atomic member cannot have written"))
  | None =>
      match mode c with
      | Strict => refuse (OfStep (ReplayOverrun key (desc_kind d)))
      | _ => mret false
      end
  end.

(** The loop of [commit_atomic]: the members left to commit, each gated. *)
Fixpoint settle_members (group : str) (pending keyed members : list (EffectKey * Resource)) :
    HM (list (EffectKey * Resource)) :=
  match members with
  | [] => mret keyed
  | (key, m) :: members => fun g =>
      if is_replaying (mode c) && negb (peek_is (cursor (base g)) key)
         && existsb (peek_is (cursor (base g))) members.*1
      then settle_members group (pending ++ [(key, m)]) keyed members g
      else
        (recorded ← if is_replaying (mode c) then member_recorded group pending key (descriptor m) else mret false;
         if recorded : bool then settle_members group pending keyed members
         else gate_all pending ;; member_gate key (descriptor m) ;;
              settle_members group [] (keyed ++ pending ++ [(key, m)]) members) g
  end.

Definition commit_atomic (group : str) (members : list Resource) : HM unit :=
  prepared ← prepare members;
  keyed ← settle_members group [] [] prepared;
  if bool_decide (length keyed = 0) then mret tt else append_atomic keyed.

(** ** The host *)

Definition with_reversing (b : bool) : Config (V:=V) :=
  mk_config (mode c) (run c) (step c) (phase c) (Dispatch.reversing c || b) (abandoning c) (granted_mutating c)
    (policy c) (source_verdict c).
Definition dispatch_member (b : bool) (e : Member) : HM (T * DeclaredOutput) :=
  on_base (effect_unlabelled to_value from_value (with_reversing b) (member_effect e) None).

#[export] Instance group_host : Host GroupWorld Member (T * DeclaredOutput) Resource := {|
  Groups.dispatch := dispatch_member;
  append_group := append;
  Groups.commit_atomic := commit_atomic;
  store_is_atomic g := match transactions g with Some _ => true | None => false end;
  kind e := desc_kind (Dispatch.descriptor (member_effect e));
  Groups.mutates e := Dispatch.mutates (member_effect e);
  binds_arguments := sink_bound;
  member_kind m := desc_kind (descriptor m);
  Groups.error_text := group_error_text;
|}.
End host.

(** ** What the journal already holds of a step's groups ([runtime/executor.rs], [recorded_groups]) *)

Definition count_group (m : gmap str RecordedGroup) (r : GroupRecord) : gmap str RecordedGroup :=
  let entry n := default (mk_recorded 0 0) (m !! n) in
  match r with
  | GroupOpened n _ => <[n := mk_recorded (S (opened (entry n))) (settled (entry n))]> m
  | GroupSettled n _ _ => <[n := mk_recorded (opened (entry n)) (S (settled (entry n)))]> m
  end.
Definition recorded_for (log : list (Seq * GroupRecord)) : gmap str RecordedGroup :=
  foldl count_group ∅ log.*2.
