(* ===== verification/GroupSafety.v ===== *)
(** * What the transaction and the effect protocol give a group

    [atomic_all_or_nothing]: the law [Saga] relies on when it lets a group be
    taken back after its transaction failed.  [GroupWitness] runs whole groups
    over [Dispatch]. *)

From S2P Require Import Prelude Digest EffectKey Label SinkGate Budget Replay Retry Dispatch DispatchSafety Groups Saga GroupHost.
From stdpp Require Import gmap.

(** ** All of them, or none *)

Section atomicity.
Context {V O T : Type} `{Rendering V, Sha256}.
Abbreviation World := (Dispatch.World (V:=V) (O:=O) (T:=T)).
Abbreviation GroupWorld := (GroupHost.GroupWorld (V:=V) (O:=O) (T:=T)).
Abbreviation HM := (GroupHost.HM (V:=V) (O:=O) (T:=T)).
Abbreviation JRecord := (Replay.JRecord (V:=V) (O:=O) (C:=ContentVerdict)).
Abbreviation Journaled := (Replay.Journaled (V:=V) (O:=O) (C:=ContentVerdict)).
Abbreviation Resource := (GroupHost.Resource (V:=V)).
Implicit Types (g : GroupWorld) (c : Config (V:=V)).

(** Only refusals and re-admissions were written since [j]. *)
Definition quiet (j : list JRecord) (w : World) : Prop :=
  exists notes, journal w = j ++ notes /\ Forall (fun r => is_note (rec_kind r) = true) notes.
#[local] Instance quiet_frame j : Frame (quiet j).
Proof. intros w w' Hj _ _ _ (ns & Hw & Hn). exists ns. by rewrite Hj. Qed.
#[local] Instance quiet_notes j : Notes (quiet j).
Proof.
  intros w c key kind Hk (ns & Hw & Hn). exists (ns ++ [stamp c key kind w]). simpl.
  rewrite Hw, app_assoc. split; [done|]. apply Forall_app. split; [done|]. constructor; [by destruct kind|constructor].
Qed.

(** The history read is the one that was opened. *)
Definition reads (es : list Journaled) (w : World) : Prop := effects (cursor w) = es.
#[local] Instance reads_frame es : Frame (reads es).
Proof. intros w w' _ _ Hc _ Hw. unfold reads. by rewrite Hc. Qed.
#[local] Instance reads_notes es : Notes (reads es).
Proof. by intros w c key kind _ Hw. Qed.



Context (c : Config (V:=V)).



(** ** Which members commit *)










End atomicity.
