(* ===== verification/GroupRuns.v ===== *)
(** * Whole groups, run ([src/src/runtime/group.rs] over [src/src/runtime/ctx.rs])

    An order reserves stock, then tells two people.  Effects, keys, journal and
    outside are those of [Payment]; a history is the passes over one journal. *)

From S2P Require Import Prelude Digest EffectKey Label SinkGate Budget Replay Retry Dispatch Groups GroupHost GroupSafety.
From stdpp Require Import gmap.
Import Payment.

Module Checkout.
Abbreviation World := (GroupWorld (V:=nat) (O:=unit) (T:=nat)).
Definition config (m : Pass) (abandoning : bool) : Config (V:=nat) :=
  mk_config m (lit "run") 0%N Forward false abandoning (fun _ => false) None (fun _ _ => None).
Definition act (n : nat) (r : Recovery) (tries : N) : Member (V:=nat) (T:=nat) :=
  mk_member (mk_effect (mk_descriptor (lit "test.order") n) true r (attempts tries) true 0 declared_untrusted
    (fun _ => spend_zero) false) false.
Definition reserve : Member (V:=nat) (T:=nat) := act 1 RequiresOperator 1.
Definition put_back (hold : nat * DeclaredOutput) : Member (V:=nat) (T:=nat) := act (100 + hold.1) RequiresOperator 1.
Definition mail (n : nat) : Member (V:=nat) (T:=nat) := act (10 + n) RequiresOperator 1.

Definition no_text (_ : GroupError) : str := [].
#[local] Instance host (c : Config (V:=nat)) : Host World (Member (V:=nat) (T:=nat)) (nat * DeclaredOutput) (Resource (V:=nat)) :=
  group_host of_nat of_nat c no_text.

(** What outlives a process. *)
Record Store := mk_store {
  records : Durable (V:=nat) (O:=unit);
  groups : list (Seq * GroupRecord);
  rows : list EffectKey;
}.
Definition empty : Store := mk_store ([], []) [] [].
Definition open_world (s : Store) (budget : Budget) (env : Env (T:=nat)) (txs : list (Tx (V:=nat))) : World :=
  mk_gw (open_pass 0 budget (records s) env) (groups s) (Some txs) (rows s).

Abbreviation Skill := (Groups.Skill (E:=Member (V:=nat) (T:=nat)) (V:=nat * DeclaredOutput) (A:=Resource (V:=nat))).
Definition pass (m : Pass) (abandoning : bool) (sk : Skill false) (s : Store) (budget : Budget) (env : Env (T:=nat))
    (txs : list (Tx (V:=nat))) :=
  run_step (H := host (config m abandoning)) abandoning sk
    (fresh_cx (open_world s budget env txs) (recorded_for (groups s))).
Definition stored_by {R} (r : Cx (W:=World) (E:=Member (V:=nat) (T:=nat)) (A:=Resource (V:=nat)) * R) : Store :=
  mk_store (survives (base (Groups.host r.1))) (group_log (Groups.host r.1)) (touched (Groups.host r.1)).

Definition stop_with (e : GroupError) : Skill false := Return (Err (SkStep e)).
Definition or_fail {A h} (k : A -> Skill h) (stop : GroupError -> Skill h) (r : result GroupError A) : Skill h :=
  match r with Ok a => k a | Err e => stop e end.
Definition leave (e : GroupError) : Skill true := DropHandle (stop_with e).
Definition done_ : Skill false := Return (Ok (OutDone (0, declared_untrusted))).

(** Reserve, hold two mails, commit. *)
Definition order : Skill false :=
  Group (lit "order") [lit "stock"; lit "mail"]
    (Reversible (lit "stock") reserve put_back (or_fail (fun _ =>
      Defer (lit "mail") (mail 1) (or_fail (fun _ =>
      Defer (lit "mail") (mail 2) (or_fail (fun _ =>
      Commit [] (or_fail (fun _ => done_) stop_with)) leave)) leave)) leave))
    stop_with.

Definition answers (l : list nat) : list (Called nat) := (fun n => mk_called true (Ok n)) <$> l.
Definition env (calls : list (Called nat)) : Env (T:=nat) := mk_env (stored 30) calls [] [].
Definition two_effects : Budget := mk_budget None (Some 2%Z) None None None None None None None None None.

Definition settlements (s : Store) : list GroupOutcome :=
  omap (fun r => match r.2 with GroupSettled _ o _ => Some o | _ => None end) (groups s).
Definition reached_times (s : Store) : nat := length (records s).2.

(** Every call answered: both mails go out, the group committed. *)
Definition plain := pass Live false order empty unlimited (env (answers [7; 8; 9])) [].
Example order_commits : settlements (stored_by plain) = [Committed] /\ reached_times (stored_by plain) = 3.
Proof. vm_compute. by split. Qed.

(** The second mail is over budget: the run pauses with its group open, and a
    resume under a raised ceiling sends it and commits. *)
Definition paused := pass Live false order empty two_effects (env (answers [7; 8])) [].
Definition resumed := pass Resume false order (stored_by paused) unlimited (env (answers [9])) [].
Example pause_resumes :
  settlements (stored_by paused) = [] /\ reached_times (stored_by paused) = 2
  /\ settlements (stored_by resumed) = [Committed] /\ reached_times (stored_by resumed) = 3.
Proof. vm_compute. by split_and!. Qed.

(** The same run cancelled while it is paused. *)
Definition cancelled := pass Resume true order (stored_by paused) two_effects (env (answers [0])) [].
(** Reserve, and a row in the journal's own database; the process dies before
    the transaction, and the run is cancelled. *)
Definition booking : Skill false :=
  Group (lit "order") [lit "stock"; lit "rows"]
    (Reversible (lit "stock") reserve put_back (or_fail (fun _ =>
      Atomic (lit "rows") (mk_resource (mk_descriptor (lit "test.row") 5)) (or_fail (fun _ =>
      Commit [] (or_fail (fun _ => done_) stop_with)) leave)) leave))
    stop_with.
Definition crashed := pass Live false booking empty unlimited (env (answers [7])) [].
Definition cancelled_after_crash :=
  pass Resume true booking (stored_by crashed) unlimited (env []) [mk_tx [Ok 1] TxCommitted].

(** Two gaps of the pass that abandons a cancelled run, both on computed
    runs.  A commit cut short by its budget after a deferred member was sent is
    settled [Aborted] when the run is cancelled there, with that member standing
    (three calls reached the outside: the reservation, the mail, the undo of the
    reservation).  A run that crashed before its transaction and is then
    cancelled commits its atomic members on the pass that was to start no work. *)
Theorem cancelled_groups :
  settlements (stored_by paused) = [] /\ reached_times (stored_by paused) = 2
  /\ settlements (stored_by cancelled) = [Aborted] /\ reached_times (stored_by cancelled) = 3
  /\ settlements (stored_by crashed) = [] /\ rows (stored_by crashed) = []
  /\ settlements (stored_by cancelled_after_crash) = [Committed] /\ length (rows (stored_by cancelled_after_crash)) = 1.
Proof. vm_compute. by split_and!. Qed.

(** One deferred mail whose first attempt times out after it was delivered. *)
Definition notify : Skill false :=
  Group (lit "notify") [lit "mail"]
    (Defer (lit "mail") (act 11 Retry 2) (or_fail (fun _ =>
      Commit [] (or_fail (fun _ => done_) stop_with)) leave))
    stop_with.
Definition delivered_in_doubt := pass Live false notify empty unlimited
  (env [timed_out true; mk_called false (Err (Rejected (lit "refused")))]) [].
Example doubt_forgotten :
  settlements (stored_by delivered_in_doubt) = [Aborted] /\ reached_times (stored_by delivered_in_doubt) = 1.
Proof. vm_compute. by split_and!. Qed.

(** A reservation that may have landed, a skill that gives the group up: the
    settlement says it was taken back. *)
Definition shrug : Skill false :=
  Group (lit "order") [lit "stock"]
    (Reversible (lit "stock") reserve put_back (fun _ => Abandon (lit "gave up") (fun _ => done_)))
    stop_with.
Definition shrugged := pass Live false shrug empty unlimited (env [timed_out true]) [].
Example shrug_forgotten :
  settlements (stored_by shrugged) = [Aborted] /\ reached_times (stored_by shrugged) = 1.
Proof. vm_compute. by split_and!. Qed.

End Checkout.
