(* ===== verification/Memory.v ===== *)
(** * Governed memory ([src/src/memory/mod.rs], [src/src/store/redb_memory.rs], [src/src/runtime/ctx.rs])

    One tenant's memories: versioned items, what is current, the order recall
    ranks by, the edges a derived memory keeps to what it was made from, and
    every store operation, the cascading erasure among them; and the labels a
    memory is written and recalled with.  An item row is the JSON of the item,
    and is the item here; its content is a type parameter, hashed through a
    class.  An instant is a number of nanoseconds.  A range that ends at the
    greatest character is the whole range: no name begins with it. *)

From S2P Require Import Prelude Digest EffectKey Index Panel Text Chain Label.

Definition NANOS : Z := 1000000000.
Definition unix (t : Z) : Z := (t / NANOS)%Z.
Definition from_unix (s : Z) : Z := (s * NANOS)%Z.
(** The last instant a [Timestamp] names: the end of the year 9999. *)
Definition last_instant : Z := 253402300799999999999.
Definition seconds_after (from seconds : Z) : option Z :=
  if bool_decide (seconds < 2 ^ 63 /\ from + seconds * NANOS <= last_instant)%Z then Some (from + seconds * NANOS)%Z else None.
Definition access_expiry (from window : Z) : Z := unix (default last_instant (seconds_after from window)).

Abbreviation Node := (str * Z)%type.
Definition node_cmp : Node -> Node -> comparison := pair_cmp str_cmp Z.compare.
Definition edge_cmp : Node * Node -> Node * Node -> comparison := pair_cmp node_cmp node_cmp.

Record Selected := mk_selected { sel_id : str; sel_version : Z; sel_digest : Digest }.
Definition sel_node (s : Selected) : Node := (sel_id s, sel_version s).

(** Subject, purpose, negated time, id; and rank, negated time, id, version. *)
Abbreviation SubjectKey := (str * str * Z * str)%type.
Abbreviation Ranked := (nat * Z * str * Z)%type.

Section memory.
Context {J : Type}.

Record MemoryItem := mk_item {
  m_id : str;
  m_subject : str;
  m_purpose : str;
  m_content : J;
  m_provenance : list str;
  m_sensitivity : Sensitivity;
  m_trust : Trust;
  m_written_by : str;
  m_version : Z;
  m_created : Z;
  m_expires : option Z;
  m_access : option Z;
  m_superseded : option Z;
  m_derived : list Selected;
}.
Definition node_of (i : MemoryItem) : Node := (m_id i, m_version i).
Definition with_version (i : MemoryItem) (v : Z) : MemoryItem :=
  mk_item (m_id i) (m_subject i) (m_purpose i) (m_content i) (m_provenance i) (m_sensitivity i) (m_trust i) (m_written_by i) v
    (m_created i) (m_expires i) (m_access i) None (m_derived i).
Definition superseded (i : MemoryItem) (at_ : Z) : MemoryItem :=
  mk_item (m_id i) (m_subject i) (m_purpose i) (m_content i) (m_provenance i) (m_sensitivity i) (m_trust i) (m_written_by i) (m_version i)
    (m_created i) (m_expires i) (m_access i) (Some at_) (m_derived i).

(** What a selection commits to, as canonical JSON. *)
Record Commitment := mk_commitment {
  cm_subject : str;
  cm_purpose : str;
  cm_content : Digest;
  cm_provenance : list str;
  cm_sensitivity : Sensitivity;
  cm_trust : Trust;
  cm_written_by : str;
  cm_created : Z;
  cm_expires : option Z;
  cm_access : option Z;
  cm_derived : list Selected;
}.
Class MemoryJson := { content_bytes : J -> bytes; commitment_bytes : Commitment -> bytes }.
Context `{Sha256, MemoryJson}.
Definition digest (i : MemoryItem) : Digest := digest_of (content_bytes (m_content i)).
Definition commitment (i : MemoryItem) : Commitment :=
  mk_commitment (m_subject i) (m_purpose i) (digest i) (m_provenance i) (m_sensitivity i) (m_trust i) (m_written_by i) (m_created i)
    (m_expires i) (m_access i) (m_derived i).
Definition selection_digest (i : MemoryItem) : Digest := digest_of (commitment_bytes (commitment i)).
Definition select (i : MemoryItem) : Selected := mk_selected (m_id i) (m_version i) (selection_digest i).

(** [MemoryItem::label]: from what was declared, never from the content. *)
Definition item_label (i : MemoryItem) : Label :=
  let l := match m_trust i with Trusted => trusted | Untrusted => untrusted (lit "memory:" ++ m_id i) end in
  mk_label (list_to_set (m_provenance i) ∪ provenance l) (trust l) (m_sensitivity i) (data_subjects l).

(** ** The tables *)
Record CurrentRow := mk_current { cur_subject : str; cur_purpose : str; cur_created : Z; cur_version : Z }.
Record Memories := mk_memories {
  items : gmap Node MemoryItem;
  current : gmap str CurrentRow;
  by_subject : gmap SubjectKey (Z * nat);
  derived : gset (Node * Node);
  derived_by_target : gset (Node * Node);
  forgotten : gset str;
  mem_holds : gset str;
  access : gmap str Z;
}.
Definition no_memories : Memories := mk_memories ∅ ∅ ∅ ∅ ∅ ∅ ∅ ∅.
Definition subject_key (id : str) (c : CurrentRow) : SubjectKey := (cur_subject c, cur_purpose c, - cur_created c, id)%Z.
Definition swap_edge (e : Node * Node) : Node * Node := (e.2, e.1).

(** ** Writing *)
Definition check_source (st : Memories) (subject : str) (s : Selected) : result StoreError unit :=
  i ← ok_or (items st !! sel_node s) (Backend (lit "names missing source"));
  _ ← ensure (bool_decide (selection_digest i = sel_digest s)) (Backend (lit "names a changed source"));
  ensure (bool_decide (m_subject i = subject)) (Backend (lit "must stay in source subject")).
Fixpoint check_sources (st : Memories) (subject : str) (l : list Selected) : result StoreError unit :=
  match l with [] => Ok tt | s :: l => _ ← check_source st subject s; check_sources st subject l end.
(** The window opens at the write; a write without one drops it. *)
Definition open_window (a : gmap str Z) (id : str) (window : option Z) (at_ : Z) : gmap str Z :=
  match window with
  | Some w => let e := access_expiry at_ w in
      match a !! id with Some prior => if bool_decide (prior < e)%Z then <[id := e]> a else a | None => <[id := e]> a end
  | None => base.delete id a
  end.
Definition remember (st : Memories) (item : MemoryItem) : Memories * result StoreError Z :=
  let id := m_id item in
  let previous := current st !! id in
  let checked :=
    _ ← ensure (negb (bool_decide (previous = None) && bool_decide (id ∈ forgotten st))) (Backend (lit "was forgotten and cannot be reused"));
    _ ← match previous with
        | Some c => ensure (bool_decide (cur_subject c = m_subject item) && bool_decide (cur_purpose c = m_purpose item))
                      (Backend (lit "is scoped to another subject"))
        | None => Ok tt
        end;
    check_sources st (m_subject item) (m_derived item) in
  match checked with
  | Err e => (st, Err e)
  | Ok _ =>
      let v := match previous with Some c => (cur_version c + 1)%Z | None => 1%Z end in
      let item := with_version item v in
      let row := mk_current (m_subject item) (m_purpose item) (unix (m_created item)) v in
      let its := match previous with
                 | Some c => match items st !! (id, cur_version c) with
                             | Some old => <[(id, cur_version c) := superseded old (m_created item)]> (items st)
                             | None => items st
                             end
                 | None => items st
                 end in
      let subj := match previous with Some c => base.delete (subject_key id c) (by_subject st) | None => by_subject st end in
      let es : gset (Node * Node) := list_to_set ((fun s => (sel_node s, (id, v))) <$> m_derived item) in
      (mk_memories (<[(id, v) := item]> its) (<[id := row]> (current st)) (<[subject_key id row := (v, trust_rank (m_trust item))]> subj)
         (es ∪ derived st) (set_map swap_edge es ∪ derived_by_target st) (forgotten st) (mem_holds st)
         (open_window (access st) id (m_access item) (m_created item)), Ok v)
  end.

(** ** Reading *)
(** The earlier of the hard ceiling and the window. *)
Definition effective_expiry (st : Memories) (id : str) (i : MemoryItem) : option Z :=
  match m_expires i, from_unix <$> access st !! id with
  | Some x, Some y => Some (Z.min x y)
  | Some x, None => Some x
  | None, y => y
  end.
Definition lapsed (e : option Z) (as_of : option Z) : bool :=
  match as_of, e with Some at_, Some x => bool_decide (x <= at_)%Z | _, _ => false end.
(** Most trusted first, then newest, then id. *)
Definition rank_cmp (x y : Ranked) : comparison :=
  then_cmp (Nat.compare x.1.1.1 y.1.1.1) (then_cmp (Z.compare x.1.1.2 y.1.1.2) (str_cmp x.1.2 y.1.2)).
Definition in_scope (subject : str) (purpose : option str) (k : SubjectKey) : bool :=
  bool_decide (k.1.1.1 = subject) && match purpose with Some p => bool_decide (k.1.1.2 = p) | None => true end.
Definition ranked (st : Memories) (subject : str) (purpose : option str) : list Ranked :=
  merge_sort (by_cmp rank_cmp)
    (omap (fun x : SubjectKey * (Z * nat) => if in_scope subject purpose x.1 then Some (x.2.2, x.1.1.2, x.1.2, x.2.1) else None)
      (map_to_list (by_subject st))).
(** Row by row until the limit. *)
Fixpoint gather (st : Memories) (as_of : option Z) (limit : nat) (keys : list Ranked) : list MemoryItem :=
  match keys with
  | [] => []
  | k :: keys =>
      if limit =? 0 then [] else
      match items st !! (k.1.2, k.2) with
      | None => gather st as_of limit keys
      | Some i => if lapsed (effective_expiry st k.1.2 i) as_of then gather st as_of limit keys
                  else i :: gather st as_of (limit - 1) keys
      end
  end.
Definition recall (st : Memories) (subject : str) (purpose : option str) (as_of : option Z) (limit : nat) : list MemoryItem :=
  gather st as_of limit (ranked st subject purpose).
Definition version (st : Memories) (id : str) (v : Z) : option MemoryItem := items st !! (id, v).
Definition current_item (st : Memories) (id : str) (as_of : option Z) : option MemoryItem :=
  c ← current st !! id;
  i ← items st !! (id, cur_version c);
  if lapsed (effective_expiry st id i) as_of then None else Some i.
(** In the order of the index. *)
Definition subject_cmp : SubjectKey -> SubjectKey -> comparison := pair_cmp (pair_cmp (pair_cmp str_cmp str_cmp) Z.compare) str_cmp.
Definition in_subject (st : Memories) (subject : str) : list str :=
  snd <$> iter_by subject_cmp (filter (fun k : SubjectKey => k.1.1.1 = subject) (dom (by_subject st))).
Definition subject_ids (st : Memories) (subject : str) : list str := iter_str (list_to_set (in_subject st subject)).
Fixpoint first_of (seen : gset str) (l : list (Node * MemoryItem)) : list MemoryItem :=
  match l with
  | [] => []
  | x :: l => if decide (x.1.1 ∈ seen) then first_of seen l else x.2 :: first_of ({[x.1.1]} ∪ seen) l
  end.
(** The current versions that read any version of it. *)
Definition derivatives (st : Memories) (id : str) : list MemoryItem :=
  first_of ∅ (omap (fun e : Node * Node =>
      if bool_decide (cur_version <$> current st !! e.2.1 = Some e.2.2) then (fun i => (e.2, i)) <$> items st !! e.2 else None)
    (iter_by edge_cmp (filter (fun e => e.1.1 = id) (derived st)))).

(** ** Erasure *)
Definition versions_of (st : Memories) (id : str) : list Z :=
  iter_by Z.compare (set_filter_map (fun n : Node => if decide (n.1 = id) then Some n.2 else None) (dom (items st))).
(** A memory and every version of it; whether the id is retired. *)
Definition erase_id (retire : bool) (st : Memories) (id : str) : Memories :=
  mk_memories (foldl (fun its v => base.delete (id, v) its) (items st) (versions_of st id)) (base.delete id (current st))
    (match current st !! id with Some c => base.delete (subject_key id c) (by_subject st) | None => by_subject st end)
    (derived st) (derived_by_target st) (if retire then {[id]} ∪ forgotten st else forgotten st) (mem_holds st) (base.delete id (access st)).
Definition with_edges (st : Memories) (d t : gset (Node * Node)) : Memories :=
  mk_memories (items st) (current st) (by_subject st) d t (forgotten st) (mem_holds st) (access st).
Inductive EraseError := UnderLegalHold (id : str) | EraseStore (e : StoreError).

(** The edges stay, so that a later cascade still routes through it. *)
Definition forget (st : Memories) (id : str) : Memories * result EraseError unit :=
  if decide (id ∈ mem_holds st) then (st, Err (UnderLegalHold id))
  else (erase_id (bool_decide (is_Some (current st !! id))) st id, Ok tt).

(** *** What a cascade reaches *)
Definition edges_of_id (st : Memories) (id : str) : list Node :=
  snd <$> iter_by edge_cmp (filter (fun e => e.1.1 = id) (derived st)).
Definition edges_of_version (st : Memories) (n : Node) : list Node :=
  snd <$> iter_by edge_cmp (filter (fun e => e.1 = n) (derived st)).
Definition is_current (st : Memories) (n : Node) : bool := bool_decide (cur_version <$> current st !! n.1 = Some n.2).
(** Two stacks: ids to erase whole, and versions that read something erased. *)
Fixpoint traverse (fuel : nat) (st : Memories) (ids : list str) (versions : list Node) (doomed : gset str) (doomed_versions : gset Node) :
    option (gset str * gset Node) :=
  match fuel with
  | 0 => None
  | S fuel =>
      match ids, versions with
      | id :: ids, _ =>
          if decide (id ∈ doomed) then traverse fuel st ids versions doomed doomed_versions
          else traverse fuel st ids (reverse (edges_of_id st id) ++ versions) ({[id]} ∪ doomed) doomed_versions
      | [], n :: versions =>
          if decide (n.1 ∈ doomed) then traverse fuel st [] versions doomed doomed_versions
          else if is_current st n then traverse fuel st [n.1] versions doomed doomed_versions
          else if decide (n ∈ doomed_versions) then traverse fuel st [] versions doomed doomed_versions
          else traverse fuel st [] (reverse (edges_of_version st n) ++ versions) doomed ({[n]} ∪ doomed_versions)
      | [], [] => Some (doomed, doomed_versions)
      end
  end.
(** Each edge is pushed twice at most, and each version pops to one id. *)
Definition traverse_fuel (st : Memories) : nat := 2 + 4 * size (derived st).

Record Cascade := mk_cascade { erased : list (str * Z); trimmed : list (str * list Z) }.
Definition highest (vs : list Z) : Z := foldr Z.max 0%Z vs.
Definition erase_doomed (x : Memories * list (str * Z)) (id : str) : Memories * list (str * Z) :=
  let '(st, out) := x in
  let vs := versions_of st id in
  let had := option_list (cur_version <$> current st !! id) ++ vs in
  (erase_id true st id, match had with [] => out | _ => out ++ [(id, highest had)] end).
(** Grouped by id; the pairs come in order. *)
Fixpoint group (l : list Node) : list (str * list Z) :=
  match l with
  | [] => []
  | (id, v) :: l =>
      match group l with
      | (id', vs) :: g => if decide (id = id') then (id, v :: vs) :: g else (id, [v]) :: (id', vs) :: g
      | [] => [(id, [v])]
      end
  end.
Definition delete_items (st : Memories) (l : list Node) : Memories :=
  mk_memories (foldl (fun its n => base.delete n its) (items st) l) (current st) (by_subject st) (derived st) (derived_by_target st)
    (forgotten st) (mem_holds st) (access st).
(** The edges that touch what was erased, found from either end. *)
Definition touches (doomed : gset str) (doomed_versions : gset Node) (n : Node) : Prop := n.1 ∈ doomed \/ n ∈ doomed_versions.
#[export] Instance touches_dec d dv n : Decision (touches d dv n).
Proof. unfold touches. apply _. Defined.
Definition stale_edges (st : Memories) (doomed : gset str) (doomed_versions : gset Node) : gset (Node * Node) :=
  filter (fun e => touches doomed doomed_versions e.1) (derived st) ∪
  set_map swap_edge (filter (fun e : Node * Node => touches doomed doomed_versions e.1) (derived_by_target st)).
Definition forget_cascading (st : Memories) (root : str) : option (Memories * result EraseError Cascade) :=
  '(doomed, doomed_versions) ← traverse (traverse_fuel st) st [root] [] ∅ ∅;
  Some (
    match list_find (fun id => id ∈ mem_holds st) (iter_str doomed ++ (fst <$> iter_by node_cmp doomed_versions)) with
    | Some (_, id) => (st, Err (UnderLegalHold id))
    | None =>
        let '(st1, out) := foldl erase_doomed (st, []) (iter_str doomed) in
        let partly := filter (fun n => n.1 ∉ doomed /\ is_Some (items st1 !! n)) (iter_by node_cmp doomed_versions) in
        let st2 := delete_items st1 partly in
        let stale := stale_edges st2 doomed doomed_versions in
        (with_edges st2 (derived st2 ∖ stale) (derived_by_target st2 ∖ set_map swap_edge stale), Ok (mk_cascade out (group partly)))
    end).

(** *** A subject, and what has expired *)
Definition erase_member (st : Memories) (id : str) : Memories :=
  let st := erase_id true st id in
  let incoming := filter (fun e : Node * Node => e.1.1 = id) (derived_by_target st) in
  with_edges st (derived st ∖ set_map swap_edge incoming) (derived_by_target st ∖ incoming).
Definition forget_subject (st : Memories) (subject : str) : Memories * result EraseError nat :=
  let ids := in_subject st subject in
  match list_find (fun id => id ∈ mem_holds st) ids with
  | Some (_, id) => (st, Err (UnderLegalHold id))
  | None => (foldl erase_member st ids, Ok (length ids))
  end.
Definition expired_at (st : Memories) (at_ : Z) : list (str * Z) :=
  omap (fun id =>
      c ← current st !! id;
      if decide (id ∈ mem_holds st) then None else
      i ← items st !! (id, cur_version c);
      if lapsed (effective_expiry st id i) (Some at_) then Some (id, cur_version c) else None)
    (iter_str (dom (current st))).
Definition sweep_expired (st : Memories) (at_ : Z) : Memories * list (str * Z) :=
  let expired := expired_at st at_ in (foldl (erase_id true) st (fst <$> expired), expired).

Definition set_legal_hold (st : Memories) (id : str) (on : bool) : Memories * result StoreError unit :=
  let with_holds h := mk_memories (items st) (current st) (by_subject st) (derived st) (derived_by_target st) (forgotten st) h (access st) in
  if on then
    if decide (is_Some (current st !! id)) then (with_holds ({[id]} ∪ mem_holds st), Ok tt)
    else (st, Err (Backend (lit "cannot hold missing memory")))
  else (with_holds (mem_holds st ∖ {[id]}), Ok tt).
Definition legal_hold (st : Memories) (id : str) : bool := bool_decide (id ∈ mem_holds st).
Definition legal_holds (st : Memories) (after : option str) (limit : nat) : list str :=
  take limit (filter (fun id => match after with Some a => match str_cmp a id with Lt => true | _ => false end | None => true end = true) (iter_str (mem_holds st))).
Definition touch_one (at_ : Z) (st : Memories) (id : str) : Memories :=
  match c ← current st !! id; items st !! (id, cur_version c) with
  | Some i =>
      match m_access i with
      | Some w => mk_memories (items st) (current st) (by_subject st) (derived st) (derived_by_target st) (forgotten st) (mem_holds st)
                    (open_window (access st) id (Some w) at_)
      | None => st
      end
  | None => st
  end.
Definition touch (st : Memories) (ids : list str) (at_ : Z) : Memories := foldl (touch_one at_) st ids.
End memory.
