(* ===== verification/MemoryCascade.v ===== *)
(** * What a cascading erasure reaches ([src/src/store/redb_memory.rs])

    The traversal ends and finds exactly the ids and the superseded versions
    that derive, edge by edge, from what is erased; the erasure removes exactly
    those, or nothing when one of them is held. *)

From S2P Require Import Prelude Digest EffectKey Index Panel Text Chain Label Memory.

Section cascade.
Context {J : Type} `{Sha256, MemoryJson (J:=J)}.
Implicit Types (st : Memories (J:=J)) (n : Node) (doomed : gset str) (dv : gset Node).

(** ** The closure *)
Definition target st n : str + Node := if is_current st n then inl n.1 else inr n.
Inductive doomed_by st (root : str) : str + Node -> Prop :=
| db_root : doomed_by st root (inl root)
| db_id a b : doomed_by st root (inl a.1) -> (a, b) ∈ derived st -> doomed_by st root (target st b)
| db_version a b : doomed_by st root (inr a) -> (a, b) ∈ derived st -> doomed_by st root (target st b).
(** What goes: every version of a doomed id, and the doomed versions. *)
Definition reached st root n : Prop := doomed_by st root (inl n.1) \/ doomed_by st root (inr n).
Lemma reached_next st root a b : reached st root a -> (a, b) ∈ derived st -> reached st root b.
Proof.
  intros Ha Hab. assert (doomed_by st root (target st b)) as Hb by (destruct Ha; [by eapply db_id|by eapply db_version]).
  unfold target in Hb. unfold reached. destruct (is_current st b); auto.
Qed.

Lemma elem_of_edges_of_id st id b : b ∈ edges_of_id st id <-> exists a, (a, b) ∈ derived st /\ a.1 = id.
Proof.
  unfold edges_of_id. rewrite list_elem_of_fmap. setoid_rewrite elem_of_iter_by. setoid_rewrite elem_of_filter. split.
  - intros ([a b'] & -> & Ha & Hin). eauto.
  - intros (a & Hin & Ha). by exists (a, b).
Qed.
Lemma elem_of_edges_of_version st a b : b ∈ edges_of_version st a <-> (a, b) ∈ derived st.
Proof.
  unfold edges_of_version. rewrite list_elem_of_fmap. setoid_rewrite elem_of_iter_by. setoid_rewrite elem_of_filter. split.
  - intros ([a' b'] & -> & Ha & Hin). simpl in *. by subst.
  - intros Hin. by exists (a, b).
Qed.
Lemma length_iter_by `{Countable A} (cmp : A -> A -> comparison) (X : gset A) : length (iter_by cmp X) = size X.
Proof. unfold iter_by. by rewrite merge_sort_Permutation. Qed.

(** ** The traversal ends *)
Definition unread st doomed : nat := size (filter (fun e => e.1.1 ∉ doomed) (derived st)).
Definition unread_version st dv : nat := size (filter (fun e => e.1 ∉ dv) (derived st)).
Definition pending st (ids : list str) (versions : list Node) doomed dv : nat :=
  length ids + 2 * length versions + 2 * unread st doomed + 2 * unread_version st dv.
Lemma size_filter_split {A} `{Countable A} (P Q R : A -> Prop) `{!forall x, Decision (P x), !forall x, Decision (Q x), !forall x, Decision (R x)} (X : gset A) :
  (forall x, x ∈ X -> P x <-> Q x \/ R x) -> (forall x, Q x -> ~ R x) -> size (filter P X) = size (filter Q X) + size (filter R X).
Proof.
  intros Hp Hq. rewrite <-size_union; [|intros x; rewrite !elem_of_filter; intros [??] [??]; by eapply Hq].
  f_equal. apply set_eq. intros x. rewrite elem_of_union, !elem_of_filter. specialize (Hp x). tauto.
Qed.
Lemma unread_id st doomed id : id ∉ doomed -> unread st doomed = unread st ({[id]} ∪ doomed) + length (edges_of_id st id).
Proof.
  intros Hid. unfold unread, edges_of_id. rewrite length_fmap, length_iter_by. apply size_filter_split.
  - intros e _. rewrite elem_of_union, elem_of_singleton. destruct (decide (e.1.1 = id)); [subst; tauto|tauto].
  - intros e. rewrite elem_of_union, elem_of_singleton. tauto.
Qed.
Lemma unread_at st dv n : n ∉ dv -> unread_version st dv = unread_version st ({[n]} ∪ dv) + length (edges_of_version st n).
Proof.
  intros Hn. unfold unread_version, edges_of_version. rewrite length_fmap, length_iter_by. apply size_filter_split.
  - intros e _. rewrite elem_of_union, elem_of_singleton. destruct (decide (e.1 = n)); [subst; tauto|tauto].
  - intros e. rewrite elem_of_union, elem_of_singleton. tauto.
Qed.
Lemma traverse_ends st fuel : forall ids versions doomed dv, pending st ids versions doomed dv < fuel ->
  is_Some (traverse fuel st ids versions doomed dv).
Proof.
  induction fuel as [|fuel IH]; intros ids versions doomed dv Hf; [lia|]. simpl. unfold pending in *.
  destruct ids as [|id ids]; [destruct versions as [|n versions]; [done|]|]; simpl in *.
  - destruct (decide (n.1 ∈ doomed)); [apply IH; simpl; lia|]. destruct (is_current st n); [apply IH; simpl; lia|].
    destruct (decide (n ∈ dv)) as [|Hn]; [apply IH; simpl; lia|]. apply IH. rewrite length_app, length_reverse. pose proof (unread_at st dv n Hn). simpl. lia.
  - destruct (decide (id ∈ doomed)) as [|Hid]; [apply IH; lia|]. apply IH. rewrite length_app, length_reverse. pose proof (unread_id st doomed id Hid). lia.
Qed.

(** ** And finds the closure *)
Record sound st root (ids : list str) (versions : list Node) doomed dv : Prop := {
  sd_ids id : id ∈ ids \/ id ∈ doomed -> doomed_by st root (inl id);
  sd_versions n : n ∈ versions -> doomed_by st root (target st n);
  sd_done n : n ∈ dv -> doomed_by st root (inr n);
}.
Definition handled st (ids : list str) (versions : list Node) doomed dv (b : Node) : Prop :=
  b.1 ∈ doomed \/ b ∈ versions \/ (is_current st b = true /\ b.1 ∈ ids) \/ (is_current st b = false /\ b ∈ dv).
Definition complete st root (ids : list str) (versions : list Node) doomed dv : Prop :=
  (root ∈ ids \/ root ∈ doomed) /\
  forall a b, (a, b) ∈ derived st -> touches doomed dv a -> handled st ids versions doomed dv b.
Lemma traverse_spec st root fuel : forall ids versions doomed dv d' dv', traverse fuel st ids versions doomed dv = Some (d', dv') ->
  sound st root ids versions doomed dv -> complete st root ids versions doomed dv ->
  sound st root [] [] d' dv' /\ complete st root [] [] d' dv'.
Proof.
  induction fuel as [|fuel IH]; intros ids versions doomed dv d' dv' Ht Hs Hc; simpl in Ht; [done|].
  destruct Hs as [Hi Hv Hd]. destruct Hc as [Hr Hc].
  destruct ids as [|id ids]; [destruct versions as [|n versions]|].
  - injection Ht as <- <-. by split.
  - assert (doomed_by st root (target st n)) as Hn by (apply Hv; by left). unfold target in Hn.
    destruct (decide (n.1 ∈ doomed)) as [Hin|Hin]; [|destruct (is_current st n) eqn:Hcur; [|destruct (decide (n ∈ dv)) as [Hin'|Hin']]];
      (eapply IH; [exact Ht|split|split]); try done.
    + intros b Hb. apply Hv. by right.
    + intros a b Hab Ha. destruct (Hc a b Hab Ha) as [?|[[->|?]%elem_of_cons|?]]; unfold handled; auto.
    + intros x [[->|Hx]%elem_of_cons|Hx]; [done|by apply not_elem_of_nil in Hx|apply Hi; by right].
    + intros b Hb. apply Hv. by right.
    + destruct Hr; [by apply not_elem_of_nil in H1|by right].
    + intros a b Hab Ha. destruct (Hc a b Hab Ha) as [?|[[->|?]%elem_of_cons|[[? Hx]|?]]]; unfold handled; auto.
      * right. right. left. split; [done|by left].
      * by apply not_elem_of_nil in Hx.
    + intros b Hb. apply Hv. by right.
    + intros a b Hab Ha. destruct (Hc a b Hab Ha) as [?|[[->|?]%elem_of_cons|?]]; unfold handled; auto.
    + intros b [Hb%elem_of_reverse%elem_of_edges_of_version|Hb]%elem_of_app; [by eapply db_version|apply Hv; by right].
    + intros b [->%elem_of_singleton|Hb]%elem_of_union; [done|by apply Hd].
    + intros a b Hab Ha. assert (a = n \/ touches doomed dv a) as [->|Ha'] by (unfold touches in *; set_solver).
      * right. left. apply elem_of_app. left. by apply elem_of_reverse, elem_of_edges_of_version.
      * destruct (Hc a b Hab Ha') as [?|[[->|?]%elem_of_cons|[?|[? ?]]]]; unfold handled; rewrite ?elem_of_app; auto.
        -- right. right. right. split; [done|set_solver].
        -- right. right. right. split; [done|set_solver].
  - destruct (decide (id ∈ doomed)) as [Hin|Hin]; (eapply IH; [exact Ht|split|split]); try done.
    + intros x [Hx|Hx]; apply Hi; [left; by right|by right].
    + destruct Hr as [[->|?]%elem_of_cons|?]; auto.
    + intros a b Hab Ha. destruct (Hc a b Hab Ha) as [?|[?|[[? [Hx|?]%elem_of_cons]|?]]]; unfold handled; auto. left. congruence.
    + intros x [Hx|[->%elem_of_singleton|Hx]%elem_of_union]; apply Hi; [left; by right|left; by left|by right].
    + intros b [Hb%elem_of_reverse%elem_of_edges_of_id|Hb]%elem_of_app; [|by apply Hv].
      destruct Hb as (a & Hab & <-). eapply db_id; [|exact Hab]. apply Hi. left. by left.
    + destruct Hr as [[->|?]%elem_of_cons|?]; [right; set_solver|auto|right; set_solver].
    + intros a b Hab Ha. assert (a.1 = id \/ touches doomed dv a) as [<-|Ha'] by (unfold touches in *; set_solver).
      * right. left. apply elem_of_app. left. apply elem_of_reverse, elem_of_edges_of_id. eauto.
      * destruct (Hc a b Hab Ha') as [?|[?|[[? [Hx|?]%elem_of_cons]|?]]]; unfold handled; rewrite ?elem_of_app; auto.
        -- left. set_solver.
        -- left. set_solver.
Qed.
(** The traversal of one erasure. *)
Lemma traverse_exact st root : exists d dv, traverse (traverse_fuel st) st [root] [] ∅ ∅ = Some (d, dv) /\
  (forall id, id ∈ d <-> doomed_by st root (inl id)) /\ (forall n, touches d dv n <-> reached st root n) /\
  (forall n, n ∈ dv -> is_current st n = true -> n.1 ∈ d).
Proof.
  destruct (traverse_ends st (traverse_fuel st) [root] [] ∅ ∅) as [[d dv] Ht].
  { assert (unread st ∅ <= size (derived st)) as H1 by (apply subseteq_size; intros e; rewrite elem_of_filter; tauto).
    assert (unread_version st ∅ <= size (derived st)) as H2 by (apply subseteq_size; intros e; rewrite elem_of_filter; tauto).
    unfold pending, traverse_fuel. simpl. lia. }
  exists d, dv. split; [done|]. destruct (traverse_spec st root _ _ _ _ _ _ _ Ht) as [[Hi Hv Hd] [Hr Hc]].
  { split; [intros id [->%list_elem_of_singleton|?]; [apply db_root|set_solver]|set_solver|set_solver]. }
  { split; [left; by left|]. intros a b _ [?|?]; set_solver. }
  assert (forall x, doomed_by st root x -> match x with inl id => id ∈ d | inr n => touches d dv n end) as Hall.
  { intros x Hx. induction Hx as [|a b Ha IH Hab|a b Ha IH Hab].
    - destruct Hr as [Hr|Hr]; [by apply not_elem_of_nil in Hr|done].
    - destruct (Hc a b Hab (or_introl IH)) as [?|[Hx|[[_ Hx]|[E ?]]]]; try (by apply not_elem_of_nil in Hx); unfold target.
      + destruct (is_current st b); [done|by left].
      + rewrite E. by right.
    - destruct (Hc a b Hab IH) as [?|[Hx|[[_ Hx]|[E ?]]]]; try (by apply not_elem_of_nil in Hx); unfold target.
      + destruct (is_current st b); [done|by left].
      + rewrite E. by right. }
  assert (forall id, id ∈ d <-> doomed_by st root (inl id)) as Hids.
  { intros id. split; [intros Hx; apply Hi; by right|]. intros Hx. by apply Hall in Hx. }
  split_and!; [done| |].
  - intros n. unfold reached, touches. rewrite Hids. split; [intros [?|?]; [by left|right; by apply Hd]|].
    intros [?|Hx]; [by left|]. apply Hall in Hx. unfold touches in Hx. rewrite Hids in Hx. done.
  - intros n Hn Hcur. apply Hd in Hn. inversion Hn as [|a b Ha Hab E|a b Ha Hab E]; unfold target in E; destruct (is_current st b) eqn:Hb; congruence.
Qed.
End cascade.
