(* ===== verification/MemorySafety.v ===== *)
(** * What governed memory keeps ([src/src/store/redb_memory.rs])

    The tables of [Memory] agree after any operations; a version is never
    rewritten, and once gone is gone for good; recall returns what its ranking
    says; a held memory loses nothing; and a cascading erasure reaches
    everything ever derived from what it erases. *)

From S2P Require Import Prelude Digest EffectKey Index Panel Text Chain Label Memory MemoryCascade.

Section memory_safety.
Context {J : Type} `{Sha256, MemoryJson (J:=J)}.
Implicit Types (st : Memories (J:=J)) (i : MemoryItem (J:=J)) (n : Node).

(** ** The store's invariant *)
Record item_ok (cur : gmap str CurrentRow) n i : Prop := {
  io_id : m_id i = n.1;
  io_version : m_version i = n.2;
  io_current : exists c, cur !! n.1 = Some c /\ m_subject i = cur_subject c /\ m_purpose i = cur_purpose c /\
    (1 <= n.2 <= cur_version c)%Z /\ (m_superseded i = None <-> n.2 = cur_version c) /\ (n.2 = cur_version c -> cur_created c = unix (m_created i));
}.
Record mem_ok st : Prop := {
  mk_items n i : items st !! n = Some i -> item_ok (current st) n i;
  mk_currents id c : current st !! id = Some c -> is_Some (items st !! (id, cur_version c));
  mk_subjects k w : by_subject st !! k = Some w <-> exists c i, current st !! k.2 = Some c /\ k = subject_key k.2 c /\
    items st !! (k.2, cur_version c) = Some i /\ w = (cur_version c, trust_rank (m_trust i));
  mk_gone id : id ∈ forgotten st -> current st !! id = None;
  mk_held id : id ∈ mem_holds st -> is_Some (current st !! id);
  mk_mirror a b : (a, b) ∈ derived st <-> (b, a) ∈ derived_by_target st;
  (** A window is open exactly on the current versions that ask for one, and
      never closes before the write's. *)
  mk_windows id : match current_item st id None with
                  | Some i => match m_access i with
                              | Some w => exists e, access st !! id = Some e /\ (access_expiry (m_created i) w <= e)%Z
                              | None => access st !! id = None
                              end
                  | None => access st !! id = None
                  end;
}.
Lemma current_item_at st id : current_item st id None = c ← current st !! id; items st !! (id, cur_version c).
Proof.
  unfold current_item. destruct (current st !! id) as [c|]; simpl; [|done]. by destruct (items st !! (id, cur_version c)).
Qed.
Lemma no_memories_ok : mem_ok no_memories.
Proof.
  split; simpl; try (intros *; by rewrite ?lookup_empty); try (intros *; set_solver).
  all: intros k w; rewrite lookup_empty; split; [done|]; intros (c & i & Hc & _); by rewrite lookup_empty in Hc.
Qed.

(** *** Erasing ids *)
Lemma elem_of_versions st id v : v ∈ versions_of st id <-> is_Some (items st !! (id, v)).
Proof.
  unfold versions_of. rewrite elem_of_iter_by, elem_of_set_filter_map. split.
  - intros ([id' v'] & Hin%elem_of_dom & Hx). simpl in Hx. case_decide; [|done]. injection Hx as <-. by subst.
  - intros Hs. exists (id, v). split; [by apply elem_of_dom|]. simpl. by rewrite decide_True.
Qed.
Lemma foldl_delete {A} (f : A -> Node) l : forall (m : gmap Node (MemoryItem (J:=J))) n,
  foldl (fun m x => base.delete (f x) m) m l !! n = if decide (n ∈ f <$> l) then None else m !! n.
Proof.
  induction l as [|x l IH]; intros m n; simpl; [done|]. rewrite IH. destruct (decide (n ∈ f <$> l)) as [Hin|Hin].
  - by rewrite decide_True by (by right).
  - destruct (decide (f x = n)) as [<-|Hne]; [rewrite lookup_delete_eq, decide_True; [done|by left]|].
    rewrite lookup_delete_ne, decide_False; [done| |done]. intros [->|Hx]%elem_of_cons; [done|by apply Hin].
Qed.
Lemma erase_items b st id n : items (erase_id b st id) !! n = if decide (n.1 = id) then None else items st !! n.
Proof.
  simpl. rewrite (foldl_delete (fun v => (id, v))). destruct (decide (n.1 = id)) as [<-|Hne].
  - destruct (decide _) as [|Hno]; [done|]. destruct (items st !! n) as [i|] eqn:Hi; [|done]. exfalso. apply Hno.
    apply list_elem_of_fmap. exists n.2. split; [by destruct n|]. apply elem_of_versions. destruct n. eauto.
  - rewrite decide_False; [done|]. intros (v & -> & _)%list_elem_of_fmap. done.
Qed.
(** What erasing a set of ids leaves. *)
Record erases st st' (P : str -> Prop) `{!forall id, Decision (P id)} : Prop := {
  er_items n : items st' !! n = if decide (P n.1) then None else items st !! n;
  er_current id : current st' !! id = if decide (P id) then None else current st !! id;
  er_subject k : by_subject st' !! k = if decide (P k.2) then None else by_subject st !! k;
  er_access id : access st' !! id = if decide (P id) then None else access st !! id;
  er_holds : mem_holds st' = mem_holds st;
  er_kept : forgotten st ⊆ forgotten st';
  er_only id : id ∈ forgotten st' -> id ∈ forgotten st \/ P id;
  er_retired id : P id -> is_Some (current st !! id) -> id ∈ forgotten st';
}.
Lemma erase_id_erases b st id : mem_ok st -> (is_Some (current st !! id) -> b = true) -> erases st (erase_id b st id) (fun x => x = id).
Proof.
  intros Hok Hb. split; try done.
  - intros n. apply erase_items.
  - intros x. simpl. rewrite lookup_delete. repeat case_decide; try done; congruence.
  - intros k. simpl. destruct (current st !! id) as [c|] eqn:Hc.
    + rewrite lookup_delete. destruct (decide (subject_key id c = k)) as [<-|Hne]; [by rewrite decide_True|].
      case_decide as Hk; [|done]. destruct (by_subject st !! k) as [w|] eqn:Hw; [|done].
      apply (mk_subjects _ Hok) in Hw as (c' & i & Hc' & Hk' & _). destruct Hne. rewrite Hk in Hc'. rewrite Hk', Hk. congruence.
    + case_decide as Hk; [|done]. destruct (by_subject st !! k) as [w|] eqn:Hw; [|done].
      apply (mk_subjects _ Hok) in Hw as (c' & i & Hc' & _). congruence.
  - intros x. simpl. rewrite lookup_delete. repeat case_decide; try done; congruence.
  - simpl. destruct b; set_solver.
  - intros x. simpl. destruct b; [|by left]. intros [->%elem_of_singleton|?]%elem_of_union; auto.
  - intros x -> Hs. simpl. rewrite Hb by done. set_solver.
Qed.
Lemma erases_ok st st' P `{!forall id, Decision (P id)} : mem_ok st -> erases st st' P -> (forall id, P id -> id ∉ mem_holds st) ->
  (forall a b, (a, b) ∈ derived st' <-> (b, a) ∈ derived_by_target st') -> mem_ok st'.
Proof.
  intros Hok [Hi Hc Hs Ha Hh Hk Ho Hr] Hheld Hmir. split; try done.
  - intros n i. rewrite Hi. case_decide as HP; [done|]. intros [E1 E2 (c & E3 & E4)]%(mk_items _ Hok).
    split; [done|done|]. exists c. by rewrite Hc, decide_False.
  - intros id c. rewrite Hc. case_decide as HP; [done|]. intros E%(mk_currents _ Hok). by rewrite Hi, decide_False.
  - intros k w. rewrite Hs. setoid_rewrite Hc. setoid_rewrite Hi. simpl. case_decide as HP; [|apply (mk_subjects _ Hok)].
    split; [done|]. by intros (c & i & E & _).
  - intros id Hid. rewrite Hc. case_decide as HP; [done|]. destruct (Ho _ Hid) as [E|]; [by apply (mk_gone _ Hok)|done].
  - intros id. rewrite Hh. intros Hid. rewrite Hc, decide_False; [by apply (mk_held _ Hok)|]. intros HP. by apply (Hheld _ HP).
  - intros id. pose proof (mk_windows _ Hok id) as Hw. rewrite current_item_at in *. rewrite Hc, Ha. case_decide as HP; [done|].
    destruct (current st !! id) as [c|]; simpl in *; [|done]. by rewrite Hi, decide_False.
Qed.
Lemma erases_trans st st1 st2 P Q `{!forall id, Decision (P id), !forall id, Decision (Q id)} :
  erases st st1 P -> erases st1 st2 Q -> erases st st2 (fun id => P id \/ Q id).
Proof.
  intros [Hi Hc Hs Ha Hh Hk Ho Hr] [Hi' Hc' Hs' Ha' Hh' Hk' Ho' Hr']. split.
  - intros n. rewrite Hi', Hi. repeat case_decide; tauto.
  - intros id. rewrite Hc', Hc. repeat case_decide; tauto.
  - intros k. rewrite Hs', Hs. repeat case_decide; tauto.
  - intros id. rewrite Ha', Ha. repeat case_decide; tauto.
  - congruence.
  - set_solver.
  - intros id [[?|?]%Ho|?]%Ho'; auto.
  - intros id HPQ Hcur. destruct (decide (P id)) as [HP|HP]; [by apply Hk', Hr|]. destruct HPQ as [?|HQ]; [done|].
    apply Hr'; [done|]. by rewrite Hc, decide_False.
Qed.
Lemma erases_iff st st' P Q `{!forall id, Decision (P id), !forall id, Decision (Q id)} :
  (forall id, P id <-> Q id) -> erases st st' P -> erases st st' Q.
Proof.
  intros HPQ [Hi Hc Hs Ha Hh Hk Ho Hr].
  assert (forall {A} (x y : A) id, (if decide (P id) then x else y) = if decide (Q id) then x else y) as E
    by (intros A x y id; specialize (HPQ id); repeat case_decide; tauto).
  split; try done.
  - intros n. by rewrite Hi, E.
  - intros id. by rewrite Hc, E.
  - intros k. by rewrite Hs, E.
  - intros id. by rewrite Ha, E.
  - intros id Hid. rewrite <-HPQ. by apply Ho.
  - intros id HQ. apply Hr. by rewrite HPQ.
Qed.
Lemma erases_none st : erases st st (fun _ => False).
Proof. split; try done; auto; intros *; by rewrite decide_False by done. Qed.
(** Edges apart, an erasure is its ids one by one. *)
Lemma foldl_erases (f : Memories -> str -> Memories) ids : forall st, mem_ok st -> (forall id, id ∈ ids -> id ∉ mem_holds st) ->
  (forall st id, mem_ok st -> id ∉ mem_holds st -> erases st (f st id) (fun x => x = id) /\ mem_ok (f st id)) ->
  erases st (foldl f st ids) (fun id => id ∈ ids) /\ mem_ok (foldl f st ids).
Proof.
  induction ids as [|id ids IH]; intros st Hok Hno Hf; simpl.
  - split; [|done]. eapply erases_iff; [|apply erases_none]. set_solver.
  - destruct (Hf st id Hok (Hno id ltac:(left))) as [He Hok1]. destruct (IH (f st id) Hok1) as [He2 Hok2]; [|done|].
    + intros x Hx. rewrite (er_holds _ _ _ He). apply Hno. by right.
    + split; [|done]. eapply erases_iff; [|eapply erases_trans; [exact He|exact He2]]. intros x. by rewrite elem_of_cons.
Qed.
Lemma erase_id_ok b st id : mem_ok st -> id ∉ mem_holds st -> (is_Some (current st !! id) -> b = true) ->
  erases st (erase_id b st id) (fun x => x = id) /\ mem_ok (erase_id b st id).
Proof.
  intros Hok Hh Hb. pose proof (erase_id_erases b st id Hok Hb) as He. split; [done|].
  eapply (erases_ok st); [done|exact He|by intros x ->|]. apply (mk_mirror _ Hok).
Qed.
Lemma elem_of_swap (X : gset (Node * Node)) a b : (a, b) ∈ (set_map swap_edge X : gset (Node * Node)) <-> (b, a) ∈ X.
Proof.
  rewrite elem_of_map. split; [intros ([x y] & [= -> ->] & Hin); done|]. intros Hin. by exists (b, a).
Qed.
Lemma with_edges_ok st d t : mem_ok st -> (forall a b, (a, b) ∈ d <-> (b, a) ∈ t) -> mem_ok (with_edges st d t).
Proof. intros [H1 H2 H3 H4 H5 H6 H7] Hm. by split. Qed.
Lemma erase_member_ok st id : mem_ok st -> id ∉ mem_holds st -> erases st (erase_member st id) (fun x => x = id) /\ mem_ok (erase_member st id).
Proof.
  intros Hok Hh. destruct (erase_id_ok true st id Hok Hh ltac:(done)) as [He Hok1]. unfold erase_member. split; [by destruct He; split|].
  apply with_edges_ok; [done|]. intros a b. rewrite !elem_of_difference, elem_of_swap. by rewrite (mk_mirror _ Hok1).
Qed.
Lemma elem_of_in_subject st s id : mem_ok st -> id ∈ in_subject st s <-> exists c, current st !! id = Some c /\ cur_subject c = s.
Proof.
  intros Hok. unfold in_subject. rewrite list_elem_of_fmap. setoid_rewrite elem_of_iter_by. setoid_rewrite elem_of_filter. setoid_rewrite elem_of_dom. split.
  - intros (k & -> & Hk & [w Hw]). apply (mk_subjects _ Hok) in Hw as (c & i & Hc & Ek & _). exists c. split; [done|]. rewrite <-Hk, Ek. done.
  - intros (c & Hc & <-). destruct (mk_currents _ Hok _ _ Hc) as [i Hi]. exists (subject_key id c). split_and!; [done|done|].
    exists (cur_version c, trust_rank (m_trust i)). apply (mk_subjects _ Hok). exists c, i. done.
Qed.
Lemma delete_items_ok st l : mem_ok st -> (forall n, n ∈ l -> is_current st n = false) -> mem_ok (delete_items st l).
Proof.
  intros Hok Hl.
  assert (forall n, items (delete_items st l) !! n = if decide (n ∈ l) then None else items st !! n) as Hi.
  { intros n. simpl. rewrite (foldl_delete (fun x => x)). by rewrite list_fmap_id. }
  assert (forall id c, current st !! id = Some c -> items (delete_items st l) !! (id, cur_version c) = items st !! (id, cur_version c)) as Hcur.
  { intros id c Hc. rewrite Hi, decide_False; [done|]. intros Hin%Hl. unfold is_current in Hin. simpl in Hin. rewrite Hc in Hin. by rewrite bool_decide_eq_true_2 in Hin. }
  split; try apply Hok.
  - intros n i. rewrite Hi. case_decide; [done|]. apply (mk_items _ Hok).
  - intros id c Hc. rewrite Hcur by done. by apply (mk_currents _ Hok).
  - intros k w. change (by_subject (delete_items st l)) with (by_subject st). rewrite (mk_subjects _ Hok). split; intros (c & i & Hc & Ek & Hit & Ew); exists c, i; split_and!; try done.
    + by rewrite (Hcur _ _ Hc).
    + by rewrite <-(Hcur _ _ Hc).
  - intros id. pose proof (mk_windows _ Hok id) as Hw. rewrite current_item_at in *. simpl in *. destruct (current st !! id) as [c|] eqn:Hc; simpl in *; [|done].
    by rewrite Hcur.
Qed.

(** *** A write *)
Definition next_of st id : Z := match current st !! id with Some c => (cur_version c + 1)%Z | None => 1%Z end.
Definition row_for (item : MemoryItem (J:=J)) (v : Z) : CurrentRow := mk_current (m_subject item) (m_purpose item) (unix (m_created item)) v.
Record writes st item v st' : Prop := {
  wr_version : v = next_of st (m_id item);
  wr_fresh : current st !! m_id item = None -> m_id item ∉ forgotten st;
  wr_scope c : current st !! m_id item = Some c -> cur_subject c = m_subject item /\ cur_purpose c = m_purpose item;
  wr_sources s : s ∈ m_derived item -> exists i, items st !! sel_node s = Some i /\ selection_digest i = sel_digest s /\ m_subject i = m_subject item;
  wr_items n : items st' !! n = if decide (n = (m_id item, v)) then Some (with_version item v) else
    (if decide (n = (m_id item, (v - 1)%Z) /\ is_Some (current st !! m_id item)) then fun i => superseded i (m_created item) else fun i => i) <$> items st !! n;
  wr_current id : current st' !! id = if decide (id = m_id item) then Some (row_for item v) else current st !! id;
  wr_subject k : by_subject st' !! k = if decide (k = subject_key (m_id item) (row_for item v)) then Some (v, trust_rank (m_trust item)) else
    if decide (k.2 = m_id item) then None else by_subject st !! k;
  wr_derived e : e ∈ derived st' <-> e ∈ derived st \/ exists s, s ∈ m_derived item /\ e = (sel_node s, (m_id item, v));
  wr_target e : e ∈ derived_by_target st' <-> e ∈ derived_by_target st \/ exists s, s ∈ m_derived item /\ e = ((m_id item, v), sel_node s);
  wr_forgotten : forgotten st' = forgotten st;
  wr_holds : mem_holds st' = mem_holds st;
  wr_access : access st' = open_window (access st) (m_id item) (m_access item) (m_created item);
}.
Lemma check_sources_ok st subject l : check_sources st subject l = Ok tt -> forall s, s ∈ l ->
  exists i, items st !! sel_node s = Some i /\ selection_digest i = sel_digest s /\ m_subject i = subject.
Proof.
  induction l as [|s l IH]; simpl; intros Hc x Hx; [by apply not_elem_of_nil in Hx|].
  apply result_bind_ok in Hc as ([] & Hc1 & Hc2). unfold check_source in Hc1. apply result_bind_ok in Hc1 as (i & Hi & Hc1).
  apply result_bind_ok in Hc1 as ([] & Hd%ensure_ok%bool_decide_eq_true & Hs%ensure_ok%bool_decide_eq_true).
  unfold ok_or in Hi. destruct (items st !! sel_node s) as [i'|] eqn:E; simplify_eq.
  apply elem_of_cons in Hx as [->|Hx]; [by exists i|by apply IH].
Qed.
Lemma remember_writes st item : mem_ok st -> match remember st item with
  | (st', Ok v) => writes st item v st'
  | (st', Err _) => st' = st
  end.
Proof.
  intros Hok. unfold remember. set (id := m_id item). set (prev := current st !! id).
  match goal with |- context [match ?x with Ok _ => _ | Err _ => _ end] => destruct x as [[]|] eqn:Hchk; [|done] end.
  apply result_bind_ok in Hchk as ([] & Hfresh%ensure_ok & Hchk). apply result_bind_ok in Hchk as ([] & Hscope & Hsrc).
  set (v := match prev with Some c => (cur_version c + 1)%Z | None => 1%Z end).
  split; simpl; try done.
  - intros Hn. fold id in Hn. fold prev in Hn. rewrite Hn in Hfresh. rewrite (bool_decide_eq_true_2 (None = None)) in Hfresh by done. by apply negb_true_iff, bool_decide_eq_false in Hfresh.
  - intros c Hc. fold id in Hc. fold prev in Hc. rewrite Hc in Hscope. apply ensure_ok in Hscope.
    apply andb_true_iff in Hscope as [?%bool_decide_eq_true ?%bool_decide_eq_true]. done.
  - by apply check_sources_ok.
  - intros n. rewrite lookup_insert. fold id. destruct (decide ((id, v) = n)) as [<-|Hn]; [by rewrite !decide_True|].
    rewrite ?(decide_False (P := (id, v) = n)), ?(decide_False (P := n = (id, v))) by congruence. fold prev. unfold v in *. destruct prev as [c|] eqn:Hp.
    + destruct (mk_currents _ Hok _ _ Hp) as [old Hold]. rewrite Hold. rewrite lookup_insert.
      destruct (decide ((id, cur_version c) = n)) as [<-|Hne].
      * rewrite ?decide_True; try done; [by rewrite ?Hold|]. split; [f_equal; lia|done].
      * rewrite ?decide_False; try done; [by rewrite option_fmap_id|]. intros [-> _]. apply Hne. f_equal. lia.
    + rewrite decide_False; [by rewrite option_fmap_id|]. by intros [_ []].
  - intros x. rewrite lookup_insert. fold id. unfold row_for. repeat case_decide; try done; congruence.
  - intros k. fold id prev. rewrite lookup_insert. destruct (decide (subject_key id _ = k)) as [<-|Hne]; [by rewrite !decide_True|].
    rewrite ?(decide_False (P := subject_key id _ = k)), (decide_False (P := k = _)) by (intros E; by apply Hne; rewrite E).
    assert (k.2 = id -> by_subject st !! k = c ← prev; if decide (k = subject_key id c) then by_subject st !! k else None) as Hk.
    { intros Ek. destruct (by_subject st !! k) as [w|] eqn:Hw; [|destruct prev; simpl; [by destruct (decide _)|done]].
      apply (mk_subjects _ Hok) in Hw as (c & i & Hc & Ek' & _). rewrite Ek in Hc, Ek'. unfold prev. rewrite Hc. simpl. by rewrite decide_True. }
    destruct prev as [c|] eqn:Hp; simpl in *.
    + rewrite lookup_delete. destruct (decide (subject_key id c = k)) as [<-|Hne']; [by repeat case_decide|].
      rewrite ?(decide_False (P := subject_key id c = k)) by done. destruct (decide (k.2 = id)) as [Ek|]; [|done]. rewrite Hk by done. rewrite decide_False; [done|congruence].
    + destruct (decide (k.2 = id)) as [Ek|]; [by rewrite Hk|done].
  - intros e. rewrite elem_of_union, elem_of_list_to_set, list_elem_of_fmap. fold id. naive_solver.
  - intros [a b]. rewrite elem_of_union, elem_of_swap, elem_of_list_to_set, list_elem_of_fmap. fold id. naive_solver.
Qed.
Lemma open_window_at (a : gmap str Z) id w at_ : exists e, open_window a id (Some w) at_ !! id = Some e /\ (access_expiry at_ w <= e)%Z /\
  (forall e0, a !! id = Some e0 -> e0 <= e)%Z.
Proof.
  unfold open_window. destruct (a !! id) as [p|] eqn:Hp; [case_bool_decide|].
  - eexists. rewrite lookup_insert_eq. split_and!; [done|lia|]. intros e0 [= <-]. lia.
  - exists p. split_and!; [done|lia|]. intros e0 [= <-]. lia.
  - eexists. rewrite lookup_insert_eq. split_and!; [done|lia|done].
Qed.
Lemma open_window_ne (a : gmap str Z) id w at_ x : x <> id -> open_window a id w at_ !! x = a !! x.
Proof. intros Hx. unfold open_window. destruct w; [repeat case_match|]; by rewrite ?lookup_insert_ne, ?lookup_delete_ne by congruence. Qed.
Lemma next_of_pos st id : mem_ok st -> (1 <= next_of st id)%Z /\ items st !! (id, next_of st id) = None /\
  forall c, current st !! id = Some c -> cur_version c = (next_of st id - 1)%Z /\ (1 <= cur_version c)%Z.
Proof.
  intros Hok. unfold next_of. destruct (current st !! id) as [c|] eqn:Hc.
  - destruct (mk_currents _ Hok _ _ Hc) as [i Hi]. destruct (io_current _ _ _ (mk_items _ Hok _ _ Hi)) as (c' & Hc' & _ & _ & Hv & _).
    simpl in Hc'. assert (c' = c) as -> by congruence. simpl in Hv. split_and!; [lia| |intros c' [= <-]; lia].
    destruct (items st !! (id, (cur_version c + 1)%Z)) as [i'|] eqn:Hi'; [|done].
    destruct (io_current _ _ _ (mk_items _ Hok _ _ Hi')) as (c' & Hc2 & _ & _ & Hv2 & _). simpl in *. assert (c' = c) as -> by congruence. lia.
  - split_and!; [lia| |done]. destruct (items st !! (id, 1%Z)) as [i'|] eqn:Hi'; [|done].
    destruct (io_current _ _ _ (mk_items _ Hok _ _ Hi')) as (c' & Hc2 & _). simpl in *. congruence.
Qed.
(** What a write stores: the new version, its row, and every other row as it
    was, the previous version superseded. *)
Lemma writes_items st item v st' n i' : mem_ok st -> writes st item v st' -> items st' !! n = Some i' ->
  n = (m_id item, v) /\ i' = with_version item v \/
  n <> (m_id item, v) /\ exists i, items st !! n = Some i /\
    (i' = i /\ (n.1 <> m_id item \/ n.2 < v - 1)%Z \/ i' = superseded i (m_created item) /\ n = (m_id item, v - 1)%Z).
Proof.
  intros Hok Hw. rewrite (wr_items _ _ _ _ Hw). destruct (decide (n = _)) as [->|Hn]; [intros [= <-]; by left|].
  intros (i & Hi & ->)%fmap_Some. right. split; [done|]. exists i. split; [done|]. destruct (decide _) as [[-> _]|Hno]; [by right|left].
  split; [done|]. destruct (decide (n.1 = m_id item)) as [E|]; [right|by left].
  destruct (io_current _ _ _ (mk_items _ Hok _ _ Hi)) as (c & Hc & _ & _ & Hv & _). rewrite E in Hc.
  destruct (next_of_pos st (m_id item) Hok) as (_ & _ & Hnext). destruct (Hnext _ Hc) as [Hc1 _]. rewrite <-(wr_version _ _ _ _ Hw) in Hc1.
  assert (n.2 <> v - 1)%Z; [|lia]. intros E2. apply Hno. split; [|by eexists]. destruct n. simpl in *. congruence.
Qed.
Lemma writes_ok st item v st' : mem_ok st -> writes st item v st' -> mem_ok st'.
Proof.
  intros Hok Hw. destruct (next_of_pos st (m_id item) Hok) as (Hpos & Hfree & Hnext). rewrite <-(wr_version _ _ _ _ Hw) in *.
  assert (items st' !! (m_id item, v) = Some (with_version item v)) as Hnew by (by rewrite (wr_items _ _ _ _ Hw), decide_True).
  assert (forall id c, id <> m_id item -> current st !! id = Some c -> items st' !! (id, cur_version c) = items st !! (id, cur_version c)) as Hother.
  { intros id c Hne Hc. rewrite (wr_items _ _ _ _ Hw), !decide_False by naive_solver. by rewrite option_fmap_id. }
  split.
  - intros n i' Hi'. destruct (writes_items _ _ _ _ _ _ Hok Hw Hi') as [[-> ->]|[Hn (i & Hi & Hcase)]].
    + split; [done|done|]. exists (row_for item v). rewrite (wr_current _ _ _ _ Hw), decide_True by done. simpl. split_and!; try done; lia.
    + destruct (mk_items _ Hok _ _ Hi) as [E1 E2 (c & Hc & E3 & E4 & Hv & Hsup & Hcr)].
      destruct Hcase as [[-> Hlt]|[-> En]].
      * split; [done|done|]. destruct (decide (n.1 = m_id item)) as [En|En].
        -- exists (row_for item v). rewrite (wr_current _ _ _ _ Hw), decide_True by done. simpl. rewrite En in Hc.
           destruct (wr_scope _ _ _ _ Hw _ Hc) as [Es Ep]. destruct (Hnext _ Hc) as [Ev _]. destruct Hlt as [?|Hlt]; [done|].
           split_and!; [done|congruence|congruence|lia|lia| |lia]. rewrite Hsup. split; lia.
        -- exists c. by rewrite (wr_current _ _ _ _ Hw), decide_False.
      * split; [done|done|]. subst n. simpl in *. exists (row_for item v). rewrite (wr_current _ _ _ _ Hw), decide_True by done. simpl.
        destruct (wr_scope _ _ _ _ Hw _ Hc) as [Es Ep]. split_and!; [done|congruence|congruence|lia|lia| |lia]. split; [done|lia].
  - intros id c. rewrite (wr_current _ _ _ _ Hw). destruct (decide (id = m_id item)) as [->|Hne]; [intros [= <-]; eauto|].
    intros Hc. rewrite (Hother _ _ Hne Hc). by apply (mk_currents _ Hok).
  - intros k w. rewrite (wr_subject _ _ _ _ Hw), (wr_current _ _ _ _ Hw). destruct (decide (k = subject_key _ _)) as [->|Hk].
    + simpl. rewrite decide_True by done. split.
      * intros [= <-]. exists (row_for item v), (with_version item v). by split_and!.
      * intros (c & i & [= <-] & _ & Hi & ->). simpl in Hi. rewrite Hnew in Hi. by injection Hi as <-.
    + destruct (decide (k.2 = m_id item)) as [E|E].
      * split; [done|]. intros (c & i & [= <-] & Ek & _). destruct Hk. congruence.
      * rewrite (mk_subjects _ Hok). split; intros (c & i & Hc & Ek & Hi & Ew); exists c, i; split_and!; try done; by rewrite ?(Hother _ _ E Hc) in *.
  - intros id. rewrite (wr_forgotten _ _ _ _ Hw), (wr_current _ _ _ _ Hw). intros Hid. pose proof (mk_gone _ Hok _ Hid) as Hg.
    rewrite decide_False; [done|]. intros ->. by apply (wr_fresh _ _ _ _ Hw) in Hg.
  - intros id. rewrite (wr_holds _ _ _ _ Hw), (wr_current _ _ _ _ Hw). case_decide; [eauto|apply (mk_held _ Hok)].
  - intros a b. rewrite (wr_derived _ _ _ _ Hw), (wr_target _ _ _ _ Hw), (mk_mirror _ Hok). naive_solver.
  - intros id. rewrite current_item_at, (wr_current _ _ _ _ Hw), (wr_access _ _ _ _ Hw). destruct (decide (id = m_id item)) as [->|Hne].
    + simpl. rewrite Hnew. simpl. destruct (m_access item) as [w|]; [|by simpl; rewrite lookup_delete_eq].
      destruct (open_window_at (access st) (m_id item) w (m_created item)) as (e & He & Hle & _). eauto.
    + rewrite open_window_ne by done. pose proof (mk_windows _ Hok id) as Hwin. rewrite current_item_at in Hwin.
      destruct (current st !! id) as [c|] eqn:Hc; simpl in *; [|done]. by rewrite (Hother _ _ Hne Hc).
Qed.
Lemma remember_ok st item : mem_ok st -> mem_ok (remember st item).1.
Proof. intros Hok. pose proof (remember_writes st item Hok) as Hw. destruct (remember st item) as [st' [v|e]]; simpl; [by eapply writes_ok|by subst]. Qed.

(** *** A cascade *)
Lemma foldl_erase_doomed ids : forall st out, (foldl erase_doomed (st, out) ids).1 = foldl (erase_id true) st ids.
Proof. induction ids as [|id ids IH]; intros st out; simpl; [done|]. apply IH. Qed.
Lemma foldl_retired ids : forall st, forgotten (foldl (erase_id true) st ids) = list_to_set ids ∪ forgotten st.
Proof. induction ids as [|id ids IH]; intros st; simpl; [set_solver|]. rewrite IH. simpl. set_solver. Qed.
Lemma foldl_edges ids : forall st, derived (foldl (erase_id true) st ids) = derived st /\
  derived_by_target (foldl (erase_id true) st ids) = derived_by_target st.
Proof. induction ids as [|id ids IH]; intros st; simpl; [done|]. destruct (IH (erase_id true st id)) as [-> ->]. done. Qed.
(** Every id that held a row is named. *)
Lemma foldl_named ids n : forall st out, (n.1 ∈ out.*1 -> n.1 ∈ (foldl erase_doomed (st, out) ids).2.*1) /\
  (is_Some (items st !! n) -> n.1 ∈ ids -> n.1 ∈ (foldl erase_doomed (st, out) ids).2.*1).
Proof.
  induction ids as [|id ids IH]; intros st out; simpl; [split; [done|by intros _ ?%not_elem_of_nil]|].
  set (out' := match _ with [] => out | _ => _ end).
  assert (n.1 ∈ out.*1 -> n.1 ∈ out'.*1) as Hmono.
  { intros Hin. unfold out'. case_match; [done|]. rewrite fmap_app. apply elem_of_app. by left. }
  destruct (IH (erase_id true st id) out') as [IH1 IH2]. split; [auto|].
  intros Hs Hin. destruct (decide (n.1 = id)) as [E|Hne].
  - apply IH1. unfold out'. assert (n.2 ∈ versions_of st id) as Hv by (apply elem_of_versions; rewrite <-E; by destruct n).
    destruct (option_list (cur_version <$> current st !! id) ++ versions_of st id) as [|h t] eqn:El.
    + apply app_eq_nil in El as [_ El]. rewrite El in Hv. by apply not_elem_of_nil in Hv.
    + rewrite fmap_app. apply elem_of_app. right. simpl. rewrite E. by left.
  - apply IH2; [by rewrite erase_items, decide_False|]. by apply elem_of_cons in Hin as [?|?].
Qed.
Lemma elem_of_group l n : n ∈ l -> exists vs, (n.1, vs) ∈ group l /\ n.2 ∈ vs.
Proof.
  induction l as [|[id v] l IH]; intros Hin; [by apply not_elem_of_nil in Hin|]. simpl.
  apply elem_of_cons in Hin as [->|Hin].
  - simpl. destruct (group l) as [|[id' vs] g]; [exists [v]; split; by left|]. destruct (decide (id = id')) as [<-|]; eexists; (split; [by left|by left]).
  - destruct (IH Hin) as (vs & Hg & Hv). destruct (group l) as [|[id' vs'] g]; [by apply not_elem_of_nil in Hg|].
    destruct (decide (id = id')) as [<-|]; [|exists vs; split; [by right|done]].
    apply elem_of_cons in Hg as [[= E1 ->]|Hg]; [exists (v :: vs'); rewrite E1; split; [by left|by right]|exists vs; split; [by right|done]].
Qed.
(** What a cascade leaves: exactly what it does not reach. *)
Record cascaded st root st' : Prop := {
  cd_items n i : items st' !! n = Some i <-> items st !! n = Some i /\ ~ reached st root n;
  cd_current id c : current st' !! id = Some c <-> current st !! id = Some c /\ ~ doomed_by st root (inl id);
  cd_derived a b : (a, b) ∈ derived st' <-> (a, b) ∈ derived st /\ ~ reached st root a /\ ~ reached st root b;
  cd_forgotten id : id ∈ forgotten st' <-> id ∈ forgotten st \/ doomed_by st root (inl id);
  cd_holds : mem_holds st' = mem_holds st;
}.
Lemma list_find_none {A} (P : A -> Prop) `{!forall x, Decision (P x)} l : list_find P l = None -> forall x, x ∈ l -> ~ P x.
Proof. intros Hf x Hx. apply list_find_None in Hf. by eapply Forall_forall in Hf. Qed.
Lemma cascade_spec st root : mem_ok st -> exists st' r, forget_cascading st root = Some (st', r) /\ mem_ok st' /\
  match r with
  | Err e => st' = st /\ exists n, e = UnderLegalHold n.1 /\ n.1 ∈ mem_holds st /\ reached st root n
  | Ok c => cascaded st root st' /\ (forall n, reached st root n -> n.1 ∉ mem_holds st) /\
      forall n, is_Some (items st !! n) -> reached st root n -> n.1 ∈ (erased c).*1 \/ exists vs, (n.1, vs) ∈ trimmed c /\ n.2 ∈ vs
  end.
Proof.
  intros Hok. destruct (traverse_exact st root) as (d & dv & Ht & Hd & Hreach & Hcur). unfold forget_cascading. rewrite Ht. simpl.
  destruct (list_find _ _) as [[k id]|] eqn:Hf.
  - exists st, (Err (UnderLegalHold id)). split_and!; [done|done|done|]. apply list_find_Some in Hf as (Hin & Hh & _).
    apply list_elem_of_lookup_2, elem_of_app in Hin as [Hin|Hin].
    + unfold iter_str in Hin. rewrite elem_of_iter_by in Hin. exists (id, 0%Z). split_and!; [done|done|]. left. by apply Hd.
    + apply list_elem_of_fmap in Hin as (n & -> & Hn). rewrite elem_of_iter_by in Hn. exists n. split_and!; [done|done|]. apply Hreach. by right.
  - pose proof (list_find_none _ _ Hf) as Hno. clear Hf.
    assert (forall n, reached st root n -> n.1 ∉ mem_holds st) as Hfree.
    { intros n [Hx|Hx]%Hreach; apply Hno, elem_of_app; [left; unfold iter_str; by rewrite elem_of_iter_by|right].
      apply list_elem_of_fmap. exists n. split; [done|]. by rewrite elem_of_iter_by. }
    assert (forall id, id ∈ iter_str d <-> doomed_by st root (inl id)) as Hids by (intros id; unfold iter_str; by rewrite elem_of_iter_by, Hd).
    destruct (foldl_erases (erase_id true) (iter_str d) st Hok) as [He Hok1].
    { intros id Hid%Hids. apply (Hfree (id, 0%Z)). by left. }
    { intros st0 id Hok0 Hh. by apply erase_id_ok. }
    pose proof (foldl_erase_doomed (iter_str d) st []) as E1.
    assert (forall n, is_Some (items st !! n) -> n.1 ∈ iter_str d -> n.1 ∈ (foldl erase_doomed (st, []) (iter_str d)).2.*1) as Hnamed
      by (intros n; apply foldl_named).
    destruct (foldl erase_doomed (st, []) (iter_str d)) as [st1 out]. simpl in E1, Hnamed. rewrite <-E1 in *.
    set (partly := filter _ (iter_by node_cmp dv)).
    assert (forall n, n ∈ partly <-> n ∈ dv /\ n.1 ∉ d /\ is_Some (items st1 !! n)) as Hpart.
    { intros n. unfold partly. rewrite list_elem_of_filter, elem_of_iter_by. tauto. }
    assert (mem_ok (delete_items st1 partly)) as Hok2.
    { apply delete_items_ok; [done|]. intros n (Hn & Hnd & _)%Hpart. unfold is_current. rewrite (er_current _ _ _ He).
      rewrite decide_False by (rewrite Hids, <-Hd; done). destruct (bool_decide _) eqn:E; [|done]. exfalso. by apply Hnd, Hcur. }
    destruct (foldl_edges (iter_str d) st) as [Ed Et]. rewrite <-E1 in Ed, Et.
    set (st2 := delete_items st1 partly) in *. set (stale := stale_edges st2 d dv).
    assert (forall a b, (a, b) ∈ stale <-> (a, b) ∈ derived st /\ (reached st root a \/ reached st root b)) as Hstale.
    { intros a b. unfold stale, stale_edges. change (derived st2) with (derived st1). change (derived_by_target st2) with (derived_by_target st1). rewrite Ed, Et.
      rewrite elem_of_union, elem_of_swap, !elem_of_filter. simpl. rewrite <-(mk_mirror _ Hok a b), !Hreach. tauto. }
    eexists _, _. split; [done|]. split; [|split_and!; [|done|]].
    + apply with_edges_ok; [done|]. intros a b. rewrite !elem_of_difference, elem_of_swap. by rewrite (mk_mirror _ Hok1).
    + split; [..|exact (er_holds _ _ _ He)].
      * intros n i. simpl. rewrite (foldl_delete (fun x => x)), list_fmap_id. destruct (decide (n ∈ partly)) as [Hp|Hp].
        -- split; [done|]. intros [_ Hr]. exfalso. apply Hr, Hreach. right. by apply Hpart.
        -- rewrite (er_items _ _ _ He). destruct (decide (n.1 ∈ iter_str d)) as [Hin|Hin].
           ++ split; [done|]. intros [_ Hr]. exfalso. apply Hr. left. by apply Hids.
           ++ split; [|tauto]. intros Hi. split; [done|]. intros [Hr|Hr]%Hreach; [by apply Hin, Hids, Hd|]. apply Hp, Hpart.
              rewrite (er_items _ _ _ He), decide_False by done. split_and!; [done|by rewrite Hd, <-Hids|by eexists].
      * intros id c. simpl. rewrite (er_current _ _ _ He). rewrite <-Hids. case_decide; naive_solver.
      * intros a b. simpl. rewrite elem_of_difference, Hstale. change (derived st2) with (derived st1). rewrite Ed. tauto.
      * intros id. simpl. rewrite E1, foldl_retired, elem_of_union, elem_of_list_to_set, Hids. tauto.
    + intros n Hs Hr. destruct (decide (n.1 ∈ iter_str d)) as [Hin|Hin]; [left; by apply Hnamed|right]. simpl. apply elem_of_group, Hpart.
      apply Hreach in Hr as [Hr|Hr]; [exfalso; by apply Hin, Hids, Hd|]. rewrite (er_items _ _ _ He), decide_False by done.
      split_and!; [done|by rewrite Hd, <-Hids|done].
Qed.
End memory_safety.
