(* ===== verification/MemoryLineage.v ===== *)
(** * Memory over any sequence of operations ([src/src/store/redb_memory.rs])

    The operations of [Memory] in any order: what each changes, the lineage
    their writes leave, and the properties of every reachable store. *)

From S2P Require Import Prelude Digest EffectKey Index Panel Text Chain Label Memory MemoryCascade MemorySafety.

Section memory_runs.
Context {J : Type} `{Sha256, MemoryJson (J:=J)}.
Implicit Types (st : Memories (J:=J)) (i : MemoryItem (J:=J)) (n a b : Node).
#[local] Arguments open_window : simpl never.

Inductive Op :=
| MRemember (item : MemoryItem (J:=J))
| MForget (id : str)
| MCascade (root : str)
| MSubject (s : str)
| MSweep (at_ : Z)
| MHold (id : str) (on : bool)
| MTouch (ids : list str) (at_ : Z).
Definition after_op st (o : Op) : Memories :=
  match o with
  | MRemember item => (remember st item).1
  | MForget id => (forget st id).1
  | MCascade root => match forget_cascading st root with Some (st', _) => st' | None => st end
  | MSubject s => (forget_subject st s).1
  | MSweep at_ => (sweep_expired st at_).1
  | MHold id on => (set_legal_hold st id on).1
  | MTouch ids at_ => touch st ids at_
  end.
Definition run_ops st (os : list Op) : Memories := foldl after_op st os.

(** The edges a write leaves, from each source to the new version; the lineage
    of a run is all of them, whatever was erased since. *)
Definition written st (o : Op) : gset (Node * Node) :=
  match o with
  | MRemember item =>
      match (remember st item).2 with
      | Ok v => list_to_set ((fun s => (sel_node s, (m_id item, v))) <$> m_derived item)
      | Err _ => ∅
      end
  | _ => ∅
  end.
Fixpoint lineage st (os : list Op) : gset (Node * Node) :=
  match os with [] => ∅ | o :: os => written st o ∪ lineage (after_op st o) os end.
Definition leads (L : gset (Node * Node)) : relation Node := fun a b => (a, b) ∈ L.

(** ** What an operation changes *)
Inductive effect st (o : Op) st' : Prop :=
| ef_quiet : written st o = ∅ -> items st' = items st -> current st' = current st -> derived st' = derived st -> forgotten st' = forgotten st ->
    (forall id, id ∈ mem_holds st -> o <> MHold id false -> id ∈ mem_holds st') -> effect st o st'
| ef_write item v : o = MRemember item -> remember st item = (st', Ok v) -> writes st item v st' -> effect st o st'
| ef_erase (ids : list str) : written st o = ∅ -> erases st st' (fun id => id ∈ ids) -> derived st' = derived st -> (forall id, id ∈ ids -> id ∉ mem_holds st) -> effect st o st'
| ef_subject s : written st o = ∅ -> erases st st' (fun id => id ∈ in_subject st s) ->
    (forall a b, (a, b) ∈ derived st' <-> (a, b) ∈ derived st /\ b.1 ∉ in_subject st s) ->
    (forall id, id ∈ in_subject st s -> id ∉ mem_holds st) -> effect st o st'
| ef_cascade root : o = MCascade root -> cascaded st root st' -> (forall n, reached st root n -> n.1 ∉ mem_holds st) -> effect st o st'.

Lemma foldl_member_edges ids : forall st, mem_ok st -> (forall id, id ∈ ids -> id ∉ mem_holds st) ->
  forall a b, (a, b) ∈ derived (foldl erase_member st ids) <-> (a, b) ∈ derived st /\ b.1 ∉ ids.
Proof.
  induction ids as [|id ids IH]; intros st Hok Hno a b; simpl; [set_solver|].
  destruct (erase_member_ok st id Hok ltac:(apply Hno; by left)) as [He Hok1]. rewrite IH; [|done|].
  - assert ((a, b) ∈ derived (erase_member st id) <-> (a, b) ∈ derived st /\ b.1 <> id) as ->; [|rewrite elem_of_cons; tauto].
    unfold erase_member. simpl. rewrite elem_of_difference, elem_of_swap, elem_of_filter. simpl. rewrite (mk_mirror _ Hok). tauto.
  - intros x Hx. rewrite (er_holds _ _ _ He). apply Hno. by right.
Qed.
Lemma touch_one_ok at_ st id : mem_ok st -> mem_ok (touch_one at_ st id) /\ items (touch_one at_ st id) = items st /\
  current (touch_one at_ st id) = current st /\ derived (touch_one at_ st id) = derived st /\ forgotten (touch_one at_ st id) = forgotten st /\
  mem_holds (touch_one at_ st id) = mem_holds st.
Proof.
  intros Hok. unfold touch_one. destruct (current st !! id) as [c|] eqn:Hc; simpl; [|done]. destruct (items st !! _) as [i|] eqn:Hi; simpl; [|done].
  destruct (m_access i) as [w|] eqn:Hw; [|done]. split; [|done]. destruct Hok as [H1 H2 H3 H4 H5 H6 H7]. split; try done.
  intros x. specialize (H7 x). rewrite current_item_at in *. simpl. destruct (decide (x = id)) as [->|Hne].
  - rewrite Hc in *. simpl in *. rewrite Hi in *. rewrite Hw in *. destruct H7 as (e0 & He0 & Hle).
    destruct (open_window_at (access st) id w at_) as (e & He & _ & Hmax). exists e. split; [done|]. specialize (Hmax _ He0). lia.
  - by rewrite (open_window_ne _ _ (Some w)) by done.
Qed.
Lemma touch_ok at_ ids : forall st, mem_ok st -> mem_ok (touch st ids at_) /\ items (touch st ids at_) = items st /\
  current (touch st ids at_) = current st /\ derived (touch st ids at_) = derived st /\ forgotten (touch st ids at_) = forgotten st /\
  mem_holds (touch st ids at_) = mem_holds st.
Proof.
  unfold touch. induction ids as [|id ids IH]; intros st Hok; simpl; [done|].
  destruct (touch_one_ok at_ st id Hok) as (Hok1 & <- & <- & <- & <- & <-). by apply IH.
Qed.
Lemma expired_spec st at_ id v : (id, v) ∈ expired_at st at_ -> id ∉ mem_holds st /\ is_Some (current st !! id).
Proof.
  unfold expired_at. intros (x & _ & Hx)%list_elem_of_omap. destruct (current st !! x) as [c|] eqn:Hc; simpl in Hx; [|done].
  case_decide; [done|]. destruct (items st !! _); simpl in Hx; [|done]. case_match; [|done]. injection Hx as <- _. split; [done|eauto].
Qed.
Lemma after_effect st o : mem_ok st -> mem_ok (after_op st o) /\ effect st o (after_op st o).
Proof.
  intros Hok. destruct o as [item|id|root|s|at_|id on|ids at_]; simpl.
  - pose proof (remember_writes st item Hok) as Hw. destruct (remember st item) as [st' [v|e]] eqn:E; simpl.
    + split; [by eapply writes_ok|by eapply ef_write].
    + subst st'. split; [done|]. apply ef_quiet; try done. simpl. by rewrite E.
  - unfold forget. case_decide as Hh; simpl; [split; [done|by apply ef_quiet]|].
    destruct (erase_id_ok (bool_decide (is_Some (current st !! id))) st id Hok Hh) as [He Hok']; [by intros ?; apply bool_decide_eq_true_2|].
    split; [done|]. apply (ef_erase _ _ _ [id]); [done| |done|].
    + eapply erases_iff; [|exact He]. intros x. by rewrite list_elem_of_singleton.
    + by intros x ->%list_elem_of_singleton.
  - destruct (cascade_spec st root Hok) as (st' & r & -> & Hok' & Hr). split; [done|]. destruct r as [c|e].
    + destruct Hr as (Hc & Hf & _). by eapply ef_cascade.
    + destruct Hr as [-> _]. by apply ef_quiet.
  - unfold forget_subject. destruct (list_find _ _) as [[k id]|] eqn:Hf; simpl; [split; [done|by apply ef_quiet]|].
    pose proof (list_find_none _ _ Hf) as Hno. simpl in Hno.
    destruct (foldl_erases erase_member (in_subject st s) st Hok Hno) as [He Hok']; [by intros; apply erase_member_ok|].
    split; [done|]. by apply (ef_subject _ _ _ s); [| |apply foldl_member_edges|].
  - assert (forall id, id ∈ (expired_at st at_).*1 -> id ∉ mem_holds st) as Hno.
    { intros id ([x v] & -> & Hx)%list_elem_of_fmap. by eapply expired_spec. }
    destruct (foldl_erases (erase_id true) (expired_at st at_).*1 st Hok Hno) as [He Hok']; [by intros; apply erase_id_ok|].
    split; [done|]. apply (ef_erase _ _ _ (expired_at st at_).*1); [done|done|apply foldl_edges|done].
  - unfold set_legal_hold. destruct on; [case_decide as Hc; simpl|simpl].
    + split; [|apply ef_quiet; try done; set_solver]. destruct Hok. split; try done. simpl. intros x [->%elem_of_singleton|Hx]%elem_of_union; auto.
    + split; [done|by apply ef_quiet].
    + split; [|apply ef_quiet; try done; simpl; intros x Hx Hne; apply elem_of_difference; split; [done|]; intros ->%elem_of_singleton; done].
      destruct Hok. split; try done. simpl. intros x [Hx _]%elem_of_difference. auto.
  - destruct (touch_ok at_ ids st Hok) as (Hok' & Hi & Hc & Hd & Hf & Hh). split; [done|]. apply ef_quiet; try done. intros id. by rewrite Hh.
Qed.
Lemma run_ok os : forall st, mem_ok st -> mem_ok (run_ops st os).
Proof. induction os as [|o os IH]; intros st Hok; simpl; [done|]. by apply IH, after_effect. Qed.

(** ** Versions *)
Definition same_version i i' : Prop := i' = i \/ exists at_, i' = superseded i at_.
Lemma same_version_trans i i1 i2 : same_version i i1 -> same_version i1 i2 -> same_version i i2.
Proof. intros [->|[x ->]] [->|[y ->]]; unfold same_version; eauto. Qed.
(** A node that was ever stored. *)
Definition spent st n : Prop := (exists c, current st !! n.1 = Some c /\ (n.2 <= cur_version c)%Z) \/ n.1 ∈ forgotten st.
Lemma stored_spent st n : mem_ok st -> is_Some (items st !! n) -> spent st n.
Proof. intros Hok [i Hi]. destruct (io_current _ _ _ (mk_items _ Hok _ _ Hi)) as (c & Hc & _ & _ & Hv & _). left. exists c. split; [done|lia]. Qed.
Lemma writes_not_spent st item v st' : mem_ok st -> writes st item v st' -> ~ spent st (m_id item, v).
Proof.
  intros Hok Hw [(c & Hc & Hle)|Hf]; simpl in *.
  - destruct (next_of_pos st (m_id item) Hok) as (_ & _ & Hn). destruct (Hn _ Hc). rewrite (wr_version _ _ _ _ Hw) in Hle. lia.
  - by apply (wr_fresh _ _ _ _ Hw) in Hf; [|apply (mk_gone _ Hok)].
Qed.
Lemma effect_spent st o st' n : mem_ok st -> effect st o st' -> spent st n -> spent st' n.
Proof.
  intros Hok He Hn. unfold spent in *. destruct He as [_ Hi Hc Hd Hf Hh|item v _ _ Hw|ids _ He _ _|s _ He _ _|root _ Hcd _].
  - by rewrite Hc, Hf.
  - rewrite (wr_current _ _ _ _ Hw), (wr_forgotten _ _ _ _ Hw). destruct Hn as [(c & Hc & Hle)|?]; [left|by right].
    case_decide as E; [|by exists c]. eexists. split; [done|]. simpl. rewrite E in Hc. destruct (next_of_pos st (m_id item) Hok) as (_ & _ & Hn).
    destruct (Hn _ Hc). rewrite (wr_version _ _ _ _ Hw). lia.
  - destruct Hn as [(c & Hc & Hle)|?]; [|right; by apply (er_kept _ _ _ He)]. destruct (decide (n.1 ∈ ids)) as [Hin|Hin].
    + right. apply (er_retired _ _ _ He); [done|by eexists].
    + left. exists c. by rewrite (er_current _ _ _ He), decide_False.
  - destruct Hn as [(c & Hc & Hle)|?]; [|right; by apply (er_kept _ _ _ He)]. destruct (decide (n.1 ∈ in_subject st s)) as [Hin|Hin].
    + right. apply (er_retired _ _ _ He); [done|by eexists].
    + left. exists c. by rewrite (er_current _ _ _ He), decide_False.
  - destruct (traverse_exact st root) as (d & _ & _ & Hdd & _). destruct Hn as [(c & Hc & Hle)|?].
    + destruct (decide (n.1 ∈ d)) as [Hin%Hdd|Hin]; [right; apply (cd_forgotten _ _ _ Hcd); by right|].
      left. exists c. split; [|done]. apply (cd_current _ _ _ Hcd). by rewrite <-Hdd.
    + right. apply (cd_forgotten _ _ _ Hcd). by left.
Qed.
Lemma effect_version st o st' n i' : mem_ok st -> effect st o st' -> spent st n -> items st' !! n = Some i' ->
  exists i, items st !! n = Some i /\ same_version i i'.
Proof.
  intros Hok He Hn. destruct He as [_ Hi Hc Hd Hf Hh|item v _ _ Hw|ids _ He _ _|s _ He _ _|root _ Hcd _]; intros Hi'.
  - rewrite Hi in Hi'. exists i'. split; [done|by left].
  - destruct (writes_items _ _ _ _ _ _ Hok Hw Hi') as [[-> _]|[_ (i & Hi & [[-> _]|[-> _]])]].
    + by destruct (writes_not_spent _ _ _ _ Hok Hw).
    + exists i. split; [done|by left].
    + exists i. split; [done|]. right. eauto.
  - rewrite (er_items _ _ _ He) in Hi'. case_decide; [done|]. exists i'. split; [done|by left].
  - rewrite (er_items _ _ _ He) in Hi'. case_decide; [done|]. exists i'. split; [done|by left].
  - apply (cd_items _ _ _ Hcd) in Hi' as [? _]. exists i'. split; [done|by left].
Qed.
Lemma run_version os : forall st n i', mem_ok st -> spent st n -> items (run_ops st os) !! n = Some i' ->
  exists i, items st !! n = Some i /\ same_version i i'.
Proof.
  induction os as [|o os IH]; intros st n i' Hok Hn Hi'; simpl in *; [exists i'; split; [done|by left]|].
  destruct (after_effect st o Hok) as [Hok1 He]. pose proof (effect_spent _ _ _ _ Hok He Hn) as Hn1.
  destruct (IH _ _ _ Hok1 Hn1 Hi') as (i1 & Hi1 & Hs1). destruct (effect_version _ _ _ _ _ Hok He Hn Hi1) as (i & Hi & Hs).
  exists i. split; [done|]. by eapply same_version_trans.
Qed.
Lemma run_spent os : forall st n, mem_ok st -> spent st n -> spent (run_ops st os) n.
Proof.
  induction os as [|o os IH]; intros st n Hok Hn; simpl; [done|]. destruct (after_effect st o Hok) as [Hok1 He]. apply IH; [done|exact (effect_spent _ _ _ _ Hok He Hn)].
Qed.
(** A held memory's versions stay. *)
Lemma effect_held st o st' id : mem_ok st -> effect st o st' -> id ∈ mem_holds st -> o <> MHold id false ->
  id ∈ mem_holds st' /\ is_Some (current st' !! id) /\ forall v, is_Some (items st !! (id, v)) -> is_Some (items st' !! (id, v)).
Proof.
  intros Hok He Hh Hne. pose proof (mk_held _ Hok _ Hh) as [c Hc].
  destruct He as [_ Hi Hcur Hd Hf Hho|item v _ _ Hw|ids _ He _ Hno|s _ He _ Hno|root _ Hcd Hno].
  - rewrite Hi, Hcur. split_and!; [by apply Hho|by eexists|done].
  - rewrite (wr_holds _ _ _ _ Hw), (wr_current _ _ _ _ Hw). split_and!; [done|case_decide; by eexists|].
    intros x [i Hi]. rewrite (wr_items _ _ _ _ Hw), Hi. case_decide; simpl; eauto.
  - assert (id ∉ ids) as Hn by (intros Hx; by apply (Hno _ Hx)). rewrite (er_holds _ _ _ He), (er_current _ _ _ He), decide_False by done.
    split_and!; [done|by eexists|]. intros x Hx. by rewrite (er_items _ _ _ He), decide_False.
  - assert (id ∉ in_subject st s) as Hn by (intros Hx; by apply (Hno _ Hx)). rewrite (er_holds _ _ _ He), (er_current _ _ _ He), decide_False by done.
    split_and!; [done|by eexists|]. intros x Hx. by rewrite (er_items _ _ _ He), decide_False.
  - assert (forall v, ~ reached st root (id, v)) as Hn by (intros v Hx; by apply (Hno _ Hx)). rewrite (cd_holds _ _ _ Hcd). split_and!; [done| |].
    + exists c. apply (cd_current _ _ _ Hcd). split; [done|]. intros Hx. apply (Hn 0%Z). by left.
    + intros v [i Hi]. exists i. by apply (cd_items _ _ _ Hcd).
Qed.

(** ** Lineage *)
Lemma effect_items st o st' n : mem_ok st -> effect st o st' -> is_Some (items st' !! n) -> is_Some (items st !! n) \/
  exists item v, n = (m_id item, v) /\ remember st item = (st', Ok v) /\ o = MRemember item /\ writes st item v st'.
Proof.
  intros Hok He [i' Hi']. destruct He as [_ Hi Hc Hd Hf Hh|item v Ho Hr Hw|ids _ He _ _|s _ He _ _|root _ Hcd _].
  - rewrite Hi in Hi'. eauto.
  - destruct (writes_items _ _ _ _ _ _ Hok Hw Hi') as [[-> _]|[_ (i & Hi & _)]]; [right; eauto 8|left; eauto].
  - rewrite (er_items _ _ _ He) in Hi'. case_decide; [done|eauto].
  - rewrite (er_items _ _ _ He) in Hi'. case_decide; [done|eauto].
  - apply (cd_items _ _ _ Hcd) in Hi' as [? _]. eauto.
Qed.
Lemma written_write st item v st' : remember st item = (st', Ok v) -> forall a b, (a, b) ∈ written st (MRemember item) <->
  b = (m_id item, v) /\ exists s, s ∈ m_derived item /\ a = sel_node s.
Proof. intros Hr a b. simpl. rewrite Hr. simpl. rewrite elem_of_list_to_set, list_elem_of_fmap. naive_solver. Qed.
(** A path that does not end at the new version does not use its edges. *)
Lemma leads_fresh (L E : gset (Node * Node)) y a x : (forall a b, (a, b) ∈ E -> b = y) -> (forall b, (y, b) ∉ L) -> (forall b, (y, b) ∉ E) ->
  rtc (leads (L ∪ E)) a x -> x <> y -> rtc (leads L) a x.
Proof.
  intros HE HL HE' Hp Hx. induction Hp as [a|a b x Hab Hp IH]; [done|]. specialize (IH Hx).
  unfold leads in Hab. apply elem_of_union in Hab as [Hab|Hab]; [by eapply rtc_l|]. apply HE in Hab as ->.
  inversion IH as [|? c ? Hc]; subst; [done|]. by apply HL in Hc.
Qed.
Lemma leads_to (L E : gset (Node * Node)) y a : (forall b, (y, b) ∉ L) -> (forall b, (y, b) ∉ E) -> (forall a b, (a, b) ∈ E -> b = y) ->
  (forall a, (a, y) ∉ L) -> rtc (leads (L ∪ E)) a y -> a = y \/ exists s, (s, y) ∈ E /\ rtc (leads L) a s.
Proof.
  intros HL HE' HE HL' Hp. apply rtc_inv_r in Hp as [->|(s & Hp & Hs)]; [by left|right]. exists s.
  apply elem_of_union in Hs as [Hs|Hs]; [by apply HL' in Hs|]. split; [done|]. eapply (leads_fresh L E y); try done. intros ->. by apply HE' in Hs.
Qed.
Record lineage_ok st (L : gset (Node * Node)) : Prop := {
  (** Every edge on a path to a stored version is still there. *)
  ln_path a b x : (a, b) ∈ L -> rtc (leads L) b x -> is_Some (items st !! x) -> (a, b) ∈ derived st;
  ln_spent a b : (a, b) ∈ L -> spent st a /\ spent st b;
  ln_subject : exists S : str -> str, (forall id c, current st !! id = Some c -> cur_subject c = S id) /\
    forall a b, (a, b) ∈ L -> S a.1 = S b.1;
}.
Lemma lineage_none : lineage_ok no_memories ∅.
Proof. split; try set_solver. exists (fun _ => []). split; [intros id c; simpl; by rewrite lookup_empty|set_solver]. Qed.
Lemma reached_along st L root b x : lineage_ok st L -> reached st root b -> rtc (leads L) b x -> is_Some (items st !! x) -> reached st root x.
Proof.
  intros HL Hb Hp Hx. revert Hb. induction Hp as [b|b c x Hbc Hp IH]; intros Hb; [done|]. apply IH; [done|]. eapply reached_next; [exact Hb|]. by eapply ln_path.
Qed.
Lemma lineage_write st L item v st' : mem_ok st -> lineage_ok st L -> remember st item = (st', Ok v) -> writes st item v st' ->
  lineage_ok st' (L ∪ written st (MRemember item)).
Proof.
  intros Hok HL Hr Hw. pose proof (written_write _ _ _ _ Hr) as HE. set (E := written st (MRemember item)) in *. set (y := (m_id item, v)) in *.
  pose proof (writes_not_spent _ _ _ _ Hok Hw) as Hy. fold y in Hy.
  assert (forall b, (y, b) ∉ L) as HL1 by (intros b Hb; by apply (ln_spent _ _ HL) in Hb as [? _]).
  assert (forall a, (a, y) ∉ L) as HL2 by (intros a Ha; by apply (ln_spent _ _ HL) in Ha as [_ ?]).
  assert (forall a b, (a, b) ∈ E -> b = y /\ is_Some (items st !! a)) as HEs.
  { intros a b (-> & s & Hs & ->)%HE. split; [done|]. destruct (wr_sources _ _ _ _ Hw _ Hs) as (i & Hi & _). eauto. }
  assert (forall b, (y, b) ∉ E) as HE1 by (intros b Hb; apply HEs in Hb as [_ Hb]; by apply Hy, stored_spent).
  assert (spent st' y) as Hy'.
  { left. exists (row_for item v). rewrite (wr_current _ _ _ _ Hw), decide_True by done. split; [done|simpl; lia]. }
  assert (forall n, spent st n -> spent st' n) as Hsp.
  { intros n. eapply effect_spent; [done|]. by eapply ef_write. }
  split.
  - intros a b x Hab Hp Hx. rewrite (wr_derived _ _ _ _ Hw). apply elem_of_union in Hab as [Hab|Hab].
    + left. destruct (decide (x = y)) as [->|Hne].
      * apply leads_to in Hp; try done; [|by intros ? ? [? _]%HEs]. destruct Hp as [->|(s & Hs & Hp)]; [by apply HL2 in Hab|].
        eapply (ln_path _ _ HL); [done|exact Hp|]. by eapply HEs.
      * eapply leads_fresh in Hp; try done; [|by intros ? ? [? _]%HEs]. eapply (ln_path _ _ HL); [done|exact Hp|].
        destruct Hx as [i' Hi']. destruct (writes_items _ _ _ _ _ _ Hok Hw Hi') as [[-> _]|[_ (i & Hi & _)]]; [done|eauto].
    + right. apply HE in Hab as (-> & s & Hs & ->). eauto.
  - intros a b [Hab|Hab]%elem_of_union.
    + apply (ln_spent _ _ HL) in Hab as [? ?]. auto.
    + apply HEs in Hab as [-> Ha]. split; [|done]. by apply Hsp, stored_spent.
  - destruct (ln_subject _ _ HL) as (S & HS & HSe). exists (fun id => if decide (id = m_id item) then m_subject item else S id).
    assert (forall c, current st !! m_id item = Some c -> S (m_id item) = m_subject item) as Hsame.
    { intros c Hc. rewrite <-(HS _ _ Hc). by apply (wr_scope _ _ _ _ Hw). }
    split.
    + intros id c. rewrite (wr_current _ _ _ _ Hw). case_decide; [by intros [= <-]|apply HS].
    + intros a b [Hab|Hab]%elem_of_union.
      * destruct (current st !! m_id item) as [c|] eqn:Hc.
        -- pose proof (HSe _ _ Hab). pose proof (Hsame _ eq_refl). repeat case_decide; congruence.
        -- assert (forall n, spent st n -> n.1 <> m_id item) as Hn.
           { intros n [(c & Hc' & _)|Hf] E'; rewrite E' in *; [congruence|]. by apply (wr_fresh _ _ _ _ Hw) in Hc. }
           destruct (ln_spent _ _ HL _ _ Hab) as [Ha Hb]. rewrite !decide_False by auto. by apply HSe.
      * apply HE in Hab as (-> & s & Hs & ->). simpl. rewrite (decide_True (P := m_id item = m_id item)) by done. case_decide as E'; [done|].
        destruct (wr_sources _ _ _ _ Hw _ Hs) as (i & Hi & _ & Hsub). destruct (io_current _ _ _ (mk_items _ Hok _ _ Hi)) as (c & Hc & Hsub' & _).
        rewrite (HS _ _ Hc) in Hsub'. simpl in Hsub'. congruence.
Qed.
Lemma lineage_effect st L o st' : mem_ok st -> lineage_ok st L -> effect st o st' -> lineage_ok st' (L ∪ written st o).
Proof.
  intros Hok HL Heff. pose proof (fun n => effect_spent _ _ _ n Hok Heff) as Hsp. pose proof (fun n => effect_items _ _ _ n Hok Heff) as Hit.
  assert (forall a b, (a, b) ∈ L -> spent st' a /\ spent st' b) as Hsp' by (intros a b [? ?]%(ln_spent _ _ HL); auto).
  destruct (ln_subject _ _ HL) as (S & HS & HSe).
  destruct Heff as [Ew Hi Hc Hd Hf Hh|item v -> Hr Hw|ids Ew He Hd _|s Ew He Hd _|root -> Hcd _]; [| by eapply lineage_write| | |];
    try rewrite Ew; simpl; rewrite (right_id_L ∅ (∪)); split; try done.
  - intros a b x Hab Hp Hx. rewrite Hd. rewrite Hi in Hx. by eapply (ln_path _ _ HL).
  - exists S. by rewrite Hc.
  - intros a b x Hab Hp [i Hx]. rewrite Hd. rewrite (er_items _ _ _ He) in Hx. case_decide; [done|]. by eapply (ln_path _ _ HL).
  - exists S. split; [|done]. intros id c. rewrite (er_current _ _ _ He). case_decide; [done|apply HS].
  - intros a b x Hab Hp [i Hx]. rewrite (er_items _ _ _ He) in Hx. case_decide as Hxs; [done|]. apply Hd. split; [by eapply (ln_path _ _ HL)|].
    intros Hb. apply Hxs. apply (elem_of_in_subject _ _ _ Hok) in Hb as (cb & Hcb & Hsb).
    assert (S b.1 = S x.1) as Es by (clear -Hp HSe; induction Hp as [|? ? ? H1 _ IH]; [done|rewrite <-IH; by apply HSe]).
    destruct (io_current _ _ _ (mk_items _ Hok _ _ Hx)) as (cx & Hcx & _). apply (elem_of_in_subject _ _ _ Hok). exists cx. split; [done|].
    rewrite (HS _ _ Hcx), <-Es, <-(HS _ _ Hcb). done.
  - exists S. split; [|done]. intros id c. rewrite (er_current _ _ _ He). case_decide; [done|apply HS].
  - intros a b x Hab Hp [i Hx]. apply (cd_items _ _ _ Hcd) in Hx as [Hx Hnr]. pose proof (ln_path _ _ HL a b x Hab Hp ltac:(eauto)) as Hed.
    assert (~ reached st root b) as Hnb by (intros Hb; apply Hnr; by eapply reached_along; eauto).
    apply (cd_derived _ _ _ Hcd). split_and!; [done| |done]. intros Ha. by eapply Hnb, reached_next.
  - exists S. split; [|done]. intros id c Hc. apply (cd_current _ _ _ Hcd) in Hc as [? _]. by apply HS.
Qed.
Lemma run_lineage os : forall st L, mem_ok st -> lineage_ok st L -> lineage_ok (run_ops st os) (L ∪ lineage st os).
Proof.
  induction os as [|o os IH]; intros st L Hok HL; simpl; [by rewrite (right_id_L ∅ (∪))|]. destruct (after_effect st o Hok) as [Hok1 He].
  rewrite (assoc_L (∪)). apply IH; [done|]. by apply lineage_effect.
Qed.
(** Nothing stored comes from what was erased. *)
Definition clean st (L : gset (Node * Node)) (root : str) : Prop :=
  root ∈ forgotten st /\ forall v x, rtc (leads L) (root, v) x -> items st !! x = None.
Lemma clean_effect st L o st' root : mem_ok st -> lineage_ok st L -> effect st o st' -> clean st L root -> clean st' (L ∪ written st o) root.
Proof.
  intros Hok HL Heff [Hr Hcl]. split.
  - assert (spent st' (root, 1%Z)) as [(c & Hc & _)|?]; [eapply effect_spent; [done|done|by right]| |done]. simpl in Hc.
    destruct Heff as [_ _ Ec _ Ef _|item v _ _ Hw|ids _ He _ _|s _ He _ _|r _ Hcd _].
    + by rewrite Ef.
    + by rewrite (wr_forgotten _ _ _ _ Hw).
    + by apply (er_kept _ _ _ He).
    + by apply (er_kept _ _ _ He).
    + apply (cd_forgotten _ _ _ Hcd). by left.
  - intros v x Hp. destruct (items st' !! x) as [i'|] eqn:Hx; [|done]. exfalso.
    destruct (effect_items _ _ _ x Hok Heff ltac:(eauto)) as [[i Hi]|(item & w & -> & Hrem & -> & Hw)].
    + destruct Heff as [Ew _ _ _ _ _|item w -> Hrem Hw|ids Ew _ _ _|s Ew _ _ _|r -> _ _];
        try (rewrite Ew, (right_id_L ∅ (∪)) in Hp; by rewrite (Hcl _ _ Hp) in Hi).
      * pose proof (writes_not_spent _ _ _ _ Hok Hw) as Hy. pose proof (written_write _ _ _ _ Hrem) as HE.
        assert (x <> (m_id item, w)) as Hne by (intros ->; apply Hy, stored_spent; eauto).
        eapply (leads_fresh _ _ (m_id item, w)) in Hp; [by rewrite (Hcl _ _ Hp) in Hi| | | |done].
        -- intros a b [-> _]%HE. done.
        -- intros b Hb. by apply (ln_spent _ _ HL) in Hb as [? _].
        -- intros b (_ & s & Hs & E)%HE. destruct (wr_sources _ _ _ _ Hw _ Hs) as (j & Hj & _). apply Hy, stored_spent; [done|]. rewrite E. eauto.
      * simpl in Hp. rewrite (right_id_L ∅ (∪)) in Hp. by rewrite (Hcl _ _ Hp) in Hi.
    + pose proof (writes_not_spent _ _ _ _ Hok Hw) as Hy. pose proof (written_write _ _ _ _ Hrem) as HE.
      apply leads_to in Hp.
      * destruct Hp as [[= -> ->]|(s & Hs & Hp)].
        -- by apply (wr_fresh _ _ _ _ Hw) in Hr; [|apply (mk_gone _ Hok)].
        -- apply HE in Hs as (_ & sel & Hsel & ->). destruct (wr_sources _ _ _ _ Hw _ Hsel) as (j & Hj & _). by rewrite (Hcl _ _ Hp) in Hj.
      * intros b Hb. by apply (ln_spent _ _ HL) in Hb as [? _].
      * intros b (_ & s & Hs & E)%HE. destruct (wr_sources _ _ _ _ Hw _ Hs) as (j & Hj & _). apply Hy, stored_spent; [done|]. rewrite E. eauto.
      * intros a b [-> _]%HE. done.
      * intros a Ha. by apply (ln_spent _ _ HL) in Ha as [_ ?].
Qed.
Lemma run_clean os : forall st L root, mem_ok st -> lineage_ok st L -> clean st L root -> clean (run_ops st os) (L ∪ lineage st os) root.
Proof.
  induction os as [|o os IH]; intros st L root Hok HL Hc; simpl; [by rewrite (right_id_L ∅ (∪))|]. destruct (after_effect st o Hok) as [Hok1 He].
  rewrite (assoc_L (∪)). apply IH; [done|by apply lineage_effect|by apply clean_effect].
Qed.
Lemma cascade_clean st L root st' : lineage_ok st L -> cascaded st root st' -> clean st' L root.
Proof.
  intros HL Hcd. split; [apply (cd_forgotten _ _ _ Hcd); right; apply db_root|]. intros v x Hp. destruct (items st' !! x) as [i|] eqn:Hx; [|done].
  apply (cd_items _ _ _ Hcd) in Hx as [Hx Hnr]. destruct Hnr. eapply (reached_along st L root (root, v)); [done|left; apply db_root|exact Hp|eauto].
Qed.
End memory_runs.
