(* ===== verification/MemoryIndex.v ===== *)
(** * Erasure that reaches the semantic index ([src/src/memory/indexed.rs], [src/src/memory/mod.rs])

    An index is a copy of what it was built from.  [SemanticRetriever] is what
    the store needs of one, [InMemorySemanticRetriever] is the one the crate
    ships, and the indexed store erases rows first and then tells the index,
    owing what the index refused.  Its debt is one process's. *)

From S2P Require Import Prelude Digest EffectKey Index Panel Text Chain Label Memory MemoryCascade MemorySafety MemoryLineage.

(** What a vector is filed under: subject, id, version. *)
Abbreviation Filed := (str * str * Z)%type.
Inductive Forgotten := Ids (ids : list str) | Versions (l : list (str * list Z)) | SubjectOf (subject : str).
Definition names (f : Forgotten) (v : Filed) : bool :=
  match f with
  | Ids ids => bool_decide (v.1.2 ∈ ids)
  | Versions l => existsb (fun e => bool_decide (e.1 = v.1.2) && bool_decide (v.2 ∈ e.2)) l
  | SubjectOf s => bool_decide (v.1.1 = s)
  end.
(** What is told is dropped, and nothing comes back. *)
Class SemanticRetriever (I : Type) := {
  sr_holds : I -> Filed -> Prop;
  sr_forget : I -> Forgotten -> I * result StoreError unit;
  sr_dropped ix f ix' v : sr_forget ix f = (ix', Ok tt) -> sr_holds ix' v -> names f v = false;
  sr_kept ix f ix' r v : sr_forget ix f = (ix', r) -> sr_holds ix' v -> sr_holds ix v;
}.

(** ** The shipped index *)
Section in_memory.
Context {E : Type}.
Record SemanticVector := mk_vector { sv_subject : str; sv_purpose : str; sv_selected : Selected; sv_embedding : E }.
Definition filed_vector (v : SemanticVector) : Filed := (sv_subject v, sel_id (sv_selected v), sel_version (sv_selected v)).
(** A writer that panicked poisons the lock. *)
Record InMemory := mk_in_memory { poisoned : bool; vectors : list SemanticVector }.
Definition in_memory_forget (ix : InMemory) (f : Forgotten) : InMemory * result StoreError unit :=
  if poisoned ix then (ix, Err (Backend (lit "the in-memory index is poisoned")))
  else (mk_in_memory false (filter (fun v => negb (names f (filed_vector v)) = true) (vectors ix)), Ok tt).
#[export] Program Instance InMemorySemanticRetriever : SemanticRetriever InMemory :=
  { sr_holds := fun ix v => v ∈ filed_vector <$> vectors ix; sr_forget := in_memory_forget }.
Next Obligation.
  intros ix f ix' v. unfold in_memory_forget. destruct (poisoned ix); [done|]. intros [= <-]. simpl.
  intros (w & -> & [Hw _]%list_elem_of_filter)%list_elem_of_fmap. by apply negb_true_iff in Hw.
Qed.
Next Obligation.
  intros ix f ix' r v. unfold in_memory_forget. destruct (poisoned ix); intros [= <- _]; [done|]. simpl.
  intros (w & -> & [_ Hw]%list_elem_of_filter)%list_elem_of_fmap. apply list_elem_of_fmap. eauto.
Qed.
End in_memory.
Arguments SemanticVector : clear implicits.
Arguments InMemory : clear implicits.

(** ** The indexed store *)
Section indexed.
Context {J : Type} `{Sha256, MemoryJson (J:=J)} {I : Type} `{!SemanticRetriever I}.
Implicit Types (st : Memories (J:=J)) (i : MemoryItem (J:=J)) (v : Filed).

Inductive MemoryErasure := Subject (subject : str) | Cascading (id : str) | Expired (at_ : Z).
Inductive Reached := RSubject (n : nat) | RCascading (c : Cascade) | RExpired (swept : list (str * Z)).
(** The default of [MemoryStore::erase_reaching], over the embedded store. *)
Definition store_erase st (verb : MemoryErasure) : option (Memories * result EraseError Reached) :=
  match verb with
  | Subject s => let '(st, r) := forget_subject st s in Some (st, match r with Ok n => Ok (RSubject n) | Err e => Err e end)
  | Cascading id => '(st, r) ← forget_cascading st id; Some (st, match r with Ok c => Ok (RCascading c) | Err e => Err e end)
  | Expired at_ => let '(st, l) := sweep_expired st at_ in Some (st, Ok (RExpired l))
  end.

Record IndexedMemoryStore := mk_indexed { inner : Memories (J:=J); index : I; untold : list Forgotten }.
(** In order; what is refused stays owed with all that follows it. *)
Fixpoint deliver (ix : I) (owed : list Forgotten) : I * list Forgotten * result StoreError unit :=
  match owed with
  | [] => (ix, [], Ok tt)
  | f :: rest =>
      let '(ix, r) := sr_forget ix f in
      match r with
      | Ok _ => deliver ix rest
      | Err _ => (ix, f :: rest, Err (Backend (lit "erased from memory, but the semantic index still holds")))
      end
  end.
Definition tell st (s : IndexedMemoryStore) (forgotten : list Forgotten) : IndexedMemoryStore * result StoreError unit :=
  let '(ix, owed, r) := deliver (index s) (untold s ++ forgotten) in (mk_indexed st ix owed, r).
Definition to_tell (verb : MemoryErasure) (reached : Reached) : list Forgotten :=
  match reached with
  | RSubject _ => match verb with Subject s => [SubjectOf s] | _ => [] end
  | RCascading c => match erased c with [] => [] | l => [Ids (fst <$> l)] end ++ match trimmed c with [] => [] | l => [Versions l] end
  | RExpired swept => match swept with [] => [] | l => [Ids (fst <$> l)] end
  end.
Definition erase_reaching (s : IndexedMemoryStore) (verb : MemoryErasure) :
    option (IndexedMemoryStore * result EraseError (Reached * option StoreError)) :=
  '(st, r) ← store_erase (inner s) verb;
  Some (match r with
        | Err e => (mk_indexed st (index s) (untold s), Err e)
        | Ok reached => let '(s, told) := tell st s (to_tell verb reached) in
                        (s, Ok (reached, match told with Ok _ => None | Err e => Some e end))
        end).
(** [forget_subject], [forget_cascading] and [sweep_expired] of the wrapper:
    what the index was not told is their error. *)
Definition erase (s : IndexedMemoryStore) (verb : MemoryErasure) : option (IndexedMemoryStore * result EraseError Reached) :=
  '(s, r) ← erase_reaching s verb;
  Some (s, match r with
           | Ok (_, Some e) => Err (EraseStore e)
           | Ok (reached, None) => Ok reached
           | Err e => Err e
           end).
Definition indexed_forget (s : IndexedMemoryStore) (id : str) : IndexedMemoryStore * result EraseError unit :=
  let '(st, r) := forget (inner s) id in
  match r with
  | Err e => (mk_indexed st (index s) (untold s), Err e)
  | Ok _ => let '(s, told) := tell st s [Ids [id]] in (s, match told with Ok _ => Ok tt | Err e => Err (EraseStore e) end)
  end.

(** The other operations are the store's own. *)
Inductive IndexedOp := IForget (id : str) | IErase (verb : MemoryErasure) | IRemember (item : MemoryItem (J:=J)) | IHold (id : str) (on : bool) | ITouch (ids : list str) (at_ : Z).
Definition passed (s : IndexedMemoryStore) (o : Op (J:=J)) : IndexedMemoryStore := mk_indexed (after_op (inner s) o) (index s) (untold s).
Definition after_indexed (s : IndexedMemoryStore) (o : IndexedOp) : IndexedMemoryStore :=
  match o with
  | IForget id => (indexed_forget s id).1
  | IErase verb => match erase s verb with Some (s, _) => s | None => s end
  | IRemember item => passed s (MRemember item)
  | IHold id on => passed s (MHold id on)
  | ITouch ids at_ => passed s (MTouch ids at_)
  end.
Definition run_indexed (s : IndexedMemoryStore) (os : list IndexedOp) : IndexedMemoryStore := foldl after_indexed s os.
(** Whether an erasure answered that nothing was left untold. *)
Definition erased_ok (s : IndexedMemoryStore) (o : IndexedOp) : bool :=
  match o with
  | IForget id => is_ok (indexed_forget s id).2
  | IErase verb => match erase s verb with Some (_, r) => is_ok r | None => false end
  | _ => false
  end.
Definition filed i : Filed := (m_subject i, m_id i, m_version i).

(** ** What is owed *)
(** A vector the index holds is one nobody asked it to drop, or is owed. *)
Definition covered (s : IndexedMemoryStore) v : Prop := sr_holds (index s) v -> exists f, f ∈ untold s /\ names f v = true.
Lemma deliver_spec owed : forall ix ix' owed' r v, deliver ix owed = (ix', owed', r) ->
  (is_ok r = true -> owed' = []) /\
  (sr_holds ix' v -> sr_holds ix v /\ forall f, f ∈ owed -> names f v = true -> f ∈ owed').
Proof.
  induction owed as [|f owed IH]; intros ix ix' owed' r v; simpl; [intros [= <- <- <-]; split; [done|intros Hv; split; [done|by intros f ?%not_elem_of_nil]]|].
  destruct (sr_forget ix f) as [ix1 [[]|e]] eqn:Hf.
  - intros Hd. destruct (IH _ _ _ _ v Hd) as [Hok Hv]. split; [done|]. intros Hh. destruct (Hv Hh) as [Hh1 Hown].
    split; [by eapply sr_kept|]. intros g [->|Hg]%elem_of_cons Hn; [|by apply Hown]. by rewrite (sr_dropped _ _ _ _ Hf Hh1) in Hn.
  - intros [= <- <- <-]. split; [done|]. intros Hh. split; [by eapply sr_kept|done].
Qed.
Lemma tell_spec st s l s' r v : tell st s l = (s', r) -> inner s' = st /\ (is_ok r = true -> untold s' = []) /\
  (sr_holds (index s') v -> sr_holds (index s) v) /\ (covered s v \/ (exists f, f ∈ l /\ names f v = true) -> covered s' v).
Proof.
  unfold tell. destruct (deliver _ _) as [[ix owed] r'] eqn:Hd. intros [= <- <-]. simpl. destruct (deliver_spec _ _ _ _ _ v Hd) as [Hok Hv].
  split_and!; [done|done|by intros Hh; destruct (Hv Hh)|]. unfold covered. simpl. intros Hc Hh. destruct (Hv Hh) as [Hh0 Hown].
  destruct Hc as [Hc|(f & Hf & Hn)]; [destruct (Hc Hh0) as (f & Hf & Hn)|]; exists f; (split; [|done]); apply Hown; [|done| |done]; apply elem_of_app; auto.
Qed.
Lemma names_ids ids v : v.1.2 ∈ ids -> names (Ids ids) v = true.
Proof. intros Hin. by apply bool_decide_eq_true_2. Qed.
Lemma names_versions l v vs : (v.1.2, vs) ∈ l -> v.2 ∈ vs -> names (Versions l) v = true.
Proof. intros Hin Hv. simpl. apply existsb_exists. exists (v.1.2, vs). split; [by apply list_elem_of_In|]. simpl. by rewrite !bool_decide_eq_true_2. Qed.
(** What a verb removed is what it will tell. *)
Lemma store_erase_told st verb st' r n i : mem_ok st -> store_erase st verb = Some (st', r) -> items st !! n = Some i -> items st' !! n = None ->
  exists reached, r = Ok reached /\ exists f, f ∈ to_tell verb reached /\ names f (filed i) = true.
Proof.
  intros Hok Hr Hi Hn. destruct (mk_items _ Hok _ _ Hi) as [Eid Ever (c & Hc & Hsub & _)].
  destruct verb as [s|root|at_]; simpl in Hr.
  - unfold forget_subject in Hr. destruct (list_find _ _) as [[k id]|] eqn:Hf; simplify_eq.
    eexists. split; [done|]. exists (SubjectOf s). split; [by left|]. apply bool_decide_eq_true_2. simpl.
    pose proof (list_find_none _ _ Hf) as Hno. simpl in Hno.
    destruct (foldl_erases erase_member (in_subject st s) st Hok Hno) as [He _]; [by intros; apply erase_member_ok|].
    rewrite (er_items _ _ _ He) in Hn. destruct (decide (n.1 ∈ in_subject st s)) as [Hin|]; [|congruence].
    apply (elem_of_in_subject _ _ _ Hok) in Hin as (c' & Hc' & <-). congruence.
  - destruct (cascade_spec st root Hok) as (st1 & r1 & Hcas & _ & Hcd). rewrite Hcas in Hr. simpl in Hr. destruct r1 as [cas|e]; simplify_eq.
    + eexists. split; [done|]. destruct Hcd as (Hcd & _ & Hnamed).
      destruct (traverse_exact st root) as (d & dv & _ & Hd & Hreach & _).
      assert (reached st root n) as Hrn.
      { apply Hreach. destruct (decide (touches d dv n)) as [|Hno]; [done|].
        assert (items st' !! n = Some i) as E; [|congruence]. apply (cd_items _ _ _ Hcd). split; [done|]. by intros Hr%Hreach. }
      destruct (Hnamed n ltac:(eauto) Hrn) as [He|(vs & Hvs & Hv)].
      * exists (Ids (fst <$> erased cas)). split; [|apply names_ids; simpl; congruence]. simpl. apply elem_of_app. left.
        destruct (erased cas); [by apply not_elem_of_nil in He|by left].
      * exists (Versions (trimmed cas)). split; [|apply (names_versions _ _ vs); simpl; congruence]. simpl. apply elem_of_app. right.
        destruct (trimmed cas); [by apply not_elem_of_nil in Hvs|by left].
    + destruct Hcd as [-> _]. congruence.
  - injection Hr as <- <-. eexists. split; [done|].
    assert (forall id, id ∈ (expired_at st at_).*1 -> id ∉ mem_holds st) as Hno.
    { intros id ([x v] & -> & Hx)%list_elem_of_fmap. by eapply expired_spec. }
    destruct (foldl_erases (erase_id true) (expired_at st at_).*1 st Hok Hno) as [He _]; [by intros; apply erase_id_ok|].
    change (items (foldl (erase_id true) st (expired_at st at_).*1) !! n = None) in Hn. rewrite (er_items _ _ _ He) in Hn. destruct (decide (n.1 ∈ _)) as [Hin|]; [|congruence].
    exists (Ids (expired_at st at_).*1). split; [|apply names_ids; simpl; congruence]. simpl.
    destruct (expired_at st at_); [by apply not_elem_of_nil in Hin|by left].
Qed.
Lemma store_erase_ok st verb : mem_ok st -> exists st' r, store_erase st verb = Some (st', r) /\ mem_ok st'.
Proof.
  intros Hok. destruct verb as [s|root|at_]; simpl.
  - destruct (after_effect st (MSubject s) Hok) as [Hok' _]. simpl in Hok'. destruct (forget_subject st s) as [st' r]. eauto.
  - destruct (cascade_spec st root Hok) as (st1 & r1 & -> & Hok1 & _). simpl. eauto.
  - destruct (after_effect st (MSweep at_) Hok) as [Hok' _]. eexists _, _. split; [done|exact Hok'].
Qed.
Record told (s s' : IndexedMemoryStore) (ok : bool) : Prop := {
  td_ok : mem_ok (inner s');
  td_gone n i : items (inner s) !! n = Some i -> items (inner s') !! n = None -> covered s' (filed i);
  td_covered v : covered s v -> covered s' v;
  td_ended : ok = true -> untold s' = [];
}.
Lemma indexed_told s o : mem_ok (inner s) -> told s (after_indexed s o) (erased_ok s o).
Proof.
  intros Hok.
  assert (forall o, (forall n i, items (inner s) !! n = Some i -> is_Some (items (after_op (inner s) o) !! n)) -> told s (passed s o) false) as Hpass.
  { intros o' Hkeep. split; [by apply after_effect| |done|done]. intros n i Hi Hn. simpl in Hn. destruct (Hkeep _ _ Hi). congruence. }
  destruct o as [id|verb|item|id on|ids at_]; [| |apply Hpass|apply Hpass|apply Hpass].
  - simpl. unfold indexed_forget. pose proof (after_effect (inner s) (MForget id) Hok) as [Hok' _]. simpl in Hok'. unfold forget in *.
    destruct (decide (id ∈ mem_holds (inner s))) as [Hh|Hh]; simpl in *; [split; try done; intros n i Hi Hn; simpl in Hn; congruence|].
    destruct (tell _ s [Ids [id]]) as [s' r] eqn:Ht. simpl. split.
    + destruct (tell_spec _ _ _ _ _ ([], [], 0%Z) Ht) as [-> _]. done.
    + intros n i Hi Hn. destruct (tell_spec _ _ _ _ _ (filed i) Ht) as (Ei & _ & _ & Hc). rewrite Ei, erase_items in Hn.
      destruct (decide (n.1 = id)) as [E|]; [|congruence]. apply Hc. right. eexists. split; [by left|]. apply names_ids. simpl.
      rewrite (io_id _ _ _ (mk_items _ Hok _ _ Hi)), E. by left.
    + intros v Hv. apply (tell_spec _ _ _ _ _ v Ht). by left.
    + destruct (tell_spec _ _ _ _ _ ([], [], 0%Z) Ht) as (_ & He & _). destruct r; [by intros _; apply He|done].
  - simpl. unfold erase, erase_reaching. destruct (store_erase_ok (inner s) verb Hok) as (st' & r & Hr & Hok'). rewrite Hr. simpl.
    pose proof (fun n i => store_erase_told _ _ _ _ n i Hok Hr) as Htold. destruct r as [reached|e]; simpl.
    + destruct (tell st' s _) as [s' r] eqn:Ht. simpl. split.
      * destruct (tell_spec _ _ _ _ _ ([], [], 0%Z) Ht) as [-> _]. done.
      * intros n i Hi Hn. destruct (tell_spec _ _ _ _ _ (filed i) Ht) as (Ei & _ & _ & Hc). rewrite Ei in Hn.
        destruct (Htold n i Hi Hn) as (? & [= <-] & Hf). apply Hc. by right.
      * intros v Hv. apply (tell_spec _ _ _ _ _ v Ht). by left.
      * destruct (tell_spec _ _ _ _ _ ([], [], 0%Z) Ht) as (_ & He & _). destruct r; [by intros _; apply He|done].
    + split; try done. intros n i Hi Hn. by destruct (Htold n i Hi Hn) as (? & ? & _).
  - intros n i Hi. simpl. pose proof (remember_writes (inner s) item Hok) as Hw. destruct (remember (inner s) item) as [st' [v|e]]; simpl; [|subst; eauto].
    rewrite (wr_items _ _ _ _ Hw), Hi. case_decide; simpl; eauto.
  - intros n i Hi. simpl. unfold set_legal_hold. repeat case_match; simpl; eauto.
  - intros n i Hi. simpl. destruct (touch_ok at_ ids (inner s) Hok) as (_ & -> & _). eauto.
Qed.
Lemma run_told os : forall s, mem_ok (inner s) -> mem_ok (inner (run_indexed s os)) /\ forall v, covered s v -> covered (run_indexed s os) v.
Proof.
  induction os as [|o os IH]; intros s Hok; simpl; [done|]. destruct (indexed_told s o Hok) as [Hok' _ Hc _].
  destruct (IH _ Hok') as [Hok2 Hc2]. split; [done|auto].
Qed.

(** C14. An erasure reaches the index.  Whatever the index refused and whatever
    ran since, a vector of an erased version that the index still holds is
    owed to it; and once any later erasure succeeds, it holds none. *)
Theorem index_follows (ix : I) os o os' n i :
  items (inner (run_indexed (mk_indexed no_memories ix []) os)) !! n = Some i ->
  items (inner (run_indexed (mk_indexed no_memories ix []) (os ++ [o]))) !! n = None ->
  let s := run_indexed (mk_indexed no_memories ix []) (os ++ o :: os') in
  (sr_holds (index s) (filed i) -> exists f, f ∈ untold s /\ names f (filed i) = true) /\
  forall o', erased_ok s o' = true -> ~ sr_holds (index (after_indexed s o')) (filed i).
Proof.
  intros Hi Hn s. assert (covered s (filed i) /\ mem_ok (inner s)) as [Hc Hok].
  { unfold s, run_indexed in *. rewrite foldl_app in *. simpl in *.
    destruct (run_told os (mk_indexed no_memories ix []) no_memories_ok) as [Hok0 _]. unfold run_indexed in Hok0.
    destruct (indexed_told _ o Hok0) as [Hok1 Hg _ _]. destruct (run_told os' _ Hok1) as [Hok2 Hc2]. split; [|done]. by apply Hc2, (Hg n). }
  split; [exact Hc|]. intros o' Ho' Hh. destruct (indexed_told s o' Hok) as [_ _ Hcv Hend].
  destruct (Hcv _ Hc Hh) as (f & Hf & _). rewrite (Hend Ho') in Hf. by apply not_elem_of_nil in Hf.
Qed.
End indexed.
