(* ===== verification/MemoryRuns.v ===== *)
(** * Properties of governed memory ([src/src/store/redb_memory.rs], [src/src/memory/indexed.rs])

    What holds of every reachable store: recall, immutable versions, holds, and
    an erasure that reaches everything derived; computed on one concrete life. *)

From S2P Require Import Prelude Digest EffectKey Index Panel Text Chain Label Memory MemoryCascade MemorySafety MemoryLineage MemoryIndex.

#[export] Instance nat_cmp_order : CmpOrder Nat.compare.
Proof. split; intros *; [apply Nat.compare_eq_iff|apply Nat.compare_antisym|rewrite !Nat.compare_lt_iff; lia]. Qed.
(** What recall ranks by. *)
Definition rank_order : nat * Z * str -> nat * Z * str -> comparison := pair_cmp (pair_cmp Nat.compare Z.compare) str_cmp.
#[export] Instance rank_order_cmp : CmpOrder rank_order := _.

(** ** Lists *)
Lemma StronglySorted_omap {A B} (R : relation A) (S : relation B) (f : A -> option B) l :
  (forall x y a b, x ∈ l -> y ∈ l -> f x = Some a -> f y = Some b -> R x y -> S a b) -> StronglySorted R l -> StronglySorted S (omap f l).
Proof.
  intros Hf Hl. induction Hl as [|x l Hl IH Hx]; simpl; [constructor|].
  assert (StronglySorted S (omap f l)) as IH' by (apply IH; intros; eapply Hf; try done; by right).
  destruct (f x) as [a|] eqn:Ha; [|done]. constructor; [done|]. apply Forall_forall. intros b (y & Hy & Hb)%list_elem_of_omap.
  eapply Hf; [by left|by right|done..|]. by eapply Forall_forall in Hx.
Qed.
Lemma NoDup_omap {A B C} (g : B -> C) (f : A -> option B) l :
  (forall x y a b, x ∈ l -> y ∈ l -> f x = Some a -> f y = Some b -> g a = g b -> x = y) -> NoDup l -> NoDup (g <$> omap f l).
Proof.
  intros Hf Hl. induction Hl as [|x l Hx Hl IH]; simpl; [constructor|].
  assert (NoDup (g <$> omap f l)) as IH' by (apply IH; intros; eapply Hf; try done; by right).
  destruct (f x) as [a|] eqn:Ha; [|done]. constructor; [|done]. intros (b & Hab & (y & Hy & Hb)%list_elem_of_omap)%list_elem_of_fmap.
  apply Hx. by rewrite (Hf x y a b ltac:(by left) ltac:(by right) Ha Hb Hab).
Qed.

Section memory_properties.
Context {J : Type} `{Sha256, MemoryJson (J:=J)}.
Implicit Types (st : Memories (J:=J)) (i : MemoryItem (J:=J)).
(** Every store there is. *)
Definition at_end (os : list Op) : Memories := run_ops no_memories os.
Lemma run_memory_app os os' st : run_ops st (os ++ os') = run_ops (run_ops st os) os'.
Proof. apply foldl_app. Qed.

(** ** Recall *)
Definition item_rank i : nat * Z * str := (trust_rank (m_trust i), (- unix (m_created i))%Z, m_id i).
Definition recalled st (as_of : option Z) (k : Ranked) : option MemoryItem :=
  i ← items st !! (k.1.2, k.2); if lapsed (effective_expiry st k.1.2 i) as_of then None else Some i.
Lemma gather_take st as_of keys : forall limit, gather st as_of limit keys = take limit (omap (recalled st as_of) keys).
Proof.
  induction keys as [|k keys IH]; intros limit; simpl; [by rewrite take_nil|]. destruct limit as [|limit]; simpl; [done|]. unfold recalled at 1.
  destruct (items st !! _) as [i|]; simpl; [|by rewrite IH]. destruct (lapsed _ _); [by rewrite IH|]. by rewrite IH, Nat.sub_0_r.
Qed.
Definition key_rank (subject : str) (purpose : option str) (x : SubjectKey * (Z * nat)) : option Ranked :=
  if in_scope subject purpose x.1 then Some (x.2.2, x.1.1.2, x.1.2, x.2.1) else None.
Lemma rank_cmp_order x y : rank_cmp x y = rank_order x.1 y.1.
Proof. unfold rank_cmp, rank_order, pair_cmp. destruct x as [[[a b] c] d], y as [[[a' b'] c'] d']. simpl. by destruct (Nat.compare a a'), (Z.compare b b'). Qed.
Lemma ranked_sorted st subject purpose : StronglySorted (fun x y : Ranked => by_cmp rank_order x.1 y.1) (ranked st subject purpose).
Proof.
  assert (Transitive (by_cmp rank_cmp)) as Ht.
  { intros x y z. unfold by_cmp. rewrite !rank_cmp_order. apply (by_cmp_trans rank_order). }
  assert (Total (by_cmp rank_cmp)) as Hto by (intros x y; unfold by_cmp; rewrite !rank_cmp_order; apply (by_cmp_total rank_order)).
  pose proof (StronglySorted_merge_sort (by_cmp rank_cmp) (omap (key_rank subject purpose) (map_to_list (by_subject st)))) as Hs.
  replace (ranked st subject purpose) with (omap Some (ranked st subject purpose)) by (generalize (ranked st subject purpose); intros l; induction l as [|k l IH]; [done|]; cbn; by f_equal).
  eapply StronglySorted_omap; [|exact Hs]. intros x y ? ? _ _ [= <-] [= <-]. unfold by_cmp. by rewrite rank_cmp_order.
Qed.
Lemma ranked_perm st subject purpose : ranked st subject purpose ≡ₚ omap (key_rank subject purpose) (map_to_list (by_subject st)).
Proof. apply merge_sort_Permutation. Qed.
Definition scoped (subject : str) (purpose : option str) i : Prop :=
  m_subject i = subject /\ match purpose with Some p => m_purpose i = p | None => True end.
Lemma elem_of_ranked st subject purpose k : mem_ok st -> k ∈ ranked st subject purpose <->
  exists i, current_item st k.1.2 None = Some i /\ scoped subject purpose i /\ k = (item_rank i, m_version i).
Proof.
  intros Hok. rewrite ranked_perm, list_elem_of_omap. setoid_rewrite current_item_at. split.
  - intros ([key w] & Hin%elem_of_map_to_list & Hk). unfold key_rank in Hk. destruct (in_scope _ _ _) eqn:Hs; [|done]. injection Hk as <-. simpl in *.
    apply (mk_subjects _ Hok) in Hin as (c & i & Hc & Ek & Hi & ->). exists i. rewrite Hc. simpl.
    destruct (mk_items _ Hok _ _ Hi) as [E1 E2 (c' & Hc' & Esub & Epur & _ & _ & Ecr)]. simpl in *. assert (c' = c) as -> by congruence.
    split_and!; [done| |].
    + unfold in_scope in Hs. rewrite Ek in Hs. simpl in Hs. apply andb_true_iff in Hs as [Hs1%bool_decide_eq_true Hs2].
      split; [congruence|]. destruct purpose; [|done]. apply bool_decide_eq_true in Hs2. congruence.
    + unfold item_rank. rewrite E1, E2, <-(Ecr eq_refl). by rewrite Ek at 1.
  - intros (i & Hc & [Hs1 Hs2] & ->). simpl in Hc. destruct (current st !! m_id i) as [c|] eqn:Hcur; [simpl in Hc|done].
    destruct (mk_items _ Hok _ _ Hc) as [E1 E2 (c' & Hc' & Esub & Epur & _ & _ & Ecr)]. simpl in *. assert (c' = c) as -> by congruence.
    exists (subject_key (m_id i) c, (cur_version c, trust_rank (m_trust i))). split.
    + apply elem_of_map_to_list, (mk_subjects _ Hok). exists c, i. done.
    + unfold key_rank, in_scope. simpl. rewrite bool_decide_eq_true_2 by congruence. simpl.
      destruct purpose as [p|]; [rewrite bool_decide_eq_true_2 by congruence|]; unfold item_rank; by rewrite E2, (Ecr eq_refl).
Qed.

(** C18. Recall is a page of the ranking.  Over every reachable store, it is
    the first rows - most trusted, then newest, then by id - of the current,
    unexpired memories of the subject and purpose, each once and none left out:
    superseded, forgotten and lapsed versions never appear. *)
Theorem recall_ranked os subject purpose as_of limit : exists l,
  recall (at_end os) subject purpose as_of limit = take limit l /\
  StronglySorted (fun i j => by_cmp rank_order (item_rank i) (item_rank j)) l /\ NoDup (m_id <$> l) /\
  forall i, i ∈ l <-> current_item (at_end os) (m_id i) as_of = Some i /\ scoped subject purpose i.
Proof.
  unfold at_end in *.
  set (st := (run_ops no_memories os)). assert (mem_ok st) as Hok by apply run_ok, no_memories_ok. exists (omap (recalled st as_of) (ranked st subject purpose)).
  assert (forall k i, k ∈ ranked st subject purpose -> recalled st as_of k = Some i -> k = (item_rank i, m_version i) /\
    scoped subject purpose i /\ current_item st (m_id i) as_of = Some i) as Hrec.
  { intros k i Hk Hr. apply (elem_of_ranked _ _ _ _ Hok) in Hk as (i' & Hc & Hs & ->). rewrite current_item_at in Hc. simpl in Hc.
    unfold recalled in Hr. simpl in Hr. destruct (current st !! m_id i') as [c|] eqn:Hcur; [simpl in Hc|done].
    assert (m_version i' = cur_version c) as E by exact (io_version _ _ _ (mk_items _ Hok _ _ Hc)). rewrite E in Hr. rewrite Hc in Hr. simpl in Hr.
    destruct (lapsed _ _) eqn:Hl; [done|]. injection Hr as <-. split_and!; [done|apply Hs..|]. unfold current_item. rewrite Hcur. simpl. rewrite Hc. simpl. by rewrite Hl. }
  split_and!; [apply gather_take| | |].
  - eapply StronglySorted_omap; [|apply ranked_sorted]. intros x y i j Hx Hy Hi Hj. destruct (Hrec _ _ Hx Hi) as (-> & _), (Hrec _ _ Hy Hj) as (-> & _). done.
  - apply NoDup_omap.
    + intros x y i j Hx Hy Hi Hj E. destruct (Hrec _ _ Hx Hi) as (-> & _ & Hci), (Hrec _ _ Hy Hj) as (-> & _ & Hcj). rewrite E in Hci. by simplify_eq.
    + rewrite ranked_perm. rewrite <-(list_fmap_id (omap _ _)). apply NoDup_omap; [|apply NoDup_map_to_list].
      intros [key w] [key' w'] a b Hx%elem_of_map_to_list Hy%elem_of_map_to_list Ha Hb E. simpl in E. subst b. unfold key_rank in *.
      destruct (in_scope _ _ _), (in_scope _ _ _); try done. rewrite <-Ha in Hb. simpl in Hb. injection Hb as _ _ E _.
      pose proof Hx as Hx'. pose proof Hy as Hy'. apply (mk_subjects _ Hok) in Hx as (c & i & Hc & Ek & _), Hy as (c' & i' & Hc' & Ek' & _).
      rewrite E in Hc', Ek'. assert (c' = c) as -> by congruence. assert (key' = key) as -> by (rewrite Ek'; by symmetry). f_equal. congruence.
  - intros i. rewrite list_elem_of_omap. split.
    + intros (k & Hk & Hr). by destruct (Hrec _ _ Hk Hr) as (_ & Hs & Hc).
    + intros [Hc Hs]. unfold current_item in Hc. destruct (current st !! m_id i) as [c|] eqn:Hcur; [simpl in Hc|done].
      destruct (items st !! (m_id i, cur_version c)) as [i'|] eqn:Hi; [simpl in Hc|done]. destruct (lapsed _ _) eqn:Hl; [done|]. injection Hc as ->.
      exists (item_rank i, m_version i). split.
      * apply (elem_of_ranked _ _ _ _ Hok). exists i. split_and!; [|apply Hs..|done]. rewrite current_item_at. simpl. rewrite Hcur. simpl. done.
      * unfold recalled. simpl. assert (m_version i = cur_version c) as E by exact (io_version _ _ _ (mk_items _ Hok _ _ Hi)). rewrite E, Hi. simpl. by rewrite Hl.
Qed.

(** ** Every reachable store *)
(** What is retired stays so: no version of it comes back, whatever runs. *)
Lemma retired_stays st id os : mem_ok st -> id ∈ forgotten st -> id ∈ forgotten (run_ops st os) /\
  (forall v, version (run_ops st os) id v = None) /\ forall item, m_id item = id -> is_ok (remember (run_ops st os) item).2 = false.
Proof.
  intros Hok Hf. assert (mem_ok (run_ops st os)) as Hok' by by apply run_ok.
  assert (forall v, spent (run_ops st os) (id, v)) as Hsp by (intros v; apply run_spent; [done|by right]).
  assert (id ∈ forgotten (run_ops st os)) as Hf'.
  { destruct (current (run_ops st os) !! id) as [c|] eqn:Hc.
    - destruct (Hsp (cur_version c + 1)%Z) as [(c' & Hc' & Hle)|?]; [simpl in *|done]. rewrite Hc in Hc'. simplify_eq. lia.
    - destruct (Hsp 0%Z) as [(c' & Hc' & _)|?]; [simpl in *; congruence|done]. }
  pose proof (mk_gone _ Hok' _ Hf') as Hc. split_and!; [done|..].
  - intros v. unfold version. destruct (items _ !! _) as [i|] eqn:Hi; [|done]. destruct (io_current _ _ _ (mk_items _ Hok' _ _ Hi)) as (c & Hc' & _). simpl in *. congruence.
  - intros item <-. pose proof (remember_writes _ item Hok') as Hw. destruct (remember _ item) as [st' [v|e]]; [|done]. by apply (wr_fresh _ _ _ _ Hw) in Hc.
Qed.

(** C19. Over any sequence of operations: a current row points at a stored,
    unsuperseded item of its scope and every other stored version of the id is
    older and superseded; the recall index lists exactly the current rows; a
    forgotten id has no current version and a held one has; both directions of
    the lineage agree; and a window is open exactly where the current version
    asks for one, no earlier than the one its write opened.  An id that was
    ever stored and has no current version is retired: whatever runs from then
    on, no version of it is ever stored again, and a write to it is refused. *)
Theorem memory_exact os os' : mem_ok (at_end os) /\
  forall id v, is_Some (version (at_end os) id v) -> current_item (at_end (os ++ os')) id None = None ->
    forall os2, let st := at_end ((os ++ os') ++ os2) in
      (forall v', version st id v' = None) /\ forall item, m_id item = id -> is_ok (remember st item).2 = false.
Proof.
  assert (forall l, mem_ok (at_end l)) as Hok by (intros l; apply run_ok, no_memories_ok). split; [apply Hok|].
  intros id v Hv Hn os2 st. assert (id ∈ forgotten (at_end (os ++ os'))) as Hf.
  { assert (spent (at_end (os ++ os')) (id, v)) as [(c & Hc & _)|?]; [|simpl in *|done].
    - unfold at_end. rewrite run_memory_app. apply run_spent; [apply Hok|]. apply stored_spent; [apply Hok|done].
    - rewrite current_item_at, Hc in Hn. simpl in Hn. destruct (mk_currents _ (Hok _) _ _ Hc) as [i Hi]. congruence. }
  unfold st, at_end. rewrite run_memory_app. by apply (retired_stays (at_end (os ++ os')) id os2).
Qed.

(** A version is immutable: read back at any later point it is what was
    written - the digest a run committed to, its content, scope, lineage and
    label - or it is gone, and then it stays gone. *)
Theorem version_immutable os os' id v i : version (at_end os) id v = Some i ->
  match version (at_end (os ++ os')) id v with
  | Some i' => selection_digest i' = selection_digest i /\ m_content i' = m_content i /\ item_label i' = item_label i /\
      m_subject i' = m_subject i /\ m_derived i' = m_derived i /\ select i' = select i
  | None => forall os2, version (at_end ((os ++ os') ++ os2)) id v = None
  end.
Proof.
  unfold at_end in *.
  intros Hi. unfold version in *. rewrite run_memory_app. assert (mem_ok (run_ops no_memories os)) as Hok by apply run_ok, no_memories_ok.
  assert (spent (run_ops no_memories os) (id, v)) as Hsp by (apply stored_spent; eauto).
  destruct (items (run_ops _ os') !! _) as [i'|] eqn:Hi'.
  - destruct (run_version os' _ _ _ Hok Hsp Hi') as (i0 & Hi0 & [->|[x ->]]); assert (i0 = i) as -> by congruence; done.
  - intros os2. rewrite !run_memory_app. destruct (items (run_ops (run_ops _ _) os2) !! _) as [i'|] eqn:Hi2; [|done].
    destruct (run_version os2 (run_ops (run_ops no_memories os) os') (id, v) i') as (i0 & Hi0 & _); [by apply run_ok|by apply run_spent|done|congruence].
Qed.

(** C17. A hold keeps: until it is lifted, whatever runs, every version of the
    held id stays readable and it keeps a current one; forgetting it, or a
    cascade or subject erasure that reaches it, is refused naming a held id. *)
Theorem held_kept os os' id : id ∈ mem_holds (at_end os) -> MHold id false ∉ os' ->
  let st := at_end (os ++ os') in
  legal_hold st id = true /\ is_Some (current_item st id None) /\
  (forall v, is_Some (version (at_end os) id v) -> is_Some (version st id v)) /\
  forget st id = (st, Err (UnderLegalHold id)) /\
  (forall root, reached st root (id, 0%Z) -> exists h, forget_cascading st root = Some (st, Err (UnderLegalHold h)) /\ h ∈ mem_holds st) /\
  (forall s, id ∈ subject_ids st s -> exists h, forget_subject st s = (st, Err (UnderLegalHold h)) /\ h ∈ mem_holds st).
Proof.
  unfold at_end in *.
  intros Hh Hno. set (st := run_ops no_memories (os ++ os')). assert (mem_ok (run_ops no_memories os)) as Hok by apply run_ok, no_memories_ok.
  assert (mem_ok st /\ id ∈ mem_holds st /\ forall v, is_Some (version (run_ops no_memories os) id v) -> is_Some (version st id v)) as (Hok' & Hh' & Hv).
  { unfold st. rewrite run_memory_app. clear st. revert Hok Hh. generalize (run_ops no_memories os). clear os.
    induction os' as [|o os' IH]; intros st Hok Hh; simpl; [done|]. destruct (after_effect st o Hok) as [Hok1 He].
    destruct (effect_held _ _ _ _ Hok He Hh) as (Hh1 & _ & Hv1); [intros ->; apply Hno; by left|].
    destruct (IH ltac:(intros ?; apply Hno; by right) _ Hok1 Hh1) as (? & ? & Hv2). split_and!; [done|done|]. intros v Hs. by apply Hv2, Hv1. }
  split_and!; [by apply bool_decide_eq_true_2| |done| | |].
  - destruct (mk_held _ Hok' _ Hh') as [c Hc]. rewrite current_item_at, Hc. by apply (mk_currents _ Hok').
  - unfold forget. by rewrite decide_True.
  - intros root Hr. destruct (cascade_spec st root Hok') as (st1 & r & -> & _ & Hspec). destruct r as [c|e].
    + destruct Hspec as (_ & Hf & _). by destruct (Hf _ Hr).
    + destruct Hspec as (-> & n & -> & Hn & _). by exists n.1.
  - intros s Hin. unfold subject_ids, iter_str in Hin. rewrite elem_of_iter_by, elem_of_list_to_set in Hin. unfold forget_subject.
    destruct (list_find _ _) as [[k h]|] eqn:Hf; [|by destruct (list_find_none _ _ Hf _ Hin)]. exists h. split; [done|]. by apply list_find_Some in Hf as (_ & ? & _).
Qed.

(** ** Erasure *)
(** C13. A cascading erasure always ends, and is all or nothing: refused with
    nothing changed exactly when what it reaches is held; otherwise what is left
    is exactly what it does not reach, and everything stored that it did reach
    is named, whole or by version. *)
Theorem cascade_exact os root : let st := at_end os in exists st' r, forget_cascading st root = Some (st', r) /\
  (is_ok r = false <-> exists n, reached st root n /\ n.1 ∈ mem_holds st) /\
  match r with
  | Err e => st' = st /\ exists n, e = UnderLegalHold n.1 /\ reached st root n /\ n.1 ∈ mem_holds st
  | Ok c => (forall id v i, version st' id v = Some i <-> version st id v = Some i /\ ~ reached st root (id, v)) /\
      (forall id v, is_Some (version st id v) -> reached st root (id, v) -> id ∈ (erased c).*1 \/ exists vs, (id, vs) ∈ trimmed c /\ v ∈ vs) /\
      (forall id, id ∈ forgotten st' <-> id ∈ forgotten st \/ doomed_by st root (inl id))
  end.
Proof.
  unfold at_end in *.
  set (st := run_ops no_memories os). assert (mem_ok st) as Hok by apply run_ok, no_memories_ok. destruct (cascade_spec st root Hok) as (st' & r & Hc & _ & Hspec).
  exists st', r. split; [done|]. destruct r as [c|e]; simpl.
  - destruct Hspec as (Hcd & Hfree & Hnamed). split; [split; [done|]; intros (n & Hn & Hh); by destruct (Hfree _ Hn)|].
    split_and!; [intros id v i; apply (cd_items _ _ _ Hcd)|intros id v; apply (Hnamed (id, v))|apply (cd_forgotten _ _ _ Hcd)].
  - destruct Hspec as (-> & n & -> & Hn & Hr). split; [split; [eauto|done]|]. split; [done|]. eauto.
Qed.

(** C12. A cascading erasure reaches everything derived.  After it succeeds,
    and whatever runs before and after, no stored version comes from what it
    erased through any chain of derivations ever written - through versions
    since superseded, forgotten or expired as well. *)
Theorem erasure_reaches os root os' st1 c v x : forget_cascading (at_end os) root = Some (st1, Ok c) ->
  rtc (leads (lineage no_memories (os ++ MCascade root :: os'))) (root, v) x ->
  items (at_end (os ++ MCascade root :: os')) !! x = None /\ root ∈ forgotten (at_end (os ++ MCascade root :: os')).
Proof.
  unfold at_end in *.
  intros Hc Hp. assert (mem_ok (run_ops no_memories os)) as Hok by apply run_ok, no_memories_ok.
  assert (forall os st os2, lineage st (os ++ os2) = lineage st os ∪ lineage (run_ops st os) os2) as Hlin.
  { clear. induction os as [|o os IH]; intros st os2; simpl; [by rewrite (left_id_L ∅ (∪))|]. by rewrite IH, (assoc_L (∪)). }
  assert (lineage_ok (run_ops no_memories os) (lineage no_memories os)) as HL.
  { rewrite <-(left_id_L ∅ (∪) (lineage no_memories os)). apply run_lineage; [apply no_memories_ok|apply lineage_none]. }
  destruct (cascade_spec (run_ops no_memories os) root Hok) as (st1' & r & Hc' & Hok1 & Hspec). rewrite Hc in Hc'. simplify_eq. destruct Hspec as (Hcd & _ & _).
  pose proof (cascade_clean _ _ _ _ HL Hcd) as Hcl. destruct (after_effect (run_ops no_memories os) (MCascade root) Hok) as [_ He].
  pose proof (lineage_effect _ _ _ _ Hok HL He) as HL1. simpl in He, HL1. rewrite Hc in He, HL1. rewrite (right_id_L ∅ (∪)) in HL1.
  destruct (run_clean os' st1' _ root Hok1 HL1 Hcl) as [Hf Hgone].
  rewrite Hlin in Hp. simpl in Hp. rewrite Hc, (left_id_L ∅ (∪)) in Hp.
  rewrite run_memory_app. simpl. rewrite Hc. split; [|done]. by eapply Hgone.
Qed.
End memory_properties.

(** ** One life, computed *)
Module MemoryWitness.
#[local] Instance hash : Sha256 := toy_hash.
#[local] Instance json : MemoryJson (J:=str) :=
  { content_bytes := str_bytes; commitment_bytes c := str_bytes (cm_subject c ++ cm_purpose c ++ cm_written_by c) }.
Definition second : Z := NANOS.
Definition note (id text : str) (t : Trust) (created : Z) (access : option Z) (from : list Selected) : MemoryItem (J:=str) :=
  mk_item id (lit "account-1") (lit "support") text [] Internal t (lit "run-1") 0 (created * second) None access None from.
Definition picked (i : MemoryItem (J:=str)) : Selected := select (with_version i 1).
(** A source; a summary of it; a summary of the summary; and one of that. *)
Definition source : MemoryItem := note (lit "m-a") (lit "poisoned") Untrusted 10 None [].
Definition summary : MemoryItem := note (lit "m-s") (lit "summed") Untrusted 20 None [picked source].
Definition further : MemoryItem := note (lit "m-t") (lit "further") Untrusted 30 None [picked summary].
Definition last_one : MemoryItem := note (lit "m-u") (lit "last") Untrusted 40 None [picked further].
(** The first summary is made again from nothing, and the second corrected away. *)
Definition cleaned : MemoryItem := note (lit "m-s") (lit "clean") Trusted 50 None [].
Definition written_down : list (Op (J:=str)) := [MRemember source; MRemember summary; MRemember further; MRemember last_one].
Definition corrected : list (Op (J:=str)) := written_down ++ [MRemember cleaned; MForget (lit "m-t")].
Definition wiped : list (Op (J:=str)) := corrected ++ [MCascade (lit "m-a")].
Definition held : list (Op (J:=str)) := corrected ++ [MHold (lit "m-u") true].
Abbreviation after os := (run_ops no_memories os).
Definition ids (l : list (MemoryItem (J:=str))) : list str := m_id <$> l.
Definition recall_ids (st : Memories (J:=str)) (limit : nat) : list str := ids (recall st (lit "account-1") None None limit).
Definition cascade_of (st : Memories (J:=str)) (root : str) : option (Cascade + EraseError) :=
  (fun x => match x.2 with Ok c => inl c | Err e => inr e end) <$> forget_cascading st root.

(** Trusted first, then newest; the cascade goes through the tombstone, keeps
    the clean version and takes the one that read the source. *)
Example memories_live :
  recall_ids (after corrected) 10 = [lit "m-s"; lit "m-u"; lit "m-a"] /\ recall_ids (after corrected) 1 = [lit "m-s"] /\
  ids (derivatives (after written_down) (lit "m-a")) = [lit "m-s"] /\ ids (derivatives (after corrected) (lit "m-a")) = [] /\
  cascade_of (after corrected) (lit "m-a") = Some (inl (mk_cascade [(lit "m-a", 1%Z); (lit "m-u", 1%Z)] [(lit "m-s", [1%Z])])) /\
  recall_ids (after wiped) 10 = [lit "m-s"] /\ (m_content <$> version (after wiped) (lit "m-s") 2) = Some (lit "clean") /\
  bool_decide (version (after wiped) (lit "m-s") 1 = None) = true /\
  cascade_of (after held) (lit "m-a") = Some (inr (UnderLegalHold (lit "m-u"))) /\
  (remember (after wiped) source).2 = Err (Backend (lit "was forgotten and cannot be reused")).
Proof. by vm_compute. Qed.

(** A new version that declares a shorter window keeps the longer one of the
    version before it: nothing touched it since it was written, and it outlives
    its creation plus its window. *)
Definition windowed (created window : Z) : Op (J:=str) := MRemember (note (lit "m-w") (lit "w") Trusted created (Some window) []).
Example window_inherited :
  access (after [windowed 10 1000; windowed 20 5]%Z) !! lit "m-w" = Some 1010%Z /\
  (current_item (after [windowed 10 1000; windowed 20 5]%Z) (lit "m-w") (Some (900 * second)%Z) = None -> False) /\
  current_item (after [windowed 20 5]%Z) (lit "m-w") (Some (900 * second)%Z) = None.
Proof. split_and!; [by vm_compute| |by vm_compute]. intros Hc%(f_equal (fun o => bool_decide (is_Some o))). by vm_compute in Hc. Qed.

(** ** Witnesses *)
Lemma version_immutable_witness : exists i i', version (at_end written_down) (lit "m-s") 1 = Some i /\
  version (at_end (written_down ++ [MRemember cleaned])) (lit "m-s") 1 = Some i' /\ m_superseded i' = Some (50 * second)%Z /\ selection_digest i' = selection_digest i.
Proof.
  assert (is_Some (version (at_end written_down) (lit "m-s") 1)) as [i Hi] by (eexists; by vm_compute).
  assert ((m_superseded <$> version (at_end (written_down ++ [MRemember cleaned])) (lit "m-s") 1) = Some (Some (50 * second)%Z)) as Hs by by vm_compute.
  destruct (version (at_end (written_down ++ [MRemember cleaned])) (lit "m-s") 1) as [i'|] eqn:Hi'; [|done]. injection Hs as Hs.
  exists i, i'. pose proof (version_immutable written_down [MRemember cleaned] (lit "m-s") 1 i Hi) as Hv. rewrite Hi' in Hv.
  split_and!; [done|done|done|apply Hv].
Defined.
Lemma memory_exact_witness : is_Some (version (at_end written_down) (lit "m-t") 1) /\
  is_ok (remember (at_end (corrected ++ [MTouch [lit "m-s"] 60%Z; MCascade (lit "m-a")])) further).2 = false.
Proof.
  assert (is_Some (version (at_end written_down) (lit "m-t") 1)) as Hv by (eexists; by vm_compute). split; [exact Hv|].
  apply (memory_exact written_down [MRemember cleaned; MForget (lit "m-t")]) with (id := lit "m-t") (v := 1%Z)
    (os2 := [MTouch [lit "m-s"] 60%Z; MCascade (lit "m-a")]); [exact Hv|by vm_compute|done].
Defined.
Lemma held_kept_witness : lit "m-u" ∈ mem_holds (at_end held) /\
  legal_hold (at_end (held ++ [MForget (lit "m-u"); MCascade (lit "m-a"); MSubject (lit "account-1"); MSweep 999])) (lit "m-u") = true.
Proof.
  assert (lit "m-u" ∈ mem_holds (at_end held)) as Hh by (apply (bool_decide_unpack _); vm_compute; exact I). split; [exact Hh|].
  apply (held_kept held [MForget (lit "m-u"); MCascade (lit "m-a"); MSubject (lit "account-1"); MSweep 999] (lit "m-u") Hh).
  by rewrite !elem_of_cons, elem_of_nil; intros [?|[?|[?|[?|?]]]].
Defined.
Lemma erasure_reaches_witness : exists st1 c, forget_cascading (at_end corrected) (lit "m-a") = Some (st1, Ok c) /\
  items (at_end (corrected ++ MCascade (lit "m-a") :: [MTouch [lit "m-u"] 60])) !! (lit "m-u", 1%Z) = None.
Proof.
  assert (is_ok (default (Err (EraseStore (Backend []))) (snd <$> forget_cascading (at_end corrected) (lit "m-a"))) = true) as Hok by by vm_compute.
  destruct (forget_cascading (at_end corrected) (lit "m-a")) as [[st1 [c|e]]|] eqn:Hr; [|done|done]. exists st1, c. split; [done|].
  apply (erasure_reaches corrected (lit "m-a") [MTouch [lit "m-u"] 60%Z] st1 c 1 (lit "m-u", 1%Z) Hr).
  eapply (rtc_l _ _ (lit "m-s", 1%Z)); [|eapply (rtc_l _ _ (lit "m-t", 1%Z)); [|eapply rtc_l; [|apply rtc_refl]]];
    unfold leads; apply (bool_decide_unpack _); vm_compute; exact I.
Defined.

(** An index that refuses its next few calls. *)
Section flaky.
Context {X : Type} `{!SemanticRetriever X}.
#[local] Program Instance flaky : SemanticRetriever (nat * X) := {
  sr_holds x v := sr_holds x.2 v;
  sr_forget x f := match x.1 with
                   | S n => ((n, x.2), Err (Backend (lit "unreachable")))
                   | 0 => let '(y, r) := sr_forget x.2 f in ((0, y), r)
                   end;
}.
Next Obligation.
  intros [[|n] x] f [m y] v; simpl; [|done]. destruct (sr_forget x f) as [z r] eqn:E. intros [= <- <- ->] Hv. by eapply sr_dropped.
Qed.
Next Obligation.
  intros [[|n] x] f [m y] r v; simpl; [|by intros [= <- <- <-]]. destruct (sr_forget x f) as [z r'] eqn:E. intros [= <- <- <-] Hv. by eapply sr_kept.
Qed.
End flaky.
#[local] Existing Instance flaky.
Definition vector (i : MemoryItem (J:=str)) : SemanticVector unit := mk_vector (m_subject i) (m_purpose i) (picked i) tt.
Definition index_of (l : list (MemoryItem (J:=str))) : nat * InMemory unit := (1, mk_in_memory false (vector <$> l)).
Abbreviation indexed_after os := (run_indexed (mk_indexed no_memories (index_of [source; last_one]) []) os).
Definition vectors_left (s : IndexedMemoryStore (J:=str) (I:=nat * InMemory unit)) : list str := (fun v => sel_id (sv_selected v)) <$> vectors (index s).2.
Definition wrapped : list (IndexedOp (J:=str)) := [IRemember source; IRemember summary; IRemember further; IRemember last_one].
(** The index refuses once: the erasure fails, the rows are gone, the vectors
    owed; and the next sweep, with nothing to erase, delivers. *)
Example index_owed :
  erased_ok (indexed_after wrapped) (IErase (Cascading (lit "m-a"))) = false /\
  recall_ids (inner (indexed_after (wrapped ++ [IErase (Cascading (lit "m-a"))]))) 10 = [] /\
  vectors_left (indexed_after (wrapped ++ [IErase (Cascading (lit "m-a"))])) = [lit "m-a"; lit "m-u"] /\
  erased_ok (indexed_after (wrapped ++ [IErase (Cascading (lit "m-a"))])) (IErase (Expired 0)) = true /\
  vectors_left (indexed_after (wrapped ++ [IErase (Cascading (lit "m-a")); IErase (Expired 0)])) = [].
Proof. by vm_compute. Qed.
Lemma index_follows_witness : exists i, items (inner (indexed_after wrapped)) !! (lit "m-u", 1%Z) = Some i /\
  sr_holds (index (indexed_after (wrapped ++ [IErase (Cascading (lit "m-a"))]))) (filed i) /\
  ~ sr_holds (index (after_indexed (indexed_after (wrapped ++ [IErase (Cascading (lit "m-a"))])) (IErase (Expired 0)))) (filed i).
Proof.
  assert (items (inner (indexed_after wrapped)) !! (lit "m-u", 1%Z) = Some (with_version last_one 1)) as Hi by by vm_compute.
  exists (with_version last_one 1). split; [exact Hi|]. split.
  { change (filed (with_version last_one 1) ∈ filed_vector <$> vectors (index (indexed_after (wrapped ++ [IErase (Cascading (lit "m-a"))]))).2).
    apply (bool_decide_unpack _); vm_compute; exact I. }
  apply (index_follows (index_of [source; last_one]) wrapped (IErase (Cascading (lit "m-a"))) [] (lit "m-u", 1%Z) _ Hi); by vm_compute.
Defined.
End MemoryWitness.
