(* ===== verification/MemoryCalls.v ===== *)
(** * A step's memory calls ([src/src/runtime/ctx.rs], [src/src/runtime/effects.rs])

    What [remember], [recall] and [compact] of a step context make of the store:
    the item a labelled value is written as, the selection a recall journals
    and how it is read back, live or on replay, and the label and lineage of a
    summary.  A recall is up to three effects - the clock, the search, the
    touch - each with a record of its own; the protocol each goes through is
    [Dispatch], and here one that has its record is not performed. *)

From stdpp Require Import pretty.
From S2P Require Import Prelude Digest EffectKey Index Panel Text Chain Label Tainted Memory MemoryCascade MemorySafety MemoryLineage.

Record MemoryWrite := mk_write { w_id : str; w_subject : str; w_purpose : str; w_expires : option Z; w_access : option Z }.
Definition new_write (id subject purpose : str) : MemoryWrite := mk_write id subject purpose None None.
Record Recall := mk_recall { rc_subject : str; rc_purpose : option str; rc_limit : nat; rc_as_of : option Z; rc_refresh : bool }.
Inductive RecallError := MissingVersion (s : Selected) | RewrittenVersion (s : Selected).

Section calls.
Context {J : Type} `{Sha256, MemoryJson (J:=J), JsonOps J}.
Implicit Types (st : Memories (J:=J)) (i : MemoryItem (J:=J)).

(** ** Writing *)
(** [remember_at]: security metadata is the value's label, never declared. *)
Definition remembered (run : str) (w : MemoryWrite) (content : Tainted J) (at_ : Z) (derived_from : list Selected) : MemoryItem (J:=J) :=
  mk_item (w_id w) (w_subject w) (w_purpose w) (value content) (iter_str (provenance (label content))) (sensitivity (label content))
    (trust (label content)) run 0 at_ (w_expires w) (w_access w) None derived_from.
Definition remember_at st (run : str) (w : MemoryWrite) (content : Tainted J) (at_ : Z) (derived_from : list Selected) : Memories * result StoreError Z :=
  remember st (remembered run w content at_ derived_from).

(** ** Reading *)
(** [RecallMemory::perform]: what the journal records. *)
Definition perform_recall st (q : Recall) (as_of : option Z) : list Selected :=
  select <$> recall st (rc_subject q) (rc_purpose q) as_of (rc_limit q).
(** Never earlier than now. *)
Definition cutoff (q : Recall) (now : Z) : Z := match rc_as_of q with Some at_ => Z.max at_ now | None => now end.
Fixpoint materialise st (picks : list Selected) : result RecallError (list (Tainted (MemoryItem (J:=J)))) :=
  match picks with
  | [] => Ok []
  | pick :: picks =>
      i ← ok_or (version st (sel_id pick) (sel_version pick)) (MissingVersion pick);
      _ ← ensure (bool_decide (selection_digest i = sel_digest pick)) (RewrittenVersion pick);
      out ← materialise st picks;
      Ok (with_label i (item_label i) :: out)
  end.
(** What a run's journal has of a recall. *)
Record Recorded := mk_recorded { rec_now : option Z; rec_selected : option (list Selected); rec_touched : bool }.
Definition unrecorded : Recorded := mk_recorded None None false.
Inductive RecallEffect := Clock | RecallMemory (as_of : Z) | TouchMemory (ids : list str) (at_ : Z).
(** The first effect the pass comes to that has no record. *)
Definition next_effect (q : Recall) (j : Recorded) : option RecallEffect :=
  match rec_now j, rec_selected j with
  | None, _ => Some Clock
  | Some now, None => Some (RecallMemory (cutoff q now))
  | Some now, Some picks =>
      if rc_refresh q && negb (bool_decide (picks = [])) && negb (rec_touched j) then Some (TouchMemory (sel_id <$> picks) now) else None
  end.
Definition performed st (e : RecallEffect) : Memories := match e with TouchMemory ids at_ => touch st ids at_ | _ => st end.
Definition recorded st (q : Recall) (clock : Z) (e : RecallEffect) (j : Recorded) : Recorded :=
  match e with
  | Clock => mk_recorded (Some clock) (rec_selected j) (rec_touched j)
  | RecallMemory as_of => mk_recorded (rec_now j) (Some (perform_recall st q (Some as_of))) (rec_touched j)
  | TouchMemory _ _ => mk_recorded (rec_now j) (rec_selected j) true
  end.
Definition recall_step (q : Recall) (clock : Z) (x : Memories * Recorded) : Memories * Recorded :=
  match next_effect q x.2 with
  | Some e => (performed x.1 e, recorded x.1 q clock e x.2)
  | None => x
  end.
(** [recall]: a pass given what is recorded, and [clock] should it ask. *)
Definition recall_call st (q : Recall) (clock : Z) (j : Recorded) :
    Memories * Recorded * result RecallError (list (Tainted (MemoryItem (J:=J)))) :=
  let x := recall_step q clock (recall_step q clock (recall_step q clock (st, j))) in
  (x, materialise x.1 (default [] (rec_selected x.2))).
(** What befalls the store and the journal: another operation, a pass of the
    recall that records its next effect, or one that stops having performed
    it and recorded nothing. *)
Inductive RecallEvent := Meanwhile (o : Op (J:=J)) | Advances (clock : Z) | StopsShort.
Definition befalls (q : Recall) (x : Memories * Recorded) (e : RecallEvent) : Memories * Recorded :=
  match e with
  | Meanwhile o => (after_op x.1 o, x.2)
  | Advances clock => recall_step q clock x
  | StopsShort => (match next_effect q x.2 with Some e => performed x.1 e | None => x.1 end, x.2)
  end.

(** ** Summaries *)
Definition sources_of (sources : list (Tainted (MemoryItem (J:=J)))) : list Selected := (fun s => select (value s)) <$> sources.
(** The prompt the model is sent, built from the sources. *)
Definition summary_prompt (instruction : J) (sources : list (Tainted (MemoryItem (J:=J)))) : Tainted J :=
  object [(lit "instruction", tainted_trusted instruction);
          (lit "memories", array ((fun s => with_label (m_content (value s)) (label s)) <$> sources))].
(** The completion's label, and over it each source's again. *)
Definition absorb (l : Label) (s : Tainted (MemoryItem (J:=J))) : Label :=
  mk_label (provenance l ∪ provenance (label s)) (match trust (label s) with Untrusted => Untrusted | Trusted => trust l end)
    (sens_max (sensitivity l) (sensitivity (label s))) (data_subjects l).
Definition summary_label (completion : Label) (sources : list (Tainted (MemoryItem (J:=J)))) : Label := foldl absorb completion sources.
Definition compact st (run id subject purpose : str) (at_ : Z) (completion : Tainted J) (sources : list (Tainted (MemoryItem (J:=J)))) :
    Memories * result StoreError Z :=
  remember_at st run (new_write id subject purpose) (with_label (value completion) (summary_label (label completion) sources)) at_ (sources_of sources).

(** ** Lemmas *)
Lemma remembered_label run w content at_ from v : let l := item_label (with_version (remembered run w content at_ from) v) in
  for_policy (label content) ⊑ for_policy l /\ trust l = trust (label content) /\ sensitivity l = sensitivity (label content) /\
  forall x, x ∈ provenance l -> x ∈ provenance (label content) \/ x = lit "memory:" ++ w_id w /\ trust (label content) = Untrusted.
Proof.
  simpl. assert (forall x, x ∈ iter_str (provenance (label content)) <-> x ∈ provenance (label content)) as Hp by (intros x; apply elem_of_iter_by).
  unfold item_label. simpl. destruct (trust (label content)) eqn:Ht; simpl; split_and!; try done.
  - split_and!; simpl; try done; [|by rewrite Ht]. intros x Hx. apply elem_of_union_l, elem_of_list_to_set. by apply Hp.
  - intros x [Hx%elem_of_list_to_set|Hx]%elem_of_union; [left; by apply Hp|]. set_solver.
  - split_and!; simpl; try done; [|by rewrite Ht]. intros x Hx. apply elem_of_union_l, elem_of_list_to_set. by apply Hp.
  - intros x [Hx%elem_of_list_to_set|Hx]%elem_of_union; [left; by apply Hp|right]. split; [|done]. by apply elem_of_singleton in Hx.
Qed.
Lemma absorb_le l s : for_policy l ⊑ for_policy (absorb l s) /\ for_policy (label s) ⊑ for_policy (absorb l s).
Proof.
  unfold absorb. destruct l as [p t x d], s as [v [p' t' x' d'] f r]; simpl. split; split_and!; simpl; try done; try set_solver;
    destruct t, t', x, x'; vm_compute; lia.
Qed.
Lemma for_policy_trans a b c : for_policy a ⊑ for_policy b -> for_policy b ⊑ for_policy c -> for_policy a ⊑ for_policy c.
Proof. intros Hab Hbc. by transitivity (for_policy b). Qed.
Lemma summary_le sources : forall l, for_policy l ⊑ for_policy (summary_label l sources) /\
  forall s, s ∈ sources -> for_policy (label s) ⊑ for_policy (summary_label l sources).
Proof.
  induction sources as [|x sources IH]; intros l; simpl; [split; [done|by intros s ?%not_elem_of_nil]|].
  destruct (IH (absorb l x)) as [IH1 IH2], (absorb_le l x) as [Ha1 Ha2]. split; [by eapply for_policy_trans|].
  intros s [->|Hs]%elem_of_cons; [by eapply for_policy_trans|by apply IH2].
Qed.
(** What a live recall read, read again later: the same, or gone. *)
Lemma materialise_ok st picks : (forall p, p ∈ picks -> exists i, version st (sel_id p) (sel_version p) = Some i /\ selection_digest i = sel_digest p) ->
  exists out, materialise st picks = Ok out /\ Forall2 (fun p (t : Tainted (MemoryItem (J:=J))) => version st (sel_id p) (sel_version p) = Some (value t) /\ label t = item_label (value t)) picks out.
Proof.
  induction picks as [|p picks IH]; intros Hp; simpl; [by exists []|]. destruct (Hp p ltac:(by left)) as (i & Hi & Hd). rewrite Hi. simpl.
  rewrite bool_decide_eq_true_2 by done. simpl. destruct IH as (out & Hout & Hf); [intros; apply Hp; by right|]. rewrite Hout. simpl.
  eexists. split; [done|]. by constructor.
Qed.
Lemma elem_of_gather st as_of keys : forall limit i, i ∈ gather st as_of limit keys -> exists n, items st !! n = Some i.
Proof.
  induction keys as [|k keys IH]; intros limit i; simpl; [by intros ?%not_elem_of_nil|]. case_match; [by intros ?%not_elem_of_nil|].
  destruct (items st !! (k.1.2, k.2)) as [j|] eqn:Hj; [|by apply IH]. case_match; [by apply IH|]. intros [->|Hi]%elem_of_cons; [eauto|by eapply IH].
Qed.
Lemma recalled_stored st q as_of p : mem_ok st -> p ∈ perform_recall st q as_of ->
  exists i, version st (sel_id p) (sel_version p) = Some i /\ selection_digest i = sel_digest p.
Proof.
  intros Hok (i & -> & (n & Hn)%elem_of_gather)%list_elem_of_fmap. exists i. unfold version. simpl. split; [|done].
  destruct (mk_items _ Hok _ _ Hn) as [-> -> _]. by destruct n.
Qed.
(** The same version, whenever it is read. *)
Definition same_recalled (t t' : Tainted (MemoryItem (J:=J))) : Prop :=
  select (value t') = select (value t) /\ m_content (value t') = m_content (value t) /\ label t' = label t.
Lemma materialise_later st st' picks out : (forall n i', spent st n -> items st' !! n = Some i' -> exists i, items st !! n = Some i /\ same_version i i') ->
  mem_ok st -> Forall2 (fun p (t : Tainted (MemoryItem (J:=J))) => version st (sel_id p) (sel_version p) = Some (value t) /\ label t = item_label (value t)) picks out ->
  (forall p, p ∈ picks -> exists i, version st (sel_id p) (sel_version p) = Some i /\ selection_digest i = sel_digest p) ->
  match materialise st' picks with
  | Ok out' => Forall2 same_recalled out out'
  | Err e => exists p, p ∈ picks /\ e = MissingVersion p /\ version st' (sel_id p) (sel_version p) = None
  end.
Proof.
  intros Hv Hok Hf. induction Hf as [|p t picks out [Hp Hl] Hf IH]; intros Hin; simpl; [constructor|].
  destruct (version st' (sel_id p) (sel_version p)) as [i'|] eqn:Hi'; simpl; [|exists p; split_and!; [by left|done|done]].
  assert (spent st (sel_id p, sel_version p)) as Hsp by (apply stored_spent; [done|by eexists]).
  destruct (Hv _ _ Hsp Hi') as (i & Hi & Hs). unfold version in Hp. rewrite Hp in Hi. injection Hi as <-.
  destruct (Hin p ltac:(by left)) as (i2 & Hi2 & Hd). unfold version in Hi2. rewrite Hp in Hi2. injection Hi2 as <-.
  assert (select i' = select (value t) /\ m_content i' = m_content (value t) /\ item_label i' = item_label (value t)) as (E1 & E2 & E3).
  { by destruct Hs as [->|[x ->]]. }
  assert (selection_digest i' = sel_digest p) as Hd' by (rewrite <-Hd; by injection E1).
  rewrite bool_decide_eq_true_2 by done. simpl. specialize (IH ltac:(intros; apply Hin; by right)).
  destruct (materialise st' picks) as [out'|e]; simpl.
  - constructor; [|done]. split_and!; [done|done|]. simpl. congruence.
  - destruct IH as (p' & ? & ?). exists p'. split; [by right|done].
Qed.
Abbreviation at_end os := (run_ops no_memories os).

(** A recall whose search is recorded: the touch is all it may still do. *)
Definition searched (now : Z) (picks : list Selected) (j : Recorded) : Prop := rec_now j = Some now /\ rec_selected j = Some picks.
Lemma searched_call st q clock now picks j : searched now picks j ->
  recall_call st q clock j = (recall_step q clock (st, j), materialise (recall_step q clock (st, j)).1 picks) /\
  searched now picks (recall_step q clock (st, j)).2 /\ next_effect q (recall_step q clock (st, j)).2 = None /\
  (recall_step q clock (st, j)).1 = match next_effect q j with Some _ => touch st (sel_id <$> picks) now | None => st end /\
  forall e, next_effect q j = Some e -> e = TouchMemory (sel_id <$> picks) now.
Proof.
  destruct j as [n l t]. intros [Hn Hl]. simpl in Hn, Hl. subst.
  assert (recall_step q clock (st, mk_recorded (Some now) (Some picks) t) =
    (match next_effect q (mk_recorded (Some now) (Some picks) t) with Some _ => touch st (sel_id <$> picks) now | None => st end,
     mk_recorded (Some now) (Some picks) (t || (rc_refresh q && negb (bool_decide (picks = [])))))) as Hs.
  { unfold recall_step, next_effect. cbn [fst snd rec_now rec_selected rec_touched]. destruct (rc_refresh q), (bool_decide (picks = [])), t; done. }
  assert (next_effect q (mk_recorded (Some now) (Some picks) (t || (rc_refresh q && negb (bool_decide (picks = []))))) = None) as Hno.
  { unfold next_effect. cbn [rec_now rec_selected rec_touched]. destruct (rc_refresh q), (bool_decide (picks = [])), t; done. }
  assert (forall st', recall_step q clock (st', mk_recorded (Some now) (Some picks) (t || (rc_refresh q && negb (bool_decide (picks = []))))) =
    (st', mk_recorded (Some now) (Some picks) (t || (rc_refresh q && negb (bool_decide (picks = [])))))) as Hstop.
  { intros st'. unfold recall_step at 1. cbn [snd]. by rewrite Hno. }
  unfold recall_call. rewrite Hs, !Hstop. split_and!; [done..|]. intros e. unfold next_effect. cbn [rec_now rec_selected rec_touched].
  destruct (rc_refresh q && _ && _); congruence.
Qed.
(** A pass with no search recorded searches, and goes on from there. *)
Lemma recall_fresh st q clock n : let now := default clock n in let picks := perform_recall st q (Some (cutoff q now)) in
  recall_call st q clock (mk_recorded n None false) = recall_call st q clock (mk_recorded (Some now) (Some picks) false).
Proof.
  intros now picks. set (j := mk_recorded (Some now) (Some picks) false).
  destruct (searched_call st q clock now picks j) as (Hc & [_ Hl] & Hn & _); [done|]. rewrite Hc. unfold recall_call.
  assert (recall_step q clock (recall_step q clock (st, j)) = recall_step q clock (st, j)) as Hstop by (unfold recall_step at 1; by rewrite Hn).
  destruct n as [n|].
  - change (recall_step q clock (st, mk_recorded (Some n) None false)) with (st, j). by rewrite Hstop, Hl.
  - change (recall_step q clock (st, mk_recorded None None false)) with (st, mk_recorded (Some now) None false).
    change (recall_step q clock (st, mk_recorded (Some now) None false)) with (st, j). by rewrite Hl.
Qed.
(** Whatever befalls it, its search stays as recorded, and the store goes on as
    under operations alone. *)
Lemma searched_on q now picks evs : forall st j, searched now picks j -> exists os,
  (foldl (befalls q) (st, j) evs).1 = run_ops st os /\ searched now picks (foldl (befalls q) (st, j) evs).2.
Proof.
  induction evs as [|e evs IH]; intros st j Hj; [by exists []|]. simpl.
  assert (exists os j', befalls q (st, j) e = (run_ops st os, j') /\ searched now picks j') as (os & j' & He & Hj').
  { destruct e as [o|clock|]; simpl.
    - by exists [o], j.
    - destruct (searched_call st q clock now picks j Hj) as (_ & Hj' & _ & Hst & _).
      destruct (recall_step q clock (st, j)) as [st' j']. simpl in *. subst st'.
      destruct (next_effect q j); [by exists [MTouch (sel_id <$> picks) now], j'|by exists [], j'].
    - destruct (searched_call st q 0 now picks j Hj) as (_ & _ & _ & _ & Hne).
      destruct (next_effect q j) as [e|]; [rewrite (Hne e eq_refl); by exists [MTouch (sel_id <$> picks) now], j|by exists [], j]. }
  rewrite He. destruct (IH (run_ops st os) j' Hj') as (os' & Hos & Hs). exists (os ++ os'). split; [|done].
  rewrite Hos. symmetry. apply foldl_app.
Qed.

(** C15. A recall is replayed, not searched again.  An uninterrupted one searches
    once, at its clock, and succeeds with the items it names, each under the
    label of its provenance.  Wherever its passes stop once the search is
    recorded - before the touch, with the touch performed and not recorded,
    or after both - and whatever else runs, a later pass reads the selection
    back, and does to the store nothing but the touch at the recorded clock,
    and that only while the touch has no record; it gives the same versions
    with the same content and labels, or says which of them is gone.  It never
    reads a different memory. *)
Theorem recall_replays os q clock recorded_now : let now := default clock recorded_now in
  let picks := perform_recall (at_end os) q (Some (cutoff q now)) in
  exists st j out, recall_call (at_end os) q clock (mk_recorded recorded_now None false) = (st, j, Ok out) /\
    searched now picks j /\ Forall (fun t => label t = item_label (value t)) out /\
    forall evs clock', let '(later, j') := foldl (befalls q) (at_end os, mk_recorded (Some now) (Some picks) false) evs in
      let '(later', j'', answer) := recall_call later q clock' j' in
      later' = (match next_effect q j' with Some _ => touch later (sel_id <$> picks) now | None => later end) /\
      searched now picks j'' /\ next_effect q j'' = None /\
      match answer with
      | Ok out' => Forall2 same_recalled out out'
      | Err e => exists p, p ∈ picks /\ e = MissingVersion p /\ version later' (sel_id p) (sel_version p) = None
      end.
Proof.
  intros now picks. assert (mem_ok (at_end os)) as Hok by apply run_ok, no_memories_ok. set (j0 := mk_recorded (Some now) (Some picks) false).
  assert (searched now picks j0) as Hj0 by done.
  assert (exists st j, recall_call (at_end os) q clock (mk_recorded recorded_now None false) = (st, j, materialise st picks) /\
    searched now picks j /\ items st = items (at_end os)) as (st & j & Hcall & Hj & Hi).
  { destruct (searched_call (at_end os) q clock now picks j0 Hj0) as (Hc & Hs & Hn & Hst & _). rewrite surjective_pairing in Hc.
    assert (items (recall_step q clock (at_end os, j0)).1 = items (at_end os)) as Hi by (rewrite Hst; case_match; [by destruct (touch_ok now (sel_id <$> picks) _ Hok) as (_ & -> & _)|done]).
    destruct (recall_step q clock (at_end os, j0)) as [st j] eqn:Hstep. simpl in *. exists st, j. split; [|done].
    rewrite recall_fresh. exact Hc. }
  assert (forall p, p ∈ picks -> exists i, version (at_end os) (sel_id p) (sel_version p) = Some i /\ selection_digest i = sel_digest p) as Hin.
  { intros p Hp. by eapply recalled_stored. }
  destruct (materialise_ok (at_end os) picks Hin) as (out & Hout & Hf). exists st, j, out.
  assert (materialise st picks = Ok out) as Hout'.
  { rewrite <-Hout. clear -Hi. induction picks as [|p l IH]; simpl; [done|]. unfold version. by rewrite Hi, IH. }
  split_and!; [by rewrite Hcall, Hout'|done| |].
  { clear -Hf. induction Hf as [|p t ps ts [_ Hl] _ IH]; constructor; done. }
  intros evs clock'. destruct (searched_on q now picks evs (at_end os) j0 Hj0) as (os' & Hlater & Hj').
  destruct (foldl _ _ evs) as [later j']. simpl in Hlater, Hj'.
  destruct (searched_call later q clock' now picks j' Hj') as (-> & Hs & Hn & Hst & _).
  destruct (recall_step q clock' (later, j')) as [later' j'']. simpl in *. split_and!; [done..|].
  assert (exists os2, later' = run_ops (at_end os) os2) as (os2 & ->).
  { rewrite Hst, Hlater. case_match; [|by exists os']. exists (os' ++ [MTouch (sel_id <$> picks) now]).
    unfold run_ops. by rewrite foldl_app. }
  apply (materialise_later (at_end os)); [|done|done|done]. intros n i'. by apply run_version.
Qed.

(** What was stored, whenever it is read. *)
Lemma stored_label os os' run w content at_ from st v i : remember_at (at_end os) run w content at_ from = (st, Ok v) ->
  version (run_ops st os') (w_id w) v = Some i ->
  m_content i = value content /\ for_policy (label content) ⊑ for_policy (item_label i) /\ trust (item_label i) = trust (label content) /\
  sensitivity (item_label i) = sensitivity (label content) /\ m_derived i = from /\
  forall s, s ∈ from -> exists j, version (at_end os) (sel_id s) (sel_version s) = Some j /\ selection_digest j = sel_digest s /\ m_subject j = w_subject w.
Proof.
  intros Hr Hv. assert (mem_ok (at_end os)) as Hok by apply run_ok, no_memories_ok. unfold remember_at in Hr.
  pose proof (remember_writes _ (remembered run w content at_ from) Hok) as Hw. rewrite Hr in Hw.
  assert (items st !! (w_id w, v) = Some (with_version (remembered run w content at_ from) v)) as Hi by (by rewrite (wr_items _ _ _ _ Hw), decide_True).
  assert (mem_ok st) as Hok' by (by eapply writes_ok).
  destruct (run_version os' st (w_id w, v) i Hok') as (i0 & Hi0 & Hs); [apply stored_spent; [done|by eexists]|done|]. rewrite Hi in Hi0. injection Hi0 as <-.
  destruct (remembered_label run w content at_ from v) as (Hle & Ht & Hse & _).
  assert (item_label i = item_label (with_version (remembered run w content at_ from) v) /\ m_content i = value content /\ m_derived i = from) as (-> & Hc & Hd)
    by (by destruct Hs as [->|[x ->]]).
  split_and!; try done. apply (wr_sources _ _ _ _ Hw).
Qed.
Lemma assembled_le (xs : list (Tainted J)) : forall acc, acc ⊑ foldl assemble_label acc xs /\ forall x, x ∈ xs -> label x ⊑ foldl assemble_label acc xs.
Proof.
  induction xs as [|y xs IH]; intros acc; simpl; [split; [done|by intros x ?%not_elem_of_nil]|]. destruct (IH (assemble_label acc y)) as [Hy1 Hy2].
  split; [etransitivity; [|exact Hy1]; apply (jl_le_l (A:=Label))|]. intros x [->|Hx]%elem_of_cons; [etransitivity; [|exact Hy1]; apply (jl_le_r (A:=Label))|by apply Hy2].
Qed.
Lemma prompt_le instruction sources s : s ∈ sources -> label s ⊑ label (summary_prompt instruction sources).
Proof.
  intros Hs. unfold summary_prompt, object. simpl. etransitivity; [|apply (jl_le_r (A:=Label))]. simpl.
  set (xs := _ <$> sources). change (label s) with (label (with_label (m_content (value s)) (label s))). apply assembled_le. apply list_elem_of_fmap. eauto.
Qed.

(** C16. Storing a value does not launder it.  Whatever runs between, a stored
    version reads back with the content written, sources that include the
    value's, and exactly its trust and its sensitivity; a summary's sources,
    trust and sensitivity are at least those of everything it was made from,
    with each source named at the version and digest read; the model that
    makes it is shown a value labelled at least as every source.  A store
    keeps no data-subject references: what it gives back has none. *)
Theorem memory_never_launders os run at_ st v os' i :
  (forall w content from, remember_at (at_end os) run w content at_ from = (st, Ok v) -> version (run_ops st os') (w_id w) v = Some i ->
    m_content i = value content /\ for_policy (label content) ⊑ for_policy (item_label i) /\
    trust (item_label i) = trust (label content) /\ sensitivity (item_label i) = sensitivity (label content) /\
    data_subjects (item_label i) = ∅) /\
  (forall id subject purpose instruction completion sources, compact (at_end os) run id subject purpose at_ completion sources = (st, Ok v) ->
    version (run_ops st os') id v = Some i ->
    for_policy (label completion) ⊑ for_policy (item_label i) /\
    forall s, s ∈ sources -> label s ⊑ label (summary_prompt instruction sources) /\ for_policy (label s) ⊑ for_policy (item_label i) /\
      select (value s) ∈ m_derived i /\
      exists j, version (at_end os) (m_id (value s)) (m_version (value s)) = Some j /\ selection_digest j = selection_digest (value s) /\
        m_subject j = subject).
Proof.
  split.
  - intros w content from Hr Hv. destruct (stored_label _ _ _ _ _ _ _ _ _ _ Hr Hv) as (Hc & Hle & Ht & Hs & _).
    split_and!; [done..|]. unfold item_label. simpl. by destruct (m_trust i).
  - intros id subject purpose instruction completion sources Hr Hv. unfold compact in Hr.
    destruct (stored_label _ _ _ _ _ _ _ _ _ _ Hr Hv) as (_ & Hle & _ & _ & Hd & Hsrc). simpl in Hle. destruct (summary_le sources (label completion)) as [Hc Hs].
    split; [by eapply for_policy_trans|]. intros s Hin. split; [by apply prompt_le|]. split; [eapply for_policy_trans; [by apply Hs|done]|].
    assert (select (value s) ∈ sources_of sources) as Hsel by (apply list_elem_of_fmap; eauto). split; [by rewrite Hd|].
    destruct (Hsrc _ Hsel) as (j & Hj & Hdj & Hsub). exists j. done.
Qed.
End calls.

(** ** A summary, computed *)
Module MemoryCallsExample.
Import JsonModel.
#[local] Instance hash : Sha256 := toy_hash.
#[local] Instance selected_dec : EqDecision Selected.
Proof. solve_decision. Defined.
#[local] Instance commitments : MemoryJson (J:=json) :=
  { content_bytes v := match v with JNum n => str_bytes (lit (pretty n)) | _ => [] end;
    commitment_bytes c := str_bytes (cm_subject c ++ cm_purpose c ++ cm_written_by c) }.
Definition subject : str := lit "account-1".
Definition run : str := lit "run-1".
Definition mail : Tainted json := with_label (JNum 7) (mk_label {[lit "mail://inbox"]} Untrusted Confidential ∅).
Definition to (id : str) : MemoryWrite := new_write id subject (lit "support").
Definition kept : Memories (J:=json) := (remember_at no_memories run (to (lit "m-1")) mail 10 []).1.
Definition about : Recall := mk_recall subject None 10 None false.
Definition read (st : Memories (J:=json)) (journaled : option (list Selected)) : result RecallError (list (Tainted (MemoryItem (J:=json)))) :=
  (recall_call st about 20 (mk_recorded ((fun _ => 20%Z) <$> journaled) journaled false)).2.
Definition picks : list Selected := default [] (rec_selected (recall_call kept about 20 unrecorded).1.2).
Definition found : list (Tainted (MemoryItem (J:=json))) := match read kept None with Ok l => l | Err _ => [] end.
(** The model's answer is labelled trusted and public: the summary is not. *)
Definition summed : Memories (J:=json) :=
  (compact kept run (lit "m-2") subject (lit "support") 30 (with_label (JNum 8) trusted) found).1.
Definition corrected : Memories (J:=json) := (remember_at summed run (to (lit "m-1")) (tainted_trusted (JNum 9)) 40 []).1.
Definition said (r : result RecallError (list (Tainted (MemoryItem (J:=json))))) : list (str * Z * json) + option str :=
  match r with
  | Ok l => inl ((fun t => (m_id (value t), m_version (value t), m_content (value t))) <$> l)
  | Err (MissingVersion p) => inr (Some (sel_id p))
  | Err (RewrittenVersion _) => inr None
  end.
Example summary_read :
  (label <$> found) = [mk_label {[lit "mail://inbox"; lit "memory:m-1"]} Untrusted Confidential ∅] /\
  (item_label <$> version summed (lit "m-2") 1) = Some (mk_label {[lit "mail://inbox"; lit "memory:m-1"; lit "memory:m-2"]} Untrusted Confidential ∅) /\
  (m_derived <$> version summed (lit "m-2") 1) = Some picks /\
  said (read corrected None) = inl [(lit "m-1", 2%Z, JNum 9); (lit "m-2", 1%Z, JNum 8)] /\
  said (read corrected (Some picks)) = inl [(lit "m-1", 1%Z, JNum 7)] /\
  said (read (forget corrected (lit "m-1")).1 (Some picks)) = inr (Some (lit "m-1")).
Proof. repeat match goal with |- _ /\ _ => split end; apply (bool_decide_unpack _); by vm_compute. Qed.

(** A pass that stops between the two records: the resume does not search, and
    touches; stopped with the touch performed and not recorded it touches
    again, to the same window; with both recorded it touches nothing. *)
Definition refreshing : Recall := mk_recall subject None 10 None true.
Definition windowed : Memories (J:=json) := (remember_at no_memories run (mk_write (lit "m-3") subject (lit "support") None (Some 60%Z)) mail 10 []).1.
Definition later_on (evs : list (RecallEvent (J:=json))) : option Z * option Z :=
  let '(st, j) := foldl (befalls refreshing) (windowed, unrecorded) evs in
  (access st !! lit "m-3", access (recall_call st refreshing (70 * NANOS) j).1.1 !! lit "m-3").
Example recall_stopped :
  later_on [Advances (5 * NANOS); Advances 0] = (Some 60, Some 65)%Z /\
  later_on [Advances (5 * NANOS); Advances 0; StopsShort] = (Some 65, Some 65)%Z /\
  later_on [Advances (5 * NANOS); Advances 0; Advances 0] = (Some 65, Some 65)%Z.
Proof. repeat split; apply (bool_decide_unpack _); by vm_compute. Qed.
End MemoryCallsExample.
